(* ===== verification/_CoqProject ===== *)
-Q . S2P
Prelude.v
GoStrings.v
Spi.v
MemState.v
MemTx.v
MemEntity.v
MemSched.v
MemFrame.v
MemSI.v
MemIsolation.v
MemCommit.v
MemWf.v
MemClaims.v
MemHistory.v
MemSavepoint.v
MemTasks.v
MemSearch.v
MemStores.v
Workflow.v
WorkflowRun.v
WorkflowFire.v
WorkflowFrame.v
WorkflowSample.v
WorkflowSegments.v
WorkflowPath.v
WorkflowLoops.v
Schema.v
SchemaLattice.v
SchemaDelta.v
SchemaAdmit.v
SchemaExtend.v
SchemaLevel.v
SchemaSample.v
Ingest.v
ModelCache.v
ModelService.v
ModelInvariant.v
ModelCluster.v
ModelSample.v
Condition.v
ConditionMatch.v
ConditionSample.v
SearchBoundary.v
SearchSample.v
Scheduler.v
WorkflowImport.v
SchemaVersion.v
WorkflowImportProof.v
WorkflowImportStore.v
WorkflowImportSample.v
PeerAuth.v
TxToken.v
TxGate.v
MergePatch.v
EntityScope.v
EntityWrite.v
EntityDelete.v
EntitySettle.v
EntityGates.v
EntityIfMatch.v
EntitySample.v
EntityAnswer.v
EntityDeleteProof.v
AuthKeys.v
AuthJwt.v
AuthProof.v
AuthTrusted.v
AuthFresh.v
AuthSettled.v
AuthRuns.v
