(* ===== verification/Prelude.v ===== *)
(** * cyoda-go: a verification development

    The program is a server that stores JSON entities, runs a workflow for each of them
    and lets clients search them.  Requests are authenticated by the identity service
    ([internal/auth]); the entity service ([internal/domain/entity]) opens a
    transaction of the storage plugin ([plugins/memory]), checks the payload against a
    model that may grow with it ([internal/domain/model]), hands the entity to the
    workflow engine ([internal/domain/workflow]), and saves and commits; nodes of a
    cluster share a store, cache models and keys, dispatch scheduled tasks
    ([internal/scheduler], [internal/cluster]) and call compute nodes, whose callbacks
    join the transaction by a token.

    ** Conventions

    A Go function is a function here, under its own name where that is free.  Code that
    changes state is a computation of the monad [M] below: a value, an error or a panic,
    with the state it had reached.  A mutex is a step of an interleaving model where a
    theorem is about concurrency ([MemSI], [ModelCluster], [TxGate], [AuthFresh]); the
    entity service and the engine leave a trace of their calls instead, about which
    their theorems speak.  Code that is not in the repository, and effects (clock, drawn
    ids, codecs, cryptography, compute nodes), are arguments or type classes of
    operations; what is relied on of them is a separate class of laws, and each has an
    instance in a [Sample] or [Runs] file, on which the theorems are applied.  Integers
    are [Z] with [wrap64] where a width matters; strings are byte strings; Go maps are
    finite maps, or lists of entries where the order of iteration can be seen.

    ** Files

    - Shared: [Prelude] (the monad, its reasoning rules, tactics, generic lemmas),
      [GoStrings] (package [strings]), [Spi] (the value types and functions of the
      contract module [cyoda-go-spi]).
    - Memory plugin, [plugins/memory]: [MemState], [MemTx] ([txmanager.go]), [MemEntity]
      ([entity_store.go]), [MemSched], [MemSearch], [MemStores] (the other stores);
      [MemFrame], [MemSI], [MemIsolation], [MemCommit], [MemWf], [MemClaims],
      [MemHistory], [MemSavepoint], [MemTasks] their theorems: snapshot isolation with
      first-committer-wins over every interleaving, repeatable reads, atomic visibility,
      what a commit writes and that a refused one writes nothing, consistency of the
      unique-key index, version history, savepoints, fencing of stale search workers.
    - Workflow engine, [internal/domain/workflow]: [Workflow] (criteria, processors,
      segments), [WorkflowRun] (selection, cascades, entry points), [WorkflowFire] (the
      scheduler's door); [WorkflowFrame], [WorkflowSegments] (no segment is left open,
      on any path, panics included), [WorkflowPath] (moves follow the workflow's graph;
      cascades stop), [WorkflowLoops] (the loop detector decides cycles).
    - Workflow import and export: [WorkflowImport], [SchemaVersion],
      [WorkflowImportProof], [WorkflowImportStore]: all or nothing, and what is exported
      imports back.
    - Model schema, [internal/domain/model/schema]: [Schema] (merge, diff, apply),
      [SchemaAdmit] (admission, extension, validation); [SchemaLattice], [SchemaDelta]
      (deltas of concurrent writers commute), [SchemaExtend], [SchemaLevel].
    - Models in a cluster: [Ingest] ([model/ingest]), [ModelCache]
      ([internal/cluster/modelcache]), [ModelService] ([model/service.go]);
      [ModelInvariant], [ModelCluster]: what was accepted stays valid although caches
      are stale; on one node the cache cannot be seen.
    - Search boundary, [internal/domain/search] and [internal/match]: [Condition],
      [ConditionMatch] (the evaluator computes what a condition says), [SearchBoundary]
      (the negative cache is bounded and cannot be seen, admitted searches run).
    - Scheduler: [Scheduler]: every due task is dispatched after boundedly many ticks.
    - Between nodes: [PeerAuth] (no replay), [TxToken] (a token joins its own
      transaction), [TxGate] (mutual exclusion, no lost gate).
    - Entity service, [internal/domain/entity]: [MergePatch], [EntityScope]
      ([txscope.go], [errors.go]), [EntityWrite] (create, update, patch, collections),
      [EntityDelete]; [EntitySettle] (every transaction a request opened is settled),
      [EntityIfMatch] (nothing is committed before the precondition was compared),
      [EntityGates], [EntityAnswer], [EntityDeleteProof] (answers account for every
      item).
    - Identity service, [internal/auth]: [AuthKeys] ([store.go], [key_source.go],
      [jwks.go]), [AuthJwt] ([jwt.go], [validator.go], [chain.go], [delegating.go],
      [token.go]), [AuthProof] (what is issued is accepted, and for whom; what exactly is
      accepted; rotation), [AuthTrusted] ([kv_trusted_store.go]), [AuthFresh] (a
      revocation takes effect everywhere in bounded time), [AuthSettled] (a reconcile
      never undoes a mutation).
    - [WorkflowSample], [SchemaSample], [ModelSample], [ConditionSample],
      [SearchSample], [WorkflowImportSample], [EntitySample], [AuthRuns]: instances and
      runs, among them runs in which the code departs from its comments.

    ** Bounds

    Loops are structural or run on the bound the code has (the cascade's step and visit
    limits, [MaxValidationDepth], [maxReconcileAttempts], the delete's cycle budget).
    Where the code has none, the fuel is a measure with a proof that it suffices: the
    number of states for the loop detector, the number of targets for the chunks of a
    delete, the size of the number for [big.Int.Bytes].

    ** Not modelled

    SQL plugins (their behaviour is in the database), HTTP and gRPC transport, JSON text,
    generated bindings, gossip, federation with foreign identity providers, metrics,
    logging and message texts, wiring and configuration.  Inside modelled components:
    the suspension of a gate while the engine calls a compute node is not on the trace;
    a request reads the clock once in [AuthJwt]; timers and coalescing of pings are
    replaced by reconciles that may begin at any moment. *)

From stdpp Require Import base gmap strings list sorting fin_maps.

(** ** Outcomes and the state monad of Go calls

    A Go call returns a value, returns an error, or panics; in every case the
    state it mutated before that point stays mutated (deferred unlocks run, but
    nothing is undone). *)

Inductive outcome (E A : Type) : Type :=
| Ret (a : A)
| Err (e : E)
| Panic (why : string).
Arguments Ret {E A} a.
Arguments Err {E A} e.
Arguments Panic {E A} why.

Definition M (E S A : Type) : Type := S → outcome E A * S.

#[export] Instance M_ret E S : MRet (M E S) := λ A a s, (Ret a, s).
#[export] Instance M_bind E S : MBind (M E S) := λ A B f m s,
  match m s with
  | (Ret a, s') => f a s'
  | (Err e, s') => (Err e, s')
  | (Panic w, s') => (Panic w, s')
  end.

Definition fail {E S A} (e : E) : M E S A := λ s, (Err e, s).
Definition panic {E S A} (w : string) : M E S A := λ s, (Panic w, s).
Definition get {E S} : M E S S := λ s, (Ret s, s).
Definition gets {E S A} (f : S → A) : M E S A := λ s, (Ret (f s), s).
Definition put {E S} (s : S) : M E S unit := λ _, (Ret tt, s).
Definition modify {E S} (f : S → S) : M E S unit := λ s, (Ret tt, f s).
Definition lift_sum {E S A} (r : E + A) : M E S A :=
  match r with inl e => fail e | inr a => mret a end.

(** A slice expression out of range panics. *)
Definition orPanic {E S A} (o : option A) : M E S A :=
  match o with Some a => mret a | None => panic "slice bounds out of range" end.

(** [finally m g] is Go's [defer]: [g] runs whatever [m] did. *)
Definition finally {E S A} (m : M E S A) (g : S → S) : M E S A := λ s,
  let '(r, s') := m s in (r, g s').

(** [try m] turns the error of a call into a value, as [if err != nil] does. *)
Definition try {E S A} (m : M E S A) : M E S (E + A) := λ s,
  match m s with
  | (Ret a, s') => (Ret (inr a), s')
  | (Err e, s') => (Ret (inl e), s')
  | (Panic w, s') => (Panic w, s')
  end.

(** [scoped l body defer]: a function with local variables [l] captured by a
    deferred closure.  The body runs on the state paired with the locals; the
    closure sees how the body ended and the locals it left.  A panic of the
    closure replaces the body's outcome. *)
Definition scoped {E S L A} (l : L) (body : M E (S * L) A) (defer : outcome E A → L → M E S unit) :
    M E S A := λ s,
  let '(r, (s1, l1)) := body (s, l) in
  match defer r l1 s1 with
  | (Panic w, s2) => (Panic w, s2)
  | (_, s2) => (r, s2)
  end.
Definition up {E S L A} (m : M E S A) : M E (S * L) A := λ '(s, l), let '(r, s') := m s in (r, (s', l)).
Definition getL {E S L} : M E (S * L) L := λ '(s, l), (Ret l, (s, l)).
Definition setL {E S L} (l : L) : M E (S * L) unit := λ '(s, _), (Ret tt, (s, l)).

(** Left-to-right loop over a slice or over the entries of a map. *)
Fixpoint forM {E S A} (l : list A) (f : A → M E S unit) : M E S unit :=
  match l with
  | [] => mret tt
  | x :: l' => f x ;; forM l' f
  end.

(** ** Go slices

    A slice is a window of length [sl_len] on a backing array; [sl_back] lists
    the whole array, so its length is the slice's capacity.  [append] writes in
    place when there is room and reallocates otherwise, [spare] giving the
    capacity the runtime adds beyond the new length.  Cells never written hold
    the zero value [zero]. *)
Record slice (A : Type) := mkSlice { sl_back : list A; sl_len : nat }.
Arguments mkSlice {A} _ _.
Arguments sl_back {A} _.
Arguments sl_len {A} _.

Definition slice_nil {A} : slice A := mkSlice [] 0.
Definition slice_elems {A} (s : slice A) : list A := take (sl_len s) (sl_back s).
Definition slice_append {A} (zero : A) (spare : nat → nat) (s : slice A) (x : A) : slice A :=
  if decide (sl_len s < length (sl_back s))
  then mkSlice (<[sl_len s := x]> (sl_back s)) (S (sl_len s))
  else mkSlice (slice_elems s ++ x :: replicate (spare (S (sl_len s))) zero) (S (sl_len s)).
(** [s[:l]]: legal up to the capacity, a run-time panic beyond it. *)
Definition slice_reslice {A} (s : slice A) (l : nat) : option (slice A) :=
  if decide (l ≤ length (sl_back s)) then Some (mkSlice (sl_back s) l) else None.

(** ** Time

    [time.Time] is an instant in nanoseconds; the zero time is 0. *)
Abbreviation Time := Z (only parsing).
Definition IsZero (t : Time) : bool := bool_decide (t = 0%Z).
Definition After (a b : Time) : bool := bool_decide (b < a)%Z.
Definition Before (a b : Time) : bool := bool_decide (a < b)%Z.
Definition Microsecond : Z := 1000.
Definition Hour : Z := 3600000000000.

(** ** Machine integers

    [int] and [int64] are 64 bits wide: arithmetic wraps around. *)
Definition maxInt64 : Z := 9223372036854775807.
Definition wrap64 (z : Z) : Z := (z + 9223372036854775808) `mod` 18446744073709551616 - 9223372036854775808.

Lemma wrap64_small z : (- 9223372036854775808 ≤ z ≤ maxInt64)%Z → wrap64 z = z.
Proof. unfold wrap64, maxInt64. intros Hz. rewrite Z.mod_small by lia. lia. Qed.

Lemma wrap64_over z : (maxInt64 < z < 18446744073709551616)%Z → wrap64 z = (z - 18446744073709551616)%Z.
Proof.
  unfold wrap64, maxInt64. intros Hz.
  replace (z + 9223372036854775808)%Z with ((z + 9223372036854775808 - 18446744073709551616) + 1 * 18446744073709551616)%Z by lia.
  rewrite Z.mod_add, Z.mod_small by lia. lia.
Qed.

(** [l[lo:hi]] on a slice whose capacity is its length: [None] is the run-time
    panic. *)
Definition sliceRange {A} (lo hi : Z) (l : list A) : option (list A) :=
  if decide (0 ≤ lo ∧ lo ≤ hi ∧ hi ≤ Z.of_nat (length l))%Z
  then Some (take (Z.to_nat (hi - lo)) (drop (Z.to_nat lo) l)) else None.

(** [offset], [limit] windows of the stores: [end := offset + limit], clamped. *)
Definition window {A} (offset limit : Z) (l : list A) : option (list A) :=
  let total := Z.of_nat (length l) in
  if decide (total ≤ offset)%Z then Some [] else
  let stop := wrap64 (offset + limit) in
  sliceRange offset (if decide (total < stop)%Z then total else stop) l.

Lemma window_ok {A} offset limit (l : list A) :
  (0 ≤ offset)%Z → (1 ≤ limit)%Z → (offset + limit ≤ maxInt64)%Z →
  window offset limit l = Some (take (Z.to_nat limit) (drop (Z.to_nat offset) l)).
Proof.
  intros Ho Hl Hb. unfold window. case_decide as Hd; [rewrite drop_ge, take_nil by lia; done|].
  unfold maxInt64 in Hb. rewrite wrap64_small by (unfold maxInt64; lia).
  case_decide as Hs; unfold sliceRange; rewrite decide_True by lia; f_equal; [|f_equal; lia].
  rewrite !take_ge; [done|rewrite length_drop; lia..].
Qed.

(** The windows at multiples of the limit put the list back together. *)
Lemma windows_concat {A} (n : nat) (limit : Z) (l : list A) :
  (1 ≤ limit)%Z → (Z.of_nat (length l) ≤ Z.of_nat n * limit)%Z →
  mjoin ((λ i, take (Z.to_nat limit) (drop (Z.to_nat (Z.of_nat i * limit)) l)) <$> seq 0 n) = l.
Proof.
  intros Hl. revert l. induction n as [|n IH]; intros l Hn; simpl.
  { destruct l; [done|]. simpl in Hn. lia. }
  rewrite drop_0, <- fmap_S_seq, <- list_fmap_compose.
  rewrite (list_fmap_ext _ (λ i, take (Z.to_nat limit) (drop (Z.to_nat (Z.of_nat i * limit))
    (drop (Z.to_nat limit) l)))).
  - rewrite IH; [apply take_drop|]. rewrite length_drop. lia.
  - intros i x _. simpl. rewrite drop_drop. do 2 f_equal. lia.
Qed.

(** In a sorted list what is kept precedes what is cut. *)
Lemma sorted_take_drop {A} (R : relation A) l n x y :
  StronglySorted R l → x ∈ take n l → y ∈ drop n l → R x y.
Proof.
  intros Hs. revert n. induction Hs as [|a l Hs IH Ha]; intros [|n]; simpl; try (by intros ?%not_elem_of_nil).
  intros [->|Hx]%elem_of_cons Hy; [|by eapply IH].
  rewrite Forall_forall in Ha. apply Ha. rewrite <- (take_drop n l), elem_of_app. by right.
Qed.

(** ** Reasoning about Go calls

    [stable R m]: whatever [m] returns, the state before and the state after are
    related by [R].  For a preorder [R] this is compositional, and the tactic
    [solve_stable] walks through the body of a call. *)
Definition stable {E S A} (R : relation S) (m : M E S A) : Prop := ∀ s, R s (m s).2.

Create HintDb stable.

Section Stable.
Context {E S : Type} (R : relation S) `{!PreOrder R}.

Lemma stable_ret {A} (a : A) : stable R (mret a : M E S A).
Proof. intros s. reflexivity. Qed.
Lemma stable_fail {A} e : stable R (fail e : M E S A).
Proof. intros s. reflexivity. Qed.
Lemma stable_panic {A} w : stable R (panic w : M E S A).
Proof. intros s. reflexivity. Qed.
Lemma stable_get : stable R (get : M E S S).
Proof. intros s. reflexivity. Qed.
Lemma stable_gets {A} (f : S → A) : stable R (gets f : M E S A).
Proof. intros s. reflexivity. Qed.
Lemma stable_lift_sum {A} (r : E + A) : stable R (lift_sum r : M E S A).
Proof. intros s. destruct r; reflexivity. Qed.
Lemma stable_orPanic {A} (o : option A) : stable R (orPanic o : M E S A).
Proof. intros s. destruct o; reflexivity. Qed.
Lemma stable_bind {A B} (m : M E S A) (f : A → M E S B) :
  stable R m → (∀ a, stable R (f a)) → stable R (m ≫= f).
Proof.
  intros Hm Hf s. specialize (Hm s). unfold mbind, M_bind.
  destruct (m s) as [[a|e|w] s']; simpl in *; [|done..].
  etrans; [exact Hm|apply Hf].
Qed.
Lemma stable_modify (f : S → S) : (∀ s, R s (f s)) → stable R (modify f : M E S unit).
Proof. intros H s. apply H. Qed.
Lemma stable_forM {A} (l : list A) (f : A → M E S unit) :
  (∀ a, stable R (f a)) → stable R (forM l f).
Proof.
  intros Hf. induction l as [|x l IH]; simpl; [apply stable_ret|].
  apply stable_bind; auto.
Qed.
Lemma stable_try {A} (m : M E S A) : stable R m → stable R (try m).
Proof. intros Hm s. specialize (Hm s). unfold try. by destruct (m s) as [[]]. Qed.
Lemma stable_finally {A} (m : M E S A) (g : S → S) :
  stable R m → (∀ s, R s (g s)) → stable R (finally m g).
Proof.
  intros Hm Hg s. specialize (Hm s). unfold finally.
  destruct (m s) as [r s']. simpl in *. etrans; [exact Hm|apply Hg].
Qed.
End Stable.

(** The same with local variables: the state component is related by [R]. *)
Definition onState {S L} (R : relation S) (a b : S * L) : Prop := R a.1 b.1.
#[export] Instance onState_preorder {S L} (R : relation S) : PreOrder R → PreOrder (onState (L:=L) R).
Proof.
  intros HR. split; [intros [s l]; unfold onState; reflexivity|].
  intros [s1 l1] [s2 l2] [s3 l3]. unfold onState. simpl. intros H1 H2. by transitivity s2.
Qed.

Section StableLocals.
Context {E S L : Type} (R : relation S) `{!PreOrder R}.
Lemma stable_up {A} (m : M E S A) : stable R m → stable (onState (L:=L) R) (up m).
Proof. intros Hm [s l]. specialize (Hm s). unfold up, onState. by destruct (m s). Qed.
Lemma stable_getL : stable (onState R) (getL : M E (S * L) L).
Proof. intros [s l]. unfold onState. reflexivity. Qed.
Lemma stable_setL (l : L) : stable (onState R) (setL l : M E (S * L) unit).
Proof. intros [s l']. unfold onState. reflexivity. Qed.
Lemma stable_scoped {A} (l : L) (body : M E (S * L) A) (defer : outcome E A → L → M E S unit) :
  stable (onState R) body → (∀ r l', stable R (defer r l')) → stable R (scoped l body defer).
Proof.
  intros Hb Hd s. specialize (Hb (s, l)). unfold scoped.
  destruct (body (s, l)) as [r [s1 l1]]. unfold onState in Hb. simpl in Hb. specialize (Hd r l1 s1).
  destruct (defer r l1 s1) as [[] s2]; simpl in *; by transitivity s1.
Qed.
End StableLocals.

Ltac stable_leaf :=
  first [ apply stable_ret | apply stable_fail | apply stable_panic | apply stable_get
        | apply stable_gets | apply stable_lift_sum | apply stable_orPanic ]; apply _.
#[export] Hint Extern 1 (stable _ _) => stable_leaf : stable.

Ltac stable_step :=
  first
    [ solve [auto with stable]
    | apply stable_bind; [apply _| |intros ?]
    | apply stable_forM; [apply _|intros ?]
    | apply stable_try
    | apply stable_up
    | apply stable_getL; apply _
    | apply stable_setL; apply _
    | apply stable_scoped; [apply _| |intros ??]
    | apply stable_finally; [apply _| |intros ?]
    | match goal with
      | |- stable _ (match ?x with _ => _ end) => destruct x eqn:?
      | |- stable _ (if ?x then _ else _) => destruct x eqn:?
      end ].
Ltac solve_stable := repeat stable_step.

(** Inverting a successful bind. *)
Lemma bind_Ret {E S A B} (m : M E S A) (f : A → M E S B) s b s' :
  (m ≫= f) s = (Ret b, s') → ∃ a s1, m s = (Ret a, s1) ∧ f a s1 = (Ret b, s').
Proof.
  unfold mbind, M_bind. destruct (m s) as [[a|e|w] s1]; [|done..]. eauto.
Qed.

Lemma scoped_Ret {E S L A} (l : L) (body : M E (S * L) A) defer s a s' :
  scoped l body defer s = (Ret a, s') →
  ∃ s1 l1, body (s, l) = (Ret a, (s1, l1)) ∧ (defer (Ret a) l1 s1).2 = s'.
Proof.
  unfold scoped. destruct (body (s, l)) as [r [s1 l1]] eqn:Eb.
  destruct (defer r l1 s1) as [d s2] eqn:Ed. intros H.
  assert (r = Ret a ∧ s2 = s') as [-> ->] by (destruct d; by simplify_eq).
  exists s1, l1. by rewrite Ed.
Qed.
Lemma up_Ret {E S L A} (m : M E S A) (s : S) (l : L) a s' l' :
  up m (s, l) = (Ret a, (s', l')) → m s = (Ret a, s') ∧ l' = l.
Proof. unfold up. destruct (m s). by intros [= -> -> ->]. Qed.

Lemma stable_elim {E S A} (R : relation S) (m : M E S A) s r s' :
  stable R m → m s = (r, s') → R s s'.
Proof. intros Hm Heq. specialize (Hm s). by rewrite Heq in Hm. Qed.

(** Running a call one step: the rewrite database [monad]. *)
Section Run.
Context {E S A B : Type}.
Implicit Types (s : S).
Lemma run_bind (m : M E S A) (f : A → M E S B) s :
  (m ≫= f) s = match m s with
               | (Ret a, s') => f a s' | (Err e, s') => (Err e, s') | (Panic w, s') => (Panic w, s')
               end.
Proof. done. Qed.
Lemma bind_ret (a : A) (f : A → M E S B) s : (mret a ≫= f) s = f a s.
Proof. done. Qed.
Lemma bind_gets (g : S → A) (f : A → M E S B) s : (gets g ≫= f) s = f (g s) s.
Proof. done. Qed.
Lemma bind_get (f : S → M E S B) s : (get ≫= f) s = f s s.
Proof. done. Qed.
Lemma bind_modify (g : S → S) (f : unit → M E S B) s : (modify g ≫= f) s = f tt (g s).
Proof. done. Qed.
Lemma bind_fail (e : E) (f : A → M E S B) s : (fail e ≫= f) s = (Err e, s).
Proof. done. Qed.
Lemma bind_panic w (f : A → M E S B) s : (panic w ≫= f) s = (Panic w, s).
Proof. done. Qed.
Lemma run_ret (a : A) s : (mret a : M E S A) s = (Ret a, s).
Proof. done. Qed.
Lemma run_fail (e : E) s : (fail e : M E S A) s = (Err e, s).
Proof. done. Qed.
Lemma run_panic w s : (panic w : M E S A) s = (Panic w, s).
Proof. done. Qed.
Lemma run_gets (g : S → A) s : (gets g : M E S A) s = (Ret (g s), s).
Proof. done. Qed.
Lemma run_modify (g : S → S) s : (modify g : M E S unit) s = (Ret tt, g s).
Proof. done. Qed.
Lemma run_put s0 s : (put s0 : M E S unit) s = (Ret tt, s0).
Proof. done. Qed.
Lemma bind_lift_inl (e : E) (f : A → M E S B) s : (lift_sum (inl e) ≫= f) s = (Err e, s).
Proof. done. Qed.
Lemma bind_lift_inr (a : A) (f : A → M E S B) s : (lift_sum (inr a) ≫= f) s = f a s.
Proof. done. Qed.
End Run.

Lemma bind_bind {E S A B C} (m : M E S A) (f : A → M E S B) (g : B → M E S C) s :
  ((m ≫= f) ≫= g) s = (m ≫= λ a, f a ≫= g) s.
Proof. rewrite !run_bind. by destruct (m s) as [[]]. Qed.

Lemma forM_fmap {E S A B} (f : A → B) (l : list A) (g : B → M E S unit) s :
  forM (f <$> l) g s = forM l (λ a, g (f a)) s.
Proof.
  revert s. induction l as [|a l IH]; intros s; simpl; [done|]. rewrite !run_bind.
  by destruct (g (f a) s) as [[[]| |] s'].
Qed.

Create Rewrite HintDb monad.
#[export] Hint Rewrite @bind_ret @bind_gets @bind_get @bind_modify @bind_fail @bind_panic
  @run_ret @run_fail @run_panic @run_gets @run_modify @run_put @bind_lift_inl @bind_lift_inr
  @bind_bind : monad.
Ltac mrun := autorewrite with monad; cbv beta.
Ltac mrun_in H := autorewrite with monad in H; cbv beta in H.

(** ** Triples

    [triple P m Q]: from a state in [P], however [m] ends, outcome and final state
    are in [Q]. *)
Definition triple {E S A} (P : S → Prop) (m : M E S A) (Q : outcome E A → S → Prop) : Prop :=
  ∀ s, P s → Q (m s).1 (m s).2.

Section Triples.
Context {E S : Type}.
Implicit Types (P : S → Prop).

Lemma triple_conseq {A} P P' (m : M E S A) (Q Q' : outcome E A → S → Prop) :
  triple P' m Q' → (∀ s, P s → P' s) → (∀ r s, Q' r s → Q r s) → triple P m Q.
Proof. intros Hm HP HQ s Hs. apply HQ, Hm, HP, Hs. Qed.

Lemma triple_bind {A B} P (m : M E S A) (f : A → M E S B) (R : outcome E A → S → Prop) Q :
  triple P m R → (∀ a, triple (R (Ret a)) (f a) Q) →
  (∀ e s, R (Err e) s → Q (Err e) s) → (∀ w s, R (Panic w) s → Q (Panic w) s) →
  triple P (m ≫= f) Q.
Proof.
  intros Hm Hf He Hw s Hs. specialize (Hm s Hs). rewrite run_bind.
  destruct (m s) as [[a|e|w] s']; simpl in *; auto. by apply Hf.
Qed.

Lemma triple_assoc {A B C} P (m : M E S A) (f : A → M E S B) (g : B → M E S C) Q :
  triple P (m ≫= λ a, f a ≫= g) Q → triple P ((m ≫= f) ≫= g) Q.
Proof. intros Hm s Hs. rewrite bind_bind. by apply Hm. Qed.

Definition tried {A} (Q : outcome E A → S → Prop) (r : outcome E (E + A)) (s : S) : Prop :=
  match r with
  | Ret (inr a) => Q (Ret a) s | Ret (inl e) => Q (Err e) s | Panic w => Q (Panic w) s | Err _ => False
  end.
Lemma triple_try {A} P (m : M E S A) (Q : outcome E A → S → Prop) : triple P m Q → triple P (try m) (tried Q).
Proof. intros Hm s Hs. specialize (Hm s Hs). unfold try. by destruct (m s) as [[]]. Qed.

Lemma triple_stable {A} (R : relation S) P (m : M E S A) :
  stable R m → (∀ s s', R s s' → P s → P s') → triple P m (λ _ s, P s).
Proof. intros Hm HP s Hs. by eapply HP; [apply Hm|]. Qed.

(** The locals are [l] and the state is in [P]. *)
Definition at_ {L} (l : L) P (sl : S * L) : Prop := P sl.1 ∧ sl.2 = l.

Lemma at_ret {L A} (l : L) P (a : A) (Q : outcome E A → S * L → Prop) :
  (∀ s, P s → Q (Ret a) (s, l)) → triple (at_ l P) (mret a) Q.
Proof. intros HQ [s l'] [Hs Hl]. simpl in Hs, Hl. subst l'. by apply HQ. Qed.
Lemma at_fail {L A} (l : L) P e (Q : outcome E A → S * L → Prop) :
  (∀ s, P s → Q (Err e) (s, l)) → triple (at_ l P) (fail e) Q.
Proof. intros HQ [s l'] [Hs Hl]. simpl in Hs, Hl. subst l'. by apply HQ. Qed.
Lemma at_getL {L A} (l : L) P (f : L → M E (S * L) A) Q :
  triple (at_ l P) (f l) Q → triple (at_ l P) (getL ≫= f) Q.
Proof. intros Hf [s l'] [Hs Hl]. simpl in Hs, Hl. subst l'. by apply (Hf (s, l)). Qed.
Lemma at_setL {L A} (l l' : L) P (f : unit → M E (S * L) A) Q :
  triple (at_ l' P) (f tt) Q → triple (at_ l P) (setL l' ≫= f) Q.
Proof. intros Hf [s l0] [Hs _]. by apply (Hf (s, l')). Qed.
Lemma at_up {L A B} (l : L) P (m : M E S A) (R : outcome E A → S → Prop) (f : A → M E (S * L) B) Q :
  triple P m R → (∀ a, triple (at_ l (R (Ret a))) (f a) Q) →
  (∀ e s, R (Err e) s → Q (Err e) (s, l)) → (∀ w s, R (Panic w) s → Q (Panic w) (s, l)) →
  triple (at_ l P) (up m ≫= f) Q.
Proof.
  intros Hm Hf He Hw [s l'] [Hs Hl]. simpl in Hs, Hl. subst l'. specialize (Hm s Hs). rewrite run_bind. unfold up.
  destruct (m s) as [[a|e|w] s']; simpl in *; auto. by apply (Hf a (s', l)).
Qed.
Lemma at_all {L A} (P : S * L → Prop) (m : M E (S * L) A) Q :
  (∀ l, triple (at_ l (λ s, P (s, l))) m Q) → triple P m Q.
Proof. intros Hm [s l] Hs. by apply (Hm l (s, l)). Qed.
Lemma at_pure {L A} (l : L) (φ : Prop) P P' (m : M E (S * L) A) Q :
  (∀ s, P s → φ ∧ P' s) → (φ → triple (at_ l P') m Q) → triple (at_ l P) m Q.
Proof.
  intros HP Hm [s l'] [Hs Hl]. simpl in Hs, Hl. subst l'. destruct (HP s Hs) as [Hφ Hs'].
  by apply (Hm Hφ (s, l)).
Qed.
Lemma at_conseq {L A} (l : L) P P' (m : M E (S * L) A) Q :
  triple (at_ l P') m Q → (∀ s, P s → P' s) → triple (at_ l P) m Q.
Proof. intros Hm HP [s l'] [Hs Hl]. simpl in Hs, Hl. subst l'. apply Hm. by split; [apply HP|]. Qed.

Lemma triple_scoped {L A} P (l : L) (body : M E (S * L) A) (defer : outcome E A → L → M E S unit) R Q :
  triple (at_ l P) body R →
  (∀ r l', triple (λ s, R r (s, l')) (defer r l') (λ d s, match d with Panic w => Q (Panic w) s | _ => Q r s end)) →
  triple P (scoped l body defer) Q.
Proof.
  intros Hb Hd s Hs. specialize (Hb (s, l) (conj Hs eq_refl)). unfold scoped.
  destruct (body (s, l)) as [r [s1 l1]]. simpl in *. specialize (Hd r l1 s1 Hb).
  by destruct (defer r l1 s1) as [[]].
Qed.
End Triples.

(** Closed decidable facts by evaluation. *)
Ltac by_eval := first [ vm_compute; reflexivity | apply (bool_decide_unpack _); vm_compute; exact I ].

(** Case analysis on the first condition of the goal. *)
Ltac case_if H := match goal with |- context [if ?b then _ else _] => destruct b eqn:H end.
