(* ===== verification/GoStrings.v ===== *)
(** * Go's string functions

    The functions of the packages [strings] and [bytes] the sources use, on byte
    strings, with the lemmas the components share; and the loop that stops at the
    first error. *)

From Stdlib Require Import Ascii.
From stdpp Require Import base strings list.
From S2P Require Import Prelude.

(** [for _, x := range l { if err := f(x); err != nil { return err } }]. *)
Definition firstErr {A E} (f : A → option E) : list A → option E :=
  fix go l := match l with
              | [] => None
              | x :: l => match f x with Some e => Some e | None => go l end
              end.

Lemma firstErr_None {A E} (f : A → option E) l : firstErr f l = None ↔ Forall (λ x, f x = None) l.
Proof.
  induction l as [|x l IH]; simpl; [by split; [constructor|]|].
  rewrite Forall_cons. destruct (f x); [by split; [|intros [??]]|]. naive_solver.
Qed.
Lemma firstErr_Some {A E} (f : A → option E) l e : firstErr f l = Some e → ∃ x, x ∈ l ∧ f x = Some e.
Proof.
  induction l as [|x l IH]; simpl; [done|]. destruct (f x) as [e'|] eqn:Ef.
  - intros [= ->]. exists x. split; [by left|done].
  - intros (y & Hy & He)%IH. exists y. by split; [right|].
Qed.
Lemma firstErr_app {A E} (f : A → option E) l k :
  firstErr f (l ++ k) = match firstErr f l with Some e => Some e | None => firstErr f k end.
Proof. induction l as [|x l IH]; simpl; [done|]. by destruct (f x). Qed.

Definition HasPrefix (s p : string) : bool := String.prefix p s.
Fixpoint HasSuffix (s p : string) : bool :=
  bool_decide (s = p) || match s with EmptyString => false | String _ s => HasSuffix s p end.
Fixpoint Contains (s sub : string) : bool :=
  HasPrefix s sub || match s with EmptyString => false | String _ s => Contains s sub end.
(** [s[n:]]. *)
Fixpoint dropBytes (n : nat) (s : string) : string :=
  match n, s with
  | S n, String _ s => dropBytes n s
  | _, _ => s
  end.
Definition TrimPrefix (s p : string) : string := if HasPrefix s p then dropBytes (String.length p) s else s.

(** White space in JSON text and in paths is ASCII. *)
Definition isSpace (c : ascii) : bool :=
  bool_decide (c ∈ [" "%char; "009"%char; "010"%char; "011"%char; "012"%char; "013"%char]).
Fixpoint trimLeft (s : string) : string :=
  match s with
  | EmptyString => EmptyString
  | String c s' => if isSpace c then trimLeft s' else s
  end.
Fixpoint trimRight (s : string) : string :=
  match s with
  | EmptyString => EmptyString
  | String c s => match trimRight s with
                  | EmptyString => if isSpace c then EmptyString else String c EmptyString
                  | t => String c t
                  end
  end.
Definition TrimSpace (s : string) : string := trimRight (trimLeft s).

(** [strings.Split(s, sep)] for a one-byte separator. *)
Fixpoint Split (sep : ascii) (s : string) : list string :=
  match s with
  | EmptyString => [EmptyString]
  | String c s =>
      if Ascii.eqb c sep then EmptyString :: Split sep s
      else match Split sep s with
           | [] => [String c EmptyString]
           | seg :: rest => String c seg :: rest
           end
  end.

(** [strings.ToUpper] as far as ASCII words can tell: the runes whose upper case is
    an ASCII letter are the lower-case letters, the dotless i and the long s. *)
Definition upperByte (c : ascii) : ascii :=
  let n := N_of_ascii c in if (97 <=? n)%N && (n <=? 122)%N then ascii_of_N (n - 32) else c.
Fixpoint ToUpper (s : string) : string :=
  match s with
  | EmptyString => EmptyString
  | String "196"%char (String "177"%char s) => String "I"%char (ToUpper s)
  | String "197"%char (String "191"%char s) => String "S"%char (ToUpper s)
  | String c s => String (upperByte c) (ToUpper s)
  end.

(** [s[:n]], [n] within the string. *)
Definition takeBytes (n : nat) (s : string) : string := String.substring 0 n s.

(** ** Lemmas *)

Lemma HasPrefix_app p r : HasPrefix (p +:+ r) p = true.
Proof.
  unfold HasPrefix. induction p as [|c p IH]; simpl; [by destruct r|].
  destruct (ascii_dec c c); [exact IH|done].
Qed.
Lemma HasPrefix_spec s p : HasPrefix s p = true ↔ ∃ r, s = p +:+ r.
Proof.
  split; [|intros [r ->]; apply HasPrefix_app].
  unfold HasPrefix. revert s. induction p as [|c p IH]; intros s Hs; [by exists s|].
  destruct s as [|d s]; [done|]. cbn [String.prefix] in Hs. destruct (ascii_dec c d) as [->|]; [|done].
  destruct (IH s Hs) as [r ->]. by exists r.
Qed.
Lemma dropBytes_app p r : dropBytes (String.length p) (p +:+ r) = r.
Proof. induction p as [|c p IH]; [by destruct r|exact IH]. Qed.
Lemma TrimPrefix_app p r : TrimPrefix (p +:+ r) p = r.
Proof. unfold TrimPrefix. by rewrite HasPrefix_app, dropBytes_app. Qed.
Lemma TrimPrefix_id s p : HasPrefix s p = false → TrimPrefix s p = s.
Proof. unfold TrimPrefix. by intros ->. Qed.

Lemma Split_nonempty sep s : Split sep s ≠ [].
Proof. destruct s; simpl; [done|]. case_match; [done|]. by case_match. Qed.

(** The bytes of a string, as a list. *)
Fixpoint bytesOfString (s : string) : list ascii :=
  match s with EmptyString => [] | String c s => c :: bytesOfString s end.

(** A string without the separator is one segment; the first separator ends the
    first segment. *)
Lemma Split_single sep s : sep ∉ bytesOfString s → Split sep s = [s].
Proof.
  induction s as [|c s IH]; [done|]. cbn [Split bytesOfString]. intros [Hc Hs]%not_elem_of_cons.
  destruct (Ascii.eqb_spec c sep); [by subst|]. by rewrite (IH Hs).
Qed.
Lemma Split_app sep p r : sep ∉ bytesOfString p → Split sep (p +:+ String sep r) = p :: Split sep r.
Proof.
  induction p as [|c p IH]; intros Hp.
  - change (EmptyString +:+ String sep r) with (String sep r). cbn [Split]. by rewrite Ascii.eqb_refl.
  - cbn [bytesOfString] in Hp. apply not_elem_of_cons in Hp as [Hc Hp].
    change (String c p +:+ String sep r) with (String c (p +:+ String sep r)). cbn [Split].
    destruct (Ascii.eqb_spec c sep); [by subst|]. by rewrite (IH Hp).
Qed.

Lemma trimLeft_id s : (∀ c, c ∈ bytesOfString s → isSpace c = false) → trimLeft s = s.
Proof. destruct s as [|c s]; [done|]. intros Hs. cbn [trimLeft]. by rewrite (Hs c) by left. Qed.
Lemma trimRight_id s : (∀ c, c ∈ bytesOfString s → isSpace c = false) → trimRight s = s.
Proof.
  induction s as [|c s IH]; [done|]. intros Hs. cbn [trimRight]. rewrite IH by (intros d Hd; apply Hs; by right).
  rewrite (Hs c) by left. by destruct s.
Qed.
Lemma TrimSpace_id s : (∀ c, c ∈ bytesOfString s → isSpace c = false) → TrimSpace s = s.
Proof. intros Hs. unfold TrimSpace. by rewrite trimLeft_id, trimRight_id. Qed.

Lemma bytesOfString_app s t : bytesOfString (s +:+ t) = bytesOfString s ++ bytesOfString t.
Proof. induction s as [|c s IH]; [done|]. change (String c s +:+ t) with (String c (s +:+ t)). cbn. by rewrite IH. Qed.
Lemma Contains_bytes s sub : Contains s sub = true → ∀ c, c ∈ bytesOfString sub → c ∈ bytesOfString s.
Proof.
  induction s as [|d s IH]; intros Hs c Hc; cbn [Contains] in Hs.
  - apply orb_true_iff in Hs as [[r ->]%HasPrefix_spec|]; [|done]. rewrite bytesOfString_app, elem_of_app. by left.
  - apply orb_true_iff in Hs as [[r ->]%HasPrefix_spec|Hs]; [rewrite bytesOfString_app, elem_of_app; by left|].
    right. by apply IH.
Qed.
Lemma HasPrefix_Contains p r : Contains (p +:+ r) p = true.
Proof. destruct (p +:+ r) eqn:E; cbn [Contains]; rewrite <- E, HasPrefix_app; done. Qed.
Lemma takeBytes_app p r : takeBytes (String.length p) (p +:+ r) = p.
Proof. unfold takeBytes. induction p as [|c p IH]; simpl; [by destruct r|]. by rewrite IH. Qed.
Lemma length_append s t : String.length (s +:+ t) = String.length s + String.length t.
Proof. induction s as [|c s IH]; simpl; [done|]. by rewrite IH. Qed.
