(* ===== verification/Spi.v ===== *)
(** * The storage contract's value types

    The module [cyoda-go-spi] is not part of the repository.  This file gives the
    value types the sources build and read (records with the fields they use),
    the sentinel errors they return, and, in the class [SPI], the functions of
    that module and of the Go runtime the sources call: they are parameters of
    everything downstream. *)

From stdpp Require Import base gmap strings list fin_maps.
From S2P Require Import Prelude.

(** ** Errors *)

(** The sentinels callers test with [errors.Is]; [ErrText] is an error with no
    sentinel.  The formatted context (operation, transaction id) is not kept. *)
Inductive err : Type :=
| ErrNotFound
| ErrConflict
| ErrUniqueViolation
| ErrPartialUniqueKey
| ErrTxNotFound
| ErrTxRolledBack
| ErrTxAlreadyCommitted
| ErrTxTenantMismatch
| ErrTxCommitInProgress
| ErrSavepointNotFound
| ErrAlreadyTerminal
| ErrStaleClaim
| ErrCtx (why : string)
| ErrText (msg : string).

#[export] Instance err_eq_dec : EqDecision err.
Proof. solve_decision. Defined.

(** ** Models, principals, entities *)

Record ModelRef := mkModelRef { EntityName : string; ModelVersion : string }.
#[export] Instance ModelRef_eq_dec : EqDecision ModelRef.
Proof. solve_decision. Defined.
#[export] Instance ModelRef_countable : Countable ModelRef.
Proof.
  refine (inj_countable' (λ r, (EntityName r, ModelVersion r)) (λ p, mkModelRef p.1 p.2) _).
  by intros [].
Defined.

Record Principal := mkPrincipal { p_ID : string; p_Kind : string }.
#[export] Instance Principal_eq_dec : EqDecision Principal.
Proof. solve_decision. Defined.

Record WriteAttribution := mkAttr { Attributed : Principal; Executor : Principal }.

Record EntityMeta := mkMeta {
  m_ID : string;
  m_TenantID : string;
  m_ModelRef : ModelRef;
  m_State : string;
  m_Version : Z;
  m_CreationDate : Time;
  m_LastModifiedDate : Time;
  m_TransactionID : string;
  m_ChangeType : string;
  m_ChangeUser : string;
  m_ChangeUserKind : string;
  m_ChangeExecutor : Principal;
  m_TransitionForLatestSave : string
}.

(** Entity payloads are byte strings. *)
Record Entity := mkEntity { Meta : EntityMeta; Data : string }.

Definition meta_set_TransactionID (t : string) (m : EntityMeta) : EntityMeta :=
  mkMeta (m_ID m) (m_TenantID m) (m_ModelRef m) (m_State m) (m_Version m) (m_CreationDate m)
    (m_LastModifiedDate m) t (m_ChangeType m) (m_ChangeUser m) (m_ChangeUserKind m)
    (m_ChangeExecutor m) (m_TransitionForLatestSave m).
Definition meta_set_State (st : string) (m : EntityMeta) : EntityMeta :=
  mkMeta (m_ID m) (m_TenantID m) (m_ModelRef m) st (m_Version m) (m_CreationDate m)
    (m_LastModifiedDate m) (m_TransactionID m) (m_ChangeType m) (m_ChangeUser m)
    (m_ChangeUserKind m) (m_ChangeExecutor m) (m_TransitionForLatestSave m).
Definition ent_set_TransactionID (t : string) (e : Entity) : Entity :=
  mkEntity (meta_set_TransactionID t (Meta e)) (Data e).
Definition ent_set_State (st : string) (e : Entity) : Entity :=
  mkEntity (meta_set_State st (Meta e)) (Data e).

(** ** Unique keys *)

Record UniqueKey := mkUniqueKey { uk_ID : string; uk_Fields : list string }.
Record UniqueClaim := mkUniqueClaim { KeyID : string; Signature : string }.

(** ** Request context

    [ctx_Err n] is what the [n]-th poll of [ctx.Err()] in a call answers, so a
    context can be cancelled while the call runs.  [ctx_tx] is the pointer to
    the transaction state the context carries: objects are named by their
    transaction id, which the UUID generator makes unique. *)
Record UserContext := mkUser { uc_UserID : string; uc_Kind : string; uc_TenantID : string }.
Record Ctx := mkCtx {
  ctx_user : option UserContext;
  ctx_tx : option string;
  ctx_uniqueKeys : list UniqueKey;
  ctx_Err : nat → option err
}.
Definition WithTransaction (c : Ctx) (txID : string) : Ctx :=
  mkCtx (ctx_user c) (Some txID) (ctx_uniqueKeys c) (ctx_Err c).

(** ** Transaction state *)

Record TransactionState := mkTx {
  tx_ID : string;
  tx_TenantID : string;
  tx_Origin : Principal;
  SnapshotTime : Time;
  ReadSet : gset string;
  WriteSet : gset string;
  Buffer : gmap string Entity;
  Deletes : gset string;
  DeleteAttribution : gmap string WriteAttribution;
  RolledBack : bool;
  Closed : bool
}.

Definition tx_set_ReadSet (f : gset string → gset string) (t : TransactionState) :=
  mkTx (tx_ID t) (tx_TenantID t) (tx_Origin t) (SnapshotTime t) (f (ReadSet t)) (WriteSet t)
    (Buffer t) (Deletes t) (DeleteAttribution t) (RolledBack t) (Closed t).
Definition tx_set_WriteSet (f : gset string → gset string) (t : TransactionState) :=
  mkTx (tx_ID t) (tx_TenantID t) (tx_Origin t) (SnapshotTime t) (ReadSet t) (f (WriteSet t))
    (Buffer t) (Deletes t) (DeleteAttribution t) (RolledBack t) (Closed t).
Definition tx_set_Buffer (f : gmap string Entity → gmap string Entity) (t : TransactionState) :=
  mkTx (tx_ID t) (tx_TenantID t) (tx_Origin t) (SnapshotTime t) (ReadSet t) (WriteSet t)
    (f (Buffer t)) (Deletes t) (DeleteAttribution t) (RolledBack t) (Closed t).
Definition tx_set_Deletes (f : gset string → gset string) (t : TransactionState) :=
  mkTx (tx_ID t) (tx_TenantID t) (tx_Origin t) (SnapshotTime t) (ReadSet t) (WriteSet t)
    (Buffer t) (f (Deletes t)) (DeleteAttribution t) (RolledBack t) (Closed t).
Definition tx_set_DeleteAttribution
    (f : gmap string WriteAttribution → gmap string WriteAttribution) (t : TransactionState) :=
  mkTx (tx_ID t) (tx_TenantID t) (tx_Origin t) (SnapshotTime t) (ReadSet t) (WriteSet t)
    (Buffer t) (Deletes t) (f (DeleteAttribution t)) (RolledBack t) (Closed t).
Definition tx_set_RolledBack (b : bool) (t : TransactionState) :=
  mkTx (tx_ID t) (tx_TenantID t) (tx_Origin t) (SnapshotTime t) (ReadSet t) (WriteSet t)
    (Buffer t) (Deletes t) (DeleteAttribution t) b (Closed t).
Definition tx_set_Closed (b : bool) (t : TransactionState) :=
  mkTx (tx_ID t) (tx_TenantID t) (tx_Origin t) (SnapshotTime t) (ReadSet t) (WriteSet t)
    (Buffer t) (Deletes t) (DeleteAttribution t) (RolledBack t) b.

(** ** Scheduled tasks *)

Record ScheduledTask := mkTask {
  st_ID : string;
  st_TenantID : string;
  st_Type : string;
  ScheduledTime : Z;
  TimeoutMs : option Z;
  RedispatchAfter : option Z;
  st_EntityID : string;
  ModelName : string;
  st_ModelVersion : Z;
  Transition : string;
  SourceState : string;
  ArmedAt : Z;
  AttemptCount : Z;
  ArmedBy : Principal
}.
#[export] Instance ScheduledTask_eq_dec : EqDecision ScheduledTask.
Proof. solve_decision. Defined.

Record ReconcileRequest := mkReconcile {
  rq_TenantID : string;
  rq_EntityID : string;
  rq_CurrentState : string;
  rq_Arm : list ScheduledTask;
  rq_Cancel : list string
}.

(** ** Parameters *)

(** - [ComputeClaims keys data]: the claims the unique keys give on a payload, or
      an error of the partial-key family;
    - [AttributionFor ctx]: the attributed principal and the executor of a write;
    - [ResolveOrigin ctx]: the principal at the origin of the action chain;
    - [append_spare n]: the capacity beyond [n] the runtime allocates when
      [append] grows a slice to length [n]. *)
Class SPI := {
  ComputeClaims : list UniqueKey → string → err + list UniqueClaim;
  AttributionFor : Ctx → Principal * Principal;
  ResolveOrigin : Ctx → Principal;
  append_spare : nat → nat
}.

(** ** Sample values
    Concrete arguments the witnesses run on: one claim per unique key, whose
    signature is the payload; writes attributed to the context's user. *)
Module Sample.

Definition principal (c : Ctx) : Principal :=
  match ctx_user c with Some u => mkPrincipal (uc_UserID u) (uc_Kind u) | None => mkPrincipal "" "" end.

#[export] Instance spi : SPI := {|
  ComputeClaims := λ keys data,
    if decide (data = "partial") then inl ErrPartialUniqueKey
    else inr ((λ k, mkUniqueClaim (uk_ID k) data) <$> keys);
  AttributionFor := λ c, (principal c, principal c);
  ResolveOrigin := principal;
  append_spare := λ _, 0
|}.

Definition ctx (tid : string) : Ctx := mkCtx (Some (mkUser "u" "user" tid)) None [] (λ _, None).
Definition keyed (tid : string) : Ctx :=
  mkCtx (Some (mkUser "u" "user" tid)) None [mkUniqueKey "k" ["f"]] (λ _, None).
Definition model : ModelRef := mkModelRef "order" "1".
Definition entity (id data : string) : Entity :=
  mkEntity (mkMeta id "" model "NEW" 0 0 0 "" "" "u" "user" (mkPrincipal "u" "user") "") data.
End Sample.
