(* ===== verification/MemState.v ===== *)
(** * Memory plugin: state

    [plugins/memory/store_factory.go] and the data types of [txmanager.go],
    [entity_store.go] and [scheduled_task_store.go]: the factory's entity-guarded
    maps, the transaction manager's maps, and the heap of transaction objects. *)

From stdpp Require Import base gmap strings list fin_maps.
From S2P Require Import Prelude Spi.

(** ** Factory *)

(** [entityVersion]: one row of an entity's history. *)
Record entityVersion := mkEV {
  ev_entity : option Entity;
  ev_version : Z;
  ev_transactionID : string;
  ev_submitTime : Time;
  ev_deleted : bool;
  ev_changeType : string;
  ev_user : string;
  ev_changeUserKind : string;
  ev_executor : Principal
}.

Record claimKey := mkClaimKey {
  ck_tenant : string; ck_model : string; ck_version : string;
  ck_keyID : string; ck_signature : string }.
#[export] Instance claimKey_eq_dec : EqDecision claimKey.
Proof. solve_decision. Defined.
#[export] Instance claimKey_countable : Countable claimKey.
Proof.
  refine (inj_countable'
    (λ k, (ck_tenant k, ck_model k, ck_version k, ck_keyID k, ck_signature k))
    (λ p, match p with (a, b, c, d, e) => mkClaimKey a b c d e end) _).
  by intros [].
Defined.

Record entityTenantKey := mkETK { etk_tenant : string; etk_id : string }.
#[export] Instance entityTenantKey_eq_dec : EqDecision entityTenantKey.
Proof. solve_decision. Defined.
#[export] Instance entityTenantKey_countable : Countable entityTenantKey.
Proof.
  refine (inj_countable' (λ k, (etk_tenant k, etk_id k)) (λ p, mkETK p.1 p.2) _).
  by intros [].
Defined.

(** The fields of [StoreFactory] guarded by [entityMu]. *)
Record StoreFactory := mkFactory {
  entityData : gmap string (gmap string (list entityVersion));
  txIndex : gmap string (gmap string (gmap string Z));
  uniqueClaims : gmap claimKey string;
  claimsByEntity : gmap entityTenantKey (list claimKey);
  scheduledTasks : gmap string ScheduledTask
}.

Definition emptyFactory : StoreFactory := mkFactory ∅ ∅ ∅ ∅ ∅.

Definition fac_set_entityData f (s : StoreFactory) :=
  mkFactory (f (entityData s)) (txIndex s) (uniqueClaims s) (claimsByEntity s) (scheduledTasks s).
Definition fac_set_txIndex f (s : StoreFactory) :=
  mkFactory (entityData s) (f (txIndex s)) (uniqueClaims s) (claimsByEntity s) (scheduledTasks s).
Definition fac_set_claims u c (s : StoreFactory) :=
  mkFactory (entityData s) (txIndex s) u c (scheduledTasks s).
Definition fac_set_scheduledTasks f (s : StoreFactory) :=
  mkFactory (entityData s) (txIndex s) (uniqueClaims s) (claimsByEntity s) (f (scheduledTasks s)).

(** [entityData[tid][eid]]: a missing inner map or row reads as no versions. *)
Definition tenantRows (s : StoreFactory) (tid : string) : gmap string (list entityVersion) :=
  default ∅ (entityData s !! tid).
Definition versionsOf (s : StoreFactory) (tid eid : string) : list entityVersion :=
  default [] (tenantRows s tid !! eid).
Definition setVersions (tid eid : string) (vs : list entityVersion) (s : StoreFactory) : StoreFactory :=
  fac_set_entityData (<[tid := <[eid := vs]> (tenantRows s tid)]>) s.

(** [txIndex[tid][eid][txID]]. *)
Definition txIndexOf (s : StoreFactory) (tid eid txID : string) : option Z :=
  default ∅ (default ∅ (txIndex s !! tid) !! eid) !! txID.

Definition resolveTenant (ctx : Ctx) : err + string :=
  match ctx_user ctx with
  | None => inl (ErrText "no user context in request")
  | Some uc => if decide (uc_TenantID uc = "") then inl (ErrText "user context has no tenant")
               else inr (uc_TenantID uc)
  end.

Definition releaseClaims (tenantID entityID : string) (s : StoreFactory) : StoreFactory :=
  let etk := mkETK tenantID entityID in
  fac_set_claims
    (foldl (λ m k, delete k m) (uniqueClaims s) (default [] (claimsByEntity s !! etk)))
    (delete etk (claimsByEntity s)) s.

Definition claimKeyOf (tenant model version : string) (c : UniqueClaim) : claimKey :=
  mkClaimKey tenant model version (KeyID c) (Signature c).

Definition insertClaims (entityID tenant model version : string) (claims : list UniqueClaim)
    (s : StoreFactory) : StoreFactory :=
  if decide (length claims = 0) then s else
  let keys := claimKeyOf tenant model version <$> claims in
  fac_set_claims
    (foldl (λ m k, <[k := entityID]> m) (uniqueClaims s) keys)
    (<[mkETK tenant entityID := keys]> (claimsByEntity s)) s.

Definition recordTxIndex (tid entityID txID : string) (version : Z) (s : StoreFactory) : StoreFactory :=
  if decide (txID = "") then s else
  let byEntity := default ∅ (txIndex s !! tid) in
  let byTx := default ∅ (byEntity !! entityID) in
  match byTx !! txID with
  | Some existing =>
      if decide (existing ≤ version)%Z then s
      else fac_set_txIndex (<[tid := <[entityID := <[txID := version]> byTx]> byEntity]>) s
  | None => fac_set_txIndex (<[tid := <[entityID := <[txID := version]> byTx]> byEntity]>) s
  end.

(** ** Transaction manager *)

Record committedTx := mkCommitted {
  c_id : string; c_submitTime : Time; c_seq : Z; c_writeSet : gset string }.

Record submitTimeEntry := mkSTE { ste_submitTime : Time; ste_tenantID : string }.

Inductive scheduledTaskOp : Type :=
| scheduledTaskUpsert (id : string) (task : ScheduledTask)
| scheduledTaskDelete (id : string).

Definition applyScheduledTaskOp (op : scheduledTaskOp) (dst : gmap string ScheduledTask)
    : gmap string ScheduledTask :=
  match op with
  | scheduledTaskUpsert id task => <[id := task]> dst
  | scheduledTaskDelete id => delete id dst
  end.

Record savepointSnapshot := mkSnap {
  sp_buffer : gmap string Entity;
  sp_readSet : gset string;
  sp_writeSet : gset string;
  sp_deletes : gset string;
  sp_deleteAttribution : gmap string WriteAttribution;
  sp_scheduledTaskOpsLen : nat;
  sp_supersededLens : gmap string nat
}.

(** The cells of a superseded-saves slice are entity pointers, [None] being nil. *)
Record TransactionManager := mkTM {
  active : gset string;
  committedLog : list committedTx;
  committing : gset string;
  submitTimes : gmap string submitTimeEntry;
  savepoints : gmap string (gmap string savepointSnapshot);
  txUniqueKeys : gmap string (gmap string (list UniqueKey));
  commitSeq : Z;
  txSnapshotSeq : gmap string Z;
  lastSubmitTime : Time;
  supersededSaves : gmap string (gmap string (slice (option Entity)));
  scheduledTaskOps : gmap string (list scheduledTaskOp)
}.

Definition emptyTM (floor : Time) : TransactionManager :=
  mkTM ∅ [] ∅ ∅ ∅ ∅ 0 ∅ floor ∅ ∅.

Definition tm_set_active f (m : TransactionManager) :=
  mkTM (f (active m)) (committedLog m) (committing m) (submitTimes m) (savepoints m)
    (txUniqueKeys m) (commitSeq m) (txSnapshotSeq m) (lastSubmitTime m) (supersededSaves m)
    (scheduledTaskOps m).
Definition tm_set_log l seq (m : TransactionManager) :=
  mkTM (active m) l (committing m) (submitTimes m) (savepoints m)
    (txUniqueKeys m) seq (txSnapshotSeq m) (lastSubmitTime m) (supersededSaves m)
    (scheduledTaskOps m).
Definition tm_set_committing f (m : TransactionManager) :=
  mkTM (active m) (committedLog m) (f (committing m)) (submitTimes m) (savepoints m)
    (txUniqueKeys m) (commitSeq m) (txSnapshotSeq m) (lastSubmitTime m) (supersededSaves m)
    (scheduledTaskOps m).
Definition tm_set_submitTimes f (m : TransactionManager) :=
  mkTM (active m) (committedLog m) (committing m) (f (submitTimes m)) (savepoints m)
    (txUniqueKeys m) (commitSeq m) (txSnapshotSeq m) (lastSubmitTime m) (supersededSaves m)
    (scheduledTaskOps m).
Definition tm_set_savepoints f (m : TransactionManager) :=
  mkTM (active m) (committedLog m) (committing m) (submitTimes m) (f (savepoints m))
    (txUniqueKeys m) (commitSeq m) (txSnapshotSeq m) (lastSubmitTime m) (supersededSaves m)
    (scheduledTaskOps m).
Definition tm_set_txUniqueKeys f (m : TransactionManager) :=
  mkTM (active m) (committedLog m) (committing m) (submitTimes m) (savepoints m)
    (f (txUniqueKeys m)) (commitSeq m) (txSnapshotSeq m) (lastSubmitTime m) (supersededSaves m)
    (scheduledTaskOps m).
Definition tm_set_txSnapshotSeq f (m : TransactionManager) :=
  mkTM (active m) (committedLog m) (committing m) (submitTimes m) (savepoints m)
    (txUniqueKeys m) (commitSeq m) (f (txSnapshotSeq m)) (lastSubmitTime m) (supersededSaves m)
    (scheduledTaskOps m).
Definition tm_set_lastSubmitTime t (m : TransactionManager) :=
  mkTM (active m) (committedLog m) (committing m) (submitTimes m) (savepoints m)
    (txUniqueKeys m) (commitSeq m) (txSnapshotSeq m) t (supersededSaves m)
    (scheduledTaskOps m).
Definition tm_set_supersededSaves f (m : TransactionManager) :=
  mkTM (active m) (committedLog m) (committing m) (submitTimes m) (savepoints m)
    (txUniqueKeys m) (commitSeq m) (txSnapshotSeq m) (lastSubmitTime m) (f (supersededSaves m))
    (scheduledTaskOps m).
Definition tm_set_scheduledTaskOps f (m : TransactionManager) :=
  mkTM (active m) (committedLog m) (committing m) (submitTimes m) (savepoints m)
    (txUniqueKeys m) (commitSeq m) (txSnapshotSeq m) (lastSubmitTime m) (supersededSaves m)
    (f (scheduledTaskOps m)).

(** ** The whole mutable state

    [heap] holds the transaction objects by id.  An entry of the manager's
    [active] map is a pointer into it; so is the transaction a request context
    carries, which is why an object outlives its entry in [active]. *)
Record Mem := mkMem { fac : StoreFactory; tm : TransactionManager; heap : gmap string TransactionState }.

Abbreviation MM := (M err Mem).

Definition mem_set_fac f (s : Mem) := mkMem (f (fac s)) (tm s) (heap s).
Definition mem_set_tm f (s : Mem) := mkMem (fac s) (f (tm s)) (heap s).
Definition mem_set_heap f (s : Mem) := mkMem (fac s) (tm s) (f (heap s)).

Definition mod_fac (f : StoreFactory → StoreFactory) : MM unit := modify (mem_set_fac f).
Definition mod_tm (f : TransactionManager → TransactionManager) : MM unit := modify (mem_set_tm f).

(** Dereferencing a transaction pointer and writing through it. *)
Definition deref (p : string) : MM TransactionState :=
  h ← gets heap;
  match h !! p with Some tx => mret tx | None => panic "nil transaction" end.
Definition mod_tx (p : string) (f : TransactionState → TransactionState) : MM unit :=
  modify (mem_set_heap (alter f p)).

(** The in-transaction entry check of every store operation. *)
Definition openTx (p : string) : MM TransactionState :=
  tx ← deref p;
  if RolledBack tx then fail ErrTxRolledBack else
  if Closed tx then fail ErrTxAlreadyCommitted else mret tx.

(** [uc == nil || uc.Tenant.ID != tx.TenantID]. *)
Definition tenantMismatch (ctx : Ctx) (tid : string) : bool :=
  match ctx_user ctx with
  | None => true
  | Some uc => bool_decide (uc_TenantID uc ≠ tid)
  end.
