(* ===== verification/MemTx.v ===== *)
(** * Memory plugin: transaction manager

    [plugins/memory/txmanager.go]: snapshot isolation with first-committer-wins.
    Clock readings and generated UUIDs are arguments of the operations that take
    them.  [Commit] and [Rollback] are given both as the sequence of critical
    sections they run and as the composition of those sections. *)

From stdpp Require Import base gmap strings list fin_maps sorting.
From S2P Require Import Prelude Spi MemState.

Definition submitTimeTTL : Z := Hour.

(** ** Installing a manager *)

(** Latest submit time on the factory's rows. *)
Definition latestSubmitTime (f : StoreFactory) : Time :=
  map_fold (λ _ entities acc,
    map_fold (λ _ versions acc',
      foldl (λ latest v, if After (ev_submitTime v) latest then ev_submitTime v else latest)
        acc' versions) acc entities) 0%Z (entityData f).

Definition seedLastSubmitTime (f : StoreFactory) (prev : option TransactionManager) : Time :=
  match prev with
  | Some m => lastSubmitTime m
  | None => latestSubmitTime f
  end.

Definition NewTransactionManager (f : StoreFactory) (prev : option TransactionManager)
    : TransactionManager := emptyTM (seedLastSubmitTime f prev).

(** A factory as [NewStoreFactory] leaves it. *)
Definition newMem : Mem := mkMem emptyFactory (NewTransactionManager emptyFactory None) ∅.

Section TxManager.
Context `{SPI}.

(** ** Staging *)

Definition recordUniqueKeys (txID entityID : string) (keys : list UniqueKey) : MM unit :=
  mod_tm (tm_set_txUniqueKeys
    (λ m, <[txID := <[entityID := keys]> (default ∅ (m !! txID))]> m)).

Definition stageSuperseded (txID entityID : string) (prior : option Entity) : MM unit :=
  match prior with
  | None => mret tt
  | Some e => mod_tm (tm_set_supersededSaves (λ m,
      let inner := default ∅ (m !! txID) in
      <[txID := <[entityID :=
         slice_append None append_spare (default slice_nil (inner !! entityID)) (Some e)]> inner]> m))
  end.

Definition stageScheduledTaskOp (txID : string) (op : scheduledTaskOp) : MM unit :=
  mod_tm (tm_set_scheduledTaskOps (λ m, <[txID := default [] (m !! txID) ++ [op]]> m)).

(** ** Stamps *)

Definition nextSubmitTime (clock : Time) : MM Time :=
  m ← gets tm;
  let now := if After clock (lastSubmitTime m) then clock
             else (lastSubmitTime m + Microsecond)%Z in
  mod_tm (tm_set_lastSubmitTime now);;
  mret now.

(** ** Begin and Join *)

Definition Begin (ctx : Ctx) (txID : string) (clock : Time) : MM (string * Ctx) :=
  match ctx_user ctx with
  | None => fail (ErrText "no user context")
  | Some uc =>
      if decide (uc_TenantID uc = "") then fail (ErrText "user context has no tenant") else
      m ← gets tm;
      let now := if Before clock (lastSubmitTime m) then lastSubmitTime m else clock in
      let tx := mkTx txID (uc_TenantID uc) (ResolveOrigin ctx) now ∅ ∅ ∅ ∅ ∅ false false in
      modify (mem_set_heap (<[txID := tx]>));;
      mod_tm (λ m, tm_set_txSnapshotSeq (<[txID := commitSeq m]>)
                     (tm_set_active ({[txID]} ∪.) (tm_set_lastSubmitTime now m)));;
      mret (txID, WithTransaction ctx txID)
  end.

Definition Join (ctx : Ctx) (txID : string) : MM Ctx :=
  m ← gets tm;
  if decide (txID ∉ active m) then fail ErrTxNotFound else
  tx ← deref txID;
  if RolledBack tx then fail ErrTxRolledBack else
  if Closed tx then fail ErrTxAlreadyCommitted else
  if tenantMismatch ctx (tx_TenantID tx) then fail ErrTxTenantMismatch else
  mret (WithTransaction ctx txID).

(** ** Commit *)

(** The seven deletions every path that ends a transaction performs. *)
Definition forgetTx (txID : string) (m : TransactionManager) : TransactionManager :=
  mkTM (active m ∖ {[txID]}) (committedLog m) (committing m ∖ {[txID]}) (submitTimes m)
    (delete txID (savepoints m)) (delete txID (txUniqueKeys m)) (commitSeq m)
    (delete txID (txSnapshotSeq m)) (lastSubmitTime m) (delete txID (supersededSaves m))
    (delete txID (scheduledTaskOps m)).

(** First critical section: look up, tenant gate, mark as committing. *)
Definition commitPrepare (ctx : Ctx) (txID : string) : MM unit :=
  m ← gets tm;
  if decide (txID ∉ active m) then fail ErrTxNotFound else
  tx ← deref txID;
  if tenantMismatch ctx (tx_TenantID tx) then fail ErrTxTenantMismatch else
  if decide (txID ∈ committing m) then fail ErrTxCommitInProgress else
  mod_tm (tm_set_committing ({[txID]} ∪.)).

(** [committed.seq > snapshotSeq] and an overlap with the read or write set. *)
Definition conflictsWith (snapshotSeq : Z) (tx : TransactionState) (c : committedTx) : bool :=
  bool_decide (snapshotSeq < c_seq c)%Z &&
  bool_decide (∃ eid, eid ∈ c_writeSet c ∧ (eid ∈ ReadSet tx ∨ eid ∈ WriteSet tx)).

Record captured := mkCaptured {
  cap_keys : gmap string (list UniqueKey);
  cap_ops : list scheduledTaskOp;
  cap_superseded : gmap string (slice (option Entity)) }.

(** Conflict detection against the committed log. *)
Definition commitCheck (txID : string) (tx : TransactionState) : MM captured :=
  m ← gets tm;
  let snapshotSeq := default 0%Z (txSnapshotSeq m !! txID) in
  if existsb (conflictsWith snapshotSeq tx) (committedLog m)
  then mod_tm (forgetTx txID);; fail ErrConflict
  else mret (mkCaptured (default ∅ (txUniqueKeys m !! txID))
                        (default [] (scheduledTaskOps m !! txID))
                        (default ∅ (supersededSaves m !! txID))).

Definition abortClaim {A} (txID : string) (e : err) : MM A :=
  mod_tm (forgetTx txID);; fail e.

(** The claims of one buffered entity against the batch and the committed index. *)
Fixpoint checkClaims (f : StoreFactory) (toRelease : gset string) (entityID : string)
    (keys : list claimKey) (pending : gmap claimKey string) : err + gmap claimKey string :=
  match keys with
  | [] => inr pending
  | k :: rest =>
      if match pending !! k with Some h => bool_decide (h ≠ entityID) | None => false end
      then inl ErrUniqueViolation else
      if match uniqueClaims f !! k with
         | Some h => bool_decide (h ≠ entityID) && negb (bool_decide (h ∈ toRelease))
         | None => false end
      then inl ErrUniqueViolation else
      checkClaims f toRelease entityID rest (<[k := entityID]> pending)
  end.

Definition entityClaimKeys (tid : string) (e : Entity) (claims : list UniqueClaim) : list claimKey :=
  claimKeyOf tid (EntityName (m_ModelRef (Meta e))) (ModelVersion (m_ModelRef (Meta e))) <$> claims.

(** Step 3.5, over the buffered ids in sorted order. *)
Fixpoint validateClaims (f : StoreFactory) (tid : string) (tx : TransactionState)
    (keysOf : gmap string (list UniqueKey)) (ids : list string)
    (pending : gmap claimKey string) (computed : gmap string (list UniqueClaim))
    : err + gmap string (list UniqueClaim) :=
  match ids with
  | [] => inr computed
  | entityID :: rest =>
      match Buffer tx !! entityID with
      | None => validateClaims f tid tx keysOf rest pending computed
      | Some entity =>
          match ComputeClaims (default [] (keysOf !! entityID)) (Data entity) with
          | inl e => inl e
          | inr claims =>
              match checkClaims f (Deletes tx) entityID (entityClaimKeys tid entity claims) pending with
              | inl e => inl e
              | inr pending' =>
                  validateClaims f tid tx keysOf rest pending' (<[entityID := claims]> computed)
              end
          end
      end
  end.

Definition sortedIDs (l : list string) : list string := merge_sort String.le l.

Definition deriveChangeType (callerChangeType : string) (hasPriorVersion : bool) : string :=
  if negb hasPriorVersion then "CREATED" else
  if decide (callerChangeType = "" ∨ callerChangeType = "CREATED") then "UPDATED"
  else callerChangeType.

Definition copyEntity (e : Entity) : Entity := mkEntity (Meta e) (Data e).

(** The version of the latest row that is neither deleted nor empty. *)
Fixpoint lastLive (rev_versions : list entityVersion) : option Entity :=
  match rev_versions with
  | [] => None
  | v :: rest =>
      match ev_deleted v, ev_entity v with
      | false, Some e => Some e
      | _, _ => lastLive rest
      end
  end.

Definition appendVersion (tid eid : string) (v : entityVersion) : MM unit :=
  mod_fac (λ f, setVersions tid eid (versionsOf f tid eid ++ [v]) f).

(** The row a commit appends for one staged value. *)
Definition flushedRow (tid txID : string) (submitTime creationDate : Time) (next : Z)
    (hasPrior : bool) (e : Entity) : entityVersion :=
  let m := Meta e in
  let changeType := deriveChangeType (m_ChangeType m) hasPrior in
  let created := if negb (IsZero creationDate) then creationDate
                 else if IsZero (m_CreationDate m) then submitTime else m_CreationDate m in
  let saved := mkEntity
    (mkMeta (m_ID m) tid (m_ModelRef m) (m_State m) next created submitTime txID changeType
       (m_ChangeUser m) (m_ChangeUserKind m) (m_ChangeExecutor m) (m_TransitionForLatestSave m))
    (Data (copyEntity e)) in
  mkEV (Some saved) next txID submitTime false changeType
    (m_ChangeUser m) (m_ChangeUserKind m) (m_ChangeExecutor m).

(** The loop over the staged values of one entity (step 4): [base] is the last
    version number used, [hasPrior] whether a row already exists.  A nil staged
    value is dereferenced. *)
Fixpoint flushRows (tid eid txID : string) (submitTime creationDate : Time)
    (staged : list (option Entity)) (base : Z) (hasPrior : bool) : MM unit :=
  match staged with
  | [] => mret tt
  | None :: _ => panic "nil entity"
  | Some e :: rest =>
      appendVersion tid eid (flushedRow tid txID submitTime creationDate (base + 1) hasPrior e);;
      flushRows tid eid txID submitTime creationDate rest (base + 1) true
  end.

Definition firstCreationDate (versions : list entityVersion) : Time :=
  match versions with
  | v0 :: _ => match ev_entity v0 with Some e => m_CreationDate (Meta e) | None => 0%Z end
  | [] => 0%Z
  end.

Definition flushEntity (tid txID : string) (submitTime : Time)
    (superseded : gmap string (slice (option Entity)))
    (computed : gmap string (list UniqueClaim)) (entityID : string) (entity : Entity) : MM unit :=
  f ← gets fac;
  let versions := versionsOf f tid entityID in
  let baseVersion := match lastLive (reverse versions) with
                     | Some e => m_Version (Meta e) | None => 0%Z end in
  let toFlush := slice_elems (default slice_nil (superseded !! entityID)) ++ [Some entity] in
  flushRows tid entityID txID submitTime (firstCreationDate versions) toFlush baseVersion
    (bool_decide (versions ≠ []));;
  mod_fac (recordTxIndex tid entityID txID (baseVersion + 1));;
  mod_fac (releaseClaims tid entityID);;
  mod_fac (insertClaims entityID tid (EntityName (m_ModelRef (Meta entity)))
             (ModelVersion (m_ModelRef (Meta entity))) (default [] (computed !! entityID))).

(** Step 5: the tombstone of a staged delete. *)
Definition flushDelete (ctx : Ctx) (tid txID : string) (submitTime : Time)
    (attribution : gmap string WriteAttribution) (entityID : string) : MM unit :=
  let at_ := match attribution !! entityID with
             | Some a => a
             | None => let '(a, e) := AttributionFor ctx in mkAttr a e end in
  f ← gets fac;
  let nextVersion := match lastLive (reverse (versionsOf f tid entityID)) with
                     | Some e => (m_Version (Meta e) + 1)%Z | None => 1%Z end in
  appendVersion tid entityID
    (mkEV None nextVersion txID submitTime true "DELETED"
       (p_ID (Attributed at_)) (p_Kind (Attributed at_)) (Executor at_)).

(** Steps 4 to 5.5.  [rel], [buf] and [dels] are the orders in which the runtime
    enumerates the delete set (twice) and the buffer. *)
Definition commitFlush (ctx : Ctx) (tid txID : string) (submitTime : Time) (tx : TransactionState)
    (cap : captured) (computed : gmap string (list UniqueClaim))
    (rel : list string) (buf : list (string * Entity)) (dels : list string) : MM unit :=
  forM rel (λ entityID, mod_fac (releaseClaims tid entityID));;
  forM buf (λ '(entityID, entity),
    flushEntity tid txID submitTime (cap_superseded cap) computed entityID entity);;
  forM dels (flushDelete ctx tid txID submitTime (DeleteAttribution tx));;
  forM (cap_ops cap) (λ op, mod_fac (fac_set_scheduledTasks (applyScheduledTaskOp op))).

(** The oldest snapshot among the active transactions, zero when there is none. *)
Definition oldestSnapshot (m : TransactionManager) (h : gmap string TransactionState) : Time :=
  foldl (λ oldest txID,
    match h !! txID with
    | Some tx => if IsZero oldest || Before (SnapshotTime tx) oldest then SnapshotTime tx else oldest
    | None => oldest
    end) 0%Z (elements (active m)).

(** The TTL eviction of old submit times. *)
Definition evictSubmitTimes (clock : Time) (times : gmap string submitTimeEntry) : gmap string submitTimeEntry :=
  filter (λ '(_, e), ¬ (ste_submitTime e < clock - submitTimeTTL)%Z) times.

(** Step 6: assign the sequence number, record the commit, evict old submit
    times, forget the transaction and prune the log. *)
Definition commitRecord (tid txID : string) (submitTime clock : Time) (writeSet : gset string) : MM unit :=
  s ← get;
  let m := tm s in
  let seq := (commitSeq m + 1)%Z in
  let log := committedLog m ++ [mkCommitted txID submitTime seq writeSet] in
  let times' := evictSubmitTimes clock (<[txID := mkSTE submitTime tid]> (submitTimes m)) in
  let m' := forgetTx txID (tm_set_submitTimes (λ _, times') m) in
  let oldest := oldestSnapshot m' (heap s) in
  let log' := if negb (IsZero oldest)
              then filter (λ c, ¬ (c_submitTime c < oldest)%Z) log else [] in
  put (mem_set_tm (λ _, tm_set_log log' seq m') s).

(** The sections a commit runs while it holds the transaction's operation lock
    and the factory's write lock, up to and including the stamp. *)
Definition commitStamp (txID : string) (clock : Time)
    : MM (TransactionState * captured * gmap string (list UniqueClaim) * Time) :=
  tx ← deref txID;
  cap ← commitCheck txID tx;
  f ← gets fac;
  match validateClaims f (tx_TenantID tx) tx (cap_keys cap)
          (sortedIDs (elements (dom (Buffer tx)))) ∅ ∅ with
  | inl e => abortClaim txID e
  | inr computed => submitTime ← nextSubmitTime clock; mret (tx, cap, computed, submitTime)
  end.

Definition commitFinish (ctx : Ctx) (txID : string) (clock : Time) (tx : TransactionState)
    (cap : captured) (computed : gmap string (list UniqueClaim)) (submitTime : Time) : MM unit :=
  commitFlush ctx (tx_TenantID tx) txID submitTime tx cap computed
    (elements (Deletes tx)) (map_to_list (Buffer tx)) (elements (Deletes tx));;
  commitRecord (tx_TenantID tx) txID submitTime clock (WriteSet tx).

(** The deferred [tx.Closed = true]. *)
Definition closeTx (txID : string) : Mem → Mem := mem_set_heap (alter (tx_set_Closed true) txID).

(** The part of [Commit] that runs under the operation lock: [clock1] is read by
    the stamp, [clock2] by the eviction of old submit times. *)
Definition commitLocked (ctx : Ctx) (txID : string) (clock1 clock2 : Time) : MM unit :=
  finally
    ('(tx, cap, computed, submitTime) ← commitStamp txID clock1;
     commitFinish ctx txID clock2 tx cap computed submitTime)
    (closeTx txID).

Definition Commit (ctx : Ctx) (txID : string) (clock1 clock2 : Time) : MM unit :=
  commitPrepare ctx txID;; commitLocked ctx txID clock1 clock2.

(** ** Rollback *)

Definition rollbackPrepare (ctx : Ctx) (txID : string) : MM unit :=
  m ← gets tm;
  if decide (txID ∉ active m) then fail ErrTxNotFound else
  tx ← deref txID;
  if tenantMismatch ctx (tx_TenantID tx) then fail ErrTxTenantMismatch else mret tt.

Definition rollbackLocked (txID : string) : MM unit :=
  finally (mod_tx txID (tx_set_RolledBack true);; mod_tm (forgetTx txID)) (closeTx txID).

Definition Rollback (ctx : Ctx) (txID : string) : MM unit :=
  rollbackPrepare ctx txID;; rollbackLocked txID.

(** ** Submit times *)

Definition GetSubmitTime (ctx : Ctx) (txID : string) : MM Time :=
  m ← gets tm;
  if decide (txID ∈ active m) then
    tx ← deref txID;
    if tenantMismatch ctx (tx_TenantID tx) then fail ErrTxTenantMismatch
    else fail (ErrText "transaction not yet committed")
  else match submitTimes m !! txID with
       | Some e => if tenantMismatch ctx (ste_tenantID e) then fail ErrTxTenantMismatch
                   else mret (ste_submitTime e)
       | None => fail ErrTxNotFound
       end.

(** ** Savepoints *)

Definition Savepoint (ctx : Ctx) (txID spID : string) : MM string :=
  m ← gets tm;
  if decide (txID ∉ active m) then fail ErrTxNotFound else
  tx ← deref txID;
  if tenantMismatch ctx (tx_TenantID tx) then fail ErrTxTenantMismatch else
  if RolledBack tx then fail ErrTxRolledBack else
  if Closed tx then fail ErrTxAlreadyCommitted else
  let lens := sl_len <$> default ∅ (supersededSaves m !! txID) in
  let snap := mkSnap (copyEntity <$> Buffer tx) (ReadSet tx) (WriteSet tx) (Deletes tx)
                (DeleteAttribution tx) (length (default [] (scheduledTaskOps m !! txID))) lens in
  mod_tm (tm_set_savepoints (λ sp, <[txID := <[spID := snap]> (default ∅ (sp !! txID))]> sp));;
  mret spID.

(** Truncating every superseded-saves slice of a transaction back to the lengths
    a savepoint recorded; [None] is the run-time panic of slicing past the
    capacity. *)
Definition truncateSuperseded (lens : gmap string nat)
    (cur : gmap string (slice (option Entity))) : option (gmap string (slice (option Entity))) :=
  map_fold (λ eid entries acc,
    match acc with
    | None => None
    | Some out =>
        match lens !! eid with
        | Some l => match slice_reslice entries l with
                    | Some entries' => Some (<[eid := entries']> out)
                    | None => None end
        | None => Some out
        end
    end) (Some ∅) cur.

Definition RollbackToSavepoint (ctx : Ctx) (txID savepointID : string) : MM unit :=
  m ← gets tm;
  if decide (txID ∉ active m) then fail ErrTxNotFound else
  tx ← deref txID;
  if tenantMismatch ctx (tx_TenantID tx) then fail ErrTxTenantMismatch else
  if RolledBack tx then fail ErrTxRolledBack else
  if Closed tx then fail ErrTxAlreadyCommitted else
  match savepoints m !! txID with
  | None => fail ErrSavepointNotFound
  | Some txSavepoints =>
      match txSavepoints !! savepointID with
      | None => fail ErrSavepointNotFound
      | Some snap =>
          mod_tx txID (λ t,
            tx_set_DeleteAttribution (λ _, sp_deleteAttribution snap)
              (tx_set_Deletes (λ _, sp_deletes snap)
                (tx_set_WriteSet (λ _, sp_writeSet snap)
                  (tx_set_ReadSet (λ _, sp_readSet snap)
                    (tx_set_Buffer (λ _, sp_buffer snap) t)))));;
          (let ops := default [] (scheduledTaskOps m !! txID) in
           if decide (sp_scheduledTaskOpsLen snap < length ops)
           then mod_tm (tm_set_scheduledTaskOps
                          (<[txID := take (sp_scheduledTaskOpsLen snap) ops]>))
           else mret tt);;
          (match supersededSaves m !! txID with
           | None => mret tt
           | Some cur =>
               match truncateSuperseded (sp_supersededLens snap) cur with
               | Some cur' => mod_tm (tm_set_supersededSaves (<[txID := cur']>))
               | None => panic "slice bounds out of range"
               end
           end);;
          mod_tm (tm_set_savepoints (<[txID := delete savepointID txSavepoints]>))
      end
  end.

Definition ReleaseSavepoint (ctx : Ctx) (txID savepointID : string) : MM unit :=
  m ← gets tm;
  if decide (txID ∉ active m) then fail ErrTxNotFound else
  tx ← deref txID;
  if tenantMismatch ctx (tx_TenantID tx) then fail ErrTxTenantMismatch else
  match savepoints m !! txID with
  | None => fail ErrSavepointNotFound
  | Some txSavepoints =>
      if decide (txSavepoints !! savepointID = None) then fail ErrSavepointNotFound else
      mod_tm (tm_set_savepoints (<[txID := delete savepointID txSavepoints]>))
  end.

End TxManager.
