(* ===== verification/MemEntity.v ===== *)
(** * Memory plugin: entity store

    [plugins/memory/entity_store.go], with the snapshot scan of
    [grouped_stats.go].  A store is its tenant; the context selects the
    transaction, if any.  Every row that is not deleted carries an entity
    ([MemFrame.row_wf]); the scans skip a row that would not, the direct writes
    dereference it. *)

From stdpp Require Import base gmap strings list fin_maps sorting.
From S2P Require Import Prelude Spi MemState MemTx.

Section EntityStore.
Context `{SPI}.

(** ** Snapshot reads *)

(** The walk of [getSnapshotVersion] and [GetAsAt]: stop at the first row after
    the instant; a deleted row clears the result. *)
Fixpoint walkVersions (t : Time) (versions : list entityVersion)
    (result : option Entity) (wasDeleted : bool) : option Entity * bool :=
  match versions with
  | [] => (result, wasDeleted)
  | v :: rest =>
      if negb (After (ev_submitTime v) t) then
        if ev_deleted v then walkVersions t rest None true
        else walkVersions t rest (ev_entity v) false
      else (result, wasDeleted)
  end.

Definition getSnapshotVersion (tid : string) (f : StoreFactory) (entityID : string) (snapshotTime : Time)
    : err + Entity :=
  match versionsOf f tid entityID with
  | [] => inl ErrNotFound
  | versions =>
      match (walkVersions snapshotTime versions None false).1 with
      | None => inl ErrNotFound
      | Some e => inr (copyEntity e)
      end
  end.

(** ** Saving *)

Definition unstageDelete (id : string) (tx : TransactionState) : TransactionState :=
  tx_set_DeleteAttribution (delete id) (tx_set_Deletes (.∖ {[id]}) tx).

(** Buffering a copy stamped with the transaction's id, the overwritten value
    staged first. *)
Definition bufferWrite (p txID : string) (prior : option Entity) (entity : Entity) : MM unit :=
  let eid := m_ID (Meta entity) in
  let cp := ent_set_TransactionID txID (copyEntity entity) in
  stageSuperseded txID eid prior;;
  mod_tx p (λ t, tx_set_WriteSet ({[eid]} ∪.) (tx_set_Buffer (<[eid := cp]>) t)).

(** The latest row that is not deleted. *)
Fixpoint lastUndeleted (rev_versions : list entityVersion) : option entityVersion :=
  match rev_versions with
  | [] => None
  | v :: rest => if ev_deleted v then lastUndeleted rest else Some v
  end.

Definition saveUnlocked (tid : string) (ctx : Ctx) (entity : Entity) (clock : Time) : MM Z :=
  let eid := m_ID (Meta entity) in
  let model := EntityName (m_ModelRef (Meta entity)) in
  let version := ModelVersion (m_ModelRef (Meta entity)) in
  newClaims ← lift_sum (ComputeClaims (ctx_uniqueKeys ctx) (Data entity));
  f ← gets fac;
  if existsb (λ c, match uniqueClaims f !! claimKeyOf tid model version c with
                   | Some holder => bool_decide (holder ≠ eid) | None => false end) newClaims
  then fail ErrUniqueViolation else
  let versions := versionsOf f tid eid in
  nextVersion ← match lastUndeleted (reverse versions) with
                | None => mret 1%Z
                | Some v => match ev_entity v with
                            | Some e => mret (m_Version (Meta e) + 1)%Z
                            | None => panic "nil entity" end
                end;
  now ← nextSubmitTime clock;
  let changeType := deriveChangeType (m_ChangeType (Meta entity)) (bool_decide (versions ≠ [])) in
  creationDate ← match versions with
                 | v0 :: _ => match ev_entity v0 with
                              | Some e0 => mret (m_CreationDate (Meta e0))
                              | None => panic "nil entity" end
                 | [] => mret (if IsZero (m_CreationDate (Meta entity)) then now
                               else m_CreationDate (Meta entity))
                 end;
  let m := Meta entity in
  let saved := mkEntity
    (mkMeta eid tid (m_ModelRef m) (m_State m) nextVersion creationDate now (m_TransactionID m)
       changeType (m_ChangeUser m) (m_ChangeUserKind m) (m_ChangeExecutor m)
       (m_TransitionForLatestSave m)) (Data entity) in
  appendVersion tid eid
    (mkEV (Some saved) nextVersion (m_TransactionID m) now false changeType
       (m_ChangeUser m) (m_ChangeUserKind m) (m_ChangeExecutor m));;
  mod_fac (recordTxIndex tid eid (m_TransactionID m) nextVersion);;
  mod_fac (releaseClaims tid eid);;
  mod_fac (insertClaims eid tid model version newClaims);;
  mret nextVersion.

Definition Save (tid : string) (ctx : Ctx) (entity : Entity) (clock : Time) : MM Z :=
  match ctx_tx ctx with
  | Some p =>
      tx ← openTx p;
      let eid := m_ID (Meta entity) in
      bufferWrite p (tx_ID tx) (Buffer tx !! eid) entity;;
      mod_tx p (unstageDelete eid);;
      recordUniqueKeys (tx_ID tx) eid (ctx_uniqueKeys ctx);;
      mret 0%Z
  | None => saveUnlocked tid ctx entity clock
  end.

Definition currentTxIDLocked (versions : list entityVersion) : string :=
  match last versions with
  | None => ""
  | Some latest =>
      if ev_deleted latest then "" else
      match ev_entity latest with None => "" | Some e => m_TransactionID (Meta e) end
  end.

Definition CompareAndSave (tid : string) (ctx : Ctx) (entity : Entity) (expectedTxID : string)
    (clock : Time) : MM Z :=
  if decide (expectedTxID = "") then fail (ErrText "expectedTxID must not be empty") else
  let eid := m_ID (Meta entity) in
  match ctx_tx ctx with
  | Some p =>
      tx ← openTx p;
      if decide (eid ∈ Deletes tx) then fail ErrConflict else
      match Buffer tx !! eid with
      | Some buffered =>
          if decide (m_TransactionID (Meta buffered) ≠ expectedTxID) then fail ErrConflict else
          bufferWrite p (tx_ID tx) (Some buffered) entity;;
          recordUniqueKeys (tx_ID tx) eid (ctx_uniqueKeys ctx);;
          mret 0%Z
      | None =>
          f ← gets fac;
          if decide (currentTxIDLocked (versionsOf f tid eid) ≠ expectedTxID) then fail ErrConflict else
          bufferWrite p (tx_ID tx) (Buffer tx !! eid) entity;;
          recordUniqueKeys (tx_ID tx) eid (ctx_uniqueKeys ctx);;
          mret 0%Z
      end
  | None =>
      f ← gets fac;
      if decide (currentTxIDLocked (versionsOf f tid eid) ≠ expectedTxID) then fail ErrConflict else
      saveUnlocked tid ctx entity clock
  end.

(** ** Reading one entity *)

(** The latest committed row, when it is not a tombstone. *)
Definition latestLive (versions : list entityVersion) : option Entity :=
  match last versions with
  | None => None
  | Some latest => if ev_deleted latest then None else ev_entity latest
  end.

Definition Get (tid : string) (ctx : Ctx) (entityID : string) : MM Entity :=
  match ctx_tx ctx with
  | Some p =>
      tx ← openTx p;
      if decide (entityID ∈ Deletes tx) then fail ErrNotFound else
      match Buffer tx !! entityID with
      | Some buffered =>
          mod_tx p (tx_set_ReadSet ({[entityID]} ∪.));;
          mret (copyEntity buffered)
      | None =>
          mod_tx p (tx_set_ReadSet ({[entityID]} ∪.));;
          f ← gets fac;
          lift_sum (getSnapshotVersion tid f entityID (SnapshotTime tx))
      end
  | None =>
      f ← gets fac;
      match latestLive (versionsOf f tid entityID) with
      | None => fail ErrNotFound
      | Some e => mret (copyEntity e)
      end
  end.

Definition GetAsAt (tid : string) (ctx : Ctx) (entityID : string) (asAt : Time) : MM Entity :=
  match ctx_tx ctx with
  | Some p => _ ← openTx p; mod_tx p (tx_set_ReadSet ({[entityID]} ∪.))
  | None => mret tt
  end;;
  f ← gets fac;
  match versionsOf f tid entityID with
  | [] => fail ErrNotFound
  | versions =>
      match (walkVersions asAt versions None false).1 with
      | None => fail ErrNotFound
      | Some e => mret (copyEntity e)
      end
  end.

Definition Exists (tid : string) (ctx : Ctx) (entityID : string) : MM bool :=
  match ctx_tx ctx with
  | Some p =>
      tx ← openTx p;
      if decide (entityID ∈ Deletes tx) then mret false else
      match Buffer tx !! entityID with
      | Some _ => mret true
      | None =>
          f ← gets fac;
          mret (match getSnapshotVersion tid f entityID (SnapshotTime tx) with
                | inl _ => false | inr _ => true end)
      end
  | None =>
      f ← gets fac;
      mret (match last (versionsOf f tid entityID) with
            | None => false | Some latest => negb (ev_deleted latest) end)
  end.

(** ** Deleting *)

Definition attributionOf (ctx : Ctx) : WriteAttribution :=
  let '(a, e) := AttributionFor ctx in mkAttr a e.

(** Staging a delete: the id enters both delete maps and leaves the buffer. *)
Definition stageDelete (attribution : WriteAttribution) (id : string) (t : TransactionState)
    : TransactionState :=
  tx_set_DeleteAttribution (<[id := attribution]>)
    (tx_set_WriteSet ({[id]} ∪.) (tx_set_Buffer (delete id) (tx_set_Deletes ({[id]} ∪.) t))).

Definition tombstone (ctx : Ctx) (version : Z) (deletedAt : Time) : entityVersion :=
  let at_ := attributionOf ctx in
  mkEV None version "" deletedAt true "DELETED"
    (p_ID (Attributed at_)) (p_Kind (Attributed at_)) (Executor at_).

Definition Delete (tid : string) (ctx : Ctx) (entityID : string) (clock : Time) : MM unit :=
  match ctx_tx ctx with
  | Some p =>
      tx ← openTx p;
      f ← gets fac;
      if match Buffer tx !! entityID with
         | Some _ => false
         | None => match last (versionsOf f tid entityID) with
                   | None => true
                   | Some latest => ev_deleted latest end
         end
      then fail ErrNotFound
      else mod_tx p (stageDelete (attributionOf ctx) entityID)
  | None =>
      f ← gets fac;
      match last (versionsOf f tid entityID) with
      | None => fail ErrNotFound
      | Some latest =>
          if ev_deleted latest then fail ErrNotFound else
          deletedAt ← nextSubmitTime clock;
          match ev_entity latest with
          | None => panic "nil entity"
          | Some e =>
              appendVersion tid entityID (tombstone ctx (m_Version (Meta e) + 1) deletedAt);;
              mod_fac (releaseClaims tid entityID)
          end
      end
  end.

(** ** Scans *)

(** [ctx.Err()] is polled at every 1024th element; [poll] counts the polls the
    call has made. *)
Fixpoint scan {A B} (ctx : Ctx) (poll i : nat) (f : A → B → B) (l : list A) (acc : B)
    : err + nat * B :=
  match l with
  | [] => inr (poll, acc)
  | x :: rest =>
      if decide (Nat.land i 1023 = 0) then
        match ctx_Err ctx poll with
        | Some e => inl e
        | None => scan ctx (S poll) (S i) f rest (f x acc)
        end
      else scan ctx poll (S i) f rest (f x acc)
  end.

Definition getAllSnapshotPointersUnlocked (tid : string) (f : StoreFactory) (ctx : Ctx) (poll : nat)
    (modelRef : ModelRef) (snapshotTime : Time) : err + nat * list Entity :=
  scan ctx poll 0 (λ row result,
    match (walkVersions snapshotTime (row.2) None false).1 with
    | Some found => if decide (m_ModelRef (Meta found) = modelRef) then result ++ [found] else result
    | None => result
    end) (map_to_list (tenantRows f tid)) [].

Definition currentStatePointersUnlocked (tid : string) (f : StoreFactory) (ctx : Ctx) (poll : nat)
    (modelRef : ModelRef) : err + nat * list Entity :=
  scan ctx poll 0 (λ row result,
    match latestLive (row.2) with
    | Some e => if decide (m_ModelRef (Meta e) = modelRef) then result ++ [e] else result
    | None => result
    end) (map_to_list (tenantRows f tid)) [].

Definition DeleteAll (tid : string) (ctx : Ctx) (modelRef : ModelRef) (clock : Time) : MM unit :=
  match ctx_tx ctx with
  | Some p =>
      tx ← openTx p;
      f ← gets fac;
      '(_, mainEntities) ← lift_sum (getAllSnapshotPointersUnlocked tid f ctx 0 modelRef (SnapshotTime tx));
      let attribution := attributionOf ctx in
      forM mainEntities (λ ent, mod_tx p (stageDelete attribution (m_ID (Meta ent))));;
      tx' ← deref p;
      let toDelete := (filter (λ '(_, ent), m_ModelRef (Meta ent) = modelRef)
                         (map_to_list (Buffer tx'))).*1 in
      forM toDelete (λ id, mod_tx p (stageDelete attribution id))
  | None =>
      now ← nextSubmitTime clock;
      f ← gets fac;
      forM (map_to_list (tenantRows f tid)) (λ '(eid, versions),
        match last versions with
        | None => mret tt
        | Some latest =>
            if ev_deleted latest then mret tt else
            match ev_entity latest with
            | None => panic "nil entity"
            | Some e =>
                if decide (m_ModelRef (Meta e) = modelRef) then
                  appendVersion tid eid (tombstone ctx (m_Version (Meta e) + 1) now);;
                  mod_fac (releaseClaims tid eid)
                else mret tt
            end
        end)
  end.

(** ** Counting *)

(** The states a transaction's view of a model tallies: committed rows at the
    snapshot, less staged deletes and rows superseded by a buffered write of the
    same model, then the buffered writes. *)
Definition countTx (tid : string) (f : StoreFactory) (ctx : Ctx) (tx : TransactionState)
    (modelRef : ModelRef) : err + list string :=
  match getAllSnapshotPointersUnlocked tid f ctx 0 modelRef (SnapshotTime tx) with
  | inl e => inl e
  | inr (poll, committed) =>
      match scan ctx poll 0 (λ e acc,
              if decide (m_ID (Meta e) ∈ Deletes tx) then acc else
              if match Buffer tx !! m_ID (Meta e) with
                 | Some b => bool_decide (m_ModelRef (Meta b) = modelRef) | None => false end
              then acc else acc ++ [m_State (Meta e)]) committed [] with
      | inl e => inl e
      | inr (_, tallied) =>
          inr (tallied ++ ((λ p : string * Entity, m_State (Meta p.2)) <$>
            filter (λ p : string * Entity, m_ModelRef (Meta p.2) = modelRef ∧ p.1 ∉ Deletes tx)
              (map_to_list (Buffer tx))))
      end
  end.

(** The states of the latest live rows of a model. *)
Definition currentStates (tid : string) (f : StoreFactory) (modelRef : ModelRef) : list string :=
  omap (λ '(_, versions),
    match latestLive versions with
    | Some e => if decide (m_ModelRef (Meta e) = modelRef) then Some (m_State (Meta e)) else None
    | None => None
    end) (map_to_list (tenantRows f tid)).

Definition Count (tid : string) (ctx : Ctx) (modelRef : ModelRef) : MM Z :=
  match ctx_tx ctx with
  | Some p =>
      tx ← openTx p;
      f ← gets fac;
      states ← lift_sum (countTx tid f ctx tx modelRef);
      mret (Z.of_nat (length states))
  | None => f ← gets fac; mret (Z.of_nat (length (currentStates tid f modelRef)))
  end.

Definition tallyStates (filter : option (gset string)) (states : list string) : gmap string Z :=
  foldl (λ result st,
    if match filter with Some fs => bool_decide (st ∉ fs) | None => false end then result
    else <[st := (default 0 (result !! st) + 1)%Z]> result) ∅ states.

(** [states = None] is the nil slice (no filter). *)
Definition CountByState (tid : string) (ctx : Ctx) (modelRef : ModelRef) (states : option (list string))
    : MM (gmap string Z) :=
  if decide (states = Some []) then mret ∅ else
  let flt := list_to_set <$> states in
  match ctx_tx ctx with
  | Some p =>
      tx ← openTx p;
      f ← gets fac;
      sts ← lift_sum (countTx tid f ctx tx modelRef);
      mret (tallyStates flt sts)
  | None => f ← gets fac; mret (tallyStates flt (currentStates tid f modelRef))
  end.

(** ** Pages *)

Definition idLe (a b : Entity) : Prop := String.le (m_ID (Meta a)) (m_ID (Meta b)).
#[global] Instance idLe_dec : RelDecision idLe := λ a b, String.le_dec _ _.

Definition pageSlice (rows : list Entity) (limit offset : Z) : option (list Entity) :=
  fmap (M:=list) copyEntity <$> window offset limit (merge_sort idLe rows).

(** The merged view of a transaction: committed rows at the snapshot less staged
    deletes, overlaid with the buffered writes of the model. *)
Definition mergedView (tx : TransactionState) (modelRef : ModelRef) (mainEntities : list Entity)
    : gmap string Entity :=
  foldl (λ m p, <[p.1 := p.2]> m)
    (foldl (λ m e, if decide (m_ID (Meta e) ∈ Deletes tx) then m else <[m_ID (Meta e) := e]> m)
       ∅ mainEntities)
    (filter (λ '(_, e), m_ModelRef (Meta e) = modelRef) (map_to_list (Buffer tx))).

Definition GetPage (tid : string) (ctx : Ctx) (modelRef : ModelRef) (limit offset : Z)
    (asAt : option Time) : MM (list Entity) :=
  if decide (limit < 1)%Z then fail (ErrText "GetPage: limit must be >= 1") else
  if decide (offset < 0)%Z then fail (ErrText "GetPage: offset must be >= 0") else
  match asAt with
  | Some t =>
      f ← gets fac;
      '(_, rows) ← lift_sum (getAllSnapshotPointersUnlocked tid f ctx 0 modelRef t);
      orPanic (pageSlice rows limit offset)
  | None =>
      match ctx_tx ctx with
      | None =>
          f ← gets fac;
          '(_, rows) ← lift_sum (currentStatePointersUnlocked tid f ctx 0 modelRef);
          orPanic (pageSlice rows limit offset)
      | Some p =>
          tx ← openTx p;
          f ← gets fac;
          '(_, mainEntities) ← lift_sum
            (getAllSnapshotPointersUnlocked tid f ctx 0 modelRef (SnapshotTime tx));
          let rows := (map_to_list (mergedView tx modelRef mainEntities)).*2 in
          page ← orPanic (pageSlice rows limit offset);
          forM page (λ e, mod_tx p (tx_set_ReadSet ({[m_ID (Meta e)]} ∪.)));;
          mret page
      end
  end.

(** ** Version history *)

Record EntityVersion := mkEntityVersion {
  v_Entity : Entity; v_ChangeType : string; v_User : string; v_Timestamp : Time;
  v_Version : Z; v_AttributedKind : string; v_Executor : Principal }.

Fixpoint findVersion (version : Z) (versions : list entityVersion) : option EntityVersion :=
  match versions with
  | [] => None
  | v :: rest =>
      match ev_deleted v, ev_entity v with
      | false, Some e =>
          if decide (m_Version (Meta e) = version)
          then Some (mkEntityVersion (copyEntity e) (ev_changeType v) (ev_user v) (ev_submitTime v)
                       (m_Version (Meta e)) (ev_changeUserKind v) (ev_executor v))
          else findVersion version rest
      | _, _ => findVersion version rest
      end
  end.

Definition GetVersionByTransaction (tid entityID txID : string) : MM EntityVersion :=
  if decide (txID = "") then fail ErrNotFound else
  f ← gets fac;
  match txIndexOf f tid entityID txID with
  | None => fail ErrNotFound
  | Some version =>
      match findVersion version (versionsOf f tid entityID) with
      | Some v => mret v
      | None => fail ErrNotFound
      end
  end.

Record EntityVersionMeta := mkVMeta {
  vm_Version : Z; vm_ChangeType : string; vm_Timestamp : Time; vm_User : string;
  vm_AttributedKind : string; vm_Executor : Principal; vm_TransactionID : string; vm_Deleted : bool }.

Record VersionMetadataOptions := mkVMOpts { From : option Time; Until : option Time; Limit : Z }.

(** Newest first, ties by version descending. *)
Definition newer (a b : EntityVersionMeta) : Prop :=
  (vm_Timestamp b < vm_Timestamp a)%Z ∨
  (vm_Timestamp a = vm_Timestamp b ∧ (vm_Version b ≤ vm_Version a)%Z).
#[global] Instance newer_dec : RelDecision newer.
Proof. intros a b. unfold newer. apply _. Defined.

Definition inWindow (opts : VersionMetadataOptions) (v : entityVersion) : bool :=
  match From opts with Some t => negb (Before (ev_submitTime v) t) | None => true end &&
  match Until opts with Some t => negb (After (ev_submitTime v) t) | None => true end.

Definition versionMeta (v : entityVersion) : EntityVersionMeta :=
  mkVMeta (ev_version v) (ev_changeType v) (ev_submitTime v) (ev_user v) (ev_changeUserKind v)
    (ev_executor v) (ev_transactionID v) (bool_decide (ev_changeType v = "DELETED")).

Definition GetVersionMetadata (tid entityID : string) (opts : VersionMetadataOptions)
    : MM (list EntityVersionMeta) :=
  f ← gets fac;
  match versionsOf f tid entityID with
  | [] => fail ErrNotFound
  | versions =>
      let result := merge_sort newer (versionMeta <$> filter (λ v, inWindow opts v) versions) in
      mret (if decide (0 < Limit opts ∧ Limit opts < Z.of_nat (length result))%Z
            then take (Z.to_nat (Limit opts)) result else result)
  end.

End EntityStore.
