(* ===== verification/MemSched.v ===== *)
(** * Memory plugin: scheduled-task store

    [plugins/memory/scheduled_task_store.go].  A mutation applies at once outside
    a transaction and is staged on the transaction manager inside one. *)

From stdpp Require Import base gmap strings list fin_maps sorting.
From S2P Require Import Prelude Spi MemState MemTx.

Module SchedStore.

Definition copyScheduledTask (t : ScheduledTask) : ScheduledTask :=
  mkTask (st_ID t) (st_TenantID t) (st_Type t) (ScheduledTime t) (TimeoutMs t) (RedispatchAfter t)
    (st_EntityID t) (ModelName t) (st_ModelVersion t) (Transition t) (SourceState t) (ArmedAt t)
    (AttemptCount t) (ArmedBy t).

(** Only [RolledBack] is checked, not [Closed]. *)
Definition stage (ctx : Ctx) (op : scheduledTaskOp) : MM unit :=
  match ctx_tx ctx with
  | None => mod_fac (fac_set_scheduledTasks (applyScheduledTaskOp op))
  | Some p =>
      tx ← deref p;
      if RolledBack tx then fail ErrTxRolledBack else
      stageScheduledTaskOp (tx_ID tx) op
  end.

Definition Upsert (ctx : Ctx) (task : ScheduledTask) : MM unit :=
  stage ctx (scheduledTaskUpsert (st_ID task) (copyScheduledTask task)).

(** Existence is reported against committed state. *)
Definition DeleteTask (ctx : Ctx) (id : string) : MM bool :=
  f ← gets fac;
  let existed := bool_decide (is_Some (scheduledTasks f !! id)) in
  stage ctx (scheduledTaskDelete id);;
  mret existed.

Definition GetTask (id : string) : MM (option ScheduledTask) :=
  f ← gets fac;
  mret (copyScheduledTask <$> scheduledTasks f !! id).

Definition isDue (nowMs : Z) (t : ScheduledTask) : bool :=
  bool_decide (ScheduledTime t ≤ nowMs)%Z &&
  match RedispatchAfter t with None => true | Some r => bool_decide (r ≤ nowMs)%Z end.

Definition timeLe (a b : ScheduledTask) : Prop := (ScheduledTime a ≤ ScheduledTime b)%Z.
#[global] Instance timeLe_dec : RelDecision timeLe := λ a b, Z.le_dec _ _.

(** The rows in the order the runtime enumerates the map ([rows]), due ones
    only, sorted by scheduled time and cut at a positive limit. *)
Definition scanDueOf (rows : list ScheduledTask) (nowMs limit : Z) : list ScheduledTask :=
  let out := merge_sort timeLe (copyScheduledTask <$> filter (λ t, isDue nowMs t) rows) in
  if decide (0 < limit ∧ limit < Z.of_nat (length out))%Z
  then take (Z.to_nat limit) out else out.

Definition ScanDue (nowMs limit : Z) : MM (list ScheduledTask) :=
  f ← gets fac;
  mret (scanDueOf ((map_to_list (scheduledTasks f)).*2) nowMs limit).

Definition markedRedispatch (after : Z) (t : ScheduledTask) : ScheduledTask :=
  mkTask (st_ID t) (st_TenantID t) (st_Type t) (ScheduledTime t) (TimeoutMs t) (Some after)
    (st_EntityID t) (ModelName t) (st_ModelVersion t) (Transition t) (SourceState t) (ArmedAt t)
    (AttemptCount t + 1) (ArmedBy t).

Definition MarkRedispatch (id : string) (redispatchAfterMs : Z) : MM unit :=
  f ← gets fac;
  match scheduledTasks f !! id with
  | None => mret tt
  | Some t => mod_fac (fac_set_scheduledTasks (<[id := markedRedispatch redispatchAfterMs t]>))
  end.

Definition otherState (req : ReconcileRequest) (t : ScheduledTask) : bool :=
  bool_decide (st_EntityID t = rq_EntityID req) && bool_decide (st_TenantID t = rq_TenantID req) &&
  bool_decide (SourceState t ≠ rq_CurrentState req).

Definition ReconcileForEntity (ctx : Ctx) (req : ReconcileRequest) : MM (list ScheduledTask) :=
  f ← gets fac;
  let cancelled := copyScheduledTask <$>
    filter (λ t, otherState req t) ((map_to_list (scheduledTasks f)).*2) in
  forM (rq_Arm req) (Upsert ctx);;
  forM cancelled (λ c, _ ← DeleteTask ctx (st_ID c); mret tt);;
  forM (rq_Cancel req) (λ id, _ ← DeleteTask ctx id; mret tt);;
  mret cancelled.

End SchedStore.
