(* ===== verification/MemFrame.v ===== *)
(** * Memory plugin: what each operation can change

    Frame lemmas: an in-transaction operation touches its own transaction object
    and the staging maps only; a commit's flush and a direct write only append
    rows stamped with the instant they took; nothing ever rewrites a row. *)

From stdpp Require Import base gmap strings list fin_maps sorting.
From S2P Require Import Prelude Spi MemState MemTx MemEntity MemSched.

(** ** Relations *)

(** Same identity: id, tenant, origin, snapshot and life-cycle flags. *)
Definition sameTx (t t' : TransactionState) : Prop :=
  tx_ID t = tx_ID t' ∧ tx_TenantID t = tx_TenantID t' ∧ tx_Origin t = tx_Origin t' ∧
  SnapshotTime t = SnapshotTime t' ∧ RolledBack t = RolledBack t' ∧ Closed t = Closed t'.

(** The manager fields no in-transaction operation writes. *)
Definition sameCore (m m' : TransactionManager) : Prop :=
  active m = active m' ∧ committedLog m = committedLog m' ∧ committing m = committing m' ∧
  submitTimes m = submitTimes m' ∧ commitSeq m = commitSeq m' ∧
  txSnapshotSeq m = txSnapshotSeq m' ∧ lastSubmitTime m = lastSubmitTime m'.

Definition txFrame (p : string) (s s' : Mem) : Prop :=
  fac s = fac s' ∧ sameCore (tm s) (tm s') ∧
  (∀ q, q ≠ p → heap s !! q = heap s' !! q) ∧ option_Forall2 sameTx (heap s !! p) (heap s' !! p).

(** Every history of [f'] extends the one of [f] by rows satisfying [P]. *)
Definition rowsExt (P : entityVersion → Prop) (f f' : StoreFactory) : Prop :=
  ∀ tid eid, ∃ rows, versionsOf f' tid eid = versionsOf f tid eid ++ rows ∧ Forall P rows.

(** Rows stamped [t], well formed: deleted exactly when they carry no entity. *)
Definition row_wf (v : entityVersion) : Prop := ev_deleted v = false ↔ is_Some (ev_entity v).
Definition stampedRow (t : Time) (v : entityVersion) : Prop := ev_submitTime v = t ∧ row_wf v.

Definition flushRel (t : Time) (s s' : Mem) : Prop :=
  tm s = tm s' ∧ heap s = heap s' ∧ rowsExt (stampedRow t) (fac s) (fac s').

#[export] Instance sameTx_equiv : Equivalence sameTx.
Proof. split; repeat intro; unfold sameTx in *; intuition congruence. Qed.
#[export] Instance sameCore_equiv : Equivalence sameCore.
Proof. split; repeat intro; unfold sameCore in *; intuition congruence. Qed.
#[export] Instance rowsExt_preorder P : PreOrder (rowsExt P).
Proof.
  split.
  - intros f tid eid. exists []. by rewrite app_nil_r.
  - intros f g h H1 H2 tid eid.
    destruct (H1 tid eid) as (r1 & E1 & F1). destruct (H2 tid eid) as (r2 & E2 & F2).
    exists (r1 ++ r2). rewrite E2, E1, app_assoc. split; [done|by apply Forall_app].
Qed.
#[export] Instance txFrame_preorder p : PreOrder (txFrame p).
Proof.
  split.
  - intros s. split_and!; [done|reflexivity|done|].
    destruct (heap s !! p); constructor; reflexivity.
  - intros s1 s2 s3 (H1 & H2 & H3 & H4) (K1 & K2 & K3 & K4).
    split_and!; [congruence|by etrans| |].
    + intros q Hq. by rewrite H3, K3.
    + by etrans.
Qed.
#[export] Instance flushRel_preorder t : PreOrder (flushRel t).
Proof.
  split.
  - intros s. split_and!; done.
  - intros s1 s2 s3 (H1 & H2 & H3) (K1 & K2 & K3).
    split_and!; [congruence|congruence|by etrans].
Qed.

(** ** Histories under the factory's updates *)

Lemma versionsOf_setVersions tid eid vs f tid' eid' :
  versionsOf (setVersions tid eid vs f) tid' eid' =
    if decide (tid' = tid ∧ eid' = eid) then vs else versionsOf f tid' eid'.
Proof.
  unfold versionsOf, setVersions, tenantRows, fac_set_entityData; simpl.
  case_decide as Hd.
  - destruct Hd as [-> ->]. by rewrite lookup_insert_eq; simpl; rewrite lookup_insert_eq.
  - destruct (decide (tid' = tid)) as [->|Ht].
    + rewrite lookup_insert_eq. simpl. rewrite lookup_insert_ne; naive_solver.
    + by rewrite lookup_insert_ne.
Qed.

Lemma versionsOf_append_eq tid eid v f :
  versionsOf (setVersions tid eid (versionsOf f tid eid ++ [v]) f) tid eid = versionsOf f tid eid ++ [v].
Proof. rewrite versionsOf_setVersions. by rewrite decide_True. Qed.

(** The updates that leave the histories alone. *)
Lemma versionsOf_releaseClaims t e f tid eid :
  versionsOf (releaseClaims t e f) tid eid = versionsOf f tid eid.
Proof. done. Qed.
Lemma versionsOf_insertClaims e t m v cs f tid eid :
  versionsOf (insertClaims e t m v cs f) tid eid = versionsOf f tid eid.
Proof. unfold insertClaims. by case_decide. Qed.
Lemma versionsOf_recordTxIndex t e x v f tid eid :
  versionsOf (recordTxIndex t e x v f) tid eid = versionsOf f tid eid.
Proof. unfold recordTxIndex. by repeat case_match. Qed.
Lemma versionsOf_scheduled g f tid eid :
  versionsOf (fac_set_scheduledTasks g f) tid eid = versionsOf f tid eid.
Proof. done. Qed.

Lemma rowsExt_same P f f' :
  (∀ tid eid, versionsOf f' tid eid = versionsOf f tid eid) → rowsExt P f f'.
Proof. intros H tid eid. exists []. by rewrite app_nil_r, H. Qed.

Lemma rowsExt_append (P : entityVersion → Prop) tid eid rows f :
  Forall P rows → rowsExt P f (setVersions tid eid (versionsOf f tid eid ++ rows) f).
Proof.
  intros HP tid' eid'. rewrite versionsOf_setVersions. case_decide as Hd.
  - destruct Hd as [-> ->]. by exists rows.
  - exists []. by rewrite app_nil_r.
Qed.

Lemma rowsExt_weaken (P Q : entityVersion → Prop) f f' :
  (∀ v, P v → Q v) → rowsExt P f f' → rowsExt Q f f'.
Proof.
  intros HPQ H tid eid. destruct (H tid eid) as (r & E & F).
  exists r. split; [done|]. by eapply Forall_impl.
Qed.

(** ** In-transaction operations *)

(** The entry check finds an open transaction or refuses. *)
Lemma openTx_run p s :
  (∃ tx, heap s !! p = Some tx ∧ RolledBack tx = false ∧ Closed tx = false ∧ openTx p s = (Ret tx, s)) ∨
  (∃ e, openTx p s = (Err e, s)) ∨ (∃ w, openTx p s = (Panic w, s)).
Proof.
  unfold openTx, deref. mrun. destruct (heap s !! p) as [tx|]; mrun; [|by eauto].
  destruct (RolledBack tx) eqn:?; [by eauto|]. destruct (Closed tx) eqn:?; [by eauto|]. left. eauto.
Qed.

(** Case analysis on the entry check at the head of a call. *)
Ltac open_tx p s tx Htx :=
  rewrite run_bind;
  destruct (openTx_run p s) as [(tx & Htx & ? & ? & ->)|[(? & ->)|(? & ->)]]; cbv beta iota; [|done..].


Section Ops.
Context `{SPI}.

Lemma txFrame_mod_tx p f :
  (∀ t, sameTx t (f t)) → stable (txFrame p) (mod_tx p f).
Proof.
  intros Hf. apply stable_modify. intros s. split_and!; [done|reflexivity| |]; simpl.
  - intros q Hq. by rewrite lookup_alter_ne.
  - rewrite lookup_alter_eq. destruct (heap s !! p); constructor. apply Hf.
Qed.
Lemma txFrame_mod_tm p f :
  (∀ m, sameCore m (f m)) → stable (txFrame p) (mod_tm f).
Proof.
  intros Hf. apply stable_modify. intros s. split_and!; [done|apply Hf|done|]; simpl.
  destruct (heap s !! p); constructor; reflexivity.
Qed.
Lemma txFrame_deref p q : stable (txFrame p) (deref q).
Proof. unfold deref. solve_stable. Qed.
Lemma txFrame_openTx p q : stable (txFrame p) (openTx q).
Proof. unfold openTx. solve_stable. Qed.
End Ops.

#[export] Hint Resolve txFrame_deref txFrame_openTx : stable.
#[export] Hint Extern 2 (stable (txFrame _) (mod_tx _ _)) =>
  apply txFrame_mod_tx; intros []; repeat split : stable.
#[export] Hint Extern 2 (stable (txFrame _) (mod_tm _)) =>
  apply txFrame_mod_tm; intros []; repeat split : stable.

Section TxOps.
Context `{SPI}.
Implicit Types (p tid eid txID : string) (ctx : Ctx).

Lemma stageSuperseded_frame p txID eid prior : stable (txFrame p) (stageSuperseded txID eid prior).
Proof. unfold stageSuperseded. solve_stable. Qed.
Lemma recordUniqueKeys_frame p txID eid ks : stable (txFrame p) (recordUniqueKeys txID eid ks).
Proof. unfold recordUniqueKeys. solve_stable. Qed.
Lemma stageScheduledTaskOp_frame p txID op : stable (txFrame p) (stageScheduledTaskOp txID op).
Proof. unfold stageScheduledTaskOp. solve_stable. Qed.
End TxOps.

#[export] Hint Resolve stageSuperseded_frame recordUniqueKeys_frame stageScheduledTaskOp_frame
  : stable.

Lemma bufferWrite_frame `{SPI} p txID prior e : stable (txFrame p) (bufferWrite p txID prior e).
Proof. unfold bufferWrite. solve_stable. Qed.

#[export] Hint Resolve bufferWrite_frame : stable.

(** Every store operation a context with transaction [p] can run, and every
    manager operation on [p] that does not end it. *)
Inductive txop : Type :=
| OpSave (tid : string) (e : Entity) (clock : Time)
| OpCompareAndSave (tid : string) (e : Entity) (expected : string) (clock : Time)
| OpGet (tid eid : string)
| OpGetAsAt (tid eid : string) (t : Time)
| OpExists (tid eid : string)
| OpDelete (tid eid : string) (clock : Time)
| OpDeleteAll (tid : string) (m : ModelRef) (clock : Time)
| OpCount (tid : string) (m : ModelRef)
| OpCountByState (tid : string) (m : ModelRef) (states : option (list string))
| OpGetPage (tid : string) (m : ModelRef) (limit offset : Z) (asAt : option Time)
| OpUpsertTask (t : ScheduledTask)
| OpDeleteTask (id : string)
| OpReconcile (r : ReconcileRequest)
| OpSavepoint (spID : string)
| OpRollbackTo (spID : string)
| OpReleaseSavepoint (spID : string).

Section RunTxop.
Context `{SPI}.
Definition ignore {A} (m : MM A) : MM unit := _ ← m; mret tt.
Definition runTxop (ctx : Ctx) (p : string) (op : txop) : MM unit :=
  let c := WithTransaction ctx p in
  match op with
  | OpSave tid e clock => ignore (Save tid c e clock)
  | OpCompareAndSave tid e x clock => ignore (CompareAndSave tid c e x clock)
  | OpGet tid eid => ignore (Get tid c eid)
  | OpGetAsAt tid eid t => ignore (GetAsAt tid c eid t)
  | OpExists tid eid => ignore (Exists tid c eid)
  | OpDelete tid eid clock => ignore (Delete tid c eid clock)
  | OpDeleteAll tid m clock => ignore (DeleteAll tid c m clock)
  | OpCount tid m => ignore (Count tid c m)
  | OpCountByState tid m sts => ignore (CountByState tid c m sts)
  | OpGetPage tid m l o asAt => ignore (GetPage tid c m l o asAt)
  | OpUpsertTask t => ignore (SchedStore.Upsert c t)
  | OpDeleteTask id => ignore (SchedStore.DeleteTask c id)
  | OpReconcile r => ignore (SchedStore.ReconcileForEntity c r)
  | OpSavepoint sp => ignore (Savepoint ctx p sp)
  | OpRollbackTo sp => ignore (RollbackToSavepoint ctx p sp)
  | OpReleaseSavepoint sp => ignore (ReleaseSavepoint ctx p sp)
  end.

Lemma runTxop_frame ctx p op : stable (txFrame p) (runTxop ctx p op).
Proof.
  destruct op; unfold runTxop, ignore; apply stable_bind; try apply _; intros; try stable_leaf;
    unfold Save, CompareAndSave, Get, GetAsAt, Exists, Delete, DeleteAll, Count, CountByState,
      GetPage, SchedStore.Upsert, SchedStore.DeleteTask, SchedStore.ReconcileForEntity,
      SchedStore.stage, Savepoint, RollbackToSavepoint, ReleaseSavepoint;
    cbn [ctx_tx WithTransaction]; solve_stable.
Qed.
End RunTxop.

(** ** The flush of a commit *)

Lemma flushRel_fac t g :
  (∀ f, rowsExt (stampedRow t) f (g f)) → stable (flushRel t) (mod_fac g).
Proof. intros Hg. apply stable_modify. intros s. split_and!; [done..|apply Hg]. Qed.

Lemma appendVersion_flush t tid eid v : stampedRow t v → stable (flushRel t) (appendVersion tid eid v).
Proof. intros Hv. apply flushRel_fac. intros f. apply rowsExt_append. by constructor. Qed.

Lemma flushRel_bookkeeping t g :
  (∀ f tid eid, versionsOf (g f) tid eid = versionsOf f tid eid) → stable (flushRel t) (mod_fac g).
Proof. intros Hg. apply flushRel_fac. intros f. apply rowsExt_same. auto. Qed.

Lemma row_wf_live e v t st ct u k x : row_wf (mkEV (Some e) v t st false ct u k x).
Proof. split; [by eauto|done]. Qed.
Lemma row_wf_dead v t st ct u k x : row_wf (mkEV None v t st true ct u k x).
Proof. split; [done|by intros []]. Qed.
#[export] Hint Resolve row_wf_live row_wf_dead : core.

#[export] Hint Extern 2 (stable (flushRel _) (mod_fac _)) =>
  apply flushRel_bookkeeping; intros;
  auto using versionsOf_insertClaims, versionsOf_recordTxIndex : stable.
Lemma stamped_live e v x st ct u k y : stampedRow st (mkEV (Some e) v x st false ct u k y).
Proof. by split. Qed.
Lemma stamped_dead v x st ct u k y : stampedRow st (mkEV None v x st true ct u k y).
Proof. by split. Qed.
Lemma stamped_flushedRow tid txID t cd n hp e : stampedRow t (flushedRow tid txID t cd n hp e).
Proof. apply stamped_live. Qed.
Lemma stamped_tombstone `{SPI} ctx v t : stampedRow t (tombstone ctx v t).
Proof. apply stamped_dead. Qed.
#[export] Hint Resolve stamped_live stamped_dead stamped_flushedRow stamped_tombstone : stable.
#[export] Hint Extern 2 (stable (flushRel _) (appendVersion _ _ _)) =>
  apply appendVersion_flush; auto with stable : stable.

Section Flush.
Context `{SPI}.

Lemma flushRows_flush tid eid txID t cd staged base hp :
  stable (flushRel t) (flushRows tid eid txID t cd staged base hp).
Proof.
  revert base hp. induction staged as [|[e|] staged IH]; intros base hp; cbn [flushRows]; solve_stable.
Qed.
Lemma flushEntity_flush tid txID t sup comp eid e :
  stable (flushRel t) (flushEntity tid txID t sup comp eid e).
Proof. unfold flushEntity. solve_stable. apply flushRows_flush. Qed.
Lemma flushDelete_flush ctx tid txID t at_ eid :
  stable (flushRel t) (flushDelete ctx tid txID t at_ eid).
Proof. unfold flushDelete. solve_stable. Qed.
End Flush.
#[export] Hint Resolve flushRows_flush flushEntity_flush flushDelete_flush : stable.

Section Direct.
Context `{SPI}.

Lemma commitFlush_flush ctx tid txID t tx cap comp rel buf dels :
  stable (flushRel t) (commitFlush ctx tid txID t tx cap comp rel buf dels).
Proof.
  unfold commitFlush. solve_stable.
Qed.

(** ** Direct writes

    A call outside a transaction either leaves the state as it was, or takes a
    stamp above the floor and appends rows carrying it. *)
Definition directRel (s s' : Mem) : Prop :=
  s' = s ∨ ∃ now, (lastSubmitTime (tm s) < now)%Z ∧ tm s' = tm_set_lastSubmitTime now (tm s) ∧
                  heap s' = heap s ∧ rowsExt (stampedRow now) (fac s) (fac s').

Lemma nextSubmitTime_run clock s : ∃ now,
  (lastSubmitTime (tm s) < now)%Z ∧ (clock ≤ now)%Z ∧
  nextSubmitTime clock s = (Ret now, mem_set_tm (tm_set_lastSubmitTime now) s).
Proof.
  exists (if After clock (lastSubmitTime (tm s)) then clock
          else (lastSubmitTime (tm s) + Microsecond)%Z).
  unfold After, Microsecond. split_and!; [case_bool_decide; lia..|done].
Qed.

Lemma directRel_stamp {A} clock (k : Time → MM A) s r s' :
  (∀ now, stable (flushRel now) (k now)) →
  (now ← nextSubmitTime clock; k now) s = (r, s') → directRel s s'.
Proof.
  intros Hk Hrun. destruct (nextSubmitTime_run clock s) as (now & Hlt & _ & Hns).
  unfold mbind, M_bind in Hrun. rewrite Hns in Hrun.
  destruct (stable_elim _ _ _ _ _ (Hk now) Hrun) as (Htm & Hh & Hrows).
  right. exists now. by simplify_eq/=.
Qed.

Lemma saveUnlocked_direct tid ctx e clock s r s' :
  saveUnlocked tid ctx e clock s = (r, s') → directRel s s'.
Proof.
  unfold saveUnlocked. intros Hrun.
  destruct (ComputeClaims _ _) as [er|cs]; mrun_in Hrun; [left; congruence|].
  destruct (existsb _ _); mrun_in Hrun; [left; congruence|].
  destruct (lastUndeleted _) as [v|] eqn:Hv; [destruct (ev_entity v)|]; mrun_in Hrun;
    try (left; congruence);
    (eapply directRel_stamp; [|exact Hrun]); intros now; solve_stable.
Qed.

Lemma Save_direct tid ctx e clock s r s' :
  ctx_tx ctx = None → Save tid ctx e clock s = (r, s') → directRel s s'.
Proof. intros Hc. unfold Save. rewrite Hc. apply saveUnlocked_direct. Qed.

Lemma CompareAndSave_direct tid ctx e x clock s r s' :
  ctx_tx ctx = None → CompareAndSave tid ctx e x clock s = (r, s') → directRel s s'.
Proof.
  intros Hc. unfold CompareAndSave. rewrite Hc.
  case_decide; mrun; [left; congruence|].
  case_decide; mrun; [left; congruence|].
  apply saveUnlocked_direct.
Qed.

Lemma Delete_direct tid ctx eid clock s r s' :
  ctx_tx ctx = None → Delete tid ctx eid clock s = (r, s') → directRel s s'.
Proof.
  intros Hc. unfold Delete. rewrite Hc. mrun. intros Hrun.
  repeat case_match; mrun_in Hrun; try (left; congruence);
    (eapply directRel_stamp; [|exact Hrun]); intros now; solve_stable.
Qed.

Lemma DeleteAll_direct tid ctx m clock s r s' :
  ctx_tx ctx = None → DeleteAll tid ctx m clock s = (r, s') → directRel s s'.
Proof.
  intros Hc. unfold DeleteAll. rewrite Hc. intros Hrun.
  eapply directRel_stamp; [|exact Hrun]. intros now. solve_stable.
Qed.
End Direct.
