(* ===== verification/MemSI.v ===== *)
(** * Memory plugin: snapshot isolation with first-committer-wins

    Interleavings of transactions at the granularity of the manager's critical
    sections, with a history of what committed.  The sections that hold the
    factory's write lock from the conflict check to the end of the flush are
    split at the stamp, because [Begin] does not take that lock and can run
    between the stamp and the recording of the commit. *)

From stdpp Require Import base gmap strings list fin_maps sorting.
From S2P Require Import Prelude Spi MemState MemTx MemEntity MemSched MemFrame.

Section SI.
Context `{SPI}.

(** ** Configurations and steps *)

(** A committed transaction, as the history records it. *)
Record histTx := mkHist {
  h_id : string; h_snapshot : Time; h_submit : Time;
  h_reads : gset string; h_writes : gset string }.

(** A commit between its stamp and the end of its flush. *)
Record Flight := mkFlight {
  fl_id : string; fl_tx : TransactionState; fl_cap : captured;
  fl_computed : gmap string (list UniqueClaim); fl_submit : Time }.

Record Conf := mkConf { c_mem : Mem; c_flight : option Flight; c_hist : list histTx }.

Inductive directOp : Type :=
| DSave (tid : string) (e : Entity)
| DCompareAndSave (tid : string) (e : Entity) (expected : string)
| DDelete (tid eid : string)
| DDeleteAll (tid : string) (m : ModelRef).

Definition runDirect (ctx : Ctx) (op : directOp) (clock : Time) : MM unit :=
  match op with
  | DSave tid e => ignore (Save tid ctx e clock)
  | DCompareAndSave tid e x => ignore (CompareAndSave tid ctx e x clock)
  | DDelete tid eid => ignore (Delete tid ctx eid clock)
  | DDeleteAll tid m => ignore (DeleteAll tid ctx m clock)
  end.

(** Steps.  The client discipline the manager relies on is explicit: no rollback
    of a transaction whose commit has started; transaction ids are fresh. *)
Inductive step : Conf → Conf → Prop :=
| step_begin ctx txID clock s s' r fl h :
    heap s !! txID = None → (0 < clock)%Z →
    Begin ctx txID clock s = (r, s') →
    step (mkConf s fl h) (mkConf s' fl h)
| step_txop ctx p op s s' r fl h :
    (∀ f, fl = Some f → fl_id f ≠ p) →
    runTxop ctx p op s = (r, s') →
    step (mkConf s fl h) (mkConf s' fl h)
| step_direct ctx op clock s s' r h :
    ctx_tx ctx = None →
    runDirect ctx op clock s = (r, s') →
    step (mkConf s None h) (mkConf s' None h)
| step_prepare ctx txID s s' r fl h :
    commitPrepare ctx txID s = (r, s') →
    step (mkConf s fl h) (mkConf s' fl h)
| step_stamp txID clock s s' tx cap computed t h :
    txID ∈ committing (tm s) →
    commitStamp txID clock s = (Ret (tx, cap, computed, t), s') →
    step (mkConf s None h) (mkConf s' (Some (mkFlight txID tx cap computed t)) h)
| step_abort txID clock s s' e h :
    txID ∈ committing (tm s) →
    commitStamp txID clock s = (Err e, s') →
    step (mkConf s None h) (mkConf (closeTx txID s') None h)
| step_finish ctx clock s s' f h :
    commitFinish ctx (fl_id f) clock (fl_tx f) (fl_cap f) (fl_computed f) (fl_submit f) s = (Ret tt, s') →
    step (mkConf s (Some f) h)
      (mkConf (closeTx (fl_id f) s') None
        (h ++ [mkHist (fl_id f) (SnapshotTime (fl_tx f)) (fl_submit f)
                 (ReadSet (fl_tx f)) (WriteSet (fl_tx f))]))
| step_rollback ctx txID s s' r fl h :
    txID ∉ committing (tm s) →
    Rollback ctx txID s = (r, s') →
    step (mkConf s fl h) (mkConf s' fl h).

Definition initConf : Conf := mkConf newMem None [].
Definition reachable (c : Conf) : Prop := rtc step initConf c.

(** ** Driving the relation
    An executable scheduler: one action is one step. *)
Inductive action : Type :=
| ABegin (ctx : Ctx) (txID : string) (clock : Time)
| ATx (ctx : Ctx) (p : string) (op : txop)
| ADirect (ctx : Ctx) (op : directOp) (clock : Time)
| APrepare (ctx : Ctx) (txID : string)
| AStamp (txID : string) (clock : Time)
| AFinish (ctx : Ctx) (clock : Time)
| ARollback (ctx : Ctx) (txID : string).

Definition act (a : action) (c : Conf) : option Conf :=
  let '(mkConf s fl h) := c in
  match a with
  | ABegin ctx T clock =>
      if decide (heap s !! T = None ∧ (0 < clock)%Z)
      then Some (mkConf (Begin ctx T clock s).2 fl h) else None
  | ATx ctx p op =>
      if decide (fl_id <$> fl = Some p) then None else Some (mkConf (runTxop ctx p op s).2 fl h)
  | ADirect ctx op clock =>
      match ctx_tx ctx, fl with
      | None, None => Some (mkConf (runDirect ctx op clock s).2 None h)
      | _, _ => None
      end
  | APrepare ctx T => Some (mkConf (commitPrepare ctx T s).2 fl h)
  | AStamp T clock =>
      if decide (T ∈ committing (tm s)) then
        match fl, commitStamp T clock s with
        | None, (Ret (tx, cap, comp, t), s') => Some (mkConf s' (Some (mkFlight T tx cap comp t)) h)
        | None, (Err _, s') => Some (mkConf (closeTx T s') None h)
        | _, _ => None
        end
      else None
  | AFinish ctx clock =>
      match fl with
      | Some f =>
          match commitFinish ctx (fl_id f) clock (fl_tx f) (fl_cap f) (fl_computed f) (fl_submit f) s with
          | (Ret tt, s') =>
              Some (mkConf (closeTx (fl_id f) s') None
                (h ++ [mkHist (fl_id f) (SnapshotTime (fl_tx f)) (fl_submit f)
                         (ReadSet (fl_tx f)) (WriteSet (fl_tx f))]))
          | _ => None
          end
      | None => None
      end
  | ARollback ctx T =>
      if decide (T ∈ committing (tm s)) then None else Some (mkConf (Rollback ctx T s).2 fl h)
  end.

Fixpoint acts (l : list action) (c : Conf) : option Conf :=
  match l with
  | [] => Some c
  | a :: l' => c' ← act a c; acts l' c'
  end.

(** ** The invariant *)

Definition liveTx (m : TransactionManager) (T : string) (tx : TransactionState) : Prop :=
  tx_ID tx = T ∧ Closed tx = false ∧ RolledBack tx = false ∧
  (0 < SnapshotTime tx)%Z ∧ (SnapshotTime tx ≤ lastSubmitTime m)%Z ∧
  ∃ q, txSnapshotSeq m !! T = Some q ∧ (q ≤ commitSeq m)%Z.

(** A committed transaction a live one cannot see is still in the log, above the
    live one's baseline. *)
Definition logCovers (m : TransactionManager) (h : list histTx) (T : string) (tx : TransactionState) : Prop :=
  ∀ X, X ∈ h → (SnapshotTime tx < h_submit X)%Z →
    ∃ c, c ∈ committedLog m ∧ (default 0 (txSnapshotSeq m !! T) < c_seq c)%Z ∧
         c_writeSet c = h_writes X ∧ c_submitTime c = h_submit X.

Definition noOverlap (tx : TransactionState) (h : list histTx) : Prop :=
  ∀ X, X ∈ h → (SnapshotTime tx < h_submit X)%Z → h_writes X ## ReadSet tx ∪ WriteSet tx.

Definition rowsBelow (f : StoreFactory) (t : Time) : Prop :=
  ∀ tid eid v, v ∈ versionsOf f tid eid → (ev_submitTime v ≤ t)%Z.

Definition rowsOk (f : StoreFactory) : Prop :=
  ∀ tid eid, Forall row_wf (versionsOf f tid eid) ∧
             StronglySorted (λ a b, ev_submitTime a ≤ ev_submitTime b)%Z (versionsOf f tid eid).

(** First-committer-wins on a history: a transaction committed inside another's
    snapshot-to-commit window wrote nothing the other read or wrote. *)
Definition historyFCW (h : list histTx) : Prop :=
  ∀ X Y, X ∈ h → Y ∈ h → (h_snapshot X < h_submit Y)%Z → (h_submit Y < h_submit X)%Z →
    h_writes Y ## h_reads X ∪ h_writes X.

(** A commit in flight: no row and no history entry has reached its stamp, and
    the conflict check it passed still stands. *)
Definition flightOk (s : Mem) (fl : option Flight) (h : list histTx) : Prop :=
  ∀ f, fl = Some f →
    fl_id f ∈ committing (tm s) ∧ heap s !! fl_id f = Some (fl_tx f) ∧
    (fl_submit f ≤ lastSubmitTime (tm s))%Z ∧ (SnapshotTime (fl_tx f) < fl_submit f)%Z ∧
    (∀ tid eid v, v ∈ versionsOf (fac s) tid eid → (ev_submitTime v < fl_submit f)%Z) ∧
    (∀ X, X ∈ h → (h_submit X < fl_submit f)%Z) ∧ noOverlap (fl_tx f) h.

Record SIInv (c : Conf) : Prop := mkSIInv {
  inv_active : ∀ T, T ∈ active (tm (c_mem c)) → ∃ tx, heap (c_mem c) !! T = Some tx ∧
      liveTx (tm (c_mem c)) T tx ∧ logCovers (tm (c_mem c)) (c_hist c) T tx;
  inv_committing : committing (tm (c_mem c)) ⊆ active (tm (c_mem c));
  inv_rows : rowsOk (fac (c_mem c));
  inv_below : rowsBelow (fac (c_mem c)) (lastSubmitTime (tm (c_mem c)));
  inv_hist : ∀ X, X ∈ c_hist c → (h_submit X ≤ lastSubmitTime (tm (c_mem c)))%Z;
  inv_fcw : historyFCW (c_hist c);
  inv_flight : flightOk (c_mem c) (c_flight c) (c_hist c) }.

Lemma act_step a c c' : act a c = Some c' → step c c'.
Proof.
  destruct c as [s fl h]. destruct a as [ctx T clock|ctx p op|ctx op clock|ctx T|T clock|ctx clock|ctx T]; simpl.
  - case_decide as Hd; [|done]. intros [= <-]. destruct Hd. eapply step_begin; [done..|apply surjective_pairing].
  - case_decide as Hd; [done|]. intros [= <-]. eapply step_txop; [|apply surjective_pairing].
    intros f -> Heq. apply Hd. simpl. by f_equal.
  - destruct (ctx_tx ctx) eqn:Hc; [done|]. destruct fl; [done|]. intros [= <-].
    eapply step_direct; [done|apply surjective_pairing].
  - intros [= <-]. eapply step_prepare. apply surjective_pairing.
  - case_decide as Hd; [|done]. destruct fl as [|]; [done|].
    destruct (commitStamp T clock s) as [[[[[tx cap] comp] t]|e|w] s'] eqn:Hs; intros [= <-].
    + by eapply step_stamp.
    + by eapply step_abort.
  - destruct fl as [f|]; [|done].
    destruct (commitFinish _ _ _ _ _ _ _ s) as [[[]| |] s'] eqn:Hs; intros [= <-].
    by eapply step_finish.
  - case_decide as Hd; [done|]. intros [= <-]. eapply step_rollback; [done|apply surjective_pairing].
Qed.

Lemma acts_reachable l c c' : acts l c = Some c' → rtc step c c'.
Proof.
  revert c. induction l as [|a l IH]; intros c; simpl.
  - by intros [= ->].
  - intros (c1 & Ha & Hl)%bind_Some. econstructor; [by apply act_step in Ha|by apply IH].
Qed.

(** ** Runs of the manager's sections *)

Lemma Begin_run ctx txID clock s r s' :
  Begin ctx txID clock s = (r, s') →
  (∃ e, r = Err e ∧ s' = s) ∨ r = Ret (txID, WithTransaction ctx txID) ∧
  ∃ tid org now, (lastSubmitTime (tm s) ≤ now)%Z ∧ (clock ≤ now)%Z ∧
    s' = mkMem (fac s)
      (tm_set_txSnapshotSeq (<[txID := commitSeq (tm s)]>)
         (tm_set_active (union {[txID]}) (tm_set_lastSubmitTime now (tm s))))
      (<[txID := mkTx txID tid org now ∅ ∅ ∅ ∅ ∅ false false]> (heap s)).
Proof.
  unfold Begin. destruct (ctx_user ctx) as [uc|]; mrun; [|intros [= <- <-]; eauto].
  case_decide; mrun; [intros [= <- <-]; eauto|].
  unfold mod_tm. mrun. intros [= <- <-]. right. split; [done|]. unfold Before.
  eexists _, _, _. split_and!; [| |reflexivity]; case_bool_decide; lia.
Qed.

Lemma commitPrepare_run ctx txID s r s' :
  commitPrepare ctx txID s = (r, s') →
  (r ≠ Ret tt ∧ s' = s) ∨
  (r = Ret tt ∧ (txID ∈ active (tm s)) ∧ (txID ∉ committing (tm s)) ∧
   s' = mem_set_tm (tm_set_committing (union {[txID]})) s).
Proof.
  unfold commitPrepare, mod_tm, deref. mrun. case_decide as Ha; mrun; [intros [= <- <-]; by left|].
  destruct (heap s !! txID) as [tx|]; mrun; [|intros [= <- <-]; by left].
  destruct (tenantMismatch _ _); mrun; [intros [= <- <-]; by left|].
  case_decide as Hc; mrun; intros [= <- <-]; [by left|by right].
Qed.

(** What a commit reads of its own staging maps. *)
Definition capturedOf (m : TransactionManager) (txID : string) : captured :=
  mkCaptured (default ∅ (txUniqueKeys m !! txID)) (default [] (scheduledTaskOps m !! txID))
    (default ∅ (supersededSaves m !! txID)).

Lemma commitCheck_run txID tx s r s' :
  commitCheck txID tx s = (r, s') →
  (r = Ret (capturedOf (tm s) txID) ∧ s' = s ∧ ∀ c, c ∈ committedLog (tm s) →
      conflictsWith (default 0%Z (txSnapshotSeq (tm s) !! txID)) tx c = false) ∨
  (r = Err ErrConflict ∧ s' = mem_set_tm (forgetTx txID) s).
Proof.
  unfold commitCheck. mrun. destruct (existsb _ _) eqn:Hex; unfold mod_tm; mrun; intros [= <- <-].
  - by right.
  - left. split_and!; [done..|]. intros c Hc.
    destruct (conflictsWith _ _ c) eqn:Hcf; [|done].
    assert (existsb (conflictsWith (default 0%Z (txSnapshotSeq (tm s) !! txID)) tx)
              (committedLog (tm s)) = true) as Ht; [|congruence].
    apply existsb_exists. exists c. split; [by apply list_elem_of_In|done].
Qed.

(** A successful stamp bumps the floor and nothing else; a failed one forgets
    the transaction and nothing else. *)
Lemma commitStamp_run txID clock s r s' :
  commitStamp txID clock s = (r, s') →
  (∃ tx comp t, r = Ret (tx, capturedOf (tm s) txID, comp, t) ∧ heap s !! txID = Some tx ∧
     validateClaims (fac s) (tx_TenantID tx) tx (cap_keys (capturedOf (tm s) txID))
       (sortedIDs (elements (dom (Buffer tx)))) ∅ ∅ = inr comp ∧
     (lastSubmitTime (tm s) < t)%Z ∧ (clock ≤ t)%Z ∧ s' = mem_set_tm (tm_set_lastSubmitTime t) s ∧
     ∀ c, c ∈ committedLog (tm s) →
       conflictsWith (default 0%Z (txSnapshotSeq (tm s) !! txID)) tx c = false) ∨
  (∃ e, r = Err e ∧ s' = mem_set_tm (forgetTx txID) s) ∨
  (∃ w, r = Panic w ∧ s' = s).
Proof.
  unfold commitStamp, deref. mrun. destruct (heap s !! txID) as [tx|] eqn:Hh; mrun.
  2:{ intros [= <- <-]. eauto 10. }
  rewrite run_bind. destruct (commitCheck txID tx s) as [rc sc] eqn:Hck.
  destruct (commitCheck_run _ _ _ _ _ Hck) as [(-> & -> & Hno)|[-> ->]].
  2:{ intros [= <- <-]. right. left. eauto. }
  mrun. destruct (validateClaims _ _ _ _ _ _ _) as [e|comp] eqn:Hv.
  - unfold abortClaim, mod_tm. mrun. intros [= <- <-]. right. left. eauto.
  - rewrite run_bind. destruct (nextSubmitTime_run clock s) as (t & Hlt & Hcl & ->). mrun.
    intros [= <- <-]. left. eexists _, _, _. split_and!; eauto.
Qed.

Lemma commitRecord_run tid txID t clock ws s :
  ∃ log', commitRecord tid txID t clock ws s =
    (Ret tt, mem_set_tm (λ m, tm_set_log log' (commitSeq m + 1)%Z (forgetTx txID
       (tm_set_submitTimes (λ ts, evictSubmitTimes clock (<[txID := mkSTE t tid]> ts)) m))) s) ∧
    let m' := forgetTx txID (tm s) in
    let log := committedLog (tm s) ++ [mkCommitted txID t (commitSeq (tm s) + 1) ws] in
    log' = (if negb (IsZero (oldestSnapshot m' (heap s)))
            then filter (λ c, ¬ (c_submitTime c < oldestSnapshot m' (heap s))%Z) log else []).
Proof. unfold commitRecord. mrun. eexists. split; reflexivity. Qed.

Lemma Rollback_run ctx txID s r s' :
  Rollback ctx txID s = (r, s') →
  s' = s ∨ (txID ∈ active (tm s) ∧
    s' = mkMem (fac s) (forgetTx txID (tm s))
           (alter (tx_set_Closed true) txID (alter (tx_set_RolledBack true) txID (heap s)))).
Proof.
  unfold Rollback, rollbackPrepare. rewrite run_bind. mrun.
  case_decide as Ha; mrun; [left; congruence|].
  unfold deref. mrun. destruct (heap s !! txID) as [tx|]; mrun; [|left; congruence].
  destruct (tenantMismatch _ _); mrun; [left; congruence|].
  unfold rollbackLocked, finally, mod_tx, mod_tm. mrun. intros [= <- <-]. right.
  by split.
Qed.

(** ** Monotonicity of the invariant's parts *)

Lemma liveTx_mono m m' T tx tx' :
  sameTx tx tx' → (lastSubmitTime m ≤ lastSubmitTime m')%Z → (commitSeq m ≤ commitSeq m')%Z →
  txSnapshotSeq m' !! T = txSnapshotSeq m !! T → liveTx m T tx → liveTx m' T tx'.
Proof.
  intros (E1 & _ & _ & E2 & E3 & E4) Hl Hc Hq (L1 & L2 & L3 & L4 & L5 & q & Hq' & L6).
  rewrite E1 in L1. rewrite E2 in L4, L5. rewrite E3 in L3. rewrite E4 in L2.
  split_and!; [done..|lia|]. exists q. rewrite Hq. split; [done|lia].
Qed.

Lemma logCovers_mono m m' h T tx tx' :
  SnapshotTime tx = SnapshotTime tx' → committedLog m ⊆ committedLog m' →
  txSnapshotSeq m' !! T = txSnapshotSeq m !! T → logCovers m h T tx → logCovers m' h T tx'.
Proof.
  intros Hs Hsub Hq Hcov X HX Hlt. rewrite <- Hs in Hlt.
  destruct (Hcov X HX Hlt) as (c & Hc & ?). exists c. rewrite Hq. by split; [apply Hsub|].
Qed.

Lemma sortedLe_app (t : Time) l l' :
  StronglySorted (λ a b, ev_submitTime a ≤ ev_submitTime b)%Z l →
  (∀ v, v ∈ l → (ev_submitTime v ≤ t)%Z) → Forall (stampedRow t) l' →
  StronglySorted (λ a b, ev_submitTime a ≤ ev_submitTime b)%Z (l ++ l').
Proof.
  intros Hl Hb Hl'. induction Hl as [|v l Hl IH Hv]; simpl.
  - induction Hl' as [|v l' [Hv _] Hl' IH]; constructor; [done|].
    eapply Forall_impl; [exact Hl'|]. intros w [Hw _]. lia.
  - constructor; [apply IH; set_solver|]. apply Forall_app. split; [done|].
    eapply Forall_impl; [exact Hl'|]. intros w [Hw _]. rewrite Hw. apply Hb. set_solver.
Qed.

(** Appending rows stamped at or above every existing row keeps the histories
    well formed and sorted. *)
Lemma rows_ext t t' f f' :
  rowsOk f → rowsBelow f t → (t ≤ t')%Z → rowsExt (stampedRow t') f f' →
  rowsOk f' ∧ rowsBelow f' t'.
Proof.
  intros Hok Hb Hle Hext. split.
  - intros tid eid. destruct (Hext tid eid) as (rows & -> & HF). destruct (Hok tid eid) as [Hw Hs].
    split.
    + apply Forall_app. split; [done|]. eapply Forall_impl; [exact HF|]. by intros v [].
    + apply (sortedLe_app t'); [done| |done]. intros v Hv. specialize (Hb _ _ _ Hv). lia.
  - intros tid eid v. destruct (Hext tid eid) as (rows & -> & HF).
    rewrite elem_of_app. intros [Hv|Hv]; [specialize (Hb _ _ _ Hv); lia|].
    rewrite Forall_forall in HF. destruct (HF _ Hv). lia.
Qed.

(** A step that ends no commit: transactions may leave, the ones that stay keep
    their identity and baseline, the log and the clocks only grow. *)
Lemma SIInv_evolve s s' fl fl' h :
  SIInv (mkConf s fl h) → active (tm s') ⊆ active (tm s) → committing (tm s') ⊆ active (tm s') →
  (∀ T, T ∈ active (tm s') → txSnapshotSeq (tm s') !! T = txSnapshotSeq (tm s) !! T ∧
                             option_Forall2 sameTx (heap s !! T) (heap s' !! T)) →
  committedLog (tm s) ⊆ committedLog (tm s') → (commitSeq (tm s) ≤ commitSeq (tm s'))%Z →
  (lastSubmitTime (tm s) ≤ lastSubmitTime (tm s'))%Z →
  rowsOk (fac s') → rowsBelow (fac s') (lastSubmitTime (tm s')) → flightOk s' fl' h →
  SIInv (mkConf s' fl' h).
Proof.
  intros [Ha Hc Hr Hb Hh Hf Hfl] Hact Hcom Hkeep Hlog Hseq Hlast Hr' Hb' Hfl'.
  simpl in *. constructor; simpl; [|done..| |done|done].
  - intros T HT. destruct (Ha T (Hact T HT)) as (tx & Htx & Hlive & Hcov).
    destruct (Hkeep T HT) as [Hq Hsame]. rewrite Htx in Hsame.
    inversion Hsame as [? tx' Hs E1 E2|]; subst. exists tx'. split; [done|]. split.
    + by eapply liveTx_mono.
    + eapply logCovers_mono; [apply Hs|done..].
  - intros X HX. specialize (Hh X HX). lia.
Qed.

Lemma sameTx_lookup_refl (h : gmap string TransactionState) T :
  option_Forall2 sameTx (h !! T) (h !! T).
Proof. destruct (h !! T); constructor; reflexivity. Qed.

Lemma rowsBelow_le f t t' : rowsBelow f t → (t ≤ t')%Z → rowsBelow f t'.
Proof. intros Hb Hle tid eid v Hv. specialize (Hb _ _ _ Hv). lia. Qed.

(** ** Every step preserves the invariant *)

Lemma SIInv_init : SIInv initConf.
Proof.
  constructor; simpl; [set_solver|set_solver| | | | |].
  - intros tid eid. split; constructor.
  - intros tid eid v Hv. by apply elem_of_nil in Hv.
  - set_solver.
  - intros X Y HX. by apply elem_of_nil in HX.
  - done.
Qed.

Lemma SIInv_begin ctx txID clock s r s' fl h :
  heap s !! txID = None → (0 < clock)%Z → Begin ctx txID clock s = (r, s') →
  SIInv (mkConf s fl h) → SIInv (mkConf s' fl h).
Proof.
  intros Hfresh Hpos Hrun Hinv.
  destruct (Begin_run _ _ _ _ _ _ Hrun) as [(e & _ & ->)|(_ & tid & org & now & Hl & Hcl & ->)]; [done|].
  destruct Hinv as [Ha Hc Hr Hb Hh Hf Hfl]; simpl in *.
  constructor; simpl; [|set_solver|done|by eapply rowsBelow_le| |done|].
  - intros T HT. destruct (decide (T = txID)) as [->|Hne].
    + rewrite lookup_insert_eq. eexists. split; [done|]. split.
      * unfold liveTx; simpl. split_and!; try done; try lia. exists (commitSeq (tm s)).
        by rewrite lookup_insert_eq.
      * intros X HX Hlt; simpl in Hlt. specialize (Hh X HX). lia.
    + rewrite lookup_insert_ne by done. destruct (Ha T) as (tx & Htx & Hlive & Hcov).
      { apply elem_of_union in HT as [HT%elem_of_singleton|]; done. }
      exists tx. split; [done|]. split.
      * eapply liveTx_mono; [reflexivity|..|exact Hlive]; simpl; [lia|lia|].
        by rewrite lookup_insert_ne.
      * eapply logCovers_mono; [reflexivity|..|exact Hcov]; [done|]. by simpl; rewrite lookup_insert_ne.
  - intros X HX. specialize (Hh X HX). lia.
  - intros f Hfe. destruct (Hfl f Hfe) as (? & ? & ? & Hrest). simpl.
    split; [done|]. split; [|split; [lia|exact Hrest]]. rewrite lookup_insert_ne; [done|congruence].
Qed.

Lemma SIInv_txop ctx p op s r s' fl h :
  (∀ f, fl = Some f → fl_id f ≠ p) → runTxop ctx p op s = (r, s') →
  SIInv (mkConf s fl h) → SIInv (mkConf s' fl h).
Proof.
  intros Hp Hrun Hinv.
  destruct (stable_elim _ _ _ _ _ (runTxop_frame ctx p op) Hrun) as (Hfac & Hcore & Hoth & Hsame).
  destruct Hcore as (E1 & E2 & E3 & _ & E5 & E6 & E7).
  eapply SIInv_evolve; [exact Hinv|..]; rewrite <- ?E1, <- ?E2, <- ?E3, <- ?E5, <- ?E7, <- ?Hfac;
    try apply Hinv; [done| |done|done|done|].
  - intros T _. rewrite E6. split; [done|]. destruct (decide (T = p)) as [->|]; [done|].
    rewrite <- Hoth by done. apply sameTx_lookup_refl.
  - intros f Hf. destruct (inv_flight _ Hinv f Hf) as (? & ? & ?); simpl in *.
    rewrite <- E3, <- E7, <- Hfac, <- Hoth by eauto. done.
Qed.

Lemma runDirect_direct ctx op clock s r s' :
  ctx_tx ctx = None → runDirect ctx op clock s = (r, s') → directRel s s'.
Proof.
  intros Hctx Hrun. destruct op; unfold runDirect, ignore in Hrun; rewrite run_bind in Hrun;
    match type of Hrun with context [match ?m s with _ => _ end] =>
      destruct (m s) as [r1 s1] eqn:Hm end;
    (destruct r1; mrun_in Hrun; simplify_eq);
    eauto using Save_direct, CompareAndSave_direct, Delete_direct, DeleteAll_direct.
Qed.

Lemma SIInv_direct ctx op clock s r s' h :
  ctx_tx ctx = None → runDirect ctx op clock s = (r, s') →
  SIInv (mkConf s None h) → SIInv (mkConf s' None h).
Proof.
  intros Hctx Hrun Hinv.
  destruct (runDirect_direct _ _ _ _ _ _ Hctx Hrun) as [->|(now & Hlt & Etm & Eh & Hext)]; [done|].
  destruct (rows_ext _ now _ _ (inv_rows _ Hinv) (inv_below _ Hinv) ltac:(simpl; lia) Hext).
  eapply SIInv_evolve; [exact Hinv|..]; rewrite ?Etm, ?Eh; simpl; try done; [apply Hinv|lia].
Qed.

Lemma SIInv_prepare ctx txID s r s' fl h :
  commitPrepare ctx txID s = (r, s') → SIInv (mkConf s fl h) → SIInv (mkConf s' fl h).
Proof.
  intros Hrun Hinv.
  destruct (commitPrepare_run _ _ _ _ _ Hrun) as [[_ ->]|(_ & Hact & _ & ->)]; [done|].
  pose proof (inv_committing _ Hinv) as Hc; simpl in Hc.
  eapply SIInv_evolve; [exact Hinv|..]; simpl; try done; [set_solver|apply Hinv..|].
  intros f Hf. destruct (inv_flight _ Hinv f Hf) as (? & ?); simpl in *. split; [set_solver|done].
Qed.

Lemma SIInv_stamp txID clock s s' tx cap comp t h :
  txID ∈ committing (tm s) → commitStamp txID clock s = (Ret (tx, cap, comp, t), s') →
  SIInv (mkConf s None h) → SIInv (mkConf s' (Some (mkFlight txID tx cap comp t)) h).
Proof.
  intros Hcom Hrun Hinv.
  destruct (commitStamp_run _ _ _ _ _ Hrun)
    as [(tx' & comp' & t' & [= <- -> <- <-] & Htx & _ & Hlt & _ & -> & Hno)
       |[(e & ? & _)|(w & ? & _)]]; [|done..].
  pose proof (inv_below _ Hinv) as Hb. pose proof (inv_hist _ Hinv) as Hh.
  destruct (inv_active _ Hinv txID) as (tx' & Htx' & Hlive & Hcov); [by apply (inv_committing _ Hinv)|].
  simpl in *. simplify_eq.
  eapply SIInv_evolve; [exact Hinv|..]; simpl; try done; try apply Hinv; [lia| |].
  - eapply rowsBelow_le; [done|lia].
  - intros f [= <-]; simpl. split_and!; try done.
    + destruct Hlive as (_ & _ & _ & _ & ? & _). lia.
    + intros tid eid v Hv. specialize (Hb _ _ _ Hv). lia.
    + intros X HX. specialize (Hh X HX). lia.
    + intros X HX Hs. destruct (Hcov X HX Hs) as (c & Hc & Hq & <- & _).
      specialize (Hno c Hc). unfold conflictsWith in Hno.
      rewrite bool_decide_true in Hno by done; simpl in Hno.
      apply bool_decide_eq_false in Hno. intros x Hx1 Hx2.
      apply Hno. exists x. by rewrite elem_of_union in Hx2.
Qed.

(** Forgetting a transaction and closing its object leaves the others alone. *)
Lemma SIInv_forget txID s fl h (g : TransactionState → TransactionState) :
  SIInv (mkConf s fl h) → (∀ f, fl = Some f → fl_id f ≠ txID) →
  SIInv (mkConf (mkMem (fac s) (forgetTx txID (tm s)) (alter g txID (heap s))) fl h).
Proof.
  intros Hinv Hne. pose proof (inv_committing _ Hinv) as Hc; simpl in Hc.
  eapply SIInv_evolve; [exact Hinv|..]; simpl; try done; try apply Hinv; [set_solver|set_solver| |].
  - intros T HT. assert (T ≠ txID) by set_solver.
    rewrite lookup_delete_ne, lookup_alter_ne by done. done.
  - intros f Hf. destruct (inv_flight _ Hinv f Hf) as (Hf1 & Hf2 & Hf3); simpl in *.
    specialize (Hne f Hf). split; [set_solver|]. by rewrite lookup_alter_ne.
Qed.

Lemma SIInv_abort txID clock s s' e h :
  commitStamp txID clock s = (Err e, s') →
  SIInv (mkConf s None h) → SIInv (mkConf (closeTx txID s') None h).
Proof.
  intros Hrun Hinv.
  destruct (commitStamp_run _ _ _ _ _ Hrun)
    as [(? & ? & ? & ? & _)|[(e' & _ & ->)|(w & ? & _)]]; [done| |done].
  by apply (SIInv_forget txID s None h).
Qed.

Lemma alter_alter (f g : TransactionState → TransactionState) i (m : gmap string TransactionState) :
  alter f i (alter g i m) = alter (f ∘ g) i m.
Proof.
  apply map_eq. intros j. destruct (decide (j = i)) as [->|].
  - rewrite !lookup_alter_eq. by destruct (m !! i).
  - by rewrite !lookup_alter_ne.
Qed.

Lemma SIInv_rollback ctx txID s r s' fl h :
  txID ∉ committing (tm s) → Rollback ctx txID s = (r, s') →
  SIInv (mkConf s fl h) → SIInv (mkConf s' fl h).
Proof.
  intros Hcom Hrun Hinv. destruct (Rollback_run _ _ _ _ _ Hrun) as [->|(_ & ->)]; [done|].
  rewrite alter_alter. apply SIInv_forget; [done|].
  intros f Hf <-. by destruct (inv_flight _ Hinv f Hf).
Qed.

(** The pruning horizon is at or below every active snapshot. *)
Lemma oldestSnapshot_fold (hp : gmap string TransactionState) ids old :
  (0 ≤ old)%Z → (∀ T, T ∈ ids → ∃ tx, hp !! T = Some tx ∧ (0 < SnapshotTime tx)%Z) →
  let o := foldl (λ oldest txID, match hp !! txID with
      | Some tx => if IsZero oldest || Before (SnapshotTime tx) oldest then SnapshotTime tx else oldest
      | None => oldest end) old ids in
  (0 ≤ o)%Z ∧ ((0 < old)%Z → (0 < o ≤ old)%Z) ∧
  ∀ T tx, T ∈ ids → hp !! T = Some tx → (0 < o ≤ SnapshotTime tx)%Z.
Proof.
  revert old. induction ids as [|T ids IH]; intros old Hold Hall; simpl.
  { split_and!; [lia|lia|]. intros ? ? HT. by apply elem_of_nil in HT. }
  destruct (Hall T) as (tx & Htx & Hpos); [set_solver|]. rewrite Htx.
  set (old' := if IsZero old || _ then _ else _).
  assert ((0 < old' ≤ SnapshotTime tx)%Z ∧ ((0 < old)%Z → (old' ≤ old)%Z)) as [Ho Ho'].
  { subst old'. unfold IsZero, Before. repeat case_bool_decide; simpl; lia. }
  destruct (IH old') as (H1 & H2 & H3); [lia|set_solver|].
  split_and!; [done|lia|].
  intros T' tx' HT' Htx'. apply elem_of_cons in HT' as [->|HT']; [|eauto].
  simplify_eq. lia.
Qed.

Lemma oldestSnapshot_le m hp T tx :
  (∀ T', T' ∈ active m → ∃ tx', hp !! T' = Some tx' ∧ (0 < SnapshotTime tx')%Z) →
  T ∈ active m → hp !! T = Some tx → (0 < oldestSnapshot m hp ≤ SnapshotTime tx)%Z.
Proof.
  intros Hall HT Htx. unfold oldestSnapshot.
  destruct (oldestSnapshot_fold hp (elements (active m)) 0) as (_ & _ & Hle); [lia| |].
  - intros T' HT'. apply Hall. by apply elem_of_elements.
  - eapply Hle; [by apply elem_of_elements|done].
Qed.

(** A successful finish: rows stamped with the submit time, then the log entry. *)
Lemma commitFinish_run ctx txID clock tx cap comp t s s' :
  commitFinish ctx txID clock tx cap comp t s = (Ret tt, s') →
  ∃ f', rowsExt (stampedRow t) (fac s) f' ∧ fac s' = f' ∧ heap s' = heap s ∧
    let o := oldestSnapshot (forgetTx txID (tm s)) (heap s) in
    let log := committedLog (tm s) ++ [mkCommitted txID t (commitSeq (tm s) + 1) (WriteSet tx)] in
    tm s' = tm_set_log
      (if negb (IsZero o) then filter (λ c, ¬ (c_submitTime c < o)%Z) log else [])
      (commitSeq (tm s) + 1)%Z (forgetTx txID (tm_set_submitTimes
        (λ ts, evictSubmitTimes clock (<[txID := mkSTE t (tx_TenantID tx)]> ts)) (tm s))).
Proof.
  unfold commitFinish. rewrite run_bind.
  destruct (commitFlush _ _ _ _ _ _ _ _ _ _ s) as [rf s1] eqn:Hfl. destruct rf; try done.
  destruct (stable_elim _ _ _ _ _ (commitFlush_flush _ _ _ _ _ _ _ _ _ _) Hfl) as (Htm & Hheap & Hext).
  destruct (commitRecord_run (tx_TenantID tx) txID t clock (WriteSet tx) s1)
    as (log' & -> & Hlog).
  intros [= <-]. exists (fac s1). split; [done|]. split; [done|]. split; [by simpl; rewrite Hheap|].
  simpl in *. by rewrite Hlog, Htm, Hheap.
Qed.

Lemma historyFCW_snoc h X :
  historyFCW h → (∀ Y, Y ∈ h → (h_submit Y < h_submit X)%Z) →
  (∀ Y, Y ∈ h → (h_snapshot X < h_submit Y)%Z → h_writes Y ## h_reads X ∪ h_writes X) →
  historyFCW (h ++ [X]).
Proof.
  intros Hf Hlt Hno A B HA HB H1 H2.
  apply elem_of_app in HA as [HA|HA%list_elem_of_singleton];
    apply elem_of_app in HB as [HB|HB%list_elem_of_singleton]; subst.
  - by apply Hf.
  - specialize (Hlt _ HA). lia.
  - by apply Hno.
  - lia.
Qed.

Lemma SIInv_finish ctx clock s s' f h :
  commitFinish ctx (fl_id f) clock (fl_tx f) (fl_cap f) (fl_computed f) (fl_submit f) s = (Ret tt, s') →
  SIInv (mkConf s (Some f) h) →
  SIInv (mkConf (closeTx (fl_id f) s') None
    (h ++ [mkHist (fl_id f) (SnapshotTime (fl_tx f)) (fl_submit f)
             (ReadSet (fl_tx f)) (WriteSet (fl_tx f))])).
Proof.
  intros Hrun Hinv. destruct (commitFinish_run _ _ _ _ _ _ _ _ _ Hrun)
    as (f' & Hext & Ef & Eh & Etm).
  destruct Hinv as [Ha Hc Hr Hb Hh Hf Hfl]; simpl in *.
  destruct (Hfl f eq_refl) as (Hcom & Htx & Hle & Hsnap & Hrows & Hhist & Hno).
  destruct (rows_ext (fl_submit f) (fl_submit f) _ _ Hr
    (λ tid eid v Hv, Z.lt_le_incl _ _ (Hrows tid eid v Hv)) (Z.le_refl _) Hext) as [Hr' Hb'].
  constructor; simpl; rewrite ?Ef, ?Eh, ?Etm; simpl; [|set_solver|done| | | |done].
  - intros T HT. apply elem_of_difference in HT as [HT Hne%not_elem_of_singleton].
    destruct (Ha T HT) as (tx & Htx' & Hlive & Hcov). exists tx.
    rewrite lookup_alter_ne by done. split; [done|]. split.
    + eapply liveTx_mono; [reflexivity|..|exact Hlive]; simpl; [lia|lia|by rewrite lookup_delete_ne].
    + assert (0 < oldestSnapshot (forgetTx (fl_id f) (tm s)) (heap s) ≤ SnapshotTime tx)%Z as Ho.
      { apply (oldestSnapshot_le _ _ T); simpl; [|set_solver|done].
        intros T' [HT' _]%elem_of_difference. destruct (Ha T' HT') as (tx' & ? & Hl' & _).
        exists tx'. split; [done|apply Hl']. }
      destruct Hlive as (_ & _ & _ & _ & _ & q & Hq & Hqle).
      intros X HX Hlt; simpl. unfold IsZero. rewrite bool_decide_false by lia. simpl.
      rewrite lookup_delete_ne by done.
      apply elem_of_app in HX as [HX| ->%list_elem_of_singleton].
      * destruct (Hcov X HX Hlt) as (c & Hc1 & Hc2 & Hc3 & Hc4). exists c. split_and!; try done.
        apply list_elem_of_filter. split; [lia|set_solver].
      * eexists. split_and!; [apply list_elem_of_filter; split; [|apply elem_of_app; right;
          by apply list_elem_of_singleton]|..]; simpl in *; [lia|rewrite Hq; simpl; lia|done|done].
  - eapply rowsBelow_le; [done|lia].
  - intros X [HX| ->%list_elem_of_singleton]%elem_of_app; [by apply Hh|done].
  - by apply historyFCW_snoc.
Qed.

Lemma SIInv_step c c' : step c c' → SIInv c → SIInv c'.
Proof.
  destruct 1; eauto using SIInv_begin, SIInv_txop, SIInv_direct, SIInv_prepare, SIInv_stamp,
    SIInv_abort, SIInv_finish, SIInv_rollback.
Qed.

Lemma SIInv_rtc c c' : rtc step c c' → SIInv c → SIInv c'.
Proof. induction 1; eauto using SIInv_step. Qed.

Lemma SIInv_reachable c : reachable c → SIInv c.
Proof. intros Hr. by apply (SIInv_rtc _ _ Hr), SIInv_init. Qed.

(** ** What later steps can add
    From a point where no commit is in flight, every row a later step appends is
    stamped above the floor of that point, and transaction objects keep their
    snapshot. *)

Definition rowAfter (L : Time) (v : entityVersion) : Prop := (L < ev_submitTime v)%Z.

Definition keepsSnapshots (hp hp' : gmap string TransactionState) : Prop :=
  ∀ T tx, hp !! T = Some tx → ∃ tx', hp' !! T = Some tx' ∧ SnapshotTime tx' = SnapshotTime tx.

Definition aboveFloor (L : Time) (c : Conf) : Prop :=
  (L ≤ lastSubmitTime (tm (c_mem c)))%Z ∧
  ∀ f, c_flight c = Some f → (L < fl_submit f)%Z.

Definition advances (L : Time) (c c' : Conf) : Prop :=
  rowsExt (rowAfter L) (fac (c_mem c)) (fac (c_mem c')) ∧
  keepsSnapshots (heap (c_mem c)) (heap (c_mem c')) ∧
  (aboveFloor L c → aboveFloor L c').

#[export] Instance keepsSnapshots_preorder : PreOrder keepsSnapshots.
Proof.
  split; [intros hp T tx Htx; eauto|].
  intros h1 h2 h3 H1 H2 T tx Htx. destruct (H1 T tx Htx) as (tx2 & Htx2 & E2).
  destruct (H2 T tx2 Htx2) as (tx3 & Htx3 & E3). exists tx3. split; [done|congruence].
Qed.

#[export] Instance advances_preorder L : PreOrder (advances L).
Proof.
  split; [intros c; split_and!; done|].
  intros c1 c2 c3 (? & ? & ?) (? & ? & ?). split_and!; [by etrans|by etrans|auto].
Qed.

Lemma keepsSnapshots_alter g p hp :
  (∀ tx, SnapshotTime (g tx) = SnapshotTime tx) → keepsSnapshots hp (alter g p hp).
Proof.
  intros Hg T tx Htx. destruct (decide (T = p)) as [->|].
  - rewrite lookup_alter_eq, Htx. simpl. eauto.
  - rewrite lookup_alter_ne by done. eauto.
Qed.

Lemma keepsSnapshots_frame p s s' : txFrame p s s' → keepsSnapshots (heap s) (heap s').
Proof.
  intros (_ & _ & Hoth & Hsame) T tx Htx. destruct (decide (T = p)) as [->|].
  - rewrite Htx in Hsame. inversion Hsame as [? tx' Hs E1 E2|]; subst.
    exists tx'. split; [done|]. symmetry. apply Hs.
  - exists tx. by rewrite <- Hoth.
Qed.

Lemma stampedRow_after L t v : (L < t)%Z → stampedRow t v → rowAfter L v.
Proof. intros Hlt [Ht _]. unfold rowAfter. lia. Qed.

Lemma advances_same L s s' fl h :
  fac s' = fac s → keepsSnapshots (heap s) (heap s') →
  (lastSubmitTime (tm s) ≤ lastSubmitTime (tm s'))%Z → advances L (mkConf s fl h) (mkConf s' fl h).
Proof.
  intros Hf Hh Hl. split_and!; simpl; [by rewrite Hf|done|].
  intros [? ?]. split; simpl in *; [lia|done].
Qed.

Lemma step_advances L c c' : step c c' → aboveFloor L c → advances L c c'.
Proof.
  destruct 1 as [ctx T clock s s' r fl h Hn Hp Hrun|ctx p op s s' r fl h Hp Hrun
    |ctx op clock s s' r h Hctx Hrun|ctx T s s' r fl h Hrun|T clock s s' tx cap comp t h Hc Hrun
    |T clock s s' e h Hc Hrun|ctx clock s s' f h Hrun|ctx T s s' r fl h Hc Hrun]; intros [HL Hfl].
  - destruct (Begin_run _ _ _ _ _ _ Hrun) as [(e & _ & ->)|(_ & ? & ? & now & ? & ? & ->)]; [done|].
    apply advances_same; simpl; [done| |lia]. intros T' tx Htx. exists tx.
    rewrite lookup_insert_ne; [done|congruence].
  - pose proof (stable_elim _ _ _ _ _ (runTxop_frame ctx p op) Hrun) as Hfr.
    apply advances_same; [symmetry; apply Hfr|by eapply keepsSnapshots_frame|].
    destruct Hfr as (_ & (_ & _ & _ & _ & _ & _ & ->) & _). lia.
  - destruct (runDirect_direct _ _ _ _ _ _ Hctx Hrun) as [->|(now & Hlt & Etm & Eh & Hext)]; [done|].
    split_and!; simpl in *; [|by rewrite Eh|].
    + eapply rowsExt_weaken; [|exact Hext]. intros v. apply stampedRow_after. lia.
    + intros _. split; simpl; [|done]. rewrite Etm. simpl. lia.
  - destruct (commitPrepare_run _ _ _ _ _ Hrun) as [[_ ->]|(_ & _ & _ & ->)]; [done|]. by apply advances_same.
  - destruct (commitStamp_run _ _ _ _ _ Hrun)
      as [(? & ? & ? & [= <- -> <- <-] & _ & _ & Hlt & _ & -> & _)|[(? & ? & _)|(? & ? & _)]]; [|done..].
    split_and!; simpl in *; [done|done|]. intros _. split; simpl; [lia|]. intros f [= <-]. simpl. lia.
  - destruct (commitStamp_run _ _ _ _ _ Hrun)
      as [(? & ? & ? & ? & _)|[(? & _ & ->)|(? & ? & _)]]; [done| |done].
    apply advances_same; simpl; [done| |lia]. by apply keepsSnapshots_alter.
  - destruct (commitFinish_run _ _ _ _ _ _ _ _ _ Hrun) as (f' & Hext & Ef & Eh & Etm).
    specialize (Hfl f eq_refl). split_and!; simpl in *.
    + rewrite Ef. eapply rowsExt_weaken; [|exact Hext]. intros v. by apply stampedRow_after.
    + rewrite Eh. by apply keepsSnapshots_alter.
    + intros _. split; simpl; [|done]. rewrite Etm. simpl. lia.
  - destruct (Rollback_run _ _ _ _ _ Hrun) as [->|(_ & ->)]; [done|].
    apply advances_same; simpl; [done| |lia]. rewrite alter_alter. by apply keepsSnapshots_alter.
Qed.

Lemma rtc_advances L c c' : rtc step c c' → aboveFloor L c → advances L c c'.
Proof.
  induction 1 as [|c c1 c2 Hs _ IH]; intros HL; [done|].
  pose proof (step_advances L _ _ Hs HL) as Hadv. etrans; [done|]. apply IH, Hadv, HL.
Qed.

(** A walk ignores rows after its instant. *)
Lemma walkVersions_app_after t l rows res del :
  Forall (rowAfter t) rows → walkVersions t (l ++ rows) res del = walkVersions t l res del.
Proof.
  intros Hr. revert res del. induction l as [|v l IH]; intros res del; simpl.
  - destruct Hr as [|v rows Hv]; [done|]. simpl. unfold After. by rewrite bool_decide_true.
  - rewrite !IH. done.
Qed.

Lemma getSnapshotVersion_walk tid f eid t :
  getSnapshotVersion tid f eid t =
    match (walkVersions t (versionsOf f tid eid) None false).1 with
    | None => inl ErrNotFound | Some e => inr (copyEntity e) end.
Proof. unfold getSnapshotVersion. by destruct (versionsOf f tid eid). Qed.

Lemma getSnapshotVersion_ext L tid f f' eid t :
  rowsExt (rowAfter L) f f' → (t ≤ L)%Z → getSnapshotVersion tid f' eid t = getSnapshotVersion tid f eid t.
Proof.
  intros Hext Hle. rewrite !getSnapshotVersion_walk. destruct (Hext tid eid) as (rows & -> & Hr).
  rewrite walkVersions_app_after; [done|]. eapply Forall_impl; [exact Hr|].
  intros v. unfold rowAfter. lia.
Qed.
End SI.
