(* ===== verification/MemIsolation.v ===== *)
(** * Memory plugin: the isolation guarantees

    The contract the transaction manager gives its clients, over every
    interleaving of [MemSI]: first-committer-wins, repeatable reads, a snapshot
    that is the committed state at [Begin], atomic visibility of a commit. *)

From stdpp Require Import base gmap strings list fin_maps sorting.
From S2P Require Import Prelude Spi MemState MemTx MemEntity MemFrame MemSI.

(** ** Sample schedules *)

Definition sampleSave (p id data : string) : action :=
  ATx (Sample.ctx "t") p (OpSave "t" (Sample.entity id data) 0).

(** Two transactions with overlapping windows and disjoint footprints, and a
    third that loses against the first. *)
Definition sampleOverlap : list action :=
  [ABegin (Sample.ctx "t") "A" 10; ABegin (Sample.ctx "t") "B" 11; ABegin (Sample.ctx "t") "C" 12;
   sampleSave "A" "e1" "a"; sampleSave "B" "e2" "b"; sampleSave "C" "e1" "c";
   APrepare (Sample.ctx "t") "A"; AStamp "A" 20; AFinish (Sample.ctx "t") 20;
   APrepare (Sample.ctx "t") "C"; AStamp "C" 21;
   APrepare (Sample.ctx "t") "B"; AStamp "B" 22; AFinish (Sample.ctx "t") 22].

(** [e1] committed, then [R] begins; a later commit overwrites [e1]. *)
Definition sampleSetup : list action :=
  [ABegin (Sample.ctx "t") "A" 10; sampleSave "A" "e1" "a";
   APrepare (Sample.ctx "t") "A"; AStamp "A" 20; AFinish (Sample.ctx "t") 20].
Definition sampleOverwrite : list action :=
  [ABegin (Sample.ctx "t") "W" 40; sampleSave "W" "e1" "w";
   APrepare (Sample.ctx "t") "W"; AStamp "W" 50; AFinish (Sample.ctx "t") 50].
Definition sampleReader : list action := sampleSetup ++ [ABegin (Sample.ctx "t") "R" 30].

(** The configuration a schedule leads to. *)
Definition confOf (l : list action) : Conf := default initConf (acts (H:=Sample.spi) l initConf).

Definition sampleTx (l : list action) (T : string) : TransactionState :=
  default (mkTx "" "" (mkPrincipal "" "") 0 ∅ ∅ ∅ ∅ ∅ true true) (heap (c_mem (confOf l)) !! T).

(** A commit in flight beside a live reader. *)
Definition sampleFlight : list action :=
  sampleReader ++ [ABegin (Sample.ctx "t") "W" 40; sampleSave "W" "e1" "w";
                   APrepare (Sample.ctx "t") "W"; AStamp "W" 50].
Definition sampleFl : Flight :=
  default (mkFlight "" (sampleTx [] "") (mkCaptured ∅ [] ∅) ∅ 0) (c_flight (confOf sampleFlight)).
Definition sampleFinished : Mem :=
  (commitFinish (H:=Sample.spi) (Sample.ctx "t") (fl_id sampleFl) 50 (fl_tx sampleFl) (fl_cap sampleFl)
     (fl_computed sampleFl) (fl_submit sampleFl) (c_mem (confOf sampleFlight))).2.

Section Isolation.
Context `{SPI}.

Lemma live_openTx c T tx :
  SIInv c → T ∈ active (tm (c_mem c)) → heap (c_mem c) !! T = Some tx →
  openTx T (c_mem c) = (Ret tx, c_mem c).
Proof.
  intros Hinv HT Htx. destruct (inv_active _ Hinv T HT) as (tx' & Htx' & Hl & _). simplify_eq.
  destruct Hl as (_ & Hcl & Hrb & _). unfold openTx, deref. mrun. rewrite Htx. mrun.
  by rewrite Hrb, Hcl.
Qed.

(** What [Get] answers on an entity the transaction has not written. *)
Lemma Get_untouched c ctx T tx tid eid :
  SIInv c → T ∈ active (tm (c_mem c)) → heap (c_mem c) !! T = Some tx →
  eid ∉ Deletes tx → Buffer tx !! eid = None →
  (Get tid (WithTransaction ctx T) eid (c_mem c)).1 =
    match getSnapshotVersion tid (fac (c_mem c)) eid (SnapshotTime tx) with
    | inl e => Err e | inr e => Ret e end.
Proof.
  intros Hinv HT Htx Hd Hb. unfold Get; cbn [ctx_tx WithTransaction].
  rewrite run_bind, (live_openTx c T tx Hinv HT Htx). rewrite decide_False by done. rewrite Hb.
  unfold mod_tx. mrun. simpl. by destruct (getSnapshotVersion _ _ _ _).
Qed.

(** Walking rows that are all at or before the instant gives the latest row. *)
Lemma walkVersions_all t l res del :
  Forall row_wf l → (∀ v, v ∈ l → (ev_submitTime v ≤ t)%Z) →
  (walkVersions t l res del).1 = match last l with None => res | Some _ => latestLive l end.
Proof.
  intros Hwf. revert res del. induction Hwf as [|v l Hv Hwf IH]; intros res del Hle; simpl; [done|].
  unfold After. rewrite bool_decide_false by (specialize (Hle v ltac:(set_solver)); lia). simpl.
  assert (∀ w, w ∈ l → (ev_submitTime w ≤ t)%Z) as Hle' by set_solver.
  unfold latestLive. destruct l as [|w l]; [simpl; by destruct (ev_deleted v)|].
  rewrite last_cons_cons. destruct (last (w :: l)) as [z|] eqn:Hz.
  - specialize (IH). unfold latestLive in IH. rewrite Hz in IH. destruct (ev_deleted v); by apply IH.
  - by apply last_None in Hz.
Qed.

Lemma walkVersions_latest t l :
  Forall row_wf l → (∀ v, v ∈ l → (ev_submitTime v ≤ t)%Z) →
  (walkVersions t l None false).1 = latestLive l.
Proof. intros Hwf Hle. rewrite walkVersions_all by done. unfold latestLive. by destruct (last l). Qed.

Lemma aboveFloor_live c T tx :
  SIInv c → c_flight c = None → T ∈ active (tm (c_mem c)) → heap (c_mem c) !! T = Some tx →
  aboveFloor (SnapshotTime tx) c.
Proof.
  intros Hinv Hf HT Htx. destruct (inv_active _ Hinv T HT) as (tx' & Htx' & Hl & _). simplify_eq.
  split; [apply Hl|]. by rewrite Hf.
Qed.


(** C21. Repeatable reads.  Take any point of any interleaving at which no commit
    holds the factory's write lock, a live transaction and an entity it has not
    written.  At every later such point at which the transaction is still live and
    still has not written the entity, [Get] gives the same answer, whatever has
    committed in between. *)
Theorem repeatable_read c c' ctx T tx tx' tid eid :
  reachable c → c_flight c = None → rtc step c c' →
  T ∈ active (tm (c_mem c)) → heap (c_mem c) !! T = Some tx →
  T ∈ active (tm (c_mem c')) → heap (c_mem c') !! T = Some tx' →
  eid ∉ Deletes tx → Buffer tx !! eid = None → eid ∉ Deletes tx' → Buffer tx' !! eid = None →
  (Get tid (WithTransaction ctx T) eid (c_mem c')).1 = (Get tid (WithTransaction ctx T) eid (c_mem c)).1.
Proof.
  intros Hr Hf Hrtc HT Htx HT' Htx' Hd Hb Hd' Hb'. pose proof (SIInv_reachable _ Hr) as Hinv.
  pose proof (SIInv_rtc _ _ Hrtc Hinv) as Hinv'.
  rewrite (Get_untouched c' ctx T tx'), (Get_untouched c ctx T tx) by done.
  destruct (rtc_advances _ _ _ Hrtc (aboveFloor_live _ _ _ Hinv Hf HT Htx)) as (Hext & Hkeep & _).
  destruct (Hkeep T tx Htx) as (tx2 & Htx2 & Es). simplify_eq. rewrite Es.
  by rewrite (getSnapshotVersion_ext _ _ _ _ _ _ Hext (Z.le_refl _)).
Qed.

(** A transaction's snapshot is the committed state at its beginning: when no
    commit is in flight, what the new transaction reads of any entity is what a
    caller outside any transaction would have read at that moment. *)
Theorem begin_reads_latest ctx txID clock s h ctx' s' tid eid :
  reachable (mkConf s None h) → heap s !! txID = None → (0 < clock)%Z → ctx_tx ctx = None →
  Begin ctx txID clock s = (Ret (txID, ctx'), s') →
  (Get tid ctx' eid s').1 = (Get tid ctx eid s).1.
Proof.
  intros Hr Hfresh Hpos Hctx Hrun.
  pose proof (SIInv_reachable _ Hr) as Hinv.
  pose proof (SIInv_begin _ _ _ _ _ _ _ _ Hfresh Hpos Hrun Hinv) as Hinv'.
  destruct (Begin_run _ _ _ _ _ _ Hrun)
    as [(e & ? & _)|([= ->] & tid' & org & now & Hl & Hcl & ->)]; [done|].
  etrans; [eapply (Get_untouched _ ctx txID _ tid eid Hinv');
    [simpl; set_solver|by simpl; rewrite lookup_insert_eq|simpl; set_solver|done]|].
  simpl. rewrite getSnapshotVersion_walk, walkVersions_latest.
  - unfold Get. rewrite Hctx. mrun. by destruct (latestLive _).
  - apply (inv_rows _ Hinv).
  - intros v Hv. pose proof (inv_below _ Hinv _ _ _ Hv). simpl in *. lia.
Qed.

(** C22. A commit becomes visible all at once.  When a commit finishes, every other
    live transaction whose snapshot precedes the submit time sees of every entity
    exactly what it saw before; every one whose snapshot is at or after it sees of
    every entity the latest row, the commit's rows included. *)
Theorem commit_atomic_visibility ctx clock s f h s' T tx tid eid :
  reachable (mkConf s (Some f) h) →
  commitFinish ctx (fl_id f) clock (fl_tx f) (fl_cap f) (fl_computed f) (fl_submit f) s = (Ret tt, s') →
  T ∈ active (tm s') → heap s' !! T = Some tx →
  ((SnapshotTime tx < fl_submit f)%Z →
     getSnapshotVersion tid (fac s') eid (SnapshotTime tx) = getSnapshotVersion tid (fac s) eid (SnapshotTime tx)) ∧
  ((fl_submit f ≤ SnapshotTime tx)%Z →
     getSnapshotVersion tid (fac s') eid (SnapshotTime tx) =
       match latestLive (versionsOf (fac s') tid eid) with None => inl ErrNotFound | Some e => inr (copyEntity e) end).
Proof.
  intros Hr Hrun HT Htx. pose proof (SIInv_reachable _ Hr) as Hinv.
  destruct (commitFinish_run _ _ _ _ _ _ _ _ _ Hrun) as (f' & Hext & Ef & Eh & _).
  destruct (inv_flight _ Hinv f eq_refl) as (_ & _ & _ & _ & Hrows & _). simpl in *.
  destruct (rows_ext (fl_submit f) (fl_submit f) _ _ (inv_rows _ Hinv)
    (λ tid eid v Hv, Z.lt_le_incl _ _ (Hrows tid eid v Hv)) (Z.le_refl _) Hext) as [Hr' Hb'].
  rewrite Ef. split; intros Hlt.
  - apply (getSnapshotVersion_ext (SnapshotTime tx)); [|done].
    eapply rowsExt_weaken; [|exact Hext]. intros v. by apply stampedRow_after.
  - rewrite getSnapshotVersion_walk, walkVersions_latest; [done|apply Hr'|].
    intros v Hv. specialize (Hb' _ _ _ Hv). lia.
Qed.
End Isolation.

(** ** Witnesses *)


(** The reader still sees the first value after the overwrite committed. *)
Lemma repeatable_read_witness :
  let rd c := (Get "t" (WithTransaction (Sample.ctx "t") "R") "e1" (c_mem c)).1 in
  let c := confOf sampleReader in
  let c' := confOf (sampleReader ++ sampleOverwrite) in
  rd c' = rd c ∧ Data <$> match rd c' with Ret e => Some e | _ => None end = Some "a".
Proof.
  split; [|vm_compute; reflexivity].
  apply (@repeatable_read Sample.spi (confOf sampleReader) (confOf (sampleReader ++ sampleOverwrite))
    (Sample.ctx "t") "R" (sampleTx sampleReader "R") (sampleTx (sampleReader ++ sampleOverwrite) "R")
    "t" "e1"); [| |apply (acts_reachable (H:=Sample.spi) sampleOverwrite)|..]; try by_eval.
  apply (acts_reachable (H:=Sample.spi) sampleReader). by_eval.
Defined.

Lemma begin_reads_latest_witness :
  let s := c_mem (confOf sampleSetup) in
  let r := Begin (H:=Sample.spi) (Sample.ctx "t") "R" 30 s in
  (Get "t" (WithTransaction (Sample.ctx "t") "R") "e1" r.2).1 =
  (Get "t" (Sample.ctx "t") "e1" s).1.
Proof.
  apply (@begin_reads_latest Sample.spi (Sample.ctx "t") "R" 30 (c_mem (confOf sampleSetup))
    (c_hist (confOf sampleSetup))); try by_eval.
  apply (acts_reachable (H:=Sample.spi) sampleSetup). by_eval.
Defined.

Lemma commit_atomic_visibility_witness :
  getSnapshotVersion "t" (fac sampleFinished) "e1" 30 =
  getSnapshotVersion "t" (fac (c_mem (confOf sampleFlight))) "e1" 30.
Proof.
  apply (@commit_atomic_visibility Sample.spi (Sample.ctx "t") 50 (c_mem (confOf sampleFlight)) sampleFl
    (c_hist (confOf sampleFlight)) sampleFinished "R" (sampleTx sampleReader "R") "t" "e1"); try by_eval.
  apply (acts_reachable (H:=Sample.spi) sampleFlight). by_eval.
Defined.
