(* ===== verification/MemCommit.v ===== *)
(** * Memory plugin: what a commit does to the store

    The functional specification of [TransactionManager.Commit]: the rows it
    appends to every entity, independently of the order in which the runtime
    enumerates the transaction's maps; that a refused commit writes nothing. *)

From stdpp Require Import base gmap strings list fin_maps sorting.
From S2P Require Import Prelude Spi MemState MemTx MemEntity MemSched MemFrame MemSI MemIsolation.

(** ** The rows of one entity *)

(** The rows a list of staged values becomes. *)
Fixpoint rowsOf (tid txID : string) (t cd : Time) (staged : list Entity) (base : Z) (hasPrior : bool)
    : list entityVersion :=
  match staged with
  | [] => []
  | e :: rest => flushedRow tid txID t cd (base + 1) hasPrior e :: rowsOf tid txID t cd rest (base + 1) true
  end.

Definition baseVersion (versions : list entityVersion) : Z :=
  match lastLive (reverse versions) with Some e => m_Version (Meta e) | None => 0%Z end.

(** The values a transaction staged for an entity, oldest first; [None] when a
    cell is nil. *)
Definition stagedValues (cap : captured) (eid : string) (e : Entity) : option (list Entity) :=
  mapM id (slice_elems (default slice_nil (cap_superseded cap !! eid)) ++ [Some e]).

Definition deleteRow (at_ : WriteAttribution) (txID : string) (t : Time) (versions : list entityVersion)
    : entityVersion :=
  mkEV None (baseVersion versions + 1)%Z txID t true "DELETED"
    (p_ID (Attributed at_)) (p_Kind (Attributed at_)) (Executor at_).

Definition bufferRows (tid txID : string) (t : Time) (cap : captured) (eid : string) (e : Entity)
    (versions : list entityVersion) : list entityVersion :=
  rowsOf tid txID t (firstCreationDate versions) (default [] (stagedValues cap eid e))
    (baseVersion versions) (bool_decide (versions ≠ [])).

Section Commit.
Context `{SPI}.

Definition attributionFor (ctx : Ctx) (tx : TransactionState) (eid : string) : WriteAttribution :=
  match DeleteAttribution tx !! eid with Some a => a | None => attributionOf ctx end.

(** No staged cell is nil. *)
Definition stagedOk (cap : captured) (tx : TransactionState) : Prop :=
  ∀ eid e, Buffer tx !! eid = Some e → is_Some (stagedValues cap eid e).

(** The rows a commit of [tx] appends to entity [eid] of tenant [tid]. *)
Definition commitRows (ctx : Ctx) (txID : string) (tx : TransactionState) (cap : captured) (t : Time)
    (f : StoreFactory) (tid eid : string) : list entityVersion :=
  if decide (tid = tx_TenantID tx) then
    let versions := versionsOf f tid eid in
    match Buffer tx !! eid with
    | Some e => bufferRows tid txID t cap eid e versions
    | None => if decide (eid ∈ Deletes tx)
              then [deleteRow (attributionFor ctx tx eid) txID t versions] else []
    end
  else [].

(** ** One entity *)

(** Only the rows of one entity change, by appending. *)
Definition appends (tid eid : string) (rows : list entityVersion) (f f' : StoreFactory) : Prop :=
  ∀ tid' eid', versionsOf f' tid' eid' =
    versionsOf f tid' eid' ++ if decide (tid' = tid ∧ eid' = eid) then rows else [].

Lemma appends_refl tid eid f : appends tid eid [] f f.
Proof. intros tid' eid'. case_decide; by rewrite app_nil_r. Qed.

Lemma appends_cons tid eid v rows f f' :
  appends tid eid rows (setVersions tid eid (versionsOf f tid eid ++ [v]) f) f' →
  appends tid eid (v :: rows) f f'.
Proof.
  intros Ha tid' eid'. rewrite Ha, versionsOf_setVersions. case_decide as Hd; [|done].
  destruct Hd as [-> ->]. by rewrite <- app_assoc.
Qed.

Lemma flushRows_run tid eid txID t cd staged base hp s s' :
  flushRows tid eid txID t cd staged base hp s = (Ret tt, s') →
  ∃ es, mapM id staged = Some es ∧ tm s' = tm s ∧ heap s' = heap s ∧
    appends tid eid (rowsOf tid txID t cd es base hp) (fac s) (fac s').
Proof.
  revert base hp s. induction staged as [|[e|] staged IH]; intros base hp s; cbn [flushRows].
  - mrun. intros [= <-]. exists []. split_and!; [done..|]. apply appends_refl.
  - unfold appendVersion, mod_fac. mrun. intros (es & Hes & Ht & Hh & Ha)%IH.
    exists (e :: es). simpl. rewrite Hes. split_and!; [done..|]. by apply appends_cons.
  - done.
Qed.

Lemma flushEntity_run tid txID t cap comp eid e s s' :
  flushEntity tid txID t (cap_superseded cap) comp eid e s = (Ret tt, s') →
  is_Some (stagedValues cap eid e) ∧ tm s' = tm s ∧ heap s' = heap s ∧
  appends tid eid (bufferRows tid txID t cap eid e (versionsOf (fac s) tid eid)) (fac s) (fac s').
Proof.
  unfold flushEntity. mrun. intros (u & s1 & Hfl & Hrest)%bind_Ret. destruct u.
  destruct (flushRows_run _ _ _ _ _ _ _ _ _ _ Hfl) as (es & Hes & Ht & Hh & Ha).
  unfold mod_fac in Hrest. mrun_in Hrest. injection Hrest as <-.
  unfold bufferRows, stagedValues. rewrite Hes. simpl. split_and!; [by eauto|done..|].
  intros tid' eid'. simpl. rewrite versionsOf_insertClaims, versionsOf_releaseClaims, versionsOf_recordTxIndex.
  apply Ha.
Qed.

Lemma flushDelete_run ctx tid txID t tx eid s s' :
  flushDelete ctx tid txID t (DeleteAttribution tx) eid s = (Ret tt, s') →
  tm s' = tm s ∧ heap s' = heap s ∧
  appends tid eid [deleteRow (attributionFor ctx tx eid) txID t (versionsOf (fac s) tid eid)]
    (fac s) (fac s').
Proof.
  unfold flushDelete, appendVersion, mod_fac. mrun. intros [= <-]. split_and!; [done..|]. simpl.
  replace (mkEV _ _ _ _ _ _ _ _ _)
    with (deleteRow (attributionFor ctx tx eid) txID t (versionsOf (fac s) tid eid));
    [apply appends_cons, appends_refl|].
  unfold deleteRow, attributionFor, attributionOf, baseVersion.
  destruct (lastLive _), (DeleteAttribution tx !! eid), (AttributionFor ctx); done.
Qed.

(** ** The loops over the buffer and the delete set *)

(** A loop over distinct keys, each iteration updating its own key's view. *)
Lemma forM_view {A X} (tid : string) (V : Mem → string → string → X) (key : A → string) (g : A → MM unit)
    (upd : A → X → X) (l : list A) :
  (∀ a s s', a ∈ l → g a s = (Ret tt, s') → ∀ tid' eid', V s' tid' eid' =
     if decide (tid' = tid ∧ eid' = key a) then upd a (V s tid' eid') else V s tid' eid') →
  NoDup (key <$> l) →
  ∀ s s', forM l g s = (Ret tt, s') →
    (∀ a, a ∈ l → V s' tid (key a) = upd a (V s tid (key a))) ∧
    (∀ tid' eid', (tid' = tid → eid' ∉ key <$> l) → V s' tid' eid' = V s tid' eid').
Proof.
  intros Hg. induction l as [|a l IH]; intros Hnd s s'; simpl.
  { mrun. intros [= <-]. split; [|done]. intros a Ha. by apply elem_of_nil in Ha. }
  intros ([] & s1 & H1 & H2)%bind_Ret. apply NoDup_cons in Hnd as [Hna Hnd].
  pose proof (Hg a s s1 ltac:(set_solver) H1) as Ha1.
  destruct (IH ltac:(set_solver) Hnd s1 s' H2) as [Hin Hout]. split.
  - intros b [->|Hb]%elem_of_cons.
    + rewrite Hout by done. by rewrite Ha1, decide_True.
    + rewrite Hin by done. rewrite Ha1, decide_False; [done|].
      intros [_ Heq]. apply Hna. rewrite <- Heq. by apply list_elem_of_fmap_2.
  - intros tid' eid' Hne. rewrite Hout; [|set_solver].
    rewrite Ha1, decide_False; [done|]. intros [-> ->]. set_solver.
Qed.

Lemma forM_appends {A} (tid : string) (key : A → string) (g : A → MM unit)
    (rows : A → list entityVersion → list entityVersion) (l : list A) :
  (∀ a s s', a ∈ l → g a s = (Ret tt, s') →
     appends tid (key a) (rows a (versionsOf (fac s) tid (key a))) (fac s) (fac s')) →
  NoDup (key <$> l) →
  ∀ s s', forM l g s = (Ret tt, s') →
    (∀ a, a ∈ l → versionsOf (fac s') tid (key a) =
       versionsOf (fac s) tid (key a) ++ rows a (versionsOf (fac s) tid (key a))) ∧
    (∀ tid' eid', (tid' = tid → eid' ∉ key <$> l) → versionsOf (fac s') tid' eid' = versionsOf (fac s) tid' eid').
Proof.
  intros Hg. apply (forM_view tid (λ s, versionsOf (fac s)) key g (λ a vs, vs ++ rows a vs)).
  intros a s s' Ha Hrun tid' eid'. rewrite (Hg a s s' Ha Hrun). case_decide as Hd; [|by rewrite app_nil_r].
  by destruct Hd as [-> ->].
Qed.

Lemma forM_mod_fac {A} (g : A → StoreFactory → StoreFactory) (l : list A) s :
  forM l (λ x, mod_fac (g x)) s = (Ret tt, mem_set_fac (λ f, foldl (λ f x, g x f) f l) s).
Proof.
  revert s. induction l as [|x l IH]; intros s; simpl; [by destruct s|].
  etrans; [apply (IH (mem_set_fac (g x) s))|done].
Qed.

Lemma versionsOf_foldl {A} (g : A → StoreFactory → StoreFactory) l f tid eid :
  (∀ x f', versionsOf (g x f') tid eid = versionsOf f' tid eid) →
  versionsOf (foldl (λ f x, g x f) f l) tid eid = versionsOf f tid eid.
Proof. intros Hg. revert f. induction l as [|x l IH]; intros f; simpl; [done|]. by rewrite IH, Hg. Qed.

(** The flush, for any enumeration of the buffer and of the delete set. *)
Lemma commitFlush_run ctx txID t tx cap comp rel buf dels s s' :
  buf ≡ₚ map_to_list (Buffer tx) → dels ≡ₚ elements (Deletes tx) → dom (Buffer tx) ## Deletes tx →
  commitFlush ctx (tx_TenantID tx) txID t tx cap comp rel buf dels s = (Ret tt, s') →
  ∀ tid eid, versionsOf (fac s') tid eid =
    versionsOf (fac s) tid eid ++ commitRows ctx txID tx cap t (fac s) tid eid.
Proof.
  intros Hbuf Hdels Hdisj. unfold commitFlush. rewrite run_bind, forM_mod_fac.
  set (f0 := foldl (λ f e, releaseClaims (tx_TenantID tx) e f) (fac s) rel).
  assert (∀ tid eid, versionsOf f0 tid eid = versionsOf (fac s) tid eid) as Hf0.
  { intros tid eid. by apply (versionsOf_foldl (λ e, releaseClaims (tx_TenantID tx) e)). }
  change (mem_set_fac _ s) with (mkMem f0 (tm s) (heap s)). clearbody f0.
  intros ([] & s1 & H1 & H2)%bind_Ret.
  apply (forM_appends (tx_TenantID tx) fst _
    (λ p, bufferRows (tx_TenantID tx) txID t cap p.1 p.2)) in H1 as (Hin1 & Hout1); cycle 1.
  { intros [eid e] sa sb _ Hrun. by apply flushEntity_run in Hrun as (_ & _ & _ & ?). }
  { rewrite Hbuf. apply NoDup_fst_map_to_list. }
  apply bind_Ret in H2 as ([] & s2 & H2 & H3).
  apply (forM_appends (tx_TenantID tx) id _
    (λ eid vs, [deleteRow (attributionFor ctx tx eid) txID t vs])) in H2 as (Hin2 & Hout2); cycle 1.
  { intros eid sa sb _ Hrun. by apply flushDelete_run in Hrun as (_ & _ & ?). }
  { rewrite list_fmap_id, Hdels. apply NoDup_elements. }
  rewrite forM_mod_fac in H3. injection H3 as <-. simpl in *.
  intros tid eid. rewrite (versionsOf_foldl (λ op, fac_set_scheduledTasks (applyScheduledTaskOp op))) by done.
  rewrite list_fmap_id in Hout2. unfold commitRows.
  assert (∀ k, k ∈ buf.*1 ↔ k ∈ dom (Buffer tx)) as Hkeys.
  { intros k. rewrite Hbuf, list_elem_of_fmap, elem_of_dom. split.
    - intros ([k' e] & -> & Hm%elem_of_map_to_list). by eauto.
    - intros [e He]. exists (k, e). by rewrite elem_of_map_to_list. }
  case_decide as Ht; [subst tid|rewrite app_nil_r, Hout2, Hout1 by done; apply Hf0].
  destruct (Buffer tx !! eid) as [e|] eqn:He.
  - assert (eid ∈ dom (Buffer tx)) by (apply elem_of_dom; eauto).
    rewrite Hout2 by (intros _; rewrite Hdels, elem_of_elements; set_solver).
    pose proof (Hin1 (eid, e)) as Hi; simpl in Hi.
    rewrite Hi, Hf0; [done|]. by rewrite Hbuf, elem_of_map_to_list.
  - assert (eid ∉ buf.*1) as Hnb by (rewrite Hkeys; by apply not_elem_of_dom).
    case_decide as Hde.
    + pose proof (Hin2 eid) as Hi; simpl in Hi.
      rewrite Hi by (by rewrite Hdels, elem_of_elements). by rewrite Hout1, Hf0.
    + rewrite Hout2 by (intros _; by rewrite Hdels, elem_of_elements).
      by rewrite Hout1, Hf0, app_nil_r.
Qed.

(** ** Commit *)

(** A flush never reports an error: it succeeds or panics. *)
Definition noErr {A} (m : MM A) : Prop := ∀ s e s', m s ≠ (Err e, s').

Lemma noErr_bind {A B} (m : MM A) (f : A → MM B) :
  noErr m → (∀ a, noErr (f a)) → noErr (m ≫= f).
Proof.
  intros Hm Hf s e s'. rewrite run_bind. destruct (m s) as [[a|e'|w] s1] eqn:Hms; [apply Hf| |done].
  by apply Hm in Hms.
Qed.
Lemma noErr_forM {A} (l : list A) (f : A → MM unit) : (∀ a, noErr (f a)) → noErr (forM l f).
Proof. intros Hf. induction l; simpl; [by intros s e s'|]. by apply noErr_bind. Qed.
Lemma noErr_flushRows tid eid txID t cd staged base hp : noErr (flushRows tid eid txID t cd staged base hp).
Proof.
  revert base hp. induction staged as [|[e|] staged IH]; intros base hp; cbn [flushRows]; try (by intros ? ? ?).
  apply noErr_bind; [by intros ? ? ?|auto].
Qed.
Lemma noErr_commitFinish ctx txID clock tx cap comp t : noErr (commitFinish ctx txID clock tx cap comp t).
Proof.
  unfold commitFinish, commitFlush. repeat (apply noErr_bind; [|intros ?]); try (by intros ? ? ?).
  - by apply noErr_forM; intros ? ? ? ?.
  - apply noErr_forM. intros [eid e]. unfold flushEntity. apply noErr_bind; [by intros ? ? ?|intros f].
    apply noErr_bind; [apply noErr_flushRows|by intros ? ? ? ?].
  - by apply noErr_forM; intros ? ? ? ?.
  - by apply noErr_forM; intros ? ? ? ?.
Qed.

(** The run of a whole commit. *)
Lemma Commit_run ctx txID clock1 clock2 s r s' :
  Commit ctx txID clock1 clock2 s = (r, s') →
  (∃ e, r = Err e ∧ (s' = s ∨ s' = closeTx txID (mem_set_tm (forgetTx txID) s))) ∨
  (∃ w, r = Panic w) ∨
  (r = Ret tt ∧ ∃ tx comp t s2, heap s !! txID = Some tx ∧ (lastSubmitTime (tm s) < t)%Z ∧ (clock1 ≤ t)%Z ∧
     validateClaims (fac s) (tx_TenantID tx) tx (cap_keys (capturedOf (tm s) txID))
       (sortedIDs (elements (dom (Buffer tx)))) ∅ ∅ = inr comp ∧
     commitFinish ctx txID clock2 tx (capturedOf (tm s) txID) comp t
       (mem_set_tm (tm_set_lastSubmitTime t ∘ tm_set_committing (union {[txID]})) s) = (Ret tt, s2) ∧
     s' = closeTx txID s2).
Proof.
  unfold Commit. rewrite run_bind. destruct (commitPrepare ctx txID s) as [rp s1] eqn:Hp.
  destruct (commitPrepare_run _ _ _ _ _ Hp) as [[Hne ->]|(-> & _ & _ & ->)].
  { destruct rp as [[]|e|w]; [done|intros [= <- <-]..]; eauto 6. }
  unfold commitLocked, finally. rewrite run_bind.
  destruct (commitStamp txID clock1 _) as [rs s2] eqn:Hs.
  destruct (commitStamp_run _ _ _ _ _ Hs)
    as [(tx & comp & t & -> & Htx & Hv & Hlt & Hcl & -> & _)|[(e & -> & ->)|(w & -> & ->)]].
  - destruct (commitFinish _ _ _ _ _ _ _ _) as [rf s3] eqn:Hf. intros [= <- <-].
    destruct rf as [[]|e|w].
    + right. right. split; [done|]. exists tx, comp, t, s3. by split_and!.
    + by apply noErr_commitFinish in Hf.
    + right. left. eauto.
  - intros [= <- <-]. left. exists e. split; [done|]. right.
    unfold closeTx, mem_set_tm, mem_set_heap, forgetTx; simpl. do 2 f_equal. set_solver.
  - intros [= <- <-]. right. left. eauto.
Qed.

(** ** A flush of non-nil cells goes through *)

Definition total {A} (m : MM A) : Prop := ∀ s, ∃ a s', m s = (Ret a, s').

Lemma total_bind {A B} (m : MM A) (f : A → MM B) : total m → (∀ a, total (f a)) → total (m ≫= f).
Proof. intros Hm Hf s. rewrite run_bind. destruct (Hm s) as (a & s1 & ->). apply Hf. Qed.
Lemma total_forM {A} (l : list A) (f : A → MM unit) : (∀ a, a ∈ l → total (f a)) → total (forM l f).
Proof.
  intros Hf. induction l as [|x l IH]; simpl; [intros s; do 2 eexists; done|].
  apply total_bind; [apply Hf; set_solver|]. intros _. apply IH. set_solver.
Qed.
Lemma total_pure {A} (g : Mem → A * Mem) : total (λ s, (Ret (g s).1, (g s).2)).
Proof. intros s. eauto. Qed.
Lemma total_modify (g : Mem → Mem) : total (modify g).
Proof. intros s. eauto. Qed.

Lemma total_flushRows tid eid txID t cd staged base hp es :
  mapM id staged = Some es → total (flushRows tid eid txID t cd staged base hp).
Proof.
  revert base hp es. induction staged as [|[e|] staged IH]; intros base hp es Hes; cbn [flushRows].
  - intros s. eauto.
  - apply total_bind; [apply total_modify|]. intros _. simpl in Hes.
    destruct (mapM id staged) as [es'|] eqn:Hm; [|done]. by eapply IH.
  - done.
Qed.

Lemma total_commitFinish ctx txID clock tx cap comp t :
  stagedOk cap tx → total (commitFinish ctx txID clock tx cap comp t).
Proof.
  intros Hok. unfold commitFinish, commitFlush.
  repeat (apply total_bind; [|intros _]); try (apply total_forM; intros ? _; apply total_modify).
  - apply total_forM. intros [eid e] Hin%elem_of_map_to_list. destruct (Hok _ _ Hin) as [es Hes].
    unfold flushEntity. apply total_bind; [intros s; eauto|intros f].
    repeat (apply total_bind; [|intros _]); try apply total_modify.
    by eapply total_flushRows.
  - apply total_forM. intros eid _. intros s. unfold flushDelete, appendVersion, mod_fac. mrun. eauto.
  - intros s. unfold commitRecord. mrun. eauto.
Qed.

(** C23. What a successful commit does.  There is one submit time, later than any
    stamp given before, such that every entity's history is extended by exactly
    the rows the transaction staged for it (the superseded values and the final
    one, consecutively numbered, or the tombstone of a delete) and no other history
    changes; the transaction is closed, no longer active, and the manager answers
    that submit time for it. *)
Theorem commit_effects ctx txID clock1 clock2 s s' tx :
  Commit ctx txID clock1 clock2 s = (Ret tt, s') →
  heap s !! txID = Some tx → dom (Buffer tx) ## Deletes tx → (clock2 - submitTimeTTL ≤ clock1)%Z →
  ∃ t, (lastSubmitTime (tm s) < t)%Z ∧
    (∀ tid eid, versionsOf (fac s') tid eid =
       versionsOf (fac s) tid eid ++ commitRows ctx txID tx (capturedOf (tm s) txID) t (fac s) tid eid) ∧
    (txID ∉ active (tm s')) ∧ Closed <$> heap s' !! txID = Some true ∧
    ste_submitTime <$> submitTimes (tm s') !! txID = Some t.
Proof.
  intros Hrun Htx Hdisj Hclk.
  destruct (Commit_run _ _ _ _ _ _ _ Hrun)
    as [(e & ? & _)|[(w & ?)|(_ & tx' & comp & t & s2 & Htx' & Hlt & Hcl & _ & Hfin & ->)]]; [done..|].
  simplify_eq. exists t. split; [done|].
  destruct (commitFinish_run _ _ _ _ _ _ _ _ _ Hfin) as (_ & _ & _ & Eh & _).
  unfold commitFinish in Hfin. apply bind_Ret in Hfin as ([] & s1 & Hfl & Hrec).
  pose proof (commitFlush_run _ _ _ _ _ _ _ _ _ _ _ (Permutation_refl _) (Permutation_refl _) Hdisj Hfl) as Hrows.
  destruct (commitRecord_run (tx_TenantID tx) txID t clock2 (WriteSet tx) s1) as (log' & Hrec' & _).
  rewrite Hrec' in Hrec. injection Hrec as <-. simpl in *. split_and!; [done|set_solver| |].
  - by rewrite Eh, lookup_alter_eq, Htx.
  - unfold evictSubmitTimes.
    rewrite (map_lookup_filter_Some_2 _ _ _ (mkSTE t (tx_TenantID tx))); [done| |simpl; lia].
    by rewrite lookup_insert_eq.
Qed.

(** C24. A refused commit writes nothing: when [Commit] returns an error, every
    history, index and claim of the store, the commit log and the clock floor are
    as they were. *)
Theorem commit_error_no_effect ctx txID clock1 clock2 s e s' :
  Commit ctx txID clock1 clock2 s = (Err e, s') →
  fac s' = fac s ∧ committedLog (tm s') = committedLog (tm s) ∧
  lastSubmitTime (tm s') = lastSubmitTime (tm s) ∧ commitSeq (tm s') = commitSeq (tm s) ∧
  ∀ q, q ≠ txID → heap s' !! q = heap s !! q.
Proof.
  intros Hrun. destruct (Commit_run _ _ _ _ _ _ _ Hrun)
    as [(e' & _ & [->| ->])|[(w & ?)|(? & _)]]; [done| |done..].
  simpl. split_and!; [done..|]. intros q Hq. by rewrite lookup_alter_ne.
Qed.

(** When a commit succeeds.  For an active transaction of the caller's tenant
    whose commit has not started, [Commit] returns a conflict if some commit logged
    above its baseline wrote what it read or wrote, otherwise the first unique-key
    error of its buffered entities in id order, and otherwise it succeeds: it
    neither blocks nor panics. *)
Theorem commit_decides ctx txID clock1 clock2 s tx :
  heap s !! txID = Some tx → txID ∈ active (tm s) → txID ∉ committing (tm s) →
  tenantMismatch ctx (tx_TenantID tx) = false → stagedOk (capturedOf (tm s) txID) tx →
  (Commit ctx txID clock1 clock2 s).1 =
    if existsb (conflictsWith (default 0%Z (txSnapshotSeq (tm s) !! txID)) tx) (committedLog (tm s))
    then Err ErrConflict
    else match validateClaims (fac s) (tx_TenantID tx) tx (default ∅ (txUniqueKeys (tm s) !! txID))
                 (sortedIDs (elements (dom (Buffer tx)))) ∅ ∅ with
         | inl e => Err e
         | inr _ => Ret tt
         end.
Proof.
  intros Htx Hact Hcom Hten Hok. unfold Commit, commitPrepare, commitLocked, commitStamp, commitCheck, finally,
    deref, mod_tm. mrun. rewrite decide_False by (intros ?; done). simpl. mrun.
  rewrite Htx. mrun. rewrite Hten, decide_False by done. mrun. simpl. rewrite Htx. mrun.
  destruct (existsb _ _); mrun; [done|].
  rewrite run_bind. mrun. simpl.
  destruct (validateClaims _ _ _ _ _ _ _) as [e|comp]; unfold abortClaim, mod_tm; mrun; [done|].
  unfold nextSubmitTime, mod_tm. mrun. simpl.
  match goal with |- context [commitFinish ?a ?b ?c ?d ?e ?f ?g ?st] =>
    destruct (total_commitFinish a b c d e f g Hok st) as ([] & s2 & ->) end. done.
Qed.
End Commit.

(** ** Witnesses *)

(** [e1] committed; then [B] saves it twice, creates [e2] and is ready to commit. *)
Definition sampleBusy : list action :=
  sampleSetup ++ [ABegin (Sample.ctx "t") "B" 30; sampleSave "B" "e1" "b1"; sampleSave "B" "e1" "b2";
                  sampleSave "B" "e2" "n"].
(** A losing transaction. *)
Definition sampleLoser : list action :=
  [ABegin (Sample.ctx "t") "L" 5; sampleSave "L" "e1" "l"] ++ sampleSetup.

Lemma commit_effects_witness :
  let s := c_mem (confOf sampleBusy) in
  let s' := (Commit (H:=Sample.spi) (Sample.ctx "t") "B" 40 40 s).2 in
  ∃ t, (lastSubmitTime (tm s) < t)%Z ∧
    (∀ tid eid, versionsOf (fac s') tid eid = versionsOf (fac s) tid eid ++
       commitRows (H:=Sample.spi) (Sample.ctx "t") "B" (sampleTx sampleBusy "B") (capturedOf (tm s) "B") t
         (fac s) tid eid) ∧
    ("B" ∉ active (tm s')) ∧ Closed <$> heap s' !! "B" = Some true ∧
    ste_submitTime <$> submitTimes (tm s') !! "B" = Some t.
Proof.
  apply (@commit_effects Sample.spi (Sample.ctx "t") "B" 40 40 (c_mem (confOf sampleBusy)) _
    (sampleTx sampleBusy "B")); by_eval.
Defined.

Lemma commit_error_no_effect_witness :
  let s := c_mem (confOf sampleLoser) in
  let s' := (Commit (H:=Sample.spi) (Sample.ctx "t") "L" 40 40 s).2 in
  fac s' = fac s ∧ committedLog (tm s') = committedLog (tm s) ∧
  lastSubmitTime (tm s') = lastSubmitTime (tm s) ∧ commitSeq (tm s') = commitSeq (tm s) ∧
  ∀ q, q ≠ "L" → heap s' !! q = heap s !! q.
Proof.
  apply (@commit_error_no_effect Sample.spi (Sample.ctx "t") "L" 40 40 (c_mem (confOf sampleLoser)) ErrConflict).
  by_eval.
Defined.

Lemma commit_decides_witness :
  (Commit (H:=Sample.spi) (Sample.ctx "t") "L" 40 40 (c_mem (confOf sampleLoser))).1 = Err ErrConflict.
Proof.
  etrans; [apply (@commit_decides Sample.spi (Sample.ctx "t") "L" 40 40 (c_mem (confOf sampleLoser))
    (sampleTx sampleLoser "L")); by_eval|by_eval].
Defined.
