(* ===== verification/MemWf.v ===== *)
(** * Memory plugin: well-formed transactions

    The invariant of a transaction's private state (what is buffered is not also
    staged for deletion, everything written is in the write set, every staged
    delete has its attribution) holds in every reachable configuration; a
    transaction reads its own writes and nobody else does. *)

From stdpp Require Import base gmap strings list fin_maps sorting.
From S2P Require Import Prelude Spi MemState MemTx MemEntity MemSched MemFrame MemSI MemIsolation.

(** ** The invariant *)

(** The private state of transaction [T]: buffer, write set, delete set and
    delete attributions. *)
Record stagedWf (T : string) (buffer : gmap string Entity) (writes deletes : gset string)
    (attribution : gmap string WriteAttribution) : Prop := mkStagedWf {
  wf_disjoint : dom buffer ## deletes;
  wf_writes : dom buffer ∪ deletes ⊆ writes;
  wf_attribution : dom attribution = deletes;
  wf_buffer : ∀ eid e, buffer !! eid = Some e → m_ID (Meta e) = eid ∧ m_TransactionID (Meta e) = T }.

Definition txWf (tx : TransactionState) : Prop :=
  stagedWf (tx_ID tx) (Buffer tx) (WriteSet tx) (Deletes tx) (DeleteAttribution tx).
Definition snapWf (T : string) (sp : savepointSnapshot) : Prop :=
  stagedWf T (sp_buffer sp) (sp_writeSet sp) (sp_deletes sp) (sp_deleteAttribution sp).

Record memWf (s : Mem) : Prop := mkMemWf {
  wf_heap : ∀ T tx, heap s !! T = Some tx → tx_ID tx = T ∧ txWf tx;
  wf_savepoints : ∀ T sps sp snap,
    savepoints (tm s) !! T = Some sps → sps !! sp = Some snap → snapWf T snap }.

Definition wfRel (s s' : Mem) : Prop := memWf s → memWf s'.
#[export] Instance wfRel_preorder : PreOrder wfRel.
Proof. split; repeat intro; unfold wfRel in *; auto. Qed.

(** ** Updates that keep it *)

Lemma stagedWf_save T b w d a id e :
  stagedWf T b w d a → m_ID (Meta e) = id → m_TransactionID (Meta e) = T →
  stagedWf T (<[id := e]> b) ({[id]} ∪ w) (d ∖ {[id]}) (delete id a).
Proof.
  intros [H1 H2 H3 H4] Hid Htx. split; [rewrite dom_insert; set_solver..|set_solver|].
  intros eid e' [[-> ->]|[? ?]]%lookup_insert_Some; [done|eauto].
Qed.

Lemma stagedWf_cas T b w d a id e :
  stagedWf T b w d a → id ∉ d → m_ID (Meta e) = id → m_TransactionID (Meta e) = T →
  stagedWf T (<[id := e]> b) ({[id]} ∪ w) d a.
Proof.
  intros [H1 H2 H3 H4] Hd Hid Htx. split; [rewrite dom_insert; set_solver..|done|].
  intros eid e' [[-> ->]|[? ?]]%lookup_insert_Some; [done|eauto].
Qed.

Lemma txWf_stageDelete at_ id t : txWf t → txWf (stageDelete at_ id t).
Proof.
  intros [H1 H2 H3 H4]. split; simpl; [set_solver..|rewrite dom_insert_L; set_solver|].
  intros eid e [_ ?]%lookup_delete_Some. eauto.
Qed.

Lemma wfRel_mod_tx p f :
  (∀ t, txWf t → txWf (f t)) → (∀ t, tx_ID (f t) = tx_ID t) → stable wfRel (mod_tx p f).
Proof.
  intros Hf Hid. apply stable_modify. intros s [Hh Hs]. split; simpl; [|done].
  intros T tx. destruct (decide (T = p)) as [->|].
  - rewrite lookup_alter_eq. intros (t & Ht & ->)%fmap_Some. destruct (Hh _ _ Ht).
    rewrite Hid. auto.
  - rewrite lookup_alter_ne by done. apply Hh.
Qed.

Lemma wfRel_mod_tm f : (∀ m, savepoints (f m) = savepoints m) → stable wfRel (mod_tm f).
Proof. intros Hf. apply stable_modify. intros s [Hh Hs]. split; simpl; [done|]. by rewrite Hf. Qed.

#[export] Hint Extern 2 (stable wfRel (mod_tx _ (tx_set_ReadSet _))) =>
  apply wfRel_mod_tx; [intros ? []; by split|done] : stable.
#[export] Hint Extern 2 (stable wfRel (mod_tx _ (stageDelete _ _))) =>
  apply wfRel_mod_tx; [intros ?; apply txWf_stageDelete|done] : stable.
#[export] Hint Extern 2 (stable wfRel (mod_tm _)) => apply wfRel_mod_tm; done : stable.

Section Wf.
Context `{SPI}.

Lemma wfRel_openTx p : stable wfRel (openTx p).
Proof. unfold openTx, deref. solve_stable. Qed.
Lemma wfRel_deref p : stable wfRel (deref p).
Proof. unfold deref. solve_stable. Qed.
Lemma wfRel_stageSuperseded txID eid prior : stable wfRel (stageSuperseded txID eid prior).
Proof. unfold stageSuperseded. solve_stable. Qed.
Lemma wfRel_stageScheduledTaskOp txID op : stable wfRel (stageScheduledTaskOp txID op).
Proof. unfold stageScheduledTaskOp. solve_stable. Qed.
End Wf.
#[export] Hint Resolve wfRel_stageScheduledTaskOp wfRel_openTx wfRel_deref wfRel_stageSuperseded : stable.

Section Ops.
Context `{SPI}.

(** A buffered write, its prior delete unstaged or known not to exist. *)
Lemma wfRel_save p prior e : stable wfRel
  (bufferWrite p p prior e;; mod_tx p (unstageDelete (m_ID (Meta e)))).
Proof.
  intros s Hwf. unfold bufferWrite. mrun.
  rewrite run_bind. pose proof (wfRel_stageSuperseded p (m_ID (Meta e)) prior s Hwf) as Hwf1.
  destruct (stageSuperseded p (m_ID (Meta e)) prior s) as [[[]|er|w] s1]; [|done..].
  unfold mod_tx. mrun. destruct Hwf1 as [Hh Hs]. split; simpl; [|done].
  intros T tx. rewrite alter_alter. destruct (decide (T = p)) as [->|].
  - rewrite lookup_alter_eq. intros (t & Ht & ->)%fmap_Some. destruct (Hh _ _ Ht) as [Hid Ht'].
    split; [done|]. unfold txWf in *; simpl. rewrite Hid in *. by apply stagedWf_save.
  - rewrite lookup_alter_ne by done. apply Hh.
Qed.

Lemma wfRel_cas p prior e s tx :
  heap s !! p = Some tx → m_ID (Meta e) ∉ Deletes tx → memWf s → memWf (bufferWrite p p prior e s).2.
Proof.
  intros Htx Hd Hwf. unfold bufferWrite.
  rewrite run_bind. pose proof (wfRel_stageSuperseded p (m_ID (Meta e)) prior s Hwf) as Hwf1.
  assert (heap (stageSuperseded p (m_ID (Meta e)) prior s).2 = heap s) as Hheap by (by destruct prior).
  destruct (stageSuperseded p (m_ID (Meta e)) prior s) as [[[]|er|w] s1]; [|done..].
  simpl in *. destruct Hwf1 as [Hh Hs]. split; simpl; [|done].
  intros T tx'. destruct (decide (T = p)) as [->|].
  - rewrite lookup_alter_eq. intros (t & Ht & ->)%fmap_Some. destruct (Hh _ _ Ht) as [Hid Ht'].
    rewrite Hheap in Ht. simplify_eq. split; [done|]. unfold txWf in *; simpl. by apply stagedWf_cas.
  - rewrite lookup_alter_ne by done. apply Hh.
Qed.

Lemma wf_Save tid ctx p e clock : stable wfRel (Save tid (WithTransaction ctx p) e clock).
Proof.
  intros s Hwf. unfold Save; cbn [ctx_tx WithTransaction]. open_tx p s tx Htx.
  destruct (wf_heap _ Hwf _ _ Htx) as [-> _].
  assert (stable wfRel ((bufferWrite p p (Buffer tx !! m_ID (Meta e)) e;;
    mod_tx p (unstageDelete (m_ID (Meta e))));;
    (recordUniqueKeys p (m_ID (Meta e)) (ctx_uniqueKeys (WithTransaction ctx p));; mret 0%Z))) as Hst.
  { apply stable_bind; [apply _|apply wfRel_save|intros _]. unfold recordUniqueKeys. solve_stable. }
  specialize (Hst s Hwf). by rewrite bind_bind in Hst.
Qed.

Lemma wf_CompareAndSave tid ctx p e x clock :
  stable wfRel (CompareAndSave tid (WithTransaction ctx p) e x clock).
Proof.
  intros s Hwf. unfold CompareAndSave; cbn [ctx_tx WithTransaction]. case_decide; [done|].
  open_tx p s tx Htx. destruct (wf_heap _ Hwf _ _ Htx) as [-> _]. case_decide as Hd; [done|].
  assert (∀ prior, memWf ((bufferWrite p p prior e;;
    (recordUniqueKeys p (m_ID (Meta e)) (ctx_uniqueKeys (WithTransaction ctx p));; mret 0%Z)) s).2) as Hgo.
  { intros prior. rewrite run_bind. pose proof (wfRel_cas p prior e s tx Htx Hd Hwf) as Hw.
    destruct (bufferWrite p p prior e s) as [[[]|er|w] s1]; [|done..].
    assert (stable wfRel (recordUniqueKeys p (m_ID (Meta e)) (ctx_uniqueKeys (WithTransaction ctx p));;
      mret 0%Z)) as Hst by (unfold recordUniqueKeys; solve_stable). by apply Hst. }
  destruct (Buffer tx !! m_ID (Meta e)); mrun; case_decide; try done; apply Hgo.
Qed.

Lemma wf_Savepoint ctx p sp : stable wfRel (Savepoint ctx p sp).
Proof.
  intros s Hwf. unfold Savepoint, deref, mod_tm. mrun. case_decide; [done|]. mrun.
  destruct (heap s !! p) as [tx|] eqn:Htx; mrun; [|done].
  repeat case_match; try done. mrun. destruct (wf_heap _ Hwf _ _ Htx) as [Hid [W1 W2 W3 W4]].
  destruct Hwf as [Hh Hs]. split; simpl; [done|].
  intros T sps sp' snap [[<- <-]|[? ?]]%lookup_insert_Some Hsp; [|by eapply Hs].
  apply lookup_insert_Some in Hsp as [[<- <-]|[? Hsp]].
  - rewrite Hid in *. split; simpl; [rewrite dom_fmap; set_solver..|done|].
    intros eid e (e' & <- & He')%lookup_fmap_Some. by destruct (W4 eid e' He').
  - destruct (savepoints (tm s) !! p) eqn:Hsps; simpl in Hsp; [by eapply Hs|done].
Qed.

(** Restoring a recorded savepoint, whatever happens to the staging maps. *)
Lemma memWf_restore p sp sps snap s m' :
  memWf s → savepoints (tm s) !! p = Some sps → sps !! sp = Some snap →
  savepoints m' = savepoints (tm s) ∨ savepoints m' = <[p := delete sp sps]> (savepoints (tm s)) →
  memWf (mkMem (fac s) m' (alter (λ t,
            tx_set_DeleteAttribution (λ _, sp_deleteAttribution snap)
              (tx_set_Deletes (λ _, sp_deletes snap)
                (tx_set_WriteSet (λ _, sp_writeSet snap)
                  (tx_set_ReadSet (λ _, sp_readSet snap)
                    (tx_set_Buffer (λ _, sp_buffer snap) t))))) p (heap s))).
Proof.
  intros [Hh Hs] Hsps Hsp Hm'. split; simpl.
  - intros T tx. destruct (decide (T = p)) as [->|].
    + rewrite lookup_alter_eq. intros (t & Ht & ->)%fmap_Some. destruct (Hh _ _ Ht) as [Hid _].
      split; [done|]. unfold txWf; simpl. rewrite Hid. by apply (Hs p sps sp).
    + rewrite lookup_alter_ne by done. apply Hh.
  - destruct Hm' as [-> | ->]; [done|].
    intros T sps' sp' snap' [[<- <-]|[? ?]]%lookup_insert_Some Hl; [|by eapply Hs].
    apply lookup_delete_Some in Hl as [_ ?]. by eapply Hs.
Qed.

Lemma wf_RollbackToSavepoint ctx p sp : stable wfRel (RollbackToSavepoint ctx p sp).
Proof.
  intros s Hwf. unfold RollbackToSavepoint, deref, mod_tx, mod_tm. mrun. case_decide; [done|]. mrun.
  destruct (heap s !! p) as [tx|]; mrun; [|done].
  destruct (tenantMismatch _ _); [done|]. destruct (RolledBack tx); [done|]. destruct (Closed tx); [done|].
  destruct (savepoints (tm s) !! p) as [sps|] eqn:Hsps; [|done].
  destruct (sps !! sp) as [snap|] eqn:Hsp; [|done].
  mrun. case_decide; mrun; (destruct (supersededSaves (tm s) !! p) as [cur|]; mrun;
    [destruct (truncateSuperseded _ cur); mrun|]);
    refine (memWf_restore p sp sps snap s _ Hwf Hsps Hsp _); auto.
Qed.

Lemma wf_ReleaseSavepoint ctx p sp : stable wfRel (ReleaseSavepoint ctx p sp).
Proof.
  intros s Hwf. unfold ReleaseSavepoint, deref, mod_tm. mrun. case_decide; [done|]. mrun.
  destruct (heap s !! p) as [tx|]; mrun; [|done]. destruct (tenantMismatch _ _); [done|].
  destruct (savepoints (tm s) !! p) as [sps|] eqn:Hsps; [|done]. case_decide; [done|].
  mrun. destruct Hwf as [Hh Hs]. split; simpl; [done|].
  intros T sps' sp' snap' [[<- <-]|[? ?]]%lookup_insert_Some Hl; [|by eapply Hs].
  apply lookup_delete_Some in Hl as [_ ?]. by eapply Hs.
Qed.

Lemma wf_txop ctx p op : stable wfRel (runTxop ctx p op).
Proof.
  destruct op; unfold runTxop, ignore; (apply stable_bind; [apply _| |intros; stable_leaf]);
    auto using wf_Save, wf_CompareAndSave, wf_Savepoint, wf_RollbackToSavepoint, wf_ReleaseSavepoint;
    unfold Get, GetAsAt, Exists, Delete, DeleteAll, Count, CountByState, GetPage, SchedStore.Upsert,
      SchedStore.DeleteTask, SchedStore.ReconcileForEntity, SchedStore.stage;
    cbn [ctx_tx WithTransaction]; solve_stable.
Qed.

(** ** Reachable configurations *)

Lemma memWf_shrink s s' :
  memWf s → savepoints (tm s') ⊆ savepoints (tm s) →
  (∀ T tx', heap s' !! T = Some tx' → ∃ tx, heap s !! T = Some tx ∧ tx_ID tx' = tx_ID tx ∧
     Buffer tx' = Buffer tx ∧ WriteSet tx' = WriteSet tx ∧ Deletes tx' = Deletes tx ∧
     DeleteAttribution tx' = DeleteAttribution tx) → memWf s'.
Proof.
  intros [Hh Hs] Hsub Hkeep. split.
  - intros T tx' Htx'. destruct (Hkeep T tx' Htx') as (tx & Htx & E1 & E2 & E3 & E4 & E5).
    unfold txWf. rewrite E1, E2, E3, E4, E5. by apply Hh.
  - intros T sps sp snap Hl. apply Hs. by eapply lookup_weaken.
Qed.

Lemma memWf_alter s g p (m' : TransactionManager) f' :
  memWf s → savepoints m' ⊆ savepoints (tm s) →
  (∀ t, tx_ID (g t) = tx_ID t ∧ Buffer (g t) = Buffer t ∧ WriteSet (g t) = WriteSet t ∧
        Deletes (g t) = Deletes t ∧ DeleteAttribution (g t) = DeleteAttribution t) →
  memWf (mkMem f' m' (alter g p (heap s))).
Proof.
  intros Hwf Hsub Hg. apply (memWf_shrink s); [done..|]. simpl. intros T tx'.
  destruct (decide (T = p)) as [->|].
  - rewrite lookup_alter_eq. intros (t & Ht & ->)%fmap_Some. exists t. split; [done|apply Hg].
  - rewrite lookup_alter_ne by done. eauto 10.
Qed.

Lemma memWf_step c c' : step c c' → memWf (c_mem c) → memWf (c_mem c').
Proof.
  assert (∀ s f' m', memWf s → savepoints m' ⊆ savepoints (tm s) → memWf (mkMem f' m' (heap s))) as Hsame.
  { intros s f' m' Hwf Hsub. apply (memWf_shrink s); [done..|]. simpl. eauto 10. }
  destruct 1 as [ctx T clock s s' r fl h Hn Hp Hrun|ctx p op s s' r fl h Hp Hrun
    |ctx op clock s s' r h Hctx Hrun|ctx T s s' r fl h Hrun|T clock s s' tx cap comp t h Hc Hrun
    |T clock s s' e h Hc Hrun|ctx clock s s' f h Hrun|ctx T s s' r fl h Hc Hrun]; intros Hwf; simpl in *.
  - destruct (Begin_run _ _ _ _ _ _ Hrun) as [(e & _ & ->)|(_ & tid & org & now & _ & _ & ->)]; [done|].
    destruct Hwf as [Hh Hs]. split; simpl; [|done].
    intros T' tx' [[<- <-]|[? ?]]%lookup_insert_Some; [|by apply Hh].
    split; [done|]. split; simpl; [set_solver..|done].
  - by apply (stable_elim _ _ _ _ _ (wf_txop ctx p op) Hrun).
  - destruct (runDirect_direct _ _ _ _ _ _ Hctx Hrun) as [->|(now & _ & Etm & Eh & _)]; [done|].
    destruct s' as [f' m' h']. simpl in *. subst. by apply Hsame.
  - destruct (commitPrepare_run _ _ _ _ _ Hrun) as [[_ ->]|(_ & _ & _ & ->)]; [done|]. by apply (Hsame s).
  - destruct (commitStamp_run _ _ _ _ _ Hrun)
      as [(? & ? & ? & _ & _ & _ & _ & _ & -> & _)|[(? & ? & _)|(? & ? & _)]]; [|done..]. by apply (Hsame s).
  - destruct (commitStamp_run _ _ _ _ _ Hrun)
      as [(? & ? & ? & ? & _)|[(? & _ & ->)|(? & ? & _)]]; [done| |done].
    apply (memWf_alter s); [done|apply delete_subseteq|done].
  - destruct (commitFinish_run _ _ _ _ _ _ _ _ _ Hrun) as (f' & _ & _ & Eh & Etm).
    unfold closeTx, mem_set_heap. rewrite Eh.
    apply (memWf_alter s); [done|rewrite Etm; apply delete_subseteq|done].
  - destruct (Rollback_run _ _ _ _ _ Hrun) as [->|(_ & ->)]; [done|].
    rewrite alter_alter. apply (memWf_alter s); [done|apply delete_subseteq|done].
Qed.

Lemma memWf_reachable c : reachable c → memWf (c_mem c).
Proof.
  intros Hr. unfold reachable in Hr. remember initConf as c0 eqn:Hc0.
  assert (memWf (c_mem c0)) as Hwf by (subst; split; simpl; intros *; by rewrite lookup_empty).
  clear Hc0. induction Hr; eauto using memWf_step.
Qed.

(** ** Reading through an operation *)

Lemma openTx_open p s tx :
  heap s !! p = Some tx → RolledBack tx = false → Closed tx = false → openTx p s = (Ret tx, s).
Proof. intros Htx Hr Hc. unfold openTx, deref. mrun. rewrite Htx. mrun. by rewrite Hr, Hc. Qed.

(** [Get] and [Exists] on what the transaction itself wrote. *)
Lemma Get_buffered tid ctx p s tx eid e :
  heap s !! p = Some tx → RolledBack tx = false → Closed tx = false →
  eid ∉ Deletes tx → Buffer tx !! eid = Some e →
  (Get tid (WithTransaction ctx p) eid s).1 = Ret (copyEntity e) ∧
  (Exists tid (WithTransaction ctx p) eid s).1 = Ret true.
Proof.
  intros Htx Hr Hc Hd Hb. unfold Get, Exists; cbn [ctx_tx WithTransaction].
  rewrite !run_bind, (openTx_open p s tx) by done. rewrite !decide_False by done. by rewrite Hb.
Qed.

Lemma Get_deleted tid ctx p s tx eid :
  heap s !! p = Some tx → RolledBack tx = false → Closed tx = false → eid ∈ Deletes tx →
  (Get tid (WithTransaction ctx p) eid s).1 = Err ErrNotFound ∧
  (Exists tid (WithTransaction ctx p) eid s).1 = Ret false.
Proof.
  intros Htx Hr Hc Hd. unfold Get, Exists; cbn [ctx_tx WithTransaction].
  rewrite !run_bind, (openTx_open p s tx) by done. by rewrite !decide_True.
Qed.

Lemma stageSuperseded_heap txID eid prior s :
  ∃ m', stageSuperseded txID eid prior s = (Ret tt, mkMem (fac s) m' (heap s)).
Proof. destruct prior; [by eexists|]. exists (tm s). by destruct s. Qed.

(** C39. In every reachable configuration every transaction object is well formed:
    nothing is both buffered and staged for deletion, the write set covers both,
    every staged delete carries its attribution and nothing else does, and each
    buffered entity sits under its own id, stamped with the transaction's id. *)
Theorem reachable_tx_wf c T tx :
  reachable c → heap (c_mem c) !! T = Some tx → tx_ID tx = T ∧ txWf tx.
Proof. intros Hr Htx. by apply (wf_heap _ (memWf_reachable c Hr)). Qed.

(** A transaction reads its own writes: in an open transaction [Save] always
    succeeds, and afterwards [Get] returns the saved entity stamped with the
    transaction's id and [Exists] is true, even when the entity had been deleted
    in the same transaction before; after a [Delete] that succeeded [Get] reports
    not found and [Exists] is false. *)
Theorem read_your_writes tid ctx p s tx e eid clock :
  heap s !! p = Some tx → RolledBack tx = false → Closed tx = false →
  (∃ s', Save tid (WithTransaction ctx p) e clock s = (Ret 0%Z, s') ∧
     (Get tid (WithTransaction ctx p) (m_ID (Meta e)) s').1 = Ret (ent_set_TransactionID (tx_ID tx) e) ∧
     (Exists tid (WithTransaction ctx p) (m_ID (Meta e)) s').1 = Ret true) ∧
  (∀ s', Delete tid (WithTransaction ctx p) eid clock s = (Ret tt, s') →
     (Get tid (WithTransaction ctx p) eid s').1 = Err ErrNotFound ∧
     (Exists tid (WithTransaction ctx p) eid s').1 = Ret false).
Proof.
  intros Htx Hr Hc. split.
  - unfold Save; cbn [ctx_tx WithTransaction]. rewrite run_bind, (openTx_open p s tx) by done.
    unfold bufferWrite, mod_tx, recordUniqueKeys, mod_tm. rewrite run_bind, run_bind.
    destruct (stageSuperseded_heap (tx_ID tx) (m_ID (Meta e)) (Buffer tx !! m_ID (Meta e)) s) as (m' & ->).
    mrun. eexists. split; [done|].
    change (Ret (ent_set_TransactionID (tx_ID tx) e) : outcome err Entity)
      with (Ret (copyEntity (ent_set_TransactionID (tx_ID tx) (copyEntity e))) : outcome err Entity).
    eapply Get_buffered; [simpl; by rewrite !lookup_alter_eq, Htx|done|done|simpl; set_solver|].
    simpl. by rewrite lookup_insert_eq.
  - intros s'. unfold Delete; cbn [ctx_tx WithTransaction]. rewrite run_bind, (openTx_open p s tx) by done.
    mrun. case_if Hc'; [done|].
    unfold mod_tx. mrun. intros [= <-].
    eapply Get_deleted; [simpl; by rewrite lookup_alter_eq, Htx|done|done|simpl; set_solver].
Qed.

(** No dirty reads: whatever a transaction does before it commits, neither
    another transaction nor a caller outside any transaction can observe it. *)
Theorem no_dirty_reads ctx ctx' p op s r s' q tid eid :
  runTxop ctx p op s = (r, s') → q ≠ p → ctx_tx ctx' = None →
  (Get tid (WithTransaction ctx' q) eid s').1 = (Get tid (WithTransaction ctx' q) eid s).1 ∧
  (Get tid ctx' eid s').1 = (Get tid ctx' eid s).1.
Proof.
  intros Hrun Hq Hctx.
  destruct (stable_elim _ _ _ _ _ (runTxop_frame ctx p op) Hrun) as (Hfac & _ & Hoth & _).
  unfold Get; cbn [ctx_tx WithTransaction]. rewrite Hctx. mrun. rewrite Hfac. split; [|by destruct (latestLive _)].
  unfold openTx, deref. mrun. rewrite Hoth by done.
  destruct (heap s' !! q) as [tx|]; mrun; [|done].
  destruct (RolledBack tx); [done|]. destruct (Closed tx); [done|].
  mrun. case_decide; [done|]. destruct (Buffer tx !! eid); unfold mod_tx; mrun; [done|]. simpl. rewrite Hfac.
  by destruct (getSnapshotVersion _ _ _ _).
Qed.
End Ops.

(** ** Witnesses *)

Lemma reachable_tx_wf_witness :
  tx_ID (sampleTx [ABegin (Sample.ctx "t") "A" 10; sampleSave "A" "e1" "a"] "A") = "A" ∧
  txWf (sampleTx [ABegin (Sample.ctx "t") "A" 10; sampleSave "A" "e1" "a"] "A").
Proof.
  apply (@reachable_tx_wf Sample.spi (confOf [ABegin (Sample.ctx "t") "A" 10; sampleSave "A" "e1" "a"])).
  - apply (acts_reachable (H:=Sample.spi) [ABegin (Sample.ctx "t") "A" 10; sampleSave "A" "e1" "a"]). by_eval.
  - by_eval.
Defined.

Lemma read_your_writes_witness :
  let s := c_mem (confOf [ABegin (Sample.ctx "t") "A" 10; sampleSave "A" "e2" "a"]) in
  let c := WithTransaction (Sample.ctx "t") "A" in
  (∃ s', Save (H:=Sample.spi) "t" c (Sample.entity "e1" "d") 0 s = (Ret 0%Z, s') ∧
     (Get "t" c "e1" s').1 = Ret (ent_set_TransactionID "A" (Sample.entity "e1" "d")) ∧
     (Exists "t" c "e1" s').1 = Ret true) ∧
  (∀ s', Delete (H:=Sample.spi) "t" c "e2" 0 s = (Ret tt, s') →
     (Get "t" c "e2" s').1 = Err ErrNotFound ∧ (Exists "t" c "e2" s').1 = Ret false).
Proof.
  apply (@read_your_writes Sample.spi "t" (Sample.ctx "t") "A"
    (c_mem (confOf [ABegin (Sample.ctx "t") "A" 10; sampleSave "A" "e2" "a"]))
    (sampleTx [ABegin (Sample.ctx "t") "A" 10; sampleSave "A" "e2" "a"] "A")); by_eval.
Defined.

Lemma no_dirty_reads_witness :
  let s := c_mem (confOf [ABegin (Sample.ctx "t") "A" 10; ABegin (Sample.ctx "t") "B" 11]) in
  let s' := (runTxop (H:=Sample.spi) (Sample.ctx "t") "A" (OpSave "t" (Sample.entity "e1" "d") 0) s).2 in
  let q := WithTransaction (Sample.ctx "t") "B" in
  (Get "t" q "e1" s').1 = (Get "t" q "e1" s).1 ∧
  (Get "t" (Sample.ctx "t") "e1" s').1 = (Get "t" (Sample.ctx "t") "e1" s).1.
Proof.
  eapply (@no_dirty_reads Sample.spi (Sample.ctx "t") (Sample.ctx "t") "A"
    (OpSave "t" (Sample.entity "e1" "d") 0)); [apply surjective_pairing|by_eval|by_eval].
Defined.
