(* ===== verification/MemClaims.v ===== *)
(** * Memory plugin: the unique-key claim index

    [uniqueClaims] and [claimsByEntity] are two views of one relation in every
    reachable configuration, and a commit moves it from the old claims of what it
    wrote to the new ones, in whatever order the runtime flushes the buffer. *)

From stdpp Require Import base gmap strings list fin_maps sorting.
From S2P Require Import Prelude Spi MemState MemTx MemEntity MemSched MemFrame MemSI MemIsolation MemCommit MemWf.

(** ** The invariant *)

Definition claimsOf (f : StoreFactory) (tid eid : string) : list claimKey :=
  default [] (claimsByEntity f !! mkETK tid eid).

(** A key is listed under (tenant, entity) exactly when the entity holds it. *)
Definition claimsInv (f : StoreFactory) : Prop :=
  ∀ tid eid k, k ∈ claimsOf f tid eid ↔ uniqueClaims f !! k = Some eid ∧ ck_tenant k = tid.

(** Release then insert, as every save does. *)
Definition reclaim (tid eid model version : string) (cs : list UniqueClaim) (f : StoreFactory) : StoreFactory :=
  insertClaims eid tid model version cs (releaseClaims tid eid f).

(** ** One entity's claims *)

Lemma lookup_foldl_delete (ks : list claimKey) (m : gmap claimKey string) k :
  foldl (λ m k, delete k m) m ks !! k = if decide (k ∈ ks) then None else m !! k.
Proof.
  revert m. induction ks as [|k' ks IH]; intros m; cbn [foldl].
  { rewrite decide_False; [done|apply not_elem_of_nil]. }
  rewrite IH. destruct (decide (k = k')) as [->|].
  - rewrite lookup_delete_eq, (decide_True _ _ (list_elem_of_here _ _)). by case_decide.
  - rewrite lookup_delete_ne by done. repeat case_decide; set_solver.
Qed.

Lemma lookup_foldl_insert (ks : list claimKey) (e : string) (m : gmap claimKey string) k :
  foldl (λ m k, <[k := e]> m) m ks !! k = if decide (k ∈ ks) then Some e else m !! k.
Proof.
  revert m. induction ks as [|k' ks IH]; intros m; cbn [foldl].
  { rewrite decide_False; [done|apply not_elem_of_nil]. }
  rewrite IH. destruct (decide (k = k')) as [->|].
  - rewrite lookup_insert_eq, (decide_True _ _ (list_elem_of_here _ _)). by case_decide.
  - rewrite lookup_insert_ne by done. repeat case_decide; set_solver.
Qed.

Lemma claimsOf_delete f tid eid tid' eid' :
  default [] (delete (mkETK tid eid) (claimsByEntity f) !! mkETK tid' eid') =
    if decide (tid' = tid ∧ eid' = eid) then [] else claimsOf f tid' eid'.
Proof.
  case_decide as Hd; [destruct Hd as [-> ->]; by rewrite lookup_delete_eq|].
  unfold claimsOf. rewrite lookup_delete_ne; [done|]. intros [= -> ->]. naive_solver.
Qed.

(** What releasing does to the index. *)
Lemma releaseClaims_lookup f tid eid k :
  claimsInv f → uniqueClaims (releaseClaims tid eid f) !! k =
    if decide (uniqueClaims f !! k = Some eid ∧ ck_tenant k = tid) then None else uniqueClaims f !! k.
Proof.
  intros Hinv. simpl. rewrite lookup_foldl_delete.
  destruct (decide (uniqueClaims f !! k = Some eid ∧ ck_tenant k = tid)) as [Hd|Hd];
    [rewrite decide_True|rewrite decide_False]; try done; by rewrite (Hinv tid eid k).
Qed.

Lemma claimsInv_release f tid eid : claimsInv f → claimsInv (releaseClaims tid eid f).
Proof.
  intros Hinv tid' eid' k. rewrite releaseClaims_lookup by done. unfold claimsOf at 1. simpl.
  rewrite claimsOf_delete. case_decide as H1; case_decide as H2.
  - split; [by intros ?%not_elem_of_nil|by intros [? _]].
  - destruct H1 as [-> ->]. split; [by intros ?%not_elem_of_nil|]. intros ?. naive_solver.
  - rewrite (Hinv tid' eid' k). split; [|by intros []]. intros [? ?]. naive_solver.
  - apply Hinv.
Qed.

Lemma claimsInv_insert f tid eid model version cs :
  claimsInv f → (∀ k, uniqueClaims f !! k = Some eid → ck_tenant k ≠ tid) →
  (∀ c, c ∈ cs → uniqueClaims f !! claimKeyOf tid model version c = None) →
  claimsInv (insertClaims eid tid model version cs f).
Proof.
  intros Hinv Hno Hfree. unfold insertClaims. case_decide as Hlen; [done|].
  intros tid' eid' k. unfold claimsOf at 1. simpl. rewrite lookup_foldl_insert.
  assert (∀ k', k' ∈ claimKeyOf tid model version <$> cs → ck_tenant k' = tid ∧ uniqueClaims f !! k' = None) as Hk.
  { intros k' (c & -> & Hc)%list_elem_of_fmap. by split; [|apply Hfree]. }
  destruct (decide (tid' = tid ∧ eid' = eid)) as [[-> ->]|Hd].
  - rewrite lookup_insert_eq. simpl. case_decide as Hin; [naive_solver|].
    split; [done|]. intros [? ?]. by destruct (Hno k).
  - rewrite lookup_insert_ne by (intros [= -> ->]; naive_solver). fold (claimsOf f tid' eid').
    rewrite (Hinv tid' eid' k). case_decide as Hin; [|done]. destruct (Hk k Hin) as [? ->].
    split; [naive_solver|]. intros [[= ->] ?]. naive_solver.
Qed.

(** A save's new claims, none of them held by another entity. *)
Lemma reclaim_spec f tid eid model version cs :
  claimsInv f →
  (∀ c h, c ∈ cs → uniqueClaims f !! claimKeyOf tid model version c = Some h → h = eid) →
  claimsInv (reclaim tid eid model version cs f) ∧
  ∀ k, uniqueClaims (reclaim tid eid model version cs f) !! k =
    if decide (k ∈ claimKeyOf tid model version <$> cs) then Some eid
    else if decide (uniqueClaims f !! k = Some eid ∧ ck_tenant k = tid) then None else uniqueClaims f !! k.
Proof.
  intros Hinv Hfree. unfold reclaim. split.
  - apply claimsInv_insert; [by apply claimsInv_release|..].
    + intros k. rewrite releaseClaims_lookup by done. case_decide; [done|]. naive_solver.
    + intros c Hc. rewrite releaseClaims_lookup by done. case_decide as Hd; [done|].
      destruct (uniqueClaims f !! _) as [h|] eqn:Hh; [|done].
      destruct Hd. by rewrite (Hfree c h Hc Hh).
  - intros k. rewrite <- (releaseClaims_lookup f tid eid k) by done.
    unfold insertClaims. case_decide as Hlen; [|apply lookup_foldl_insert].
    apply nil_length_inv in Hlen as ->. rewrite decide_False; [done|apply not_elem_of_nil].
Qed.

(** ** Validation *)

Section Claims.
Context `{SPI}.

(** The keys the commit computed for a buffered entity. *)
Definition newKeys (tid : string) (tx : TransactionState) (comp : gmap string (list UniqueClaim)) (eid : string)
    : list claimKey :=
  match Buffer tx !! eid with
  | Some e => entityClaimKeys tid e (default [] (comp !! eid))
  | None => []
  end.

(** What validation establishes: the keys of distinct entities of the batch are
    disjoint, and none is held outside the batch's own entity and its deletes. *)
Record validated (f : StoreFactory) (tid : string) (tx : TransactionState)
    (comp : gmap string (list UniqueClaim)) : Prop := mkValidated {
  val_batch : ∀ e1 e2 k, k ∈ newKeys tid tx comp e1 → k ∈ newKeys tid tx comp e2 → e1 = e2;
  val_index : ∀ eid k h, k ∈ newKeys tid tx comp eid → uniqueClaims f !! k = Some h →
                h = eid ∨ h ∈ Deletes tx }.

Lemma checkClaims_spec f rel eid keys pend pend' :
  checkClaims f rel eid keys pend = inr pend' →
  (∀ k, k ∈ keys → (pend !! k = None ∨ pend !! k = Some eid) ∧ pend' !! k = Some eid ∧
     ∀ h, uniqueClaims f !! k = Some h → h = eid ∨ h ∈ rel) ∧
  (∀ k h, pend !! k = Some h → pend' !! k = Some h).
Proof.
  revert pend. induction keys as [|k keys IH]; intros pend; simpl.
  { intros [= <-]. split; [|done]. intros k Hk. by apply elem_of_nil in Hk. }
  case_if Hp; [done|]. case_if Hu; [done|].
  intros [IH1 IH2]%IH.
  assert (pend !! k = None ∨ pend !! k = Some eid) as Hk.
  { destruct (pend !! k) as [h|]; [|by left]. right. apply bool_decide_eq_false, dec_stable in Hp. by subst. }
  assert (∀ k' h, pend !! k' = Some h → pend' !! k' = Some h) as Hmono.
  { intros k' h Hh. apply IH2. destruct (decide (k' = k)) as [->|]; [|by rewrite lookup_insert_ne].
    rewrite lookup_insert_eq. destruct Hk; congruence. }
  split; [|done]. intros k' [->|Hk']%elem_of_cons.
  - split_and!; [done|apply IH2; by rewrite lookup_insert_eq|]. intros h Hh. rewrite Hh in Hu.
    apply andb_false_iff in Hu as [Hu|Hu%negb_false_iff].
    + left. by apply bool_decide_eq_false, dec_stable in Hu.
    + right. by apply bool_decide_eq_true in Hu.
  - destruct (IH1 k' Hk') as (Ha & Hb & Hc). split_and!; [|done..].
    destruct (decide (k' = k)) as [->|]; [done|]. by rewrite lookup_insert_ne in Ha.
Qed.

Lemma validateClaims_spec f tid tx keysOf ids pend comp comp' :
  validateClaims f tid tx keysOf ids pend comp = inr comp' → NoDup ids →
  (∀ eid, eid ∉ ids → comp' !! eid = comp !! eid) ∧
  (∀ eid e, eid ∈ ids → Buffer tx !! eid = Some e →
     ∃ cs, ComputeClaims (default [] (keysOf !! eid)) (Data e) = inr cs ∧ comp' !! eid = Some cs) ∧
  (∀ eid k, eid ∈ ids → k ∈ newKeys tid tx comp' eid →
     (pend !! k = None ∨ pend !! k = Some eid) ∧
     ∀ h, uniqueClaims f !! k = Some h → h = eid ∨ h ∈ Deletes tx) ∧
  (∀ e1 e2 k, e1 ∈ ids → e2 ∈ ids → k ∈ newKeys tid tx comp' e1 → k ∈ newKeys tid tx comp' e2 → e1 = e2).
Proof.
  revert pend comp. induction ids as [|eid ids IH]; intros pend comp; simpl.
  { intros [= <-] _. split_and!; [done|set_solver..]. }
  intros Hrun [Hne Hnd]%NoDup_cons. destruct (Buffer tx !! eid) as [e|] eqn:He.
  2:{ destruct (IH _ _ Hrun Hnd) as (I1 & I2 & I3 & I4).
      assert (∀ k, k ∉ newKeys tid tx comp' eid) as Hnk.
      { intros k. unfold newKeys. rewrite He. apply not_elem_of_nil. }
      split_and!; [set_solver| | |].
      - intros eid' e' [->|Hin]%elem_of_cons; [congruence|by apply I2].
      - intros eid' k [->|Hin]%elem_of_cons Hk; [by destruct (Hnk k)|by apply I3].
      - intros e1 e2 k [->|H1]%elem_of_cons [->|H2]%elem_of_cons Hk1 Hk2;
          [done|by destruct (Hnk k)..|by eapply I4]. }
  destruct (ComputeClaims _ _) as [er|cs] eqn:Hcc; [done|].
  destruct (checkClaims _ _ _ _ _) as [er|pend'] eqn:Hck; [done|].
  destruct (checkClaims_spec _ _ _ _ _ _ Hck) as [C1 C2].
  destruct (IH _ _ Hrun Hnd) as (I1 & I2 & I3 & I4).
  assert (comp' !! eid = Some cs) as Hcomp by (rewrite I1 by done; by rewrite lookup_insert_eq).
  assert (newKeys tid tx comp' eid = entityClaimKeys tid e cs) as Hkeys
    by (unfold newKeys; by rewrite He, Hcomp).
  assert (∀ eid' k, eid' ∈ ids → k ∈ newKeys tid tx comp' eid' → k ∈ newKeys tid tx comp' eid → eid' = eid) as Hx.
  { intros eid' k Hin Hk' Hk. rewrite Hkeys in Hk. destruct (C1 k Hk) as (_ & Hp & _).
    destruct (I3 eid' k Hin Hk') as [[?|?] _]; congruence. }
  split_and!.
  - intros eid' Hn. rewrite I1 by set_solver. rewrite lookup_insert_ne; [done|set_solver].
  - intros eid' e' [->|Hin]%elem_of_cons He'; [simplify_eq; eauto|by apply I2].
  - intros eid' k [->|Hin]%elem_of_cons Hk.
    + rewrite Hkeys in Hk. destruct (C1 k Hk) as (? & _ & ?). done.
    + destruct (I3 eid' k Hin Hk) as [Hp ?]. split; [|done].
      destruct (pend !! k) as [h|] eqn:Hh; [|by left]. right. apply C2 in Hh. destruct Hp; congruence.
  - intros e1 e2 k [->|H1]%elem_of_cons [->|H2]%elem_of_cons Hk1 Hk2; [done|..|by eapply I4].
    + symmetry. by eapply Hx.
    + by eapply Hx.
Qed.

Lemma validateClaims_validated f tid tx keysOf comp :
  validateClaims f tid tx keysOf (sortedIDs (elements (dom (Buffer tx)))) ∅ ∅ = inr comp →
  validated f tid tx comp ∧
  ∀ eid e, Buffer tx !! eid = Some e →
    ∃ cs, ComputeClaims (default [] (keysOf !! eid)) (Data e) = inr cs ∧ comp !! eid = Some cs.
Proof.
  intros Hrun. set (ids := sortedIDs _) in Hrun.
  assert (ids ≡ₚ elements (dom (Buffer tx))) as Hperm by apply merge_sort_Permutation.
  assert (∀ eid, eid ∈ ids ↔ is_Some (Buffer tx !! eid)) as Hids.
  { intros eid. by rewrite Hperm, elem_of_elements, elem_of_dom. }
  assert (∀ eid k, k ∈ newKeys tid tx comp eid → eid ∈ ids) as Hin.
  { intros eid k. rewrite Hids. unfold newKeys. destruct (Buffer tx !! eid); [eauto|set_solver]. }
  destruct (validateClaims_spec _ _ _ _ _ _ _ _ Hrun) as (_ & I2 & I3 & I4).
  { rewrite Hperm. apply NoDup_elements. }
  split; [split|].
  - intros e1 e2 k H1 H2. by apply (I4 e1 e2 k); eauto.
  - intros eid k h Hk Hh. destruct (I3 eid k (Hin _ _ Hk) Hk) as [_ Hx]. eauto.
  - intros eid e He. apply I2; [|done]. rewrite Hids. eauto.
Qed.

(** ** The flush *)

Definition sameClaims (s s' : Mem) : Prop :=
  uniqueClaims (fac s') = uniqueClaims (fac s) ∧ claimsByEntity (fac s') = claimsByEntity (fac s).

#[export] Instance sameClaims_preorder : PreOrder sameClaims.
Proof. split; repeat intro; unfold sameClaims in *; intuition congruence. Qed.

Lemma claimsInv_ext f f' :
  uniqueClaims f' = uniqueClaims f → claimsByEntity f' = claimsByEntity f → claimsInv f → claimsInv f'.
Proof. intros E1 E2 Hinv tid eid k. unfold claimsOf. rewrite E1, E2. apply Hinv. Qed.

Lemma sameClaims_mod_fac g :
  (∀ f, uniqueClaims (g f) = uniqueClaims f ∧ claimsByEntity (g f) = claimsByEntity f) →
  stable sameClaims (mod_fac g).
Proof. intros Hg. apply stable_modify. intros s. apply Hg. Qed.

Lemma flushRows_claims tid eid txID t cd staged base hp :
  stable sameClaims (flushRows tid eid txID t cd staged base hp).
Proof.
  revert base hp. induction staged as [|[e|] staged IH]; intros base hp; cbn [flushRows]; solve_stable.
  by apply sameClaims_mod_fac.
Qed.

Lemma recordTxIndex_claims tid eid txID v f :
  uniqueClaims (recordTxIndex tid eid txID v f) = uniqueClaims f ∧
  claimsByEntity (recordTxIndex tid eid txID v f) = claimsByEntity f.
Proof. unfold recordTxIndex. by repeat case_match. Qed.

Lemma reclaim_ext tid eid model version cs f f' :
  uniqueClaims f' = uniqueClaims f → claimsByEntity f' = claimsByEntity f →
  uniqueClaims (reclaim tid eid model version cs f') = uniqueClaims (reclaim tid eid model version cs f) ∧
  claimsByEntity (reclaim tid eid model version cs f') = claimsByEntity (reclaim tid eid model version cs f).
Proof.
  intros E1 E2. unfold reclaim, insertClaims. case_decide; simpl; by rewrite E1, E2.
Qed.

Lemma flushEntity_claims tid txID t sup comp eid e s s' :
  flushEntity tid txID t sup comp eid e s = (Ret tt, s') →
  let f1 := reclaim tid eid (EntityName (m_ModelRef (Meta e))) (ModelVersion (m_ModelRef (Meta e)))
              (default [] (comp !! eid)) (fac s) in
  uniqueClaims (fac s') = uniqueClaims f1 ∧ claimsByEntity (fac s') = claimsByEntity f1.
Proof.
  unfold flushEntity. mrun. intros ([] & s1 & Hfl & Hrest)%bind_Ret.
  destruct (stable_elim _ _ _ _ _ (flushRows_claims _ _ _ _ _ _ _ _) Hfl) as [E1 E2].
  unfold mod_fac in Hrest. mrun_in Hrest. injection Hrest as <-. simpl.
  destruct (recordTxIndex_claims tid eid txID (match lastLive (reverse (versionsOf (fac s) tid eid)) with
     | Some e => m_Version (Meta e) | None => 0%Z end + 1) (fac s1)) as [E3 E4].
  apply reclaim_ext; congruence.
Qed.

Lemma newKeys_tenant tid tx comp eid k : k ∈ newKeys tid tx comp eid → ck_tenant k = tid.
Proof.
  unfold newKeys. destruct (Buffer tx !! eid) as [e|]; [|by intros ?%not_elem_of_nil].
  by intros (c & -> & _)%list_elem_of_fmap.
Qed.

Lemma flushEntities_claims tid txID t sup comp tx l s s' :
  NoDup l.*1 → (∀ eid e, (eid, e) ∈ l → Buffer tx !! eid = Some e) → claimsInv (fac s) →
  (∀ e1 e2 k, k ∈ newKeys tid tx comp e1 → k ∈ newKeys tid tx comp e2 → e1 = e2) →
  (∀ eid k h, eid ∈ l.*1 → k ∈ newKeys tid tx comp eid → uniqueClaims (fac s) !! k = Some h → h = eid) →
  forM l (λ '(eid, e), flushEntity tid txID t sup comp eid e) s = (Ret tt, s') →
  claimsInv (fac s') ∧ ∀ k h, uniqueClaims (fac s') !! k = Some h ↔
    (h ∈ l.*1 ∧ k ∈ newKeys tid tx comp h) ∨
    (uniqueClaims (fac s) !! k = Some h ∧ ¬ (ck_tenant k = tid ∧ h ∈ l.*1)).
Proof.
  revert s. induction l as [|[eid e] l IH]; intros s Hnd Hbuf Hinv Hbatch Hpre; simpl.
  { mrun. intros [= <-]. split; [done|]. intros k h. set_solver. }
  intros ([] & s1 & H1 & H2)%bind_Ret. apply NoDup_cons in Hnd as [Hna Hnd].
  assert (newKeys tid tx comp eid = claimKeyOf tid (EntityName (m_ModelRef (Meta e)))
    (ModelVersion (m_ModelRef (Meta e))) <$> default [] (comp !! eid)) as Hk.
  { unfold newKeys. by rewrite (Hbuf eid e) by set_solver. }
  destruct (flushEntity_claims _ _ _ _ _ _ _ _ _ H1) as [E1 E2].
  destruct (reclaim_spec (fac s) tid eid (EntityName (m_ModelRef (Meta e)))
    (ModelVersion (m_ModelRef (Meta e))) (default [] (comp !! eid)) Hinv) as [Hinv1 Hl1].
  { intros c h Hc Hh. eapply Hpre; [set_solver| |done]. rewrite Hk. by apply list_elem_of_fmap_2. }
  rewrite <- E1, <- Hk in Hl1.
  destruct (IH s1) as [Hinv' Hl']; [done|set_solver|by eapply claimsInv_ext|done| |done|].
  { intros eid2 k h Hin Hk2. rewrite Hl1. case_decide as Hd; [|case_decide; [done|eapply Hpre; set_solver]].
    assert (eid = eid2) as <- by (by eapply Hbatch). done. }
  split; [done|]. intros k h. rewrite Hl', Hl1, elem_of_cons. clear IH E1 E2 H1 H2 Hl' Hinv'.
  case_decide as Hd.
  - pose proof (newKeys_tenant _ _ _ _ _ Hd) as Htn. split.
    + intros [[? ?]|[[= <-] ?]]; left; auto.
    + intros [[[->|?] ?]|[Hs Hn]]; [right; split; [done|]; naive_solver|left; auto|].
      assert (h = eid) as -> by (eapply (Hpre eid k); [set_solver|done..]). naive_solver.
  - case_decide as Hr.
    + split; [intros [?|[? ?]]; [naive_solver|done]|].
      intros [[[->|?] ?]|[Hs Hn]]; [done|auto|]. destruct Hr as [Hr ?]. naive_solver.
    + split; [intros [[? ?]|[? Hn]]; [auto|right; split; [done|naive_solver]]|].
      intros [[[->|?] ?]|[Hs Hn]]; [done|auto|]. right. split; [done|]. naive_solver.
Qed.

Lemma releases_claims tid l f :
  claimsInv f →
  let f' := foldl (λ f e, releaseClaims tid e f) f l in
  claimsInv f' ∧ ∀ k h, uniqueClaims f' !! k = Some h ↔
    uniqueClaims f !! k = Some h ∧ ¬ (ck_tenant k = tid ∧ h ∈ l).
Proof.
  revert f. induction l as [|e l IH]; intros f Hinv; simpl.
  { split; [done|]. intros k h. set_solver. }
  destruct (IH _ (claimsInv_release f tid e Hinv)) as [Hinv' Hl]. split; [done|].
  intros k h. rewrite Hl, releaseClaims_lookup by done. rewrite elem_of_cons.
  case_decide; naive_solver.
Qed.

Lemma commitFlush_claims ctx txID t tx cap comp rel buf dels s s' :
  rel ≡ₚ elements (Deletes tx) → buf ≡ₚ map_to_list (Buffer tx) →
  claimsInv (fac s) → validated (fac s) (tx_TenantID tx) tx comp →
  commitFlush ctx (tx_TenantID tx) txID t tx cap comp rel buf dels s = (Ret tt, s') →
  claimsInv (fac s') ∧ ∀ k h, uniqueClaims (fac s') !! k = Some h ↔
    k ∈ newKeys (tx_TenantID tx) tx comp h ∨
    (uniqueClaims (fac s) !! k = Some h ∧
     ¬ (ck_tenant k = tx_TenantID tx ∧ (h ∈ Deletes tx ∨ h ∈ dom (Buffer tx)))).
Proof.
  intros Hrel Hbuf Hinv [Hbatch Hindex]. unfold commitFlush. rewrite run_bind, forM_mod_fac.
  destruct (releases_claims (tx_TenantID tx) rel (fac s) Hinv) as [Hinv0 Hl0].
  set (f0 := foldl (λ f e, releaseClaims (tx_TenantID tx) e f) (fac s) rel) in *.
  change (mem_set_fac _ s) with (mkMem f0 (tm s) (heap s)). clearbody f0.
  intros ([] & s1 & H1 & H2)%bind_Ret.
  assert (∀ k, k ∈ buf.*1 ↔ k ∈ dom (Buffer tx)) as Hkeys.
  { intros k. rewrite Hbuf, list_elem_of_fmap, elem_of_dom. split.
    - intros ([k' e] & -> & Hm%elem_of_map_to_list). by eauto.
    - intros [e He]. exists (k, e). by rewrite elem_of_map_to_list. }
  apply (flushEntities_claims _ _ _ _ _ tx) in H1 as [Hinv1 Hl1]; cycle 1.
  { rewrite Hbuf. apply NoDup_fst_map_to_list. }
  { intros eid e. by rewrite Hbuf, elem_of_map_to_list. }
  { done. }
  { done. }
  { simpl. intros eid k h _ Hk Hh. apply Hl0 in Hh as [Hh Hn].
    destruct (Hindex eid k h Hk Hh) as [|Hd]; [done|]. destruct Hn.
    split; [by eapply newKeys_tenant|]. by rewrite Hrel, elem_of_elements. }
  apply bind_Ret in H2 as ([] & s2 & H2 & H3).
  assert (stable sameClaims (forM dels (flushDelete ctx (tx_TenantID tx) txID t (DeleteAttribution tx)))) as Hst.
  { apply stable_forM; [apply _|]. intros eid. unfold flushDelete. solve_stable. by apply sameClaims_mod_fac. }
  destruct (stable_elim _ _ _ _ _ Hst H2) as [E1 E2].
  assert (stable sameClaims (forM (cap_ops cap) (λ op, mod_fac (fac_set_scheduledTasks (applyScheduledTaskOp op))))) as Hst'.
  { apply stable_forM; [apply _|]. intros op. by apply sameClaims_mod_fac. }
  destruct (stable_elim _ _ _ _ _ Hst' H3) as [E3 E4].
  split; [by apply (claimsInv_ext (fac s1)); [congruence..|]|].
  intros k h. rewrite E3, E1, Hl1. simpl. rewrite Hl0, Hkeys, Hrel, elem_of_elements.
  assert (k ∈ newKeys (tx_TenantID tx) tx comp h → h ∈ dom (Buffer tx)).
  { unfold newKeys. rewrite elem_of_dom. destruct (Buffer tx !! h); [eauto|by intros ?%not_elem_of_nil]. }
  naive_solver.
Qed.

Lemma commitFinish_claims ctx txID clock tx cap comp t s s' :
  claimsInv (fac s) → validated (fac s) (tx_TenantID tx) tx comp →
  commitFinish ctx txID clock tx cap comp t s = (Ret tt, s') →
  claimsInv (fac s') ∧ ∀ k h, uniqueClaims (fac s') !! k = Some h ↔
    k ∈ newKeys (tx_TenantID tx) tx comp h ∨
    (uniqueClaims (fac s) !! k = Some h ∧
     ¬ (ck_tenant k = tx_TenantID tx ∧ (h ∈ Deletes tx ∨ h ∈ dom (Buffer tx)))).
Proof.
  intros Hinv Hval. unfold commitFinish. intros ([] & s1 & Hfl & Hrec)%bind_Ret.
  unfold commitRecord in Hrec. mrun_in Hrec. injection Hrec as <-. simpl.
  by eapply commitFlush_claims.
Qed.

(** ** Direct writes *)

Definition claimsRel (s s' : Mem) : Prop := claimsInv (fac s) → claimsInv (fac s').
#[export] Instance claimsRel_preorder : PreOrder claimsRel.
Proof. split; [intros s Hi; exact Hi|intros s1 s2 s3 H12 H23 Hi; exact (H23 (H12 Hi))]. Qed.

Lemma claimsRel_same {A} (m : MM A) : stable sameClaims m → stable claimsRel m.
Proof. intros Hm s Hinv. destruct (Hm s). by eapply claimsInv_ext. Qed.

Lemma claimsRel_release tid eid : stable claimsRel (mod_fac (releaseClaims tid eid)).
Proof. apply stable_modify. intros s Hinv. by apply claimsInv_release. Qed.

Lemma nextSubmitTime_claims clock : stable claimsRel (nextSubmitTime clock).
Proof. intros s Hinv. by destruct (nextSubmitTime_run clock s) as (now & _ & _ & ->). Qed.

Lemma saveUnlocked_claims tid ctx e clock : stable claimsRel (saveUnlocked tid ctx e clock).
Proof.
  intros s Hinv. unfold saveUnlocked. destruct (ComputeClaims _ _) as [er|cs]; mrun; [done|].
  case_if Hex; [done|].
  assert (∀ c h, c ∈ cs → uniqueClaims (fac s) !! claimKeyOf tid (EntityName (m_ModelRef (Meta e)))
    (ModelVersion (m_ModelRef (Meta e))) c = Some h → h = m_ID (Meta e)) as Hfree.
  { intros c h Hc Hh. rewrite <- not_true_iff_false, existsb_exists in Hex.
    destruct (decide (h = m_ID (Meta e))) as [|Hne]; [done|]. destruct Hex. exists c.
    rewrite Hh. split; [by apply list_elem_of_In|by apply bool_decide_eq_true]. }
  assert (∀ v n, claimsInv (reclaim tid (m_ID (Meta e)) (EntityName (m_ModelRef (Meta e)))
     (ModelVersion (m_ModelRef (Meta e))) cs (recordTxIndex tid (m_ID (Meta e)) (m_TransactionID (Meta e)) n
        (setVersions tid (m_ID (Meta e)) (versionsOf (fac s) tid (m_ID (Meta e)) ++ [v]) (fac s))))) as Hfin.
  { intros v n. destruct (recordTxIndex_claims tid (m_ID (Meta e)) (m_TransactionID (Meta e)) n
      (setVersions tid (m_ID (Meta e)) (versionsOf (fac s) tid (m_ID (Meta e)) ++ [v]) (fac s))) as [E1 E2].
    apply reclaim_spec; [by apply (claimsInv_ext (fac s))|]. by rewrite E1. }
  destruct (lastUndeleted _) as [v|]; [destruct (ev_entity v)|]; mrun; try done;
    unfold nextSubmitTime, mod_tm, appendVersion, mod_fac; mrun; simpl;
    (destruct (versionsOf (fac s) tid (m_ID (Meta e))) as [|v0 vs] eqn:Hvs; [|destruct (ev_entity v0)]);
    mrun; simpl; rewrite ?Hvs; try done; apply Hfin.
Qed.

Lemma appendVersion_claims tid eid v : stable claimsRel (appendVersion tid eid v).
Proof. by apply claimsRel_same, sameClaims_mod_fac. Qed.

#[local] Hint Resolve saveUnlocked_claims nextSubmitTime_claims claimsRel_release appendVersion_claims : stable.

Lemma runDirect_claims ctx op clock : ctx_tx ctx = None → stable claimsRel (runDirect ctx op clock).
Proof.
  intros Hctx. destruct op; unfold runDirect, ignore, Save, CompareAndSave, Delete, DeleteAll;
    rewrite Hctx; solve_stable.
Qed.

(** ** Reachable configurations *)

(** The claims index is consistent, and the keys a commit in flight will insert
    are still free. *)
Definition claimsOk (c : Conf) : Prop :=
  claimsInv (fac (c_mem c)) ∧
  ∀ f, c_flight c = Some f → validated (fac (c_mem c)) (tx_TenantID (fl_tx f)) (fl_tx f) (fl_computed f).

Lemma claimsOk_step c c' : step c c' → claimsOk c → claimsOk c'.
Proof.
  destruct 1 as [ctx T clock s s' r fl h Hn Hp Hrun|ctx p op s s' r fl h Hp Hrun
    |ctx op clock s s' r h Hctx Hrun|ctx T s s' r fl h Hrun|T clock s s' tx cap comp t h Hc Hrun
    |T clock s s' e h Hc Hrun|ctx clock s s' f h Hrun|ctx T s s' r fl h Hc Hrun];
    intros [Hinv Hfl]; unfold claimsOk; simpl in *.
  - destruct (Begin_run _ _ _ _ _ _ Hrun) as [(e & _ & ->)|(_ & tid & org & now & _ & _ & ->)]; done.
  - destruct (stable_elim _ _ _ _ _ (runTxop_frame ctx p op) Hrun) as (<- & _). done.
  - split; [|done]. by apply (stable_elim _ _ _ _ _ (runDirect_claims ctx op clock Hctx) Hrun).
  - destruct (commitPrepare_run _ _ _ _ _ Hrun) as [[_ ->]|(_ & _ & _ & ->)]; done.
  - destruct (commitStamp_run _ _ _ _ _ Hrun)
      as [(? & ? & ? & [= <- -> <- <-] & _ & Hv & _ & _ & -> & _)|[(? & ? & _)|(? & ? & _)]]; [|done..].
    split; [done|]. intros f [= <-]. simpl. by destruct (validateClaims_validated _ _ _ _ _ Hv).
  - destruct (commitStamp_run _ _ _ _ _ Hrun)
      as [(? & ? & ? & ? & _)|[(? & _ & ->)|(? & ? & _)]]; done.
  - split; [|done]. by apply (commitFinish_claims _ _ _ _ _ _ _ _ _ Hinv (Hfl f eq_refl) Hrun).
  - destruct (Rollback_run _ _ _ _ _ Hrun) as [->|(_ & ->)]; done.
Qed.

Lemma claimsOk_reachable c : reachable c → claimsOk c.
Proof.
  intros Hr. unfold reachable in Hr. remember initConf as c0 eqn:Hc0.
  assert (claimsOk c0) as Hok.
  { subst. split; [|done]. intros tid eid k. unfold claimsOf. simpl. rewrite !lookup_empty. set_solver. }
  clear Hc0. induction Hr; eauto using claimsOk_step.
Qed.

(** C25. The claim index is consistent in every reachable configuration: a unique
    key value is listed among the claims of an entity exactly when the index names
    that entity as its holder, under the key's own tenant.  So a key value has at
    most one holder, releasing an entity's listed claims releases all it holds, and
    releasing the claims of one tenant's entity never frees another tenant's. *)
Theorem claims_index_consistent c : reachable c → claimsInv (fac (c_mem c)).
Proof. intros Hr. apply claimsOk_reachable, Hr. Qed.

(** Unique keys across a commit.  After a successful commit, an entity holds a
    key value exactly when the transaction buffered it and its payload yields that
    value under the unique keys recorded with its save, or it held the value before
    and the transaction neither wrote nor deleted it.  This does not depend on the
    order in which the buffered entities are flushed. *)
Theorem commit_claims ctx txID clock1 clock2 s s' tx :
  Commit ctx txID clock1 clock2 s = (Ret tt, s') → heap s !! txID = Some tx → claimsInv (fac s) →
  claimsInv (fac s') ∧
  ∀ k h, uniqueClaims (fac s') !! k = Some h ↔
    (∃ e cs, Buffer tx !! h = Some e ∧
       ComputeClaims (default [] (default ∅ (txUniqueKeys (tm s) !! txID) !! h)) (Data e) = inr cs ∧
       k ∈ entityClaimKeys (tx_TenantID tx) e cs) ∨
    (uniqueClaims (fac s) !! k = Some h ∧
     ¬ (ck_tenant k = tx_TenantID tx ∧ (h ∈ Deletes tx ∨ h ∈ dom (Buffer tx)))).
Proof.
  intros Hrun Htx Hinv. destruct (Commit_run _ _ _ _ _ _ _ Hrun)
    as [(e & ? & _)|[(w & ?)|(_ & tx' & comp & t & s2 & Htx' & _ & _ & Hv & Hfin & ->)]]; [done..|].
  simplify_eq. destruct (validateClaims_validated _ _ _ _ _ Hv) as [Hval Hcomp]. simpl in Hcomp.
  apply commitFinish_claims in Hfin as [Hinv' Hl]; [|done..]. split; [done|].
  intros k h. simpl. rewrite Hl. apply or_iff_compat_r. unfold newKeys. split.
  - destruct (Buffer tx !! h) as [e|] eqn:He; [|by intros ?%not_elem_of_nil].
    destruct (Hcomp h e He) as (cs & Hcs & ->). eauto.
  - intros (e & cs & He & Hcs & Hk). rewrite He. destruct (Hcomp h e He) as (cs' & Hcs' & ->).
    rewrite Hcs in Hcs'. by injection Hcs' as <-.
Qed.
End Claims.

(** ** Witnesses *)

Definition keyedSave (p id data : string) : action :=
  ATx (Sample.keyed "t") p (OpSave "t" (Sample.entity id data) 0).

(** [e1] holds the value "x"; then one transaction deletes it and gives "x" to [e2]. *)
Definition sampleKeyed : list action :=
  [ABegin (Sample.ctx "t") "A" 10; keyedSave "A" "e1" "x";
   APrepare (Sample.ctx "t") "A"; AStamp "A" 20; AFinish (Sample.ctx "t") 20;
   ABegin (Sample.ctx "t") "B" 30; ATx (Sample.ctx "t") "B" (OpDelete "t" "e1" 0); keyedSave "B" "e2" "x"].

Lemma claims_index_consistent_witness :
  uniqueClaims (fac (c_mem (confOf sampleKeyed))) !! mkClaimKey "t" "order" "1" "k" "x" = Some "e1" ∧
  claimsInv (fac (c_mem (confOf sampleKeyed))).
Proof.
  split; [by_eval|].
  apply (@claims_index_consistent Sample.spi), (acts_reachable (H:=Sample.spi) sampleKeyed). by_eval.
Defined.

Lemma commit_claims_witness :
  let s := c_mem (confOf sampleKeyed) in
  let s' := (Commit (H:=Sample.spi) (Sample.ctx "t") "B" 40 40 s).2 in
  uniqueClaims (fac s') !! mkClaimKey "t" "order" "1" "k" "x" = Some "e2".
Proof.
  apply (@commit_claims Sample.spi (Sample.ctx "t") "B" 40 40 (c_mem (confOf sampleKeyed))
    (Commit (H:=Sample.spi) (Sample.ctx "t") "B" 40 40 (c_mem (confOf sampleKeyed))).2
    (sampleTx sampleKeyed "B")); [by_eval|by_eval| |].
  - refine (proj1 (claimsOk_reachable (H:=Sample.spi) (confOf sampleKeyed) _)).
    apply (acts_reachable (H:=Sample.spi) sampleKeyed). by_eval.
  - left. exists (ent_set_TransactionID "B" (Sample.entity "e2" "x")), [mkUniqueClaim "k" "x"].
    split_and!; by_eval.
Defined.
