(* ===== verification/MemHistory.v ===== *)
(** * Memory plugin: version history

    Every entity's live rows are numbered 1, 2, 3, ... in every reachable
    configuration; the transaction index leads from a committed transaction to the
    first version it wrote; answers about the past do not change; the metadata
    listing is complete, ordered and bounded. *)

From stdpp Require Import base gmap strings list fin_maps sorting.
From S2P Require Import Prelude Spi MemState MemTx MemEntity MemSched MemFrame MemSI MemIsolation MemCommit MemWf.

(** ** Numbering *)

Definition liveEntity (v : entityVersion) : option Entity := if ev_deleted v then None else ev_entity v.
Definition liveEntities (versions : list entityVersion) : list Entity := omap liveEntity versions.

(** The i-th live row (from 0) carries version i + 1. *)
Definition numbered (versions : list entityVersion) : Prop :=
  ∀ i e, liveEntities versions !! i = Some e → m_Version (Meta e) = (Z.of_nat i + 1)%Z.

Definition historyNumbered (f : StoreFactory) : Prop := ∀ tid eid, numbered (versionsOf f tid eid).

Lemma liveEntities_app l l' : liveEntities (l ++ l') = liveEntities l ++ liveEntities l'.
Proof. apply omap_app. Qed.

Lemma lastLive_snoc v l :
  lastLive (reverse (l ++ [v])) = match liveEntity v with Some e => Some e | None => lastLive (reverse l) end.
Proof. rewrite reverse_snoc. simpl. unfold liveEntity. by destruct (ev_deleted v), (ev_entity v). Qed.

Lemma lastLive_last l : lastLive (reverse l) = last (liveEntities l).
Proof.
  induction l as [|v l IH] using rev_ind; [done|].
  rewrite lastLive_snoc, liveEntities_app. unfold liveEntities at 1. simpl.
  destruct (liveEntity v) as [e|]; simpl; [by rewrite last_snoc|]. by rewrite app_nil_r.
Qed.

Lemma numbered_base l : numbered l → baseVersion l = Z.of_nat (length (liveEntities l)).
Proof.
  intros Hn. unfold baseVersion. rewrite lastLive_last, last_lookup.
  destruct (liveEntities l !! pred (length (liveEntities l))) as [e|] eqn:He.
  - rewrite (Hn _ _ He). apply lookup_lt_Some in He. lia.
  - apply lookup_ge_None in He. lia.
Qed.

Lemma numbered_app l l' :
  numbered l → (∀ i e, liveEntities l' !! i = Some e → m_Version (Meta e) = (baseVersion l + Z.of_nat i + 1)%Z) →
  numbered (l ++ l').
Proof.
  intros Hn Hl i e. rewrite liveEntities_app, lookup_app. destruct (liveEntities l !! i) as [x|] eqn:Hx.
  - intros [= <-]. by apply Hn.
  - intros He. rewrite (Hl _ _ He), numbered_base by done. apply lookup_ge_None in Hx. lia.
Qed.

Lemma liveEntities_rowsOf tid txID t cd es base hp i e :
  liveEntities (rowsOf tid txID t cd es base hp) !! i = Some e → m_Version (Meta e) = (base + Z.of_nat i + 1)%Z.
Proof.
  revert base hp i. induction es as [|x es IH]; intros base hp i; [done|].
  destruct i as [|i]; simpl.
  - intros [= <-]. simpl. lia.
  - intros Hi. rewrite (IH _ _ _ Hi). lia.
Qed.

Lemma numbered_bufferRows tid txID t cap eid e l : numbered l → numbered (l ++ bufferRows tid txID t cap eid e l).
Proof. intros Hn. apply numbered_app; [done|]. intros i x. apply liveEntities_rowsOf. Qed.

Lemma numbered_dead l v : numbered l → liveEntity v = None → numbered (l ++ [v]).
Proof.
  intros Hn Hv. apply numbered_app; [done|]. intros i e. unfold liveEntities; simpl. by rewrite Hv.
Qed.

Lemma numbered_live l v e :
  numbered l → liveEntity v = Some e → m_Version (Meta e) = (baseVersion l + 1)%Z → numbered (l ++ [v]).
Proof.
  intros Hn Hv Hver. apply numbered_app; [done|]. intros [|i] x; unfold liveEntities; simpl; rewrite Hv; simpl;
    [|done]. intros [= <-]. rewrite Hver. lia.
Qed.

Lemma lastUndeleted_lastLive l :
  Forall row_wf l → lastUndeleted (reverse l) ≫= ev_entity = lastLive (reverse l) ∧
  (∀ v, lastUndeleted (reverse l) = Some v → is_Some (ev_entity v)).
Proof.
  induction l as [|v l IH] using rev_ind; [done|]. intros [Hl Hv]%Forall_app.
  apply Forall_cons in Hv as [Hv _]. destruct (IH Hl) as [IH1 IH2]. rewrite lastLive_snoc, reverse_snoc. simpl.
  unfold liveEntity, row_wf in *. destruct (ev_deleted v) eqn:Hd; [done|].
  destruct (proj1 Hv eq_refl) as [e He]. rewrite He. split; [done|]. intros v' [= <-]. rewrite He. eauto.
Qed.

(** ** Every step keeps the numbering *)

Definition goodRows (f : StoreFactory) : Prop :=
  ∀ tid eid, Forall row_wf (versionsOf f tid eid) ∧ numbered (versionsOf f tid eid).
Definition goodRel (s s' : Mem) : Prop := goodRows (fac s) → goodRows (fac s').
#[export] Instance goodRel_preorder : PreOrder goodRel.
Proof. split; [intros s Hi; exact Hi|intros s1 s2 s3 H12 H23 Hi; exact (H23 (H12 Hi))]. Qed.

Lemma goodRows_ext f f' :
  (∀ tid eid, versionsOf f' tid eid = versionsOf f tid eid) → goodRows f → goodRows f'.
Proof. intros He Hg tid eid. rewrite He. apply Hg. Qed.

Lemma goodRows_append f tid eid v :
  goodRows f → row_wf v → numbered (versionsOf f tid eid ++ [v]) →
  goodRows (setVersions tid eid (versionsOf f tid eid ++ [v]) f).
Proof.
  intros Hg Hv Hn tid' eid'. rewrite versionsOf_setVersions. case_decide as Hd; [|apply Hg].
  split; [|done]. apply Forall_app. split; [apply Hg|by constructor].
Qed.

Lemma good_bookkeeping g :
  (∀ f tid eid, versionsOf (g f) tid eid = versionsOf f tid eid) → stable goodRel (mod_fac g).
Proof. intros Hg. apply stable_modify. intros s Hs. apply (goodRows_ext (fac s)); [|done]. intros tid eid. apply Hg. Qed.

Lemma good_tombstone `{SPI} tid eid ctx n t : stable goodRel (appendVersion tid eid (tombstone ctx n t)).
Proof.
  apply stable_modify. intros s Hg. apply goodRows_append; [done|apply row_wf_dead|].
  apply numbered_dead; [apply Hg|done].
Qed.

Lemma good_nextSubmitTime clock : stable goodRel (nextSubmitTime clock).
Proof. intros s Hg. by destruct (nextSubmitTime_run clock s) as (now & _ & _ & ->). Qed.

Section History.
Context `{SPI}.

Lemma good_saveUnlocked tid ctx e clock : stable goodRel (saveUnlocked tid ctx e clock).
Proof.
  intros s Hg. unfold saveUnlocked. destruct (ComputeClaims _ _) as [er|cs]; mrun; [done|].
  case_if Hex; [done|]. set (eid := m_ID (Meta e)). set (vs := versionsOf (fac s) tid eid).
  destruct (Hg tid eid) as [Hwf Hn]. fold vs in Hwf, Hn.
  destruct (lastUndeleted_lastLive vs Hwf) as [Hll Hsome].
  assert (∀ n md x k u uk ex mods st cd tr, n = (baseVersion vs + 1)%Z →
    goodRows (insertClaims eid tid (EntityName (m_ModelRef (Meta e))) (ModelVersion (m_ModelRef (Meta e))) cs
      (releaseClaims tid eid (recordTxIndex tid eid (m_TransactionID (Meta e)) n
        (setVersions tid eid (vs ++ [mkEV (Some (mkEntity
           (mkMeta eid tid (m_ModelRef (Meta e)) st n cd md x k u uk ex tr) (Data e))) n x md false k u uk mods])
           (fac s)))))) as Hfin.
  { intros n md x k u uk ex mods st cd tr Hver. eapply goodRows_ext.
    { intros tid' eid'. by rewrite versionsOf_insertClaims, versionsOf_releaseClaims, versionsOf_recordTxIndex. }
    apply goodRows_append; [done|apply row_wf_live|]. by eapply numbered_live. }
  unfold baseVersion in Hfin. rewrite <- Hll in Hfin.
  destruct (lastUndeleted (reverse vs)) as [v|]; simpl in Hfin;
    [destruct (Hsome v eq_refl) as [ev Hev]; rewrite Hev in *|]; mrun;
    unfold nextSubmitTime, mod_tm, appendVersion, mod_fac; mrun; simpl; fold eid; fold vs;
    (destruct vs as [|v0 vs'] eqn:Hvs; [|destruct (ev_entity v0)]); mrun; simpl; fold eid;
    try apply Hg; replace (versionsOf (fac s) tid eid) with vs by done; rewrite Hvs; by apply Hfin.
Qed.

#[local] Hint Resolve good_saveUnlocked good_nextSubmitTime good_tombstone : stable.
#[local] Hint Extern 2 (stable goodRel (mod_fac (releaseClaims _ _))) => by apply good_bookkeeping : stable.

Lemma good_direct ctx op clock : ctx_tx ctx = None → stable goodRel (runDirect ctx op clock).
Proof.
  intros Hctx. destruct op; unfold runDirect, ignore, Save, CompareAndSave, Delete, DeleteAll;
    rewrite Hctx; solve_stable.
Qed.

Lemma good_finish ctx txID clock tx cap comp t s s' :
  dom (Buffer tx) ## Deletes tx → commitFinish ctx txID clock tx cap comp t s = (Ret tt, s') →
  historyNumbered (fac s) → historyNumbered (fac s').
Proof.
  intros Hdisj. unfold commitFinish. intros ([] & s1 & Hfl & Hrec)%bind_Ret Hn.
  pose proof (commitFlush_run _ _ _ _ _ _ _ _ _ _ _ (Permutation_refl _) (Permutation_refl _) Hdisj Hfl) as Hrows.
  unfold commitRecord in Hrec. mrun_in Hrec. injection Hrec as <-. simpl.
  intros tid eid. rewrite Hrows. unfold commitRows. case_decide; [|by rewrite app_nil_r].
  destruct (Buffer tx !! eid); [by apply numbered_bufferRows|]. case_decide; [|by rewrite app_nil_r].
  by apply numbered_dead.
Qed.

Lemma numbered_step c c' :
  step c c' → SIInv c → memWf (c_mem c) → historyNumbered (fac (c_mem c)) → historyNumbered (fac (c_mem c')).
Proof.
  destruct 1 as [ctx T clock s s' r fl h Hn Hp Hrun|ctx p op s s' r fl h Hp Hrun
    |ctx op clock s s' r h Hctx Hrun|ctx T s s' r fl h Hrun|T clock s s' tx cap comp t h Hc Hrun
    |T clock s s' e h Hc Hrun|ctx clock s s' f h Hrun|ctx T s s' r fl h Hc Hrun];
    intros Hinv Hwf Hnum; simpl in *.
  - destruct (Begin_run _ _ _ _ _ _ Hrun) as [(e & _ & ->)|(_ & tid & org & now & _ & _ & ->)]; done.
  - destruct (stable_elim _ _ _ _ _ (runTxop_frame ctx p op) Hrun) as (<- & _). done.
  - assert (goodRows (fac s)) as Hg by (intros tid eid; split; [apply (inv_rows _ Hinv)|apply Hnum]).
    intros tid eid. by apply (stable_elim _ _ _ _ _ (good_direct ctx op clock Hctx) Hrun).
  - destruct (commitPrepare_run _ _ _ _ _ Hrun) as [[_ ->]|(_ & _ & _ & ->)]; done.
  - destruct (commitStamp_run _ _ _ _ _ Hrun)
      as [(? & ? & ? & _ & _ & _ & _ & _ & -> & _)|[(? & ? & _)|(? & ? & _)]]; done.
  - destruct (commitStamp_run _ _ _ _ _ Hrun)
      as [(? & ? & ? & ? & _)|[(? & _ & ->)|(? & ? & _)]]; done.
  - destruct (inv_flight _ Hinv f eq_refl) as (_ & Htx & _). destruct (wf_heap _ Hwf _ _ Htx) as [_ [Hd _ _ _]].
    by eapply good_finish.
  - destruct (Rollback_run _ _ _ _ _ Hrun) as [->|(_ & ->)]; done.
Qed.

Lemma numbered_reachable c : reachable c → historyNumbered (fac (c_mem c)).
Proof.
  intros Hr. assert (∀ a b, rtc step a b → SIInv a → memWf (c_mem a) → historyNumbered (fac (c_mem a)) →
    historyNumbered (fac (c_mem b))) as Hgo.
  { induction 1; eauto using numbered_step, SIInv_step, memWf_step. }
  apply (Hgo initConf c Hr); [apply SIInv_init|apply memWf_reachable, rtc_refl|].
  intros tid eid i e. done.
Qed.

(** ** The transaction index *)

Lemma txIndexOf_record tid eid txID v f tid' eid' :
  txID ≠ "" → txIndexOf (recordTxIndex tid eid txID v f) tid' eid' txID =
    if decide (tid' = tid ∧ eid' = eid)
    then Some (match txIndexOf f tid' eid' txID with Some x => Z.min x v | None => v end)
    else txIndexOf f tid' eid' txID.
Proof.
  intros Hne. unfold recordTxIndex, txIndexOf. rewrite decide_False by done.
  destruct (default ∅ (default ∅ (txIndex f !! tid) !! eid) !! txID) as [x|] eqn:Hx.
  - case_decide as Hle; simpl.
    + case_decide as Hd; [|done]. destruct Hd as [-> ->]. rewrite Hx. f_equal. lia.
    + case_decide as Hd; [destruct Hd as [-> ->]|].
      * rewrite lookup_insert_eq. simpl. rewrite lookup_insert_eq. simpl. rewrite lookup_insert_eq, Hx. f_equal. lia.
      * destruct (decide (tid' = tid)) as [->|]; [|by rewrite lookup_insert_ne].
        rewrite lookup_insert_eq. simpl. rewrite lookup_insert_ne; [done|naive_solver].
  - simpl. case_decide as Hd; [destruct Hd as [-> ->]|].
    + rewrite lookup_insert_eq. simpl. rewrite lookup_insert_eq. simpl. by rewrite lookup_insert_eq, Hx.
    + destruct (decide (tid' = tid)) as [->|]; [|by rewrite lookup_insert_ne].
      rewrite lookup_insert_eq. simpl. rewrite lookup_insert_ne; [done|naive_solver].
Qed.

Definition sameIndex (s s' : Mem) : Prop := txIndex (fac s') = txIndex (fac s).
#[export] Instance sameIndex_preorder : PreOrder sameIndex.
Proof. split; repeat intro; unfold sameIndex in *; congruence. Qed.

Lemma flushRows_index tid eid txID t cd staged base hp :
  stable sameIndex (flushRows tid eid txID t cd staged base hp).
Proof.
  revert base hp. induction staged as [|[e|] staged IH]; intros base hp; cbn [flushRows]; solve_stable.
  by apply stable_modify.
Qed.

Lemma flushEntity_view tid txID t cap comp eid e s s' tid' eid' :
  txID ≠ "" → flushEntity tid txID t (cap_superseded cap) comp eid e s = (Ret tt, s') →
  (versionsOf (fac s') tid' eid', txIndexOf (fac s') tid' eid' txID) =
    if decide (tid' = tid ∧ eid' = eid)
    then let vs := versionsOf (fac s) tid' eid' in
         (vs ++ bufferRows tid txID t cap eid e vs,
          Some (match txIndexOf (fac s) tid' eid' txID with
                | Some x => Z.min x (baseVersion vs + 1) | None => (baseVersion vs + 1)%Z end))
    else (versionsOf (fac s) tid' eid', txIndexOf (fac s) tid' eid' txID).
Proof.
  intros Hne Hrun. destruct (flushEntity_run _ _ _ _ _ _ _ _ _ Hrun) as (_ & _ & _ & Ha).
  rewrite Ha. unfold flushEntity in Hrun. mrun_in Hrun. apply bind_Ret in Hrun as ([] & s1 & Hfl & Hrest).
  pose proof (stable_elim _ _ _ _ _ (flushRows_index _ _ _ _ _ _ _ _) Hfl) as Hidx.
  unfold mod_fac in Hrest. mrun_in Hrest. injection Hrest as <-. simpl.
  assert (∀ f, txIndexOf (insertClaims eid tid (EntityName (m_ModelRef (Meta e)))
    (ModelVersion (m_ModelRef (Meta e))) (default [] (comp !! eid)) f) tid' eid' txID = txIndexOf f tid' eid' txID)
    as Hins by (intros f; unfold insertClaims; by case_decide).
  rewrite Hins. change (txIndexOf (releaseClaims tid eid ?f) tid' eid' txID) with (txIndexOf f tid' eid' txID).
  rewrite txIndexOf_record by done. unfold txIndexOf at 1 2 in |- *. unfold sameIndex in Hidx. rewrite Hidx.
  case_decide as Hd; [|by rewrite app_nil_r]. by destruct Hd as [-> ->].
Qed.

Lemma foldl_release_index tid l f : txIndex (foldl (λ f e, releaseClaims tid e f) f l) = txIndex f.
Proof. revert f. induction l as [|e l IH]; intros f; simpl; [done|]. by rewrite IH. Qed.

Lemma commitFlush_index ctx txID t tx cap comp rel buf dels s s' eid e :
  buf ≡ₚ map_to_list (Buffer tx) → txID ≠ "" → Buffer tx !! eid = Some e →
  txIndexOf (fac s) (tx_TenantID tx) eid txID = None →
  commitFlush ctx (tx_TenantID tx) txID t tx cap comp rel buf dels s = (Ret tt, s') →
  txIndexOf (fac s') (tx_TenantID tx) eid txID = Some (baseVersion (versionsOf (fac s) (tx_TenantID tx) eid) + 1)%Z.
Proof.
  intros Hbuf Hne He Hnone. unfold commitFlush. rewrite run_bind, forM_mod_fac.
  intros ([] & s1 & H1 & H2)%bind_Ret.
  apply (forM_view (tx_TenantID tx) (λ s tid eid, (versionsOf (fac s) tid eid, txIndexOf (fac s) tid eid txID)) fst _
    (λ p x, (x.1 ++ bufferRows (tx_TenantID tx) txID t cap p.1 p.2 x.1,
             Some (match x.2 with Some y => Z.min y (baseVersion x.1 + 1) | None => (baseVersion x.1 + 1)%Z end))))
    in H1 as [Hin _]; cycle 1.
  { intros [eid' e'] sa sb _ Hrun tid' eid''. by eapply flushEntity_view. }
  { rewrite Hbuf. apply NoDup_fst_map_to_list. }
  specialize (Hin (eid, e) ltac:(by rewrite Hbuf, elem_of_map_to_list)). simpl in Hin.
  injection Hin as _ Hidx.
  assert (∀ f, versionsOf (foldl (λ f e, releaseClaims (tx_TenantID tx) e f) f rel) (tx_TenantID tx) eid =
    versionsOf f (tx_TenantID tx) eid) as Hv.
  { intros f. by apply (versionsOf_foldl (λ e, releaseClaims (tx_TenantID tx) e)). }
  rewrite Hv in Hidx. unfold txIndexOf in Hidx at 2. rewrite foldl_release_index in Hidx.
  unfold txIndexOf in Hnone. rewrite Hnone in Hidx.
  assert (stable sameIndex (forM dels (flushDelete ctx (tx_TenantID tx) txID t (DeleteAttribution tx));;
    forM (cap_ops cap) (λ op, mod_fac (fac_set_scheduledTasks (applyScheduledTaskOp op))))) as Hst.
  { unfold flushDelete. solve_stable; by apply stable_modify. }
  pose proof (stable_elim _ _ _ _ _ Hst H2) as E. unfold sameIndex in E. unfold txIndexOf in *. by rewrite E.
Qed.

Lemma findVersion_app n l l' :
  (∀ e, e ∈ liveEntities l → m_Version (Meta e) ≠ n) → findVersion n (l ++ l') = findVersion n l'.
Proof.
  induction l as [|v l IH]; intros Hne; [done|]. simpl. unfold liveEntities, liveEntity in *. simpl in Hne.
  destruct (ev_deleted v); [by apply IH|]. destruct (ev_entity v) as [e|]; [|by apply IH]. simpl in Hne.
  rewrite decide_False by (apply Hne; set_solver). apply IH. set_solver.
Qed.

Lemma numbered_le l e : numbered l → e ∈ liveEntities l → (m_Version (Meta e) ≤ baseVersion l)%Z.
Proof.
  intros Hn (i & Hi)%list_elem_of_lookup. rewrite (Hn _ _ Hi), numbered_base by done.
  apply lookup_lt_Some in Hi. lia.
Qed.

(** In every reachable configuration the live versions of every entity are
    numbered 1, 2, 3, ... without gaps or repetitions, whatever mixture of
    transactional and direct writes and deletes produced them. *)
Theorem versions_numbered c tid eid : reachable c → numbered (versionsOf (fac (c_mem c)) tid eid).
Proof. intros Hr. by apply numbered_reachable. Qed.

(** From a transaction to what it wrote: after a commit,
    [GetVersionByTransaction] finds, for every entity the transaction buffered, the
    first version the transaction wrote, numbered next after the last live one,
    with the payload of the first save. *)
Theorem version_by_transaction ctx txID clock1 clock2 s s' tx eid e e1 es :
  Commit ctx txID clock1 clock2 s = (Ret tt, s') → heap s !! txID = Some tx → txID ≠ "" →
  dom (Buffer tx) ## Deletes tx → Buffer tx !! eid = Some e →
  stagedValues (capturedOf (tm s) txID) eid e = Some (e1 :: es) →
  txIndexOf (fac s) (tx_TenantID tx) eid txID = None →
  numbered (versionsOf (fac s) (tx_TenantID tx) eid) →
  ∃ v, GetVersionByTransaction (tx_TenantID tx) eid txID s' = (Ret v, s') ∧
    v_Version v = (baseVersion (versionsOf (fac s) (tx_TenantID tx) eid) + 1)%Z ∧
    Data (v_Entity v) = Data e1 ∧ m_TransactionID (Meta (v_Entity v)) = txID.
Proof.
  intros Hrun Htx Hne Hdisj He Hst Hnone Hn. destruct (Commit_run _ _ _ _ _ _ _ Hrun)
    as [(er & ? & _)|[(w & ?)|(_ & tx' & comp & t & s2 & Htx' & _ & _ & _ & Hfin & ->)]]; [done..|].
  simplify_eq. unfold commitFinish in Hfin. apply bind_Ret in Hfin as ([] & s1 & Hfl & Hrec).
  pose proof (commitFlush_run _ _ _ _ _ _ _ _ _ _ _ (Permutation_refl _) (Permutation_refl _) Hdisj Hfl) as Hrows.
  pose proof Hfl as Hidx. eapply commitFlush_index in Hidx; [|done..].
  unfold commitRecord in Hrec. mrun_in Hrec. injection Hrec as <-. simpl in *.
  unfold GetVersionByTransaction. rewrite decide_False by done. mrun. simpl. rewrite Hidx.
  rewrite Hrows. unfold commitRows. rewrite decide_True, He by done. unfold bufferRows. rewrite Hst.
  rewrite findVersion_app.
  - simpl. rewrite decide_True by done. mrun. eexists. split; [done|]. simpl. done.
  - intros x Hx. pose proof (numbered_le _ _ Hn Hx). lia.
Qed.

(** The past does not change: for an instant at or before the clock floor of a
    point at which no commit is in flight, [GetAsAt] outside a transaction gives the
    same answer at every later point. *)
Theorem past_reads_stable c c' ctx tid eid t :
  reachable c → c_flight c = None → rtc step c c' → (t ≤ lastSubmitTime (tm (c_mem c)))%Z →
  ctx_tx ctx = None →
  (GetAsAt tid ctx eid t (c_mem c')).1 = (GetAsAt tid ctx eid t (c_mem c)).1.
Proof.
  intros Hr Hf Hrtc Ht Hctx. destruct (rtc_advances t _ _ Hrtc) as (Hext & _ & _).
  { split; [done|]. by rewrite Hf. }
  assert (∀ m, (GetAsAt tid ctx eid t m).1 =
    match getSnapshotVersion tid (fac m) eid t with inl er => Err er | inr en => Ret en end) as Hga.
  { intros m. unfold GetAsAt, getSnapshotVersion. rewrite Hctx. mrun.
    destruct (versionsOf (fac m) tid eid); [done|]. by destruct (walkVersions _ _ _ _).1. }
  rewrite !Hga. by rewrite (getSnapshotVersion_ext t _ (fac (c_mem c)) (fac (c_mem c'))).
Qed.

(** [GetVersionMetadata] fails exactly on an entity without history; otherwise
    it lists rows of the requested window newest first (ties by version number), all
    of them when no limit is set, and with a limit the newest ones up to it. *)
Theorem version_metadata_listing tid eid opts s :
  let vs := versionsOf (fac s) tid eid in
  let window := versionMeta <$> filter (λ v, inWindow opts v) vs in
  (vs = [] → GetVersionMetadata tid eid opts s = (Err ErrNotFound, s)) ∧
  (vs ≠ [] → ∃ sorted, sorted ≡ₚ window ∧ StronglySorted newer sorted ∧
     GetVersionMetadata tid eid opts s =
       (Ret (if decide (0 < Limit opts)%Z then take (Z.to_nat (Limit opts)) sorted else sorted), s)).
Proof.
  unfold GetVersionMetadata. mrun. split; [by intros ->|]. intros Hne.
  exists (merge_sort newer (versionMeta <$> filter (λ v, inWindow opts v) (versionsOf (fac s) tid eid))).
  assert (Total newer) by (intros a b; unfold newer; lia).
  assert (Transitive newer) by (intros a b c; unfold newer; lia).
  split_and!; [apply merge_sort_Permutation|by apply (StronglySorted_merge_sort newer)|].
  destruct (versionsOf (fac s) tid eid) as [|v vs] eqn:Hv; [done|]. rewrite <- Hv. mrun. do 2 f_equal.
  destruct (decide (0 < Limit opts)%Z).
  - case_decide; [done|]. rewrite take_ge; [done|]. lia.
  - rewrite decide_False by lia. done.
Qed.
End History.

(** ** Witnesses *)

Lemma versions_numbered_witness :
  length (versionsOf (fac (c_mem (confOf (sampleReader ++ sampleOverwrite)))) "t" "e1") = 2 ∧
  numbered (versionsOf (fac (c_mem (confOf (sampleReader ++ sampleOverwrite)))) "t" "e1").
Proof.
  split; [by_eval|]. apply (@versions_numbered Sample.spi).
  apply (acts_reachable (H:=Sample.spi) (sampleReader ++ sampleOverwrite)). by_eval.
Defined.

Lemma version_by_transaction_witness :
  let s := c_mem (confOf sampleBusy) in
  let s' := (Commit (H:=Sample.spi) (Sample.ctx "t") "B" 40 40 s).2 in
  ∃ v, GetVersionByTransaction "t" "e1" "B" s' = (Ret v, s') ∧ v_Version v = 2%Z ∧
    Data (v_Entity v) = "b1" ∧ m_TransactionID (Meta (v_Entity v)) = "B".
Proof.
  apply (@version_by_transaction Sample.spi (Sample.ctx "t") "B" 40 40 (c_mem (confOf sampleBusy)) _
    (sampleTx sampleBusy "B") "e1" (ent_set_TransactionID "B" (Sample.entity "e1" "b2"))
    (ent_set_TransactionID "B" (Sample.entity "e1" "b1")) [ent_set_TransactionID "B" (Sample.entity "e1" "b2")]);
    try by_eval.
  refine (numbered_reachable (H:=Sample.spi) (confOf sampleBusy) _ "t" "e1").
  apply (acts_reachable (H:=Sample.spi) sampleBusy). by_eval.
Defined.

Lemma past_reads_stable_witness :
  (GetAsAt "t" (Sample.ctx "t") "e1" 25 (c_mem (confOf (sampleReader ++ sampleOverwrite)))).1 =
  (GetAsAt "t" (Sample.ctx "t") "e1" 25 (c_mem (confOf sampleReader))).1.
Proof.
  apply (@past_reads_stable Sample.spi); try by_eval.
  - apply (acts_reachable (H:=Sample.spi) sampleReader). by_eval.
  - apply (acts_reachable (H:=Sample.spi) sampleOverwrite). by_eval.
Defined.
