(* ===== verification/MemSavepoint.v ===== *)
(** * Memory plugin: savepoints

    Rolling back to a savepoint undoes everything the transaction staged since,
    its superseded saves and scheduled-task operations included; and the
    situations in which the code departs from its contract: a stale savepoint, a
    commit racing a rollback, a staged task after the end of the transaction, a
    direct save over a history that begins with a tombstone. *)

From stdpp Require Import base gmap strings list fin_maps sorting.
From S2P Require Import Prelude Spi MemState MemTx MemEntity MemSched MemFrame MemSI MemIsolation MemCommit MemWf.

(** ** Slices that only grow *)

Definition slice_wf {A} (s : slice A) : Prop := sl_len s ≤ length (sl_back s).
#[export] Instance slice_wf_dec {A} (s : slice A) : Decision (slice_wf s) := le_dec _ _.
Definition sliceExt {A} (s s' : slice A) : Prop :=
  slice_wf s → slice_wf s' ∧ sl_len s ≤ sl_len s' ∧ take (sl_len s) (sl_back s') = slice_elems s.

#[export] Instance sliceExt_preorder A : PreOrder (@sliceExt A).
Proof.
  split; [intros s Hs; split_and!; done|].
  intros s1 s2 s3 H12 H23 H1. destruct (H12 H1) as (W2 & L2 & E2). destruct (H23 W2) as (W3 & L3 & E3).
  split_and!; [done|lia|]. rewrite <- E2. unfold slice_elems in *.
  apply (f_equal (take (sl_len s1))) in E3. rewrite !take_take in E3. by rewrite !Nat.min_l in E3 by lia.
Qed.

Lemma slice_append_ext {A} (z : A) spare s x : sliceExt s (slice_append z spare s x).
Proof.
  intros Hs. unfold slice_append, slice_wf, slice_elems in *. case_decide as Hd; simpl.
  - rewrite length_insert. split_and!; [lia..|]. by rewrite take_insert_ge.
  - rewrite length_app, length_take. simpl. split_and!; [lia..|].
    rewrite take_app_le by (rewrite length_take; lia). by rewrite take_take, Nat.min_id.
Qed.

Lemma slice_append_wf {A} (z : A) spare s x : slice_wf s → slice_wf (slice_append z spare s x).
Proof. intros Hs. by destruct (slice_append_ext z spare s x Hs). Qed.

(** ** What a transaction accumulates after a savepoint *)

Definition supOf (p : string) (s : Mem) : gmap string (slice (option Entity)) :=
  default ∅ (supersededSaves (tm s) !! p).
Definition opsOf (p : string) (s : Mem) : list scheduledTaskOp := default [] (scheduledTaskOps (tm s) !! p).
Definition savepointOf (p sp : string) (s : Mem) : option savepointSnapshot :=
  default ∅ (savepoints (tm s) !! p) !! sp.

Record grows (p sp : string) (s s' : Mem) : Prop := mkGrows {
  gr_sup : ∀ eid sl, supOf p s !! eid = Some sl → ∃ sl', supOf p s' !! eid = Some sl' ∧ sliceExt sl sl';
  gr_ops : ∃ more, opsOf p s' = opsOf p s ++ more;
  gr_savepoint : savepointOf p sp s' = savepointOf p sp s }.

#[export] Instance grows_preorder p sp : PreOrder (grows p sp).
Proof.
  split.
  - intros s. split; [|exists []; by rewrite app_nil_r|done]. intros eid sl Hsl. exists sl. by split.
  - intros s1 s2 s3 [A1 [m1 B1] C1] [A2 [m2 B2] C2]. split.
    + intros eid sl Hsl. destruct (A1 eid sl Hsl) as (sl2 & H2 & E2).
      destruct (A2 eid sl2 H2) as (sl3 & H3 & E3). exists sl3. split; [done|by etrans].
    + exists (m1 ++ m2). by rewrite B2, B1, app_assoc.
    + congruence.
Qed.

Lemma grows_tm p sp s s' :
  supersededSaves (tm s') = supersededSaves (tm s) → scheduledTaskOps (tm s') = scheduledTaskOps (tm s) →
  savepointOf p sp s' = savepointOf p sp s → grows p sp s s'.
Proof.
  intros E1 E2 E3. split; [|exists []; unfold opsOf; by rewrite E2, app_nil_r|done].
  intros eid sl. unfold supOf. rewrite E1. intros Hsl. exists sl. by split.
Qed.

Lemma grows_mod_tx p sp q f : stable (grows p sp) (mod_tx q f).
Proof. apply stable_modify. intros s. by apply grows_tm. Qed.
Lemma grows_recordUniqueKeys p sp q eid ks : stable (grows p sp) (recordUniqueKeys q eid ks).
Proof. apply stable_modify. intros s. by apply grows_tm. Qed.
Lemma grows_deref p sp q : stable (grows p sp) (deref q).
Proof. unfold deref. solve_stable. Qed.
Lemma grows_openTx p sp q : stable (grows p sp) (openTx q).
Proof. unfold openTx, deref. solve_stable. Qed.

Lemma grows_stageSuperseded `{SPI} p sp q eid prior : stable (grows p sp) (stageSuperseded q eid prior).
Proof.
  destruct prior as [e|]; [|apply stable_ret; apply _]. apply stable_modify. intros s.
  split; [|exists []; by rewrite app_nil_r|done].
  intros eid' sl. unfold supOf. simpl. destruct (decide (p = q)) as [->|Hq].
  - rewrite lookup_insert_eq. simpl. destruct (decide (eid' = eid)) as [->|].
    + intros Hsl. rewrite lookup_insert_eq, Hsl. eexists. split; [done|]. apply slice_append_ext.
    + intros Hsl. rewrite lookup_insert_ne by done. exists sl. by split.
  - intros Hsl. rewrite lookup_insert_ne by done. exists sl. by split.
Qed.

Lemma grows_stageScheduledTaskOp p sp q op : stable (grows p sp) (stageScheduledTaskOp q op).
Proof.
  apply stable_modify. intros s. split; [intros eid sl Hsl; exists sl; by split| |done].
  unfold opsOf. simpl. destruct (decide (p = q)) as [->|].
  - rewrite lookup_insert_eq. simpl. eauto.
  - rewrite lookup_insert_ne by done. exists []. by rewrite app_nil_r.
Qed.
#[export] Hint Resolve grows_mod_tx grows_recordUniqueKeys grows_deref grows_openTx grows_stageSuperseded
  grows_stageScheduledTaskOp : stable.

Section Savepoints.
Context `{SPI}.

(** The operations a client runs between a savepoint and the rollback to it. *)
Definition ordinary (sp : string) (op : txop) : bool :=
  match op with
  | OpSavepoint sp' | OpReleaseSavepoint sp' => bool_decide (sp' ≠ sp)
  | OpRollbackTo _ => false
  | _ => true
  end.

Definition runOps (ctx : Ctx) (p : string) (ops : list txop) (s : Mem) : Mem :=
  foldl (λ s op, (runTxop ctx p op s).2) s ops.

Lemma grows_Savepoint ctx p sp sp' : sp' ≠ sp → stable (grows p sp) (Savepoint ctx p sp').
Proof.
  intros Hne s. unfold Savepoint, deref, mod_tm. mrun. case_decide; [done|]. mrun.
  destruct (heap s !! p); mrun; [|done]. repeat (case_match; [done|]). mrun.
  apply grows_tm; [done..|]. unfold savepointOf. simpl. rewrite lookup_insert_eq. simpl.
  by rewrite lookup_insert_ne.
Qed.

Lemma grows_Release ctx p sp sp' : sp' ≠ sp → stable (grows p sp) (ReleaseSavepoint ctx p sp').
Proof.
  intros Hne s. unfold ReleaseSavepoint, deref, mod_tm. mrun. case_decide; [done|]. mrun.
  destruct (heap s !! p); mrun; [|done]. case_match; [done|].
  destruct (savepoints (tm s) !! p) as [sps|] eqn:Hsps; [|done]. case_decide; [done|]. mrun.
  apply grows_tm; [done..|]. unfold savepointOf. simpl. rewrite lookup_insert_eq, Hsps. simpl.
  by rewrite lookup_delete_ne.
Qed.

Lemma grows_txop ctx p sp op : ordinary sp op = true → stable (grows p sp) (runTxop ctx p op).
Proof.
  intros Hord. destruct op; simpl in Hord; try done; try apply bool_decide_eq_true in Hord;
    unfold runTxop, ignore; (apply stable_bind; [apply _| |intros; stable_leaf]);
    auto using grows_Savepoint, grows_Release;
    unfold Save, CompareAndSave, bufferWrite, Get, GetAsAt, Exists, Delete, DeleteAll, Count, CountByState, GetPage,
      SchedStore.Upsert, SchedStore.DeleteTask, SchedStore.ReconcileForEntity, SchedStore.stage;
    cbn [ctx_tx WithTransaction]; solve_stable.
Qed.

Lemma runOps_grows ctx p sp ops s :
  forallb (ordinary sp) ops = true → grows p sp s (runOps ctx p ops s) ∧ txFrame p s (runOps ctx p ops s).
Proof.
  revert s. induction ops as [|op ops IH]; intros s; simpl; [done|]. intros [Ho Hops]%andb_true_iff.
  destruct (IH (runTxop ctx p op s).2 Hops) as [Hg Hf]. split.
  - etrans; [|exact Hg]. by apply grows_txop.
  - etrans; [|exact Hf]. apply runTxop_frame.
Qed.

(** Truncation succeeds when every recorded length is within capacity. *)
Lemma truncateSuperseded_spec lens cur :
  (∀ eid sl l, cur !! eid = Some sl → lens !! eid = Some l → l ≤ length (sl_back sl)) →
  ∃ out, truncateSuperseded lens cur = Some out ∧
    ∀ eid, out !! eid = match cur !! eid, lens !! eid with
                        | Some sl, Some l => Some (mkSlice (sl_back sl) l) | _, _ => None end.
Proof.
  unfold truncateSuperseded. induction cur as [|eid sl cur Hnone Hfirst IH] using map_first_key_ind; intros Hle.
  { exists ∅. rewrite map_fold_empty. split; [done|]. intros eid. by rewrite !lookup_empty. }
  rewrite map_fold_insert_first_key by done.
  destruct IH as (out & -> & Hout).
  { intros eid' sl' l Hc. apply Hle. rewrite lookup_insert_ne; [done|congruence]. }
  specialize (Hle eid sl). rewrite lookup_insert_eq in Hle.
  assert (∀ eid', eid' ≠ eid → out !! eid' = match (<[eid:=sl]> cur) !! eid', lens !! eid' with
    | Some sl, Some l => Some (mkSlice (sl_back sl) l) | _, _ => None end) as Hoth.
  { intros eid' Hne. by rewrite Hout, lookup_insert_ne. }
  destruct (lens !! eid) as [l|] eqn:Hl.
  - unfold slice_reslice. rewrite decide_True by (by apply Hle). eexists. split; [done|].
    intros eid'. destruct (decide (eid' = eid)) as [->|]; [by rewrite !lookup_insert_eq, Hl|].
    rewrite (lookup_insert_ne out) by done. by apply Hoth.
  - exists out. split; [done|]. intros eid'. destruct (decide (eid' = eid)) as [->|]; [|by apply Hoth].
    by rewrite Hout, Hnone, lookup_insert_eq, Hl.
Qed.

(** The snapshot a savepoint records. *)
Definition snapOf (p : string) (s : Mem) (tx : TransactionState) : savepointSnapshot :=
  mkSnap (copyEntity <$> Buffer tx) (ReadSet tx) (WriteSet tx) (Deletes tx) (DeleteAttribution tx)
    (length (opsOf p s)) (sl_len <$> supOf p s).

(** A transaction the manager's gates let through. *)
Record gated (ctx : Ctx) (p : string) (s : Mem) (tx : TransactionState) : Prop := mkGated {
  gt_active : p ∈ active (tm s);
  gt_heap : heap s !! p = Some tx;
  gt_tenant : tenantMismatch ctx (tx_TenantID tx) = false;
  gt_open : RolledBack tx = false ∧ Closed tx = false }.

Lemma Savepoint_run ctx p sp s r s0 :
  Savepoint ctx p sp s = (Ret r, s0) → ∃ tx, gated ctx p s tx ∧ r = sp ∧
    s0 = mem_set_tm (tm_set_savepoints (λ m, <[p := <[sp := snapOf p s tx]> (default ∅ (m !! p))]> m)) s.
Proof.
  unfold Savepoint, deref, mod_tm. mrun. case_decide; [done|]. mrun.
  destruct (heap s !! p) as [tx|] eqn:Htx; mrun; [|done].
  destruct (tenantMismatch _ _) eqn:Hten; [done|]. destruct (RolledBack tx) eqn:Hrb; [done|].
  destruct (Closed tx) eqn:Hcl; [done|]. mrun. intros [= <- <-]. exists tx. by split_and!.
Qed.

Lemma gated_frame ctx p s s' tx :
  txFrame p s s' → gated ctx p s tx → ∃ tx', gated ctx p s' tx' ∧ sameTx tx tx'.
Proof.
  intros (_ & Hcore & _ & Hsame) [Ha Hh Ht [Hr Hc]]. rewrite Hh in Hsame.
  inversion Hsame as [? tx' Hs E1 E2|]; subst. exists tx'. split; [|done].
  pose proof Hs as (_ & Eten & _ & _ & Er & Ec). split; [|done|congruence|split; congruence].
  by destruct Hcore as (<- & _).
Qed.

(** The state a rollback to a recorded snapshot restores. *)
Lemma Rollback_restores ctx p sp s tx snap :
  gated ctx p s tx → savepointOf p sp s = Some snap →
  sp_scheduledTaskOpsLen snap ≤ length (opsOf p s) →
  (∀ eid sl l, supOf p s !! eid = Some sl → sp_supersededLens snap !! eid = Some l → l ≤ length (sl_back sl)) →
  ∃ s' tx', RollbackToSavepoint ctx p sp s = (Ret tt, s') ∧ heap s' !! p = Some tx' ∧
    Buffer tx' = sp_buffer snap ∧ ReadSet tx' = sp_readSet snap ∧ WriteSet tx' = sp_writeSet snap ∧
    Deletes tx' = sp_deletes snap ∧ DeleteAttribution tx' = sp_deleteAttribution snap ∧
    opsOf p s' = take (sp_scheduledTaskOpsLen snap) (opsOf p s) ∧
    (∀ eid, supOf p s' !! eid = match supOf p s !! eid, sp_supersededLens snap !! eid with
                                | Some sl, Some l => Some (mkSlice (sl_back sl) l) | _, _ => None end) ∧
    savepointOf p sp s' = None.
Proof.
  intros [Ha Hh Ht [Hr Hc]] Hsp Hlen Hle. unfold savepointOf in Hsp.
  destruct (savepoints (tm s) !! p) as [sps|] eqn:Hsps; [|done]. simpl in Hsp.
  unfold RollbackToSavepoint, deref, mod_tx, mod_tm. mrun. rewrite decide_False by (intros ?; done). simpl. mrun.
  rewrite Hh. mrun. rewrite Ht, Hr, Hc, Hsps, Hsp. mrun.
  destruct (truncateSuperseded_spec (sp_supersededLens snap) (supOf p s) Hle) as (out & Hout & Hl).
  set (ops := default [] (scheduledTaskOps (tm s) !! p)).
  assert (opsOf p s = ops) as Hops by done. rewrite Hops in *.
  assert (supersededSaves (tm s) !! p = None → out = ∅) as Hnone.
  { intros Hn. apply map_eq. intros eid. rewrite Hl. unfold supOf. rewrite Hn. simpl. by rewrite !lookup_empty. }
  unfold supOf in Hout. clear Hle.
  case_decide as Hd; mrun;
    (destruct (supersededSaves (tm s) !! p) as [cur|] eqn:Hcur; simpl in Hout; [rewrite Hout|]; mrun).
  all: do 2 eexists; split; [done|]; split; [simpl; by rewrite lookup_alter_eq, Hh|].
  all: unfold opsOf, supOf, savepointOf; simpl; rewrite ?lookup_insert_eq, ?Hcur; simpl;
    rewrite ?lookup_delete_eq; split_and!; try done.
  all: try (fold ops; rewrite take_ge by lia; done).
  all: unfold supOf in Hl; rewrite Hcur in Hl; simpl in Hl; intros eid; rewrite <- Hl; try done.
  all: by rewrite Hnone.
Qed.

(** A savepoint is a faithful undo point.  After a savepoint, whatever saves,
    deletes, reads, counts, pages, scheduled-task operations and other savepoints
    the transaction makes, rolling back to it succeeds and restores the buffer, the
    read, write and delete sets, the delete attributions, the staged scheduled-task
    operations and, for every entity, the superseded values staged for the version
    history; the savepoint is consumed. *)
Theorem savepoint_roundtrip ctx p sp s s0 ops tx :
  Savepoint ctx p sp s = (Ret sp, s0) → heap s !! p = Some tx →
  (∀ eid sl, supOf p s !! eid = Some sl → slice_wf sl) → forallb (ordinary sp) ops = true →
  ∃ s' tx', RollbackToSavepoint ctx p sp (runOps ctx p ops s0) = (Ret tt, s') ∧ heap s' !! p = Some tx' ∧
    Buffer tx' = Buffer tx ∧ ReadSet tx' = ReadSet tx ∧ WriteSet tx' = WriteSet tx ∧
    Deletes tx' = Deletes tx ∧ DeleteAttribution tx' = DeleteAttribution tx ∧ opsOf p s' = opsOf p s ∧
    (∀ eid, slice_elems (default slice_nil (supOf p s' !! eid)) =
            slice_elems (default slice_nil (supOf p s !! eid))) ∧
    savepointOf p sp s' = None.
Proof.
  intros Hsv Htx Hwf Hord. destruct (Savepoint_run _ _ _ _ _ _ Hsv) as (tx0 & Hg & _ & Hs0).
  rewrite (gt_heap _ _ _ _ Hg) in Htx. injection Htx as ->.
  destruct (runOps_grows ctx p sp ops s0 Hord) as [[Hsup [more Hops] Hsp] Hfr].
  assert (gated ctx p s0 tx) as Hg0 by (subst s0; by destruct Hg).
  assert (supOf p s0 = supOf p s ∧ opsOf p s0 = opsOf p s) as [E1 E2] by (by subst s0).
  assert (savepointOf p sp s0 = Some (snapOf p s tx)) as Hsnap.
  { subst s0. unfold savepointOf. simpl. rewrite lookup_insert_eq. simpl. by rewrite lookup_insert_eq. }
  destruct (gated_frame _ _ _ _ _ Hfr Hg0) as (tx1 & Hg1 & _). rewrite E1 in Hsup. rewrite E2 in Hops.
  destruct (Rollback_restores ctx p sp (runOps ctx p ops s0) tx1 (snapOf p s tx))
    as (s' & tx' & Hrun & Htx' & R1 & R2 & R3 & R4 & R5 & R6 & R7 & R8); [done|by rewrite Hsp| | |].
  { simpl. rewrite Hops, length_app. lia. }
  { simpl. intros eid sl' l Hsl'. rewrite lookup_fmap_Some. intros (sl & <- & Hsl).
    destruct (Hsup eid sl Hsl) as (sl2 & Hsl2 & Hext). destruct (Hext (Hwf _ _ Hsl)) as (W & L & _).
    simplify_eq. unfold slice_wf in W. lia. }
  exists s', tx'. rewrite R6, R1. simpl. split_and!; try done.
  - rewrite <- (map_fmap_id (Buffer tx)) at 2. apply map_fmap_ext. intros eid e _. by destruct e.
  - by rewrite Hops, take_app_length.
  - intros eid. rewrite R7. simpl. rewrite lookup_fmap. destruct (supOf p s !! eid) as [sl|] eqn:Hsl; simpl.
    + destruct (Hsup eid sl Hsl) as (sl2 & -> & Hext). destruct (Hext (Hwf _ _ Hsl)) as (_ & _ & E). done.
    + by destruct (supOf p (runOps ctx p ops s0) !! eid).
Qed.
End Savepoints.

(** ** Departures *)

(** [e1] is created and deleted in one transaction: its only row is a tombstone. *)
Definition sampleTombstone : list action :=
  [ABegin (Sample.ctx "t") "A" 10; sampleSave "A" "e1" "a"; ATx (Sample.ctx "t") "A" (OpDelete "t" "e1" 0);
   APrepare (Sample.ctx "t") "A"; AStamp "A" 20; AFinish (Sample.ctx "t") 20].

(** An outer savepoint, three saves, an inner one, back to the outer one, two saves. *)
Definition sampleNested : list action :=
  [ABegin (Sample.ctx "t") "A" 10; ATx (Sample.ctx "t") "A" (OpSavepoint "outer");
   sampleSave "A" "e1" "1"; sampleSave "A" "e1" "2"; sampleSave "A" "e1" "3";
   ATx (Sample.ctx "t") "A" (OpSavepoint "inner"); ATx (Sample.ctx "t") "A" (OpRollbackTo "outer");
   sampleSave "A" "e1" "4"; sampleSave "A" "e1" "5"].

Section Departures.
Context `{SPI}.

(** A direct [Save] panics on an entity whose history begins with a tombstone:
    the first row's entity is dereferenced for its creation date although a row
    written by a create-and-delete transaction carries none. *)
Theorem direct_save_over_tombstone_panics tid ctx e clock s v vs :
  versionsOf (fac s) tid (m_ID (Meta e)) = v :: vs → ev_entity v = None → ctx_tx ctx = None →
  ctx_uniqueKeys ctx = [] → ComputeClaims [] (Data e) = inr [] →
  (∀ w, lastUndeleted (reverse (v :: vs)) = Some w → is_Some (ev_entity w)) →
  ∃ why, (Save tid ctx e clock s).1 = Panic why.
Proof.
  intros Hv Hnil Hctx Hkeys Hcc Hll. unfold Save, saveUnlocked. rewrite Hctx, Hkeys, Hcc. mrun. simpl.
  rewrite Hv. unfold nextSubmitTime, mod_tm. simpl. destruct (lastUndeleted (reverse (v :: vs))) as [w|].
  - destruct (Hll w eq_refl) as [x Hx]. rewrite Hx. mrun. simpl. rewrite Hnil. mrun. eauto.
  - mrun. simpl. rewrite Hnil. mrun. eauto.
Qed.

(** A scheduled-task operation staged after the transaction has committed is
    accepted and lost: [Upsert] returns no error, the store of tasks is unchanged,
    and the operation stays in the manager's staging map although no commit of that
    transaction can follow. *)
Theorem task_staged_after_commit_is_lost ctx p s tx task :
  heap s !! p = Some tx → Closed tx = true → RolledBack tx = false → p ∉ active (tm s) →
  ∃ s', SchedStore.Upsert (WithTransaction ctx p) task s = (Ret tt, s') ∧
    scheduledTasks (fac s') = scheduledTasks (fac s) ∧
    default [] (scheduledTaskOps (tm s') !! tx_ID tx) ≠ [] ∧
    (∀ ctx' clock1 clock2, Commit ctx' p clock1 clock2 s' = (Err ErrTxNotFound, s')).
Proof.
  intros Htx Hc Hr Ha. unfold SchedStore.Upsert, SchedStore.stage, deref, stageScheduledTaskOp, mod_tm.
  cbn [ctx_tx WithTransaction]. mrun. rewrite Htx. mrun. rewrite Hr. eexists. split; [done|].
  split_and!; [done|simpl; rewrite lookup_insert_eq; simpl; by destruct (default [] _)|].
  intros ctx' c1 c2. unfold Commit, commitPrepare. mrun. simpl. rewrite decide_True by done. by mrun.
Qed.

(** The commit that had passed its first section when the rollback ran. *)
Definition raced (ctx : Ctx) (p : string) (s : Mem) : Mem :=
  (Rollback ctx p (commitPrepare ctx p s).2).2.
End Departures.

(** A savepoint taken before a rollback to an outer one survives it, and
    rolling back to it afterwards panics: the superseded saves are cut to a length
    recorded before, beyond the capacity of the slice built since. *)
Theorem stale_savepoint_rollback_panics :
  let s := c_mem (confOf sampleNested) in
  is_Some (savepointOf "A" "inner" s) ∧
  (RollbackToSavepoint (Sample.ctx "t") "A" "inner" s).1 = Panic "slice bounds out of range".
Proof. split; [apply (bool_decide_unpack _); vm_compute; exact I|vm_compute; reflexivity]. Qed.

(** A commit that has passed its first section does not notice a rollback that
    completes before it acquires the operation lock: both report success and the
    rolled-back transaction's writes are committed. *)
Theorem commit_after_rollback_flushes :
  let s := c_mem (confOf [ABegin (Sample.ctx "t") "A" 10; sampleSave "A" "e1" "a"]) in
  let s1 := raced (Sample.ctx "t") "A" s in
  (Rollback (Sample.ctx "t") "A" (commitPrepare (Sample.ctx "t") "A" s).2).1 = Ret tt ∧
  RolledBack <$> heap s1 !! "A" = Some true ∧
  (commitLocked (H:=Sample.spi) (Sample.ctx "t") "A" 20 20 s1).1 = Ret tt ∧
  length (versionsOf (fac (commitLocked (H:=Sample.spi) (Sample.ctx "t") "A" 20 20 s1).2) "t" "e1") = 1.
Proof. by split_and!; vm_compute. Qed.

(** ** Witnesses *)

Lemma savepoint_roundtrip_witness :
  let s := c_mem (confOf [ABegin (Sample.ctx "t") "A" 10; sampleSave "A" "e1" "1"; sampleSave "A" "e1" "2"]) in
  let s0 := (Savepoint (Sample.ctx "t") "A" "sp" s).2 in
  let ops := [OpSave "t" (Sample.entity "e1" "3") 0; OpDelete "t" "e1" 0; OpSave "t" (Sample.entity "e2" "4") 0] in
  ∃ s', RollbackToSavepoint (Sample.ctx "t") "A" "sp" (runOps (H:=Sample.spi) (Sample.ctx "t") "A" ops s0) = (Ret tt, s') ∧
    opsOf "A" s' = opsOf "A" s.
Proof.
  destruct (@savepoint_roundtrip Sample.spi (Sample.ctx "t") "A" "sp"
    (c_mem (confOf [ABegin (Sample.ctx "t") "A" 10; sampleSave "A" "e1" "1"; sampleSave "A" "e1" "2"]))
    (Savepoint (Sample.ctx "t") "A" "sp"
      (c_mem (confOf [ABegin (Sample.ctx "t") "A" 10; sampleSave "A" "e1" "1"; sampleSave "A" "e1" "2"]))).2
    [OpSave "t" (Sample.entity "e1" "3") 0; OpDelete "t" "e1" 0; OpSave "t" (Sample.entity "e2" "4") 0]
    (sampleTx [ABegin (Sample.ctx "t") "A" 10; sampleSave "A" "e1" "1"; sampleSave "A" "e1" "2"] "A"))
    as (s' & tx' & Hrun & _ & _ & _ & _ & _ & _ & Hops & _); [by_eval..|].
  exists s'. by split.
Defined.

Lemma direct_save_over_tombstone_panics_witness :
  ∃ why, (Save (H:=Sample.spi) "t" (Sample.ctx "t") (Sample.entity "e1" "b") 30
            (c_mem (confOf sampleTombstone))).1 = Panic why.
Proof.
  eapply (@direct_save_over_tombstone_panics Sample.spi "t" (Sample.ctx "t") (Sample.entity "e1" "b") 30
    (c_mem (confOf sampleTombstone))); [vm_compute; reflexivity|reflexivity..|].
  intros w Hw. vm_compute in Hw. discriminate Hw.
Defined.

Lemma task_staged_after_commit_is_lost_witness :
  let s := c_mem (confOf sampleSetup) in
  let task := mkTask "id" "t" "k" 0 None None "e1" "order" 1 "go" "NEW" 0 0 (mkPrincipal "u" "user") in
  ∃ s', SchedStore.Upsert (WithTransaction (Sample.ctx "t") "A") task s = (Ret tt, s') ∧
    scheduledTasks (fac s') = scheduledTasks (fac s) ∧
    default [] (scheduledTaskOps (tm s') !! "A") ≠ [] ∧
    (∀ ctx' clock1 clock2, Commit (H:=Sample.spi) ctx' "A" clock1 clock2 s' = (Err ErrTxNotFound, s')).
Proof.
  apply (@task_staged_after_commit_is_lost Sample.spi (Sample.ctx "t") "A" (c_mem (confOf sampleSetup))
    (sampleTx sampleSetup "A")); by_eval.
Defined.
