(* ===== verification/MemTasks.v ===== *)
(** * Memory plugin: scheduled tasks

    What the scheduled-task store promises: a staged operation takes effect with
    the commit, in order, and not otherwise; the due scan is complete, ordered and
    bounded; reconciling an entity leaves no task armed for a state it has left. *)

From stdpp Require Import base gmap strings list fin_maps sorting.
From S2P Require Import Prelude Spi MemState MemTx MemEntity MemSched MemFrame MemSI MemIsolation MemCommit.

(** Rows are stored under their own id. *)
Definition keyedByID (m : gmap string ScheduledTask) : Prop := ∀ id t, m !! id = Some t → st_ID t = id.

Definition applyOps (ops : list scheduledTaskOp) (m : gmap string ScheduledTask) : gmap string ScheduledTask :=
  foldl (λ m op, applyScheduledTaskOp op m) m ops.

(** ** Operations that leave the tasks alone *)

Definition sameTasks (s s' : Mem) : Prop := scheduledTasks (fac s') = scheduledTasks (fac s).
#[export] Instance sameTasks_preorder : PreOrder sameTasks.
Proof. split; repeat intro; unfold sameTasks in *; congruence. Qed.

Lemma sameTasks_mod_fac g : (∀ f, scheduledTasks (g f) = scheduledTasks f) → stable sameTasks (mod_fac g).
Proof. intros Hg. apply stable_modify. intros s. apply Hg. Qed.

Lemma recordTxIndex_tasks tid eid txID v f : scheduledTasks (recordTxIndex tid eid txID v f) = scheduledTasks f.
Proof. unfold recordTxIndex. by repeat case_match. Qed.
Lemma insertClaims_tasks e t m v cs f : scheduledTasks (insertClaims e t m v cs f) = scheduledTasks f.
Proof. unfold insertClaims. by case_decide. Qed.
#[export] Hint Extern 2 (stable sameTasks (mod_fac _)) =>
  apply sameTasks_mod_fac; intros; auto using recordTxIndex_tasks, insertClaims_tasks : stable.
#[export] Hint Extern 2 (stable sameTasks (appendVersion _ _ _)) => by apply sameTasks_mod_fac : stable.

Section Tasks.
Context `{SPI}.

Lemma flushRows_tasks tid eid txID t cd staged base hp :
  stable sameTasks (flushRows tid eid txID t cd staged base hp).
Proof.
  revert base hp. induction staged as [|[e|] staged IH]; intros base hp; cbn [flushRows]; solve_stable.
Qed.

Lemma commitFinish_tasks ctx txID clock tx cap comp t s s' :
  commitFinish ctx txID clock tx cap comp t s = (Ret tt, s') →
  scheduledTasks (fac s') = applyOps (cap_ops cap) (scheduledTasks (fac s)).
Proof.
  unfold commitFinish. intros ([] & s1 & Hfl & Hrec)%bind_Ret.
  unfold commitRecord in Hrec. mrun_in Hrec. injection Hrec as <-. simpl.
  unfold commitFlush in Hfl. rewrite run_bind, forM_mod_fac in Hfl.
  apply bind_Ret in Hfl as ([] & s2 & H2 & Hfl). apply bind_Ret in Hfl as ([] & s3 & H3 & H4).
  assert (stable sameTasks (forM (map_to_list (Buffer tx)) (λ '(eid, e),
    flushEntity (tx_TenantID tx) txID t (cap_superseded cap) comp eid e))) as Hst2.
  { apply stable_forM; [apply _|]. intros [eid e]. unfold flushEntity. solve_stable. apply flushRows_tasks. }
  assert (stable sameTasks (forM (elements (Deletes tx))
    (flushDelete ctx (tx_TenantID tx) txID t (DeleteAttribution tx)))) as Hst3.
  { apply stable_forM; [apply _|]. intros eid. unfold flushDelete. solve_stable. }
  pose proof (stable_elim _ _ _ _ _ Hst2 H2) as E2. pose proof (stable_elim _ _ _ _ _ Hst3 H3) as E3.
  rewrite forM_mod_fac in H4. injection H4 as <-. unfold sameTasks in *. simpl in *.
  assert (∀ l f, scheduledTasks (foldl (λ f e, releaseClaims (tx_TenantID tx) e f) f l) = scheduledTasks f) as Hrel.
  { induction l as [|e l IH]; intros f; simpl; [done|]. by rewrite IH. }
  rewrite Hrel in E2. rewrite <- E2, <- E3. clear. generalize (fac s3). induction (cap_ops cap) as [|op ops IH];
    intros f; simpl; [done|]. by rewrite IH.
Qed.

(** ** The due scan *)

#[export] Instance timeLe_total : Total SchedStore.timeLe.
Proof. intros a b. unfold SchedStore.timeLe. lia. Qed.
#[export] Instance timeLe_trans : Transitive SchedStore.timeLe.
Proof. intros a b c. unfold SchedStore.timeLe. lia. Qed.

Lemma copyScheduledTask_id t : SchedStore.copyScheduledTask t = t.
Proof. by destruct t. Qed.

(** ** Reconciling *)

Lemma forM_upsert ctx ts s :
  ctx_tx ctx = None → forM ts (SchedStore.Upsert ctx) s =
    (Ret tt, mem_set_fac (fac_set_scheduledTasks (applyOps ((λ t, scheduledTaskUpsert (st_ID t) t) <$> ts))) s).
Proof.
  intros Hctx. revert s. induction ts as [|t ts IH]; intros s; simpl.
  { unfold mem_set_fac, fac_set_scheduledTasks. destruct s as [[] ? ?]; done. }
  rewrite run_bind. unfold SchedStore.Upsert at 1, SchedStore.stage. rewrite Hctx. unfold mod_fac. rewrite run_modify.
  rewrite IH. by rewrite copyScheduledTask_id.
Qed.

Lemma forM_delete ctx (ids : list string) s :
  ctx_tx ctx = None → forM ids (λ id, _ ← SchedStore.DeleteTask ctx id; mret tt) s =
    (Ret tt, mem_set_fac (fac_set_scheduledTasks (applyOps (scheduledTaskDelete <$> ids))) s).
Proof.
  intros Hctx. revert s. induction ids as [|t ts IH]; intros s; simpl.
  { unfold mem_set_fac, fac_set_scheduledTasks. destruct s as [[] ? ?]; done. }
  rewrite run_bind. unfold SchedStore.DeleteTask at 1, SchedStore.stage. rewrite Hctx. unfold mod_fac. mrun.
  by rewrite IH.
Qed.

Lemma applyOps_deletes ids m id :
  applyOps (scheduledTaskDelete <$> ids) m !! id = if decide (id ∈ ids) then None else m !! id.
Proof.
  revert m. induction ids as [|x ids IH]; intros m; cbn [fmap list_fmap applyOps foldl].
  { rewrite decide_False; [done|apply not_elem_of_nil]. }
  unfold applyOps in IH. simpl. rewrite IH. destruct (decide (id = x)) as [->|].
  - rewrite lookup_delete_eq, (decide_True _ _ (list_elem_of_here _ _)). by case_decide.
  - rewrite lookup_delete_ne by done. repeat case_decide; set_solver.
Qed.

Lemma applyOps_upserts ts m id t :
  applyOps ((λ t, scheduledTaskUpsert (st_ID t) t) <$> ts) m !! id = Some t →
  (t ∈ ts ∧ st_ID t = id) ∨ m !! id = Some t.
Proof.
  revert m. induction ts as [|x ts IH]; intros m; [by right|]. cbn. intros [[? ?]|Hx]%IH; [left; set_solver|].
  apply lookup_insert_Some in Hx as [[<- <-]|[_ ?]]; [left; set_solver|by right].
Qed.

(** Scheduled tasks commit with their transaction: a successful commit leaves
    the task store exactly as applying the transaction's staged operations, in the
    order they were staged, to what was there; a refused one leaves it unchanged. *)
Theorem commit_applies_tasks ctx txID clock1 clock2 s r s' :
  Commit ctx txID clock1 clock2 s = (r, s') →
  (r = Ret tt → scheduledTasks (fac s') =
     applyOps (default [] (scheduledTaskOps (tm s) !! txID)) (scheduledTasks (fac s))) ∧
  (∀ e, r = Err e → scheduledTasks (fac s') = scheduledTasks (fac s)).
Proof.
  intros Hrun. destruct (Commit_run _ _ _ _ _ _ _ Hrun)
    as [(e & -> & [->| ->])|[(w & ->)|(-> & tx & comp & t & s2 & _ & _ & _ & _ & Hfin & ->)]]; [done..|].
  split; [|done]. intros _. by apply commitFinish_tasks in Hfin.
Qed.

Lemma scanDueOf_spec rows nowMs limit :
  let out := SchedStore.scanDueOf rows nowMs limit in
  StronglySorted SchedStore.timeLe out ∧
  (∀ t, t ∈ out → t ∈ rows ∧ SchedStore.isDue nowMs t = true) ∧
  ((0 < limit)%Z → (Z.of_nat (length out) ≤ limit)%Z) ∧
  (∀ t, t ∈ rows → SchedStore.isDue nowMs t = true → t ∉ out →
     (0 < limit)%Z ∧ Z.of_nat (length out) = limit ∧ ∀ u, u ∈ out → (ScheduledTime u ≤ ScheduledTime t)%Z).
Proof.
  unfold SchedStore.scanDueOf.
  set (l := merge_sort SchedStore.timeLe _).
  assert (StronglySorted SchedStore.timeLe l) as Hs by apply (StronglySorted_merge_sort SchedStore.timeLe).
  assert (∀ t, t ∈ l ↔ t ∈ rows ∧ SchedStore.isDue nowMs t = true) as Hin.
  { intros t. subst l. rewrite merge_sort_Permutation.
    rewrite (list_fmap_ext _ id) by (intros; apply copyScheduledTask_id). rewrite list_fmap_id.
    rewrite list_elem_of_filter. destruct (SchedStore.isDue nowMs t); naive_solver. }
  clearbody l. case_decide as Hd.
  - assert (l = take (Z.to_nat limit) l ++ drop (Z.to_nat limit) l) as Hl by (by rewrite take_drop).
    rewrite length_take. split_and!.
    + rewrite Hl in Hs. by apply StronglySorted_app in Hs as (_ & ? & _).
    + intros t Ht. apply Hin. rewrite Hl, elem_of_app. by left.
    + lia.
    + intros t Hr Hdue Hn. split_and!; [lia|lia|]. intros u Hu.
      assert (t ∈ l) as Ht by (by apply Hin). rewrite Hl, elem_of_app in Ht. destruct Ht as [|Ht]; [done|].
      by apply (sorted_take_drop _ _ _ _ _ Hs Hu Ht).
  - split_and!; [done|by apply Hin|lia|]. intros t Hr Hdue Hn. destruct Hn. by apply Hin.
Qed.

(** The due scan.  Whatever order the runtime enumerates the rows in, the
    result is sorted by scheduled time, holds only rows that are due, no more than
    a positive limit, and a due row is left out only when the limit is reached by
    rows scheduled no later. *)
Theorem scan_due_complete rows nowMs limit :
  let out := SchedStore.scanDueOf rows nowMs limit in
  StronglySorted SchedStore.timeLe out ∧
  (∀ t, t ∈ out → t ∈ rows ∧ SchedStore.isDue nowMs t = true) ∧
  ((0 < limit)%Z → (Z.of_nat (length out) ≤ limit)%Z) ∧
  (∀ t, t ∈ rows → SchedStore.isDue nowMs t = true → t ∉ out →
     (0 < limit)%Z ∧ Z.of_nat (length out) = limit ∧ ∀ u, u ∈ out → (ScheduledTime u ≤ ScheduledTime t)%Z).
Proof. apply scanDueOf_spec. Qed.

(** Reconciling an entity outside a transaction: afterwards no task of that
    entity and tenant is armed for a state other than the current one, whatever was
    stored before, no cancelled id remains, and a task of any other entity that the
    request neither arms nor cancels by id is still there. *)
Theorem reconcile_cancels_stale ctx req s :
  ctx_tx ctx = None → keyedByID (scheduledTasks (fac s)) →
  (∀ t, t ∈ rq_Arm req → SourceState t = rq_CurrentState req) →
  ∃ cancelled s', SchedStore.ReconcileForEntity ctx req s = (Ret cancelled, s') ∧
    (∀ t, t ∈ cancelled ↔ ∃ id, scheduledTasks (fac s) !! id = Some t ∧ SchedStore.otherState req t = true) ∧
    (∀ id t, scheduledTasks (fac s') !! id = Some t → SchedStore.otherState req t = false ∧ id ∉ rq_Cancel req) ∧
    (∀ id t, scheduledTasks (fac s) !! id = Some t → st_EntityID t ≠ rq_EntityID req →
       id ∉ st_ID <$> rq_Arm req → id ∉ rq_Cancel req → scheduledTasks (fac s') !! id = Some t).
Proof.
  intros Hctx Hkey Harm. unfold SchedStore.ReconcileForEntity. mrun.
  set (m := scheduledTasks (fac s)) in *.
  rewrite (list_fmap_ext SchedStore.copyScheduledTask id) by (intros; apply copyScheduledTask_id).
  rewrite list_fmap_id. set (canc := filter _ _).
  assert (∀ t, t ∈ canc ↔ ∃ id, m !! id = Some t ∧ SchedStore.otherState req t = true) as Hcanc.
  { intros t. subst canc. rewrite list_elem_of_filter, list_elem_of_fmap. split.
    - intros [Ho ([id t'] & -> & Hm%elem_of_map_to_list)]. exists id. split; [done|].
      simpl in *. by destruct (SchedStore.otherState req t').
    - intros (id & Hm & Ho). rewrite Ho. split; [done|]. exists (id, t). by rewrite elem_of_map_to_list. }
  clearbody canc. rewrite run_bind, forM_upsert by done.
  rewrite run_bind, <- (forM_fmap st_ID canc (λ id, _ ← SchedStore.DeleteTask ctx id; mret tt)), forM_delete by done.
  rewrite run_bind, forM_delete by done. mrun.
  eexists _, _. split; [done|]. split; [done|]. simpl. fold m. split.
  - intros id t. rewrite applyOps_deletes. case_decide as H1; [done|]. rewrite applyOps_deletes.
    case_decide as H2; [done|]. intros Ht. split; [|done].
    destruct (SchedStore.otherState req t) eqn:Ho; [|done]. exfalso.
    apply applyOps_upserts in Ht as [[Hin <-]|Hm].
    + unfold SchedStore.otherState in Ho. apply andb_true_iff in Ho as [_ Ho%bool_decide_eq_true]. auto.
    + apply H2. apply list_elem_of_fmap. exists t. rewrite (Hkey id t Hm). split; [done|]. apply Hcanc. eauto.
  - intros id t Hm Hent Hna Hnc. rewrite applyOps_deletes, decide_False by done.
    rewrite applyOps_deletes, decide_False.
    + clear Hcanc Harm Hctx. revert Hm Hna. generalize m. induction (rq_Arm req) as [|x l IH]; intros m' Hm Hna; [done|].
      cbn. apply IH; [|set_solver]. rewrite lookup_insert_ne; [done|set_solver].
    + rewrite list_elem_of_fmap. intros (c & -> & Hc). apply Hcanc in Hc as (id' & Hm' & Ho).
      rewrite (Hkey id' c Hm') in Hm. simplify_eq. unfold SchedStore.otherState in Ho.
      apply andb_true_iff in Ho as [[Ho%bool_decide_eq_true _]%andb_true_iff _]. done.
Qed.
End Tasks.

(** ** Witnesses *)

Definition sampleTask (id eid st : string) (at_ : Z) : ScheduledTask :=
  mkTask id "t" "k" at_ None None eid "order" 1 "go" st 0 0 (mkPrincipal "u" "user").

Lemma commit_applies_tasks_witness :
  let s := c_mem (confOf [ABegin (Sample.ctx "t") "A" 10; ATx (Sample.ctx "t") "A" (OpUpsertTask (sampleTask "k1" "e1" "NEW" 5))]) in
  let s' := (Commit (H:=Sample.spi) (Sample.ctx "t") "A" 20 20 s).2 in
  scheduledTasks (fac s') = applyOps (default [] (scheduledTaskOps (tm s) !! "A")) (scheduledTasks (fac s)) ∧
  is_Some (scheduledTasks (fac s') !! "k1").
Proof.
  split; [|apply (bool_decide_unpack _); vm_compute; exact I].
  eapply (@commit_applies_tasks Sample.spi (Sample.ctx "t") "A" 20 20); [apply surjective_pairing|by_eval].
Defined.

Lemma reconcile_cancels_stale_witness :
  let s := mkMem (mkFactory ∅ ∅ ∅ ∅ {["k1" := sampleTask "k1" "e1" "OLD" 5; "k2" := sampleTask "k2" "e2" "OLD" 5]})
             (emptyTM 0) ∅ in
  let req := mkReconcile "t" "e1" "NEW" [sampleTask "k3" "e1" "NEW" 9] [] in
  ∃ cancelled s', SchedStore.ReconcileForEntity (Sample.ctx "t") req s = (Ret cancelled, s') ∧
    scheduledTasks (fac s') !! "k2" = Some (sampleTask "k2" "e2" "OLD" 5).
Proof.
  destruct (reconcile_cancels_stale (Sample.ctx "t") (mkReconcile "t" "e1" "NEW" [sampleTask "k3" "e1" "NEW" 9] [])
    (mkMem (mkFactory ∅ ∅ ∅ ∅ {["k1" := sampleTask "k1" "e1" "OLD" 5; "k2" := sampleTask "k2" "e2" "OLD" 5]})
       (emptyTM 0) ∅)) as (c & s' & Hrun & _ & _ & Hkeep).
  - by_eval.
  - intros id t. simpl. rewrite lookup_insert_Some, lookup_singleton_Some. naive_solver.
  - intros t. by intros ->%list_elem_of_singleton.
  - exists c, s'. split; [done|]. apply Hkeep; try by_eval; vm_compute; by set_solver.
Defined.
