(* ===== verification/MemSearch.v ===== *)
(** * Memory plugin: asynchronous search jobs

    [plugins/memory/search_store.go].  The nested map tenant, job id to entry is
    one map on pairs; the store's clock is an argument of the calls that read it;
    each call runs under the store's lock, [SaveResults] taking it once per chunk,
    so a chunk is the unit of interleaving. *)

From stdpp Require Import base gmap strings list fin_maps sorting.
From S2P Require Import Prelude Spi MemState.

(** ** State *)

Record SearchJob := mkJob {
  j_ID : string; j_TenantID : string; j_Status : string; j_ModelRef : ModelRef;
  j_Condition : string; j_SearchOpts : string; j_ResultCount : Z; j_Error : string;
  CreateTime : Time; FinishTime : option Time; CalcTimeMs : Z; HeartbeatTime : option Time;
  Epoch : Z; StaleClaims : Z }.

Record searchJobEntry := mkEntry { e_job : SearchJob; entityIDs : list string; released : bool }.

(** [data], keyed by tenant and job id. *)
Abbreviation AsyncSearchStore := (gmap (string * string) searchJobEntry).
Abbreviation SM := (M err AsyncSearchStore).

Definition job_set_claims (epoch stale : Z) (j : SearchJob) : SearchJob :=
  mkJob (j_ID j) (j_TenantID j) (j_Status j) (j_ModelRef j) (j_Condition j) (j_SearchOpts j)
    (j_ResultCount j) (j_Error j) (CreateTime j) (FinishTime j) (CalcTimeMs j) (HeartbeatTime j) epoch stale.
Definition job_set_heartbeat (t : Time) (j : SearchJob) : SearchJob :=
  mkJob (j_ID j) (j_TenantID j) (j_Status j) (j_ModelRef j) (j_Condition j) (j_SearchOpts j)
    (j_ResultCount j) (j_Error j) (CreateTime j) (FinishTime j) (CalcTimeMs j) (Some t) (Epoch j) (StaleClaims j).
Definition job_set_status (status : string) (count : Z) (errMsg : string) (finish : option Time) (calc : Z)
    (j : SearchJob) : SearchJob :=
  mkJob (j_ID j) (j_TenantID j) status (j_ModelRef j) (j_Condition j) (j_SearchOpts j)
    count errMsg (CreateTime j) finish calc (HeartbeatTime j) (Epoch j) (StaleClaims j).
Definition entry_set_job (f : SearchJob → SearchJob) (e : searchJobEntry) : searchJobEntry :=
  mkEntry (f (e_job e)) (entityIDs e) (released e).

Definition terminal (status : string) : bool :=
  bool_decide (status = "SUCCESSFUL" ∨ status = "FAILED" ∨ status = "CANCELLED").

(** ** Operations *)

Definition CreateJob (ctx : Ctx) (job : SearchJob) : SM unit :=
  tid ← lift_sum (resolveTenant ctx);
  modify (<[(tid, j_ID job) := mkEntry (job_set_claims 1 0 job) [] false]>).

Definition findEntryLocked (tid jobID : string) : SM searchJobEntry :=
  d ← get;
  match d !! (tid, jobID) with Some e => mret e | None => fail ErrNotFound end.

Definition GetJob (ctx : Ctx) (jobID : string) : SM SearchJob :=
  tid ← lift_sum (resolveTenant ctx);
  e ← findEntryLocked tid jobID;
  mret (e_job e).

Definition guardWrite (tid jobID : string) (epoch : Z) : SM searchJobEntry :=
  e ← findEntryLocked tid jobID;
  if terminal (j_Status (e_job e)) then fail ErrAlreadyTerminal else
  if decide (epoch ≠ Epoch (e_job e)) then fail ErrStaleClaim else mret e.

(** A guarded write: the update of the entry [guardWrite] returned. *)
Definition guarded (ctx : Ctx) (jobID : string) (epoch : Z) (f : searchJobEntry → searchJobEntry) : SM unit :=
  tid ← lift_sum (resolveTenant ctx);
  _ ← guardWrite tid jobID epoch;
  modify (alter f (tid, jobID)).

Definition UpdateJobStatus (ctx : Ctx) (jobID : string) (epoch : Z) (status : string) (resultCount : Z)
    (errMsg : string) (finishTime : Time) (calcTimeMs : Z) : SM unit :=
  guarded ctx jobID epoch (entry_set_job (job_set_status status resultCount errMsg
    (if IsZero finishTime then None else Some finishTime) calcTimeMs)).

Definition saveResultsChunkSize : nat := 1024.

Definition guardAndAppend (tid jobID : string) (epoch : Z) (chunk : list string) : SM unit :=
  _ ← guardWrite tid jobID epoch;
  modify (alter (λ e, mkEntry (e_job e) (entityIDs e ++ chunk) (released e)) (tid, jobID)).

(** The drain loop: [poll] counts the polls of the context, [buf] is the chunk
    being filled. *)
Fixpoint drain (ctx : Ctx) (tid jobID : string) (epoch : Z) (poll : nat) (buf ids : list string) : SM unit :=
  match ctx_Err ctx poll with
  | Some e => fail e
  | None =>
      match ids with
      | [] => guardAndAppend tid jobID epoch buf
      | id :: rest =>
          let buf' := buf ++ [id] in
          if decide (saveResultsChunkSize ≤ length buf')
          then guardAndAppend tid jobID epoch buf';; drain ctx tid jobID epoch (S poll) [] rest
          else drain ctx tid jobID epoch (S poll) buf' rest
      end
  end.

Definition SaveResults (ctx : Ctx) (jobID : string) (epoch : Z) (ids : list string) : SM unit :=
  tid ← lift_sum (resolveTenant ctx);
  guardAndAppend tid jobID epoch [];;
  drain ctx tid jobID epoch 0 [] ids.

Definition GetResultIDs (ctx : Ctx) (jobID : string) (offset limit : Z) : SM (list string * Z) :=
  if decide (offset < 0 ∨ limit < 1)%Z then fail (ErrText "offset must be >= 0 and limit must be >= 1") else
  tid ← lift_sum (resolveTenant ctx);
  e ← findEntryLocked tid jobID;
  page ← orPanic (window offset limit (entityIDs e));
  mret (page, Z.of_nat (length (entityIDs e))).

Definition DeleteJob (ctx : Ctx) (jobID : string) : SM unit :=
  tid ← lift_sum (resolveTenant ctx);
  modify (delete (tid, jobID)).

Definition Cancel (ctx : Ctx) (jobID : string) (finishTime : Time) : SM unit :=
  tid ← lift_sum (resolveTenant ctx);
  e ← findEntryLocked tid jobID;
  let j := e_job e in
  if terminal (j_Status j) then mret tt else
  modify (<[(tid, jobID) := entry_set_job (job_set_status "CANCELLED" (j_ResultCount j) (j_Error j)
             (Some finishTime) (CalcTimeMs j)) e]>).

Definition Heartbeat (ctx : Ctx) (jobID : string) (epoch : Z) (now : Time) : SM unit :=
  guarded ctx jobID epoch (entry_set_job (job_set_heartbeat now)).

(** Released jobs are claimable at once; the others when their last sign of life
    is before the cutoff. *)
Definition claimable (cutoff : Time) (e : searchJobEntry) : bool :=
  bool_decide (j_Status (e_job e) = "RUNNING") &&
  (released e || Before (default (CreateTime (e_job e)) (HeartbeatTime (e_job e))) cutoff).

Definition olderFirst (a b : (string * string) * searchJobEntry) : Prop :=
  (CreateTime (e_job a.2) < CreateTime (e_job b.2))%Z ∨
  (CreateTime (e_job a.2) = CreateTime (e_job b.2) ∧ String.le (j_ID (e_job a.2)) (j_ID (e_job b.2))).
#[export] Instance olderFirst_dec : RelDecision olderFirst.
Proof. intros a b. unfold olderFirst. apply _. Defined.

Definition claimEntry (now : Time) (e : searchJobEntry) : searchJobEntry :=
  mkEntry (job_set_heartbeat now (job_set_claims (Epoch (e_job e) + 1)
             (if released e then StaleClaims (e_job e) else StaleClaims (e_job e) + 1) (e_job e)))
    (entityIDs e) false.

(** [order] is the order in which the runtime enumerates the jobs. *)
Definition claimCandidates (cutoff : Time) (limit : Z) (order : list ((string * string) * searchJobEntry))
    : list ((string * string) * searchJobEntry) :=
  let candidates := merge_sort olderFirst (filter (λ p, claimable cutoff p.2) order) in
  if decide (limit < Z.of_nat (length candidates))%Z then take (Z.to_nat limit) candidates else candidates.

Definition ClaimStale (staleAfter limit : Z) (now : Time) : SM (list SearchJob) :=
  if decide (limit < 1)%Z then fail (ErrText "limit must be >= 1") else
  d ← get;
  let candidates := claimCandidates (now - staleAfter) limit (map_to_list d) in
  forM candidates (λ '(k, _), modify (alter (claimEntry now) k));;
  mret ((λ p, e_job (claimEntry now p.2)) <$> candidates).

Definition ClearResults (ctx : Ctx) (jobID : string) : SM unit :=
  tid ← lift_sum (resolveTenant ctx);
  modify (alter (λ e, mkEntry (e_job e) [] (released e)) (tid, jobID)).

Definition Release (ctx : Ctx) (jobID : string) (epoch : Z) : SM unit :=
  guarded ctx jobID epoch (λ e, mkEntry (e_job e) (entityIDs e) true).

Definition expired (cutoff : Time) (e : searchJobEntry) : bool :=
  negb (bool_decide (j_Status (e_job e) = "RUNNING")) &&
  match FinishTime (e_job e) with Some t => Before t cutoff | None => false end.

Definition ReapExpired (ttl : Z) (now : Time) : SM Z :=
  d ← get;
  put (filter (λ p, expired (now - ttl) p.2 = false) d);;
  mret (Z.of_nat (size (filter (λ p, expired (now - ttl) p.2 = true) d))).

(** ** Interleavings *)

Inductive searchOp : Type :=
| SCreate (ctx : Ctx) (job : SearchJob)
| SUpdate (ctx : Ctx) (id : string) (epoch : Z) (status : string) (count : Z) (msg : string) (finish : Time) (calc : Z)
| SAppend (tid id : string) (epoch : Z) (chunk : list string)
| SSave (ctx : Ctx) (id : string) (epoch : Z) (ids : list string)
| SDelete (ctx : Ctx) (id : string)
| SCancel (ctx : Ctx) (id : string) (finish : Time)
| SHeartbeat (ctx : Ctx) (id : string) (epoch : Z) (now : Time)
| SClaim (staleAfter limit : Z) (now : Time)
| SClear (ctx : Ctx) (id : string)
| SRelease (ctx : Ctx) (id : string) (epoch : Z)
| SReap (ttl : Z) (now : Time).

Definition runSearchOp (op : searchOp) (d : AsyncSearchStore) : AsyncSearchStore :=
  match op with
  | SCreate ctx job => (CreateJob ctx job d).2
  | SUpdate ctx id ep st n msg fin calc => (UpdateJobStatus ctx id ep st n msg fin calc d).2
  | SAppend tid id ep chunk => (guardAndAppend tid id ep chunk d).2
  | SSave ctx id ep ids => (SaveResults ctx id ep ids d).2
  | SDelete ctx id => (DeleteJob ctx id d).2
  | SCancel ctx id fin => (Cancel ctx id fin d).2
  | SHeartbeat ctx id ep now => (Heartbeat ctx id ep now d).2
  | SClaim stale limit now => (ClaimStale stale limit now d).2
  | SClear ctx id => (ClearResults ctx id d).2
  | SRelease ctx id ep => (Release ctx id ep d).2
  | SReap ttl now => (ReapExpired ttl now d).2
  end.

(** ** One entry under any operation *)

Definition creates (k : string * string) (op : searchOp) : bool :=
  match op with
  | SCreate ctx job => bool_decide (resolveTenant ctx = inr k.1 ∧ j_ID job = k.2)
  | _ => false
  end.

(** An entry's later life: its epoch does not go back and a terminal job's record
    does not change. *)
Definition evolves (e e' : searchJobEntry) : Prop :=
  (Epoch (e_job e) ≤ Epoch (e_job e'))%Z ∧
  (terminal (j_Status (e_job e)) = true → e_job e' = e_job e).
#[export] Instance evolves_preorder : PreOrder evolves.
Proof.
  split; [by intros e|]. intros e1 e2 e3 [A1 B1] [A2 B2]. split; [lia|]. intros Ht.
  rewrite B2; [by apply B1|]. by rewrite B1.
Qed.

(** What happens to key [k]: a missing entry stays missing, a present one evolves
    or disappears. *)
Definition keyEvolves (k : string * string) (d d' : AsyncSearchStore) : Prop :=
  match d !! k, d' !! k with
  | _, None => True
  | Some e, Some e' => evolves e e'
  | None, Some _ => False
  end.
#[export] Instance keyEvolves_preorder k : PreOrder (keyEvolves k).
Proof.
  split; unfold keyEvolves; [by intros d; destruct (d !! k)|].
  intros d1 d2 d3. destruct (d1 !! k), (d2 !! k), (d3 !! k); try done. apply transitivity.
Qed.

Lemma keyEvolves_alter k k' f d :
  (∀ e, d !! k' = Some e → evolves e (f e)) → keyEvolves k d (alter f k' d).
Proof.
  intros Hf. unfold keyEvolves. destruct (decide (k = k')) as [->|].
  - rewrite lookup_alter_eq. destruct (d !! k') as [e|] eqn:He; simpl; [by apply Hf|done].
  - rewrite lookup_alter_ne by done. by destruct (d !! k).
Qed.

(** What a guarded write has established when it gets past the guard. *)
Lemma guardWrite_run tid id epoch d :
  (∃ e, d !! (tid, id) = Some e ∧ terminal (j_Status (e_job e)) = false ∧ Epoch (e_job e) = epoch ∧
        guardWrite tid id epoch d = (Ret e, d)) ∨
  (∃ er, guardWrite tid id epoch d = (Err er, d) ∧
     ∀ e, d !! (tid, id) = Some e → terminal (j_Status (e_job e)) = true ∨ Epoch (e_job e) ≠ epoch).
Proof.
  unfold guardWrite, findEntryLocked. mrun. destruct (d !! (tid, id)) as [e|] eqn:He; mrun.
  2:{ right. eexists. split; [done|]. done. }
  destruct (terminal _) eqn:Ht; mrun.
  { right. eexists. split; [done|]. intros e' [= <-]. by left. }
  case_decide as Hd; mrun.
  - right. eexists. split; [done|]. intros e' [= <-]. right. congruence.
  - left. exists e. split_and!; [done|done|done|done].
Qed.

Lemma guarded_evolves k ctx id epoch f d :
  (∀ e, terminal (j_Status (e_job e)) = false → (Epoch (e_job e) ≤ Epoch (e_job (f e)))%Z) →
  keyEvolves k d (guarded ctx id epoch f d).2.
Proof.
  intros Hf. unfold guarded. destruct (resolveTenant ctx) as [er|tid]; mrun; [done|].
  rewrite run_bind. destruct (guardWrite_run tid id epoch d) as [(e & He & Ht & _ & ->)|(er & -> & _)]; [|done].
  mrun. apply keyEvolves_alter. intros e' He'. simplify_eq. split; [by apply Hf|congruence].
Qed.

Lemma guardAndAppend_evolves k tid id epoch chunk d : keyEvolves k d (guardAndAppend tid id epoch chunk d).2.
Proof.
  unfold guardAndAppend. rewrite run_bind.
  destruct (guardWrite_run tid id epoch d) as [(e & He & Ht & _ & ->)|(er & -> & _)]; [|done].
  mrun. by apply keyEvolves_alter.
Qed.

Lemma drain_evolves k ctx tid id epoch poll buf ids : stable (keyEvolves k) (drain ctx tid id epoch poll buf ids).
Proof.
  revert poll buf. induction ids as [|x ids IH]; intros poll buf; simpl; destruct (ctx_Err ctx poll);
    try stable_leaf; [intros d; apply guardAndAppend_evolves|].
  case_match; [|apply IH]. apply stable_bind; [apply _|intros d; apply guardAndAppend_evolves|auto].
Qed.

Lemma claimEntry_evolves cutoff now e : claimable cutoff e = true → evolves e (claimEntry now e).
Proof.
  intros [Hr%bool_decide_eq_true _]%andb_true_iff. split; simpl; [lia|]. by rewrite Hr.
Qed.

(** Claiming a list of entries present in the store, each at most once. *)
Lemma claims_run (now : Time) (l : list ((string * string) * searchJobEntry)) (d : AsyncSearchStore) :
  NoDup l.*1 → (∀ k e, (k, e) ∈ l → d !! k = Some e) →
  ∃ d' : AsyncSearchStore,
    (forM l (λ '(k, _), modify (alter (claimEntry now) k)) : SM unit) d = (Ret tt, d') ∧
    (∀ k e, (k, e) ∈ l → d' !! k = Some (claimEntry now e)) ∧ (∀ k, k ∉ l.*1 → d' !! k = d !! k).
Proof.
  revert d. induction l as [|[k e] l IH]; intros d Hnd Hl; simpl.
  { exists d. split_and!; [done|set_solver|done]. }
  apply NoDup_cons in Hnd as [Hk Hnd]. mrun.
  destruct (IH (alter (claimEntry now) k d)) as (d' & -> & H1 & H2); [done| |].
  { intros k' e' Hin. rewrite lookup_alter_ne; [apply Hl; set_solver|]. intros ->. apply Hk.
    apply list_elem_of_fmap. by exists (k', e'). }
  exists d'. split_and!; [done| |].
  - intros k' e' [[= -> ->]|Hin]%elem_of_cons; [|by apply H1].
    rewrite H2 by done. rewrite lookup_alter_eq, (Hl k e) by set_solver. done.
  - intros k' Hk'. rewrite H2 by set_solver. rewrite lookup_alter_ne; [done|set_solver].
Qed.

#[export] Instance olderFirst_total : Total olderFirst.
Proof.
  intros a b. unfold olderFirst.
  destruct (Z.lt_trichotomy (CreateTime (e_job a.2)) (CreateTime (e_job b.2))) as [?|[?|?]]; [auto| |auto].
  destruct (total String.le (j_ID (e_job a.2)) (j_ID (e_job b.2))); auto.
Qed.
#[export] Instance olderFirst_trans : Transitive olderFirst.
Proof.
  intros a b c [H1|[H1 H1']] [H2|[H2 H2']]; unfold olderFirst; [left; lia..|].
  right. split; [lia|]. by etrans.
Qed.

Lemma claimCandidates_spec cutoff limit order :
  let out := claimCandidates cutoff limit order in
  (1 ≤ limit)%Z → NoDup order.*1 →
  NoDup out.*1 ∧ (∀ p, p ∈ out → p ∈ order ∧ claimable cutoff p.2 = true) ∧
  (Z.of_nat (length out) ≤ limit)%Z ∧
  (∀ p, p ∈ order → claimable cutoff p.2 = true → p ∉ out →
     Z.of_nat (length out) = limit ∧ ∀ q, q ∈ out → olderFirst q p).
Proof.
  intros out Hlim Hnd. subst out. unfold claimCandidates.
  set (l := merge_sort olderFirst _).
  assert (l ≡ₚ filter (λ p, claimable cutoff p.2) order) as Hperm by apply merge_sort_Permutation.
  assert (StronglySorted olderFirst l) as Hs by apply (StronglySorted_merge_sort olderFirst).
  assert (∀ p, p ∈ l ↔ p ∈ order ∧ claimable cutoff p.2 = true) as Hin.
  { intros p. rewrite Hperm, list_elem_of_filter. destruct (claimable cutoff p.2); naive_solver. }
  assert (NoDup l.*1) as Hndl.
  { rewrite Hperm. clear -Hnd. induction order as [|p order IH]; [constructor|]. simpl in Hnd.
    apply NoDup_cons in Hnd as [Hp Hnd]. rewrite filter_cons. case_decide; [|by apply IH].
    simpl. apply NoDup_cons. split; [|by apply IH]. intros (q & Hq & [_ ?]%list_elem_of_filter)%list_elem_of_fmap.
    apply Hp. apply list_elem_of_fmap. eauto. }
  clearbody l. case_decide as Hd.
  - assert (l = take (Z.to_nat limit) l ++ drop (Z.to_nat limit) l) as Hl by (by rewrite take_drop).
    rewrite length_take. split_and!.
    + rewrite Hl, fmap_app in Hndl. by apply NoDup_app in Hndl as (? & _).
    + intros p Hp. apply Hin. rewrite Hl, elem_of_app. by left.
    + lia.
    + intros p Hp Hc Hn. split; [lia|]. intros q Hq. assert (p ∈ l) as Hpl by (by apply Hin).
      rewrite Hl, elem_of_app in Hpl. destruct Hpl as [|Hpl]; [done|].
      by apply (sorted_take_drop _ _ _ _ _ Hs Hq Hpl).
  - split_and!; [done|by apply Hin|lia|]. intros p Hp Hc Hn. destruct Hn. by apply Hin.
Qed.

Lemma ClaimStale_run staleAfter limit now d :
  (1 ≤ limit)%Z → let out := claimCandidates (now - staleAfter) limit (map_to_list d) in
  ∃ d', ClaimStale staleAfter limit now d = (Ret ((λ p, e_job (claimEntry now p.2)) <$> out), d') ∧
    (∀ k e, (k, e) ∈ out → d !! k = Some e ∧ claimable (now - staleAfter) e = true ∧
       d' !! k = Some (claimEntry now e)) ∧
    (∀ k, k ∉ out.*1 → d' !! k = d !! k).
Proof.
  intros Hlim out. destruct (claimCandidates_spec (now - staleAfter) limit (map_to_list d)) as (Hnd & Hin & _);
    [done|apply NoDup_fst_map_to_list|]. fold out in Hnd, Hin.
  destruct (claims_run now out d) as (d' & Hrun & H1 & H2); [done| |].
  { intros k e [Hk _]%Hin. by apply elem_of_map_to_list in Hk. }
  exists d'. split_and!; [|intros k e Hke|done].
  - unfold ClaimStale. rewrite decide_False by lia. mrun. fold out. by rewrite run_bind, Hrun.
  - destruct (Hin _ Hke) as [Hk Hc]. apply elem_of_map_to_list in Hk. auto.
Qed.

Lemma op_evolves k op d : creates k op = false → keyEvolves k d (runSearchOp op d).
Proof.
  intros Hc. destruct op as [ctx job|ctx id ep st n msg fin calc|tid id ep chunk|ctx id ep ids|ctx id
    |ctx id fin|ctx id ep now|stale limit now|ctx id|ctx id ep|ttl now]; simpl in *;
    try (by apply guarded_evolves); try apply guardAndAppend_evolves.
  - apply bool_decide_eq_false in Hc. unfold CreateJob. destruct (resolveTenant ctx) as [er|tid]; mrun; [done|].
    unfold keyEvolves. simpl. rewrite lookup_insert_ne by (destruct k; naive_solver). by destruct (d !! k).
  - unfold SaveResults. destruct (resolveTenant ctx) as [er|tid]; mrun; [done|].
    assert (stable (keyEvolves k) (guardAndAppend tid id ep [];; drain ctx tid id ep 0 [] ids)) as Hst.
    { apply stable_bind; [apply _|intros d'; apply guardAndAppend_evolves|intros _; apply drain_evolves]. }
    apply Hst.
  - unfold DeleteJob. destruct (resolveTenant ctx) as [er|tid]; mrun; [done|]. unfold keyEvolves. simpl.
    destruct (decide (k = (tid, id))) as [->|]; [rewrite lookup_delete_eq; by destruct (d !! _)|].
    rewrite lookup_delete_ne by done. by destruct (d !! k).
  - unfold Cancel, findEntryLocked. destruct (resolveTenant ctx) as [er|tid]; mrun; [done|].
    destruct (d !! (tid, id)) as [e|] eqn:He; mrun; [|done]. destruct (terminal _) eqn:Ht; mrun; [done|].
    unfold keyEvolves. simpl. destruct (decide (k = (tid, id))) as [->|].
    + rewrite lookup_insert_eq, He. split; [done|]. by rewrite Ht.
    + rewrite lookup_insert_ne by done. by destruct (d !! k).
  - destruct (decide (1 ≤ limit)%Z) as [Hl|].
    2:{ unfold ClaimStale. by rewrite decide_True by lia. }
    destruct (ClaimStale_run stale limit now d Hl) as (d' & -> & H1 & H2). unfold keyEvolves. simpl.
    destruct (decide (k ∈ (claimCandidates (now - stale) limit (map_to_list d)).*1)) as [Hin|Hn].
    + apply list_elem_of_fmap in Hin as ([k' e] & -> & Hin). destruct (H1 _ _ Hin) as (E1 & Hcl & E2).
      simpl. rewrite E1, E2. by eapply claimEntry_evolves.
    + rewrite H2 by done. by destruct (d !! k).
  - unfold ClearResults. destruct (resolveTenant ctx) as [er|tid]; mrun; [done|]. by apply keyEvolves_alter.
  - unfold keyEvolves. rewrite map_lookup_filter. destruct (d !! k) as [e|]; simpl; [|done].
    case_guard; simpl; done.
Qed.

Lemma ops_evolve k ops d :
  forallb (λ op, negb (creates k op)) ops = true → keyEvolves k d (foldl (λ d op, runSearchOp op d) d ops).
Proof.
  revert d. induction ops as [|op ops IH]; intros d; simpl; [done|]. intros [Hop Hops]%andb_true_iff.
  etrans; [by apply op_evolves, negb_true_iff|by apply IH].
Qed.

(** ** Results *)

(** A live entry at the worker's epoch. *)
Definition liveAt (d : AsyncSearchStore) (tid id : string) (epoch : Z) (e : searchJobEntry) : Prop :=
  d !! (tid, id) = Some e ∧ terminal (j_Status (e_job e)) = false ∧ Epoch (e_job e) = epoch.

Definition withResults (e : searchJobEntry) (ids : list string) : searchJobEntry :=
  mkEntry (e_job e) (entityIDs e ++ ids) (released e).

Lemma guardAndAppend_run d tid id epoch e chunk :
  liveAt d tid id epoch e →
  guardAndAppend tid id epoch chunk d = (Ret tt, <[(tid, id) := withResults e chunk]> d).
Proof.
  intros (He & Ht & Hep). unfold guardAndAppend. rewrite run_bind.
  destruct (guardWrite_run tid id epoch d) as [(e' & He' & _ & _ & ->)|(er & _ & Hno)].
  - mrun. simplify_eq. f_equal. apply map_eq. intros k. destruct (decide (k = (tid, id))) as [->|].
    + by rewrite lookup_alter_eq, lookup_insert_eq, He.
    + by rewrite lookup_alter_ne, lookup_insert_ne.
  - destruct (Hno e He); congruence.
Qed.

Lemma liveAt_withResults d tid id epoch e chunk :
  liveAt d tid id epoch e → liveAt (<[(tid, id) := withResults e chunk]> d) tid id epoch (withResults e chunk).
Proof. intros (He & Ht & Hep). split; [by rewrite lookup_insert_eq|done]. Qed.

Lemma withResults_app e a b : withResults (withResults e a) b = withResults e (a ++ b).
Proof. unfold withResults. simpl. by rewrite app_assoc. Qed.

Lemma drain_run ctx d tid id epoch e poll buf ids :
  (∀ n, ctx_Err ctx n = None) → liveAt d tid id epoch e →
  drain ctx tid id epoch poll buf ids d = (Ret tt, <[(tid, id) := withResults e (buf ++ ids)]> d).
Proof.
  intros Hctx. revert d e poll buf. induction ids as [|x ids IH]; intros d e poll buf Hl; simpl; rewrite Hctx.
  - rewrite app_nil_r. by apply guardAndAppend_run.
  - case_decide.
    + rewrite run_bind, (guardAndAppend_run _ _ _ _ e) by done.
      rewrite (IH _ (withResults e (buf ++ [x]))) by (by apply liveAt_withResults).
      rewrite insert_insert_eq, withResults_app. simpl. by rewrite <- app_assoc.
    + rewrite (IH _ e) by done. by rewrite <- app_assoc.
Qed.

(** C38. A worker that lost its claim cannot write.  Once a job's epoch is above the
    worker's, then whatever the store's clients do next short of creating a new job
    under the same id, every write the worker attempts with its old epoch (status,
    results, heartbeat, release) fails and changes nothing. *)
Theorem stale_worker_is_fenced ctx tid id epoch d e ops status count msg finish calc now ids :
  resolveTenant ctx = inr tid → d !! (tid, id) = Some e → (epoch < Epoch (e_job e))%Z →
  forallb (λ op, negb (creates (tid, id) op)) ops = true →
  let d' := foldl (λ d op, runSearchOp op d) d ops in
  (∃ er, UpdateJobStatus ctx id epoch status count msg finish calc d' = (Err er, d')) ∧
  (∃ er, SaveResults ctx id epoch ids d' = (Err er, d')) ∧
  (∃ er, Heartbeat ctx id epoch now d' = (Err er, d')) ∧
  (∃ er, Release ctx id epoch d' = (Err er, d')).
Proof.
  intros Ht He Hlt Hops d'. pose proof (ops_evolve (tid, id) ops d Hops) as Hev. fold d' in Hev.
  assert (∃ er, guardWrite tid id epoch d' = (Err er, d')) as [er Hg].
  { destruct (guardWrite_run tid id epoch d') as [(e' & He' & _ & Hep & _)|(er & Hg & _)]; [|eauto].
    unfold keyEvolves in Hev. rewrite He, He' in Hev. destruct Hev as [Hev _]. lia. }
  unfold UpdateJobStatus, SaveResults, Heartbeat, Release, guarded, guardAndAppend. rewrite Ht. mrun.
  rewrite !run_bind, Hg. eauto 10.
Qed.

(** A finished job stays as it finished.  Once a job is in a terminal status,
    no sequence of operations short of creating a new job under the same id changes
    its record (status, error, counts, finish time, epoch); it can only disappear. *)
Theorem terminal_job_is_final k d e ops :
  d !! k = Some e → terminal (j_Status (e_job e)) = true →
  forallb (λ op, negb (creates k op)) ops = true →
  match foldl (λ d op, runSearchOp op d) d ops !! k with
  | None => True
  | Some e' => e_job e' = e_job e
  end.
Proof.
  intros He Ht Hops. pose proof (ops_evolve k ops d Hops) as Hev. unfold keyEvolves in Hev. rewrite He in Hev.
  destruct (foldl _ d ops !! k) as [e'|]; [|done]. by apply Hev.
Qed.

(** Claiming stale jobs.  A claim takes at most [limit] jobs, all of them
    claimable, advances the epoch of each by one and leaves the others untouched; a
    claimable job is passed over only when the limit was used up by jobs created no
    later; and a job just claimed is not claimable again until a full staleness
    period has passed. *)
Theorem claim_stale_oldest_first staleAfter limit now d :
  (1 ≤ limit)%Z →
  ∃ (out : list ((string * string) * searchJobEntry)) d',
    ClaimStale staleAfter limit now d = (Ret ((λ p, e_job (claimEntry now p.2)) <$> out), d') ∧
    (Z.of_nat (length out) ≤ limit)%Z ∧
    (∀ k e, (k, e) ∈ out → d !! k = Some e ∧ claimable (now - staleAfter) e = true ∧
       ∃ e', d' !! k = Some e' ∧ Epoch (e_job e') = (Epoch (e_job e) + 1)%Z ∧
         ∀ cutoff, (cutoff ≤ now)%Z → claimable cutoff e' = false) ∧
    (∀ k, k ∉ out.*1 → d' !! k = d !! k) ∧
    (∀ k e, d !! k = Some e → claimable (now - staleAfter) e = true → k ∉ out.*1 →
       Z.of_nat (length out) = limit ∧ ∀ q, q ∈ out → (CreateTime (e_job q.2) ≤ CreateTime (e_job e))%Z).
Proof.
  intros Hl. destruct (ClaimStale_run staleAfter limit now d Hl) as (d' & Hrun & H1 & H2).
  destruct (claimCandidates_spec (now - staleAfter) limit (map_to_list d)) as (_ & _ & Hlen & Hrest);
    [done|apply NoDup_fst_map_to_list|].
  eexists _, d'. split; [exact Hrun|]. split_and!; [done| |done|].
  - intros k e Hke. destruct (H1 k e Hke) as (? & ? & Hd'). split_and!; [done..|].
    eexists. split_and!; [done|done|]. intros cutoff Hc. unfold claimable, Before. simpl.
    rewrite (bool_decide_false (now < cutoff)%Z) by lia. by rewrite andb_false_r.
  - intros k e He Hc Hn. destruct (Hrest (k, e)) as [? Hold]; [by apply elem_of_map_to_list|done| |].
    { intros Hin. apply Hn. apply list_elem_of_fmap. by exists (k, e). }
    split; [done|]. intros q Hq. destruct (Hold q Hq) as [?|[? _]]; simpl in *; lia.
Qed.

(** Results round trip.  A worker that holds the job at the current epoch and is
    not cancelled saves its result ids however many chunks they take, and reading
    them back page by page, whatever the page size, returns the ids saved before
    followed by the new ones, in order, with the right total on every page. *)
Theorem save_results_roundtrip ctx tid id epoch d e ids limit n :
  resolveTenant ctx = inr tid → (∀ k, ctx_Err ctx k = None) → liveAt d tid id epoch e →
  let all := entityIDs e ++ ids in
  (1 ≤ limit)%Z → (Z.of_nat (length all) ≤ Z.of_nat n * limit)%Z → (Z.of_nat n * limit + limit ≤ maxInt64)%Z →
  ∃ d', SaveResults ctx id epoch ids d = (Ret tt, d') ∧
    ∃ pages, (∀ i, i < n → ∃ page, pages !! i = Some page ∧
        GetResultIDs ctx id (Z.of_nat i * limit) limit d' = (Ret (page, Z.of_nat (length all)), d')) ∧
      length pages = n ∧ mjoin pages = all.
Proof.
  intros Ht Hctx Hl all Hlim Hn Hmax. eexists. split.
  { unfold SaveResults. rewrite Ht. mrun. rewrite run_bind, (guardAndAppend_run _ _ _ _ e) by done.
    rewrite (drain_run ctx _ _ _ _ (withResults e [])) by (done || by apply liveAt_withResults).
    rewrite insert_insert_eq, withResults_app. simpl. done. }
  exists ((λ i, take (Z.to_nat limit) (drop (Z.to_nat (Z.of_nat i * limit)) all)) <$> seq 0 n).
  split_and!; [|by rewrite length_fmap, length_seq|by apply windows_concat].
  intros i Hi. eexists. split; [by rewrite list_lookup_fmap, lookup_seq_lt by done|].
  unfold GetResultIDs. rewrite decide_False by lia. rewrite Ht. unfold findEntryLocked. mrun.
  rewrite lookup_insert_eq. mrun. simpl. fold all.
  rewrite window_ok by nia. unfold orPanic. by mrun.
Qed.

(** ** Witnesses *)

Definition sampleJob (id status : string) (created : Time) : SearchJob :=
  mkJob id "t" status Sample.model "" "" 0 "" created None 0 None 1 0.
Definition sampleJobs : AsyncSearchStore :=
  {[("t", "j1") := mkEntry (sampleJob "j1" "RUNNING" 10) ["a"] false;
    ("t", "j2") := mkEntry (sampleJob "j2" "FAILED" 20) [] false;
    ("u", "j3") := mkEntry (sampleJob "j3" "RUNNING" 5) [] false]}.

Lemma stale_worker_is_fenced_witness :
  let d := (ClaimStale 100 5 1000 sampleJobs).2 in
  let d' := foldl (λ d op, runSearchOp op d) d [SHeartbeat (Sample.ctx "t") "j1" 2 1001] in
  ∃ er, UpdateJobStatus (Sample.ctx "t") "j1" 1 "SUCCESSFUL" 3 "" 1002 7 d' = (Err er, d').
Proof.
  apply (stale_worker_is_fenced (Sample.ctx "t") "t" "j1" 1 (ClaimStale 100 5 1000 sampleJobs).2
    (claimEntry 1000 (mkEntry (sampleJob "j1" "RUNNING" 10) ["a"] false))
    [SHeartbeat (Sample.ctx "t") "j1" 2 1001] "SUCCESSFUL" 3 "" 1002 7 0 []); by_eval.
Defined.

Lemma terminal_job_is_final_witness :
  e_job <$> foldl (λ d op, runSearchOp op d) sampleJobs
    [SCancel (Sample.ctx "t") "j2" 50; SUpdate (Sample.ctx "t") "j2" 1 "SUCCESSFUL" 9 "" 60 1] !! ("t", "j2") =
  Some (sampleJob "j2" "FAILED" 20).
Proof.
  pose proof (terminal_job_is_final ("t", "j2") sampleJobs (mkEntry (sampleJob "j2" "FAILED" 20) [] false)
    [SCancel (Sample.ctx "t") "j2" 50; SUpdate (Sample.ctx "t") "j2" 1 "SUCCESSFUL" 9 "" 60 1]
    ltac:(by_eval) ltac:(by_eval) ltac:(by_eval)) as Hf.
  destruct (foldl _ _ _ !! _) as [e'|] eqn:He; [simpl; by f_equal|]. vm_compute in He. discriminate He.
Defined.

Lemma claim_stale_oldest_first_witness :
  (λ r, match r with Ret l => j_ID <$> l | _ => [] end) (ClaimStale 100 1 1000 sampleJobs).1 = ["j3"] ∧
  ∃ out d', ClaimStale 100 1 1000 sampleJobs = (Ret ((λ p, e_job (claimEntry 1000 p.2)) <$> out), d') ∧
    (Z.of_nat (length (out : list ((string * string) * searchJobEntry))) ≤ 1)%Z.
Proof.
  split; [by_eval|].
  destruct (claim_stale_oldest_first 100 1 1000 sampleJobs ltac:(done)) as (out & d' & Hrun & Hlen & _).
  exists out, d'. by split.
Defined.

Lemma save_results_roundtrip_witness :
  ∃ d', SaveResults (Sample.ctx "t") "j1" 1 ["b"; "c"] sampleJobs = (Ret tt, d') ∧
    ∃ pages, length (pages : list (list string)) = 2 ∧ mjoin pages = ["a"; "b"; "c"].
Proof.
  destruct (save_results_roundtrip (Sample.ctx "t") "t" "j1" 1 sampleJobs
    (mkEntry (sampleJob "j1" "RUNNING" 10) ["a"] false) ["b"; "c"] 2 2) as (d' & Hrun & pages & _ & Hlen & Hall).
  1-6: first [by_eval|done|split; by_eval].
  exists d'. split; [done|]. by exists pages.
Defined.
