(* ===== verification/MemStores.v ===== *)
(** * Memory plugin: key-value, model, workflow and audit stores

    [plugins/memory/kv_store.go], [model_store.go], [workflow_store.go] and
    [sm_audit_store.go].  Each is a tenant's view of one map of the factory, under
    that map's own lock.  Byte slices and descriptors are copied on the way in and
    on the way out, so values here are shared freely. *)

From stdpp Require Import base gmap strings list fin_maps.
From S2P Require Import Prelude Spi.

(** ** Key-value store *)
Module KVStore.

(** [kvData]: tenant, namespace, key. *)
Abbreviation KV := (gmap string (gmap string (gmap string string))).
Abbreviation KM := (M err KV).

Definition namespaceOf (d : KV) (tenant namespace : string) : gmap string string :=
  default ∅ (default ∅ (d !! tenant) !! namespace).

Definition setNamespace (tenant namespace : string) (ns : gmap string string) (d : KV) : KV :=
  <[tenant := <[namespace := ns]> (default ∅ (d !! tenant))]> d.

Definition kvPut (tenant namespace key value : string) : KM unit :=
  modify (λ d, setNamespace tenant namespace (<[key := value]> (namespaceOf d tenant namespace)) d).

Definition kvGet (tenant namespace key : string) : KM string :=
  d ← get;
  match default ∅ (d !! tenant) !! namespace with
  | None => fail ErrNotFound
  | Some ns => match ns !! key with None => fail ErrNotFound | Some v => mret v end
  end.

(** Deleting in a namespace that does not exist does nothing. *)
Definition kvDelete (tenant namespace key : string) : KM unit :=
  d ← get;
  match default ∅ (d !! tenant) !! namespace with
  | None => mret tt
  | Some ns => put (setNamespace tenant namespace (delete key ns) d)
  end.

Definition kvList (tenant namespace : string) : KM (gmap string string) :=
  d ← get; mret (namespaceOf d tenant namespace).

(** The store as a partial function on (tenant, namespace, key). *)
Definition view (d : KV) (tenant namespace key : string) : option string := namespaceOf d tenant namespace !! key.

Lemma view_set tenant namespace ns d t n k :
  view (setNamespace tenant namespace ns d) t n k =
    if decide (t = tenant ∧ n = namespace) then ns !! k else view d t n k.
Proof.
  unfold view, namespaceOf, setNamespace. case_decide as Hd.
  - destruct Hd as [-> ->]. rewrite lookup_insert_eq. simpl. by rewrite lookup_insert_eq.
  - destruct (decide (t = tenant)) as [->|].
    + rewrite lookup_insert_eq. simpl. rewrite lookup_insert_ne; [done|naive_solver].
    + by rewrite lookup_insert_ne.
Qed.

(** The key-value store is a map: [kvGet] answers what the last [kvPut] of that
    tenant, namespace and key stored unless it was deleted since, [kvList] returns
    exactly the keys of the namespace, and neither writing nor deleting affects any
    other key, namespace or tenant. *)
Theorem kv_store_is_a_map tenant namespace key value d :
  (∀ t n k, view (kvPut tenant namespace key value d).2 t n k =
     if decide (t = tenant ∧ n = namespace ∧ k = key) then Some value else view d t n k) ∧
  (∀ t n k, view (kvDelete tenant namespace key d).2 t n k =
     if decide (t = tenant ∧ n = namespace ∧ k = key) then None else view d t n k) ∧
  kvGet tenant namespace key d =
    (match view d tenant namespace key with Some v => Ret v | None => Err ErrNotFound end, d) ∧
  (∃ m, kvList tenant namespace d = (Ret m, d) ∧ ∀ k, m !! k = view d tenant namespace k).
Proof.
  split_and!.
  - intros t n k. unfold kvPut. mrun. simpl. rewrite view_set. unfold view.
    destruct (decide (t = tenant ∧ n = namespace)) as [[-> ->]|Hd]; [|rewrite decide_False by naive_solver; done].
    destruct (decide (k = key)) as [->|].
    + by rewrite lookup_insert_eq, decide_True.
    + rewrite lookup_insert_ne, decide_False by naive_solver. done.
  - intros t n k. unfold kvDelete. mrun. destruct (default ∅ (d !! tenant) !! namespace) as [ns|] eqn:Hns; mrun; simpl.
    + rewrite view_set. unfold view, namespaceOf.
      destruct (decide (t = tenant ∧ n = namespace)) as [[-> ->]|Hd]; [|rewrite decide_False by naive_solver; done].
      rewrite Hns. simpl. destruct (decide (k = key)) as [->|].
      * by rewrite lookup_delete_eq, decide_True.
      * rewrite lookup_delete_ne, decide_False by naive_solver. done.
    + case_decide as Hd; [|done]. destruct Hd as (-> & -> & ->). unfold view, namespaceOf. by rewrite Hns.
  - unfold kvGet, view, namespaceOf. mrun. destruct (default ∅ (d !! tenant) !! namespace) as [ns|]; simpl; [|done].
    by destruct (ns !! key).
  - unfold kvList. mrun. by eexists.
Qed.
End KVStore.

(** ** Model store *)
Module ModelStore.

Inductive ModelState : Type := ModelUnlocked | ModelLocked.

Record ModelDescriptor := mkDesc {
  d_Ref : ModelRef; d_State : ModelState; d_ChangeLevel : string; d_Schema : string;
  d_UniqueKeys : list UniqueKey }.

Abbreviation Models := (gmap string (gmap ModelRef ModelDescriptor)).
Abbreviation DM := (M err Models).

(** [applyFunc] replays a schema delta on the stored schema; [None] when it was
    never installed.  A delta is opaque to the plugin: it only asks whether it is
    empty. *)
Section WithApply.
Context {Op : Type} (applyFunc : option (string → list Op → err + string)).

Definition lookupModel (d : Models) (tenant : string) (ref : ModelRef) : option ModelDescriptor :=
  default ∅ (d !! tenant) !! ref.
Definition setModel (tenant : string) (ref : ModelRef) (desc : ModelDescriptor) (d : Models) : Models :=
  <[tenant := <[ref := desc]> (default ∅ (d !! tenant))]> d.

Definition modelSave (tenant : string) (desc : ModelDescriptor) : DM unit := modify (setModel tenant (d_Ref desc) desc).

Definition modelGet (tenant : string) (ref : ModelRef) : DM ModelDescriptor :=
  d ← get; match lookupModel d tenant ref with None => fail ErrNotFound | Some e => mret e end.

Definition modelGetAll (tenant : string) : DM (list ModelRef) :=
  d ← get; mret (map_to_list (default ∅ (d !! tenant))).*1.

Definition modelDelete (tenant : string) (ref : ModelRef) : DM unit :=
  d ← get;
  match lookupModel d tenant ref with
  | None => fail ErrNotFound
  | Some _ => put (<[tenant := delete ref (default ∅ (d !! tenant))]> d)
  end.

(** Writing through the stored descriptor. *)
Definition updateModel (tenant : string) (ref : ModelRef) (f : ModelDescriptor → ModelDescriptor) : DM unit :=
  d ← get;
  match lookupModel d tenant ref with
  | None => fail (ErrText "model not found")
  | Some e => put (setModel tenant ref (f e) d)
  end.

Definition desc_set_State (st : ModelState) (e : ModelDescriptor) :=
  mkDesc (d_Ref e) st (d_ChangeLevel e) (d_Schema e) (d_UniqueKeys e).
Definition desc_set_ChangeLevel (l : string) (e : ModelDescriptor) :=
  mkDesc (d_Ref e) (d_State e) l (d_Schema e) (d_UniqueKeys e).
Definition desc_set_Schema (sch : string) (e : ModelDescriptor) :=
  mkDesc (d_Ref e) (d_State e) (d_ChangeLevel e) sch (d_UniqueKeys e).

Definition modelLock (tenant : string) (ref : ModelRef) : DM unit := updateModel tenant ref (desc_set_State ModelLocked).
Definition modelUnlock (tenant : string) (ref : ModelRef) : DM unit := updateModel tenant ref (desc_set_State ModelUnlocked).
Definition SetChangeLevel (tenant : string) (ref : ModelRef) (level : string) : DM unit :=
  updateModel tenant ref (desc_set_ChangeLevel level).

Definition IsLocked (tenant : string) (ref : ModelRef) : DM bool :=
  d ← get;
  match lookupModel d tenant ref with
  | None => fail (ErrText "model not found")
  | Some e => mret match d_State e with ModelLocked => true | ModelUnlocked => false end
  end.

Definition ExtendSchema (tenant : string) (ref : ModelRef) (delta : list Op) : DM unit :=
  if decide (length delta = 0) then mret tt else
  match applyFunc with
  | None => fail (ErrText "memory: ApplyFunc not wired (use WithApplyFunc)")
  | Some apply =>
      d ← get;
      match lookupModel d tenant ref with
      | None => fail ErrNotFound
      | Some e =>
          match apply (d_Schema e) delta with
          | inl _ => fail (ErrText "apply delta")
          | inr newSchema => put (setModel tenant ref (desc_set_Schema newSchema e) d)
          end
      end
  end.
End WithApply.
End ModelStore.

(** ** Workflow store *)
Module WorkflowStore.

(** [copyWorkflows] is the JSON round trip that copies definitions. *)
Section WithCopy.
Context {W : Type} (copyWorkflows : list W → err + list W).

Abbreviation Workflows := (gmap string (gmap ModelRef (list W))).
Abbreviation WM := (M err Workflows).

(** The tenant's map is created before the copy can fail. *)
Definition workflowSave (tenant : string) (ref : ModelRef) (workflows : list W) : WM unit :=
  modify (λ d, <[tenant := default ∅ (d !! tenant)]> d);;
  match copyWorkflows workflows with
  | inl e => fail e
  | inr cp => modify (λ d, <[tenant := <[ref := cp]> (default ∅ (d !! tenant))]> d)
  end.

Definition workflowGet (tenant : string) (ref : ModelRef) : WM (list W) :=
  d ← get;
  match d !! tenant with
  | None => mret []
  | Some m => match m !! ref with None => mret [] | Some wfs => lift_sum (copyWorkflows wfs) end
  end.

Definition workflowDelete (tenant : string) (ref : ModelRef) : WM unit :=
  d ← get;
  match d !! tenant with
  | None => mret tt
  | Some m => put (<[tenant := delete ref m]> d)
  end.
End WithCopy.
End WorkflowStore.

(** ** Audit store *)
Module AuditStore.

Record StateMachineEvent := mkEvent {
  ev_EventType : string; ev_EntityID : string; ev_State : string; ev_TransactionID : string;
  ev_Details : string; ev_Timestamp : Time }.

Abbreviation Audit := (gmap string (gmap string (list StateMachineEvent))).
Abbreviation AM := (M err Audit).

Definition eventsOf (d : Audit) (tenant entityID : string) : list StateMachineEvent :=
  default [] (default ∅ (d !! tenant) !! entityID).

Definition RecordEvent (tenant entityID : string) (event : StateMachineEvent) : AM unit :=
  modify (λ d, <[tenant := <[entityID := eventsOf d tenant entityID ++ [event]]> (default ∅ (d !! tenant))]> d).

Definition GetEvents (tenant entityID : string) : AM (list StateMachineEvent) :=
  d ← get;
  match d !! tenant with
  | None => mret []
  | Some m => match m !! entityID with None => mret [] | Some events => mret events end
  end.

Definition GetEventsByTransaction (tenant entityID transactionID : string) : AM (list StateMachineEvent) :=
  d ← get;
  match d !! tenant with
  | None => mret []
  | Some m => match m !! entityID with
              | None => mret []
              | Some events => mret (filter (λ e, ev_TransactionID e = transactionID) events) end
  end.

(** The audit trail is append-only and complete: after recording a list of
    events for an entity, reading it back gives what was there followed by those
    events in order, reading by transaction gives the sub-trail of that transaction,
    and no other entity's or tenant's trail changes. *)
Theorem audit_trail_append_only tenant entityID events d :
  ∃ d', forM events (RecordEvent tenant entityID) d = (Ret tt, d') ∧
    GetEvents tenant entityID d' = (Ret (eventsOf d tenant entityID ++ events), d') ∧
    (∀ txID, GetEventsByTransaction tenant entityID txID d' =
       (Ret (filter (λ e, ev_TransactionID e = txID) (eventsOf d tenant entityID) ++
             filter (λ e, ev_TransactionID e = txID) events), d')) ∧
    (∀ t e, (t, e) ≠ (tenant, entityID) → eventsOf d' t e = eventsOf d t e).
Proof.
  assert (∃ d', forM events (RecordEvent tenant entityID) d = (Ret tt, d') ∧
    (∀ t e, eventsOf d' t e = eventsOf d t e ++ if decide ((t, e) = (tenant, entityID)) then events else [])) as Hgo.
  { revert d. induction events as [|x events IH]; intros d.
    { exists d. split; [done|]. intros t e. case_decide; by rewrite app_nil_r. }
    destruct (IH (<[tenant := <[entityID := eventsOf d tenant entityID ++ [x]]> (default ∅ (d !! tenant))]> d))
      as (d' & Hr & Hd'). exists d'. split; [exact Hr|]. intros t e. rewrite Hd'. unfold eventsOf.
    case_decide as Hk; [injection Hk as -> ->|].
    - rewrite lookup_insert_eq. simpl. rewrite lookup_insert_eq. simpl. by rewrite <- app_assoc.
    - rewrite !app_nil_r. destruct (decide (t = tenant)) as [->|].
      + rewrite lookup_insert_eq. simpl. rewrite lookup_insert_ne; [done|congruence].
      + by rewrite lookup_insert_ne. }
  destruct Hgo as (d' & Hrun & Hd'). exists d'.
  assert (eventsOf d' tenant entityID = eventsOf d tenant entityID ++ events) as He by (by rewrite Hd', decide_True).
  assert (GetEvents tenant entityID d' = (Ret (eventsOf d' tenant entityID), d')) as Hget.
  { unfold GetEvents, eventsOf. mrun. destruct (d' !! tenant) as [m|]; simpl; [|done]. by destruct (m !! entityID). }
  split_and!; [done|by rewrite Hget, He| |].
  - intros txID. rewrite <- filter_app, <- He. unfold GetEventsByTransaction, eventsOf. mrun.
    destruct (d' !! tenant) as [m|]; simpl; [|done]. by destruct (m !! entityID).
  - intros t e Hne. by rewrite Hd', decide_False, app_nil_r.
Qed.
End AuditStore.
