(* ===== verification/Workflow.v ===== *)
(** * The workflow engine: data, environment, criteria, segments

    Models [internal/domain/workflow/engine.go] and [engine_processors.go] up to
    a single transition: the definitions the engine interprets, the criteria, the
    processors with their execution modes and the transaction segments a
    COMMIT_BEFORE_DISPATCH processor commits and opens.  The entry points are in
    WorkflowRun, the scheduler's door in WorkflowFire.

    The engine runs against stores, a transaction manager, compute nodes and the
    condition language.  They are the class [Env]: operations on an environment
    state [W] which may answer anything, fail or panic.  The model keeps a trace
    of the calls the engine makes to them; the properties are stated on it. *)

From stdpp Require Import base gmap strings list.
From S2P Require Import Prelude Spi.

(** ** Workflow definitions *)

Record ProcessorDefinition := mkProc {
  pr_Name : string;
  pr_Type : string;
  pr_ExecutionMode : string;
  pr_StartNewTxOnDispatch : option bool;
  pr_AsyncResult : option bool;
  pr_CrossoverToAsyncMs : option Z;
  pr_RetryPolicy : string;
  pr_AttachEntity : bool;
  pr_Annotations : string
}.

Record ScheduleFunction := mkFunction {
  sf_Name : string;
  sf_ResultKind : string;
  sf_CalculationNodesTags : string;
  sf_AttachEntity : bool
}.

Record Schedule := mkSchedule {
  sc_DelayMs : Z;
  sc_TimeoutMs : option Z;
  sc_Function : option ScheduleFunction
}.

Record TransitionDefinition := mkTransition {
  tr_Name : string;
  tr_Next : string;
  tr_Manual : bool;
  tr_Disabled : bool;
  tr_Criterion : string;
  tr_Processors : list ProcessorDefinition;
  tr_Schedule : option Schedule;
  tr_Annotations : string;
  tr_CriterionAnnotations : string
}.

Record StateDefinition := mkState {
  st_Transitions : list TransitionDefinition;
  st_Annotations : string
}.

Record WorkflowDefinition := mkWorkflow {
  wf_Name : string;
  wf_Active : bool;
  wf_InitialState : string;
  wf_Criterion : string;
  wf_StateDefs : gmap string StateDefinition;
  wf_Version : string;
  wf_Description : string;
  wf_Annotations : string;
  wf_CriterionAnnotations : string
}.

(** The transitions leaving each declared state. *)
Definition wf_States (wf : WorkflowDefinition) : gmap string (list TransitionDefinition) :=
  st_Transitions <$> wf_StateDefs wf.

(** Definitions without descriptions and annotations. *)
Definition plainTransition (name next : string) (manual disabled : bool) (criterion : string)
    (procs : list ProcessorDefinition) (sched : option Schedule) : TransitionDefinition :=
  mkTransition name next manual disabled criterion procs sched "" "".
Definition plainWorkflow (name : string) (active : bool) (initial criterion : string)
    (states : gmap string (list TransitionDefinition)) (version : string) : WorkflowDefinition :=
  mkWorkflow name active initial criterion ((λ trs, mkState trs "") <$> states) version "" "" "".

Definition ExecutionModeAsyncNewTx : string := "ASYNC_NEW_TX".
Definition ExecutionModeCommitBeforeDispatch : string := "COMMIT_BEFORE_DISPATCH".
Definition ProcessorTypeInternalized : string := "internalized".

(** ** Errors

    Go wraps and joins errors; [errors.Is] looks through both. *)
Inductive sentinel : Type :=
| ErrTransitionNotFound | ErrCriterionNotMatched | ErrCriterionTypingInfra
| ErrProcessorOutputRejected | ErrProcessorOutputInfra
| ErrCommitBeforeDispatchInfra | ErrPostSegmentConflict | ErrCommitInterrupted
| ErrScheduledTaskInfra.
#[export] Instance sentinel_eq_dec : EqDecision sentinel.
Proof. solve_decision. Defined.

(** An application error: how the API answers, apart from its text. *)
Inductive ErrorLevel : Type := LevelOperational | LevelInternal | LevelFatal.
#[export] Instance ErrorLevel_eq_dec : EqDecision ErrorLevel.
Proof. solve_decision. Defined.
Record AppError := mkApp { ap_Level : ErrorLevel; ap_Status : Z; ap_Code : string; ap_Retryable : bool }.

Inductive eerr : Type :=
| EStore (e : err)
| EApp (a : AppError) (cause : option eerr)
| ESentinel (s : sentinel)
| EText (msg : string)
| EWrap (msg : string) (e : eerr)
| EJoin (e1 e2 : eerr).

Fixpoint isErr (e : eerr) (target : err) : bool :=
  match e with
  | EStore e' => bool_decide (e' = target)
  | EApp _ (Some e') => isErr e' target
  | EWrap _ e' => isErr e' target
  | EJoin e1 e2 => isErr e1 target || isErr e2 target
  | _ => false
  end.
Fixpoint isSentinel (e : eerr) (target : sentinel) : bool :=
  match e with
  | ESentinel s => bool_decide (s = target)
  | EApp _ (Some e') => isSentinel e' target
  | EWrap _ e' => isSentinel e' target
  | EJoin e1 e2 => isSentinel e1 target || isSentinel e2 target
  | _ => false
  end.

Definition clientAttributableStoreErr (e : eerr) : bool :=
  isErr e ErrConflict || isErr e ErrUniqueViolation || isErr e ErrPartialUniqueKey.

(** ** Audit events

    [ev_Details] lists the values the event's text interpolates. *)
Inductive SMEventType : Type :=
| SMEventStarted | SMEventFinished | SMEventCancelled | SMEventForcedSuccess
| SMEventWorkflowFound | SMEventWorkflowSkipped | SMEventWorkflowNotFound
| SMEventTransitionNotFound | SMEventTransitionCriterionNoMatch | SMEventTransitionMade
| SMEventTransitionAborted | SMEventProcessingPaused | SMEventStateProcessResult
| SMEventScheduledTransitionArmed | SMEventScheduledTransitionCancelled
| SMEventScheduledTransitionExpired | SMEventScheduledTransitionFired.
#[export] Instance SMEventType_eq_dec : EqDecision SMEventType.
Proof. solve_decision. Defined.

Record SMEvent := mkSMEvent {
  ev_Type : SMEventType;
  ev_EntityID : string;
  ev_TimeUUID : string;
  ev_State : string;
  ev_TransactionID : string;
  ev_Details : list string;
  ev_Data : list (string * string);
  ev_Timestamp : Z
}.

(** ** Contexts

    [ec_cancel]: the caller's cancellation still reaches the context (false after
    [context.WithoutCancel]); [ec_slot]: the If-Match cell attached to it, an index
    into the engine's cells; [ec_keys]: the unique keys attached to it. *)
Record ECtx := mkECtx {
  ec_user : option UserContext;
  ec_tx : option string;
  ec_cancel : bool;
  ec_slot : option nat;
  ec_origin : Principal;
  ec_keys : list UniqueKey
}.
Definition withTx (c : ECtx) (tx : option string) : ECtx :=
  mkECtx (ec_user c) tx (ec_cancel c) (ec_slot c) (ec_origin c) (ec_keys c).
Definition WithoutCancel (c : ECtx) : ECtx :=
  mkECtx (ec_user c) (ec_tx c) false (ec_slot c) (ec_origin c) (ec_keys c).
Definition WithAmbientOrigin (c : ECtx) (p : Principal) : ECtx :=
  mkECtx (ec_user c) (ec_tx c) (ec_cancel c) (ec_slot c) p (ec_keys c).
Definition withSlot (c : ECtx) (cell : nat) : ECtx :=
  mkECtx (ec_user c) (ec_tx c) (ec_cancel c) (Some cell) (ec_origin c) (ec_keys c).
Definition WithUniqueKeys (c : ECtx) (keys : list UniqueKey) : ECtx :=
  mkECtx (ec_user c) (ec_tx c) (ec_cancel c) (ec_slot c) (ec_origin c) keys.

(** ** The environment *)

Inductive storeKind : Type :=
| EntityStoreK | ModelStoreK | WorkflowStoreK | AuditStoreK | ScheduledTaskStoreK.

(** The verdict of the model on a processor's output, a rejection being an error. *)
Inductive verdict : Type := Accepted | InternalSchema (e : err).

(** The JSON object of a schedule callout's result. *)
Record scheduleResult := mkSched {
  FireAt : option Z; FireAfterMs : option Z; ExpireAt : option Z; ExpireAfterMs : option Z
}.

Class Env := {
  W : Type;
  (** storage plugin *)
  xStore : storeKind → ECtx → M err W unit;
  xWorkflows : ECtx → ModelRef → M err W (list WorkflowDefinition);
  xRecord : ECtx → string → SMEvent → M err W unit;
  xSave : ECtx → Entity → M err W Entity;
  xCompareAndSave : ECtx → Entity → string → M err W Entity;
  xEntityGet : ECtx → string → M err W Entity;
  xTaskGet : ECtx → string → M err W (option ScheduledTask);
  xTaskDelete : ECtx → string → M err W bool;
  xReconcile : ECtx → ReconcileRequest → M err W (list ScheduledTask);
  xBegin : ECtx → M err W string;
  xCommit : ECtx → string → M err W unit;
  xRollback : ECtx → string → M err W unit;
  xSavepoint : ECtx → string → M err W string;
  xRollbackToSavepoint : ECtx → string → string → M err W unit;
  xReleaseSavepoint : ECtx → string → string → M err W unit;
  (** clocks, ids, cancellation *)
  xNow : W → Z * W;
  xNewTimeUUID : W → string * W;
  xCtxErr : ECtx → W → option err * W;
  xCommitInterrupted : ECtx → W → bool * W;
  xResolveOrigin : ECtx → Principal;
  xTaskHash : string → string;
  (** compute nodes *)
  xDispatchProcessor : ECtx → Entity → ProcessorDefinition → string → string → string →
    M err W (option string);
  xDispatchCriteria : ECtx → Entity → string → string → string → string → string →
    M err W (bool * string);
  xDispatchFunction : ECtx → Entity → ScheduleFunction → string → string → string → M err W (string * string);
  xDecodeSchedule : string → err + scheduleResult;
  (** the condition language and its schema checks: [xValidateKnownPaths] fails on
      an unknown path and returns [inl] when refreshing the schema fails *)
  Condition : Type;
  xParseCondition : string → err + Condition;
  xIsFunction : Condition → bool;
  xConditionType : Condition → string;
  xEnvelope : string → option (string * string * string);
  xConditionFieldPaths : Condition → list string;
  ModelNode : Type;
  xLoadModelNode : ECtx → ModelRef → M err W (option ModelNode);
  xFieldsMap : ModelNode → gmap string (list string);
  xValidateKnownPaths : ECtx → ModelRef → list string → gmap string (list string) →
    M err W (err + gmap string (list string));
  xValidatePatterns : Condition → option err;
  xValidateConditionValueTypes : option ModelNode → Condition → option err;
  xPrepare : Condition → (string → list string) → err + (Entity → bool);
  (** ingestion checks *)
  xDescriptor : Type;
  xModelGet : ECtx → ModelRef → M err W (option xDescriptor);
  xRejectUnstorable : string → option err;
  xDecodeJSON : string → option err;
  xValidateOrExtend : ECtx → xDescriptor → string → M err W verdict
}.

(** ** The engine's configuration and state *)

Record Engine := mkEngine {
  hasTxMgr : bool;
  hasExtProc : bool;
  maxStateVisits : Z;
  defaultWorkflows : list WorkflowDefinition;
  expiryGraceMs : Z
}.

Definition maxCascadeDepth : nat := 100.
Definition defaultMaxStateVisits : Z := 10.
Definition defaultExpiryGraceMs : Z := 100.
Definition defaultCriterionReason : string := "criterion did not match".

(** The embedded [default_workflow.json]. *)
Definition defaultWF : WorkflowDefinition :=
  let plain name next manual := plainTransition name next manual false "" [] None in
  mkWorkflow "default" true "NONE" ""
    (<["NONE" := mkState [plain "NEW" "CREATED" false] ""]>
     (<["CREATED" := mkState [plain "UPDATE" "CREATED" true; plain "DELETE" "DELETED" true] ""]>
      (<["DELETED" := mkState [] ""]> ∅))) "1.4" "Default entity lifecycle workflow" "" "".

Inductive EngineOption : Type :=
| WithExternalProcessing | WithMaxStateVisits (n : Z) | WithExpiryGrace (d : Z).
Definition applyOption (e : Engine) (o : EngineOption) : Engine :=
  match o with
  | WithExternalProcessing => mkEngine (hasTxMgr e) true (maxStateVisits e) (defaultWorkflows e) (expiryGraceMs e)
  | WithMaxStateVisits n =>
      if decide (0 < n)%Z then mkEngine (hasTxMgr e) (hasExtProc e) n (defaultWorkflows e) (expiryGraceMs e) else e
  | WithExpiryGrace d =>
      if decide (0 < d)%Z then mkEngine (hasTxMgr e) (hasExtProc e) (maxStateVisits e) (defaultWorkflows e) (Z.quot d 1000000) else e
  end.
Definition NewEngine (txMgr : bool) (opts : list EngineOption) : Engine :=
  let e := foldl applyOption (mkEngine txMgr false defaultMaxStateVisits [] defaultExpiryGraceMs) opts in
  mkEngine (hasTxMgr e) (hasExtProc e) (maxStateVisits e) [defaultWF] (expiryGraceMs e).

(** The calls the engine and the entity service make; [ok] is whether the call
    returned no error.  [CAcquire] and [CUngate] take and free a transaction's gate. *)
Inductive Call : Type :=
| CRecord (ev : SMEvent)
| CBegin (tx : string)
| CCommit (tx : string) (ok : bool)
| CRollback (tx : string)
| CSave (tx : option string) (ent : Entity) (ok : bool)
| CCompareAndSave (tx : option string) (ent : Entity) (expected : string) (ok : bool)
| CDispatch (proc tx : string)
| CTaskDelete (id : string)
| CReconcile (rq : ReconcileRequest)
| CDelete (tx : option string) (id : string) (ok : bool)
| CDeleteAll (tx : option string) (ref : ModelRef) (ok : bool)
| CAcquire (tx : string)
| CUngate (tx : string).

(** [es_ent] is the entity the engine mutates in place, [es_slots] the If-Match
    cells allocated so far, [es_memo] the pipeline's model-descriptor memo. *)
Record Eng {X : Env} := mkEng {
  es_ent : Entity;
  es_slots : list string;
  es_memo : option (eerr + xDescriptor);
  es_trace : list Call;
  es_w : W
}.
Arguments mkEng {X}.
Abbreviation EM := (M eerr Eng).

(** The locals a guard captures: the open segment, and whether it was handed on. *)
Record Cursor := mkCursor { cu_ctx : ECtx; cu_tx : string; cu_done : bool }.
Abbreviation EL := (M eerr (Eng * Cursor)).

Section Engine.
Context {X : Env}.

Definition set_ent (ent : Entity) (s : Eng) : Eng := mkEng ent (es_slots s) (es_memo s) (es_trace s) (es_w s).
Definition set_slots (x : list string) (s : Eng) : Eng := mkEng (es_ent s) x (es_memo s) (es_trace s) (es_w s).
Definition set_memo (m : option (eerr + xDescriptor)) (s : Eng) : Eng :=
  mkEng (es_ent s) (es_slots s) m (es_trace s) (es_w s).
Definition set_trace (t : list Call) (s : Eng) : Eng := mkEng (es_ent s) (es_slots s) (es_memo s) t (es_w s).
Definition set_w (w : W) (s : Eng) : Eng := mkEng (es_ent s) (es_slots s) (es_memo s) (es_trace s) w.

(** A call to the environment. *)
Definition call {A} (m : M err W A) : EM A := λ s,
  match m (es_w s) with
  | (Ret a, w) => (Ret a, set_w w s)
  | (Err e, w) => (Err (EStore e), set_w w s)
  | (Panic p, w) => (Panic p, set_w w s)
  end.
(** Reading a clock, an id generator or a context's state cannot fail. *)
Definition ask {A} (f : W → A * W) : EM A := λ s, let '(a, w) := f (es_w s) in (Ret a, set_w w s).
Definition logCall (c : Call) : EM unit := modify (λ s, set_trace (es_trace s ++ [c]) s).
Definition isOk {E A} (r : E + A) : bool := match r with inr _ => true | inl _ => false end.

Definition ent : EM Entity := gets es_ent.
Definition state : EM string := gets (λ s, m_State (Meta (es_ent s))).
Definition setState (st : string) : EM unit := modify (λ s, set_ent (ent_set_State st (es_ent s)) s).

Definition txBegin (e : Engine) (ctx : ECtx) : EM (string * ECtx) :=
  if hasTxMgr e then
    tx ← call (xBegin ctx);
    logCall (CBegin tx);;
    mret (tx, withTx ctx (Some tx))
  else panic "nil transaction manager".
Definition txCommit (e : Engine) (ctx : ECtx) (tx : string) : EM unit :=
  if hasTxMgr e then
    r ← try (call (xCommit ctx tx));
    logCall (CCommit tx (isOk r));;
    lift_sum r
  else panic "nil transaction manager".
Definition saveEntity (ctx : ECtx) : EM unit :=
  x ← ent;
  r ← try (call (xSave ctx x));
  logCall (CSave (ec_tx ctx) x (isOk r));;
  x' ← lift_sum r;
  modify (set_ent x').
Definition compareAndSave (ctx : ECtx) (expected : string) : EM unit :=
  x ← ent;
  r ← try (call (xCompareAndSave ctx x expected));
  logCall (CCompareAndSave (ec_tx ctx) x expected (isOk r));;
  x' ← lift_sum r;
  modify (set_ent x').

(** [ctx.Err()]. *)
Definition ctxErr (ctx : ECtx) : EM (option err) :=
  if ec_cancel ctx then ask (xCtxErr ctx) else mret None.

(** ** Auditing *)

(** Best effort: an error of the audit store is dropped. *)
Definition recordEvent (ctx : ECtx) (txID st : string) (ty : SMEventType)
    (details : list string) (data : list (string * string)) : EM unit :=
  x ← ent;
  u ← ask xNewTimeUUID;
  ts ← ask xNow;
  let ev := mkSMEvent ty (m_ID (Meta x)) u st txID details data ts in
  try (call (xRecord ctx (m_ID (Meta x)) ev));;
  logCall (CRecord ev).

Definition resolveAuditTxID : EM string :=
  x ← ent;
  if decide (m_TransactionID (Meta x) ≠ "") then mret (m_TransactionID (Meta x)) else ask xNewTimeUUID.

(** ** Releasing a segment *)

Definition rollbackSegment (e : Engine) (ctx : ECtx) (openTxID entryTxID : string) : EM unit :=
  if decide (hasTxMgr e = false ∨ openTxID = "" ∨ openTxID = entryTxID) then mret tt
  else
    logCall (CRollback openTxID);;
    try (call (xRollback (WithoutCancel ctx) openTxID));;
    mret tt.

(** ** If-Match *)

Definition withIfMatch (ctx : ECtx) (expected : string) : EM ECtx :=
  if decide (expected = "") then mret ctx
  else cells ← gets es_slots; modify (set_slots (cells ++ [expected]));; mret (withSlot ctx (length cells)).
Definition consumeIfMatch (ctx : ECtx) : EM (string * bool) :=
  match ec_slot ctx with
  | Some n =>
      cells ← gets es_slots;
      let x := default "" (cells !! n) in
      if decide (x = "") then mret ("", false)
      else modify (set_slots (<[n := ""]> cells));; mret (x, true)
  | None => mret ("", false)
  end.

(** ** Criteria *)

Definition maxCriterionReasonLen : nat := 2048.
(** [utf8.RuneStart]: not a continuation byte. *)
Definition runeStart (b : Ascii.ascii) : bool := negb (N.land (Ascii.N_of_ascii b) 192 =? 128)%N.
Fixpoint runeCut (s : string) (cut : nat) : nat :=
  match cut with
  | 0 => 0
  | S c => match String.get cut s with
           | Some b => if runeStart b then cut else runeCut s c
           | None => cut
           end
  end.
Definition capReason (s : string) : string :=
  if decide (String.length s ≤ maxCriterionReasonLen) then s
  else String.substring 0 (runeCut s maxCriterionReasonLen) s.

(** [len(c) > 0 && string(c) != "null"]. *)
Definition hasCriterion (c : string) : bool := bool_decide (c ≠ "" ∧ c ≠ "null").

Definition criterionName (criterion : string) : string :=
  let fallback := match xParseCondition criterion with inr cond => xConditionType cond | inl _ => "" end in
  match xEnvelope criterion with
  | Some (ty, name, fname) =>
      if decide (ty = "function") then
        if decide (fname ≠ "") then fname else if decide (name ≠ "") then name else fallback
      else fallback
  | None => fallback
  end.

Record criterionContext := mkCC {
  cc_ctx : ECtx; cc_txID : string; cc_workflowName : string; cc_transitionName : string; cc_target : string
}.

(** The schema a condition on data fields is typed by: the model's node and the
    types of its fields, then the objection to an unknown path. *)
Definition criterionTyping (cc : criterionContext) (paths : list string) :
    EM (option ModelNode * gmap string (list string) * option eerr) :=
  if decide (paths = []) then mret (None, ∅, None)
  else
    x ← ent;
    opened ← try (call (xStore ModelStoreK (cc_ctx cc)));
    match opened with
    | inl err => fail (EJoin (ESentinel ErrCriterionTypingInfra) err)
    | inr _ =>
        loaded ← try (call (xLoadModelNode (cc_ctx cc) (m_ModelRef (Meta x))));
        match loaded with
        | inl err => fail (EJoin (ESentinel ErrCriterionTypingInfra) err)
        | inr node =>
            let fields := match node with Some n => xFieldsMap n | None => ∅ end in
            known ← try (call (xValidateKnownPaths (cc_ctx cc) (m_ModelRef (Meta x)) paths fields));
            match known with
            | inl err => mret (node, fields, Some err)
            | inr (inl err) => fail (EJoin (ESentinel ErrCriterionTypingInfra) (EStore err))
            | inr (inr fields') => mret (node, fields', None)
            end
        end
    end.

Definition evaluateCriterion (e : Engine) (criterion : string) (cc : criterionContext) : EM (bool * string) :=
  match xParseCondition criterion with
  | inl err => fail (EWrap "failed to parse criterion" (EStore err))
  | inr cond =>
      if xIsFunction cond then
        if hasExtProc e then
          x ← ent;
          '(matches, reason) ← call (xDispatchCriteria (cc_ctx cc) x criterion (cc_target cc)
             (cc_workflowName cc) (cc_transitionName cc) (cc_txID cc));
          mret (matches, capReason reason)
        else fail (EText "no external processing service configured for FUNCTION criteria")
      else
        '(node, fields, perr) ← criterionTyping cc (xConditionFieldPaths cond);
        match perr, xValidatePatterns cond, xValidateConditionValueTypes node cond with
        | Some err, _, _ => fail (EText "unknown field path")
        | None, Some err, _ => fail (EStore err)
        | None, None, Some err => fail (EStore err)
        | None, None, None =>
            match xPrepare cond (λ p, default [] (fields !! p)) with
            | inl err => fail (EStore err)
            | inr prepared => x ← ent; mret (prepared x, "")
            end
        end
  end.

(** ** Processor output *)

Definition memoGet (ctx : ECtx) : EM xDescriptor :=
  m ← gets es_memo;
  match m with
  | Some r => lift_sum r
  | None =>
      x ← ent;
      d ← try (call (xModelGet ctx (m_ModelRef (Meta x))));
      let r := match d with
               | inl err => inl (EJoin (ESentinel ErrProcessorOutputInfra) (EText "model store"))
               | inr None => inl (EJoin (ESentinel ErrProcessorOutputInfra) (EText "not found"))
               | inr (Some desc) => inr desc
               end in
      modify (set_memo (Some r));;
      lift_sum r
  end.

(** The causes are folded in as text: no sentinel of theirs shows through. *)
Definition applyProcessorData (ctx : ECtx) (data : string) : EM unit :=
  match xRejectUnstorable data, xDecodeJSON data with
  | Some _, _ => fail (EJoin (ESentinel ErrProcessorOutputRejected) (EText "unstorable"))
  | None, Some _ => fail (EJoin (ESentinel ErrProcessorOutputRejected) (EText "invalid JSON"))
  | None, None =>
      opened ← try (call (xStore ModelStoreK ctx));
      match opened with
      | inl _ => fail (EJoin (ESentinel ErrProcessorOutputInfra) (EText "model store"))
      | inr _ =>
          desc ← memoGet ctx;
          v ← try (call (xValidateOrExtend ctx desc data));
          match v with
          | inr (InternalSchema _) => fail (EJoin (ESentinel ErrProcessorOutputInfra) (EText "schema"))
          | inl _ => fail (EJoin (ESentinel ErrProcessorOutputRejected) (EText "model"))
          | inr Accepted => modify (λ s, set_ent (mkEntity (Meta (es_ent s)) data) s)
          end
      end
  end.

(** A dispatch to a compute node, on the trace. *)
Definition dispatch (ctx : ECtx) (proc : ProcessorDefinition) (wfName trName txID : string) :
    EM (option string) :=
  x ← ent;
  logCall (CDispatch (pr_Name proc) txID);;
  call (xDispatchProcessor ctx x proc wfName trName txID).

Definition executeSyncProcessor (e : Engine) (ctx : ECtx) (proc : ProcessorDefinition)
    (wfName trName txID : string) : EM unit :=
  if hasExtProc e then
    modified ← dispatch ctx proc wfName trName txID;
    match modified with
    | Some data => applyProcessorData ctx data
    | None => mret tt
    end
  else mret tt.

Definition executeAsyncNewTx (e : Engine) (ctx : ECtx) (proc : ProcessorDefinition)
    (wfName trName txID : string) : EM unit :=
  if negb (hasExtProc e) then mret tt
  else if negb (hasTxMgr e) then dispatch ctx proc wfName trName txID;; mret tt
  else
    sp ← try (call (xSavepoint ctx txID));
    match sp with
    | inl err => fail (EWrap "savepoint creation failed" err)
    | inr spID =>
        d ← try (dispatch ctx proc wfName trName txID);
        match d with
        | inl err => try (call (xRollbackToSavepoint ctx txID spID));; fail err
        | inr _ =>
            r ← try (call (xReleaseSavepoint ctx txID spID));
            match r with
            | inl err => fail (EWrap "savepoint release failed" err)
            | inr _ => mret tt
            end
        end
    end.

(** ** Transaction segments *)

(** [common.ShieldedCommitWithBudget]: the commit runs detached from the caller's
    cancellation; a failure while its own budget has run out is in doubt. *)
Definition ShieldedCommit (e : Engine) (ctx : ECtx) (tx : string) : EM unit :=
  r ← try (txCommit e (WithoutCancel ctx) tx);
  match r with
  | inr _ => mret tt
  | inl err =>
      let err' := EWrap "commit-before-dispatch: commit TX_pre" (EJoin (ESentinel ErrCommitBeforeDispatchInfra) err) in
      interrupted ← ask (xCommitInterrupted (WithoutCancel ctx));
      fail (if (interrupted : bool) then EJoin (ESentinel ErrCommitInterrupted) err' else err')
  end.

Definition flushAndCommitSegment (e : Engine) (ctx : ECtx) (txID expectedTxID : string) (applyIfMatch : bool) :
    EM unit :=
  opened ← try (call (xStore EntityStoreK ctx));
  match opened with
  | inl err => fail (EWrap "get entity store" (EJoin (ESentinel ErrCommitBeforeDispatchInfra) err))
  | inr _ =>
      saved ← try (if applyIfMatch then compareAndSave ctx expectedTxID else saveEntity ctx);
      match saved with
      | inl err =>
          if applyIfMatch && clientAttributableStoreErr err then fail err
          else fail (EWrap "flush pre-callout state" (EJoin (ESentinel ErrCommitBeforeDispatchInfra) err))
      | inr _ =>
          expired ← ctxErr ctx;
          match expired with
          | Some err => fail (EWrap "context expired before segment commit" (EStore err))
          | None => ShieldedCommit e ctx txID
          end
      end
  end.

Definition beginSegment (e : Engine) (ctx : ECtx) : EM (string * ECtx) :=
  r ← try (txBegin e (WithoutCancel ctx));
  match r with
  | inl err => fail (EWrap "begin TX_post" (EJoin (ESentinel ErrCommitBeforeDispatchInfra) err))
  | inr p => mret p
  end.

Definition commitAndBeginNextSegment (e : Engine) (ctx : ECtx) (txID expectedTxID : string) (applyIfMatch : bool) :
    EM (string * ECtx) :=
  flushAndCommitSegment e ctx txID expectedTxID applyIfMatch;;
  beginSegment e ctx.

(** The current row's transaction id, read outside any transaction. *)
Definition LookupActualTxID (ctx : ECtx) (entityID : string) : EM string :=
  let readCtx := withTx (WithoutCancel ctx) None in
  opened ← try (call (xStore EntityStoreK readCtx));
  match opened with
  | inl _ => mret ""
  | inr _ =>
      row ← try (call (xEntityGet readCtx entityID));
      mret (match row with inr x => m_TransactionID (Meta x) | inl _ => "" end)
  end.
Definition recordAbortForIfMatchConflict (ctx : ECtx) (entryTxID trName expected : string) : EM unit :=
  x ← ent;
  actual ← LookupActualTxID ctx (m_ID (Meta x));
  recordEvent ctx entryTxID (m_State (Meta x)) SMEventTransitionAborted [trName]
    [("reason", "ENTITY_MODIFIED"); ("transitionName", trName); ("expectedTxId", expected); ("actualTxId", actual)].

(** The first half of a COMMIT_BEFORE_DISPATCH: commit the open segment, dispatch,
    open the next one.  The result is the new segment and the data returned. *)
Definition commitAndDispatch (e : Engine) (ctx : ECtx) (proc : ProcessorDefinition)
    (wfName trName txID entryTxID : string) : EL (string * ECtx * option string) :=
  let aborting (expected : string) (consumed : bool) (err : eerr) : EM unit :=
    if consumed && isErr err ErrConflict then recordAbortForIfMatchConflict ctx entryTxID trName expected
    else mret tt in
  '(expected, consumed) ← up (consumeIfMatch ctx);
  if default false (pr_StartNewTxOnDispatch proc) then
    next ← up (try (commitAndBeginNextSegment e ctx txID expected consumed));
    match next with
    | inl err => setL (mkCursor ctx "" false);; up (aborting expected consumed err);; fail err
    | inr (newTxID, newCtx) =>
        setL (mkCursor newCtx newTxID false);;
        if hasExtProc e then
          modified ← up (dispatch newCtx proc wfName trName newTxID);
          mret (newTxID, newCtx, modified)
        else mret (newTxID, newCtx, None)
    end
  else
    flushed ← up (try (flushAndCommitSegment e ctx txID expected consumed));
    match flushed with
    | inl err => up (aborting expected consumed err);; fail err
    | inr _ =>
        modified ← (if hasExtProc e
                    then up (dispatch (withTx (WithoutCancel ctx) None) proc wfName trName "")
                    else mret None);
        begun ← up (try (beginSegment e ctx));
        match begun with
        | inl err => setL (mkCursor ctx "" false);; fail err
        | inr (newTxID, newCtx) => setL (mkCursor newCtx newTxID false);; mret (newTxID, newCtx, modified)
        end
    end.

(** The second half: adopt the data and save against the committed segment. *)
Definition applyDispatched (newCtx : ECtx) (tPre : string) (pending : option string) : EM unit :=
  match pending with Some data => applyProcessorData newCtx data | None => mret tt end;;
  opened ← try (call (xStore EntityStoreK newCtx));
  match opened with
  | inl err => fail (EWrap "get entity store for CAS" (EJoin (ESentinel ErrCommitBeforeDispatchInfra) err))
  | inr _ =>
      saved ← try (compareAndSave newCtx tPre);
      match saved with
      | inl err =>
          if clientAttributableStoreErr err then fail (EJoin (ESentinel ErrPostSegmentConflict) err)
          else fail (EWrap "apply result after dispatch" (EJoin (ESentinel ErrCommitBeforeDispatchInfra) err))
      | inr _ => mret tt
      end
  end.

Definition executeCommitBeforeDispatch (e : Engine) (ctx : ECtx) (proc : ProcessorDefinition)
    (wfName trName txID entryTxID : string) : EM (ECtx * string) :=
  scoped (mkCursor ctx txID false)
    ('(newTxID, newCtx, pending) ← commitAndDispatch e ctx proc wfName trName txID entryTxID;
     up (applyDispatched newCtx txID pending);;
     setL (mkCursor newCtx newTxID true);;
     mret (newCtx, newTxID))
    (λ _ cu, if cu_done cu then mret tt else rollbackSegment e (cu_ctx cu) (cu_tx cu) txID).

(** ** The processor pipeline *)

(** The guard of a frame whose callers learn the segment from its return value:
    it acts only when the frame panics. *)
Definition panicGuard {A} (e : Engine) (entryTxID : string) (r : outcome eerr A) (cu : Cursor) : EM unit :=
  match r with
  | Panic _ => rollbackSegment e (cu_ctx cu) (cu_tx cu) entryTxID
  | _ => mret tt
  end.

Definition runProcessor (e : Engine) (proc : ProcessorDefinition) (wfName trName entryTxID : string) :
    EL (option eerr) :=
  cu ← getL;
  let errOf {A} (r : eerr + A) : option eerr := match r with inl err => Some err | inr _ => None end in
  if decide (pr_ExecutionMode proc = ExecutionModeAsyncNewTx) then
    r ← up (try (executeAsyncNewTx e (cu_ctx cu) proc wfName trName (cu_tx cu))); mret (errOf r)
  else if decide (pr_ExecutionMode proc = ExecutionModeCommitBeforeDispatch) then
    r ← up (try (executeCommitBeforeDispatch e (cu_ctx cu) proc wfName trName (cu_tx cu) entryTxID));
    match r with
    | inr (nCtx, nTxID) => setL (mkCursor nCtx nTxID false);; mret None
    | inl err => mret (Some err)
    end
  else
    r ← up (try (executeSyncProcessor e (cu_ctx cu) proc wfName trName (cu_tx cu))); mret (errOf r).

Fixpoint runProcessors (e : Engine) (procs : list ProcessorDefinition) (wfName trName entryTxID : string) :
    EL (ECtx * string * option eerr) :=
  match procs with
  | [] => cu ← getL; mret (cu_ctx cu, cu_tx cu, None)
  | proc :: rest =>
      let result (success : bool) : EL unit :=
        cu ← getL;
        st ← up state;
        up (recordEvent (cu_ctx cu) entryTxID st SMEventStateProcessResult [pr_Name proc]
              [("success", if success then "true" else "false"); ("mode", pr_ExecutionMode proc)]) in
      let stop (err : eerr) : EL (ECtx * string * option eerr) :=
        cu ← getL; mret (cu_ctx cu, cu_tx cu, Some (EWrap "processor failed" err)) in
      if decide (pr_Type proc = ProcessorTypeInternalized) then
        result false;; stop (EText "execution type is not yet implemented")
      else
        procErr ← runProcessor e proc wfName trName entryTxID;
        result (match procErr with None => true | Some _ => false end);;
        match procErr with
        | Some err =>
            if decide (pr_ExecutionMode proc = ExecutionModeAsyncNewTx)
            then runProcessors e rest wfName trName entryTxID
            else stop err
        | None => runProcessors e rest wfName trName entryTxID
        end
  end.

(** Every return hands back the segment that is open, errors included. *)
Definition executeProcessors (e : Engine) (ctx : ECtx) (procs : list ProcessorDefinition)
    (wfName trName txID : string) : EM (ECtx * string * option eerr) :=
  if decide (procs = []) then mret (ctx, txID, None)
  else
    st ← state;
    recordEvent ctx txID st SMEventProcessingPaused (pr_Name <$> procs) [];;
    modify (set_memo None);;
    scoped (mkCursor ctx txID false) (runProcessors e procs wfName trName txID) (panicGuard e txID).
End Engine.
