(* ===== verification/WorkflowRun.v ===== *)
(** * The workflow engine: selection, transitions, cascades, entry points

    Models the rest of [engine.go]: which workflow an entity runs, a single
    transition, the automated cascade with its two bounds, and the entry points
    [Execute], [ManualTransition] and [Loopback]; and [arm.go], the settle-time
    pass that arms and cancels an entity's scheduled transitions. *)

From Stdlib Require Import Ascii.
From stdpp Require Import base gmap strings list.
From S2P Require Import Prelude Spi Workflow.

Section Run.
Context {X : Env}.

(** ** Workflow selection

    [audit] is whether selection events are recorded: the transitions query
    discards them. *)

Definition auditing (audit : bool) (m : EM unit) : EM unit := if audit then m else mret tt.

Fixpoint selectAmong (e : Engine) (ctx : ECtx) (audit : bool) (txID : string) (wfs : list WorkflowDefinition) :
    EM (option WorkflowDefinition) :=
  match wfs with
  | [] => mret None
  | wf :: rest =>
      if negb (wf_Active wf) then selectAmong e ctx audit txID rest
      else
        st ← state;
        if negb (hasCriterion (wf_Criterion wf)) then
          auditing audit (recordEvent ctx txID st SMEventWorkflowFound [wf_Name wf] []);;
          mret (Some wf)
        else
          r ← try (evaluateCriterion e (wf_Criterion wf) (mkCC ctx txID (wf_Name wf) "" "WORKFLOW"));
          match r with
          | inl err => fail (EWrap "failed to evaluate workflow criterion" err)
          | inr (true, _) =>
              auditing audit (recordEvent ctx txID st SMEventWorkflowFound [wf_Name wf] []);;
              mret (Some wf)
          | inr (false, reason) =>
              auditing audit (recordEvent ctx txID st SMEventWorkflowSkipped [wf_Name wf]
                [("workflowName", wf_Name wf);
                 ("reason", if decide (reason = "") then defaultCriterionReason else reason)]);;
              selectAmong e ctx audit txID rest
          end
  end.

Definition selectWorkflow (e : Engine) (ctx : ECtx) (audit : bool) (txID : string) (wfs : list WorkflowDefinition) :
    EM WorkflowDefinition :=
  found ← selectAmong e ctx audit txID wfs;
  st ← state;
  match found, defaultWorkflows e with
  | Some wf, _ => mret wf
  | None, dflt :: _ =>
      auditing audit (recordEvent ctx txID st SMEventWorkflowFound [wf_Name dflt] []);;
      mret dflt
  | None, [] =>
      auditing audit (recordEvent ctx txID st SMEventWorkflowNotFound [] []);;
      fail (EText "no matching workflow for model")
  end.

Definition resolveWorkflowWith (e : Engine) (ctx : ECtx) (audit : bool) (txID : string) : EM WorkflowDefinition :=
  x ← ent;
  opened ← try (call (xStore WorkflowStoreK ctx));
  match opened with
  | inl err => fail (EWrap "failed to access workflow store" err)
  | inr _ =>
      got ← try (call (xWorkflows ctx (m_ModelRef (Meta x))));
      match got with
      | inl err =>
          if isErr err ErrNotFound then selectWorkflow e ctx audit txID (defaultWorkflows e)
          else fail (EWrap "failed to load workflows" err)
      | inr [] => selectWorkflow e ctx audit txID (defaultWorkflows e)
      | inr wfs => selectWorkflow e ctx audit txID wfs
      end
  end.
Definition resolveWorkflow (e : Engine) (ctx : ECtx) (txID : string) : EM WorkflowDefinition :=
  resolveWorkflowWith e ctx true txID.
Definition resolveWorkflowForQuery (e : Engine) (ctx : ECtx) : EM WorkflowDefinition :=
  resolveWorkflowWith e ctx false "".

Definition GetAvailableTransitionsForEntity (e : Engine) (ctx : ECtx) : EM (list string) :=
  wf ← resolveWorkflowForQuery e ctx;
  st ← state;
  mret (match wf_States wf !! st with Some trs => tr_Name <$> trs | None => [] end).

(** ** One transition *)

Definition noMatchData (wf : WorkflowDefinition) (tr : TransitionDefinition) (reason : string) :
    list (string * string) :=
  [("workflowName", wf_Name wf); ("transition", tr_Name tr); ("criterion", criterionName (tr_Criterion tr));
   ("reason", if decide (reason = "") then defaultCriterionReason else reason)].

(** The transition's criterion, [true] when it has none. *)
Definition evaluateTransition (e : Engine) (ctx : ECtx) (wf : WorkflowDefinition) (tr : TransitionDefinition)
    (txID : string) : EM (bool * string) :=
  if hasCriterion (tr_Criterion tr) then
    r ← try (evaluateCriterion e (tr_Criterion tr) (mkCC ctx txID (wf_Name wf) (tr_Name tr) "TRANSITION"));
    match r with
    | inl err => fail (EWrap "failed to evaluate transition criterion" err)
    | inr p => mret p
    end
  else mret (true, "").

(** Move the entity along [tr] once its processors have run. *)
Definition makeTransition (ctx : ECtx) (tr : TransitionDefinition) (auditTxID : string) : EM unit :=
  st ← state;
  recordEvent ctx auditTxID st SMEventTransitionMade [tr_Name tr; st; tr_Next tr] [];;
  setState (tr_Next tr).

Definition processorsFailed (ctx : ECtx) (tr : TransitionDefinition) (auditTxID : string) : EM unit :=
  st ← state;
  recordEvent ctx auditTxID st SMEventStateProcessResult [tr_Name tr] [("success", "false")].

Definition fireTransition (e : Engine) (ctx : ECtx) (wf : WorkflowDefinition) (tr : TransitionDefinition)
    (txID : string) : EM (ECtx * string * option eerr) :=
  scoped (mkCursor ctx txID false)
    (r ← up (try (evaluateTransition e ctx wf tr txID));
     match r with
     | inl err => mret (ctx, txID, Some err)
     | inr (false, reason) =>
         st ← up state;
         up (recordEvent ctx txID st SMEventTransitionCriterionNoMatch [tr_Name tr] (noMatchData wf tr reason));;
         mret (ctx, txID, Some (ESentinel ErrCriterionNotMatched))
     | inr (true, _) =>
         '(newCtx, newTxID, err) ← up (executeProcessors e ctx (tr_Processors tr) (wf_Name wf) (tr_Name tr) txID);
         setL (mkCursor newCtx newTxID false);;
         match err with
         | Some er => up (processorsFailed newCtx tr txID);; mret (newCtx, newTxID, Some er)
         | None => up (makeTransition newCtx tr txID);; mret (newCtx, newTxID, None)
         end
     end)
    (panicGuard e txID).

Definition findTransition (trs : list TransitionDefinition) (name : string) : option TransitionDefinition :=
  snd <$> list_find (λ tr, tr_Name tr = name) trs.

Definition attemptTransition (e : Engine) (ctx : ECtx) (wf : WorkflowDefinition) (name txID : string) :
    EM (ECtx * string * option eerr) :=
  st ← state;
  match wf_States wf !! st with
  | None => mret (ctx, txID, Some (EText "state not found in workflow"))
  | Some trs =>
      let refuse (why : string) : EM (ECtx * string * option eerr) :=
        recordEvent ctx txID st SMEventTransitionNotFound [name; st; why] [];;
        mret (ctx, txID, Some (EWrap why (ESentinel ErrTransitionNotFound))) in
      match findTransition trs name with
      | None => refuse "not found"
      | Some tr =>
          if tr_Disabled tr then refuse "disabled"
          else match tr_Schedule tr with
               | Some _ => refuse "scheduled and fires automatically; it is not manually fireable"
               | None => fireTransition e ctx wf tr txID
               end
      end
  end.

(** ** The automated cascade *)

Definition automated (tr : TransitionDefinition) : bool :=
  negb (tr_Disabled tr) && negb (tr_Manual tr) && match tr_Schedule tr with None => true | Some _ => false end.

(** One pass over a state's transitions fires at most one. *)
Inductive passResult : Type := Quiet | Moved | Stopped (e : eerr).

Fixpoint cascadePass (e : Engine) (wf : WorkflowDefinition) (auditTxID : string) (trs : list TransitionDefinition) :
    EL passResult :=
  match trs with
  | [] => mret Quiet
  | tr :: rest =>
      if negb (automated tr) then cascadePass e wf auditTxID rest
      else
        cu ← getL;
        r ← up (try (evaluateTransition e (cu_ctx cu) wf tr (cu_tx cu)));
        match r with
        | inl err => mret (Stopped err)
        | inr (false, reason) =>
            st ← up state;
            up (recordEvent (cu_ctx cu) auditTxID st SMEventTransitionCriterionNoMatch [tr_Name tr]
                  (noMatchData wf tr reason));;
            cascadePass e wf auditTxID rest
        | inr (true, _) =>
            '(newCtx, newTxID, err) ← up (executeProcessors e (cu_ctx cu) (tr_Processors tr) (wf_Name wf)
                                            (tr_Name tr) (cu_tx cu));
            setL (mkCursor newCtx newTxID false);;
            match err with
            | Some er => up (processorsFailed newCtx tr auditTxID);; mret (Stopped er)
            | None => up (makeTransition newCtx tr auditTxID);; mret Moved
            end
        end
  end.

Fixpoint cascadeLoop (e : Engine) (wf : WorkflowDefinition) (auditTxID : string) (depth : nat)
    (visits : gmap string Z) : EL (option eerr) :=
  st ← up state;
  cu ← getL;
  match depth with
  | 0 =>
      up (recordEvent (cu_ctx cu) auditTxID st SMEventCancelled ["cascade depth exceeded"; st] []);;
      mret (Some (EText "state machine aborted: cascade depth exceeded"))
  | S d =>
      expired ← up (ctxErr (cu_ctx cu));
      match expired with
      | Some err => mret (Some (EWrap "cascade aborted" (EStore err)))
      | None =>
          let n := (default 0 (visits !! st) + 1)%Z in
          if decide (maxStateVisits e < n)%Z then
            up (recordEvent (cu_ctx cu) auditTxID st SMEventCancelled ["state visited too often"; st] []);;
            mret (Some (EText "state machine aborted: state visits"))
          else
            match wf_States wf !! st with
            | None => mret None
            | Some trs =>
                r ← cascadePass e wf auditTxID trs;
                match r with
                | Quiet => mret None
                | Moved => cascadeLoop e wf auditTxID d (<[st := n]> visits)
                | Stopped err => mret (Some err)
                end
            end
      end
  end.

Definition cascadeAutomated (e : Engine) (ctx : ECtx) (wf : WorkflowDefinition) (txID : string) :
    EM (ECtx * string * option eerr) :=
  scoped (mkCursor ctx txID false)
    (r ← cascadeLoop e wf txID maxCascadeDepth ∅;
     cu ← getL;
     mret (cu_ctx cu, cu_tx cu, r))
    (panicGuard e txID).

(** ** Arming and cancelling scheduled transitions *)

Definition taskID (tenantID entityID sourceState transition : string) : string :=
  xTaskHash ("fire-transition|" +:+ tenantID +:+ "|" +:+ entityID +:+ "|" +:+ sourceState +:+ "|" +:+ transition).

Definition isScheduled (tr : TransitionDefinition) : bool :=
  match tr_Schedule tr with Some _ => true | None => false end.
Definition workflowHasSchedule (wf : WorkflowDefinition) : bool :=
  existsb (λ st, existsb isScheduled st.2) (map_to_list (wf_States wf)).

(** The scheduler's transitions: armed on arrival in the state, fired later. *)
Definition fireable (tr : TransitionDefinition) : bool :=
  isScheduled tr && negb (tr_Manual tr) && negb (tr_Disabled tr).

(** [strconv.ParseInt(s, 10, 32)] with its error dropped: 0 on bad syntax, the
    nearest bound on a value out of range. *)
Fixpoint parseDigits (acc : Z) (s : string) : option Z :=
  match s with
  | EmptyString => Some acc
  | String c s' =>
      let d := (Z.of_N (Ascii.N_of_ascii c) - 48)%Z in
      if decide (0 ≤ d ≤ 9)%Z then parseDigits (acc * 10 + d)%Z s' else None
  end.
Definition parseInt32 (s : string) : Z :=
  let bounded (neg : bool) (t : string) : Z :=
    match t, parseDigits 0 t with
    | EmptyString, _ | _, None => 0%Z
    | _, Some v => if neg then Z.max (-2147483648) (- v) else Z.min 2147483647 v
    end in
  match s with
  | String c t => if Ascii.eqb c "-"%char then bounded true t
                  else if Ascii.eqb c "+"%char then bounded false t else bounded false s
  | EmptyString => 0%Z
  end.

(** The callout's answer: [inr None] is a schedule born expired. *)
Definition resolveSchedule (raw : string) (armMs : Z) : eerr + option (Z * option Z) :=
  match xDecodeSchedule raw with
  | inl err => inl (EText "malformed Schedule result")
  | inr r =>
      let at_ (sched : Z) : eerr + option (Z * option Z) :=
        match ExpireAt r, ExpireAfterMs r with
        | Some _, Some _ => inl (EText "at most one of expireAt/expireAfterMs")
        | None, None => inr (Some (sched, None))
        | Some x, None =>
            if decide (x ≤ sched)%Z then inr None else inr (Some (sched, Some (wrap64 (x - sched))))
        | None, Some a =>
            let x := wrap64 (sched + a) in
            if decide (x ≤ sched)%Z then inr None else inr (Some (sched, Some (wrap64 (x - sched))))
        end in
      match FireAt r, FireAfterMs r with
      | Some t, None => at_ t
      | None, Some a => at_ (wrap64 (armMs + a))
      | _, _ => inl (EText "exactly one of fireAt/fireAfterMs required")
      end
  end.

Definition armedTask (ctx : ECtx) (x : Entity) (tr : TransitionDefinition) (armMs sched : Z) (timeout : option Z) :
    ScheduledTask :=
  let st := m_State (Meta x) in
  mkTask (taskID (m_TenantID (Meta x)) (m_ID (Meta x)) st (tr_Name tr)) (m_TenantID (Meta x)) "fire-transition"
    sched timeout None (m_ID (Meta x)) (EntityName (m_ModelRef (Meta x)))
    (parseInt32 (ModelVersion (m_ModelRef (Meta x)))) (tr_Name tr) st armMs 0 (xResolveOrigin ctx).

(** [None]: born expired. *)
Definition armViaFunction (e : Engine) (ctx : ECtx) (wf : WorkflowDefinition) (tr : TransitionDefinition)
    (fn : ScheduleFunction) (armMs : Z) (txID : string) : EM (option ScheduledTask) :=
  if hasExtProc e then
    x ← ent;
    '(kind, value) ← call (xDispatchFunction ctx x fn (wf_Name wf) (tr_Name tr) txID);
    if decide (kind = "Schedule") then
      r ← lift_sum (resolveSchedule value armMs);
      mret ((λ '(sched, timeout), armedTask ctx x tr armMs sched timeout) <$> r)
    else fail (EText "unexpected resultKind")
  else fail (EText "no external processing service configured for scheduled-transition Function").

(** The tasks to arm and the transitions born expired, in declaration order. *)
Fixpoint armState (e : Engine) (ctx : ECtx) (wf : WorkflowDefinition) (armMs : Z) (txID : string)
    (trs : list TransitionDefinition) : EM (list ScheduledTask * list TransitionDefinition) :=
  match trs with
  | [] => mret ([], [])
  | tr :: rest =>
      match tr_Schedule tr with
      | Some sc =>
          if tr_Manual tr || tr_Disabled tr then armState e ctx wf armMs txID rest
          else
            x ← ent;
            task ← match sc_Function sc with
                   | Some fn => armViaFunction e ctx wf tr fn armMs txID
                   | None => mret (Some (armedTask ctx x tr armMs (wrap64 (armMs + sc_DelayMs sc)) (sc_TimeoutMs sc)))
                   end;
            '(arm, expired) ← armState e ctx wf armMs txID rest;
            mret (match task with Some t => (t :: arm, expired) | None => (arm, tr :: expired) end)
      | None => armState e ctx wf armMs txID rest
      end
  end.

Definition reconcileScheduledTasks (e : Engine) (ctx : ECtx) (wf : WorkflowDefinition) (txID suppress : string) :
    EM unit :=
  if negb (workflowHasSchedule wf) then mret tt
  else
    armMs ← ask xNow;
    x ← ent;
    let st := m_State (Meta x) in
    '(arm, expired) ← armState e ctx wf armMs txID (default [] (wf_States wf !! st));
    opened ← try (call (xStore ScheduledTaskStoreK ctx));
    match opened with
    | inl err => fail (EWrap "failed to get scheduled task store" (EJoin (ESentinel ErrScheduledTaskInfra) err))
    | inr _ =>
        let idOf tr := taskID (m_TenantID (Meta x)) (m_ID (Meta x)) st (tr_Name tr) in
        let rq := mkReconcile (m_TenantID (Meta x)) (m_ID (Meta x)) st arm (idOf <$> expired) in
        r ← try (call (xReconcile ctx rq));
        match r with
        | inl err => fail (EWrap "failed to reconcile scheduled tasks" (EJoin (ESentinel ErrScheduledTaskInfra) err))
        | inr cancelled =>
            logCall (CReconcile rq);;
            forM arm (λ a, recordEvent ctx txID st SMEventScheduledTransitionArmed [Transition a]
              [("transition", Transition a); ("sourceState", st)]);;
            forM cancelled (λ c,
              if decide (suppress ≠ "" ∧ st_ID c = suppress) then mret tt
              else recordEvent ctx txID (SourceState c) SMEventScheduledTransitionCancelled
                     [Transition c; SourceState c] [("transition", Transition c); ("sourceState", SourceState c)]);;
            forM expired (λ tr, recordEvent ctx txID st SMEventScheduledTransitionExpired [tr_Name tr]
              [("transition", tr_Name tr); ("sourceState", st)])
        end
    end.

(** ** Entry points *)

Record EngineResult := mkResult {
  er_State : string;
  er_StopReason : string;
  er_FinalCtx : ECtx;
  er_FinalTxID : string;
  er_Segmented : bool
}.

(** The entry guard: release the open segment unless it was handed off. *)
Definition entryGuard (e : Engine) (entryTxID : string) (_ : outcome eerr EngineResult) (cu : Cursor) : EM unit :=
  if cu_done cu then mret tt else rollbackSegment e (cu_ctx cu) (cu_tx cu) entryTxID.

(** Adopt what a stage handed back, then return its error if it has one. *)
Definition advance (r : ECtx * string * option eerr) : EL unit :=
  let '(ctx, tx, err) := r in
  setL (mkCursor ctx tx false);;
  match err with Some er => fail er | None => mret tt end.

(** The common tail: cascade, reconcile the schedules, finish, hand off. *)
Definition settle (e : Engine) (wf : WorkflowDefinition) (txID finished : string) : EL EngineResult :=
  cu ← getL;
  r ← up (cascadeAutomated e (cu_ctx cu) wf (cu_tx cu));
  advance r;;
  cu' ← getL;
  up (reconcileScheduledTasks e (cu_ctx cu') wf (cu_tx cu') "");;
  st ← up state;
  up (recordEvent (cu_ctx cu') txID st SMEventFinished [finished] [("success", "true")]);;
  setL (mkCursor (cu_ctx cu') (cu_tx cu') true);;
  mret (mkResult st "" (cu_ctx cu') (cu_tx cu') (bool_decide (cu_tx cu' ≠ txID))).

Definition openAudit (ctx : ECtx) : EM unit :=
  opened ← try (call (xStore AuditStoreK ctx));
  match opened with inl err => fail (EWrap "failed to get audit store" err) | inr _ => mret tt end.

(** Creation: start in the selected workflow's initial state. *)
Definition Execute (e : Engine) (ctx : ECtx) (transitionName : string) : EM EngineResult :=
  openAudit ctx;;
  txID ← resolveAuditTxID;
  scoped (mkCursor ctx txID false)
    (st ← up state;
     up (recordEvent ctx txID st SMEventStarted ["State machine started"] []);;
     wf ← up (resolveWorkflow e ctx txID);
     up (setState (wf_InitialState wf));;
     (if decide (transitionName ≠ "") then
        r ← up (attemptTransition e ctx wf transitionName txID);
        advance r
      else mret tt);;
     settle e wf txID "State machine finished")
    (entryGuard e txID).

Definition ManualTransition (e : Engine) (ctx : ECtx) (transitionName : string) : EM EngineResult :=
  openAudit ctx;;
  txID ← resolveAuditTxID;
  scoped (mkCursor ctx txID false)
    (st ← up state;
     up (recordEvent ctx txID st SMEventStarted ["Manual transition started"] []);;
     wf ← up (resolveWorkflow e ctx txID);
     r ← up (attemptTransition e ctx wf transitionName txID);
     advance r;;
     settle e wf txID "Manual transition finished")
    (entryGuard e txID).

Definition Loopback (e : Engine) (ctx : ECtx) : EM EngineResult :=
  openAudit ctx;;
  txID ← resolveAuditTxID;
  scoped (mkCursor ctx txID false)
    (st ← up state;
     up (recordEvent ctx txID st SMEventStarted ["Loopback started"] []);;
     wf ← up (resolveWorkflow e ctx txID);
     st' ← up state;
     match wf_States wf !! st' with
     | None =>
         up (recordEvent ctx txID st' SMEventForcedSuccess [wf_Name wf] []);;
         up (recordEvent ctx txID st' SMEventFinished ["Loopback finished (state not in workflow)"]
               [("success", "true")]);;
         setL (mkCursor ctx txID true);;
         mret (mkResult st' "STATE_NOT_IN_WORKFLOW" ctx txID false)
     | Some _ => settle e wf txID "Loopback finished"
     end)
    (entryGuard e txID).

Definition ManualTransitionWithIfMatch (e : Engine) (ctx : ECtx) (transitionName ifMatch : string) : EM EngineResult :=
  ctx' ← withIfMatch ctx ifMatch;
  ManualTransition e ctx' transitionName.
Definition LoopbackWithIfMatch (e : Engine) (ctx : ECtx) (ifMatch : string) : EM EngineResult :=
  ctx' ← withIfMatch ctx ifMatch;
  Loopback e ctx'.

(** The three doors of the engine a request comes through; an empty [ifMatch] is
    no precondition. *)
Inductive Door : Type :=
| DExecute (transitionName : string)
| DManual (transitionName ifMatch : string)
| DLoopback (ifMatch : string).
Definition enter (e : Engine) (ctx : ECtx) (d : Door) : EM EngineResult :=
  match d with
  | DExecute name => Execute e ctx name
  | DManual name ifMatch => ManualTransitionWithIfMatch e ctx name ifMatch
  | DLoopback ifMatch => LoopbackWithIfMatch e ctx ifMatch
  end.
End Run.
