(* ===== verification/WorkflowFire.v ===== *)
(** * The workflow engine: the scheduler's door

    Models [fire_scheduled.go]: [FireScheduledTransition] resolves one scheduled
    task (fires, declines, expires or drops it) in a transaction it begins and
    settles itself. *)

From stdpp Require Import base gmap strings list.
From S2P Require Import Prelude Spi Workflow WorkflowRun.

Inductive ScheduledOutcome : Type := OutcomeFired | OutcomeDeclined | OutcomeExpired | OutcomeDropped.
#[export] Instance ScheduledOutcome_eq_dec : EqDecision ScheduledOutcome.
Proof. solve_decision. Defined.

Definition systemPrincipal : Principal := mkPrincipal "system" "system".
Definition noPrincipal : Principal := mkPrincipal "" "".

(** The named transition of the state, when the scheduler may fire it. *)
Definition findFireableTransitionInState (wf : WorkflowDefinition) (st name : string) :
    option TransitionDefinition :=
  match wf_States wf !! st with
  | None => None
  | Some trs => match findTransition trs name with
                | Some tr => if fireable tr then Some tr else None
                | None => None
                end
  end.

(** The anchor stamp: attributed to the arming principal, executed by the system. *)
Definition anchorStamp (armedBy : Principal) (x : Entity) : Entity :=
  let m := Meta x in
  let armed := if decide (armedBy = noPrincipal) then systemPrincipal else armedBy in
  mkEntity (mkMeta (m_ID m) (m_TenantID m) (m_ModelRef m) (m_State m) (m_Version m) (m_CreationDate m)
              (m_LastModifiedDate m) (m_TransactionID m) (m_ChangeType m) (p_ID armed) (p_Kind armed)
              systemPrincipal (m_TransitionForLatestSave m)) (Data x).

Section Fire.
Context {X : Env}.

Definition FireResult : Type := ScheduledOutcome * option eerr.
Definition dropped (msg : string) (err : eerr) : FireResult := (OutcomeDropped, Some (EWrap msg err)).

(** [committed = true; return o, e.txMgr.Commit(ctx, tx)]. *)
Definition commitAs (e : Engine) (ctx : ECtx) (o : ScheduledOutcome) (tx : string) : EL FireResult :=
  cu ← getL;
  setL (mkCursor (cu_ctx cu) (cu_tx cu) true);;
  r ← up (try (txCommit e ctx tx));
  mret (o, match r with inl err => Some err | inr _ => None end).

Definition taskDelete (ctx : ECtx) (id : string) : EM bool :=
  removed ← call (xTaskDelete ctx id);
  logCall (CTaskDelete id);;
  mret removed.

(** Delete the task, audit the deletion if there was a row, commit. *)
Definition retire (e : Engine) (ctx txCtx : ECtx) (txID id : string) (o : ScheduledOutcome)
    (note : EM unit) : EL FireResult :=
  r ← up (try (taskDelete txCtx id));
  match r with
  | inl err => mret (dropped "failed to delete scheduled task" err)
  | inr removed =>
      (if (removed : bool) then up note else mret tt);;
      commitAs e ctx o txID
  end.

Definition noteRetired (txCtx : ECtx) (txID : string) (ty : SMEventType) (cur : ScheduledTask)
    (data : list (string * string)) : EM unit :=
  st ← state;
  recordEvent txCtx txID st ty [Transition cur] data.
Definition cancelData (cur : ScheduledTask) : list (string * string) :=
  [("transition", Transition cur); ("sourceState", SourceState cur)].

(** Persist the settled entity, record FIRE, commit the open segment. *)
Definition persistFired (e : Engine) (ctx : ECtx) (txID expectedTxID : string) (cur : ScheduledTask) :
    EL FireResult :=
  cu ← getL;
  opened ← up (try (call (xStore EntityStoreK (cu_ctx cu))));
  match opened with
  | inl err => mret (dropped "failed to get entity store for persist" err)
  | inr _ =>
      saved ← up (try (if decide (cu_tx cu ≠ txID) then saveEntity (cu_ctx cu)
                       else compareAndSave (cu_ctx cu) expectedTxID));
      match saved with
      | inl err => mret (OutcomeDropped, Some err)
      | inr _ =>
          st ← up state;
          up (recordEvent (cu_ctx cu) txID st SMEventScheduledTransitionFired [Transition cur] []);;
          commitAs e ctx OutcomeFired (cu_tx cu)
      end
  end.

(** From the anchor stamp on: fire the transition and settle the entity. *)
Definition fireArmed (e : Engine) (ctx txCtx : ECtx) (txID id : string) (cur : ScheduledTask)
    (wf : WorkflowDefinition) (tr : TransitionDefinition) : EL FireResult :=
  up (modify (λ s, set_ent (anchorStamp (ArmedBy cur) (es_ent s)) s));;
  x ← up ent;
  let expectedTxID := m_TransactionID (Meta x) in
  if decide (expectedTxID = "") then
    retire e ctx txCtx txID id OutcomeDropped
      (noteRetired txCtx txID SMEventScheduledTransitionCancelled cur (cancelData cur))
  else
    fireCtx ← up (withIfMatch txCtx expectedTxID);
    '(newCtx, newTxID, fireErr) ← up (fireTransition e fireCtx wf tr txID);
    setL (mkCursor newCtx newTxID false);;
    match fireErr with
    | Some err =>
        if isSentinel err ErrCriterionNotMatched
        then retire e ctx newCtx newTxID id OutcomeDeclined (mret tt)
        else mret (OutcomeDropped, Some err)
    | None =>
        '(finalCtx, finalTxID, err) ← up (cascadeAutomated e newCtx wf newTxID);
        setL (mkCursor finalCtx finalTxID false);;
        match err with
        | Some er => mret (OutcomeDropped, Some er)
        | None =>
            rec ← up (try (reconcileScheduledTasks e finalCtx wf finalTxID id));
            match rec with
            | inl er => mret (dropped "failed to reconcile scheduled tasks after fire" er)
            | inr _ => persistFired e ctx txID expectedTxID cur
            end
        end
    end.

(** The lateness gate: [Some b] says the task is past its timeout, [b] whether it
    is past the grace band too. *)
Definition lateness (e : Engine) (cur : ScheduledTask) (nowMs : Z) : option bool :=
  match TimeoutMs cur with
  | None => None
  | Some t =>
      let late := wrap64 (nowMs - ScheduledTime cur) in
      if decide (wrap64 (t + expiryGraceMs e) < late)%Z then Some true
      else if decide (t < late)%Z then Some false
      else None
  end.

(** The time guards and the resolution of the workflow and the transition. *)
Definition fireDue (e : Engine) (ctx txCtx : ECtx) (txID id : string) (cur : ScheduledTask) : EL FireResult :=
  nowMs ← up (ask xNow);
  if decide (nowMs < ScheduledTime cur)%Z then mret (OutcomeDropped, None)
  else
    match lateness e cur nowMs with
    | Some true =>
        retire e ctx txCtx txID id OutcomeExpired
          (noteRetired txCtx txID SMEventScheduledTransitionExpired cur [])
    | Some false => mret (OutcomeDropped, None)
    | None =>
        r ← up (try (resolveWorkflow e txCtx txID));
        st ← up state;
        match r with
        | inl err => mret (dropped "failed to resolve workflow for scheduled fire" err)
        | inr wf =>
            match findFireableTransitionInState wf st (Transition cur) with
            | None =>
                retire e ctx txCtx txID id OutcomeDropped
                  (noteRetired txCtx txID SMEventScheduledTransitionCancelled cur
                     (cancelData cur ++ [("workflowName", wf_Name wf)]))
            | Some tr => fireArmed e ctx txCtx txID id cur wf tr
            end
        end
    end.

(** The re-read guards on the row and on the entity. *)
Definition fireRow (e : Engine) (ctx txCtx : ECtx) (txID : string) (task : ScheduledTask) (seeded : Principal) :
    EL FireResult :=
  row ← up (try (call (xTaskGet txCtx (st_ID task))));
  match row with
  | inl err => mret (dropped "failed to read scheduled task" err)
  | inr None => commitAs e ctx OutcomeDropped txID
  | inr (Some cur) =>
      if decide (st_TenantID cur ≠ st_TenantID task) then mret (OutcomeDropped, None)
      else if decide (ArmedBy cur ≠ seeded) then
        mret (OutcomeDropped, Some (EText "scheduled task re-armed concurrently"))
      else
        got ← up (try (call (xEntityGet txCtx (st_EntityID cur))));
        match got with
        | inl err =>
            if isErr err ErrNotFound then retire e ctx txCtx txID (st_ID task) OutcomeDropped (mret tt)
            else mret (dropped "failed to read entity" err)
        | inr x =>
            up (modify (set_ent x));;
            if decide (m_State (Meta x) ≠ SourceState cur) then
              retire e ctx txCtx txID (st_ID task) OutcomeDropped (mret tt)
            else fireDue e ctx txCtx txID (st_ID task) cur
        end
  end.

Definition openStores (ctx : ECtx) : EM unit :=
  call (xStore ScheduledTaskStoreK ctx);;
  call (xStore EntityStoreK ctx);;
  call (xStore AuditStoreK ctx).

Definition FireScheduledTransition (e : Engine) (ctx0 : ECtx) (task : ScheduledTask) : EM FireResult :=
  pre ← try (call (xStore ScheduledTaskStoreK ctx0);; call (xTaskGet ctx0 (st_ID task)));
  match pre with
  | inl err => mret (dropped "point-read scheduled task before fire" err)
  | inr row =>
      let seeded := match row with Some r => ArmedBy r | None => noPrincipal end in
      let ctx := WithAmbientOrigin ctx0 seeded in
      begun ← try (txBegin e ctx);
      match begun with
      | inl err => mret (dropped "failed to begin scheduled-fire transaction" err)
      | inr (txID, txCtx) =>
          scoped (mkCursor txCtx txID false)
            (opened ← up (try (openStores txCtx));
             match opened with
             | inl err => mret (dropped "failed to get store" err)
             | inr _ => fireRow e ctx txCtx txID task seeded
             end)
            (λ _ cu,
               if cu_done cu then mret tt
               else
                 logCall (CRollback (cu_tx cu));;
                 try (call (xRollback (WithoutCancel (cu_ctx cu)) (cu_tx cu)));; mret tt)
      end
  end.
End Fire.
