(* ===== verification/WorkflowFrame.v ===== *)
(** * The workflow engine: what each step leaves alone

    The calls an engine step adds to the trace, and that it leaves the entity's
    state alone; the documented behaviour of the environment the engine relies
    on; the segments open after a trace. *)

From stdpp Require Import base gmap strings list.
From S2P Require Import Prelude Spi Workflow WorkflowRun.

(** ** Readings of a trace *)

(** The segments begun and neither committed nor rolled back. *)
Definition openStep (o : gset string) (c : Call) : gset string :=
  match c with
  | CBegin tx => o ∪ {[tx]}
  | CCommit tx true | CRollback tx => o ∖ {[tx]}
  | _ => o
  end.
Definition openSegs (t : list Call) : gset string := foldl openStep ∅ t.

(** The moves recorded: transition, state left, state entered. *)
Record Move := mkMove { mv_Name : string; mv_From : string; mv_To : string }.
Definition moveOf (c : Call) : option Move :=
  match c with
  | CRecord ev =>
      match ev_Type ev, ev_Details ev with
      | SMEventTransitionMade, [name; from; to] => Some (mkMove name from to)
      | _, _ => None
      end
  | _ => None
  end.
Definition moves (t : list Call) : list Move := omap moveOf t.

Definition notMove (c : Call) : Prop := moveOf c = None.
Definition quietCall (c : Call) : Prop := notMove c ∧ match c with CBegin _ => False | _ => True end.

Lemma moves_app t t' : moves (t ++ t') = moves t ++ moves t'.
Proof. apply omap_app. Qed.
Lemma moves_still t : Forall notMove t → moves t = [].
Proof. unfold moves, notMove. induction 1 as [|c t Hc Ht IH]; simpl; [done|]. by rewrite Hc. Qed.

Lemma openSegs_app t t' : openSegs (t ++ t') = foldl openStep (openSegs t) t'.
Proof. apply foldl_app. Qed.
Lemma openStep_quiet o c : quietCall c → openStep o c ⊆ o.
Proof. intros [_ Hc]. destruct c as [| |? []| | | | | | | | | |]; simpl in *; try done; set_solver. Qed.
Lemma openSegs_quiet t t' : Forall quietCall t' → openSegs (t ++ t') ⊆ openSegs t.
Proof.
  rewrite openSegs_app. generalize (openSegs t). intros o Ht. revert o.
  induction Ht as [|c t' Hc Ht IH]; intros o; simpl; [done|].
  etrans; [apply IH|by apply openStep_quiet].
Qed.

Section Frame.
Context {X : Env}.

(** ** The environment's contract

    A transaction id is not empty; the stores may write their stamps back into
    the entity they save, never its state. *)
Class EnvLaws : Prop := {
  begin_named ctx w tx w' : xBegin ctx w = (Ret tx, w') → tx ≠ "";
  save_state ctx x w x' w' : xSave ctx x w = (Ret x', w') → m_State (Meta x') = m_State (Meta x);
  cas_state ctx x expected w x' w' :
    xCompareAndSave ctx x expected w = (Ret x', w') → m_State (Meta x') = m_State (Meta x)
}.

Definition stateOf (s : Eng) : string := m_State (Meta (es_ent s)).
Definition openS (s : Eng) : gset string := openSegs (es_trace s).

(** From [s] to [s'] the entity stays in its state and every call is in [K]. *)
Definition ext (K : Call → Prop) (s s' : Eng) : Prop :=
  stateOf s' = stateOf s ∧ ∃ t, es_trace s' = es_trace s ++ t ∧ Forall K t.

#[export] Instance ext_preorder K : PreOrder (ext K).
Proof.
  split.
  - intros s. split; [done|]. exists []. by rewrite app_nil_r.
  - intros s1 s2 s3 [H1 (t1 & E1 & F1)] [H2 (t2 & E2 & F2)]. split; [congruence|].
    exists (t1 ++ t2). rewrite E2, E1, app_assoc. split; [done|]. by apply Forall_app.
Qed.

Lemma ext_mono (K K' : Call → Prop) s s' : (∀ c, K c → K' c) → ext K s s' → ext K' s s'.
Proof. intros HK [H (t & E & F)]. split; [done|]. exists t. split; [done|]. by eapply Forall_impl. Qed.
Lemma stable_ext_mono {A} (K K' : Call → Prop) (m : EM A) :
  (∀ c, K c → K' c) → stable (ext K) m → stable (ext K') m.
Proof. intros HK Hm s. by eapply ext_mono, Hm. Qed.

Lemma ext_open s s' : ext quietCall s s' → openS s' ⊆ openS s.
Proof. intros [_ (t & E & F)]. unfold openS. rewrite E. by apply openSegs_quiet. Qed.
Lemma ext_moves s s' : ext notMove s s' → moves (es_trace s') = moves (es_trace s).
Proof. intros [_ (t & E & F)]. rewrite E, moves_app, (moves_still t F). apply app_nil_r. Qed.

(** ** Leaves *)

Lemma stable_call {A} K (m : M err W A) : stable (ext K) (call m : EM A).
Proof.
  intros s. unfold call. destruct (m (es_w s)) as [[] w]; simpl; split; try done; exists []; by rewrite app_nil_r.
Qed.
Lemma stable_ask {A} K (f : W → A * W) : stable (ext K) (ask f : EM A).
Proof. intros s. unfold ask. destruct (f (es_w s)). split; [done|]. exists []. by rewrite app_nil_r. Qed.
Lemma stable_log (K : Call → Prop) c : K c → stable (ext K) (logCall c).
Proof. intros Hc s. split; [done|]. exists [c]. auto. Qed.
Lemma stable_slot K x : stable (ext K) (modify (set_slots x) : EM unit).
Proof. intros s. split; [done|]. exists []. by rewrite app_nil_r. Qed.
Lemma stable_memo K m : stable (ext K) (modify (set_memo m) : EM unit).
Proof. intros s. split; [done|]. exists []. by rewrite app_nil_r. Qed.
Lemma stable_data K d : stable (ext K) (modify (λ s, set_ent (mkEntity (Meta (es_ent s)) d) s) : EM unit).
Proof. intros s. split; [done|]. exists []. by rewrite app_nil_r. Qed.

(** Writing back the entity a store returned for the current one. *)
Lemma stable_writeback (K : Call → Prop) (m : Entity → M err W Entity) (c : Entity → bool → Call) :
  (∀ x b, K (c x b)) →
  (∀ x w x' w', m x w = (Ret x', w') → m_State (Meta x') = m_State (Meta x)) →
  stable (ext K) (x ← ent; r ← try (call (m x)); logCall (c x (isOk r));; x' ← lift_sum r; modify (set_ent x')).
Proof.
  intros Hc Hm s. unfold ent. mrun. rewrite run_bind. unfold try, call.
  destruct (m (es_ent s) (es_w s)) as [[x'|er|p] w] eqn:E; simpl.
  - split; [by apply Hm in E|]. by exists [c (es_ent s) true]; auto.
  - split; [done|]. by exists [c (es_ent s) false]; auto.
  - split; [done|]. exists []. by rewrite app_nil_r.
Qed.
#[local] Hint Resolve stable_call stable_ask stable_slot stable_memo stable_data : stable.

Lemma stable_recordEvent (K : Call → Prop) ctx tx st ty ds d :
  (∀ ev, ev_Type ev = ty → K (CRecord ev)) → stable (ext K) (recordEvent ctx tx st ty ds d).
Proof. intros HK. unfold recordEvent, ent. solve_stable. apply stable_log. by apply HK. Qed.
Lemma quiet_recordEvent ctx tx st ty ds d :
  ty ≠ SMEventTransitionMade → stable (ext quietCall) (recordEvent ctx tx st ty ds d).
Proof.
  intros Hty. apply stable_recordEvent. intros ev Hev. split; [|done].
  unfold notMove, moveOf. rewrite Hev. by destruct ty.
Qed.

(** ** Quiet steps *)
Section Quiet.
Context {L : EnvLaws}.
Local Notation quiet m := (stable (ext quietCall) m).

Lemma quiet_log c : quietCall c → quiet (logCall c).
Proof. apply stable_log. Qed.
#[local] Hint Extern 2 (stable _ (recordEvent _ _ _ _ _ _)) => apply quiet_recordEvent; done : stable.
#[local] Hint Extern 2 (stable _ (logCall _)) => apply quiet_log; by split : stable.

Lemma quiet_saveEntity ctx : quiet (saveEntity ctx).
Proof.
  apply (stable_writeback quietCall (xSave ctx) (λ x b, CSave (ec_tx ctx) x b)); [by split|].
  intros ????. apply save_state.
Qed.
Lemma quiet_compareAndSave ctx expected : quiet (compareAndSave ctx expected).
Proof.
  apply (stable_writeback quietCall (λ x, xCompareAndSave ctx x expected)
           (λ x b, CCompareAndSave (ec_tx ctx) x expected b)); [by split|].
  intros ????. apply cas_state.
Qed.
Lemma quiet_rollbackSegment e ctx o t : quiet (rollbackSegment e ctx o t).
Proof. unfold rollbackSegment. solve_stable. Qed.
Lemma quiet_txCommit e ctx tx : quiet (txCommit e ctx tx).
Proof. unfold txCommit. solve_stable. Qed.
#[local] Hint Resolve quiet_saveEntity quiet_compareAndSave quiet_rollbackSegment quiet_txCommit : stable.

Lemma quiet_evaluateCriterion e c cc : quiet (evaluateCriterion e c cc).
Proof. unfold evaluateCriterion, criterionTyping, ent. solve_stable. Qed.
#[local] Hint Resolve quiet_evaluateCriterion : stable.
Lemma quiet_applyProcessorData ctx d : quiet (applyProcessorData ctx d).
Proof. unfold applyProcessorData, memoGet, ent. solve_stable. Qed.
#[local] Hint Resolve quiet_applyProcessorData : stable.
Lemma quiet_dispatch ctx proc w t tx : quiet (dispatch ctx proc w t tx).
Proof. unfold dispatch, ent. solve_stable. Qed.
#[local] Hint Resolve quiet_dispatch : stable.
Lemma quiet_executeSyncProcessor e ctx proc w t tx : quiet (executeSyncProcessor e ctx proc w t tx).
Proof. unfold executeSyncProcessor. solve_stable. Qed.
Lemma quiet_executeAsyncNewTx e ctx proc w t tx : quiet (executeAsyncNewTx e ctx proc w t tx).
Proof. unfold executeAsyncNewTx. solve_stable. Qed.
Lemma quiet_flushAndCommitSegment e ctx tx x b : quiet (flushAndCommitSegment e ctx tx x b).
Proof. unfold flushAndCommitSegment, ShieldedCommit, ctxErr. solve_stable. Qed.
Lemma quiet_consumeIfMatch ctx : quiet (consumeIfMatch ctx).
Proof. unfold consumeIfMatch. solve_stable. Qed.
Lemma quiet_withIfMatch ctx x : quiet (withIfMatch ctx x).
Proof. unfold withIfMatch. solve_stable. Qed.
Lemma quiet_recordAbort ctx t n x : quiet (recordAbortForIfMatchConflict ctx t n x).
Proof. unfold recordAbortForIfMatchConflict, LookupActualTxID, ent. solve_stable. Qed.
Lemma quiet_applyDispatched ctx t p : quiet (applyDispatched ctx t p).
Proof. unfold applyDispatched. solve_stable. Qed.

Lemma quiet_resolveAuditTxID : quiet resolveAuditTxID.
Proof. unfold resolveAuditTxID, ent. solve_stable. Qed.
Lemma quiet_openAudit ctx : quiet (openAudit ctx).
Proof. unfold openAudit. solve_stable. Qed.
Lemma quiet_selectAmong e ctx a tx wfs : quiet (selectAmong e ctx a tx wfs).
Proof. induction wfs as [|wf wfs IH]; simpl; unfold state, auditing; solve_stable. Qed.
#[local] Hint Resolve quiet_selectAmong : stable.
Lemma quiet_selectWorkflow e ctx a tx wfs : quiet (selectWorkflow e ctx a tx wfs).
Proof. unfold selectWorkflow, state, auditing. solve_stable. Qed.
#[local] Hint Resolve quiet_selectWorkflow : stable.
Lemma quiet_resolveWorkflow e ctx tx : quiet (resolveWorkflow e ctx tx).
Proof. unfold resolveWorkflow, resolveWorkflowWith, ent. solve_stable. Qed.
Lemma quiet_evaluateTransition e ctx wf tr tx : quiet (evaluateTransition e ctx wf tr tx).
Proof. unfold evaluateTransition. solve_stable. Qed.
Lemma quiet_processorsFailed ctx tr tx : quiet (processorsFailed ctx tr tx).
Proof. unfold processorsFailed, state. solve_stable. Qed.
Lemma quiet_armState e ctx wf ms tx trs : quiet (armState e ctx wf ms tx trs).
Proof. induction trs as [|tr trs IH]; simpl; unfold armViaFunction, ent; solve_stable. Qed.
#[local] Hint Resolve quiet_armState : stable.
Lemma quiet_reconcileScheduledTasks e ctx wf tx x : quiet (reconcileScheduledTasks e ctx wf tx x).
Proof. unfold reconcileScheduledTasks, ent. solve_stable. Qed.
End Quiet.
End Frame.

#[export] Hint Resolve stable_call stable_ask stable_slot stable_memo stable_data : stable.
#[export] Hint Resolve quiet_executeSyncProcessor quiet_executeAsyncNewTx quiet_flushAndCommitSegment
  quiet_consumeIfMatch quiet_withIfMatch quiet_recordAbort quiet_applyDispatched quiet_resolveAuditTxID
  quiet_openAudit quiet_resolveWorkflow quiet_evaluateTransition quiet_processorsFailed
  quiet_reconcileScheduledTasks quiet_rollbackSegment quiet_txCommit quiet_dispatch
  quiet_saveEntity quiet_compareAndSave : stable.
#[export] Hint Extern 2 (stable _ (recordEvent _ _ _ _ _ _)) => apply quiet_recordEvent; done : stable.
