(* ===== verification/WorkflowSample.v ===== *)
(** * A sample environment for the workflow engine

    One entity row, a fixed list of workflows, a task table and scripted compute
    nodes.  It satisfies the environment's contract; the witnesses of the engine's
    properties run on it. *)

From stdpp Require Import base gmap strings list pretty.
From S2P Require Import Prelude Spi Workflow WorkflowRun WorkflowFire WorkflowFrame.

Module Toy.

Record World := mkWorld {
  tw_next : N;
  tw_row : option Entity;
  tw_tasks : gmap string ScheduledTask;
  tw_workflows : list WorkflowDefinition;
  tw_now : Z
}.
Definition set_next n w := mkWorld n (tw_row w) (tw_tasks w) (tw_workflows w) (tw_now w).
Definition set_row x w := mkWorld (tw_next w) (Some x) (tw_tasks w) (tw_workflows w) (tw_now w).
Definition set_tasks t w := mkWorld (tw_next w) (tw_row w) t (tw_workflows w) (tw_now w).

Definition save (ctx : ECtx) (x : Entity) : M err World Entity :=
  let x' := ent_set_TransactionID (default "" (ec_tx ctx)) x in
  modify (set_row x');; mret x.
Definition compareAndSave (ctx : ECtx) (x : Entity) (expected : string) : M err World Entity :=
  w ← get;
  match tw_row w with
  | Some r => if decide (m_TransactionID (Meta r) = expected) then save ctx x else fail ErrConflict
  | None => fail ErrNotFound
  end.

(** A processor's name is its script. *)
Definition dispatchProcessor (proc : ProcessorDefinition) : M err World (option string) :=
  if decide (pr_Name proc = "fail") then fail (ErrText "processor failed")
  else if decide (pr_Name proc = "panic") then panic "processor panicked"
  else if decide (pr_Name proc = "set") then mret (Some "changed")
  else mret None.

(** A negative clock counts the polls left before the caller is gone. *)
Definition pollCtx (w : World) : option err * World :=
  if decide (tw_now w < -1)%Z then (None, mkWorld (tw_next w) (tw_row w) (tw_tasks w) (tw_workflows w) (tw_now w + 1))
  else (if decide (tw_now w = -1)%Z then Some (ErrCtx "canceled") else None, w).

(** A condition compares the payload; ["fn"] is a function criterion. *)
Definition holds (c : string) (x : Entity) : bool := bool_decide (c = "true" ∨ c = Data x).

#[export] Instance env : Env := {|
  W := World;
  xStore := λ _ _, mret tt;
  xWorkflows := λ _ _, gets tw_workflows;
  xRecord := λ _ _ _, mret tt;
  xSave := save;
  xCompareAndSave := compareAndSave;
  xEntityGet := λ _ _, w ← get; match tw_row w with Some x => mret x | None => fail ErrNotFound end;
  xTaskGet := λ _ id, gets (λ w, tw_tasks w !! id);
  xTaskDelete := λ _ id, w ← get;
    modify (set_tasks (delete id (tw_tasks w)));; mret (bool_decide (is_Some (tw_tasks w !! id)));
  xReconcile := λ _ _, mret [];
  xBegin := λ _, w ← get; modify (set_next (tw_next w + 1)%N);; mret ("seg" +:+ pretty (tw_next w));
  xCommit := λ _ _, mret tt;
  xRollback := λ _ _, mret tt;
  xSavepoint := λ _ _, mret "sp";
  xRollbackToSavepoint := λ _ _ _, mret tt;
  xReleaseSavepoint := λ _ _ _, mret tt;
  xNow := λ w, (tw_now w, w);
  xNewTimeUUID := λ w, ("uuid", w);
  xCtxErr := λ _, pollCtx;
  xCommitInterrupted := λ _ w, (false, w);
  xResolveOrigin := ec_origin;
  xTaskHash := id;
  xDispatchProcessor := λ _ _ proc _ _ _, dispatchProcessor proc;
  xDispatchCriteria := λ _ _ _ _ _ _ _, mret (false, "not today");
  xDispatchFunction := λ _ _ _ _ _ _, mret ("Schedule", "later");
  xDecodeSchedule := λ _, inr (mkSched None (Some 1000%Z) None None);
  Condition := string;
  xParseCondition := inr;
  xIsFunction := λ c, bool_decide (c = "fn");
  xConditionType := λ _, "simple";
  xEnvelope := λ _, None;
  xConditionFieldPaths := λ _, [];
  ModelNode := unit;
  xLoadModelNode := λ _ _, mret (Some tt);
  xFieldsMap := λ _, ∅;
  xValidateKnownPaths := λ _ _ _ f, mret (inr f);
  xValidatePatterns := λ _, None;
  xValidateConditionValueTypes := λ _ _, None;
  xPrepare := λ c _, inr (holds c);
  xDescriptor := unit;
  xModelGet := λ _ _, mret (Some tt);
  xRejectUnstorable := λ _, None;
  xDecodeJSON := λ _, None;
  xValidateOrExtend := λ _ _ _, mret Accepted
|}.

Lemma save_keeps ctx x w x' w' : save ctx x w = (Ret x', w') → m_State (Meta x') = m_State (Meta x).
Proof. unfold save. mrun. by intros [= <- _]. Qed.
#[export] Instance laws : EnvLaws (X := env).
Proof.
  split; simpl.
  - intros ctx w tx w'. mrun. by intros [= <- _].
  - apply save_keeps.
  - intros ctx x expected w x' w'. unfold compareAndSave. mrun.
    destruct (tw_row w) as [r|]; [|by mrun]. case_decide; [apply save_keeps|by mrun].
Qed.

Definition engine : Engine := NewEngine true [WithExternalProcessing].
Definition ctx : ECtx := mkECtx (Some (mkUser "u" "user" "t1")) (Some "tx0") true None (mkPrincipal "u" "user") [].
Definition entity (st data tx : string) : Entity :=
  mkEntity (mkMeta "e1" "t1" Sample.model st 0 0 0 tx "" "u" "user" (mkPrincipal "u" "user") "") data.
Definition start (x : Entity) (tasks : gmap string ScheduledTask) (wfs : list WorkflowDefinition) : Eng :=
  mkEng (X := env) x [] None [CBegin "tx0"] (mkWorld 1 (Some x) tasks wfs 5000).

Definition proc (name mode : string) (newTx : bool) : ProcessorDefinition := mkProc name "" mode (Some newTx) None None "" false "".
Definition cbd : ProcessorDefinition := proc "notify" ExecutionModeCommitBeforeDispatch true.
Definition tr (name next : string) (manual : bool) (criterion : string) (procs : list ProcessorDefinition) :=
  plainTransition name next manual false criterion procs None.
End Toy.
