(* ===== verification/WorkflowSegments.v ===== *)
(** * The workflow engine: no transaction segment is left open

    A COMMIT_BEFORE_DISPATCH processor commits the transaction the engine was
    given and opens another, at any depth of a cascade, and the engine may fail or
    panic at any point after that.  Frame by frame, what is open is at most what
    was open before plus the segment the frame hands back; the entry points hand a
    segment back only on success. *)

From stdpp Require Import base gmap strings list.
From S2P Require Import Prelude Spi Workflow WorkflowRun WorkflowFire WorkflowFrame WorkflowSample.

Section Segments.
Context {X : Env} {L : EnvLaws} (e : Engine).
Implicit Types (O : gset string) (t c : string) (s : Eng).

(** Nothing is open but [O] and [t]. *)
Definition owned O t s : Prop := openS s ⊆ O ∪ {[t]}.
(** [c] is a segment of the engine's own. *)
Definition opened c : Prop := hasTxMgr e = true ∧ c ≠ "".
(** What a guard protecting the entry segment [t] may find when its cursor is [c]. *)
Definition guarded O t c s : Prop := owned O t s ∨ (owned O c s ∧ opened c).

Lemma triple_quiet {A} (P : Eng → Prop) (m : EM A) :
  stable (ext quietCall) m → (∀ s s', openS s' ⊆ openS s → P s → P s') → triple P m (λ _ s, P s).
Proof. intros Hm HP. apply (triple_stable _ _ _ Hm). intros s s' Hs. by apply HP, ext_open. Qed.
Lemma owned_shrink O t s s' : openS s' ⊆ openS s → owned O t s → owned O t s'.
Proof. unfold owned. set_solver. Qed.
Lemma guarded_shrink O t c s s' : openS s' ⊆ openS s → guarded O t c s → guarded O t c s'.
Proof. intros Hs [H|[H ?]]; [left|right; split; [|done]]; by eapply owned_shrink. Qed.

(** ** Primitive steps *)

Lemma openS_log k s : openS (logCall k s).2 = openStep (openS s) k.
Proof. unfold openS, logCall. simpl. by rewrite openSegs_app. Qed.

Lemma txCommit_closes ctx t s s' :
  txCommit e ctx t s = (Ret tt, s') → openS s' ⊆ openS s ∖ {[t]}.
Proof.
  unfold txCommit. destruct (hasTxMgr e); [|done]. intros (r & s1 & Hr & H)%bind_Ret.
  assert (Hq : stable (ext quietCall) (try (call (xCommit ctx t)))) by solve_stable.
  apply (stable_elim _ _ _ _ _ Hq), ext_open in Hr.
  apply bind_Ret in H as ([] & s2 & Hl & H).
  destruct r as [er|[]]; simpl in H; [done|]. injection H as <-.
  assert (s2 = (logCall (CCommit t true) s1).2) as -> by (by simpl in Hl; rewrite Hl).
  rewrite openS_log. simpl. set_solver.
Qed.

Lemma flush_spec O ctx t x b :
  triple (owned O t) (flushAndCommitSegment e ctx t x b)
    (λ r s, match r with Ret _ => openS s ⊆ O | _ => owned O t s end).
Proof.
  intros s Hs. assert (Hq := quiet_flushAndCommitSegment e ctx t x b s).
  apply ext_open in Hq. destruct (flushAndCommitSegment e ctx t x b s) as [[[]|er|w] s'] eqn:E;
    simpl in *; try by eapply owned_shrink.
  clear Hq. unfold flushAndCommitSegment in E.
  apply bind_Ret in E as (r1 & s1 & H1 & E). destruct r1 as [er|[]]; [done|].
  apply bind_Ret in E as (r2 & s2 & H2 & E). destruct r2 as [er|[]]; [by destruct (_ && _)|].
  apply bind_Ret in E as (r3 & s3 & H3 & E). destruct r3 as [er|]; [done|].
  unfold ShieldedCommit in E. apply bind_Ret in E as (r4 & s4 & H4 & E).
  destruct r4 as [er|[]]; [apply bind_Ret in E as (i & s5 & _ & E); by destruct i|].
  injection E as <-. unfold try in H4.
  destruct (txCommit e (WithoutCancel ctx) t s3) as [[[]| |] s5] eqn:E4; simplify_eq.
  apply txCommit_closes in E4.
  assert (Hq3 : openS s3 ⊆ openS s).
  { apply ext_open. transitivity s1; [|transitivity s2].
    - refine (stable_elim _ _ _ _ _ _ H1). solve_stable.
    - refine (stable_elim _ _ _ _ _ _ H2). solve_stable.
    - refine (stable_elim _ _ _ _ _ _ H3). unfold ctxErr. solve_stable. }
  unfold owned in Hs. set_solver.
Qed.

Lemma txBegin_spec O ctx :
  triple (λ s, openS s ⊆ O) (txBegin e ctx)
    (λ r s, match r with Ret (t, _) => owned O t s ∧ opened t | _ => openS s ⊆ O end).
Proof.
  intros s Hs. unfold txBegin. destruct (hasTxMgr e) eqn:Htm; [|done].
  rewrite run_bind. assert (Hc := stable_call quietCall (xBegin ctx) s).
  apply ext_open in Hc. unfold call in *.
  destruct (xBegin ctx (es_w s)) as [[t|er|w] w'] eqn:E; simpl in *; [|set_solver..].
  split; [|split; [done|by eapply begin_named]].
  unfold owned, openS. simpl. rewrite openSegs_app. simpl. fold (openS s). set_solver.
Qed.

Lemma beginSegment_spec O ctx :
  triple (λ s, openS s ⊆ O) (beginSegment e ctx)
    (λ r s, match r with Ret (t, _) => owned O t s ∧ opened t | _ => openS s ⊆ O end).
Proof.
  eapply triple_bind; [apply triple_try, txBegin_spec|..]; simpl; [|done..].
  intros [er|[t c]] s Hs; exact Hs.
Qed.

Lemma rollbackSegment_spec O ctx t c :
  triple (guarded O t c) (rollbackSegment e ctx c t) (λ _ s, owned O t s).
Proof.
  intros s Hs. assert (Hq := ext_open _ _ (quiet_rollbackSegment e ctx c t s)).
  destruct Hs as [Hs|[Hs [Htm Hc]]]; [by eapply owned_shrink|].
  unfold rollbackSegment in *. case_decide as Hd.
  - destruct Hd as [?|[?| ->]]; [congruence|done|exact Hs].
  - rewrite run_bind in *. unfold logCall, modify in *. simpl in *.
    set (s1 := set_trace _ s) in *.
    assert (Hr : openS s1 ⊆ O).
    { unfold s1, openS. simpl. rewrite openSegs_app. simpl. fold (openS s). unfold owned in Hs. set_solver. }
    assert (Hq1 : stable (ext quietCall) (try (call (xRollback (WithoutCancel ctx) c));; mret () : EM unit))
      by solve_stable.
    specialize (Hq1 s1). apply ext_open in Hq1. unfold owned. set_solver.
Qed.

(** Under an invariant that shrinking keeps, a quiet step goes through. *)
Lemma at_quiet {A B} (l : Cursor) (P : Eng → Prop) (m : EM A) (f : A → EL B) Q :
  stable (ext quietCall) m → (∀ s s', openS s' ⊆ openS s → P s → P s') →
  (∀ a, triple (at_ l P) (f a) Q) →
  (∀ er s, P s → Q (Err er) (s, l)) → (∀ w s, P s → Q (Panic w) (s, l)) →
  triple (at_ l P) (up m ≫= f) Q.
Proof. intros Hm HP Hf He Hw. eapply at_up; [by apply triple_quiet|done..]. Qed.

(** ** COMMIT_BEFORE_DISPATCH *)

Lemma owned_base O t s : openS s ⊆ O → owned O t s.
Proof. unfold owned. set_solver. Qed.

Lemma commitAndBegin_spec O ctx t x b :
  triple (owned O t) (commitAndBeginNextSegment e ctx t x b)
    (λ r s, match r with Ret (tx, _) => owned O tx s ∧ opened tx | _ => owned O t s end).
Proof.
  eapply triple_bind; [apply flush_spec|intros []|by intros ?? Hs..].
  eapply triple_conseq; [apply (beginSegment_spec O)|by intros s|].
  intros [[??]|?|?] s'; auto using owned_base.
Qed.

Definition cbdPost O t (r : outcome eerr (string * ECtx * option string)) (sl : Eng * Cursor) : Prop :=
  cu_done sl.2 = false ∧
  match r with
  | Ret (tx, _, _) => owned O tx sl.1 ∧ opened tx ∧ cu_tx sl.2 = tx
  | _ => guarded O t (cu_tx sl.2) sl.1
  end.

(** After the next segment is open, its owner is the cursor. *)
Lemma cbd_dispatched {A} O t nctx tx (m : EM A) (f : A → option string) :
  opened tx → stable (ext quietCall) m →
  triple (at_ (mkCursor nctx tx false) (owned O tx)) (up m ≫= λ a, mret (tx, nctx, f a)) (cbdPost O t).
Proof.
  intros Ho Hm. apply at_quiet; [done|apply owned_shrink| |by split; [|right]..].
  intros a. by apply at_ret.
Qed.

Lemma commitAndDispatch_spec O ctx proc w tr t entry :
  triple (at_ (mkCursor ctx t false) (owned O t)) (commitAndDispatch e ctx proc w tr t entry) (cbdPost O t).
Proof.
  unfold commitAndDispatch.
  apply at_quiet; [solve_stable|apply owned_shrink| |by split; [|left]..]. intros [x b].
  assert (Habort : ∀ cu er, cu_done cu = false → triple (at_ cu (owned O t))
    (up (if b && isErr er ErrConflict then recordAbortForIfMatchConflict ctx entry tr x else mret ()) ;;
     fail er) (cbdPost O t)).
  { intros cu er Hcu. apply at_quiet; [solve_stable|apply owned_shrink| |by split; [|left]..].
    intros []. apply at_fail. by split; [|left]. }
  destruct (default false _).
  - eapply at_up; [apply triple_try, commitAndBegin_spec|..]; simpl; [|done|by split; [|left]].
    intros [er|[tx nctx]]; apply at_setL; [by apply Habort|].
    destruct (hasExtProc e); simpl.
    + intros [s cu] [[Hs Ho] Hcu]. apply (cbd_dispatched O t nctx tx (dispatch nctx proc w tr tx) id);
        [done|solve_stable|by split].
    + apply at_ret. intros s [Hs Ho]. by split.
  - eapply at_up; [apply triple_try, flush_spec|..]; simpl; [|done|by split; [|left]].
    intros [er|[]]; [by apply Habort|].
    assert (Hnext : ∀ m : option string, triple (at_ (mkCursor ctx t false) (λ s, openS s ⊆ O))
      (begun ← up (try (beginSegment e ctx));
       match begun with
       | inl err => setL (mkCursor ctx "" false);; fail err
       | inr (newTxID, newCtx) => setL (mkCursor newCtx newTxID false);; mret (newTxID, newCtx, m)
       end) (cbdPost O t)).
    { intros m. eapply at_up; [apply triple_try, beginSegment_spec|..]; simpl;
        [|done|by split; [|left; apply owned_base]].
      intros [er|[tx nctx]]; apply at_setL; [apply at_fail; by split; [|left; apply owned_base]|].
      apply at_ret. intros s [Hs Ho]. by split. }
    destruct (hasExtProc e).
    + apply at_quiet; [solve_stable|set_solver|exact Hnext|by split; [|left; apply owned_base]..].
    + apply Hnext.
Qed.

Lemma executeCBD_spec O ctx proc w tr t entry :
  triple (owned O t) (executeCommitBeforeDispatch e ctx proc w tr t entry)
    (λ r s, match r with Ret (_, tx) => owned O tx s ∧ opened tx | _ => owned O t s end).
Proof.
  eapply (triple_scoped _ _ _ _ (λ r sl, match r with
    | Ret (_, tx) => owned O tx sl.1 ∧ opened tx ∧ cu_done sl.2 = true
    | _ => guarded O t (cu_tx sl.2) sl.1 ∧ cu_done sl.2 = false end)).
  - eapply triple_bind; [apply commitAndDispatch_spec|..]; [|by intros er [s cu] [??]..].
    intros [[tx nctx] d]. apply at_all. intros cu.
    apply (at_pure cu (cu_done cu = false ∧ opened tx ∧ cu_tx cu = tx) _ (owned O tx));
      [by intros s (? & ? & ? & ?)|intros (Hd & Ho & Hcu)].
    apply at_quiet; [solve_stable|apply owned_shrink| |by (intros; simpl; rewrite Hcu; split; [right|])..].
    intros []. apply at_setL, at_ret. auto.
  - intros r cu. destruct (cu_done cu) eqn:Hd.
    + intros s. simpl. rewrite Hd. destruct r as [[]| |]; simpl; intuition done.
    + destruct r as [[nctx tx]|er|p]; [intros s (_ & _ & ?); simpl in *; congruence|..];
        (eapply triple_conseq; [apply (rollbackSegment_spec O _ t (cu_tx cu))|by intros s [? _]|]);
        by intros [] s Hs.
Qed.

(** ** The pipeline, one transition, the cascade *)

(** What a frame entered with segment [t] hands back. *)
Definition handBack O t (r : outcome eerr (ECtx * string * option eerr)) s : Prop :=
  match r with
  | Ret (_, c, _) => owned O c s ∧ (c = t ∨ opened c)
  | Err _ => False
  | Panic _ => owned O t s
  end.
(** Inside the frame: the cursor owns what is open. *)
Definition running O t (c : Cursor) s : Prop := owned O (cu_tx c) s ∧ (cu_tx c = t ∨ opened (cu_tx c)).
(** A body that never returns an error of its own. *)
Definition bodyPost {A} O t (r : outcome eerr A) (sl : Eng * Cursor) : Prop :=
  match r with
  | Ret _ | Panic _ => running O t sl.2 sl.1
  | Err _ => False
  end.

Lemma running_shrink O t cu s s' : openS s' ⊆ openS s → running O t cu s → running O t cu s'.
Proof. intros Hs [H ?]. split; [by eapply owned_shrink|done]. Qed.
Lemma running_guarded O t cu s : running O t cu s → guarded O t (cu_tx cu) s.
Proof. intros [H [Ht|Ho]]; [left; by rewrite <- Ht|by right]. Qed.

(** Steps that only record or poll cannot fail. *)
Definition total {A} (m : EM A) : Prop := ∀ s, match (m s).1 with Err _ => False | _ => True end.
Lemma total_try {A} (m : EM A) : total (try m).
Proof. intros s. unfold try. by destruct (m s) as [[]]. Qed.
Lemma total_state : total state.
Proof. done. Qed.
Lemma steps_total_bind {A B} (m : EM A) (f : A → EM B) : total m → (∀ a, total (f a)) → total (m ≫= f).
Proof.
  intros Hm Hf s. specialize (Hm s). rewrite run_bind.
  destruct (m s) as [[a|er|w] s']; simpl in *; [apply Hf|done..].
Qed.
Lemma total_ask {A} (f : W → A * W) : total (ask f).
Proof. intros s. unfold ask. by destruct (f (es_w s)). Qed.
Lemma total_recordEvent ctx tx st ty ds d : total (recordEvent ctx tx st ty ds d).
Proof.
  unfold recordEvent. apply steps_total_bind; [done|intros x]. apply steps_total_bind; [apply total_ask|intros u].
  apply steps_total_bind; [apply total_ask|intros ts]. apply steps_total_bind; [apply total_try|intros []]; done.
Qed.
Lemma total_processorsFailed ctx tr tx : total (processorsFailed ctx tr tx).
Proof. apply steps_total_bind; [done|intros st]. apply total_recordEvent. Qed.
Lemma total_makeTransition ctx tr tx : total (makeTransition ctx tr tx).
Proof. apply steps_total_bind; [done|intros st]. apply steps_total_bind; [apply total_recordEvent|done]. Qed.
Lemma total_ctxErr ctx : total (ctxErr ctx).
Proof. unfold ctxErr. destruct (ec_cancel ctx); [apply total_ask|done]. Qed.

Definition shrinks {A} (m : EM A) : Prop := ∀ s, openS (m s).2 ⊆ openS s.
Lemma quiet_shrinks {A} (m : EM A) : stable (ext quietCall) m → shrinks m.
Proof. intros Hm s. apply ext_open, Hm. Qed.
Lemma shrinks_makeTransition ctx tr tx : shrinks (makeTransition ctx tr tx).
Proof.
  intros s. assert (H : stable (λ s s', openS s' ⊆ openS s) (makeTransition ctx tr tx)); [|apply H].
  assert (HP : PreOrder (λ s s', openS s' ⊆ openS s)) by (split; [intros ?|intros ???]; set_solver).
  unfold makeTransition, state, recordEvent, ent. solve_stable.
  - intros s1. apply ext_open, (stable_ask quietCall).
  - intros s1. apply ext_open, (stable_ask quietCall).
  - intros s1. apply ext_open, (stable_call quietCall).
  - intros s1. by rewrite openS_log.
  - by intros s1.
Qed.

Lemma at_step {A B} O t cu (m : EM A) (f : A → EL B) Q :
  shrinks m → total m →
  (∀ a, triple (at_ cu (running O t cu)) (f a) Q) → (∀ w s, running O t cu s → Q (Panic w) (s, cu)) →
  triple (at_ cu (running O t cu)) (up m ≫= f) Q.
Proof.
  intros Hm Ht Hf HQ. eapply (at_up _ _ _ (λ r s, match r with Err _ => False | _ => running O t cu s end)).
  - intros s Hs. specialize (Ht s).
    assert (Hr : running O t cu (m s).2) by (eapply running_shrink; [apply Hm|done]).
    by destruct (m s) as [[]].
  - intros a. apply Hf.
  - done.
  - exact HQ.
Qed.

#[local] Hint Extern 1 (shrinks _) => apply quiet_shrinks; solve_stable : core.
#[local] Hint Resolve total_try total_state total_recordEvent total_processorsFailed total_makeTransition
  total_ctxErr shrinks_makeTransition : core.

Lemma runProcessor_spec O t cu proc w tr entry :
  triple (at_ cu (running O t cu)) (runProcessor e proc w tr entry) (bodyPost O t).
Proof.
  apply at_getL. case_decide; [|case_decide].
  - apply at_step; [auto..| |done]. intros r. by apply at_ret.
  - eapply (at_up _ _ _ (tried (λ r s, match r with
      | Ret (_, tx) => owned O tx s ∧ opened tx | _ => running O t cu s end))).
    + apply triple_try. intros s [Hs Ht].
      assert (HC := executeCBD_spec O (cu_ctx cu) proc w tr (cu_tx cu) entry s Hs).
      destruct (executeCommitBeforeDispatch _ _ _ _ _ _ _ s) as [[[]| |] s']; simpl in *; by auto using conj.
    + intros [er|[nctx tx]]; simpl; [by apply at_ret|]. apply at_setL, at_ret. intros s [Hs Ho].
      split; [done|by right].
    + done.
    + done.
  - apply at_step; [auto..| |done]. intros r. by apply at_ret.
Qed.

(** A loop that returns the segment its cursor names. *)
Definition loopPost O t (r : outcome eerr (ECtx * string * option eerr)) (sl : Eng * Cursor) : Prop :=
  match r with
  | Ret (_, c, _) => owned O c sl.1 ∧ (c = t ∨ opened c)
  | Err _ => False
  | Panic _ => running O t sl.2 sl.1
  end.

Lemma scoped_handBack O ctx t (body : EL (ECtx * string * option eerr)) :
  triple (at_ (mkCursor ctx t false) (running O t (mkCursor ctx t false))) body (loopPost O t) →
  triple (owned O t) (scoped (mkCursor ctx t false) body (panicGuard e t)) (handBack O t).
Proof.
  intros Hb. eapply (triple_scoped _ _ _ _ (loopPost O t)).
  - eapply at_conseq; [exact Hb|]. intros s Hs. by split; [|left].
  - intros [[[c x] er]|er|p] cu; simpl; [by intros s|by intros s|].
    eapply triple_conseq; [apply (rollbackSegment_spec O _ t (cu_tx cu))|apply running_guarded|by intros []].
Qed.

Lemma runProcessors_spec O t procs w tr entry cu :
  triple (at_ cu (running O t cu)) (runProcessors e procs w tr entry) (loopPost O t).
Proof.
  revert cu. induction procs as [|proc procs IH]; intros cu; simpl.
  { apply at_getL, at_ret. intros s [??]. by split. }
  assert (Hstop : ∀ cu er, triple (at_ cu (running O t cu))
    (cu ← getL; mret (cu_ctx cu, cu_tx cu, Some (EWrap "processor failed" er))) (loopPost O t)).
  { intros cu0 er. apply at_getL, at_ret. intros s [??]. by split. }
  assert (Hres : ∀ cu d f, (∀ cu, triple (at_ cu (running O t cu)) f (loopPost O t)) →
    triple (at_ cu (running O t cu))
      ((cu ← getL; st ← up state; up (recordEvent (cu_ctx cu) entry st SMEventStateProcessResult [pr_Name proc] d)) ;;
       f) (loopPost O t)).
  { intros cu0 d f Hf. apply triple_assoc, at_getL, triple_assoc.
    apply at_step; [auto..|intros st|done]. apply at_step; [auto..|intros []|done]. apply Hf. }
  case_decide as Hty; [by apply Hres|].
  eapply triple_bind; [apply runProcessor_spec| |done|by intros p [s cu'] Hs].
  intros procErr. apply at_all. intros cu'. eapply at_conseq; [apply Hres|by intros s].
  intros cu1. destruct procErr as [er|]; [case_decide; [apply IH|apply Hstop]|apply IH].
Qed.

Lemma handBack_step {A} O t (m : EM A) f :
  shrinks m → total m → (∀ a, triple (owned O t) (f a) (handBack O t)) → triple (owned O t) (m ≫= f) (handBack O t).
Proof.
  intros Hm Ht Hf s Hs. specialize (Hm s). specialize (Ht s). rewrite run_bind.
  assert (Ho : owned O t (m s).2) by by eapply owned_shrink.
  destruct (m s) as [[a|er|p] s']; simpl in *; [by apply Hf|done..].
Qed.

Lemma executeProcessors_spec O ctx procs w tr t :
  triple (owned O t) (executeProcessors e ctx procs w tr t) (handBack O t).
Proof.
  unfold executeProcessors. case_decide; [intros s Hs; split; [done|by left]|].
  apply handBack_step; [auto..|intros st]. apply handBack_step; [auto..|intros []].
  apply handBack_step; [auto|done|intros []].
  apply scoped_handBack, runProcessors_spec.
Qed.

(** A frame called at the cursor: the caller adopts what it hands back. *)
Lemma at_frame {B} O t cu (m : EM (ECtx * string * option eerr)) (f : _ → EL B) Q :
  triple (owned O (cu_tx cu)) m (handBack O (cu_tx cu)) →
  (∀ nctx tx er, triple (at_ cu (running O t (mkCursor nctx tx false))) (f (nctx, tx, er)) Q) →
  (∀ w s, running O t cu s → Q (Panic w) (s, cu)) →
  triple (at_ cu (running O t cu)) (up m ≫= f) Q.
Proof.
  intros Hm Hf HQ.
  eapply (at_up _ _ _ (λ r s, match r with
    | Ret (nctx, tx, _) => running O t (mkCursor nctx tx false) s | Err _ => False
    | Panic _ => running O t cu s end)); [|by intros [[]]|done|done].
  intros s [Hs Ht]. specialize (Hm s Hs).
  destruct (m s) as [[[[nctx tx] er]|er|p] s']; simpl in *; [|done|by split].
  destruct Hm as [Ho [->|?]]; by split; [|auto].
Qed.

Lemma fireTransition_spec O ctx wf tr t :
  triple (owned O t) (fireTransition e ctx wf tr t) (handBack O t).
Proof.
  apply scoped_handBack. apply at_step; [auto..| |done].
  intros [er|[[] reason]].
  - apply at_ret. intros s [Hs Ht]. by split.
  - apply at_frame; [apply executeProcessors_spec| |done]. intros nctx tx er. apply at_setL.
    destruct er as [er|]; (apply at_step; [auto..| |done]); intros []; apply at_ret; by intros s [??].
  - apply at_step; [auto..|intros st|done]. apply at_step; [auto..|intros []|done].
    apply at_ret. by intros s [??].
Qed.

Lemma attemptTransition_spec O ctx wf name t :
  triple (owned O t) (attemptTransition e ctx wf name t) (handBack O t).
Proof.
  assert (Hrefuse : ∀ st why, triple (owned O t)
    (recordEvent ctx t st SMEventTransitionNotFound [name; st; why] [];;
     mret (ctx, t, Some (EWrap why (ESentinel ErrTransitionNotFound)))) (handBack O t)).
  { intros st why. apply handBack_step; [auto..|intros [] s Hs]. by split; [|left]. }
  intros s Hs. unfold attemptTransition, state. mrun.
  destruct (wf_States wf !! _) as [trs|]; [|by split; [|left]].
  destruct (findTransition trs name) as [tr|]; [|by apply Hrefuse].
  destruct (tr_Disabled tr); [by apply Hrefuse|]. destruct (tr_Schedule tr); [by apply Hrefuse|].
  by apply fireTransition_spec.
Qed.

Lemma cascadePass_spec O t wf a trs cu :
  triple (at_ cu (running O t cu)) (cascadePass e wf a trs) (bodyPost O t).
Proof.
  induction trs as [|tr trs IH]; simpl; [by apply at_ret|].
  destruct (automated tr); simpl; [|apply IH].
  apply at_getL, at_step; [auto..| |done]. intros [er|[[] reason]].
  - by apply at_ret.
  - apply at_frame; [apply executeProcessors_spec| |done]. intros nctx tx er. apply at_setL.
    destruct er as [er|]; (apply at_step; [auto..| |done]); intros []; by apply at_ret.
  - apply at_step; [auto..|intros st|done]. by apply at_step; [auto..|intros []; apply IH|].
Qed.

Lemma cascadeLoop_spec O t wf a depth visits cu :
  triple (at_ cu (running O t cu)) (cascadeLoop e wf a depth visits) (bodyPost O t).
Proof.
  revert visits cu. induction depth as [|d IH]; intros visits cu; simpl;
    (apply at_step; [auto..|intros st|done]); apply at_getL.
  { apply at_step; [auto..|intros []|done]. by apply at_ret. }
  apply at_step; [auto..| |done]. { apply quiet_shrinks. unfold ctxErr. solve_stable. }
  intros [er|]; [by apply at_ret|]. case_decide.
  { apply at_step; [auto..|intros []|done]. by apply at_ret. }
  destruct (wf_States wf !! st) as [trs|]; [|by apply at_ret].
  eapply triple_bind; [apply cascadePass_spec| |done|by intros p [s cu'] Hs].
  intros r. apply at_all. intros cu'. eapply (at_conseq _ _ (running O t cu')); [|by intros s].
  destruct r; [by apply at_ret|apply IH|by apply at_ret].
Qed.

Lemma cascadeAutomated_spec O ctx wf t :
  triple (owned O t) (cascadeAutomated e ctx wf t) (handBack O t).
Proof.
  apply scoped_handBack.
  eapply triple_bind; [apply cascadeLoop_spec| |done|by intros p [s cu'] Hs].
  intros r. apply at_all. intros cu. apply at_getL, at_ret. by intros s [??].
Qed.

(** ** The entry points *)

(** What an entry point leaves open. *)
Definition doorPost O t (r : outcome eerr EngineResult) s : Prop :=
  match r with
  | Ret res =>
      owned O (er_FinalTxID res) s ∧ (er_FinalTxID res = t ∨ opened (er_FinalTxID res)) ∧
      (er_Segmented res = false → er_FinalTxID res = t)
  | _ => owned O t s
  end.
Definition entryPost O t (r : outcome eerr EngineResult) (sl : Eng * Cursor) : Prop :=
  match r with
  | Ret res => cu_done sl.2 = true ∧ doorPost O t r sl.1
  | _ => cu_done sl.2 = false ∧ guarded O t (cu_tx sl.2) sl.1
  end.

(** Steps that may fail, before the hand-off. *)
Lemma at_fallible {A} O t cu (m : EM A) (f : A → EL EngineResult) :
  cu_done cu = false → stable (ext quietCall) m →
  (∀ a, triple (at_ cu (running O t cu)) (f a) (entryPost O t)) →
  triple (at_ cu (running O t cu)) (up m ≫= f) (entryPost O t).
Proof.
  intros Hd Hm Hf. apply at_quiet; [done|apply running_shrink|done|..];
    intros ? s Hs; split; [done|by apply running_guarded|done|by apply running_guarded].
Qed.

Lemma at_setState {A} O t cu st (f : unit → EL A) Q :
  triple (at_ cu (running O t cu)) (f tt) Q → triple (at_ cu (running O t cu)) (up (setState st) ≫= f) Q.
Proof. intros Hf [s cu'] [Hs Hcu]. simpl in Hs, Hcu. subst cu'. by apply (Hf (_, cu)). Qed.

(** Adopting a stage's hand-back. *)
Lemma at_advance O t cu (m : EM (ECtx * string * option eerr)) (f : unit → EL EngineResult) :
  cu_done cu = false → triple (owned O (cu_tx cu)) m (handBack O (cu_tx cu)) →
  (∀ nctx tx, let cu' := mkCursor nctx tx false in triple (at_ cu' (running O t cu')) (f tt) (entryPost O t)) →
  triple (at_ cu (running O t cu)) (up m ≫= λ r, advance r ≫= f) (entryPost O t).
Proof.
  intros Hd Hm Hf. eapply at_frame; [done| |by intros w s Hs; split; [|apply running_guarded]].
  intros nctx tx er. apply triple_assoc, at_setL. destruct er as [er|]; [|apply Hf].
  intros [s cu'] [Hs Hcu]. simpl in Hs, Hcu. subst cu'. split; [done|by apply running_guarded].
Qed.

Lemma settle_spec O t wf fin cu :
  cu_done cu = false → triple (at_ cu (running O t cu)) (settle e wf t fin) (entryPost O t).
Proof.
  intros Hd. apply at_getL, at_advance; [done|apply cascadeAutomated_spec|]. intros nctx tx cu'. apply at_getL.
  apply at_fallible; [done|solve_stable|intros []]. apply at_fallible; [done|unfold state; solve_stable|intros st].
  apply at_fallible; [done|solve_stable|intros []]. apply at_setL, at_ret. intros s [Hs Ht].
  split; [done|]. split_and!; [done|done|]. simpl. intros Hseg%bool_decide_eq_false. by apply dec_stable.
Qed.

Lemma entry_spec O ctx t (body : EL EngineResult) :
  triple (at_ (mkCursor ctx t false) (running O t (mkCursor ctx t false))) body (entryPost O t) →
  triple (owned O t) (scoped (mkCursor ctx t false) body (entryGuard e t)) (doorPost O t).
Proof.
  intros Hb. eapply (triple_scoped _ _ _ _ (entryPost O t)).
  - eapply at_conseq; [exact Hb|]. intros s Hs. by split; [|left].
  - intros r cu. unfold entryGuard. destruct (cu_done cu) eqn:Hd.
    + intros s Hr. simpl. destruct r; simpl in Hr; [apply Hr|destruct Hr; congruence..].
    + destruct r as [res|er|p]; simpl; [intros s [? _]; simpl in *; congruence|..];
        (eapply triple_conseq; [apply (rollbackSegment_spec O _ t (cu_tx cu))|by intros s [_ ?]|by intros []]).
Qed.

Lemma door_prefix O ctx t (B : string → EL EngineResult) :
  t ≠ "" → triple (at_ (mkCursor ctx t false) (running O t (mkCursor ctx t false))) (B t) (entryPost O t) →
  triple (λ s, owned O t s ∧ m_TransactionID (Meta (es_ent s)) = t)
    (openAudit ctx;; txID ← resolveAuditTxID; scoped (mkCursor ctx txID false) (B txID) (entryGuard e txID))
    (doorPost O t).
Proof.
  intros Ht HB s [Hs Hent]. rewrite run_bind.
  assert (Hq : openS (openAudit ctx s).2 ⊆ openS s) by (apply ext_open, quiet_openAudit).
  assert (He : es_ent (openAudit ctx s).2 = es_ent s).
  { unfold openAudit, call, try, mbind, M_bind. by destruct (xStore AuditStoreK ctx (es_w s)) as [[] w]. }
  destruct (openAudit ctx s) as [[[]|er|p] s1]; simpl in *; try by eapply owned_shrink.
  unfold resolveAuditTxID, ent. mrun. rewrite He, Hent, decide_True by done. mrun.
  apply (entry_spec O ctx t (B t) HB). by eapply owned_shrink.
Qed.

Lemma Execute_spec O ctx name t :
  t ≠ "" → triple (λ s, owned O t s ∧ m_TransactionID (Meta (es_ent s)) = t) (Execute e ctx name) (doorPost O t).
Proof.
  intros Ht. apply (door_prefix O ctx t); [done|].
  apply at_fallible; [done|unfold state; solve_stable|intros st]. apply at_fallible; [done|solve_stable|intros []].
  apply at_fallible; [done|solve_stable|intros wf]. apply at_setState. case_decide.
  - apply triple_assoc, at_advance; [done|apply attemptTransition_spec|]. intros nctx tx. by apply settle_spec.
  - by apply settle_spec.
Qed.

Lemma ManualTransition_spec O ctx name t :
  t ≠ "" → triple (λ s, owned O t s ∧ m_TransactionID (Meta (es_ent s)) = t) (ManualTransition e ctx name) (doorPost O t).
Proof.
  intros Ht. apply (door_prefix O ctx t); [done|].
  apply at_fallible; [done|unfold state; solve_stable|intros st]. apply at_fallible; [done|solve_stable|intros []].
  apply at_fallible; [done|solve_stable|intros wf].
  apply at_advance; [done|apply attemptTransition_spec|]. intros nctx tx. by apply settle_spec.
Qed.

Lemma Loopback_spec O ctx t :
  t ≠ "" → triple (λ s, owned O t s ∧ m_TransactionID (Meta (es_ent s)) = t) (Loopback e ctx) (doorPost O t).
Proof.
  intros Ht. apply (door_prefix O ctx t); [done|].
  apply at_fallible; [done|unfold state; solve_stable|intros st]. apply at_fallible; [done|solve_stable|intros []].
  apply at_fallible; [done|solve_stable|intros wf]. apply at_fallible; [done|unfold state; solve_stable|intros st'].
  destruct (wf_States wf !! st'); [by apply settle_spec|].
  apply at_fallible; [done|solve_stable|intros []]. apply at_fallible; [done|solve_stable|intros []].
  apply at_setL, at_ret. by intros s [??].
Qed.

Lemma withIfMatch_frame ctx x s :
  ∃ ctx' s', withIfMatch ctx x s = (Ret ctx', s') ∧ es_ent s' = es_ent s ∧ es_trace s' = es_trace s.
Proof. unfold withIfMatch. case_decide; mrun; eauto. Qed.

Lemma enter_spec O ctx d t :
  t ≠ "" → triple (λ s, owned O t s ∧ m_TransactionID (Meta (es_ent s)) = t) (enter e ctx d) (doorPost O t).
Proof.
  intros Ht s Hs.
  assert (Hpre : ∀ s', es_ent s' = es_ent s → es_trace s' = es_trace s →
    owned O t s' ∧ m_TransactionID (Meta (es_ent s')) = t).
  { intros s' He E. unfold owned, openS in *. by rewrite He, E. }
  destruct d as [name|name x|x]; simpl; [by apply Execute_spec, Hpre|..];
    unfold ManualTransitionWithIfMatch, LoopbackWithIfMatch; rewrite run_bind;
    destruct (withIfMatch_frame ctx x s) as (ctx' & s' & -> & He & Hs');
    [by apply ManualTransition_spec, Hpre|by apply Loopback_spec, Hpre].
Qed.

(** C3. Every transaction segment the engine opens is closed: whatever request
    door is used (creation, manual transition or loopback, with or without an
    If-Match precondition) and however the call ends, including a panic in a store,
    a compute node or the audit trail, nothing is left open beyond what was open
    before and one segment.  On success that segment is the one the result hands
    back, the caller's own when the cascade did not segment; on an error or a panic
    it is the caller's own. *)
Theorem segments_released ctx d s t :
  m_TransactionID (Meta (es_ent s)) = t → t ≠ "" →
  match enter e ctx d s with
  | (Ret res, s') =>
      openS s' ⊆ openS s ∪ {[er_FinalTxID res]} ∧ (er_Segmented res = false → er_FinalTxID res = t)
  | (Err _, s') | (Panic _, s') => openS s' ⊆ openS s ∪ {[t]}
  end.
Proof.
  intros Hent Ht. assert (Hd := enter_spec (openS s) ctx d t Ht s (conj (owned_base _ t s (reflexivity _)) Hent)).
  destruct (enter e ctx d s) as [[] s']; simpl in Hd; [|done..]. by destruct Hd as (? & _ & ?).
Qed.

(** ** The scheduler's door *)

(** All closed, but for a segment whose commit was the last call and failed. *)
Definition settled O s : Prop :=
  openS s ⊆ O ∨ ∃ tx, last (es_trace s) = Some (CCommit tx false) ∧ owned O tx s.
Definition firePost {A} O (_ : outcome eerr A) (sl : Eng * Cursor) : Prop :=
  if cu_done sl.2 then settled O sl.1 else owned O (cu_tx sl.2) sl.1.

Section Fire.
Hypothesis Htm : hasTxMgr e = true.
Hypothesis commit_returns : ∀ ctx tx w p w', xCommit ctx tx w ≠ (Panic p, w').

Lemma commitAs_spec O ctx o cu :
  triple (at_ cu (owned O (cu_tx cu))) (commitAs e ctx o (cu_tx cu)) (firePost O).
Proof.
  apply at_getL, at_setL. intros [s cu'] [Hs Hcu]. simpl in Hs, Hcu. subst cu'.
  rewrite run_bind. unfold up, txCommit, try, call. rewrite Htm. cbv beta. rewrite run_bind.
  assert (Hc := commit_returns ctx (cu_tx cu) (es_w s)).
  destruct (xCommit ctx (cu_tx cu) (es_w s)) as [[[]|er|p] w']; [..|by destruct (Hc p w')]; simpl.
  - left. unfold openS. simpl. rewrite openSegs_app. simpl. fold (openS s). unfold owned in Hs. set_solver.
  - right. exists (cu_tx cu). simpl. rewrite last_snoc. split; [done|].
    unfold owned, openS. simpl. rewrite openSegs_app. exact Hs.
Qed.

Lemma fire_step {A B} O cu (m : EM A) (f : A → EL B) :
  cu_done cu = false → stable (ext quietCall) m →
  (∀ a, triple (at_ cu (owned O (cu_tx cu))) (f a) (firePost O)) →
  triple (at_ cu (owned O (cu_tx cu))) (up m ≫= f) (firePost O).
Proof.
  intros Hd Hm Hf. apply at_quiet; [done|apply owned_shrink|done|..];
    intros ? s Hs; unfold firePost; simpl; by rewrite Hd.
Qed.
Lemma fire_ret {A} O cu (a : A) :
  cu_done cu = false → triple (at_ cu (owned O (cu_tx cu))) (mret a) (firePost O).
Proof. intros Hd. apply at_ret. intros s Hs. unfold firePost. simpl. by rewrite Hd. Qed.

Lemma quiet_taskDelete ctx id : stable (ext quietCall) (taskDelete ctx id).
Proof. unfold taskDelete. solve_stable. by apply stable_log. Qed.
#[local] Hint Resolve quiet_taskDelete : stable.

Lemma retire_spec O ctx dctx id o note cu :
  cu_done cu = false → stable (ext quietCall) note →
  triple (at_ cu (owned O (cu_tx cu))) (retire e ctx dctx (cu_tx cu) id o note) (firePost O).
Proof.
  intros Hd Hn. apply fire_step; [done|solve_stable|]. intros [er|[]]; [by apply fire_ret|..].
  - apply fire_step; [done|done|intros []]. apply commitAs_spec.
  - intros sl Hsl. by apply commitAs_spec.
Qed.

Lemma quiet_noteRetired ctx tx ty cur d :
  ty ≠ SMEventTransitionMade → stable (ext quietCall) (noteRetired ctx tx ty cur d).
Proof. intros Hty. unfold noteRetired, state. solve_stable. Qed.
#[local] Hint Extern 2 (stable _ (noteRetired _ _ _ _ _)) => apply quiet_noteRetired; done : stable.

(** A stage of the engine, at the cursor. *)
Lemma fire_frame {B} O cu (m : EM (ECtx * string * option eerr)) (f : _ → EL B) :
  cu_done cu = false → triple (owned O (cu_tx cu)) m (handBack O (cu_tx cu)) →
  (∀ nctx tx er, triple (at_ cu (owned O tx)) (f (nctx, tx, er)) (firePost O)) →
  triple (at_ cu (owned O (cu_tx cu))) (up m ≫= f) (firePost O).
Proof.
  intros Hd Hm Hf. eapply at_up; [exact Hm| |done|].
  - intros [[nctx tx] er]. eapply at_conseq; [apply Hf|by intros s [? _]].
  - intros p s Hs. unfold firePost. simpl. by rewrite Hd.
Qed.

Lemma persistFired_spec O ctx t x cur cu :
  cu_done cu = false → triple (at_ cu (owned O (cu_tx cu))) (persistFired e ctx t x cur) (firePost O).
Proof.
  intros Hd. apply at_getL, fire_step; [done|solve_stable|]. intros [er|[]]; [by apply fire_ret|].
  apply fire_step; [done|solve_stable|]. intros [er|[]]; [by apply fire_ret|].
  apply fire_step; [done|unfold state; solve_stable|intros st]. apply fire_step; [done|solve_stable|intros []].
  apply commitAs_spec.
Qed.

Lemma fireArmed_spec O ctx cu id cur wf tr :
  cu_done cu = false →
  triple (at_ cu (owned O (cu_tx cu))) (fireArmed e ctx (cu_ctx cu) (cu_tx cu) id cur wf tr) (firePost O).
Proof.
  intros Hd. apply fire_step; [done| |intros []].
  { intros s. split; [done|]. exists []. by rewrite app_nil_r. }
  apply fire_step; [done|unfold ent; solve_stable|intros x]. cbv zeta. case_decide.
  { apply retire_spec; [done|auto with stable]. }
  apply fire_step; [done|solve_stable|intros fctx].
  apply fire_frame; [done|apply fireTransition_spec|]. intros nctx tx [er|]; apply at_setL.
  { destruct (isSentinel er _); [|by apply (fire_ret O (mkCursor nctx tx false))].
    apply (retire_spec O ctx nctx id OutcomeDeclined (mret tt) (mkCursor nctx tx false)); [done|solve_stable]. }
  apply (fire_frame O (mkCursor nctx tx false)); [done|apply cascadeAutomated_spec|].
  intros fctx' ftx [er|]; apply at_setL; [by apply (fire_ret O (mkCursor fctx' ftx false))|].
  apply (fire_step O (mkCursor fctx' ftx false)); [done|solve_stable|].
  intros [er|[]]; [by apply fire_ret|by apply persistFired_spec].
Qed.

Lemma fireDue_spec O ctx cu id cur :
  cu_done cu = false →
  triple (at_ cu (owned O (cu_tx cu))) (fireDue e ctx (cu_ctx cu) (cu_tx cu) id cur) (firePost O).
Proof.
  intros Hd. apply fire_step; [done|solve_stable|intros now]. case_decide; [by apply fire_ret|].
  destruct (lateness e cur now) as [[]|]; [apply retire_spec; auto with stable|by apply fire_ret|].
  apply fire_step; [done|solve_stable|intros r]. apply fire_step; [done|unfold state; solve_stable|intros st].
  destruct r as [er|wf]; [by apply fire_ret|].
  destruct (findFireableTransitionInState _ _ _); [by apply fireArmed_spec|apply retire_spec; auto with stable].
Qed.

Lemma fireRow_spec O ctx cu task p :
  cu_done cu = false →
  triple (at_ cu (owned O (cu_tx cu))) (fireRow e ctx (cu_ctx cu) (cu_tx cu) task p) (firePost O).
Proof.
  intros Hd. apply fire_step; [done|solve_stable|]. intros [er|[cur|]]; [by apply fire_ret| |by apply commitAs_spec].
  do 2 (case_decide; [by apply fire_ret|]). apply fire_step; [done|solve_stable|].
  intros [er|x].
  - destruct (isErr er ErrNotFound); [|by apply fire_ret]. apply retire_spec; [done|solve_stable].
  - apply (at_up _ _ _ (λ _ s, owned O (cu_tx cu) s)); [by intros s| |by intros; unfold firePost; simpl; rewrite Hd..].
    intros []. case_decide; [apply retire_spec; [done|solve_stable]|by apply fireDue_spec].
Qed.

End Fire.
End Segments.

(** ** Witnesses *)

(** A manual transition whose pipeline commits the caller's transaction, opens a
    segment, then panics in the next processor. *)
Definition panickingRun : Eng :=
  Toy.start (Toy.entity "OPEN" "d" "tx0") ∅
    [plainWorkflow "wf" true "OPEN" ""
       (<["OPEN" := [Toy.tr "go" "DONE" true "" [Toy.cbd; Toy.proc "panic" "SYNC" false]]]> ∅) "1.4"].

Lemma segments_released_witness :
  (enter Toy.engine Toy.ctx (DManual "go" "") panickingRun).1 = Panic "processor panicked" ∧
  openS (enter Toy.engine Toy.ctx (DManual "go" "") panickingRun).2 ⊆ {["tx0"]}.
Proof.
  assert (Hr : (enter Toy.engine Toy.ctx (DManual "go" "") panickingRun).1 = Panic "processor panicked") by by_eval.
  split; [exact Hr|].
  assert (Ht : "tx0" ≠ "") by discriminate.
  assert (H := @segments_released Toy.env Toy.laws Toy.engine Toy.ctx (DManual "go" "") panickingRun "tx0" eq_refl Ht).
  destruct (enter _ _ _ _) as [r s']. simpl in Hr |- *. subst r. etrans; [exact H|by_eval].
Defined.

Definition armed (tr from : string) (at_ms : Z) : ScheduledTask :=
  mkTask "task1" "t1" "fire-transition" at_ms None None "e1" "order" 1 tr from 0 0 (mkPrincipal "u" "user").
Definition timer (name next : string) (procs : list ProcessorDefinition) : TransitionDefinition :=
  plainTransition name next false false "" procs (Some (mkSchedule 1000 None None)).

(** A due task whose transition segments twice before it fires. *)
Definition firingRun : Eng :=
  Toy.start (Toy.entity "WAIT" "d" "tx0") {["task1" := armed "expire" "WAIT" 4000]}
    [plainWorkflow "wf" true "WAIT" "" (<["WAIT" := [timer "expire" "LATE" [Toy.cbd; Toy.cbd]]]> (<["LATE" := []]> ∅)) "1.4"].

