(* ===== verification/WorkflowPath.v ===== *)
(** * The workflow engine: where an entity can move, and where it stops

    The moves recorded by a call form a path through the selected workflow's
    graph; automated cascades are bounded and stop in a state where no automated
    transition is enabled; selection takes the first workflow that matches. *)

From stdpp Require Import base gmap strings list.
From S2P Require Import Prelude Spi Workflow WorkflowRun WorkflowFrame WorkflowSample.

(** ** Paths *)

(** Follow the moves from [st]. *)
Fixpoint walk (st : string) (ms : list Move) : option string :=
  match ms with
  | [] => Some st
  | m :: ms' => if decide (mv_From m = st) then walk (mv_To m) ms' else None
  end.

(** The move is along a transition of [wf] that satisfies [p]. *)
Definition moveBy (p : TransitionDefinition → Prop) (wf : WorkflowDefinition) (m : Move) : Prop :=
  ∃ trs tr, wf_States wf !! mv_From m = Some trs ∧ tr ∈ trs ∧ p tr ∧
    tr_Name tr = mv_Name m ∧ tr_Next tr = mv_To m.

(** Transitions that need no caller and no clock: enabled, not manual, not
    scheduled. *)
Definition selfFiring (tr : TransitionDefinition) : Prop :=
  tr_Disabled tr = false ∧ tr_Manual tr = false ∧ tr_Schedule tr = None.
Lemma automated_spec tr : automated tr = true ↔ selfFiring tr.
Proof. unfold automated, selfFiring. destruct (tr_Disabled tr), (tr_Manual tr), (tr_Schedule tr); naive_solver. Qed.

(** How often the moves leave [st]. *)
Definition leaves (st : string) (ms : list Move) : nat := length (filter (λ m, mv_From m = st) ms).

Lemma walk_snoc st ms m st' :
  walk st ms = Some st' → mv_From m = st' → walk st (ms ++ [m]) = Some (mv_To m).
Proof.
  revert st. induction ms as [|m0 ms IH]; simpl; intros st Hw Hm.
  - injection Hw as ->. by rewrite decide_True.
  - case_decide; [by apply IH|done].
Qed.
Lemma walk_app st ms ms' st' : walk st ms = Some st' → walk st (ms ++ ms') = walk st' ms'.
Proof.
  revert st. induction ms as [|m0 ms IH]; simpl; intros st Hw; [by injection Hw as ->|].
  case_decide; [by apply IH|done].
Qed.
Lemma leaves_snoc st ms m : leaves st (ms ++ [m]) = leaves st ms + (if decide (mv_From m = st) then 1 else 0).
Proof.
  unfold leaves. rewrite filter_app, length_app, filter_cons, filter_nil. by case_decide.
Qed.

Section Path.
Context {X : Env} {L : EnvLaws}.
Local Notation still m := (stable (ext notMove) m).

Lemma quiet_still {A} (m : EM A) : stable (ext quietCall) m → still m.
Proof. apply stable_ext_mono. by intros c [? _]. Qed.
#[local] Hint Extern 1 (stable (ext notMove) _) => solve [apply quiet_still; auto with stable] : stable.

Lemma still_beginSegment e ctx : still (beginSegment e ctx).
Proof. unfold beginSegment, txBegin. solve_stable. by apply stable_log. Qed.
#[local] Hint Resolve still_beginSegment : stable.
Lemma still_executeCBD e ctx proc w tr t entry : still (executeCommitBeforeDispatch e ctx proc w tr t entry).
Proof. unfold executeCommitBeforeDispatch, commitAndDispatch, commitAndBeginNextSegment. solve_stable. Qed.
#[local] Hint Resolve still_executeCBD : stable.
Lemma still_runProcessors e procs w tr entry :
  stable (onState (ext notMove)) (runProcessors e procs w tr entry).
Proof. induction procs as [|proc procs IH]; simpl; unfold runProcessor, state; solve_stable. Qed.
#[local] Hint Resolve still_runProcessors : stable.
Lemma still_executeProcessors e ctx procs w tr t : still (executeProcessors e ctx procs w tr t).
Proof. unfold executeProcessors, panicGuard, state. solve_stable. Qed.
#[local] Hint Resolve still_executeProcessors : stable.

(** ** One pass, one move *)

(** [s] is [s0] after one move along [tr]. *)
Definition movedBy (s0 : Eng) (tr : TransitionDefinition) (s : Eng) : Prop :=
  moves (es_trace s) = moves (es_trace s0) ++ [mkMove (tr_Name tr) (stateOf s0) (tr_Next tr)] ∧
  stateOf s = tr_Next tr.

Lemma makeTransition_moves ctx tr tx s0 s :
  ext notMove s0 s →
  match makeTransition ctx tr tx s with
  | (Ret _, s') => movedBy s0 tr s'
  | (_, s') => ext notMove s0 s'
  end.
Proof.
  intros Hs. pose proof Hs as [Hst _]. apply ext_moves in Hs as Hmv.
  unfold makeTransition, state, recordEvent, ent. mrun. rewrite run_bind. unfold ask.
  destruct (xNewTimeUUID (es_w s)) as [u w1]. mrun. rewrite run_bind.
  destruct (xNow (es_w (set_w w1 s))) as [ts w2]. mrun. rewrite run_bind. unfold try, call.
  destruct (xRecord _ _ _ _) as [[[]|er|p] w3]; simpl; mrun; simpl.
  1,2: split; [simpl; rewrite moves_app; simpl; unfold stateOf in *; by rewrite Hmv, <- Hst|done].
  etrans; [exact Hs|]. split; [done|]. exists []. by rewrite app_nil_r.
Qed.

Definition passPost (s0 : Eng) (trs : list TransitionDefinition) (r : outcome eerr passResult) (sl : Eng * Cursor) :
    Prop :=
  match r with
  | Ret Moved => ∃ tr, tr ∈ trs ∧ selfFiring tr ∧ movedBy s0 tr sl.1
  | _ => ext notMove s0 sl.1
  end.

Lemma still_step {A B} s0 (m : EL A) (f : A → EL B) Q :
  stable (onState (ext notMove)) m → (∀ a, triple (λ sl, ext notMove s0 sl.1) (f a) Q) →
  (∀ er sl, ext notMove s0 sl.1 → Q (Err er) sl) → (∀ w sl, ext notMove s0 sl.1 → Q (Panic w) sl) →
  triple (λ sl, ext notMove s0 sl.1) (m ≫= f) Q.
Proof.
  intros Hm Hf He Hw. eapply (triple_bind _ _ _ (λ _ sl, ext notMove s0 sl.1)); [|done..].
  eapply triple_stable; [exact Hm|]. intros [s l] [s' l'] Hs Hs0. etrans; [exact Hs0|exact Hs].
Qed.

Lemma cascadePass_moves e wf a trs s0 :
  triple (λ sl, ext notMove s0 sl.1) (cascadePass e wf a trs) (passPost s0 trs).
Proof.
  assert (Hmono : ∀ tr trs r sl, passPost s0 trs r sl → passPost s0 (tr :: trs) r sl).
  { intros tr trs' [[]| |] sl; simpl; try done. intros (tr' & ? & ?). exists tr'. by rewrite elem_of_cons; auto. }
  induction trs as [|tr trs IH]; simpl; [by intros sl|].
  destruct (automated tr) eqn:Hauto; simpl;
    [|by eapply triple_conseq; [exact IH|done|apply Hmono]].
  apply still_step; [solve_stable| |done..]. intros cu.
  apply still_step; [solve_stable| |done..]. intros [er|[[] reason]]; [by intros sl|..].
  - apply still_step; [solve_stable| |done..]. intros [[nctx tx] er].
    apply still_step; [solve_stable| |done..]. intros [].
    destruct er as [er|]; [by apply still_step; [solve_stable|intros [] sl|..]|].
    intros [s cu'] Hs. rewrite run_bind. unfold up. simpl in Hs.
    assert (Hm := makeTransition_moves nctx tr a s0 s Hs).
    destruct (makeTransition nctx tr a s) as [[[]|er|p] s']; simpl; [|done..].
    exists tr. rewrite elem_of_cons, <- automated_spec. auto.
  - apply still_step; [unfold state; solve_stable|intros st|done..].
    apply still_step; [solve_stable|intros []|done..].
    by eapply triple_conseq; [exact IH|done|apply Hmono].
Qed.

(** ** Where it stops *)

(** The criterion was evaluated on the entity [x], to [b]. *)
Definition judged (e : Engine) (b : bool) (c : string) (x : Entity) : Prop :=
  ∃ cc s1 s2 reason, evaluateCriterion e c cc s1 = (Ret (b, reason), s2) ∧ es_ent s1 = x.
Definition declined (e : Engine) (x : Entity) (tr : TransitionDefinition) : Prop :=
  selfFiring tr → hasCriterion (tr_Criterion tr) = true ∧ judged e false (tr_Criterion tr) x.
(** No automated transition out of the entity's state is enabled. *)
Definition quiescent (e : Engine) (wf : WorkflowDefinition) (s : Eng) : Prop :=
  match wf_States wf !! stateOf s with
  | Some trs => Forall (declined e (es_ent s)) trs
  | None => True
  end.

Definition sameEnt (s s' : Eng) : Prop := es_ent s' = es_ent s.
#[export] Instance sameEnt_preorder : PreOrder sameEnt.
Proof. split; [done|]. intros s1 s2 s3 H1 H2. unfold sameEnt in *. congruence. Qed.
Lemma same_call {A} (m : M err W A) : stable sameEnt (call m : EM A).
Proof. intros s. unfold call. by destruct (m (es_w s)) as [[] w]. Qed.
Lemma same_ask {A} (f : W → A * W) : stable sameEnt (ask f : EM A).
Proof. intros s. unfold ask. by destruct (f (es_w s)). Qed.
Lemma same_log c : stable sameEnt (logCall c).
Proof. by intros s. Qed.
#[local] Hint Resolve same_call same_ask same_log : stable.
Lemma same_evaluateCriterion e c cc : stable sameEnt (evaluateCriterion e c cc).
Proof. unfold evaluateCriterion, criterionTyping, ent. solve_stable. Qed.
#[local] Hint Resolve same_evaluateCriterion : stable.
Lemma same_evaluateTransition e ctx wf tr tx : stable sameEnt (evaluateTransition e ctx wf tr tx).
Proof. unfold evaluateTransition. solve_stable. Qed.
Lemma same_recordEvent ctx tx st ty ds d : stable sameEnt (recordEvent ctx tx st ty ds d).
Proof. unfold recordEvent, ent. solve_stable. Qed.
#[local] Hint Resolve same_evaluateTransition same_recordEvent : stable.

Lemma evaluateTransition_declined e ctx wf tr tx s reason s' :
  evaluateTransition e ctx wf tr tx s = (Ret (false, reason), s') → declined e (es_ent s) tr.
Proof.
  unfold evaluateTransition. destruct (hasCriterion (tr_Criterion tr)) eqn:Hc; [|done].
  intros (r & s1 & Hr & H)%bind_Ret _. split; [done|]. unfold try in Hr.
  destruct (evaluateCriterion _ _ _ s) as [[p|er|w] s2] eqn:E; [|by injection Hr as <- <-|done].
  injection Hr as <- <-. injection H as -> <-. by eexists _, s, s2, reason.
Qed.

Lemma bind_never {A B} (b : B) (m : EL A) (f : A → EL B) :
  (∀ a sl, (f a sl).1 ≠ Ret b) → ∀ sl, ((m ≫= f) sl).1 ≠ Ret b.
Proof. intros Hf sl. rewrite run_bind. destruct (m sl) as [[a|er|w] sl']; [apply Hf|done..]. Qed.

Lemma same_step {A B} x (m : EM A) (f : A → EL B) Q :
  stable sameEnt m → (∀ a, triple (λ sl, es_ent sl.1 = x) (f a) Q) →
  (∀ er sl, Q (Err er) sl) → (∀ w sl, Q (Panic w) sl) →
  triple (λ sl, es_ent sl.1 = x) (up m ≫= f) Q.
Proof.
  intros Hm Hf He Hw. eapply (triple_bind _ _ _ (λ _ sl, es_ent sl.1 = x)); [|done..].
  intros [s cu] Hs. specialize (Hm s). unfold up, sameEnt in *. destruct (m s) as [r s']. simpl in *. congruence.
Qed.

Lemma cascadePass_quiet e wf a trs x :
  triple (λ sl, es_ent sl.1 = x) (cascadePass e wf a trs)
    (λ r sl, r = Ret Quiet → es_ent sl.1 = x ∧ Forall (declined e x) trs).
Proof.
  induction trs as [|tr trs IH]; simpl; [by intros sl|].
  destruct (automated tr) eqn:Hauto; simpl.
  2:{ eapply triple_conseq; [exact IH|done|]. intros r sl H Hr. destruct (H Hr) as [Hx Ht].
      split; [done|]. constructor; [|done]. intros Ha%automated_spec. congruence. }
  intros [s cu] Hs. rewrite run_bind. simpl. rewrite run_bind. unfold up, try. simpl in Hs.
  assert (Hx := same_evaluateTransition e (cu_ctx cu) wf tr (cu_tx cu) s).
  destruct (evaluateTransition _ _ _ _ _ s) as [[[[] reason]|er|w] s1] eqn:E; try done.
  - intros Hq. exfalso. revert Hq. apply bind_never. intros [[nctx tx] er] sl. apply bind_never.
    intros [] sl'. destruct er; apply bind_never; by intros [] ?.
  - apply evaluateTransition_declined in E. unfold sameEnt in Hx. simpl in Hx.
    assert (Ht : triple (λ sl, es_ent sl.1 = x) (st ← up state;
      up (recordEvent (cu_ctx cu) a st SMEventTransitionCriterionNoMatch [tr_Name tr] (noMatchData wf tr reason));;
      cascadePass e wf a trs) (λ r sl, r = Ret Quiet → es_ent sl.1 = x ∧ Forall (declined e x) (tr :: trs)));
      [|apply (Ht (s1, cu)); simpl; congruence].
    apply same_step; [unfold state; solve_stable|intros st|done..].
    apply same_step; [solve_stable|intros []|done..].
    eapply triple_conseq; [exact IH|done|]. intros r sl H Hr. destruct (H Hr) as [Hx' Hd].
    split; [done|]. constructor; [by rewrite <- Hs|done].
Qed.

(** ** The cascade's path *)

(** From [s0] to [s], the moves made are [ms], all by automated transitions. *)
Definition travelled (wf : WorkflowDefinition) (s0 : Eng) (ms : list Move) (s : Eng) : Prop :=
  moves (es_trace s) = moves (es_trace s0) ++ ms ∧ walk (stateOf s0) ms = Some (stateOf s) ∧
  Forall (moveBy selfFiring wf) ms.
(** [visits] counts the states left, within the limit. *)
Definition counted (e : Engine) (visits : gmap string Z) (ms : list Move) : Prop :=
  ∀ st, Z.of_nat (leaves st ms) = default 0%Z (visits !! st) ∧
        (default 0%Z (visits !! st) ≤ Z.max 0 (maxStateVisits e))%Z.
Definition bounded (e : Engine) (depth : nat) (ms : list Move) : Prop :=
  length ms ≤ depth ∧ ∀ st, (Z.of_nat (leaves st ms) ≤ Z.max 0 (maxStateVisits e))%Z.

Lemma travelled_still wf s0 ms s s' : ext notMove s s' → travelled wf s0 ms s → travelled wf s0 ms s'.
Proof.
  intros Hs (Hm & Hw & Hf). pose proof Hs as [Hst _]. apply ext_moves in Hs.
  split_and!; [congruence|by rewrite Hst|done].
Qed.
Lemma travelled_moved wf s0 ms s s' trs tr :
  travelled wf s0 ms s → wf_States wf !! stateOf s = Some trs → tr ∈ trs → selfFiring tr →
  movedBy s tr s' → travelled wf s0 (ms ++ [mkMove (tr_Name tr) (stateOf s) (tr_Next tr)]) s'.
Proof.
  intros (Hm & Hw & Hf) Htrs Hin Ha [Hm' Hst]. split_and!.
  - by rewrite Hm', Hm, app_assoc.
  - rewrite Hst. by eapply walk_snoc.
  - apply Forall_app. split; [done|]. constructor; [|done]. exists trs, tr. auto.
Qed.
Lemma counted_moved e visits ms m :
  counted e visits ms → ((default 0 (visits !! mv_From m) + 1) ≤ maxStateVisits e)%Z →
  counted e (<[mv_From m := (default 0 (visits !! mv_From m) + 1)%Z]> visits) (ms ++ [m]).
Proof.
  intros Hc Hn st. destruct (Hc st) as [H1 H2]. rewrite leaves_snoc. case_decide as Hd.
  - subst st. rewrite lookup_insert_eq. simpl. lia.
  - rewrite lookup_insert_ne by done. simpl. lia.
Qed.

Definition loopDone (e : Engine) (wf : WorkflowDefinition) (s0 : Eng) (n : nat) (r : outcome eerr (option eerr))
    (sl : Eng * Cursor) : Prop :=
  ∃ ms, travelled wf s0 ms sl.1 ∧ bounded e n ms ∧ (r = Ret None → quiescent e wf sl.1).

(** Leaving the loop with an error or a panic. *)
Lemma loop_stop {A} e wf s0 n ms visits (m : EM A) (f : A → EL (option eerr)) s cu :
  travelled wf s0 ms s → counted e visits ms → length ms ≤ n → stable (ext notMove) m →
  (∀ a sl, ∃ er, f a sl = (Ret (Some er), sl)) →
  let '(r, sl) := (up m ≫= f) (s, cu) in loopDone e wf s0 n r sl.
Proof.
  intros Ht Hc Hl Hm Hf. rewrite run_bind. unfold up. specialize (Hm s).
  assert (Hb : bounded e n ms) by (split; [done|]; intros st; destruct (Hc st) as [-> ?]; done).
  destruct (m s) as [[a|er|w] s']; simpl in Hm.
  - destruct (Hf a (s', cu)) as [er ->]. exists ms. split_and!; [by eapply travelled_still|done|done].
  - exists ms. split_and!; [by eapply travelled_still|done|done].
  - exists ms. split_and!; [by eapply travelled_still|done|done].
Qed.

Lemma ctxErr_returns ctx s : match (ctxErr ctx s).1 with Ret _ => True | _ => False end.
Proof. unfold ctxErr, ask. destruct (ec_cancel ctx); [|done]. by destruct (xCtxErr ctx (es_w s)). Qed.

Lemma up_state_run {A} (f : string → EL A) s cu : (up state ≫= f) (s, cu) = f (stateOf s) (s, cu).
Proof. done. Qed.
Lemma getL_run {A} (f : Cursor → EL A) s cu : (getL ≫= f) (s, cu) = f cu (s, cu).
Proof. done. Qed.

Lemma loopDone_ret e wf s0 n ms visits r s cu :
  travelled wf s0 ms s → counted e visits ms → length ms ≤ n → (r = None → quiescent e wf s) →
  loopDone e wf s0 n (Ret r) (s, cu).
Proof.
  intros Ht Hc Hl Hq. exists ms. split_and!; [done| |by intros [= ->]; apply Hq].
  split; [done|]. intros st. by destruct (Hc st) as [-> ?].
Qed.

Lemma cascadeLoop_travels e wf a depth visits s0 ms s cu :
  travelled wf s0 ms s → counted e visits ms →
  let '(r, sl) := cascadeLoop e wf a depth visits (s, cu) in loopDone e wf s0 (length ms + depth) r sl.
Proof.
  revert visits ms s cu. induction depth as [|d IH]; intros visits ms s cu Ht Hc; cbn [cascadeLoop];
    rewrite up_state_run, getL_run.
  { eapply loop_stop; [done|done|lia|auto with stable|]. intros [] sl. by eexists. }
  rewrite run_bind. unfold up at 1. assert (Hp : stable (ext notMove) (ctxErr (cu_ctx cu))).
  { apply quiet_still. unfold ctxErr. solve_stable. }
  specialize (Hp s). pose proof (ctxErr_returns (cu_ctx cu) s) as Htot.
  destruct (ctxErr (cu_ctx cu) s) as [[[er|]|er|w] s1]; simpl in Hp; try done.
  { eapply loopDone_ret; [by eapply travelled_still|done|lia|done]. }
  assert (Hst : stateOf s1 = stateOf s) by apply Hp. eapply travelled_still in Ht; [|done].
  rewrite <- Hst. cbv zeta. case_decide as Hn.
  { eapply loop_stop; [done|done|lia|auto with stable|]. intros [] sl. by eexists. }
  destruct (wf_States wf !! stateOf s1) as [trs|] eqn:Htrs.
  2:{ eapply loopDone_ret; [done|done|lia|]. intros _. unfold quiescent. by rewrite Htrs. }
  rewrite run_bind.
  assert (Hpass := cascadePass_moves e wf a trs s1 (s1, cu) (reflexivity s1)).
  assert (Hquiet := cascadePass_quiet e wf a trs (es_ent s1) (s1, cu) eq_refl).
  destruct (cascadePass e wf a trs (s1, cu)) as [[[]|er|w] [s2 cu2]]; simpl in Hpass, Hquiet.
  - eapply loopDone_ret; [by eapply travelled_still|done|lia|]. intros _. destruct Hquiet as [Hx Hd]; [done|].
    unfold quiescent, stateOf. rewrite Hx. unfold stateOf in Htrs. by rewrite Htrs.
  - destruct Hpass as (tr & Hin & Ha & Hmv).
    specialize (IH (<[stateOf s1 := (default 0 (visits !! stateOf s1) + 1)%Z]> visits)
      (ms ++ [mkMove (tr_Name tr) (stateOf s1) (tr_Next tr)]) s2 cu2).
    rewrite length_app in IH. simpl in IH. replace (length ms + S d) with (length ms + 1 + d) by lia.
    apply IH; [by eapply travelled_moved|]. apply counted_moved; [done|simpl; lia].
  - eapply loopDone_ret; [by eapply travelled_still|done|lia|done].
  - exists ms. split_and!; [by eapply travelled_still| |done]. split; [lia|]. intros st. by destruct (Hc st) as [-> ?].
  - exists ms. split_and!; [by eapply travelled_still| |done]. split; [lia|]. intros st. by destruct (Hc st) as [-> ?].
Qed.

Lemma rollback_still {A} e t (r : outcome eerr A) cu : stable (ext notMove) (panicGuard e t r cu).
Proof. unfold panicGuard. destruct r; solve_stable. Qed.
#[local] Hint Resolve rollback_still : stable.

Lemma cascadeAutomated_travels e ctx wf t s :
  let '(r, s') := cascadeAutomated e ctx wf t s in
  ∃ ms, travelled wf s ms s' ∧ bounded e maxCascadeDepth ms ∧
        match r with Ret (_, _, None) => quiescent e wf s' | _ => True end.
Proof.
  assert (Hl := cascadeLoop_travels e wf t maxCascadeDepth ∅ s [] s (mkCursor ctx t false)).
  unfold cascadeAutomated, scoped. rewrite run_bind.
  destruct (cascadeLoop _ _ _ _ _ _) as [r [s1 cu]] eqn:E.
  destruct Hl as (ms & Ht & Hb & Hq); [by split_and!; [rewrite app_nil_r|..]|by intros st; rewrite lookup_empty; split; [done|simpl; lia]|].
  destruct r as [r|er|p]; simpl.
  - exists ms. split_and!; [done|done|]. destruct r; [done|]. by apply Hq.
  - by exists ms.
  - assert (Hg := quiet_still _ (quiet_rollbackSegment e (cu_ctx cu) (cu_tx cu) t) s1).
    destruct (rollbackSegment _ _ _ _ s1) as [[] s2]; exists ms; split_and!;
      first [done|by eapply travelled_still].
Qed.

(** C26. An automated cascade terminates and stops only where it must: whatever
    happens, the moves it records form a path in the workflow from the state it
    started in to the state the entity is in, each along an enabled automated
    transition of the state it leaves (never a manual, disabled or scheduled one);
    it makes at most [maxCascadeDepth] moves and leaves no state more often than the
    visit limit; and when it returns without error, every automated transition out
    of the final state has a criterion that was evaluated to false on the very
    entity the cascade leaves. *)
Theorem cascade_quiesces e ctx wf t s :
  let '(r, s') := cascadeAutomated e ctx wf t s in
  ∃ ms,
    moves (es_trace s') = moves (es_trace s) ++ ms ∧ walk (stateOf s) ms = Some (stateOf s') ∧
    Forall (moveBy selfFiring wf) ms ∧
    length ms ≤ maxCascadeDepth ∧ (∀ st, (Z.of_nat (leaves st ms) ≤ Z.max 0 (maxStateVisits e))%Z) ∧
    match r with Ret (_, _, None) => quiescent e wf s' | _ => True end.
Proof.
  assert (H := cascadeAutomated_travels e ctx wf t s). destruct (cascadeAutomated e ctx wf t s) as [r s'].
  destruct H as (ms & (? & ? & ?) & [? ?] & ?). by exists ms.
Qed.

(** ** Firing by name *)

Lemma scoped_guard_still {A} e t l (body : EL A) s a s' :
  scoped l body (panicGuard e t) s = (Ret a, s') → ∃ cu, body (s, l) = (Ret a, (s', cu)).
Proof. intros (s1 & cu & Hb & Hd)%scoped_Ret. simpl in Hd. subst. by exists cu. Qed.

Lemma evaluateTransition_judged e ctx wf tr tx s reason s' :
  evaluateTransition e ctx wf tr tx s = (Ret (true, reason), s') →
  hasCriterion (tr_Criterion tr) = true → judged e true (tr_Criterion tr) (es_ent s).
Proof.
  unfold evaluateTransition. intros H Hc. rewrite Hc in H. apply bind_Ret in H as (r & s1 & Hr & H). unfold try in Hr.
  destruct (evaluateCriterion _ _ _ s) as [[p|er|w] s2] eqn:E; [|by injection Hr as <- <-|done].
  injection Hr as <- <-. injection H as -> <-. by eexists _, s, s2, reason.
Qed.

Lemma fireTransition_moves e ctx wf tr t s c x s' :
  fireTransition e ctx wf tr t s = (Ret (c, x, None), s') →
  movedBy s tr s' ∧ (hasCriterion (tr_Criterion tr) = true → judged e true (tr_Criterion tr) (es_ent s)).
Proof.
  intros [cu H]%scoped_guard_still.
  apply bind_Ret in H as (r & [s1 cu1] & Hr & H). apply up_Ret in Hr as [Hr ->].
  unfold try in Hr. destruct (evaluateTransition _ _ _ _ _ s) as [[p|er|w] s2] eqn:E; simplify_eq.
  assert (Hs1 : ext notMove s s1) by (refine (stable_elim _ _ _ _ _ _ E); auto with stable).
  destruct p as [[] reason].
  2:{ apply bind_Ret in H as (st & [s2 cu2] & _ & H). apply bind_Ret in H as (u & [s3 cu3] & _ & H). by injection H. }
  split; [|by eapply evaluateTransition_judged].
  apply bind_Ret in H as ([[nctx tx] er] & [s2 cu2] & Hp & H). apply up_Ret in Hp as [Hp ->].
  apply bind_Ret in H as (u & [s3 cu3] & Hset & H). injection Hset as <- <- <-.
  assert (Hs2 : ext notMove s1 s2) by (refine (stable_elim _ _ _ _ _ _ Hp); auto with stable).
  destruct er as [er|]; apply bind_Ret in H as ([] & [s4 cu4] & Hm & H); [done|].
  apply up_Ret in Hm as [Hm ->]. injection H as <- <- <- <-.
  assert (Hmv := makeTransition_moves nctx tr t s s2 ltac:(by etrans)). by rewrite Hm in Hmv.
Qed.

(** The transition a request may fire by name. *)
Definition namedIn (wf : WorkflowDefinition) (st name : string) (tr : TransitionDefinition) : Prop :=
  ∃ trs, wf_States wf !! st = Some trs ∧ findTransition trs name = Some tr ∧
    tr_Disabled tr = false ∧ tr_Schedule tr = None.

Lemma findTransition_name trs name tr : findTransition trs name = Some tr → tr_Name tr = name.
Proof.
  unfold findTransition. destruct (list_find _ trs) as [[i tr']|] eqn:E; simpl; [|done].
  intros [= ->]. by apply list_find_Some in E as (? & ? & ?).
Qed.

Lemma attemptTransition_moves e ctx wf name t s c x s' :
  attemptTransition e ctx wf name t s = (Ret (c, x, None), s') →
  ∃ tr, namedIn wf (stateOf s) name tr ∧ movedBy s tr s' ∧
    (hasCriterion (tr_Criterion tr) = true → judged e true (tr_Criterion tr) (es_ent s)).
Proof.
  unfold attemptTransition, state. mrun. fold (stateOf s).
  assert (Hno : ∀ why (r : EM (ECtx * string * option eerr)), r = (recordEvent ctx t (stateOf s) SMEventTransitionNotFound
     [name; stateOf s; why] [];; mret (ctx, t, Some (EWrap why (ESentinel ErrTransitionNotFound)))) →
     r s ≠ (Ret (c, x, None), s')).
  { intros why r -> Hr. by apply bind_Ret in Hr as ([] & s1 & _ & Hr). }
  destruct (wf_States wf !! stateOf s) as [trs|] eqn:Htrs; [|done].
  destruct (findTransition trs name) as [tr|] eqn:Hf; [|by intros ?%(Hno "not found")].
  destruct (tr_Disabled tr) eqn:Hd; [by intros ?%(Hno "disabled")|].
  destruct (tr_Schedule tr) eqn:Hsc; [by intros ?%(Hno _ _ eq_refl)|].
  intros H%fireTransition_moves. exists tr. split; [|done]. by exists trs.
Qed.

(** ** Through a door *)

Lemma same_reconcile e ctx wf tx x : stable sameEnt (reconcileScheduledTasks e ctx wf tx x).
Proof.
  assert (Harm : ∀ ms trs, stable sameEnt (armState e ctx wf ms tx trs)).
  { intros ms. induction trs; simpl; unfold armViaFunction, ent; solve_stable. }
  unfold reconcileScheduledTasks, ent. solve_stable.
Qed.
Lemma quiescent_same e wf s s' : sameEnt s s' → quiescent e wf s → quiescent e wf s'.
Proof. unfold sameEnt, quiescent, stateOf. by intros ->. Qed.

Lemma advance_Ret r s cu u s' cu' :
  advance r (s, cu) = (Ret u, (s', cu')) → r.2 = None ∧ s' = s ∧ cu' = mkCursor r.1.1 r.1.2 false.
Proof. destruct r as [[c x] [er|]]; [done|]. by intros [= <- <- <-]. Qed.

Lemma settle_travels e wf t fin s cu res s' cu' :
  settle e wf t fin (s, cu) = (Ret res, (s', cu')) →
  er_State res = stateOf s' ∧
  ∃ ms, travelled wf s ms s' ∧ bounded e maxCascadeDepth ms ∧ quiescent e wf s'.
Proof.
  unfold settle. rewrite getL_run. intros H.
  apply bind_Ret in H as (r & [s1 cu1] & Hc & H). apply up_Ret in Hc as [Hc ->].
  apply bind_Ret in H as (u & [s2 cu2] & Ha & H). apply advance_Ret in Ha as (Hr & -> & ->).
  rewrite getL_run in H. apply bind_Ret in H as ([] & [s3 cu3] & Hrec & H). apply up_Ret in Hrec as [Hrec ->].
  rewrite up_state_run in H. apply bind_Ret in H as ([] & [s4 cu4] & Hfin & H). apply up_Ret in Hfin as [Hfin ->].
  injection H as <- <- <-.
  assert (Ht := cascadeAutomated_travels e (cu_ctx cu) wf (cu_tx cu) s). rewrite Hc in Ht.
  destruct Ht as (ms & Ht & Hb & Hq). destruct r as [[c x] er]. simpl in Hr. subst er.
  assert (Hs4 : ext notMove s1 s4).
  { transitivity s3; [refine (stable_elim _ _ _ _ _ _ Hrec)|refine (stable_elim _ _ _ _ _ _ Hfin)]; auto with stable. }
  assert (He1 := stable_elim _ _ _ _ _ (same_reconcile _ _ _ _ _) Hrec).
  assert (He2 := stable_elim _ _ _ _ _ (same_recordEvent _ _ _ _ _ _) Hfin).
  split; [unfold stateOf; by rewrite He2|]. exists ms. split_and!; [by eapply travelled_still|done|].
  by eapply quiescent_same; [|eapply quiescent_same].
Qed.

(** The transition a door fires by name, and the state it starts from. *)
Definition doorName (d : Door) : option string :=
  match d with
  | DExecute name => if decide (name = "") then None else Some name
  | DManual name _ => Some name
  | DLoopback _ => None
  end.
Definition doorStart (d : Door) (wf : WorkflowDefinition) (s : Eng) : string :=
  match d with DExecute _ => wf_InitialState wf | _ => stateOf s end.

(** The first move is the named one, if the door names one. *)
Definition firstMove (wf : WorkflowDefinition) (start : string) (name : option string) (ms : list Move) : Prop :=
  match name with
  | None => ms = []
  | Some n => ∃ tr, namedIn wf start n tr ∧ ms = [mkMove n start (tr_Next tr)]
  end.

(** What a successful call did, [wf] being the workflow selected for the entity. *)
Definition doorDone (e : Engine) (d : Door) (s : Eng) (res : EngineResult) (s' : Eng) : Prop :=
  er_State res = stateOf s' ∧
  ∃ wf ms1 ms2,
    (∃ ctx t s1 s2, resolveWorkflow e ctx t s1 = (Ret wf, s2) ∧ es_ent s1 = es_ent s) ∧
    moves (es_trace s') = moves (es_trace s) ++ ms1 ++ ms2 ∧
    walk (doorStart d wf s) (ms1 ++ ms2) = Some (stateOf s') ∧
    firstMove wf (doorStart d wf s) (doorName d) ms1 ∧
    Forall (moveBy selfFiring wf) ms2 ∧ length ms2 ≤ maxCascadeDepth ∧ quiescent e wf s'.

Lemma same_rollback e ctx o t : stable sameEnt (rollbackSegment e ctx o t).
Proof. unfold rollbackSegment. solve_stable. Qed.
Lemma same_openAudit ctx : stable sameEnt (openAudit ctx).
Proof. unfold openAudit. solve_stable. Qed.
Lemma same_resolveAuditTxID : stable sameEnt resolveAuditTxID.
Proof. unfold resolveAuditTxID, ent. solve_stable. Qed.
Lemma same_resolveWorkflow e ctx t : stable sameEnt (resolveWorkflow e ctx t).
Proof.
  assert (Ham : ∀ b wfs, stable sameEnt (selectAmong e ctx b t wfs)).
  { intros b. induction wfs; simpl; unfold state, auditing; solve_stable. }
  unfold resolveWorkflow, resolveWorkflowWith, selectWorkflow, auditing, state, ent. solve_stable.
Qed.
#[local] Hint Resolve same_rollback same_openAudit same_resolveAuditTxID same_resolveWorkflow : stable.

Lemma same_withIfMatch ctx x : stable sameEnt (withIfMatch ctx x).
Proof. intros s. unfold withIfMatch. by case_decide. Qed.

(** No move, same entity. *)
Definition frozen (s s' : Eng) : Prop := ext notMove s s' ∧ sameEnt s s'.
#[local] Instance frozen_preorder : PreOrder frozen.
Proof.
  split; [by intros s|]. intros s1 s2 s3 [??] [??]. split; by transitivity s2.
Qed.
Lemma frozen_elim {A} (m : EM A) s r s' :
  stable (ext notMove) m → stable sameEnt m → m s = (r, s') → frozen s s'.
Proof. intros H1 H2 H. by split; [eapply stable_elim|eapply stable_elim]. Qed.

(** Every door opens by recording the start and selecting the workflow. *)
Lemma door_opens e ctx start (k : string → WorkflowDefinition → EL EngineResult) s res s' :
  (openAudit ctx;; txID ← resolveAuditTxID;
   scoped (mkCursor ctx txID false)
     (st ← up state; up (recordEvent ctx txID st SMEventStarted start []);;
      wf ← up (resolveWorkflow e ctx txID); k txID wf) (entryGuard e txID)) s = (Ret res, s') →
  ∃ t wf s1 s2 s3 cu, frozen s s1 ∧ resolveWorkflow e ctx t s1 = (Ret wf, s2) ∧ frozen s1 s2 ∧
    k t wf (s2, mkCursor ctx t false) = (Ret res, (s3, cu)) ∧ frozen s3 s'.
Proof.
  intros H. apply bind_Ret in H as ([] & sa & Ha & H). apply bind_Ret in H as (t & sb & Hb & H).
  apply scoped_Ret in H as (s3 & cu & Hbody & Hd). rewrite up_state_run in Hbody.
  apply bind_Ret in Hbody as ([] & [sc cuc] & Hc & Hbody). apply up_Ret in Hc as [Hc ->].
  apply bind_Ret in Hbody as (wf & [s2 cu2] & Hw & Hk). apply up_Ret in Hw as [Hw ->].
  assert (Fa : frozen s sa) by (eapply frozen_elim; [..|exact Ha]; auto with stable).
  assert (Fb : frozen sa sb) by (eapply frozen_elim; [..|exact Hb]; auto with stable).
  assert (Fc : frozen sb sc) by (eapply frozen_elim; [..|exact Hc]; auto with stable).
  exists t, wf, sc, s2, s3, cu. split_and!; [exact (transitivity Fa (transitivity Fb Fc))|exact Hw| |exact Hk|].
  - eapply frozen_elim; [..|exact Hw]; auto with stable.
  - unfold entryGuard in Hd. destruct (cu_done cu); [simpl in Hd; by subst|].
    destruct (rollbackSegment _ _ _ _ s3) as [r4 s4] eqn:Er. simpl in Hd. subst s4.
    eapply frozen_elim; [..|exact Er]; auto with stable.
Qed.

(** From a start state, the named move, then the cascade. *)
Lemma door_settles e d wf s s2 ms1 s4 ms2 s3 s' res :
  (∃ ctx t s1 s2, resolveWorkflow e ctx t s1 = (Ret wf, s2) ∧ es_ent s1 = es_ent s) →
  moves (es_trace s2) = moves (es_trace s) → stateOf s2 = doorStart d wf s →
  firstMove wf (doorStart d wf s) (doorName d) ms1 →
  moves (es_trace s4) = moves (es_trace s2) ++ ms1 → walk (stateOf s2) ms1 = Some (stateOf s4) →
  er_State res = stateOf s3 → travelled wf s4 ms2 s3 → bounded e maxCascadeDepth ms2 → quiescent e wf s3 →
  frozen s3 s' → doorDone e d s res s'.
Proof.
  intros Hw Hm2 Hst Hfirst Hm4 Hw4 Hres (Hm3 & Hw3 & Hf3) [Hb _] Hq [Hfr He].
  pose proof Hfr as [Hst' _]. apply ext_moves in Hfr. split; [by rewrite Hst'|].
  exists wf, ms1, ms2. split_and!; [done| | |done|done|done|by eapply quiescent_same].
  - by rewrite Hfr, Hm3, Hm4, Hm2, app_assoc.
  - rewrite <- Hst, (walk_app _ _ _ _ Hw4), Hst'. done.
Qed.

Lemma attempt_advance e ctx wf name t s cu u s' cu' :
  (r ← up (attemptTransition e ctx wf name t); advance r) (s, cu) = (Ret u, (s', cu')) →
  ∃ tr, namedIn wf (stateOf s) name tr ∧
    moves (es_trace s') = moves (es_trace s) ++ [mkMove name (stateOf s) (tr_Next tr)] ∧
    walk (stateOf s) [mkMove name (stateOf s) (tr_Next tr)] = Some (stateOf s').
Proof.
  intros H. apply bind_Ret in H as ([[c x] er] & [s1 cu1] & Ha & H). apply up_Ret in Ha as [Ha ->].
  apply advance_Ret in H as (Hr & -> & _). simpl in Hr. subst er.
  apply attemptTransition_moves in Ha as (tr & Hn & [Hm Hst] & _). exists tr.
  assert (Hname : tr_Name tr = name) by (destruct Hn as (trs & _ & Hf & _); by eapply findTransition_name).
  split_and!; [done|by rewrite <- Hname|]. simpl. by rewrite decide_True, Hst.
Qed.

Lemma doorDone_frozen e d s0 s res s' : frozen s0 s → doorDone e d s res s' → doorDone e d s0 res s'.
Proof.
  intros [Hx He] (Hr & wf & ms1 & ms2 & (ctx & t & s1 & s2 & Hw & Hs1) & Hm & Hrest). split; [done|].
  pose proof Hx as [Hst _]. apply ext_moves in Hx. exists wf, ms1, ms2.
  assert (Hd : doorStart d wf s0 = doorStart d wf s) by (by destruct d; simpl).
  rewrite Hd, <- Hx. split_and!; [|done|apply Hrest..]. exists ctx, t, s1, s2. by rewrite Hs1.
Qed.

Lemma frozen_facts s s' : frozen s s' →
  moves (es_trace s') = moves (es_trace s) ∧ stateOf s' = stateOf s ∧ es_ent s' = es_ent s.
Proof. intros [Hx He]. pose proof Hx as [Hst _]. apply ext_moves in Hx. done. Qed.

Lemma Execute_done e ctx name s res s' :
  Execute e ctx name s = (Ret res, s') → doorDone e (DExecute name) s res s'.
Proof.
  intros (t & wf & s1 & s2 & s3 & cu & F1 & Hw & F2 & Hk & F3)%door_opens.
  apply frozen_facts in F1 as (M1 & S1 & E1). apply frozen_facts in F2 as (M2 & S2 & E2).
  apply bind_Ret in Hk as ([] & [s2' cu2] & Hset & Hk). apply up_Ret in Hset as [Hset ->].
  assert (Hs2 : moves (es_trace s2') = moves (es_trace s2) ∧ stateOf s2' = wf_InitialState wf)
    by (by injection Hset as <-).
  destruct Hs2 as [M2' S2']. apply bind_Ret in Hk as ([] & [s4 cu4] & Hn & Hk).
  apply settle_travels in Hk as (Hres & ms2 & Ht & Hb & Hq).
  assert (Hwf : ∃ ctx t s1 s2, resolveWorkflow e ctx t s1 = (Ret wf, s2) ∧ es_ent s1 = es_ent s) by eauto 10.
  case_decide as Hd.
  - apply attempt_advance in Hn as (tr & Hn & Hm & Hwk). rewrite S2' in *.
    eapply (door_settles e (DExecute name) wf s s2' _ s4 ms2 s3); try done; [congruence| |by rewrite S2'].
    simpl. rewrite decide_False by done. by exists tr.
  - injection Hn as <- <-.
    eapply (door_settles e (DExecute name) wf s s2' [] s2' ms2 s3); try done; [congruence| |by rewrite app_nil_r].
    simpl. by destruct (decide (name = "")).
Qed.

Lemma ManualTransition_done e ctx name x s res s' :
  ManualTransition e ctx name s = (Ret res, s') → doorDone e (DManual name x) s res s'.
Proof.
  intros (t & wf & s1 & s2 & s3 & cu & F1 & Hw & F2 & Hk & F3)%door_opens.
  apply frozen_facts in F1 as (M1 & S1 & E1). apply frozen_facts in F2 as (M2 & S2 & E2).
  rewrite <- bind_bind in Hk. apply bind_Ret in Hk as ([] & [s4 cu4] & Hn & Hk).
  apply settle_travels in Hk as (Hres & ms2 & Ht & Hb & Hq).
  apply attempt_advance in Hn as (tr & Hn & Hm & Hwk).
  assert (Hst : stateOf s2 = stateOf s) by congruence. rewrite Hst in *.
  eapply (door_settles e (DManual name x) wf s s2 _ s4 ms2 s3); try done; [eauto 10|congruence| |by rewrite Hst].
  by exists tr.
Qed.

Lemma Loopback_done e ctx x s res s' :
  Loopback e ctx s = (Ret res, s') → doorDone e (DLoopback x) s res s'.
Proof.
  intros (t & wf & s1 & s2 & s3 & cu & F1 & Hw & F2 & Hk & F3)%door_opens.
  apply frozen_facts in F1 as (M1 & S1 & E1). apply frozen_facts in F2 as (M2 & S2 & E2).
  assert (Hst : stateOf s2 = stateOf s) by congruence. rewrite up_state_run in Hk.
  assert (Hwf : ∃ ctx t s1 s2, resolveWorkflow e ctx t s1 = (Ret wf, s2) ∧ es_ent s1 = es_ent s) by eauto 10.
  destruct (wf_States wf !! stateOf s2) as [trs|] eqn:Htrs.
  - apply settle_travels in Hk as (Hres & ms2 & Ht & Hb & Hq).
    eapply (door_settles e (DLoopback x) wf s s2 [] s2 ms2 s3); try done; [congruence|by rewrite app_nil_r].
  - apply bind_Ret in Hk as ([] & [s4 cu4] & H4 & Hk). apply up_Ret in H4 as [H4 ->].
    apply bind_Ret in Hk as ([] & [s5 cu5] & H5 & Hk). apply up_Ret in H5 as [H5 ->]. injection Hk as <- <- <-.
    assert (F4 : frozen s2 s4) by (eapply frozen_elim; [..|exact H4]; auto with stable).
    assert (F5 : frozen s4 s5) by (eapply frozen_elim; [..|exact H5]; auto with stable).
    assert (F25 := transitivity F4 F5). pose proof (frozen_facts _ _ F25) as (M5 & S5 & E5).
    eapply (door_settles e (DLoopback x) wf s s5 [] s5 [] s5); try done.
    + congruence.
    + simpl. congruence.
    + by rewrite app_nil_r.
    + by split_and!; [rewrite app_nil_r|..].
    + split; [simpl; lia|]. intros st. change (leaves st []) with 0. lia.
    + unfold quiescent. by rewrite S5, Htrs.
Qed.

Lemma enter_done e ctx d s res s' :
  enter e ctx d s = (Ret res, s') → doorDone e d s res s'.
Proof.
  destruct d as [name|name x|x]; simpl; [apply Execute_done|..]; intros H;
    unfold ManualTransitionWithIfMatch, LoopbackWithIfMatch in H; apply bind_Ret in H as (ctx' & s1 & Hi & H).
  all: assert (F : frozen s s1) by
    (eapply (frozen_elim (withIfMatch ctx x)); [auto with stable|apply same_withIfMatch|exact Hi]).
  all: eapply doorDone_frozen; [exact F|]; first [eapply ManualTransition_done|eapply Loopback_done]; exact H.
Qed.

(** C27. What a successful request did: the workflow is the one selection gives
    for the entity as it was; creation starts in its initial state, the other doors
    in the entity's own; if the request names a transition, the first move is along
    that transition, declared in that state and neither disabled nor scheduled, and
    otherwise there is none; every later move is along an enabled automated
    transition; the moves form a path to the state reported, where no automated
    transition is enabled any more. *)
Theorem door_path e ctx d s res s' :
  enter e ctx d s = (Ret res, s') → doorDone e d s res s'.
Proof. apply enter_done. Qed.

(** ** Selection *)

Definition skipped (e : Engine) (x : Entity) (wf : WorkflowDefinition) : Prop :=
  wf_Active wf = true → hasCriterion (wf_Criterion wf) = true ∧ judged e false (wf_Criterion wf) x.
Definition chosen (e : Engine) (x : Entity) (wf : WorkflowDefinition) : Prop :=
  wf_Active wf = true ∧ (hasCriterion (wf_Criterion wf) = true → judged e true (wf_Criterion wf) x).
(** The definitions selection looks at: those imported for the model or, when
    there are none, the embedded default. *)
Definition candidates (e : Engine) (ctx : ECtx) (x : Entity) (wfs : list WorkflowDefinition) : Prop :=
  ∃ w w', (xWorkflows ctx (m_ModelRef (Meta x)) w = (Ret wfs, w') ∧ wfs ≠ []) ∨
          (wfs = defaultWorkflows e ∧
           (xWorkflows ctx (m_ModelRef (Meta x)) w = (Ret [], w') ∨
            xWorkflows ctx (m_ModelRef (Meta x)) w = (Err ErrNotFound, w'))).

Lemma selectAmong_first e ctx b t wfs s o s' :
  selectAmong e ctx b t wfs s = (Ret o, s') →
  match o with
  | Some wf => ∃ pre post, wfs = pre ++ wf :: post ∧ Forall (skipped e (es_ent s)) pre ∧ chosen e (es_ent s) wf
  | None => Forall (skipped e (es_ent s)) wfs
  end.
Proof.
  revert s. induction wfs as [|wf wfs IH]; intros s H; simpl in H; [by injection H as <- _|].
  assert (Hcons : ∀ s1, es_ent s1 = es_ent s → skipped e (es_ent s) wf →
    selectAmong e ctx b t wfs s1 = (Ret o, s') → match o with
    | Some wf0 => ∃ pre post, wf :: wfs = pre ++ wf0 :: post ∧ Forall (skipped e (es_ent s)) pre ∧ chosen e (es_ent s) wf0
    | None => Forall (skipped e (es_ent s)) (wf :: wfs) end).
  { intros s1 Hs1 Hsk H1. specialize (IH _ H1). rewrite Hs1 in IH. destruct o as [wf0|]; [|by constructor].
    destruct IH as (pre & post & -> & Hp & Hc). exists (wf :: pre), post. by split_and!; [|constructor|]. }
  destruct (wf_Active wf) eqn:Ha; simpl in H; [|by eapply (Hcons s); [| |exact H]; [|unfold skipped; congruence]].
  unfold state in H. mrun_in H. destruct (hasCriterion (wf_Criterion wf)) eqn:Hc; simpl in H.
  2:{ apply bind_Ret in H as ([] & s1 & _ & H). injection H as <- _. exists [], wfs.
      split_and!; [done|done|]. by split; [|congruence]. }
  apply bind_Ret in H as (r & s1 & Hr & H). unfold try in Hr.
  assert (Hx := same_evaluateCriterion e (wf_Criterion wf) (mkCC ctx t (wf_Name wf) "" "WORKFLOW") s).
  destruct (evaluateCriterion _ _ _ s) as [[[m reason]|er|w] s2] eqn:E; [|by injection Hr as <- <-|done].
  injection Hr as <- <-. unfold sameEnt in Hx. simpl in Hx. destruct m.
  - apply bind_Ret in H as ([] & s3 & _ & H). injection H as <- _. exists [], wfs. split_and!; [done|done|].
    split; [done|]. intros _. by eexists _, s, s2, reason.
  - apply bind_Ret in H as ([] & s3 & Hrec & H). eapply (Hcons s3); [| |exact H].
    + assert (Hs3 : sameEnt s2 s3); [|unfold sameEnt in Hs3; congruence].
      refine (stable_elim _ _ _ _ _ _ Hrec). unfold auditing. solve_stable.
    + intros _. split; [done|]. by eexists _, s, s2, reason.
Qed.

Lemma resolve_selects e ctx t s wf s' :
  resolveWorkflow e ctx t s = (Ret wf, s') →
  ∃ wfs, candidates e ctx (es_ent s) wfs ∧
    ((∃ pre post, wfs = pre ++ wf :: post ∧ Forall (skipped e (es_ent s)) pre ∧ chosen e (es_ent s) wf) ∨
     (Forall (skipped e (es_ent s)) wfs ∧ head (defaultWorkflows e) = Some wf)).
Proof.
  unfold resolveWorkflow, resolveWorkflowWith, ent. mrun. intros H.
  apply bind_Ret in H as (r & s1 & Hr & H). destruct r as [er|[]]; [done|].
  assert (E1 : sameEnt s s1) by (refine (stable_elim _ _ _ _ _ _ Hr); solve_stable).
  apply bind_Ret in H as (r & s2 & Hg & H).
  assert (E2 : sameEnt s1 s2) by (refine (stable_elim _ _ _ _ _ _ Hg); solve_stable).
  assert (E : es_ent s2 = es_ent s) by (unfold sameEnt in *; congruence). clear Hr E1 E2.
  assert (Hsel : ∀ wfs, selectWorkflow e ctx true t wfs s2 = (Ret wf, s') →
    (∃ pre post, wfs = pre ++ wf :: post ∧ Forall (skipped e (es_ent s)) pre ∧ chosen e (es_ent s) wf) ∨
    (Forall (skipped e (es_ent s)) wfs ∧ head (defaultWorkflows e) = Some wf)).
  { intros wfs Hs. apply bind_Ret in Hs as (o & s3 & Ho & Hs). apply selectAmong_first in Ho. rewrite E in Ho.
    unfold state in Hs. mrun_in Hs. destruct o as [wf0|]; [injection Hs as <- _; by left|]. right. split; [done|].
    destruct (defaultWorkflows e) as [|dflt rest]; apply bind_Ret in Hs as ([] & s4 & _ & Hs); [done|].
    by injection Hs as <- _. }
  unfold try, call in Hg. destruct (xWorkflows ctx (m_ModelRef (Meta (es_ent s))) (es_w s1)) as [[l|er|p] w] eqn:Ew;
    [injection Hg as <- <-|injection Hg as <- <-|done].
  - destruct l as [|wf0 l]; eexists; (split; [|by apply Hsel]); exists (es_w s1), w; [right|left]; by auto.
  - destruct (isErr (EStore er) ErrNotFound) eqn:Hnf; [|done]. apply bool_decide_eq_true in Hnf as ->.
    eexists. split; [|by apply Hsel]. exists (es_w s1), w. right. by auto.
Qed.

(** The engine runs the workflow the documented rule selects: among the
    definitions imported for the entity's model (the embedded default when there is
    none), in declaration order, the first active one that has no criterion or whose
    criterion evaluates to true on the entity, every active definition before it
    having been evaluated to false on that same entity; and the default workflow
    only when every active definition was evaluated to false. *)
Theorem workflow_selected e ctx t s wf s' :
  resolveWorkflow e ctx t s = (Ret wf, s') →
  ∃ wfs, candidates e ctx (es_ent s) wfs ∧
    ((∃ pre post, wfs = pre ++ wf :: post ∧ Forall (skipped e (es_ent s)) pre ∧ chosen e (es_ent s) wf) ∨
     (Forall (skipped e (es_ent s)) wfs ∧ head (defaultWorkflows e) = Some wf)).
Proof. apply resolve_selects. Qed.
End Path.

(** ** Witnesses *)

(** NEW goes to CHECK on request, CHECK to DONE by itself through a segmenting
    processor (its first automated transition declines), DONE stays. *)
Definition sampleWF : WorkflowDefinition :=
  plainWorkflow "wf" true "NEW" "d"
    (<["NEW" := [Toy.tr "go" "CHECK" true "" [Toy.cbd]]]>
     (<["CHECK" := [Toy.tr "no" "NEW" false "other" []; Toy.tr "yes" "DONE" false "d" [Toy.cbd]]]>
      (<["DONE" := [Toy.tr "back" "NEW" false "other" []; Toy.tr "reopen" "NEW" true "" []]]> ∅))) "1.4".
Definition otherWF : WorkflowDefinition := plainWorkflow "other" true "X" "other" ∅ "1.4".
Definition sampleRun (st : string) : Eng := Toy.start (Toy.entity st "d" "tx0") ∅ [otherWF; sampleWF].

Lemma cascade_quiesces_witness :
  stateOf (cascadeAutomated Toy.engine Toy.ctx sampleWF "tx0" (sampleRun "CHECK")).2 = "DONE" ∧
  ∃ ms, Forall (moveBy selfFiring sampleWF) ms ∧ length ms ≤ maxCascadeDepth ∧ walk "CHECK" ms = Some "DONE".
Proof.
  assert (Hst : stateOf (cascadeAutomated Toy.engine Toy.ctx sampleWF "tx0" (sampleRun "CHECK")).2 = "DONE") by by_eval.
  split; [exact Hst|].
  assert (H := @cascade_quiesces Toy.env Toy.laws Toy.engine Toy.ctx sampleWF "tx0" (sampleRun "CHECK")).
  destruct (cascadeAutomated _ _ _ _ _) as [r s']. destruct H as (ms & _ & Hw & Hf & Hl & _).
  simpl in Hst. rewrite Hst in Hw. by exists ms.
Defined.

Lemma door_path_witness :
  ∃ res s', enter Toy.engine Toy.ctx (DManual "go" "") (sampleRun "NEW") = (Ret res, s') ∧
    er_State res = "DONE" ∧ doorDone Toy.engine (DManual "go" "") (sampleRun "NEW") res s'.
Proof.
  assert (Hr : match enter Toy.engine Toy.ctx (DManual "go" "") (sampleRun "NEW") with
               | (Ret res, _) => er_State res = "DONE" | _ => False end) by by_eval.
  destruct (enter Toy.engine Toy.ctx (DManual "go" "") (sampleRun "NEW")) as [[res|er|p] s'] eqn:E; [|destruct Hr..].
  exists res, s'. split; [reflexivity|]. split; [exact Hr|].
  exact (@door_path Toy.env Toy.laws Toy.engine Toy.ctx (DManual "go" "") (sampleRun "NEW") res s' E).
Defined.

Lemma workflow_selected_witness :
  ∃ s', resolveWorkflow Toy.engine Toy.ctx "tx0" (sampleRun "NEW") = (Ret sampleWF, s') ∧
  ∃ wfs, candidates (X := Toy.env) Toy.engine Toy.ctx (Toy.entity "NEW" "d" "tx0") wfs.
Proof.
  destruct (resolveWorkflow Toy.engine Toy.ctx "tx0" (sampleRun "NEW")) as [r s'] eqn:E.
  assert (r = Ret sampleWF) as ->.
  { transitivity (resolveWorkflow Toy.engine Toy.ctx "tx0" (sampleRun "NEW")).1; [by rewrite E|by_eval]. }
  exists s'. split; [reflexivity|].
  destruct (@workflow_selected Toy.env Toy.engine Toy.ctx "tx0" (sampleRun "NEW") sampleWF s' E) as (wfs & H & _).
  exists wfs. exact H.
Defined.

(** The transaction ids of the events of a type. *)
Definition eventTxs (ty : SMEventType) (t : list Call) : list string :=
  omap (λ c, match c with CRecord ev => if decide (ev_Type ev = ty) then Some (ev_TransactionID ev) else None
                        | _ => None end) t.

(** The events of one request are not all keyed to the transaction it entered
    with, although the processor pipeline's contract says so: when the transition a
    request names segments, the cascade that follows records its moves, and the
    pipeline of each later transition its results, under the segment's transaction,
    while the start and the end of the same request are keyed to the entry
    transaction. *)
Theorem cascade_events_keyed_by_segment :
  let s' := (enter Toy.engine Toy.ctx (DManual "go" "") (sampleRun "NEW")).2 in
  eventTxs SMEventStarted (es_trace s') = ["tx0"] ∧ eventTxs SMEventFinished (es_trace s') = ["tx0"] ∧
  eventTxs SMEventTransitionMade (es_trace s') = ["tx0"; "seg1"] ∧
  eventTxs SMEventStateProcessResult (es_trace s') = ["tx0"; "seg1"].
Proof. cbv zeta. split_and!; by_eval. Qed.
