(* ===== verification/WorkflowLoops.v ===== *)
(** * Workflow import: the infinite-loop detector

    [validateWorkflowLoops] and [reconstructCyclePath] of
    [internal/domain/workflow/validate.go]: a three-colour depth-first search over
    the transitions that fire with nobody asking and nothing to check.  The search
    terminates, accepts exactly the graphs without a cycle, and reports a real
    cycle.  A workflow it accepts can only cascade in circles through a transition
    with a criterion. *)

From stdpp Require Import base gmap strings list sorting relations.
From S2P Require Import Prelude GoStrings Spi Workflow WorkflowRun WorkflowFrame WorkflowSample WorkflowPath.

(** ** The search *)

(** Automated, and with no criterion to hold it back. *)
Definition unguarded (tr : TransitionDefinition) : bool :=
  negb (tr_Manual tr || tr_Disabled tr) && negb (hasCriterion (tr_Criterion tr)).

Definition loopAdj (wf : WorkflowDefinition) : gmap string (list string) :=
  (λ st, tr_Next <$> filter unguarded (st_Transitions st)) <$> wf_StateDefs wf.

Inductive Color : Type := White | Gray | Black.
#[export] Instance Color_eq_dec : EqDecision Color.
Proof. solve_decision. Defined.

Record dfsState := mkDfs { df_color : gmap string Color; df_parent : gmap string string }.
Definition colorOf (d : dfsState) (s : string) : Color := default White (df_color d !! s).
Definition setColor (s : string) (c : Color) (d : dfsState) : dfsState := mkDfs (<[s := c]> (df_color d)) (df_parent d).
Definition setParent (s p : string) (d : dfsState) : dfsState := mkDfs (df_color d) (<[s := p]> (df_parent d)).

(** [Spun]: the fuel ran out where the code would go on. *)
Inductive dfsResult : Type := Finished (d : dfsState) | Loop (path : list string) | Spun.

(** Walk the parents back from [cur] to [cycleStart]. *)
Fixpoint reconstructCyclePath (fuel : nat) (parent : gmap string string) (cur cycleStart : string)
    (parts : list string) : option (list string) :=
  if decide (cur = cycleStart) then Some (cycleStart :: parts ++ [cycleStart])
  else match fuel with
       | 0 => None
       | S f => reconstructCyclePath f parent (default "" (parent !! cur)) cycleStart (cur :: parts)
       end.

(** The body of [dfs] after the state is grey: [go] is the recursive call. *)
Fixpoint visitNexts (go : string → dfsState → dfsResult) (state : string) (nexts : list string) (d : dfsState) :
    dfsResult :=
  match nexts with
  | [] => Finished (setColor state Black d)
  | next :: rest =>
      match colorOf d next with
      | Gray =>
          match reconstructCyclePath (size (df_parent d)) (df_parent d) state next [] with
          | Some path => Loop path
          | None => Spun
          end
      | White =>
          match go next (setParent next state d) with
          | Finished d' => visitNexts go state rest d'
          | r => r
          end
      | Black => visitNexts go state rest d
      end
  end.

Fixpoint dfs (adj : gmap string (list string)) (fuel : nat) (state : string) (d : dfsState) : dfsResult :=
  match fuel with
  | 0 => Spun
  | S f => visitNexts (dfs adj f) state (default [] (adj !! state)) (setColor state Gray d)
  end.

Fixpoint dfsRoots (adj : gmap string (list string)) (fuel : nat) (names : list string) (d : dfsState) : dfsResult :=
  match names with
  | [] => Finished d
  | s :: rest =>
      match colorOf d s with
      | White => match dfs adj fuel s d with Finished d' => dfsRoots adj fuel rest d' | r => r end
      | _ => dfsRoots adj fuel rest d
      end
  end.

(** [sort.Strings]: bytewise. *)
Definition sortStrings (l : list string) : list string := merge_sort String.le l.

(** Every name the search can meet; their number is enough fuel. *)
Definition loopNodes (wf : WorkflowDefinition) : gset string :=
  dom (wf_StateDefs wf) ∪ ⋃ (list_to_set <$> (map_to_list (loopAdj wf)).*2).

Definition validateWorkflowLoops (wf : WorkflowDefinition) : dfsResult :=
  dfsRoots (loopAdj wf) (size (loopNodes wf)) (sortStrings ((map_to_list (wf_StateDefs wf)).*1)) (mkDfs ∅ ∅).

(** ** What it decides *)

(** One step an entity takes by itself, unconditionally. *)
Definition unguardedEdge (wf : WorkflowDefinition) (x y : string) : Prop :=
  ∃ st tr, wf_StateDefs wf !! x = Some st ∧ tr ∈ st_Transitions st ∧ unguarded tr = true ∧ tr_Next tr = y.

Section Graph.
Context (adj : gmap string (list string)).

Definition edge (x y : string) : Prop := y ∈ default [] (adj !! x).
Fixpoint linked (l : list string) : Prop :=
  match l with
  | x :: ((y :: _) as l') => edge x y ∧ linked l'
  | _ => True
  end.
(** A closed walk. *)
Definition cycle (path : list string) : Prop := ∃ c mid, path = c :: mid ++ [c] ∧ linked path.

(** The grey states, innermost first, joined by [parent]. *)
Fixpoint chain (parent : gmap string string) (l : list string) : Prop :=
  match l with
  | x :: ((y :: _) as l') => parent !! x = Some y ∧ edge y x ∧ chain parent l'
  | _ => True
  end.
(** Successors come before their predecessors. *)
Definition settled (fin : list string) : Prop :=
  ∀ l1 x l2 y, fin = l1 ++ x :: l2 → edge x y → y ∈ l1.

Record searching (d : dfsState) (stack fin : list string) : Prop := {
  sg_gray : ∀ x, colorOf d x = Gray ↔ x ∈ stack;
  sg_black : ∀ x, colorOf d x = Black ↔ x ∈ fin;
  sg_nodup : NoDup stack;
  sg_chain : chain (df_parent d) stack;
  sg_settled : settled fin
}.

Lemma searching_start : searching (mkDfs ∅ ∅) [] [].
Proof.
  split; [intros x; unfold colorOf; simpl; rewrite lookup_empty, elem_of_nil; done..|constructor|done|].
  by intros [|? ?] x l2 y.
Qed.
Lemma settled_snoc fin x : settled fin → (∀ y, edge x y → y ∈ fin) → settled (fin ++ [x]).
Proof.
  intros Hs Hx l1 z l2 y Heq He. destruct l2 as [|w l2 _] using rev_ind.
  - apply app_inj_tail in Heq as [-> ->]. auto.
  - rewrite app_comm_cons, app_assoc in Heq. apply app_inj_tail in Heq as [-> _]. by eapply Hs.
Qed.
Lemma settled_prefix l1 l2 : settled (l1 ++ l2) → settled l1.
Proof. intros H k1 x k2 y -> He. eapply (H k1 x (k2 ++ l2)); [by rewrite <- app_assoc|done]. Qed.
Lemma settled_closed fin x y : settled fin → x ∈ fin → rtc edge x y → y ∈ fin.
Proof.
  intros Hs Hx Hr. induction Hr as [|x z y He _ IH]; [done|]. apply IH.
  apply list_elem_of_split in Hx as (l1 & l2 & Heq). rewrite Heq, elem_of_app. left. by eapply Hs.
Qed.
Lemma settled_acyclic fin x : settled fin → x ∈ fin → ¬ tc edge x x.
Proof.
  revert x. induction fin as [|z l IH] using rev_ind; intros x Hs Hx Hc; [by apply elem_of_nil in Hx|].
  assert (Hl := settled_prefix _ _ Hs). destruct (decide (x ∈ l)) as [Hin|Hn]; [by apply (IH x)|].
  assert (x = z) as -> by (rewrite elem_of_app, list_elem_of_singleton in Hx; tauto).
  apply Hn. inversion Hc as [? ? He|? y ? He Ht]; subst.
  - by eapply Hs.
  - eapply settled_closed; [done|by eapply (Hs l z [])|by apply tc_rtc].
Qed.

Lemma chain_insert p x y l : x ∉ l → chain p l → chain (<[x := y]> p) l.
Proof.
  induction l as [|a [|b l] IH]; [done..|]. intros Hx (H1 & H2 & H3). rewrite not_elem_of_cons in Hx.
  destruct Hx as [Hxa Hx]. split_and!; [by rewrite lookup_insert_ne by done|done|by apply IH].
Qed.
Lemma chain_bound p x l : NoDup (x :: l) → chain p (x :: l) → length l ≤ size p.
Proof.
  revert x. intros x Hnd Hc. rewrite <- (size_dom (D := gset string)).
  assert (Hk : ∀ l x, chain p (x :: l) → ∀ k, k < length l → ∃ z, (x :: l) !! k = Some z ∧ z ∈ dom p).
  { clear. induction l as [|y l IH]; intros x Hc k Hk; simpl in Hk; [lia|]. destruct Hc as (Hp & _ & Hc).
    destruct k as [|k]; [by exists x; rewrite elem_of_dom|]. apply (IH y Hc k). lia. }
  assert (Hsub : list_to_set (take (length l) (x :: l)) ⊆ dom p).
  { intros z Hz. apply elem_of_list_to_set, list_elem_of_lookup in Hz as [k Hz].
    apply lookup_take_Some in Hz as [Hz Hlt]. destruct (Hk l x Hc k Hlt) as (z' & Hz' & Hin). congruence. }
  apply subseteq_size in Hsub. rewrite size_list_to_set in Hsub by (by eapply sublist_NoDup, sublist_take).
  rewrite length_take in Hsub. simpl in Hsub. lia.
Qed.

Lemma reconstruct_cycle p c fuel s l parts :
  chain p (s :: l) → c ∈ s :: l → length l ≤ fuel → linked (s :: parts ++ [c]) →
  ∃ path, reconstructCyclePath fuel p s c parts = Some path ∧ cycle path.
Proof.
  revert s l parts. induction fuel as [|f IH]; intros s l parts Hc Hin Hl Hk; simpl;
    (destruct (decide (s = c)) as [->|Hne]; [eexists; split; [done|]; by exists c, parts|]);
    destruct l as [|y l]; try (apply list_elem_of_singleton in Hin; congruence); simpl in Hl; [lia|].
  destruct Hc as (Hp & He & Hc). rewrite Hp. apply (IH y l); [done| |lia|by split].
  apply elem_of_cons in Hin as [?|?]; [congruence|done].
Qed.

(** ** The search keeps its invariant *)
Context (U : gset string) (HU : ∀ x y, edge x y → y ∈ U).
Definition white (d : dfsState) : gset string := filter (λ x, colorOf d x = White) U.

(** What a call started with [stack] and [fin] ends with. *)
Definition searched (stack fin : list string) (s : string) (r : dfsResult) : Prop :=
  match r with
  | Finished d' => ∃ ext, searching d' stack (fin ++ ext) ∧ s ∈ fin ++ ext
  | Loop path => cycle path
  | Spun => False
  end.

Lemma color_set d s c x : colorOf (setColor s c d) x = if decide (x = s) then c else colorOf d x.
Proof. unfold colorOf. simpl. case_decide; [subst; by rewrite lookup_insert_eq|by rewrite lookup_insert_ne]. Qed.

Lemma white_mono d stack fin d' ext :
  searching d stack fin → searching d' stack (fin ++ ext) → size (white d') ≤ size (white d).
Proof.
  intros [Hg Hb _ _ _] [Hg' Hb' _ _ _]. apply subseteq_size. intros x. unfold white. rewrite !elem_of_filter.
  intros [Hw Hx]. split; [|done]. specialize (Hg x). specialize (Hb x). specialize (Hg' x). specialize (Hb' x).
  rewrite elem_of_app in Hb'. destruct (colorOf d x); [done|..].
  - assert (colorOf d' x = Gray) by tauto. congruence.
  - assert (colorOf d' x = Black) by tauto. congruence.
Qed.

Lemma searching_gray d stack fin s :
  searching d stack fin → colorOf d s = White → chain (df_parent d) (s :: stack) →
  searching (setColor s Gray d) (s :: stack) fin.
Proof.
  intros [Hg Hb Hn Hc Hs] Hw Hch.
  assert (Hns : s ∉ stack) by (rewrite <- Hg; congruence). assert (Hnf : s ∉ fin) by (rewrite <- Hb; congruence).
  split; [intros x; rewrite color_set..|by constructor|done|done].
  - rewrite elem_of_cons. case_decide; [tauto|]. rewrite Hg. tauto.
  - case_decide; [subst; split; [done|tauto]|apply Hb].
Qed.

Lemma searching_black d stack fin s :
  searching d (s :: stack) fin → (∀ y, edge s y → y ∈ fin) → searching (setColor s Black d) stack (fin ++ [s]).
Proof.
  intros [Hg Hb Hn Hc Hs] He. apply NoDup_cons in Hn as [Hns Hn].
  split; [intros x; rewrite color_set..|done|by destruct stack as [|? ?]; [|apply Hc]|by apply settled_snoc].
  - specialize (Hg x). rewrite elem_of_cons in Hg. case_decide; [subst; split; [done|tauto]|]. tauto.
  - rewrite elem_of_app, list_elem_of_singleton, <- Hb. case_decide; tauto.
Qed.

Lemma searching_parent d stack fin x s :
  searching d stack fin → colorOf d x = White → searching (setParent x s d) stack fin.
Proof.
  intros [Hg Hb Hn Hc Hs] Hw. split; [exact Hg|exact Hb|done| |done].
  apply chain_insert; [|done]. rewrite <- Hg. congruence.
Qed.

Lemma visitNexts_searches go stack s f :
  (∀ x d fin, searching d (s :: stack) fin → colorOf d x = White → x ∈ U → chain (df_parent d) (x :: s :: stack) →
     size (white d) ≤ f → searched (s :: stack) fin x (go x d)) →
  ∀ nexts d fin, searching d (s :: stack) fin → (∀ y, y ∈ nexts → edge s y) →
    (∀ y, edge s y → y ∈ nexts ∨ y ∈ fin) → size (white d) ≤ f →
    searched stack fin s (visitNexts go s nexts d).
Proof.
  intros Hgo. induction nexts as [|y nexts IH]; intros d fin Hd Hin Hall Hf; simpl.
  { exists [s]. split; [|apply elem_of_app; right; by left]. apply searching_black; [done|].
    intros y [Hy|Hy]%Hall; [by apply elem_of_nil in Hy|done]. }
  assert (Hey : edge s y) by (apply Hin; by left). assert (Hin' : ∀ z, z ∈ nexts → edge s z) by (intros; apply Hin; by right).
  destruct (colorOf d y) eqn:Hcy.
  - assert (Hsp := searching_parent d _ fin y s Hd Hcy).
    assert (Hr : searched (s :: stack) fin y (go y (setParent y s d))).
    { apply Hgo; [done|done|by eapply HU| |done]. simpl. split_and!; [by rewrite lookup_insert_eq|done|apply Hsp]. }
    destruct (go y (setParent y s d)) as [d'| |]; simpl in Hr; [|done..]. destruct Hr as (ext & Hd' & Hy).
    assert (Hw := white_mono _ _ _ _ _ Hd Hd').
    assert (Hres : searched stack (fin ++ ext) s (visitNexts go s nexts d')).
    { apply IH; [done|done| |lia]. intros z Hz. destruct (Hall z Hz) as [[->|?]%elem_of_cons|?];
        rewrite ?elem_of_app in *; tauto. }
    destruct (visitNexts go s nexts d') as [d2| |]; simpl in *; [|done..].
    destruct Hres as (ext2 & ? & ?). exists (ext ++ ext2). by rewrite app_assoc.
  - apply (sg_gray _ _ _ Hd) in Hcy.
    destruct (reconstruct_cycle (df_parent d) y (size (df_parent d)) s stack []) as (path & -> & Hp);
      [apply Hd|done|eapply chain_bound; apply Hd|by split|done].
  - apply IH; [done|done| |done]. intros z Hz. destruct (Hall z Hz) as [[->|?]%elem_of_cons|?];
      [right; by apply (sg_black _ _ _ Hd)|tauto..].
Qed.

Lemma dfs_searches fuel s d stack fin :
  searching d stack fin → colorOf d s = White → s ∈ U → chain (df_parent d) (s :: stack) →
  size (white d) ≤ fuel → searched stack fin s (dfs adj fuel s d).
Proof.
  revert s d stack fin. induction fuel as [|f IH]; intros s d stack fin Hd Hw Hs Hc Hf.
  { assert (Hm : s ∈ white d) by (by apply elem_of_filter). apply Nat.le_0_r, size_empty_inv in Hf.
    by apply Hf, elem_of_empty in Hm. }
  simpl. apply (visitNexts_searches _ _ _ f); [by auto|by apply searching_gray|done|by left|].
  assert (Hlt : white (setColor s Gray d) ⊂ white d); [|apply subset_size in Hlt; lia].
  split.
  - intros x. unfold white. rewrite !elem_of_filter, color_set. case_decide; [by intros []|done].
  - intros Hsub. assert (Hm : s ∈ white d) by (by apply elem_of_filter). apply Hsub in Hm.
    unfold white in Hm. rewrite elem_of_filter, color_set, decide_True in Hm by done. by destruct Hm.
Qed.

Lemma dfsRoots_searches fuel names d fin :
  searching d [] fin → (∀ x, x ∈ names → x ∈ U) → size U ≤ fuel →
  match dfsRoots adj fuel names d with
  | Finished d' => ∃ fin', settled fin' ∧ ∀ x, x ∈ names ∨ x ∈ fin → x ∈ fin'
  | Loop path => cycle path
  | Spun => False
  end.
Proof.
  intros Hd HN Hf. revert d fin Hd. induction names as [|s names IH]; intros d fin Hd; simpl.
  { exists fin. split; [apply Hd|]. intros x [Hx|?]; [by apply elem_of_nil in Hx|done]. }
  assert (HN' : ∀ x, x ∈ names → x ∈ U) by (intros; apply HN; by right). specialize (IH HN').
  destruct (colorOf d s) eqn:Hs.
  - assert (Hw : size (white d) ≤ fuel) by (etrans; [apply (subseteq_size (white d) U); intros x [_ Hx]%elem_of_filter; exact Hx|done]).
    assert (Hr := dfs_searches fuel s d [] fin Hd Hs (HN s ltac:(by left)) I Hw).
    destruct (dfs adj fuel s d) as [d'| |]; simpl in Hr; [|done..]. destruct Hr as (ext & Hd' & Hin).
    specialize (IH d' _ Hd'). destruct (dfsRoots adj fuel names d'); [|done..]. destruct IH as (fin' & ? & Hall).
    exists fin'. split; [done|]. intros x [[->|?]%elem_of_cons|?]; apply Hall; [by right|by left|right; apply elem_of_app; by left].
  - apply (sg_gray _ _ _ Hd), elem_of_nil in Hs as [].
  - apply (sg_black _ _ _ Hd) in Hs. specialize (IH d fin Hd). destruct (dfsRoots adj fuel names d); [|done..].
    destruct IH as (fin' & ? & Hall). exists fin'. split; [done|].
    intros x [[->|?]%elem_of_cons|?]; apply Hall; tauto.
Qed.
End Graph.

(** ** Exactness *)

Lemma loopAdj_edge wf x y : edge (loopAdj wf) x y ↔ unguardedEdge wf x y.
Proof.
  unfold edge, loopAdj, unguardedEdge. rewrite lookup_fmap. destruct (wf_StateDefs wf !! x) as [st|]; simpl.
  - rewrite list_elem_of_fmap. setoid_rewrite list_elem_of_filter. split.
    + intros (tr & -> & Hu%Is_true_true & Hin). by exists st, tr.
    + intros (st' & tr & [= <-] & Hin & Hu & <-). exists tr. by rewrite Is_true_true.
  - rewrite elem_of_nil. split; [done|]. by intros (? & ? & ? & _).
Qed.
Lemma loopNodes_next wf x y : edge (loopAdj wf) x y → y ∈ loopNodes wf.
Proof.
  unfold edge, loopNodes. destruct (loopAdj wf !! x) as [l|] eqn:E; simpl; [|by rewrite elem_of_nil].
  intros Hy. apply elem_of_union_r, elem_of_union_list. exists (list_to_set l).
  split; [|by apply elem_of_list_to_set]. apply list_elem_of_fmap. exists l. split; [done|].
  apply list_elem_of_fmap. exists (x, l). split; [done|]. by apply elem_of_map_to_list.
Qed.
Lemma sortStrings_elem l x : x ∈ sortStrings l ↔ x ∈ l.
Proof. unfold sortStrings. by rewrite merge_sort_Permutation. Qed.

Lemma loops_decided wf :
  match validateWorkflowLoops wf with
  | Finished _ => ∀ s, ¬ tc (unguardedEdge wf) s s
  | Loop path => cycle (loopAdj wf) path
  | Spun => False
  end.
Proof.
  assert (Hnames : ∀ x, x ∈ sortStrings ((map_to_list (wf_StateDefs wf)).*1) ↔ x ∈ dom (wf_StateDefs wf)).
  { intros x. rewrite sortStrings_elem, list_elem_of_fmap, elem_of_dom. split.
    - intros ([k v] & -> & Hin%elem_of_map_to_list). by exists v.
    - intros [v Hv]. exists (x, v). by rewrite elem_of_map_to_list. }
  assert (H := dfsRoots_searches (loopAdj wf) (loopNodes wf) (loopNodes_next wf) (size (loopNodes wf))
    (sortStrings ((map_to_list (wf_StateDefs wf)).*1)) (mkDfs ∅ ∅) [] (searching_start _)
    (λ x Hx, elem_of_union_l _ _ _ (proj1 (Hnames x) Hx)) (le_n _)).
  unfold validateWorkflowLoops. destruct (dfsRoots _ _ _ _); [|done..]. destruct H as (fin & Hs & Hall).
  intros s Hc. eapply (settled_acyclic (loopAdj wf) fin s Hs).
  - apply Hall. left. apply Hnames, elem_of_dom.
    inversion Hc as [? ? (st & ? & ? & _)|? ? ? (st & ? & ? & _)]; by exists st.
  - revert Hc. apply tc_congruence with (f := id). intros x y. apply loopAdj_edge.
Qed.

Lemma linked_tc wf c mid : linked (loopAdj wf) (c :: mid ++ [c]) → tc (unguardedEdge wf) c c.
Proof.
  enough (H : ∀ x, linked (loopAdj wf) (x :: mid ++ [c]) → tc (unguardedEdge wf) x c) by auto.
  induction mid as [|y mid IH]; intros x [He Hl]; apply loopAdj_edge in He; [by apply tc_once|].
  eapply tc_l; [done|]. by apply IH.
Qed.

(** C8. The loop detector is exact: it always finishes; it accepts a workflow
    just when no state leads back to itself through automated transitions without
    a criterion; and the path it reports is such a walk, back to where it began. *)
Theorem loop_detector_exact wf :
  match validateWorkflowLoops wf with
  | Finished _ => ∀ s, ¬ tc (unguardedEdge wf) s s
  | Loop path => ∃ c mid, path = c :: mid ++ [c] ∧ linked (loopAdj wf) path ∧ tc (unguardedEdge wf) c c
  | Spun => False
  end.
Proof.
  assert (H := loops_decided wf). destruct (validateWorkflowLoops wf); [done| |done].
  destruct H as (c & mid & -> & Hl). exists c, mid. split_and!; [done|done|by eapply linked_tc].
Qed.

(** ** Cascades of an accepted workflow *)

(** An automated transition with a criterion. *)
Definition guardedFiring (tr : TransitionDefinition) : Prop := selfFiring tr ∧ hasCriterion (tr_Criterion tr) = true.
Definition unconditional (wf : WorkflowDefinition) (m : Move) : Prop := ¬ moveBy guardedFiring wf m.

Lemma unconditional_edge wf m : moveBy selfFiring wf m → unconditional wf m → unguardedEdge wf (mv_From m) (mv_To m).
Proof.
  intros (trs & tr & Hst & Hin & Hs & Hn & Ht) Hu. unfold wf_States in Hst. rewrite lookup_fmap in Hst.
  apply fmap_Some in Hst as (st & Hst & ->). exists st, tr. split_and!; [done..| |done].
  destruct (hasCriterion (tr_Criterion tr)) eqn:Hc.
  - exfalso. apply Hu. exists (st_Transitions st), tr. unfold wf_States. rewrite lookup_fmap, Hst. by split_and!.
  - unfold unguarded. rewrite Hc. by destruct Hs as (-> & -> & _).
Qed.
Lemma walk_tc wf st m ms st' :
  walk st (m :: ms) = Some st' → Forall (moveBy selfFiring wf) (m :: ms) → Forall (unconditional wf) (m :: ms) →
  tc (unguardedEdge wf) st st'.
Proof.
  revert st m. induction ms as [|m' ms IH]; intros st m Hw Hf Hu; simpl in Hw; case_decide; try done; subst;
    apply Forall_cons in Hf as [Hm Hf]; apply Forall_cons in Hu as [Hum Hu].
  - injection Hw as <-. by apply tc_once, unconditional_edge.
  - eapply tc_l; [by apply unconditional_edge|]. by eapply IH.
Qed.
Lemma walk_split st ms1 ms2 st' : walk st (ms1 ++ ms2) = Some st' → ∃ s, walk st ms1 = Some s ∧ walk s ms2 = Some st'.
Proof.
  revert st. induction ms1 as [|m ms1 IH]; intros st Hw; simpl in *; [by exists st|]. case_decide; [by apply IH|done].
Qed.

Lemma unconditional_nodup wf st ms st' :
  (∀ s, ¬ tc (unguardedEdge wf) s s) → walk st ms = Some st' → Forall (moveBy selfFiring wf) ms →
  Forall (unconditional wf) ms → NoDup (mv_From <$> ms).
Proof.
  intros Hac. revert st. induction ms as [|m ms IH]; intros st Hw Hf Hu; [constructor|].
  assert (Hw' := Hw). simpl in Hw'. case_decide as Hm; [|done]. simpl. constructor.
  - rewrite list_elem_of_fmap. intros (m' & Heq & (l1 & l2 & ->)%list_elem_of_split).
    rewrite app_comm_cons in Hw, Hf, Hu. apply Forall_app in Hf as [Hf _]. apply Forall_app in Hu as [Hu _].
    apply walk_split in Hw as (s & Hw1 & Hw2). simpl in Hw2. case_decide; [|done].
    apply (Hac st). rewrite Hm in Heq. rewrite <- Heq in *. subst s. by eapply walk_tc.
  - apply Forall_cons in Hf as [_ Hf]. apply Forall_cons in Hu as [_ Hu]. by eapply IH.
Qed.

(** An acyclic graph is left in as many steps as it has states. *)
Lemma unconditional_bound wf st ms st' :
  (∀ s, ¬ tc (unguardedEdge wf) s s) → walk st ms = Some st' → Forall (moveBy selfFiring wf) ms →
  Forall (unconditional wf) ms → length ms ≤ size (wf_StateDefs wf).
Proof.
  intros Hac Hw Hf Hu. rewrite <- (size_dom (D := gset string)).
  rewrite <- (length_fmap mv_From), <- (size_list_to_set (C := gset string)) by (by eapply unconditional_nodup).
  apply subseteq_size. intros x. rewrite elem_of_list_to_set, list_elem_of_fmap. intros (m & -> & Hm).
  rewrite Forall_forall in Hf. destruct (Hf m Hm) as (trs & _ & Hst & _). unfold wf_States in Hst.
  rewrite lookup_fmap in Hst. apply fmap_Some in Hst as (sd & Hst & _). by eapply elem_of_dom_2.
Qed.

(** C33. What acceptance buys the engine: in a cascade of a workflow the detector
    accepts, a run of consecutive moves that no transition with a criterion offers
    is never longer than the workflow has states, and no stretch of moves that
    returns to where it began consists of such moves alone. *)
Theorem accepted_cascade_guarded `{X : Env, L : !EnvLaws} e ctx wf t s d :
  validateWorkflowLoops wf = Finished d →
  let '(r, s') := cascadeAutomated e ctx wf t s in
  ∃ ms, travelled wf s ms s' ∧
    (∀ pre run post, ms = pre ++ run ++ post → Forall (unconditional wf) run →
       length run ≤ size (wf_StateDefs wf)) ∧
    (∀ pre lap post st, ms = pre ++ lap ++ post → lap ≠ [] → walk st lap = Some st →
       ¬ Forall (unconditional wf) lap).
Proof.
  intros Hd. assert (Hac := loops_decided wf). rewrite Hd in Hac.
  assert (Ht := cascadeAutomated_travels e ctx wf t s). destruct (cascadeAutomated e ctx wf t s) as [r s'].
  destruct Ht as (ms & Ht & _). exists ms. destruct Ht as (Hm & Hw & Hf). split_and!; [by split_and!|..].
  - intros pre run post -> Hu. apply walk_split in Hw as (s1 & _ & (s2 & Hw & _)%walk_split).
    apply Forall_app in Hf as [_ [Hf _]%Forall_app]. by eapply unconditional_bound.
  - intros pre lap post st -> Hne Hl Hu. apply Forall_app in Hf as [_ [Hf _]%Forall_app].
    destruct lap as [|m lap]; [done|]. eapply Hac, walk_tc; eauto.
Qed.

(** The search on a workflow with a loop, and on one without. *)
Definition loopingWF : WorkflowDefinition :=
  plainWorkflow "loop" true "A" ""
    (<["A" := [plainTransition "ab" "B" false false "" [] None]]>
     (<["B" := [plainTransition "stop" "D" true false "" [] None; plainTransition "bc" "C" false false "null" [] None]]>
      (<["C" := [plainTransition "ca" "A" false false "" [] None]]> (<["D" := []]> ∅)))) "1.4".
Lemma looping_found : validateWorkflowLoops loopingWF = Loop ["A"; "B"; "C"; "A"].
Proof. vm_compute. reflexivity. Qed.

Lemma accepted_cascade_guarded_witness :
  stateOf (cascadeAutomated Toy.engine Toy.ctx sampleWF "tx0" (sampleRun "CHECK")).2 = "DONE" ∧
  ∃ ms, travelled sampleWF (sampleRun "CHECK") ms (cascadeAutomated Toy.engine Toy.ctx sampleWF "tx0" (sampleRun "CHECK")).2 ∧
    (Forall (unconditional sampleWF) ms → length ms ≤ size (wf_StateDefs sampleWF)).
Proof.
  split; [by by_eval|].
  assert (Hd : ∃ d, validateWorkflowLoops sampleWF = Finished d) by (eexists; vm_compute; reflexivity).
  destruct Hd as [d Hd].
  assert (H := @accepted_cascade_guarded Toy.env Toy.laws Toy.engine Toy.ctx sampleWF "tx0" (sampleRun "CHECK") d Hd).
  destruct (cascadeAutomated _ _ _ _ _) as [r s']. destruct H as (ms & Ht & Hr & _). exists ms. split; [exact Ht|].
  apply (Hr [] ms []). by rewrite app_nil_r.
Defined.
