(* ===== verification/Schema.v ===== *)
(** * The model schema: nodes, merge, the op catalog, diff and apply

    [internal/domain/model/schema]: a model node is the set of kinds a path has
    been observed as; [Merge] unions two trees, [Diff] expresses an additive
    change as a list of operations, [Apply] replays such a list.

    The node type, its mutators, its wire codec and the type sets live in the
    storage contract's module, which the repository aliases in [coretypes.go]; the
    record and the mutators follow the repository's design note on the branch set
    (a scalar branch never holds NULL; the nullable marker is kept only while
    there is no scalar branch).  The collapse of numeric types inside a type set,
    the names of the types and the codec are operations of the class [SchemaSPI].
    JSON text is represented by the value it encodes.  Mutation through a resolved
    pointer is [modifyAt]: the trees involved are fresh copies, so nothing else
    aliases the node. *)

From Stdlib Require Import Ascii.
From stdpp Require Import base gmap strings list sorting fin_maps.
From S2P Require Import Prelude.

(** ** Types *)

Inductive DataType : Type :=
| DInteger | DLong | DBigInteger | DUnboundInteger
| DDouble | DBigDecimal | DUnboundDecimal
| DString | DCharacter
| DLocalDate | DLocalDateTime | DLocalTime | DZonedDateTime | DYear | DYearMonth
| DUUID | DTimeUUID | DByteArray | DBoolean | DNull.

#[export] Instance DataType_eq_dec : EqDecision DataType.
Proof. solve_decision. Defined.

Definition allDataTypes : list DataType :=
  [DInteger; DLong; DBigInteger; DUnboundInteger; DDouble; DBigDecimal; DUnboundDecimal; DString; DCharacter;
   DLocalDate; DLocalDateTime; DLocalTime; DZonedDateTime; DYear; DYearMonth; DUUID; DTimeUUID; DByteArray;
   DBoolean; DNull].
#[export] Program Instance DataType_finite : finite.Finite DataType := {| finite.enum := allDataTypes |}.
Next Obligation. apply (bool_decide_unpack _). by vm_compute. Qed.
Next Obligation. intros []; apply (bool_decide_unpack _); by vm_compute. Qed.
#[export] Instance DataType_countable : Countable DataType := finite.finite_countable.

Inductive NodeKind : Type := KindLeaf | KindObject | KindArray.

(** ** Nodes *)

(** The branches a node carries: the scalar's types, the object's children, the
    array's element (unknown for an array never observed with content). *)
Inductive ModelNode : Type := mkNode {
  n_scalar : option (gset DataType);
  n_object : option (gmap string ModelNode);
  n_array : option (option ModelNode);
  n_nullable : bool }.

Definition emptyNode : ModelNode := mkNode None None None false.

Definition hasKind (n : ModelNode) (k : NodeKind) : bool :=
  match k with
  | KindLeaf => match n_scalar n with Some _ => true | None => false end
  | KindObject => match n_object n with Some _ => true | None => false end
  | KindArray => match n_array n with Some _ => true | None => false end
  end.
Definition Kinds (n : ModelNode) : list NodeKind :=
  filter (λ k, hasKind n k = true) [KindLeaf; KindObject; KindArray].

(** The scalar's types, or the NULL marker of a nullable node without one. *)
Definition DeclaredTypes (n : ModelNode) : gset DataType :=
  match n_scalar n with
  | Some T => T
  | None => if n_nullable n then {[DNull]} else ∅
  end.

(** ** Errors *)

Inductive serr : Type :=
| SErr (what : string)
| SLevel (path : string)
| SDepth (path : string)
| SFieldName (parent name : string)
| SUnsupported (path : string).

#[export] Instance sum_ret : MRet (sum serr) := λ A a, inr a.
#[export] Instance sum_bind : MBind (sum serr) := λ A B f m, match m with inl e => inl e | inr a => f a end.

(** ** The contract's type sets and codec *)

Class SchemaSPI := {
  dtString : DataType → string;
  ParseDataType : string → option DataType;
  collapse : gset DataType → gset DataType;
  Marshal : ModelNode → serr + string;
  Unmarshal : string → serr + ModelNode }.

Section Schema.
Context `{SchemaSPI}.

(** ** Mutators *)

Definition SetNullable (n : ModelNode) : ModelNode :=
  match n_scalar n with
  | Some _ => n
  | None => mkNode None (n_object n) (n_array n) true
  end.
Definition DeclareKind (k : NodeKind) (n : ModelNode) : ModelNode :=
  match k with
  | KindLeaf => match n_scalar n with
                | Some _ => n
                | None => mkNode (Some ∅) (n_object n) (n_array n) false
                end
  | KindObject => mkNode (n_scalar n) (Some (default ∅ (n_object n))) (n_array n) (n_nullable n)
  | KindArray => mkNode (n_scalar n) (n_object n) (Some (default None (n_array n))) (n_nullable n)
  end.
(** Concrete types establish or widen the scalar branch; NULL among them marks a
    node that has none. *)
Definition AddScalarTypes (dts : gset DataType) (n : ModelNode) : ModelNode :=
  let concrete := dts ∖ {[DNull]} in
  if decide (concrete = ∅) then (if decide (DNull ∈ dts) then SetNullable n else n)
  else mkNode (Some (collapse (default ∅ (n_scalar n) ∪ concrete))) (n_object n) (n_array n) false.
Definition SetChild (name : string) (child : ModelNode) (n : ModelNode) : ModelNode :=
  mkNode (n_scalar n) (Some (<[name := child]> (default ∅ (n_object n)))) (n_array n) (n_nullable n).
Definition SetElement (e : ModelNode) (n : ModelNode) : ModelNode :=
  mkNode (n_scalar n) (n_object n) (Some (Some e)) (n_nullable n).

Definition NewObjectNode : ModelNode := mkNode None (Some ∅) None false.
Definition NewLeafNode (dt : DataType) : ModelNode :=
  if decide (dt = DNull) then mkNode None None None true else mkNode (Some {[dt]}) None None false.
Definition NewArrayNode (e : option ModelNode) : ModelNode := mkNode None None (Some e) false.

(** ** Merge *)

(** Both operands present: the branches union, a branch of one side is kept. *)
Fixpoint mergeNode (a b : ModelNode) : ModelNode :=
  let scalar :=
    match n_scalar a, n_scalar b with
    | None, None => emptyNode
    | sa, sb => AddScalarTypes (default ∅ sb) (AddScalarTypes (default ∅ sa) (DeclareKind KindLeaf emptyNode))
    end in
  let object :=
    match n_object a, n_object b with
    | None, None => None
    | oa, ob => Some (union_with (λ x y, Some (mergeNode x y)) (default ∅ oa) (default ∅ ob))
    end in
  let array :=
    match n_array a, n_array b with
    | None, None => None
    | Some ea, None => Some ea
    | None, Some eb => Some eb
    | Some ea, Some eb =>
        Some match ea, eb with
             | Some x, Some y => Some (mergeNode x y)
             | Some x, None => Some x
             | None, y => y
             end
    end in
  let result := mkNode (n_scalar scalar) object array (n_nullable scalar) in
  if n_nullable a || n_nullable b then SetNullable result else result.

Definition Merge (a b : option ModelNode) : option ModelNode :=
  match a, b with
  | None, None => None
  | None, Some y => Some y
  | Some x, None => Some x
  | Some x, Some y => Some (mergeNode x y)
  end.

(** ** Operations *)

Inductive SchemaOpKind : Type :=
| KindAddProperty | KindBroadenType | KindAddArrayItemType | KindAddKindBranch
| KindUnknown (kind : string).

(** The JSON a payload holds: an encoded node or an array of type names. *)
Inductive RawMessage : Type := RawNode (bytes : string) | RawNames (names : list string).

Record SchemaOp := mkOp { op_Kind : SchemaOpKind; op_Path : string; op_Name : string; op_Payload : RawMessage }.

(** Empty when there is no change. *)
Definition SchemaDelta : Type := list SchemaOp.

Definition encodeTypeNames (types : gset DataType) : serr + list string :=
  if decide (types = ∅) then inl (SErr "at least one DataType required") else
  if decide ("UNKNOWN" ∈ dtString <$> elements types) then inl (SErr "unknown DataType")
  else inr (merge_sort String.le (dtString <$> elements types)).
Fixpoint parseNames (names : list string) : serr + list DataType :=
  match names with
  | [] => inr []
  | n :: rest =>
      match ParseDataType n with
      | None => inl (SErr "unknown DataType name")
      | Some dt => dts ← parseNames rest; inr (dt :: dts)
      end
  end.
Definition DecodeTypeNames (payload : RawMessage) : serr + list DataType :=
  match payload with
  | RawNode _ => inl (SErr "decode type names")
  | RawNames [] => inl (SErr "empty type list")
  | RawNames names => parseNames names
  end.
Definition decodeNode (payload : RawMessage) : serr + ModelNode :=
  match payload with RawNode b => Unmarshal b | RawNames _ => inl (SErr "decode subtree") end.

Definition NewAddProperty (parentPath name : string) (subtree : string) : SchemaOp :=
  mkOp KindAddProperty parentPath name (RawNode subtree).
Definition NewBroadenType (targetPath : string) (added : gset DataType) : serr + SchemaOp :=
  payload ← encodeTypeNames added; inr (mkOp KindBroadenType targetPath "" (RawNames payload)).
Definition NewAddArrayItemType (arrayPath : string) (added : gset DataType) : serr + SchemaOp :=
  payload ← encodeTypeNames added; inr (mkOp KindAddArrayItemType arrayPath "" (RawNames payload)).
Definition NewAddKindBranch (targetPath : string) (branch : string) : SchemaOp :=
  mkOp KindAddKindBranch targetPath "" (RawNode branch).

(** ** Diff *)

Definition joinSchemaPath (parent child : string) : string :=
  if decide (parent = "") then child else (parent +:+ "/" +:+ child)%string.

Definition isolateBranch (n : ModelNode) (k : NodeKind) : ModelNode :=
  let out := DeclareKind k emptyNode in
  match k with
  | KindLeaf => AddScalarTypes (default ∅ (n_scalar n)) out
  | KindObject => mkNode (n_scalar out) (Some (default ∅ (n_object n))) (n_array out) (n_nullable out)
  | KindArray => match n_array n with Some (Some e) => SetElement e out | _ => out end
  end.
Definition emitAddKindBranch (path : string) (k : NodeKind) (newN : ModelNode) : serr + list SchemaOp :=
  raw ← Marshal (isolateBranch newN k); inr [NewAddKindBranch path raw].

Definition isScalarOnly (n : ModelNode) : bool := negb (hasKind n KindObject) && negb (hasKind n KindArray).

(** What is no longer declared makes the change non-additive. *)
Definition additiveAt (oldN newN : ModelNode) : serr + unit :=
  if decide (Exists (λ k, hasKind newN k = false) (Kinds oldN)) then inl (SErr "kind removal") else
  if n_nullable oldN && negb (n_nullable newN) && negb (hasKind newN KindLeaf)
  then inl (SErr "nullable removal") else inr tt.

(** The nullable marker, then the types of a scalar branch that exists or is the
    node's first kind. *)
Definition diffScalar (path : string) (oldN newN : ModelNode) : serr + list SchemaOp :=
  marker ← (if n_nullable newN && negb (n_nullable oldN)
            then op ← NewBroadenType path {[DNull]}; inr [op] else inr []);
  match n_scalar newN with
  | None => inr marker
  | Some ns =>
      let added := match n_scalar oldN with
                   | Some os => ns ∖ os
                   | None => if decide (Kinds oldN = []) then ns else ∅
                   end in
      if decide (added = ∅) then inr marker
      else op ← NewBroadenType path added; inr (marker ++ [op])
  end.
(** A scalar branch beside another kind is added as a branch. *)
Definition diffLeafBranch (path : string) (oldN newN : ModelNode) : serr + list SchemaOp :=
  if hasKind newN KindLeaf && negb (hasKind oldN KindLeaf) && negb (bool_decide (Kinds oldN = []))
  then emitAddKindBranch path KindLeaf newN else inr [].

(** The element of an array both sides declare; [descend] diffs the elements. *)
Definition diffArray (descend : string → ModelNode → serr + list SchemaOp) (path : string)
    (newN : ModelNode) (oldElem newElem : option ModelNode) : serr + list SchemaOp :=
  match oldElem, newElem with
  | None, None => inr []
  | Some _, None => inl (SErr "array element removed")
  | None, Some ne =>
      if hasKind ne KindObject || hasKind ne KindArray then emitAddKindBranch path KindArray newN
      else op ← NewAddArrayItemType path (DeclaredTypes ne); inr [op]
  | Some oe, Some ne =>
      if isScalarOnly oe && isScalarOnly ne then
        let added := DeclaredTypes ne ∖ DeclaredTypes oe in
        if decide (added = ∅) then inr [] else op ← NewAddArrayItemType path added; inr [op]
      else descend (joinSchemaPath path "[]") oe
  end.

(** Recursion on the new tree; its children in the runtime's order. *)
Fixpoint diffNode (newN : ModelNode) (path : string) (oldN : ModelNode) : serr + list SchemaOp :=
  _ ← additiveAt oldN newN;
  scalar ← diffScalar path oldN newN;
  object ← match n_object newN, n_object oldN with
           | None, _ => inr []
           | Some _, None => emitAddKindBranch path KindObject newN
           | Some newChildren, Some oldChildren =>
               ops ← map_fold (λ name newChild rest,
                   ops ← match oldChildren !! name with
                         | None => raw ← Marshal newChild; inr [NewAddProperty path name raw]
                         | Some oldChild => diffNode newChild (joinSchemaPath path name) oldChild
                         end;
                   ops' ← rest; inr (ops ++ ops')) (inr []) newChildren;
               if decide (dom oldChildren ⊆ dom newChildren) then inr ops
               else inl (SErr "property removal")
           end;
  array ← match n_array newN, n_array oldN with
          | None, _ => inr []
          | Some _, None => emitAddKindBranch path KindArray newN
          | Some newElem, Some oldElem =>
              diffArray (λ path' oe, match newElem with Some ne => diffNode ne path' oe | None => inr [] end)
                path newN oldElem newElem
          end;
  leaf ← diffLeafBranch path oldN newN;
  inr (scalar ++ object ++ array ++ leaf).

Definition Diff (oldN newN : option ModelNode) : serr + SchemaDelta :=
  match oldN, newN with
  | Some o, Some n => diffNode n "" o
  | _, _ => inl (SErr "schema.Diff: nil input")
  end.

(** ** Apply *)

(** [strings.Split(s, "/")]. *)
Fixpoint splitSlash (s : string) : list string :=
  match s with
  | EmptyString => [""]
  | String c s' =>
      if Ascii.eqb c "/"%char then "" :: splitSlash s'
      else match splitSlash s' with
           | w :: ws => String c w :: ws
           | [] => [String c ""]
           end
  end.
Definition segments (path : string) : list string := if decide (path = "") then [] else splitSlash path.

(** [resolvePath] followed by a mutation of the node it returns. *)
Fixpoint modifyAt (parts : list string) (f : ModelNode → serr + ModelNode) (cur : ModelNode) : serr + ModelNode :=
  match parts with
  | [] => f cur
  | part :: rest =>
      if decide (part = "") then inl (SErr "empty path segment") else
      if decide (part = "[]") then
        match n_array cur with
        | None => inl (SErr "cannot descend into the element")
        | Some None => inl (SErr "array has no element")
        | Some (Some elem) => elem' ← modifyAt rest f elem; inr (SetElement elem' cur)
        end
      else
        match n_object cur with
        | None => inl (SErr "cannot descend")
        | Some children =>
            match children !! part with
            | None => inl (SErr "missing segment")
            | Some next => next' ← modifyAt rest f next; inr (SetChild part next' cur)
            end
        end
  end.

Definition applyAddProperty (op : SchemaOp) (parent : ModelNode) : serr + ModelNode :=
  match n_object parent with
  | None => inl (SErr "parent does not declare an object")
  | Some children =>
      if decide (op_Name op = "") then inl (SErr "add_property requires a non-empty Name") else
      incoming ← decodeNode (op_Payload op);
      match children !! op_Name op with
      | Some existing => inr (SetChild (op_Name op) (mergeNode existing incoming) parent)
      | None => inr (SetChild (op_Name op) incoming parent)
      end
  end.
Definition applyBroadenType (op : SchemaOp) (target : ModelNode) : serr + ModelNode :=
  types ← DecodeTypeNames (op_Payload op); inr (AddScalarTypes (list_to_set types) target).
Definition applyAddArrayItemType (op : SchemaOp) (target : ModelNode) : serr + ModelNode :=
  match n_array target with
  | None => inl (SErr "target does not declare an array")
  | Some elem =>
      types ← DecodeTypeNames (op_Payload op);
      match elem, types with
      | None, [] => inl (SErr "array has no element and payload is empty")
      | None, t :: ts => inr (SetElement (AddScalarTypes (list_to_set ts) (NewLeafNode t)) target)
      | Some e, _ => inr (SetElement (AddScalarTypes (list_to_set types) e) target)
      end
  end.
Definition applyAddKindBranch (op : SchemaOp) (target : ModelNode) : serr + ModelNode :=
  incoming ← decodeNode (op_Payload op);
  match Kinds incoming with
  | [k] =>
      let target := DeclareKind k target in
      inr match k with
          | KindLeaf => AddScalarTypes (default ∅ (n_scalar incoming)) target
          | KindObject =>
              mkNode (n_scalar target)
                (Some (union_with (λ x y, Some (mergeNode x y)) (default ∅ (n_object target)) (default ∅ (n_object incoming))))
                (n_array target) (n_nullable target)
          | KindArray =>
              match n_array incoming with
              | Some (Some e) =>
                  match Merge (default None (n_array target)) (Some e) with
                  | Some e' => SetElement e' target
                  | None => target
                  end
              | _ => target
              end
          end
  | _ => inl (SErr "add_kind_branch carries exactly one branch")
  end.

Definition applyOp (op : SchemaOp) (root : ModelNode) : serr + ModelNode :=
  match op_Kind op with
  | KindAddProperty => modifyAt (segments (op_Path op)) (applyAddProperty op) root
  | KindBroadenType => modifyAt (segments (op_Path op)) (applyBroadenType op) root
  | KindAddArrayItemType => modifyAt (segments (op_Path op)) (applyAddArrayItemType op) root
  | KindAddKindBranch => modifyAt (segments (op_Path op)) (applyAddKindBranch op) root
  | KindUnknown _ => inl (SErr "unknown op kind")
  end.
Fixpoint applyOps (ops : list SchemaOp) (root : ModelNode) : serr + ModelNode :=
  match ops with
  | [] => inr root
  | op :: rest => root' ← applyOp op root; applyOps rest root'
  end.

Definition cloneNode (n : ModelNode) : serr + ModelNode := raw ← Marshal n; Unmarshal raw.

Definition Apply (base : option ModelNode) (delta : SchemaDelta) : serr + ModelNode :=
  match base with
  | None => inl (SErr "schema.Apply: base is nil")
  | Some b => root ← cloneNode b; applyOps delta root
  end.

End Schema.
