(* ===== verification/SchemaLattice.v ===== *)
(** * Merging model nodes

    Well-formed nodes and the laws the schema code relies on of the contract's
    type sets and codec; [Merge] is a join: commutative, associative and
    idempotent on well-formed nodes, which it preserves. *)

From stdpp Require Import base gmap strings list sorting fin_maps.
From S2P Require Import Prelude Schema.

(** ** Induction over nodes *)

Fixpoint nodeSize (n : ModelNode) : nat :=
  S (match n_object n with Some m => map_fold (λ _ c acc, nodeSize c + acc) 0 m | None => 0 end +
     match n_array n with Some (Some e) => nodeSize e | _ => 0 end).

Lemma map_fold_size (m : gmap string ModelNode) i c :
  m !! i = Some c → nodeSize c ≤ map_fold (λ _ c acc, nodeSize c + acc) 0 m.
Proof.
  revert c. apply (map_fold_weak_ind (λ r m, ∀ c, m !! i = Some c → nodeSize c ≤ r)); [done|].
  intros j x m' r Hj IH c. destruct (decide (i = j)) as [->|].
  - rewrite lookup_insert_eq. intros [= ->]. lia.
  - rewrite lookup_insert_ne by done. intros Hc%IH. lia.
Qed.

Lemma node_ind (P : ModelNode → Prop) :
  (∀ s o a nl, (∀ m i c, o = Some m → m !! i = Some c → P c) → (∀ e, a = Some (Some e) → P e) →
     P (mkNode s o a nl)) → ∀ n, P n.
Proof.
  intros H n. remember (nodeSize n) as k eqn:Hk. revert n Hk.
  induction (lt_wf k) as [k _ IH]. intros [s o a nl] Hk. subst k. apply H.
  - intros m i c -> Hc%map_fold_size. eapply IH; [|done]. simpl. lia.
  - intros e ->. eapply IH; [|done]. simpl. lia.
Qed.

(** ** Joining options *)

Definition J {A} (f : A → A → A) (x y : option A) : option A := union_with (λ a b, Some (f a b)) x y.

Lemma J_comm {A} (f : A → A → A) x y :
  (∀ a b, x = Some a → y = Some b → f a b = f b a) → J f x y = J f y x.
Proof. destruct x, y; simpl; intros H; try done. unfold J; simpl. by rewrite H. Qed.
Lemma J_assoc {A} (f : A → A → A) x y z :
  (∀ a b c, x = Some a → y = Some b → z = Some c → f (f a b) c = f a (f b c)) →
  J f (J f x y) z = J f x (J f y z).
Proof. destruct x, y, z; unfold J; simpl; intros H; try done. by rewrite H. Qed.
Lemma J_idem {A} (f : A → A → A) x : (∀ a, x = Some a → f a a = a) → J f x x = x.
Proof. destruct x; unfold J; simpl; intros H; try done. by rewrite H. Qed.
Lemma J_None_r {A} (f : A → A → A) x : J f x None = x.
Proof. by destruct x. Qed.
Lemma J_None_l {A} (f : A → A → A) x : J f None x = x.
Proof. by destruct x. Qed.
Lemma J_None {A} (f : A → A → A) x y : J f x y = None ↔ x = None ∧ y = None.
Proof. unfold J. destruct x, y; simpl; naive_solver. Qed.
Lemma J_Some {A} (f : A → A → A) x y c :
  J f x y = Some c ↔
  (∃ a b, x = Some a ∧ y = Some b ∧ c = f a b) ∨ (x = Some c ∧ y = None) ∨ (x = None ∧ y = Some c).
Proof. unfold J. destruct x, y; simpl; naive_solver. Qed.

(** Maps join pointwise. *)
Definition JM {A} (f : A → A → A) (m1 m2 : gmap string A) : gmap string A :=
  union_with (λ a b, Some (f a b)) m1 m2.
Lemma JM_lookup {A} (f : A → A → A) m1 m2 i : JM f m1 m2 !! i = J f (m1 !! i) (m2 !! i).
Proof. unfold JM, J. by rewrite lookup_union_with. Qed.
Lemma JM_dom {A} (f : A → A → A) m1 m2 : dom (JM f m1 m2) = dom m1 ∪ dom m2.
Proof.
  apply set_eq. intros i. rewrite elem_of_union, !elem_of_dom, JM_lookup. unfold J, is_Some.
  destruct (m1 !! i), (m2 !! i); simpl; naive_solver.
Qed.

(** ** Well-formed nodes *)

Section Wf.
Context `{SchemaSPI}.

Definition typesWf (T : gset DataType) : Prop := T ≠ ∅ ∧ DNull ∉ T ∧ collapse T = T.

(** Every node declares something, a scalar has its collapsed concrete types, the
    nullable marker stands only without a scalar, and field names are path
    segments. *)
Inductive wf : ModelNode → Prop :=
| wf_intro s o a nl :
    (∀ T, s = Some T → typesWf T) →
    (nl = true → s = None) →
    (s ≠ None ∨ o ≠ None ∨ a ≠ None ∨ nl = true) →
    (∀ m i c, o = Some m → m !! i = Some c → i ≠ "" ∧ i ≠ "[]" ∧ splitSlash i = [i]) →
    (∀ m i c, o = Some m → m !! i = Some c → wf c) →
    (∀ e, a = Some (Some e) → wf e) →
    wf (mkNode s o a nl).

(** The documented behaviour of the contract's type sets and codec. *)
Class SchemaLaws : Prop := {
  dtString_parse d : ParseDataType (dtString d) = Some d;
  dtString_known d : dtString d ≠ "UNKNOWN";
  collapse_union S T : collapse (collapse S ∪ T) = collapse (S ∪ T);
  collapse_single t : collapse {[t]} = {[t]};
  collapse_null S : DNull ∉ S → DNull ∉ collapse S;
  collapse_nonempty S : S ≠ ∅ → collapse S ≠ ∅;
  codec_roundtrip n : wf n → ∃ b, Marshal n = inr b ∧ Unmarshal b = inr n;
  unmarshal_empty n : Unmarshal "" ≠ inr n }.
End Wf.

Section Lattice.
Context `{SchemaSPI} {L : SchemaLaws}.

Definition joinT (S T : gset DataType) : gset DataType := collapse (S ∪ T).

Lemma collapse_idem S : collapse (collapse S) = collapse S.
Proof. pose proof (collapse_union S ∅) as Hu. by rewrite !union_empty_r_L in Hu. Qed.
Lemma joinT_comm S T : joinT S T = joinT T S.
Proof. unfold joinT. by rewrite (comm_L (∪)). Qed.
Lemma joinT_assoc S T U : joinT (joinT S T) U = joinT S (joinT T U).
Proof.
  unfold joinT. rewrite collapse_union, (comm_L (∪) S (collapse (T ∪ U))), collapse_union.
  f_equal. set_solver.
Qed.
Lemma joinT_idem T : typesWf T → joinT T T = T.
Proof. intros (_ & _ & Hc). unfold joinT. by rewrite union_idemp_L. Qed.
Lemma joinT_wf S T : typesWf S → typesWf T → typesWf (joinT S T).
Proof.
  intros (? & ? & _) (? & ? & _). split_and!.
  - apply collapse_nonempty. set_solver.
  - apply collapse_null. set_solver.
  - apply collapse_idem.
Qed.

Lemma AddScalarTypes_wf T n : typesWf T →
  AddScalarTypes T n = mkNode (Some (joinT (default ∅ (n_scalar n)) T)) (n_object n) (n_array n) false.
Proof.
  intros (Hne & Hnull & _). unfold AddScalarTypes.
  assert (Hd : T ∖ {[DNull]} = T) by set_solver. by rewrite Hd, decide_False.
Qed.
Lemma AddScalarTypes_empty n : AddScalarTypes ∅ n = n.
Proof. unfold AddScalarTypes. rewrite decide_True, decide_False; set_solver. Qed.
Lemma joinT_empty T : typesWf T → joinT ∅ T = T.
Proof. intros (_ & _ & Hc). unfold joinT. by rewrite union_empty_l_L. Qed.

Definition unscaled (n : ModelNode) : bool := negb (hasKind n KindLeaf).

(** [mergeNode] on well-formed nodes joins the branches one by one. *)
Lemma mergeNode_eq a b : wf a → wf b →
  mergeNode a b =
  mkNode (J joinT (n_scalar a) (n_scalar b)) (J (JM mergeNode) (n_object a) (n_object b))
    (J (J mergeNode) (n_array a) (n_array b)) ((n_nullable a || n_nullable b) && unscaled a && unscaled b).
Proof.
  intros Ha Hb. destruct Ha as [sa oa aa na Hsa _ _ _ _ _], Hb as [sb ob ab nb Hsb _ _ _ _ _].
  simpl. unfold unscaled. simpl.
  assert (Ho : match oa with
    | Some g => Some (union_with (λ x y, Some (mergeNode x y)) g (default ∅ ob))
    | None => match ob with Some g => Some (union_with (λ x y, Some (mergeNode x y)) ∅ g) | None => None end
    end = J (JM mergeNode) oa ob).
  { destruct oa as [m1|], ob as [m2|]; unfold J, JM; simpl; try done; f_equal;
      [by rewrite (right_id_L ∅ (union_with _))|by rewrite (left_id_L ∅ (union_with _))]. }
  rewrite Ho. clear Ho.
  transitivity (let r := mkNode (J joinT sa sb) (J (JM mergeNode) oa ob) (J (J mergeNode) aa ab) false in
    if na || nb then SetNullable r else r); [|by destruct na, nb, sa, sb].
  assert (Hnode : ∀ r r', r = r' → (if na || nb then SetNullable r else r) = (if na || nb then SetNullable r' else r'))
    by (by intros ?? ->).
  apply Hnode. f_equal; [|by destruct aa as [[|]|], ab as [[|]|]|].
  all: destruct sa as [A|], sb as [B|]; simpl; rewrite ?AddScalarTypes_empty; [..|done].
  all: repeat (rewrite AddScalarTypes_wf by auto; simpl); by rewrite ?joinT_empty by auto.
Qed.

(** ** The join laws *)

Lemma wf_child n m i c : wf n → n_object n = Some m → m !! i = Some c → wf c.
Proof. intros [s o a nl _ _ _ _ Ho _]. apply Ho. Qed.
Lemma wf_name n m i c : wf n → n_object n = Some m → m !! i = Some c → i ≠ "" ∧ i ≠ "[]" ∧ splitSlash i = [i].
Proof. intros [s o a nl _ _ _ Hn _ _]. apply Hn. Qed.
Lemma wf_elem n e : wf n → n_array n = Some (Some e) → wf e.
Proof. intros [s o a nl _ _ _ _ _ Ha]. apply Ha. Qed.
Lemma wf_types n T : wf n → n_scalar n = Some T → typesWf T.
Proof. intros [s o a nl Hs _ _ _ _ _]. apply Hs. Qed.
Lemma wf_nullable n : wf n → n_nullable n = true → n_scalar n = None.
Proof. intros [s o a nl _ Hn _ _ _ _]. apply Hn. Qed.
Lemma wf_declares n : wf n → Kinds n ≠ [] ∨ n_nullable n = true.
Proof.
  intros [s o a nl _ _ Hd _ _ _]. unfold Kinds, hasKind. simpl.
  destruct s, o, a; simpl; try (by left); naive_solver.
Qed.

Lemma merge_wf a b : wf a → wf b → wf (mergeNode a b).
Proof.
  revert b. induction a as [s o a nl IHo IHa] using node_ind. intros b Ha Hb. rewrite mergeNode_eq by done.
  constructor; simpl.
  - intros T [(A & B & HA & HB & ->)|[[HA _]|[_ HB]]]%J_Some;
      [apply joinT_wf; [exact (wf_types _ _ Ha HA)|exact (wf_types _ _ Hb HB)]
      |exact (wf_types _ _ Ha HA)|exact (wf_types _ _ Hb HB)].
  - unfold unscaled. simpl. intros Hn. apply J_None.
    destruct s, (n_scalar b) eqn:E; simpl in Hn; rewrite ?E, ?andb_false_r in Hn; try done.
  - destruct (wf_declares _ Ha) as [Hk|Hk]; unfold Kinds in Hk; simpl in Hk.
    + destruct s as [A|]; [left; by rewrite J_None; intros [? _]|]. 
      destruct o as [m|]; [right; left; by rewrite J_None; intros [? _]|].
      destruct a as [e|]; [right; right; left; by rewrite J_None; intros [? _]|done].
    + subst nl. pose proof (wf_nullable _ Ha eq_refl) as Hs. simpl in Hs. subst s. unfold unscaled. simpl.
      destruct (n_scalar b) eqn:E; [by left|]. by right; right; right.
  - intros m i c [(A & B & HA & HB & ->)|[[HA _]|[_ HB]]]%J_Some;
      [|by eapply (wf_name (mkNode s o a nl))|by eapply (wf_name b)].
    rewrite JM_lookup. intros [(x & y & Hx & Hy & ->)|[[Hx _]|[_ Hy]]]%J_Some;
      [by eapply (wf_name (mkNode s o a nl))|by eapply (wf_name (mkNode s o a nl))|by eapply (wf_name b)].
  - intros m i c [(A & B & HA & HB & ->)|[[HA _]|[_ HB]]]%J_Some;
      [|by eapply (wf_child (mkNode s o a nl))|by eapply (wf_child b)].
    rewrite JM_lookup. intros [(x & y & Hx & Hy & ->)|[[Hx _]|[_ Hy]]]%J_Some;
      [eapply IHo; [done..| |]|by eapply (wf_child (mkNode s o a nl))|by eapply (wf_child b)];
      [by eapply (wf_child (mkNode s o a nl))|by eapply (wf_child b)].
  - intros e [(A & B & HA & HB & He)|[[HA _]|[_ HB]]]%J_Some;
      [|by eapply (wf_elem (mkNode s o a nl))|by eapply (wf_elem b)].
    symmetry in He. apply J_Some in He as [(x & y & -> & -> & ->)|[[-> _]|[_ ->]]];
      [eapply IHa; [done| |]|by eapply (wf_elem (mkNode s o a nl))|by eapply (wf_elem b)];
      [by eapply (wf_elem (mkNode s o a nl))|by eapply (wf_elem b)].
Qed.
#[local] Hint Resolve merge_wf wf_child wf_elem : core.

Lemma merge_comm a b : wf a → wf b → mergeNode a b = mergeNode b a.
Proof.
  revert b. induction a as [s o a nl IHo IHa] using node_ind. intros b Ha Hb.
  rewrite !mergeNode_eq by done. simpl. f_equal.
  - apply J_comm. intros. apply joinT_comm.
  - apply J_comm. intros m1 m2 -> Hm. apply map_eq. intros i. rewrite !JM_lookup. apply J_comm.
    intros x y Hx Hy. eapply IHo; eauto.
  - apply J_comm. intros ea eb -> Hb'. apply J_comm. intros x y -> ->.
    eapply IHa; eauto.
  - unfold unscaled. simpl. destruct nl, (n_nullable b), s, (n_scalar b); done.
Qed.

Lemma merge_idem a : wf a → mergeNode a a = a.
Proof.
  induction a as [s o a nl IHo IHa] using node_ind. intros Ha. rewrite mergeNode_eq by done. simpl. f_equal.
  - apply J_idem. intros T ->. apply joinT_idem. by eapply (wf_types (mkNode (Some T) o a nl)).
  - apply J_idem. intros m ->. apply map_eq. intros i. rewrite JM_lookup. apply J_idem.
    intros x Hx. eapply IHo; eauto.
  - apply J_idem. intros e ->. apply J_idem. intros x ->. eapply IHa; eauto.
  - rewrite orb_diag. unfold unscaled. simpl. destruct nl; [|done].
    pose proof (wf_nullable _ Ha eq_refl) as Hs. simpl in Hs. by subst s.
Qed.

Lemma merge_assoc a b c : wf a → wf b → wf c → mergeNode (mergeNode a b) c = mergeNode a (mergeNode b c).
Proof.
  revert b c. induction a as [s o a nl IHo IHa] using node_ind. intros b c Ha Hb Hc.
  rewrite (mergeNode_eq _ c), (mergeNode_eq _ (mergeNode b c)) by auto.
  rewrite (mergeNode_eq _ b), (mergeNode_eq b c) by auto. simpl. f_equal.
  - apply J_assoc. intros. apply joinT_assoc.
  - apply J_assoc. intros m1 m2 m3 -> Hm2 Hm3. apply map_eq. intros i. rewrite !JM_lookup. apply J_assoc.
    intros x y z Hx Hy Hz. eapply IHo; eauto.
  - apply J_assoc. intros e1 e2 e3 -> H2 H3. apply J_assoc. intros x y z -> -> ->.
    eapply IHa; eauto.
  - unfold unscaled. simpl. destruct nl, (n_nullable b), (n_nullable c), s, (n_scalar b), (n_scalar c); done.
Qed.

(** [Merge] is a join: on well-formed models (a missing model included) it is
    commutative, associative and idempotent and gives a well-formed model, so the
    order and the number of times observations are merged does not matter. *)
Theorem merge_is_join a b c :
  (∀ n, n ∈ [a; b; c] → ∀ x, n = Some x → wf x) →
  Merge a b = Merge b a ∧ Merge (Merge a b) c = Merge a (Merge b c) ∧ Merge a a = a ∧
  ∀ x, Merge a b = Some x → wf x.
Proof.
  intros Hwf. assert (Ha : ∀ x, a = Some x → wf x) by (apply Hwf; set_solver).
  assert (Hb : ∀ x, b = Some x → wf x) by (apply Hwf; set_solver).
  assert (Hc : ∀ x, c = Some x → wf x) by (apply Hwf; set_solver).
  split_and!.
  - destruct a, b; simpl; try done. f_equal. by apply merge_comm; auto.
  - destruct a, b, c; simpl; try done. f_equal. by apply merge_assoc; auto.
  - destruct a; simpl; [|done]. f_equal. by apply merge_idem; auto.
  - destruct a, b; simpl; intros x [= <-]; auto.
Qed.
End Lattice.
