(* ===== verification/SchemaDelta.v ===== *)
(** * Deltas: what a diff does when it is replayed

    The delta [Diff] computes against one version of a model, replayed on any
    later version, joins the new version into it.  So replaying it on the version
    it was computed from gives the new one, replaying it twice changes nothing
    more, and deltas computed by concurrent writers from the same version can be
    folded in any order. *)

From stdpp Require Import base gmap strings list sorting fin_maps.
From S2P Require Import Prelude Schema SchemaLattice.

(** ** Paths *)

Lemma splitSlash_app p q : splitSlash (p +:+ "/" +:+ q) = splitSlash p ++ splitSlash q.
Proof.
  induction p as [|c p IH]; simpl; [done|]. unfold String.app in *. rewrite IH.
  destruct (Ascii.eqb c _); [done|].
  assert (Hne : splitSlash p ≠ []).
  { destruct p as [|c' p']; simpl; [done|]. destruct (Ascii.eqb c' _); [done|]. by destruct (splitSlash p'). }
  by destruct (splitSlash p).
Qed.

(** A name usable as one segment of a path. *)
Definition segment (q : string) : Prop := q ≠ "" ∧ splitSlash q = [q].
Lemma segment_elem : segment "[]".
Proof. by split. Qed.

Lemma segments_join path q : segment q → segments (joinSchemaPath path q) = segments path ++ [q].
Proof.
  intros [Hne Hq]. unfold joinSchemaPath, segments. destruct (decide (path = "")) as [->|Hp]; [by rewrite decide_False|].
  rewrite decide_False; [by rewrite splitSlash_app, Hq|]. by destruct path.
Qed.

Definition step (q : string) (n : ModelNode) : option ModelNode :=
  if decide (q = "") then None else
  if decide (q = "[]") then default None (n_array n) else n_object n ≫= (.!! q).
Definition setStep (q : string) (n c : ModelNode) : ModelNode :=
  if decide (q = "[]") then SetElement c n else SetChild q c n.

Fixpoint getAt (ps : list string) (n : ModelNode) : option ModelNode :=
  match ps with [] => Some n | q :: ps' => step q n ≫= getAt ps' end.
Fixpoint setAt (ps : list string) (n m : ModelNode) : ModelNode :=
  match ps with
  | [] => m
  | q :: ps' => match step q n with Some c => setStep q n (setAt ps' c m) | None => n end
  end.

Lemma step_setStep q n c c' : step q n = Some c → step q (setStep q n c') = Some c'.
Proof.
  unfold step, setStep. repeat case_decide; try done. simpl. by rewrite lookup_insert_eq.
Qed.
Lemma setStep_setStep q n c c' : setStep q (setStep q n c) c' = setStep q n c'.
Proof.
  unfold setStep. case_decide; [done|]. unfold SetChild. simpl. by rewrite insert_insert_eq.
Qed.
Lemma setStep_same q n c : step q n = Some c → setStep q n c = n.
Proof.
  unfold step, setStep. destruct n as [s o a nl]. simpl. repeat case_decide; try done.
  - destruct a as [e|]; simpl; [|done]. by intros ->.
  - destruct o as [m|]; simpl; [|done]. intros Hc. unfold SetChild. simpl. by rewrite insert_id.
Qed.

Lemma modifyAt_run ps f n m : getAt ps n = Some m → modifyAt ps f n = (m' ← f m; inr (setAt ps n m')).
Proof.
  revert n. induction ps as [|q ps IH]; simpl; intros n.
  - intros [= ->]. by destruct (f m).
  - unfold step at 1. repeat case_decide; try done.
    + destruct (n_array n) as [[e|]|] eqn:Ha; simpl; try done. intros Hm. rewrite (IH _ Hm).
      unfold step, setStep. rewrite decide_False, decide_True by done. rewrite Ha. simpl.
      destruct (f m); simpl; [done|by rewrite decide_True].
    + destruct (n_object n) as [o|] eqn:Ho; simpl; try done. destruct (o !! q) as [c|] eqn:Hc; simpl; [|done].
      intros Hm. rewrite (IH _ Hm). unfold step, setStep. rewrite !decide_False by done. rewrite Ho. simpl.
      rewrite Hc. destruct (f m); simpl; [done|by rewrite decide_False].
Qed.
Lemma getAt_setAt ps n m m' : getAt ps n = Some m → getAt ps (setAt ps n m') = Some m'.
Proof.
  revert n. induction ps as [|q ps IH]; simpl; intros n; [done|].
  destruct (step q n) as [c|] eqn:Hc; simpl; [|done]. intros Hm.
  rewrite (step_setStep _ _ _ _ Hc). simpl. by apply IH.
Qed.
Lemma setAt_setAt ps n m m1 m2 : getAt ps n = Some m → setAt ps (setAt ps n m1) m2 = setAt ps n m2.
Proof.
  revert n. induction ps as [|q ps IH]; simpl; intros n; [done|].
  destruct (step q n) as [c|] eqn:Hc; simpl; [|done]. intros Hm.
  rewrite (step_setStep _ _ _ _ Hc). by rewrite IH, setStep_setStep.
Qed.
Lemma setAt_same ps n m : getAt ps n = Some m → setAt ps n m = n.
Proof.
  revert n. induction ps as [|q ps IH]; simpl; intros n; [by intros [= ->]|].
  destruct (step q n) as [c|] eqn:Hc; simpl; [|done]. intros Hm. rewrite IH by done. by apply setStep_same.
Qed.
Lemma getAt_snoc ps q n m : getAt ps n = Some m → getAt (ps ++ [q]) n = step q m.
Proof.
  revert n. induction ps as [|p ps IH]; simpl; intros n; [intros [= ->]; by destruct (step q m)|].
  destruct (step p n) as [c|]; simpl; [|done]. apply IH.
Qed.
Lemma setAt_snoc ps q n m c x : getAt ps n = Some m → step q m = Some c →
  setAt (ps ++ [q]) n x = setAt ps n (setStep q m x).
Proof.
  revert n. induction ps as [|p ps IH]; simpl; intros n; [intros [= ->]; by intros ->|].
  destruct (step p n) as [d|]; simpl; [|done]. intros Hm Hc. by rewrite IH.
Qed.

Section Delta.
Context `{SchemaSPI} {L : SchemaLaws}.

(** ** Replaying at a path *)

(** Replayed on a tree with [m] at [ps], [ops] leave [m'] there and change nothing
    else. *)
Definition lands (ps : list string) (m : ModelNode) (ops : list SchemaOp) (m' : ModelNode) : Prop :=
  ∀ r, getAt ps r = Some m → applyOps ops r = inr (setAt ps r m').

Lemma applyOps_app ops ops' r : applyOps (ops ++ ops') r = (r' ← applyOps ops r; applyOps ops' r').
Proof. revert r. induction ops as [|op ops IH]; simpl; intros r; [done|]. destruct (applyOp op r); simpl; [done|apply IH]. Qed.
Lemma lands_nil ps m : lands ps m [] m.
Proof. intros r Hr. simpl. by rewrite setAt_same. Qed.
Lemma lands_app ps m ops m1 ops' m2 : lands ps m ops m1 → lands ps m1 ops' m2 → lands ps m (ops ++ ops') m2.
Proof.
  intros H1 H2 r Hr. rewrite applyOps_app, (H1 _ Hr). simpl. rewrite H2 by by eapply getAt_setAt.
  by erewrite setAt_setAt.
Qed.
Lemma lands_step ps q m c ops c' : step q m = Some c → lands (ps ++ [q]) c ops c' → lands ps m ops (setStep q m c').
Proof.
  intros Hc Hl r Hr. rewrite Hl by by rewrite (getAt_snoc _ _ _ _ Hr). by erewrite setAt_snoc.
Qed.

Definition opBody (op : SchemaOp) : ModelNode → serr + ModelNode :=
  match op_Kind op with
  | KindAddProperty => applyAddProperty op
  | KindBroadenType => applyBroadenType op
  | KindAddArrayItemType => applyAddArrayItemType op
  | KindAddKindBranch => applyAddKindBranch op
  | KindUnknown _ => λ _, inl (SErr "unknown op kind")
  end.
Lemma lands_op op m m' : opBody op m = inr m' → lands (segments (op_Path op)) m [op] m'.
Proof.
  intros Hb r Hr. unfold opBody in Hb. simpl. unfold applyOp.
  destruct (op_Kind op); try done; by rewrite (modifyAt_run _ _ _ _ Hr), Hb.
Qed.

(** ** The order *)

Definition le (a b : ModelNode) : Prop := mergeNode a b = b.

Lemma le_scalar a b A : wf a → wf b → le a b → n_scalar a = Some A → ∃ B, n_scalar b = Some B ∧ joinT A B = B.
Proof.
  intros Ha Hb Hle HA. unfold le in Hle. rewrite mergeNode_eq in Hle by done.
  apply (f_equal n_scalar) in Hle. simpl in Hle. rewrite HA in Hle.
  destruct (n_scalar b) as [B|]; [|done]. exists B. by injection Hle.
Qed.
Lemma le_object a b ma : wf a → wf b → le a b → n_object a = Some ma →
  ∃ mb, n_object b = Some mb ∧ ∀ i x, ma !! i = Some x → ∃ y, mb !! i = Some y ∧ le x y.
Proof.
  intros Ha Hb Hle HA. unfold le in Hle. rewrite mergeNode_eq in Hle by done.
  apply (f_equal n_object) in Hle. simpl in Hle. rewrite HA in Hle.
  destruct (n_object b) as [mb|]; [|done]. exists mb. split; [done|]. injection Hle as Hle.
  intros i x Hx. apply (f_equal (.!! i)) in Hle. rewrite JM_lookup, Hx in Hle.
  destruct (mb !! i) as [y|]; [|done]. exists y. split; [done|]. by injection Hle.
Qed.
Lemma le_array a b ea : wf a → wf b → le a b → n_array a = Some ea →
  ∃ eb, n_array b = Some eb ∧ ∀ x, ea = Some x → ∃ y, eb = Some y ∧ le x y.
Proof.
  intros Ha Hb Hle HA. unfold le in Hle. rewrite mergeNode_eq in Hle by done.
  apply (f_equal n_array) in Hle. simpl in Hle. rewrite HA in Hle.
  destruct (n_array b) as [eb|]; [|done]. exists eb. split; [done|]. injection Hle as Hle.
  intros x ->. destruct eb as [y|]; [|done]. exists y. split; [done|]. by injection Hle.
Qed.
Lemma le_nullable a b : wf a → wf b → le a b → n_nullable a = true → n_scalar b = None → n_nullable b = true.
Proof.
  intros Ha Hb Hle HA HB. unfold le in Hle. rewrite mergeNode_eq in Hle by done.
  apply (f_equal n_nullable) in Hle. simpl in Hle. rewrite HA in Hle. rewrite <- Hle.
  unfold unscaled, hasKind. by rewrite (wf_nullable _ Ha HA), HB.
Qed.
Lemma le_merge_l a b : wf a → wf b → le a (mergeNode a b).
Proof. intros Ha Hb. unfold le. by rewrite <- merge_assoc, merge_idem. Qed.

(** ** Payloads *)

Lemma encode_decode T : T ≠ ∅ →
  ∃ names l, encodeTypeNames T = inr names ∧ DecodeTypeNames (RawNames names) = inr l ∧ list_to_set l = T ∧ l ≠ [].
Proof.
  intros HT. unfold encodeTypeNames. rewrite decide_False by done. rewrite decide_False.
  2:{ intros (d & Hd & _)%list_elem_of_fmap. by destruct (dtString_known d). }
  set (names := merge_sort String.le (dtString <$> elements T)).
  assert (Hp : ∀ ds, parseNames (map dtString ds) = inr ds).
  { induction ds as [|d ds IH]; simpl; [done|]. by rewrite dtString_parse, IH. }
  assert (Hpm : names ≡ₚ map dtString (elements T)) by apply merge_sort_Permutation.
  apply Permutation_map_inv in Hpm as (ds & Hds & Hperm).
  assert (Hne : ds ≠ []). { intros ->. apply Permutation_nil_r in Hperm. by apply elements_empty_inv, leibniz_equiv in Hperm. }
  exists names, ds. split_and!; [done| | |done].
  - rewrite Hds. destruct ds as [|d ds]; [done|]. apply (Hp (d :: ds)).
  - apply set_eq. intros d. rewrite elem_of_list_to_set. by rewrite <- (elem_of_elements T), Hperm.
Qed.

(** ** Scalars *)

Lemma joinT_within O M N : joinT O M = M → N ⊆ O → joinT M N = M.
Proof.
  intros HM Hsub. rewrite <- HM. unfold joinT. rewrite collapse_union. f_equal. set_solver.
Qed.
Lemma joinT_diff O M N : joinT O M = M → joinT M (N ∖ O) = joinT M N.
Proof.
  intros HM. rewrite <- HM. unfold joinT. rewrite !collapse_union. f_equal.
  apply set_eq. intros d. destruct (decide (d ∈ O)); set_solver.
Qed.
Lemma joinT_default (s : option (gset DataType)) N : typesWf N → Some (joinT (default ∅ s) N) = J joinT s (Some N).
Proof. intros HN. destruct s; simpl; [done|]. by rewrite joinT_empty. Qed.
Lemma AddScalarTypes_add T n : T ≠ ∅ → DNull ∉ T →
  AddScalarTypes T n = mkNode (Some (joinT (default ∅ (n_scalar n)) T)) (n_object n) (n_array n) false.
Proof.
  intros HT Hn. unfold AddScalarTypes. assert (Hd : T ∖ {[DNull]} = T) by set_solver. by rewrite Hd, decide_False.
Qed.
Lemma AddScalarTypes_null n : AddScalarTypes {[DNull]} n = SetNullable n.
Proof. unfold AddScalarTypes. rewrite decide_True, decide_True; set_solver. Qed.

Lemma broaden_lands path T m : T ≠ ∅ →
  ∃ op, NewBroadenType path T = inr op ∧ lands (segments path) m [op] (AddScalarTypes T m).
Proof.
  intros (names & l & He & Hd & Hl & _)%encode_decode. unfold NewBroadenType. rewrite He. simpl.
  eexists. split; [done|]. apply (lands_op (mkOp _ _ _ _)). simpl. unfold opBody, applyBroadenType. simpl.
  simpl in Hd. rewrite Hd. simpl. by rewrite Hl.
Qed.

(** The scalar and the marker of [m] joined with those of [new]. *)
Definition scalarDone (m new : ModelNode) : ModelNode :=
  mkNode (J joinT (n_scalar m) (n_scalar new)) (n_object m) (n_array m)
    ((n_nullable m || n_nullable new) && unscaled m && unscaled new).
(** The scalar branch is added last, beside the kinds the old node declares. *)
Definition late (old new : ModelNode) : bool :=
  hasKind new KindLeaf && negb (hasKind old KindLeaf) && negb (bool_decide (Kinds old = [])).

Lemma marker_lands path old new m : wf old → wf m → le old m →
  ∃ ops, (if n_nullable new && negb (n_nullable old) then op ← NewBroadenType path {[DNull]}; inr [op] else inr []) = inr ops ∧
    lands (segments path) m ops (if n_nullable new then SetNullable m else m).
Proof.
  intros Ho Hm Hle. destruct (n_nullable new); simpl; [|eexists; split; [done|apply lands_nil]].
  destruct (n_nullable old) eqn:Hon; simpl.
  - eexists. split; [done|]. assert (HS : SetNullable m = m); [|rewrite HS; apply lands_nil].
    unfold SetNullable. destruct (n_scalar m) eqn:Hs; [done|].
    pose proof (le_nullable _ _ Ho Hm Hle Hon Hs) as Hn. destruct m as [s o a nl]. simpl in *. by subst.
  - destruct (broaden_lands path {[DNull]} m) as (op & -> & Hl); [set_solver|]. simpl. exists [op].
    split; [done|]. by rewrite AddScalarTypes_null in Hl.
Qed.

Lemma SetNullable_done m new : wf m → n_scalar new = None →
  (if n_nullable new then SetNullable m else m) = scalarDone m new.
Proof.
  intros Hm Hn. unfold scalarDone, SetNullable, unscaled, hasKind. rewrite Hn, J_None_r.
  pose proof (wf_nullable m Hm) as Hnl. destruct m as [s o a nl], (n_nullable new); simpl in *; destruct s as [T|], nl;
    try done; by specialize (Hnl eq_refl).
Qed.

Lemma diffScalar_lands path old new m : wf old → wf new → wf m → le old new → le old m →
  ∃ ops, diffScalar path old new = inr ops ∧
    lands (segments path) m ops (if late old new then m else scalarDone m new).
Proof.
  intros Ho Hn Hm Hon Hom. unfold diffScalar. destruct (marker_lands path old new m Ho Hm Hom) as (mk & -> & Hmk). simpl.
  unfold late. destruct (n_scalar new) as [N|] eqn:HN.
  2:{ exists mk. split; [done|]. unfold hasKind at 1. rewrite HN. simpl.
      by rewrite (SetNullable_done m new Hm HN) in Hmk. }
  pose proof (wf_types _ _ Hn HN) as HNwf. pose proof HNwf as (HNne & HNnull & _).
  assert (Hnl : n_nullable new = false).
  { destruct (n_nullable new) eqn:E; [|done]. by rewrite (wf_nullable _ Hn E) in HN. }
  rewrite Hnl in Hmk. unfold hasKind at 1 2. rewrite HN. simpl.
  assert (Hdone : ∀ s', J joinT (n_scalar m) (Some N) = Some s' → scalarDone m new = mkNode (Some s') (n_object m) (n_array m) false).
  { intros s' Hs'. unfold scalarDone, unscaled, hasKind. by rewrite HN, Hs', andb_false_r. }
  assert (Hadd : ∀ A, A ≠ ∅ → DNull ∉ A → Some (joinT (default ∅ (n_scalar m)) A) = J joinT (n_scalar m) (Some N) →
    ∃ ops, (op ← NewBroadenType path A; inr (mk ++ [op])) = inr ops ∧ lands (segments path) m ops (scalarDone m new)).
  { intros A HA HAn HJ. destruct (broaden_lands path A m HA) as (op & -> & Hl). simpl. eexists. split; [done|].
    eapply lands_app; [exact Hmk|]. rewrite (Hdone _ (eq_sym HJ)). by rewrite AddScalarTypes_add in Hl. }
  destruct (n_scalar old) as [O|] eqn:HO; simpl.
  - destruct (le_scalar _ _ _ Ho Hm Hom HO) as (M & HM & HOM). case_decide as Hd.
    + exists mk. split; [done|]. assert (HNO : N ⊆ O) by set_solver.
      replace (scalarDone m new) with m; [done|]. symmetry. rewrite HM in Hdone.
      rewrite (Hdone M) by (unfold J; simpl; by rewrite (joinT_within O)).
      assert (n_nullable m = false) by (destruct (n_nullable m) eqn:E; [by rewrite (wf_nullable _ Hm E) in HM|done]).
      destruct m. simpl in *. by subst.
    + apply Hadd; [done|set_solver|]. rewrite HM. unfold J. simpl. f_equal. by apply joinT_diff.
  - destruct (decide (Kinds old = [])) as [Hk|Hk]; simpl.
    + rewrite bool_decide_eq_true_2 by done. simpl. rewrite decide_False by done. apply Hadd; [done..|]. by apply joinT_default.
    + rewrite bool_decide_eq_false_2 by done. simpl. rewrite decide_True by done. by exists mk.
Qed.

Lemma isolate_leaf n N : wf n → n_scalar n = Some N → isolateBranch n KindLeaf = mkNode (Some N) None None false.
Proof.
  intros Hn HN. unfold isolateBranch. rewrite HN. simpl. rewrite AddScalarTypes_wf by by eapply wf_types.
  simpl. by rewrite joinT_empty by by eapply wf_types.
Qed.
Lemma wf_leaf N : typesWf N → wf (mkNode (Some N) None None false).
Proof. intros HN. constructor; naive_solver. Qed.

(** A branch op decodes to the branch that was isolated. *)
Lemma branch_lands path k new m m' : wf (isolateBranch new k) →
  (∀ b, Unmarshal b = inr (isolateBranch new k) → applyAddKindBranch (NewAddKindBranch path b) m = inr m') →
  ∃ ops, emitAddKindBranch path k new = inr ops ∧ lands (segments path) m ops m'.
Proof.
  intros Hwf Hb. unfold emitAddKindBranch. destruct (codec_roundtrip _ Hwf) as (b & -> & Hu). simpl.
  eexists. split; [done|]. apply (lands_op (NewAddKindBranch path b)). by apply Hb.
Qed.

Lemma leaf_lands path old new m : wf new →
  ∃ ops, diffLeafBranch path old new = inr ops ∧
    lands (segments path) m ops (if late old new then scalarDone m new else m).
Proof.
  intros Hn. unfold diffLeafBranch. fold (late old new).
  destruct (late old new) eqn:Hl; [|eexists; split; [done|apply lands_nil]].
  destruct (n_scalar new) as [N|] eqn:HN; [|unfold late, hasKind in Hl; by rewrite HN in Hl].
  pose proof (wf_types _ _ Hn HN) as HNwf. pose proof (isolate_leaf _ _ Hn HN) as Hi.
  apply branch_lands; [rewrite Hi; by apply wf_leaf|]. rewrite Hi. intros b Hb.
  unfold applyAddKindBranch. simpl. rewrite Hb. simpl. rewrite AddScalarTypes_wf by done. f_equal.
  unfold scalarDone, unscaled, hasKind. rewrite HN, andb_false_r. rewrite <- joinT_default by done.
  by destruct m as [[|] ? ? ?].
Qed.

(** *** Objects *)

Definition withObject (m : ModelNode) (o : option (gmap string ModelNode)) : ModelNode :=
  mkNode (n_scalar m) o (n_array m) (n_nullable m).
Definition withArray (m : ModelNode) (a : option (option ModelNode)) : ModelNode :=
  mkNode (n_scalar m) (n_object m) a (n_nullable m).

Lemma property_lands path name child m mo : wf child → name ≠ "" → n_object m = Some mo →
  ∃ raw, Marshal child = inr raw ∧
    lands (segments path) m [NewAddProperty path name raw]
      (withObject m (Some (<[name := default child (J mergeNode (mo !! name) (Some child))]> mo))).
Proof.
  intros Hc Hname Hmo. destruct (codec_roundtrip _ Hc) as (raw & -> & Hu). exists raw. split; [done|].
  apply (lands_op (NewAddProperty path name raw)). unfold opBody, applyAddProperty. simpl. rewrite Hmo, decide_False by done.
  rewrite Hu. simpl. unfold SetChild, withObject. rewrite Hmo. by destruct (mo !! name).
Qed.

(** What the diff of one child must give. *)
Definition childOk (oldC : gmap string ModelNode) (path name : string) (newC : ModelNode) : Prop :=
  ∀ oc mc, oldC !! name = Some oc → wf mc → le oc mc →
    ∃ ops, diffNode newC (joinSchemaPath path name) oc = inr ops ∧
      lands (segments (joinSchemaPath path name)) mc ops (mergeNode mc newC).

Lemma children_land path oldC (l : list (string * ModelNode)) m mo :
  NoDup l.*1 → n_object m = Some mo →
  (∀ i c, (i, c) ∈ l → i ≠ "" ∧ i ≠ "[]" ∧ splitSlash i = [i] ∧ wf c ∧ childOk oldC path i c) →
  (∀ i c oc, (i, c) ∈ l → oldC !! i = Some oc → ∃ mc, mo !! i = Some mc ∧ wf mc ∧ le oc mc) →
  ∃ ops, foldr (uncurry (λ name newChild rest,
                  ops ← match oldC !! name with
                        | None => raw ← Marshal newChild; inr [NewAddProperty path name raw]
                        | Some oldChild => diffNode newChild (joinSchemaPath path name) oldChild
                        end; ops' ← rest; inr (ops ++ ops'))) (inr []) l = inr ops ∧
    lands (segments path) m ops (withObject m (Some (JM mergeNode mo (list_to_map l)))).
Proof.
  revert m mo. induction l as [|[i c] l IH]; simpl; intros m mo Hnd Hmo Hl Hold.
  { exists []. split; [done|]. unfold JM. rewrite (right_id_L ∅ (union_with _)). destruct m. simpl in *. subst. apply lands_nil. }
  apply NoDup_cons in Hnd as [Hi Hnd].
  destruct (Hl i c) as (Hne & Hnb & Hsp & Hc & Hok); [set_solver|].
  assert (Hhead : ∃ ops, match oldC !! i with
      | None => raw ← Marshal c; inr [NewAddProperty path i raw]
      | Some oldChild => diffNode c (joinSchemaPath path i) oldChild end = inr ops ∧
      lands (segments path) m ops (withObject m (Some (<[i := default c (J mergeNode (mo !! i) (Some c))]> mo)))).
  { destruct (oldC !! i) as [oc|] eqn:Hoc.
    - destruct (Hold i c oc) as (mc & Hmc & Hwmc & Hle); [set_solver|done|].
      destruct (Hok oc mc Hoc Hwmc Hle) as (ops & Hd & Hland). exists ops. split; [done|].
      rewrite segments_join in Hland by by split.
      assert (Hst : step i m = Some mc) by (unfold step; rewrite !decide_False, Hmo by done; done).
      pose proof (lands_step _ _ _ _ _ _ Hst Hland) as Hfin. unfold setStep in Hfin. rewrite decide_False in Hfin by done.
      unfold SetChild in Hfin. rewrite Hmo in Hfin. rewrite Hmc. exact Hfin.
    - destruct (property_lands path i c m mo Hc Hne Hmo) as (raw & -> & Hland). simpl. eexists. by split. }
  destruct Hhead as (ops1 & -> & Hl1). simpl.
  set (mo1 := <[i := default c (J mergeNode (mo !! i) (Some c))]> mo) in *.
  destruct (IH (withObject m (Some mo1)) mo1) as (ops2 & -> & Hl2); [done|done|set_solver| |].
  { intros j cj oc Hj Hoc. assert (j ≠ i) by (intros ->; apply Hi; apply list_elem_of_fmap; by exists (i, cj)).
    unfold mo1. rewrite lookup_insert_ne by done. apply (Hold j cj oc); [set_solver|done]. }
  simpl. exists (ops1 ++ ops2). split; [done|]. eapply lands_app; [exact Hl1|].
  replace (JM mergeNode mo (<[i:=c]> (list_to_map l))) with (JM mergeNode mo1 (list_to_map l)); [done|].
  apply map_eq. intros j. rewrite !JM_lookup. unfold mo1. destruct (decide (i = j)) as [->|Hij].
  - rewrite !lookup_insert_eq. rewrite not_elem_of_list_to_map_1 by done. rewrite J_None_r. by destruct (mo !! j).
  - by rewrite !lookup_insert_ne.
Qed.

Lemma wf_object_only m : (∀ i c, m !! i = Some c → i ≠ "" ∧ i ≠ "[]" ∧ splitSlash i = [i] ∧ wf c) →
  wf (mkNode None (Some m) None false).
Proof.
  intros Hm. constructor; try naive_solver.
Qed.
Lemma wf_array_only e : (∀ x, e = Some x → wf x) → wf (mkNode None None (Some e) false).
Proof. intros He. constructor; naive_solver. Qed.

Definition objectDiff (newN : ModelNode) (path : string) (oldN : ModelNode) : serr + list SchemaOp :=
  match n_object newN, n_object oldN with
  | None, _ => inr []
  | Some _, None => emitAddKindBranch path KindObject newN
  | Some newChildren, Some oldChildren =>
      ops ← map_fold (λ name newChild rest,
          ops ← match oldChildren !! name with
                | None => raw ← Marshal newChild; inr [NewAddProperty path name raw]
                | Some oldChild => diffNode newChild (joinSchemaPath path name) oldChild
                end;
          ops' ← rest; inr (ops ++ ops')) (inr []) newChildren;
      if decide (dom oldChildren ⊆ dom newChildren) then inr ops
      else inl (SErr "property removal")
  end.

Lemma object_lands path old new m : wf old → wf new → le old new →
  (∀ oo, n_object old = Some oo → ∃ mo, n_object m = Some mo ∧
     ∀ i x, oo !! i = Some x → ∃ y, mo !! i = Some y ∧ wf y ∧ le x y) →
  (∀ nc i c, n_object new = Some nc → nc !! i = Some c →
     ∀ oc path mc, wf oc → wf mc → le oc c → le oc mc →
       ∃ ops, diffNode c path oc = inr ops ∧ lands (segments path) mc ops (mergeNode mc c)) →
  ∃ ops, objectDiff new path old = inr ops ∧
    lands (segments path) m ops (withObject m (J (JM mergeNode) (n_object m) (n_object new))).
Proof.
  intros Ho Hn Hle Hm IH. unfold objectDiff. destruct (n_object new) as [nc|] eqn:HN.
  2:{ exists []. split; [done|]. rewrite J_None_r. destruct m. apply lands_nil. }
  destruct (n_object old) as [oo|] eqn:HO.
  - destruct (Hm oo eq_refl) as (mo & Hmo & Hin). rewrite map_fold_foldr.
    destruct (le_object _ _ _ Ho Hn Hle HO) as (nc' & HN' & Hsub). rewrite HN in HN'. injection HN' as <-.
    destruct (children_land path oo (map_to_list nc) m mo) as (ops & Hops & Hl); [apply NoDup_fst_map_to_list|done|..].
    + intros i c Hic%elem_of_map_to_list. destruct (wf_name _ _ _ _ Hn HN Hic) as (? & ? & ?). split_and!; [done..| |].
      * by eapply wf_child.
      * intros oc mc Hoc Hmc Hlm. destruct (Hsub _ _ Hoc) as (y & Hy & Hley). rewrite Hic in Hy. injection Hy as <-.
        apply (IH nc i c eq_refl Hic oc); [by eapply (wf_child old)|done..].
    + intros i c oc Hic%elem_of_map_to_list Hoc. destruct (Hin _ _ Hoc) as (y & ? & ? & ?). by exists y.
    + exists ops. rewrite Hops. simpl. rewrite decide_True.
      * split; [done|]. rewrite list_to_map_to_list in Hl. by rewrite Hmo.
      * intros i. rewrite !elem_of_dom. intros [x Hx]. destruct (Hsub _ _ Hx) as (y & Hy & _). by exists y.
  - assert (Hi : isolateBranch new KindObject = mkNode None (Some nc) None false).
    { unfold isolateBranch. by rewrite HN. }
    apply branch_lands; rewrite Hi.
    + apply wf_object_only. intros i c Hc. destruct (wf_name _ _ _ _ Hn HN Hc) as (? & ? & ?).
      split_and!; [done..|]. by eapply wf_child.
    + intros b Hb. unfold applyAddKindBranch. simpl. rewrite Hb. simpl. f_equal. unfold withObject. f_equal.
      destruct (n_object m); simpl; [done|]. unfold J. simpl. by rewrite (left_id_L ∅ (union_with _)).
Qed.

(** *** Arrays *)

Lemma scalarOnly_cases n : wf n → isScalarOnly n = true →
  (∃ N, typesWf N ∧ n = mkNode (Some N) None None false) ∨ n = mkNode None None None true.
Proof.
  intros Hn Hs. pose proof (wf_declares _ Hn) as Hd. pose proof (wf_nullable _ Hn) as Hnl.
  pose proof (wf_types n) as Ht. unfold isScalarOnly, Kinds, hasKind in *.
  destruct n as [[N|] [|] [|] nl]; simpl in *; try done.
  - left. exists N. split; [by apply Ht|]. destruct nl; [by specialize (Hnl eq_refl)|done].
  - right. destruct nl; [done|]. naive_solver.
Qed.

Lemma add_declared ne e : wf ne → wf e → isScalarOnly ne = true →
  AddScalarTypes (DeclaredTypes ne) e = mergeNode e ne.
Proof.
  intros Hn He Hs. destruct (scalarOnly_cases _ Hn Hs) as [(N & HN & ->)| ->]; unfold DeclaredTypes; simpl n_scalar; simpl n_nullable.
  - rewrite AddScalarTypes_wf, mergeNode_eq by done. simpl. rewrite joinT_default, !J_None_r by done.
    f_equal. unfold unscaled, hasKind. simpl. by rewrite andb_false_r.
  - rewrite AddScalarTypes_null, mergeNode_eq by done. simpl. rewrite !J_None_r.
    unfold SetNullable, unscaled, hasKind. simpl. pose proof (wf_nullable _ He).
    destruct e as [[|] ? ? []]; simpl in *; naive_solver.
Qed.
(** Widening an element that the old element is below by what the old one lacks. *)
Lemma widen_element oe ne e : wf oe → wf ne → wf e → isScalarOnly oe = true → isScalarOnly ne = true →
  le oe ne → le oe e →
  (if decide (DeclaredTypes ne ∖ DeclaredTypes oe = ∅) then e else AddScalarTypes (DeclaredTypes ne ∖ DeclaredTypes oe) e)
  = mergeNode e ne.
Proof.
  intros Ho Hn He Hso Hsn Hon Hoe.
  destruct (scalarOnly_cases _ Hn Hsn) as [(N & HN & ->)| ->].
  - assert (Hmerge : mergeNode e (mkNode (Some N) None None false) =
        mkNode (Some (joinT (default ∅ (n_scalar e)) N)) (n_object e) (n_array e) false).
    { rewrite <- add_declared by done. by apply AddScalarTypes_wf. }
    rewrite Hmerge. pose proof HN as (HNne & HNnull & _).
    destruct (scalarOnly_cases _ Ho Hso) as [(O & HO & ->)| ->]; unfold DeclaredTypes; simpl.
    + destruct (le_scalar _ _ O Ho He Hoe eq_refl) as (M & HM & HOM). rewrite HM. simpl.
      assert (Hnl : n_nullable e = false).
      { destruct (n_nullable e) eqn:E; [by rewrite (wf_nullable _ He E) in HM|done]. }
      case_decide as Hd.
      * rewrite (joinT_within O) by (done || set_solver). destruct e. simpl in *. by subst.
      * rewrite AddScalarTypes_add by set_solver. rewrite HM. simpl. by rewrite joinT_diff.
    + assert (Hd : N ∖ {[DNull]} = N) by set_solver. rewrite Hd, decide_False by done.
      by rewrite AddScalarTypes_wf.
  - destruct (scalarOnly_cases _ Ho Hso) as [(O & HO & ->)| ->].
    + destruct (le_scalar _ _ O Ho Hn Hon eq_refl) as (M & HM & _). done.
    + unfold DeclaredTypes. simpl. rewrite decide_True by set_solver. by rewrite merge_comm.
Qed.
(** Establishing an element from its types. *)
Lemma fresh_element ne l : wf ne → isScalarOnly ne = true → list_to_set l = DeclaredTypes ne → l ≠ [] →
  match l with [] => ne | t :: ts => AddScalarTypes (list_to_set ts) (NewLeafNode t) end = ne.
Proof.
  intros Hn Hs Hl Hne. destruct l as [|t ts]; [done|]. simpl in Hl. unfold NewLeafNode.
  destruct (scalarOnly_cases _ Hn Hs) as [(N & (HN & HNn & HNc) & ->)| ->]; unfold DeclaredTypes in Hl; simpl in Hl.
  - assert (t ≠ DNull) by set_solver. rewrite decide_False by done.
    destruct (decide (list_to_set (C:=gset DataType) ts = ∅)) as [He|He].
    + rewrite He, AddScalarTypes_empty. do 2 f_equal. set_solver.
    + rewrite AddScalarTypes_add by set_solver. simpl. unfold joinT. by rewrite Hl, HNc.
  - assert (t = DNull) as -> by set_solver. rewrite decide_True by done.
    destruct (decide (list_to_set (C:=gset DataType) ts = ∅)) as [He|He]; [by rewrite He, AddScalarTypes_empty|].
    assert (Ht : list_to_set (C:=gset DataType) ts = {[DNull]}).
    { apply set_eq. intros d. split; [set_solver|]. apply set_choose_L in He as [x Hx]. set_solver. }
    by rewrite Ht, AddScalarTypes_null.
Qed.

Definition arrayDiff (newN : ModelNode) (path : string) (oldN : ModelNode) : serr + list SchemaOp :=
  match n_array newN, n_array oldN with
  | None, _ => inr []
  | Some _, None => emitAddKindBranch path KindArray newN
  | Some newElem, Some oldElem =>
      diffArray (λ path' oe, match newElem with Some ne => diffNode ne path' oe | None => inr [] end)
        path newN oldElem newElem
  end.

Lemma array_branch_lands path new m ea : wf new → n_array new = Some ea →
  ∃ ops, emitAddKindBranch path KindArray new = inr ops ∧
    lands (segments path) m ops (withArray m (J (J mergeNode) (n_array m) (Some ea))).
Proof.
  intros Hn Ha.
  assert (Hi : isolateBranch new KindArray = mkNode None None (Some ea) false).
  { unfold isolateBranch. rewrite Ha. by destruct ea. }
  apply branch_lands; rewrite Hi.
  - apply wf_array_only. intros x ->. by eapply wf_elem.
  - intros b Hb. unfold applyAddKindBranch. simpl. rewrite Hb. simpl. f_equal. unfold withArray.
    by destruct ea, m as [? ? [[|]|] ?].
Qed.

Lemma item_lands path T m ea : T ≠ ∅ → n_array m = Some ea →
  ∃ op l, NewAddArrayItemType path T = inr op ∧ list_to_set l = T ∧ l ≠ [] ∧
    lands (segments path) m [op] (withArray m (Some (Some match ea, l with
      | Some e, _ => AddScalarTypes T e
      | None, t :: ts => AddScalarTypes (list_to_set ts) (NewLeafNode t)
      | None, [] => emptyNode end))).
Proof.
  intros (names & l & He & Hd & Hl & Hne)%encode_decode Hm. unfold NewAddArrayItemType. rewrite He. simpl.
  eexists _, l. split_and!; [done..|]. apply (lands_op (mkOp _ _ _ _)). unfold opBody, applyAddArrayItemType. simpl.
  rewrite Hm. simpl in Hd. rewrite Hd. simpl. destruct ea, l; simpl; try done; by rewrite <- Hl.
Qed.

Lemma array_lands path old new m : wf old → wf new → le old new →
  (∀ oe, n_array old = Some oe → ∃ me, n_array m = Some me ∧
     (∀ y, me = Some y → wf y) ∧ ∀ x, oe = Some x → ∃ y, me = Some y ∧ le x y) →
  (∀ c, n_array new = Some (Some c) →
     ∀ oc path mc, wf oc → wf mc → le oc c → le oc mc →
       ∃ ops, diffNode c path oc = inr ops ∧ lands (segments path) mc ops (mergeNode mc c)) →
  ∃ ops, arrayDiff new path old = inr ops ∧
    lands (segments path) m ops (withArray m (J (J mergeNode) (n_array m) (n_array new))).
Proof.
  intros Ho Hn Hle Hm IH. unfold arrayDiff. destruct (n_array new) as [ea|] eqn:HN.
  2:{ exists []. split; [done|]. rewrite J_None_r. destruct m. apply lands_nil. }
  destruct (n_array old) as [oe|] eqn:HO; [|by apply array_branch_lands].
  destruct (Hm oe eq_refl) as (me & Hme & Hwme & Hin). rewrite Hme. unfold diffArray.
  destruct (le_array _ _ _ Ho Hn Hle HO) as (ea' & HN' & Hsub). rewrite HN in HN'. injection HN' as <-.
  destruct oe as [oc|], ea as [nc|].
  - destruct (Hsub oc eq_refl) as (y & [= <-] & Hon). destruct (Hin oc eq_refl) as (mc & -> & Hom).
    pose proof (wf_elem _ _ Ho HO) as Hwo. pose proof (wf_elem _ _ Hn HN) as Hwn.
    assert (Hwm : wf mc) by auto. unfold J. simpl. case_if Hb.
    + apply andb_true_iff in Hb as [Hso Hsn].
      pose proof (widen_element _ _ _ Hwo Hwn Hwm Hso Hsn Hon Hom) as Hw. case_decide as Hd.
      * exists []. split; [done|]. rewrite <- Hw. replace (withArray m (Some (Some mc))) with m; [apply lands_nil|].
        destruct m. simpl in *. by subst.
      * destruct (item_lands path _ m _ Hd Hme) as (op & l & -> & _ & _ & Hl). simpl. exists [op]. split; [done|].
        by rewrite Hw in Hl.
    + destruct (IH nc eq_refl oc (joinSchemaPath path "[]") mc) as (ops & Hd & Hl); [done..|].
      exists ops. split; [done|]. rewrite segments_join in Hl by apply segment_elem.
      assert (Hst : step "[]" m = Some mc) by (unfold step; simpl; by rewrite Hme).
      exact (lands_step _ _ _ _ _ _ Hst Hl).
  - by destruct (Hsub oc eq_refl) as (y & ? & _).
  - pose proof (wf_elem _ _ Hn HN) as Hwn. case_if Hb.
    { rewrite <- Hme. by apply array_branch_lands. }
    assert (Hsn : isScalarOnly nc = true) by (unfold isScalarOnly; by destruct (hasKind nc KindObject), (hasKind nc KindArray)).
    assert (HT : DeclaredTypes nc ≠ ∅).
    { destruct (scalarOnly_cases _ Hwn Hsn) as [(N & (? & _) & ->)| ->]; unfold DeclaredTypes; simpl; [done|set_solver]. }
    destruct (item_lands path _ m _ HT Hme) as (op & l & -> & Hl & Hne & Hland). simpl. exists [op]. split; [done|].
    destruct me as [mc|]; unfold J; simpl.
    + by rewrite add_declared in Hland by auto.
    + pose proof (fresh_element nc l Hwn Hsn Hl Hne) as Hf. destruct l as [|t ts]; [done|]. by rewrite Hf in Hland.
  - exists []. split; [done|]. unfold J. simpl. replace (union_with _ me None) with me by by destruct me.
    replace (withArray m (Some me)) with m; [apply lands_nil|]. destruct m. simpl in *. by subst.
Qed.

(** ** The diff of two versions on a third *)

Lemma additive_ok old new : wf old → wf new → le old new → additiveAt old new = inr tt.
Proof.
  intros Ho Hn Hle. unfold additiveAt. rewrite decide_False.
  - destruct (n_nullable old) eqn:Hnl; [|done]. unfold hasKind. destruct (n_scalar new) eqn:HS; [by rewrite andb_false_r|].
    by rewrite (le_nullable _ _ Ho Hn Hle Hnl HS).
  - intros (k & [Hk _]%list_elem_of_filter & Hnk)%Exists_exists. destruct k; simpl in *.
    + destruct (n_scalar old) eqn:E; [|done]. by destruct (le_scalar _ _ _ Ho Hn Hle E) as (? & HB & _); rewrite HB in Hnk.
    + destruct (n_object old) eqn:E; [|done]. by destruct (le_object _ _ _ Ho Hn Hle E) as (? & HB & _); rewrite HB in Hnk.
    + destruct (n_array old) eqn:E; [|done]. by destruct (le_array _ _ _ Ho Hn Hle E) as (? & HB & _); rewrite HB in Hnk.
Qed.

Lemma diffNode_eq newN path oldN :
  diffNode newN path oldN =
  (_ ← additiveAt oldN newN; scalar ← diffScalar path oldN newN; object ← objectDiff newN path oldN;
   array ← arrayDiff newN path oldN; leaf ← diffLeafBranch path oldN newN;
   inr (scalar ++ object ++ array ++ leaf)).
Proof. by destruct newN. Qed.

Lemma diff_lands new : wf new → ∀ old path m, wf old → wf m → le old new → le old m →
  ∃ ops, diffNode new path old = inr ops ∧ lands (segments path) m ops (mergeNode m new).
Proof.
  induction new as [s o a nl IHo IHa] using node_ind. set (new := mkNode s o a nl) in *.
  intros Hn old path m Ho Hm Hon Hom. rewrite diffNode_eq, additive_ok by done.
  destruct (diffScalar_lands path old new m) as (ops1 & E1 & H1); [done..|].
  set (m1 := if late old new then m else scalarDone m new) in *.
  assert (Hm1o : n_object m1 = n_object m) by (unfold m1; by destruct (late old new)).
  assert (Hm1a : n_array m1 = n_array m) by (unfold m1; by destruct (late old new)).
  destruct (object_lands path old new m1) as (ops2 & E2 & H2); [done..| | |].
  { intros oo Hoo. destruct (le_object _ _ _ Ho Hm Hom Hoo) as (mo & Hmo & Hsub). exists mo. split; [congruence|].
    intros i x Hx. destruct (Hsub _ _ Hx) as (y & Hy & ?). exists y. split_and!; [done| |done]. by eapply (wf_child m). }
  { intros nc i c Hnc Hc oc path' mc Hoc Hmc Hl Hl'. eapply IHo; [exact Hnc|exact Hc| |done..]. by eapply (wf_child new). }
  set (m2 := withObject m1 _) in *.
  destruct (array_lands path old new m2) as (ops3 & E3 & H3); [done..| | |].
  { intros oe Hoe. destruct (le_array _ _ _ Ho Hm Hom Hoe) as (me & Hme & Hsub). exists me.
    split_and!; [simpl; congruence| |done]. intros y ->. by eapply wf_elem. }
  { intros c Hc oc path' mc Hoc Hmc Hl Hl'. eapply IHa; [exact Hc| |done..]. by eapply (wf_elem new). }
  set (m3 := withArray m2 _) in *. destruct (leaf_lands path old new m3 Hn) as (ops4 & E4 & H4).
  rewrite E1, E2, E3, E4. simpl. eexists. split; [done|].
  eapply lands_app; [exact H1|]. eapply lands_app; [exact H2|]. eapply lands_app; [exact H3|].
  replace (mergeNode m new) with (if late old new then scalarDone m3 new else m3); [done|].
  rewrite mergeNode_eq by done. unfold m3, m2, m1, scalarDone, withArray, withObject.
  by destruct (late old new).
Qed.

(** The delta one writer computes replays, on every version above the one it
    was computed against, to the join of that version with the writer's growth. *)
Lemma diff_replays base y : wf base → wf y →
  ∃ d, Diff (Some base) (Some (mergeNode base y)) = inr d ∧
    ∀ w, wf w → le base w → applyOps d w = inr (mergeNode w y) ∧ Apply (Some w) d = inr (mergeNode w y).
Proof.
  intros Hb Hy. destruct (diff_lands (mergeNode base y) (merge_wf _ _ Hb Hy) base "" base) as (d & Hd & _);
    [done..|by apply le_merge_l|by apply merge_idem|]. exists d. split; [done|]. intros w Hw Hbw.
  destruct (diff_lands (mergeNode base y) (merge_wf _ _ Hb Hy) base "" w) as (d' & Hd' & Hl); [done..|by apply le_merge_l|done|].
  assert (d' = d) as -> by congruence.
  assert (Hj : mergeNode w (mergeNode base y) = mergeNode w y).
  { rewrite <- merge_assoc, (merge_comm w base) by done. by rewrite Hbw. }
  pose proof (Hl w eq_refl) as Hops. simpl in Hops. rewrite Hj in Hops. split; [exact Hops|].
  unfold Apply, cloneNode. destruct (codec_roundtrip _ Hw) as (b & -> & Hu). simpl. by rewrite Hu.
Qed.

(** C4. Deltas commute.  Take any model version, an extension [x] of it one writer
    observes and an extension [z] another observes.  The first writer's diff exists,
    and replayed on the version the second writer's extension produced it gives
    the join of both: with no [z] it gives the first writer's own result, replayed
    twice it gives the same, and two concurrent deltas folded in either order give
    the same model. *)
Theorem delta_commutes base x z : wf base → wf x → wf z →
  ∃ d, Diff (Some base) (Some (mergeNode base x)) = inr d ∧
    Apply (Some base) d = inr (mergeNode base x) ∧
    Apply (Some (mergeNode base z)) d = inr (mergeNode (mergeNode base z) x) ∧
    ∀ d', Diff (Some base) (Some (mergeNode base z)) = inr d' →
      Apply (Some (mergeNode base x)) d' = Apply (Some (mergeNode base z)) d.
Proof.
  intros Hb Hx Hz.
  destruct (diff_replays base x Hb Hx) as (d & Hd & Hap). exists d. split_and!; [done|..].
  - apply Hap; [done|by apply merge_idem].
  - apply Hap; [by apply merge_wf|by apply le_merge_l].
  - intros d' Hd'. destruct (diff_replays base z Hb Hz) as (d'' & Hd'' & Hap'). assert (d'' = d') as -> by congruence.
    rewrite (proj2 (Hap _ (merge_wf _ _ Hb Hz) (le_merge_l _ _ Hb Hz))).
    rewrite (proj2 (Hap' _ (merge_wf _ _ Hb Hx) (le_merge_l _ _ Hb Hx))). f_equal.
    rewrite !merge_assoc by done. by rewrite (merge_comm x z).
Qed.
End Delta.
