(* ===== verification/SchemaAdmit.v ===== *)
(** * Admitting documents: [Admit], [Extend], [Validate]

    [admit.go], [extend.go], [validate.go], [fieldname.go], [segment_name.go] of
    [internal/domain/model/schema]: one traversal of a decoded document against a
    model node reports what the model would have to become to hold it; [Extend]
    performs the change when the change level permits it, [Validate] renders it as
    errors.

    A document is the decoder's output; an object is the list of its fields in the
    order the runtime enumerates them.  The traversal is bounded by
    [MaxValidationDepth]: [walk] recurses on the levels left, which is the
    guard of the code and not a device of the model.  Decimal arithmetic and the
    classifiers of numbers and temporal strings belong to the storage contract and
    are operations of the class [Classifier]. *)

From Stdlib Require Import Ascii.
From stdpp Require Import base gmap strings list pretty.
From S2P Require Import Prelude Schema.

(** ** Documents *)

Inductive JSON : Type :=
| JNull
| JObject (fields : list (string * JSON))
| JArray (items : list JSON)
| JNumber (lit : string)
| JString (s : string)
| JBool (b : bool)
| JFloat64
| JOther (type : string).

Class Classifier := {
  Decimal : Type;
  ParseDecimal : string → option Decimal;
  StripTrailingZeros : Decimal → Decimal;
  Scale : Decimal → Z;
  Precision : Decimal → Z;
  Unscaled : Decimal → Z;
  ClassifyInteger : Z → DataType;
  ClassifyDecimal : Decimal → DataType;
  AdmitsNumeric : DataType → Decimal → bool;
  ClassifyTemporalString : string → option DataType }.

(** ** Change levels *)

Inductive ChangeLevel : Type :=
| LevelNone | ChangeLevelArrayLength | ChangeLevelArrayElements | ChangeLevelType | ChangeLevelStructural.
Definition changeLevelRank (l : ChangeLevel) : Z :=
  match l with
  | ChangeLevelArrayLength => 0
  | ChangeLevelArrayElements => 1
  | ChangeLevelType => 2
  | ChangeLevelStructural => 3
  | LevelNone => -1
  end.
Definition levelPermits (configured required : ChangeLevel) : bool :=
  bool_decide (changeLevelRank required ≤ changeLevelRank configured)%Z.

Inductive ChangeReason : Type :=
| ReasonLeafType | ReasonNewField | ReasonNewKind | ReasonArrayElement | ReasonNullable | ReasonInvalidFieldName.
#[export] Instance ChangeReason_eq_dec : EqDecision ChangeReason.
Proof. solve_decision. Defined.

(** [DeclaredKinds] as the list of names the message joins. *)
Record Change := mkChange {
  ch_Path : string; ch_DocPath : string; ch_Reason : ChangeReason; ch_Required : ChangeLevel;
  ch_Observed : option DataType; ch_Declared : gset DataType; ch_DeclaredKinds : list string; ch_Value : JSON }.

Inductive ErrorKind : Type := ErrKindGeneric | ErrKindUnknownElement | ErrKindIncompatibleType.
#[export] Instance ErrorKind_eq_dec : EqDecision ErrorKind.
Proof. solve_decision. Defined.
Record ValidationError := mkVErr {
  ve_Path : string; ve_Kind : ErrorKind; ve_ExpectedTypes : gset DataType; ve_ActualType : option DataType }.

(** ** Field names *)

Definition IsSegmentNameByte (b : ascii) : bool :=
  let n := Ascii.N_of_ascii b in
  bool_decide (97 ≤ n ≤ 122)%N || bool_decide (65 ≤ n ≤ 90)%N || bool_decide (48 ≤ n ≤ 57)%N ||
  bool_decide (n = 95)%N || bool_decide (n = 45)%N.
Fixpoint allBytes (p : ascii → bool) (s : string) : bool :=
  match s with EmptyString => true | String c s' => p c && allBytes p s' end.
Definition IsSegmentName (s : string) : bool :=
  if decide (s = "") then false else allBytes IsSegmentNameByte s.
Definition ValidateFieldName (parent name : string) : serr + unit :=
  if IsSegmentName name then inr tt else inl (SFieldName parent name).

(** The kinds named in the order of the message; none is "no value". *)
Definition declaredKindNames (n : ModelNode) : list string :=
  (if hasKind n KindObject then ["object"] else []) ++ (if hasKind n KindArray then ["array"] else []) ++
  (if hasKind n KindLeaf then ["scalar"] else []).

Definition MaxValidationDepth : nat := 256.

Section Admit.
Context `{SchemaSPI} {K : Classifier}.

(** ** Classification *)

Definition inferDataType (v : JSON) : DataType :=
  match v with
  | JBool _ => DBoolean
  | JNumber lit =>
      match ParseDecimal lit with
      | None => DString
      | Some d =>
          let stripped := StripTrailingZeros d in
          if decide (Scale stripped ≤ 0)%Z then
            if decide (Scale stripped = 0)%Z then ClassifyInteger (Unscaled stripped)
            else if decide (39 < Precision stripped + - Scale stripped)%Z then DUnboundInteger
            else ClassifyInteger (Unscaled stripped * 10 ^ (- Scale stripped))
          else ClassifyDecimal stripped
      end
  | JString s => default DString (ClassifyTemporalString s)
  | JNull => DNull
  | _ => DString
  end.

Definition holdsScalar (declared : gset DataType) (v : JSON) : bool :=
  match v with
  | JNumber lit =>
      match ParseDecimal lit with
      | None => false
      | Some dec => existsb (λ dt, AdmitsNumeric dt dec) (elements declared)
      end
  | JString s =>
      existsb (λ dt, bool_decide (dt = DString) || bool_decide (ClassifyTemporalString s = Some dt)) (elements declared)
  | JBool _ => existsb (λ dt, bool_decide (dt = DBoolean)) (elements declared)
  | _ => false
  end.

(** ** The traversal *)

(** The state is the list of changes recorded so far. *)
Local Notation AM := (M serr (list Change)).
Definition record (c : Change) : AM unit := modify (λ cs, cs ++ [c]).

(** A nested admitter: of its changes only invalid field names reach the outer
    one, also when it fails. *)
Definition inner {A} (m : AM A) : AM A := λ cs,
  let '(r, cs') := m [] in (r, cs ++ filter (λ c, ch_Reason c = ReasonInvalidFieldName) cs').

Definition isContainer (v : JSON) : bool := match v with JObject _ | JArray _ => true | _ => false end.
Definition isScalar (v : JSON) : bool := match v with JNumber _ | JString _ | JBool _ => true | _ => false end.

Section Walk.
(** [visit (Some n)] admits a value against [n], [visit None] describes a new one,
    both one level down. *)
Context (continueOnInvalidName : bool).
Context (visit : option ModelNode → JSON → string → string → ChangeLevel → AM (option ModelNode)).

Definition null (model : ModelNode) (path docPath : string) (lvl : ChangeLevel) : AM (option ModelNode) :=
  if n_nullable model || hasKind model KindLeaf then mret None else
  record (mkChange path docPath ReasonNullable lvl (Some DNull) (DeclaredTypes model) (declaredKindNames model) JNull);;
  mret (Some (SetNullable (NewLeafNode DNull))).

Fixpoint object (model : ModelNode) (children : gmap string ModelNode) (fields : list (string * JSON))
    (path docPath : string) (overlay : option ModelNode) : AM (option ModelNode) :=
  match fields with
  | [] => mret overlay
  | (name, val) :: rest =>
      let childPath := (path +:+ "." +:+ name)%string in
      let childDocPath := (docPath +:+ "." +:+ name)%string in
      let ensure := default NewObjectNode overlay in
      match children !! name with
      | None =>
          match ValidateFieldName path name with
          | inl e =>
              if continueOnInvalidName then
                record (mkChange childPath childDocPath ReasonInvalidFieldName ChangeLevelStructural None ∅
                          (declaredKindNames model) val);;
                object model children rest path docPath overlay
              else fail e
          | inr _ =>
              record (mkChange childPath childDocPath ReasonNewField ChangeLevelStructural None ∅
                        (declaredKindNames model) val);;
              derived ← visit None val childPath childDocPath ChangeLevelType;
              match derived with
              | Some d => object model children rest path docPath (Some (SetChild name d ensure))
              | None => panic "describeAt returned nil"
              end
          end
      | Some child =>
          childOverlay ← visit (Some child) val childPath childDocPath ChangeLevelType;
          object model children rest path docPath
            (match childOverlay with Some o => Some (SetChild name o ensure) | None => overlay end)
      end
  end.

(** The elements in order; [target] is the element the array declares. *)
Fixpoint items (target : option ModelNode) (arr : list JSON) (i : nat) (elemPath docPath : string)
    (overlay : option ModelNode) : AM (option ModelNode) :=
  match arr with
  | [] => mret overlay
  | item :: rest =>
      let itemDocPath := (docPath +:+ "[" +:+ pretty i +:+ "]")%string in
      derived ← visit target item elemPath itemDocPath ChangeLevelArrayElements;
      items target rest (S i) elemPath docPath (Merge overlay derived)
  end.

Definition array (model : ModelNode) (element : option ModelNode) (arr : list JSON) (path docPath : string) :
    AM (option ModelNode) :=
  let elemPath := (path +:+ "[]")%string in
  elemOverlay ←
    match element with
    | None =>
        record (mkChange path docPath ReasonArrayElement ChangeLevelArrayElements None ∅
                  (declaredKindNames model) (JArray arr));;
        match arr with
        | [] => mret (Some (NewLeafNode DNull))
        | _ => items None arr 0 elemPath docPath None
        end
    | Some e => items (Some e) arr 0 elemPath docPath None
    end;
  mret (match elemOverlay with Some e => Some (NewArrayNode (Some e)) | None => None end).

(** What a leaf value is against a node that declares nothing. *)
Definition describeLeaf (data : JSON) (path docPath : string) : AM (option ModelNode) :=
  match data with
  | JNull => null emptyNode path docPath ChangeLevelType
  | JFloat64 | JOther _ => fail (SUnsupported path)
  | _ =>
      record (mkChange path docPath ReasonNewKind ChangeLevelType (Some (inferDataType data)) ∅ [] data);;
      mret (Some (NewLeafNode (inferDataType data)))
  end.

Definition describeAt (v : JSON) (path docPath : string) : AM (option ModelNode) :=
  inner match v with
        | JObject fields =>
            overlay ← object NewObjectNode ∅ fields path docPath None;
            mret (Some (default NewObjectNode overlay))
        | JArray arr => array (NewArrayNode None) None arr path docPath
        | _ => describeLeaf v path docPath
        end.

Definition wrongKind (model : ModelNode) (data : JSON) (path docPath : string) (lvl : ChangeLevel) : AM (option ModelNode) :=
  let required := if decide (Kinds model = []) then lvl else ChangeLevelStructural in
  let observed := if isScalar data then Some (inferDataType data) else None in
  record (mkChange path docPath ReasonNewKind required observed (DeclaredTypes model) (declaredKindNames model) data);;
  if isContainer data then describeAt data path docPath
  else mret (Some (NewLeafNode (inferDataType data))).

Definition scalar (model : ModelNode) (data : JSON) (path docPath : string) (lvl : ChangeLevel) : AM (option ModelNode) :=
  match n_scalar model with
  | None => wrongKind model data path docPath lvl
  | Some types =>
      if holdsScalar types data then mret None else
      record (mkChange path docPath ReasonLeafType lvl (Some (inferDataType data)) types (declaredKindNames model) data);;
      mret (Some (NewLeafNode (inferDataType data)))
  end.

Definition node (model : ModelNode) (data : JSON) (path docPath : string) (lvl : ChangeLevel) : AM (option ModelNode) :=
  match data with
  | JNull => null model path docPath lvl
  | JObject fields =>
      match n_object model with
      | None => wrongKind model data path docPath lvl
      | Some children => object model children fields path docPath None
      end
  | JArray arr =>
      match n_array model with
      | None => wrongKind model data path docPath lvl
      | Some element => array model element arr path docPath
      end
  | JFloat64 | JOther _ => fail (SUnsupported path)
  | _ => scalar model data path docPath lvl
  end.
End Walk.

(** [levels] is [MaxValidationDepth - depth]. *)
Fixpoint walk (cont : bool) (levels : nat) (target : option ModelNode) (data : JSON) (path docPath : string)
    (lvl : ChangeLevel) : AM (option ModelNode) :=
  match levels with
  | O => fail (SDepth path)
  | S levels' =>
      match target with
      | Some model => node cont (walk cont levels') model data path docPath lvl
      | None => describeAt cont (walk cont levels') data path docPath
      end
  end.

(** ** The doors *)

Definition Admit (model : ModelNode) (data : JSON) : outcome serr (option ModelNode) * list Change :=
  walk false MaxValidationDepth (Some model) data "" "" ChangeLevelType [].

Definition Describe (v : JSON) (path : string) : outcome serr (option ModelNode) :=
  (walk false MaxValidationDepth None v path path ChangeLevelType []).1.

Definition Extend (existing : ModelNode) (data : JSON) (level : ChangeLevel) : outcome serr ModelNode :=
  match Admit existing data with
  | (Err e, _) => Err e
  | (Panic w, _) => Panic w
  | (Ret overlay, changes) =>
      match changes with
      | [] => Ret existing
      | _ =>
          match list_find (λ c, levelPermits level (ch_Required c) = false) changes with
          | Some (_, c) => Err (SLevel (ch_Path c))
          | None => match Merge (Some existing) overlay with Some m => Ret m | None => Ret existing end
          end
      end
  end.

(** [strings.TrimPrefix(p, ".")]. *)
Definition wirePath (p : string) : string :=
  match p with String c s => if Ascii.eqb c "."%char then s else p | EmptyString => p end.

Definition validationErrorForNewKind (c : Change) : ValidationError :=
  let declaresContainer := bool_decide ("object" ∈ ch_DeclaredKinds c) || bool_decide ("array" ∈ ch_DeclaredKinds c) in
  if isScalar (ch_Value c) && negb declaresContainer
  then mkVErr (wirePath (ch_DocPath c)) ErrKindIncompatibleType (ch_Declared c) (ch_Observed c)
  else mkVErr (wirePath (ch_DocPath c)) ErrKindGeneric ∅ None.
Definition validationErrorFor (c : Change) : ValidationError :=
  match ch_Reason c with
  | ReasonLeafType => mkVErr (wirePath (ch_DocPath c)) ErrKindIncompatibleType (ch_Declared c) (ch_Observed c)
  | ReasonNewField | ReasonInvalidFieldName => mkVErr (wirePath (ch_DocPath c)) ErrKindUnknownElement ∅ None
  | ReasonNewKind => validationErrorForNewKind c
  | _ => mkVErr (wirePath (ch_DocPath c)) ErrKindGeneric ∅ None
  end.

Definition Validate (model : ModelNode) (data : JSON) : list ValidationError :=
  match walk true MaxValidationDepth (Some model) data "" "" ChangeLevelType [] with
  | (Ret _, changes) => validationErrorFor <$> changes
  | (Err (SDepth p), _) => [mkVErr (wirePath p) ErrKindGeneric ∅ None]
  | (Err (SFieldName parent name), _) =>
      [mkVErr (wirePath (parent +:+ "." +:+ name)%string) ErrKindUnknownElement ∅ None]
  | (Err (SUnsupported p), _) => [mkVErr (wirePath p) ErrKindGeneric ∅ None]
  | (_, _) => [mkVErr "" ErrKindGeneric ∅ None]
  end.

Definition HasUnknownSchemaElement (errs : list ValidationError) : bool :=
  existsb (λ e, match ve_Kind e with ErrKindUnknownElement => true | _ => false end) errs.
Definition FirstIncompatibleType (errs : list ValidationError) : option ValidationError :=
  snd <$> list_find (λ e, ve_Kind e = ErrKindIncompatibleType) errs.
End Admit.

(** Proofs are for any bound; evaluation still computes with it. *)
#[global] Opaque MaxValidationDepth.
