(* ===== verification/SchemaExtend.v ===== *)
(** * What extension and validation guarantee

    Strict validation accepts exactly the documents the model admits; a model
    extended for a document admits it from then on; and a model that has grown
    still admits everything it admitted before. *)

From Stdlib Require Import Ascii.
From stdpp Require Import base gmap strings list pretty.
From S2P Require Import Prelude Schema SchemaLattice SchemaDelta SchemaAdmit.

Definition numericType (t : DataType) : bool :=
  match t with
  | DInteger | DLong | DBigInteger | DUnboundInteger | DDouble | DBigDecimal | DUnboundDecimal => true
  | _ => false
  end.
Definition temporalType (t : DataType) : bool :=
  match t with
  | DLocalDate | DLocalDateTime | DLocalTime | DZonedDateTime | DYear | DYearMonth => true
  | _ => false
  end.

(** The documented behaviour of the classifiers: a number is admitted by the type
    it is classified as, a whole number by the unbounded integers; a collapsed
    type set admits what its members admitted and keeps those that are not
    numeric. *)
Class ClassifierLaws `{SchemaSPI} {K : Classifier} : Prop := {
  integer_admits d : (Scale (StripTrailingZeros d) ≤ 0)%Z →
    AdmitsNumeric (ClassifyInteger (Unscaled (StripTrailingZeros d) * 10 ^ (- Scale (StripTrailingZeros d)))) d = true;
  unbound_admits d : (Scale (StripTrailingZeros d) ≤ 0)%Z → AdmitsNumeric DUnboundInteger d = true;
  decimal_admits d : (0 < Scale (StripTrailingZeros d))%Z → AdmitsNumeric (ClassifyDecimal (StripTrailingZeros d)) d = true;
  admits_numeric t d : AdmitsNumeric t d = true → numericType t = true;
  temporal_type s t : ClassifyTemporalString s = Some t → temporalType t = true;
  collapse_admits S t d : t ∈ S → AdmitsNumeric t d = true → ∃ t', t' ∈ collapse S ∧ AdmitsNumeric t' d = true;
  collapse_keeps S t : t ∈ S → numericType t = false → t ∈ collapse S }.

Lemma segment_name i : IsSegmentName i = true → i ≠ "" ∧ i ≠ "[]" ∧ splitSlash i = [i].
Proof.
  unfold IsSegmentName. case_decide as Hne; [done|]. intros Hb. split_and!; [done|by intros ->|].
  clear Hne. induction i as [|c i IH]; [done|]. simpl in *. apply andb_true_iff in Hb as [Hc Hb].
  assert (Hs : Ascii.eqb c "/" = false) by (destruct (Ascii.eqb_spec c "/"); [by subst|done]).
  by rewrite Hs, IH.
Qed.

Section Extend.
Context `{SchemaSPI} {L : SchemaLaws} {K : Classifier} {KL : ClassifierLaws}.
Local Notation AM := (M serr (list Change)).

(** ** Documents *)

(** The decoder's output: numbers parse and an object's fields are distinct. *)
Inductive decoded : JSON → Prop :=
| decoded_null : decoded JNull
| decoded_object fs : NoDup fs.*1 → (∀ i x, (i, x) ∈ fs → decoded x) → decoded (JObject fs)
| decoded_array l : (∀ x, x ∈ l → decoded x) → decoded (JArray l)
| decoded_number lit d : ParseDecimal lit = Some d → decoded (JNumber lit)
| decoded_string s : decoded (JString s)
| decoded_bool b : decoded (JBool b).

(** ** Admission *)

(** The node holds the value, within [k] levels of nesting. *)
Fixpoint admits (k : nat) (n : ModelNode) (v : JSON) : Prop :=
  match k with
  | O => False
  | S k' =>
      match v with
      | JNull => n_nullable n = true ∨ n_scalar n ≠ None
      | JObject fs => ∃ ch, n_object n = Some ch ∧ ∀ i x, (i, x) ∈ fs → ∃ c, ch !! i = Some c ∧ admits k' c x
      | JArray l => ∃ e, n_array n = Some (Some e) ∧ ∀ x, x ∈ l → admits k' e x
      | JNumber _ | JString _ | JBool _ => ∃ T, n_scalar n = Some T ∧ holdsScalar T v = true
      | _ => False
      end
  end.

Lemma holdsScalar_mono T T' v : holdsScalar T v = true → holdsScalar (joinT T T') v = true.
Proof.
  destruct v; simpl; try done; unfold holdsScalar.
  - destruct (ParseDecimal lit) as [d|]; [|done]. intros (t & Ht & Ha)%existsb_exists.
    apply list_elem_of_In, elem_of_elements in Ht.
    destruct (collapse_admits (T ∪ T') t d) as (t' & Ht' & Ha'); [set_solver|done|].
    apply existsb_exists. exists t'. split; [|done]. by apply list_elem_of_In, elem_of_elements.
  - intros (t & Ht & Ha)%existsb_exists. apply list_elem_of_In, elem_of_elements in Ht.
    apply existsb_exists. exists t. split; [|done]. apply list_elem_of_In, elem_of_elements.
    apply collapse_keeps; [set_solver|]. apply orb_true_iff in Ha as [Ha|Ha]; apply bool_decide_eq_true in Ha; [by subst|].
    apply temporal_type in Ha. by destruct t.
  - intros (t & Ht & Ha)%existsb_exists. apply list_elem_of_In, elem_of_elements in Ht.
    apply existsb_exists. exists t. split; [|done]. apply list_elem_of_In, elem_of_elements.
    apply collapse_keeps; [set_solver|]. apply bool_decide_eq_true in Ha. by subst.
Qed.

#[local] Arguments holdsScalar : simpl never.

Lemma admits_mono k n n' v : wf n → wf n' → le n n' → admits k n v → admits k n' v.
Proof.
  revert n n' v. induction k as [|k IH]; [done|]. intros n n' v Hn Hn' Hle. destruct v; simpl; try done.
  - intros Hv. destruct (n_scalar n') eqn:E; [by right|left].
    destruct Hv as [Hv|Hv]; [exact (le_nullable _ _ Hn Hn' Hle Hv E)|].
    destruct (n_scalar n) as [T|] eqn:ET; [|done]. by destruct (le_scalar _ _ _ Hn Hn' Hle ET) as (? & ? & _); congruence.
  - intros (ch & Hch & Hf). destruct (le_object _ _ _ Hn Hn' Hle Hch) as (ch' & Hch' & Hsub). exists ch'. split; [done|].
    intros i x Hx. destruct (Hf i x Hx) as (c & Hc & Ha). destruct (Hsub _ _ Hc) as (c' & Hc' & Hlc). exists c'.
    split; [done|]. by eapply (IH c c'); eauto using wf_child.
  - intros (e & He & Hf). destruct (le_array _ _ _ Hn Hn' Hle He) as (e' & He' & Hsub).
    destruct (Hsub e eq_refl) as (y & -> & Hly). exists y. split; [done|]. intros x Hx.
    by eapply (IH e y); eauto using wf_elem.
  - intros (T & HT & Hh). destruct (le_scalar _ _ _ Hn Hn' Hle HT) as (B & HB & HJ). exists B. split; [done|].
    rewrite <- HJ. by apply (holdsScalar_mono T B (JNumber lit)).
  - intros (T & HT & Hh). destruct (le_scalar _ _ _ Hn Hn' Hle HT) as (B & HB & HJ). exists B. split; [done|].
    rewrite <- HJ. by apply (holdsScalar_mono T B (JString s)).
  - intros (T & HT & Hh). destruct (le_scalar _ _ _ Hn Hn' Hle HT) as (B & HB & HJ). exists B. split; [done|].
    rewrite <- HJ. by apply (holdsScalar_mono T B (JBool b)).
Qed.

(** ** A document that is admitted changes nothing *)

Lemma object_admitted cont visit model ch fs p dp ov cs :
  (∀ i x, (i, x) ∈ fs → ∃ c, ch !! i = Some c ∧ ∀ p dp l cs, visit (Some c) x p dp l cs = (Ret None, cs)) →
  object cont visit model ch fs p dp ov cs = (Ret ov, cs).
Proof.
  revert cs. induction fs as [|[i x] fs IH]; simpl; intros cs Hf; [done|].
  destruct (Hf i x) as (c & -> & Hv); [set_solver|]. rewrite run_bind, Hv. apply IH. intros j y Hy. apply Hf. set_solver.
Qed.
Lemma items_admitted visit e arr i p dp ov cs :
  (∀ x, x ∈ arr → ∀ p dp l cs, visit (Some e) x p dp l cs = (Ret None, cs)) →
  items visit (Some e) arr i p dp ov cs = (Ret ov, cs).
Proof.
  revert i cs. induction arr as [|x arr IH]; simpl; intros i cs Hf; [done|].
  rewrite run_bind, Hf by set_solver.
  replace (Merge ov None) with ov by by destruct ov. apply IH. intros y Hy. apply Hf. set_solver.
Qed.
Lemma walk_admitted cont k n v p dp l cs : admits k n v → walk cont k (Some n) v p dp l cs = (Ret None, cs).
Proof.
  revert n v p dp l cs. induction k as [|k IH]; [done|]. intros n v p dp l cs. destruct v; simpl; try done.
  - intros Hv. unfold null, hasKind. destruct Hv as [->|Hv]; [done|]. destruct (n_scalar n); [|done]. by rewrite orb_true_r.
  - intros (ch & -> & Hf). apply object_admitted. intros i x Hx. destruct (Hf i x Hx) as (c & Hc & Ha). exists c. eauto.
  - intros (e & -> & Hf). unfold array. rewrite run_bind, items_admitted by eauto. done.
  - intros (T & HT & Hh). unfold scalar. by rewrite HT, Hh.
  - intros (T & HT & Hh). unfold scalar. by rewrite HT, Hh.
  - intros (T & HT & Hh). unfold scalar. by rewrite HT, Hh.
Qed.

(** ** A traversal that records nothing has found the document admitted *)

Lemma stable_record c : stable prefix (record c : AM unit).
Proof. apply stable_modify. intros cs. by eexists. Qed.
Lemma stable_inner {A} (m : AM A) : stable prefix (inner m).
Proof. intros cs. unfold inner. destruct (m []) as [r cs']. by eexists. Qed.
#[local] Hint Resolve stable_record stable_inner : stable.

Section Recorded.
Context (visit : option ModelNode → JSON → string → string → ChangeLevel → AM (option ModelNode)).
Hypothesis visit_records : ∀ t v p dp l, stable prefix (visit t v p dp l).
#[local] Hint Resolve visit_records : stable.

Lemma records_object cont model ch fs p dp ov : stable prefix (object cont visit model ch fs p dp ov).
Proof.
  revert ov. induction fs as [|[i x] fs IH]; simpl; intros ov; solve_stable.
Qed.
Lemma records_items t arr i p dp ov : stable prefix (items visit t arr i p dp ov).
Proof. revert i ov. induction arr as [|x arr IH]; simpl; intros i ov; solve_stable. Qed.
#[local] Hint Resolve records_object records_items : stable.
Lemma records_array model e arr p dp : stable prefix (array visit model e arr p dp).
Proof. unfold array. solve_stable. Qed.
Lemma records_describeAt cont v p dp : stable prefix (describeAt cont visit v p dp).
Proof. unfold describeAt. solve_stable. Qed.
#[local] Hint Resolve records_array records_describeAt : stable.
Lemma records_node cont n v p dp l : stable prefix (node cont visit n v p dp l).
Proof. unfold node, scalar, wrongKind, null. solve_stable. Qed.
End Recorded.

Lemma walk_records cont k t v p dp l : stable prefix (walk cont k t v p dp l).
Proof.
  revert t v p dp l. induction k as [|k IH]; simpl; intros t v p dp l; [solve_stable|].
  destruct t; [by apply records_node|by apply records_describeAt].
Qed.

Lemma silent_bind {A B} (m : AM A) (f : A → AM B) b cs :
  stable prefix m → (∀ a, stable prefix (f a)) → (m ≫= f) cs = (Ret b, cs) →
  ∃ a, m cs = (Ret a, cs) ∧ f a cs = (Ret b, cs).
Proof.
  intros Hm Hf (a & s1 & Ha & Hb)%bind_Ret. pose proof (Hm cs) as H1. pose proof (Hf a s1) as H2.
  rewrite Ha in H1. rewrite Hb in H2. simpl in *. assert (s1 = cs) as -> by by apply (anti_symm prefix). by exists a.
Qed.
Lemma recorded {B} c (f : unit → AM B) b cs : (∀ a, stable prefix (f a)) → (record c ≫= f) cs ≠ (Ret b, cs).
Proof.
  intros Hf Hb. rewrite run_bind in Hb. unfold record in Hb. rewrite run_modify in Hb.
  pose proof (Hf tt (cs ++ [c])) as Hp. rewrite Hb in Hp. apply prefix_length in Hp. rewrite length_app in Hp. simpl in Hp. lia.
Qed.

Section Silent.
Context (visit : option ModelNode → JSON → string → string → ChangeLevel → AM (option ModelNode)).
Hypothesis visit_records : ∀ t v p dp l, stable prefix (visit t v p dp l).
#[local] Hint Resolve visit_records : stable.
#[local] Hint Extern 1 (stable prefix (object _ _ _ _ _ _ _ _)) => apply records_object : stable.
#[local] Hint Extern 1 (stable prefix (items _ _ _ _ _ _ _)) => apply records_items : stable.
#[local] Hint Extern 1 (stable prefix (describeAt _ _ _ _ _)) => apply records_describeAt : stable.

(** The values a silent loop visited were visited silently. *)
Definition silent (n : ModelNode) (v : JSON) : Prop :=
  ∃ p dp l cs r, visit (Some n) v p dp l cs = (Ret r, cs).

Lemma object_silent cont model ch fs p dp ov r cs :
  object cont visit model ch fs p dp ov cs = (Ret r, cs) →
  ∀ i x, (i, x) ∈ fs → ∃ c, ch !! i = Some c ∧ silent c x.
Proof.
  revert ov. induction fs as [|[j y] fs IH]; simpl; intros ov Hr i x Hin; [by apply elem_of_nil in Hin|].
  destruct (ch !! j) as [c|] eqn:Hc.
  - apply silent_bind in Hr as (a & Ha & Hr); [|by auto with stable|by intros; apply records_object].
    apply elem_of_cons in Hin as [[= -> ->]|Hin]; [|by eapply IH].
    exists c. split; [done|]. by do 5 eexists.
  - exfalso. destruct (ValidateFieldName p j); [destruct cont|]; [|done|].
    + revert Hr. apply recorded. intros []. solve_stable.
    + revert Hr. apply recorded. intros []. solve_stable.
Qed.
Lemma items_silent e arr i p dp ov r cs :
  items visit (Some e) arr i p dp ov cs = (Ret r, cs) → ∀ x, x ∈ arr → silent e x.
Proof.
  revert i ov. induction arr as [|y arr IH]; simpl; intros i ov Hr x Hin; [by apply elem_of_nil in Hin|].
  apply silent_bind in Hr as (a & Ha & Hr); [|by auto with stable|by intros; apply records_items].
  apply elem_of_cons in Hin as [->|Hin]; [|by eapply IH]. by do 5 eexists.
Qed.

(** What a node's own step records nothing for. *)
Lemma node_silent cont n v p dp l r cs : node cont visit n v p dp l cs = (Ret r, cs) →
  match v with
  | JNull => n_nullable n = true ∨ n_scalar n ≠ None
  | JObject fs => ∃ ch, n_object n = Some ch ∧ ∀ i x, (i, x) ∈ fs → ∃ c, ch !! i = Some c ∧ silent c x
  | JArray l => ∃ e, n_array n = Some (Some e) ∧ ∀ x, x ∈ l → silent e x
  | JNumber _ | JString _ | JBool _ => ∃ T, n_scalar n = Some T ∧ holdsScalar T v = true
  | _ => False
  end.
Proof.
  assert (Hwrong : ∀ v, wrongKind cont visit n v p dp l cs ≠ (Ret r, cs)).
  { intros w. unfold wrongKind. apply recorded. intros []. solve_stable. }
  assert (Hscalar : scalar cont visit n v p dp l cs = (Ret r, cs) → ∃ T, n_scalar n = Some T ∧ holdsScalar T v = true).
  { unfold scalar. destruct (n_scalar n) as [T|]; [|intros Hr; by destruct (Hwrong v)].
    destruct (holdsScalar T v) eqn:E; [by exists T|]. intros Hr. exfalso. revert Hr. apply recorded. intros []. solve_stable. }
  destruct v; simpl; try done.
  - unfold null, hasKind. destruct (n_nullable n); [by left|]. destruct (n_scalar n); [by right|]. simpl.
    intros Hr. exfalso. revert Hr. apply recorded. intros []. solve_stable.
  - destruct (n_object n) as [ch|]; [|intros Hr; by destruct (Hwrong (JObject fields))].
    intros Hr. exists ch. split; [done|]. by eapply object_silent.
  - destruct (n_array n) as [e|]; [|intros Hr; by destruct (Hwrong (JArray items))].
    unfold array. intros Hr. apply silent_bind in Hr as (a & Ha & Hr); [|destruct e; solve_stable|solve_stable].
    destruct e as [e|]; [|exfalso; revert Ha; apply recorded; intros []; solve_stable].
    exists e. split; [done|]. by eapply items_silent.
Qed.
End Silent.

Lemma walk_silent cont k n v p dp l r cs : walk cont k (Some n) v p dp l cs = (Ret r, cs) → admits k n v.
Proof.
  revert n v p dp l r cs. induction k as [|k IH]; [done|]. intros n v p dp l r cs Hr.
  apply node_silent in Hr; [|apply walk_records].
  destruct v; simpl; try done.
  - destruct Hr as (ch & Hch & Hf). exists ch. split; [done|]. intros i x Hx.
    destruct (Hf i x Hx) as (c & Hc & (? & ? & ? & ? & ? & Hs)). exists c. split; [done|]. by eapply IH.
  - destruct Hr as (e & He & Hf). exists e. split; [done|]. intros x Hx.
    destruct (Hf x Hx) as (? & ? & ? & ? & ? & Hs). by eapply IH.
Qed.

Lemma validate_spec n v : Validate n v = [] ↔ admits MaxValidationDepth n v.
Proof.
  unfold Validate. split.
  - destruct (walk _ _ _ _ _ _ _ []) as [[r|e|w] cs] eqn:E; [|by destruct e|done].
    destruct cs; [|done]. intros _. by eapply walk_silent.
  - intros Ha. by rewrite walk_admitted.
Qed.

(** ** A traversal that returns has described what the model lacked *)

Definition wfO (o : option ModelNode) : Prop := ∀ n, o = Some n → wf n.
Definition adm (k : nat) (o : option ModelNode) (v : JSON) : Prop := ∃ c, o = Some c ∧ admits k c v.

Lemma Merge_J a b : Merge a b = J mergeNode a b.
Proof. by destruct a, b. Qed.
Lemma wfO_J a b : wfO a → wfO b → wfO (J mergeNode a b).
Proof. intros Ha Hb n [(x & y & -> & -> & ->)|[[-> _]|[_ ->]]]%J_Some; [by apply merge_wf; auto|auto..]. Qed.
Lemma wfO_None : wfO None.
Proof. done. Qed.
Lemma wfO_Some n : wf n → wfO (Some n).
Proof. by intros Hn ? [= <-]. Qed.
#[local] Hint Resolve wfO_J wfO_None wfO_Some : core.

Lemma JJ_comm a b : wfO a → wfO b → J mergeNode a b = J mergeNode b a.
Proof. intros Ha Hb. apply J_comm. intros x y -> ->. by apply merge_comm; auto. Qed.
Lemma JJ_assoc a b c : wfO a → wfO b → wfO c → J mergeNode (J mergeNode a b) c = J mergeNode a (J mergeNode b c).
Proof. intros Ha Hb Hc. apply J_assoc. intros x y z -> -> ->. by apply merge_assoc; auto. Qed.
Lemma adm_l k a b v : wfO a → wfO b → adm k a v → adm k (J mergeNode a b) v.
Proof.
  intros Ha Hb (c & -> & Hc). destruct b as [d|]; [|by exists c]. exists (mergeNode c d). split; [done|].
  eapply admits_mono, Hc; auto using merge_wf, le_merge_l.
Qed.
Lemma adm_r k a b v : wfO a → wfO b → adm k b v → adm k (J mergeNode a b) v.
Proof. intros Ha Hb Hc. rewrite JJ_comm by done. by apply adm_l. Qed.

Lemma wf_marker : wf (NewLeafNode DNull).
Proof. constructor; naive_solver. Qed.
Lemma typesWf_single t : t ≠ DNull → typesWf {[t]}.
Proof. intros Ht. split_and!; [set_solver|set_solver|apply collapse_single]. Qed.
Lemma wf_NewLeafNode t : t ≠ DNull → wf (NewLeafNode t).
Proof. intros Ht. unfold NewLeafNode. rewrite decide_False by done. by apply wf_leaf, typesWf_single. Qed.

Lemma infer_holds v : decoded v → isScalar v = true → inferDataType v ≠ DNull ∧ holdsScalar {[inferDataType v]} v = true.
Proof.
  intros Hd Hs. destruct Hd as [| | |lit d Hp|s|b]; try done; unfold holdsScalar; rewrite elements_singleton; simpl.
  - rewrite Hp. simpl. rewrite orb_false_r.
    assert (Ha : AdmitsNumeric (inferDataType (JNumber lit)) d = true).
    { simpl. rewrite Hp. case_decide as Hsc; [|by apply decimal_admits; lia].
      case_decide as H0; [|case_decide; [by apply unbound_admits|by apply integer_admits]].
      pose proof (integer_admits d Hsc) as Hi. rewrite H0 in Hi. simpl in Hi. by rewrite Z.mul_1_r in Hi. }
    simpl in Ha. rewrite Hp in Ha. split; [|done]. intros Hn. apply admits_numeric in Ha. by rewrite Hn in Ha.
  - destruct (ClassifyTemporalString s) as [t|] eqn:E; simpl.
    + split; [intros ->; by apply temporal_type in E|]. rewrite (bool_decide_eq_true_2 (Some t = Some t)) by done.
      by rewrite orb_true_r.
    + by split.
Qed.

(** [r] is well formed and joined with [t] admits the value. *)
Definition extends (k : nat) (t : option ModelNode) (v : JSON) (r : option ModelNode) : Prop :=
  wfO r ∧ adm k (J mergeNode t r) v.

Lemma leaf_extends k n v : wf n → decoded v → isScalar v = true → extends (S k) (Some n) v (Some (NewLeafNode (inferDataType v))).
Proof.
  intros Hn Hd Hs. destruct (infer_holds v Hd Hs) as [Ht Hh]. pose proof (wf_NewLeafNode _ Ht) as Hw.
  split; [auto|]. apply adm_r; [auto..|]. eexists. split; [done|]. unfold NewLeafNode. rewrite decide_False by done.
  destruct v; simpl in Hs; try done; simpl; by eexists.
Qed.

(** The overlay of an object: its children are those that change. *)
Definition overlayOf (ov : option ModelNode) (oc : gmap string ModelNode) : Prop :=
  match ov with None => oc = ∅ | Some o => o = mkNode None (Some oc) None false end.
Definition wfM (m : gmap string ModelNode) : Prop :=
  ∀ i c, m !! i = Some c → i ≠ "" ∧ i ≠ "[]" ∧ splitSlash i = [i] ∧ wf c.

Lemma SetChild_overlay ov oc i d : overlayOf ov oc →
  overlayOf (Some (SetChild i d (default NewObjectNode ov))) (<[i := d]> oc).
Proof. destruct ov as [o|]; simpl; [by intros ->|by intros ->]. Qed.
Lemma wfM_insert m i d : wfM m → i ≠ "" ∧ i ≠ "[]" ∧ splitSlash i = [i] → wf d → wfM (<[i := d]> m).
Proof.
  intros Hm (? & ? & ?) Hd j c. destruct (decide (i = j)) as [->|]; [rewrite lookup_insert_eq; by intros [= <-]|].
  rewrite lookup_insert_ne by done. apply Hm.
Qed.
Lemma wf_overlay ov oc : overlayOf ov oc → wfM oc → wfO ov.
Proof. destruct ov as [o|]; simpl; [|done]. intros ->  Hm. apply wfO_Some. by apply wf_object_only. Qed.
Lemma wfM_children n ch : wf n → n_object n = Some ch → wfM ch.
Proof.
  intros Hn Hch i c Hc. destruct (wf_name _ _ _ _ Hn Hch Hc) as (? & ? & ?). split_and!; [done..|]. by eapply wf_child.
Qed.

Section Growth.
Context (k : nat) (visit : option ModelNode → JSON → string → string → ChangeLevel → AM (option ModelNode)).
Hypothesis visit_extends : ∀ t v p dp l cs r cs', wfO t → decoded v → visit t v p dp l cs = (Ret r, cs') → extends k t v r.

Lemma object_extends model ch fs p dp ov oc cs r cs' :
  wfM ch → overlayOf ov oc → wfM oc → NoDup fs.*1 → (∀ i x, (i, x) ∈ fs → decoded x ∧ oc !! i = None) →
  object false visit model ch fs p dp ov cs = (Ret r, cs') →
  ∃ oc', overlayOf r oc' ∧ wfM oc' ∧ (∀ i, i ∉ fs.*1 → oc' !! i = oc !! i) ∧
    ∀ i x, (i, x) ∈ fs → adm k (J mergeNode (ch !! i) (oc' !! i)) x.
Proof.
  intros Hch. revert ov oc cs. induction fs as [|[i x] fs IH]; simpl; intros ov oc cs Hov Hoc Hnd Hfs Hr.
  { injection Hr as -> ->. exists oc. split_and!; [done..|]. intros ?? Hin. by apply elem_of_nil in Hin. }
  apply NoDup_cons in Hnd as [Hi Hnd]. destruct (Hfs i x) as [Hx Hoci]; [set_solver|].
  (* one field: the overlay gains [o] at [i], or nothing *)
  assert (Hone : ∃ (ro : option ModelNode) cs1, extends k (ch !! i) x ro ∧
    (∀ o, ro = Some o → i ≠ "" ∧ i ≠ "[]" ∧ splitSlash i = [i]) ∧
    object false visit model ch fs p dp
      (match ro with Some o => Some (SetChild i o (default NewObjectNode ov)) | None => ov end) cs1 = (Ret r, cs')).
  { destruct (ch !! i) as [c|] eqn:Hc.
    - apply bind_Ret in Hr as (co & cs1 & Hv & Hr). exists co, cs1. destruct (Hch _ _ Hc) as (? & ? & ? & Hwc).
      split_and!; [eapply visit_extends; eauto|done|done].
    - unfold ValidateFieldName in Hr. destruct (IsSegmentName i) eqn:Hn; [|done].
      apply bind_Ret in Hr as ([] & cs1 & _ & Hr). apply bind_Ret in Hr as (d & cs2 & Hv & Hr).
      destruct d as [d|]; [|done]. exists (Some d), cs2.
      split_and!; [eapply visit_extends; eauto|intros; by apply segment_name|done]. }
  destruct Hone as (ro & cs1 & [Hwro Hext] & Hname & Hrest).
  assert (Hnotin : ∀ j y, (j, y) ∈ fs → j ≠ i).
  { intros j y Hj ->. apply Hi, list_elem_of_fmap. by exists (i, y). }
  set (oc1 := match ro with Some o => <[i := o]> oc | None => oc end).
  assert (Hlook : oc1 !! i = ro) by (unfold oc1; destruct ro; [apply lookup_insert_eq|done]).
  assert (Hother : ∀ j, j ≠ i → oc1 !! j = oc !! j).
  { intros j Hj. unfold oc1. destruct ro; [by rewrite lookup_insert_ne|done]. }
  assert (Hov1 : overlayOf (match ro with Some o => Some (SetChild i o (default NewObjectNode ov)) | None => ov end) oc1)
    by (unfold oc1; destruct ro; [by apply SetChild_overlay|done]).
  assert (Hoc1 : wfM oc1).
  { unfold oc1. destruct ro as [o|]; [|done]. apply wfM_insert; [done|by eapply Hname|by apply Hwro]. }
  apply (IH _ oc1) in Hrest as (oc' & Hov' & Hoc' & Hsame & Hadm); [|done..|].
  - exists oc'. split_and!; [done..| |].
    + intros j Hj. rewrite Hsame, Hother by set_solver. done.
    + intros j y [[= -> ->]|Hj]%elem_of_cons; [|by apply Hadm]. by rewrite Hsame, Hlook by done.
  - intros j y Hj. destruct (Hfs j y) as [? ?]; [set_solver|]. split; [done|]. by rewrite Hother by eauto.
Qed.

Lemma items_extends t arr i p dp ov cs r cs' :
  wfO t → wfO ov → (∀ x, x ∈ arr → decoded x) → items visit t arr i p dp ov cs = (Ret r, cs') →
  wfO r ∧ (∃ d, wfO d ∧ r = J mergeNode ov d) ∧ ∀ x, x ∈ arr → adm k (J mergeNode t r) x.
Proof.
  intros Ht. revert i ov cs. induction arr as [|x arr IH]; simpl; intros i ov cs Hov Hd Hr.
  { injection Hr as <- <-. split_and!; [done|exists None; by rewrite J_None_r|]. intros ? Hin. by apply elem_of_nil in Hin. }
  apply bind_Ret in Hr as (d & cs1 & Hv & Hr). rewrite Merge_J in Hr.
  apply visit_extends in Hv as [Hwd Hx]; [|done|set_solver].
  apply IH in Hr as (Hwr & (d' & Hd' & ->) & Hadm); [|auto|set_solver].
  split_and!; [done| |].
  - exists (J mergeNode d d'). split; [auto|]. by apply JJ_assoc.
  - intros y [->|Hy]%elem_of_cons; [|by apply Hadm].
    rewrite <- JJ_assoc, <- JJ_assoc by auto. apply adm_l; [auto..|].
    rewrite JJ_assoc, (JJ_comm ov d), <- JJ_assoc by auto. by apply adm_l; auto.
Qed.

(** [r] is the array overlay of the element overlay. *)
Lemma array_extends model e arr p dp cs r cs' : wfO e → (∀ x, x ∈ arr → decoded x) →
  array visit model e arr p dp cs = (Ret r, cs') →
  ∃ eo, wfO eo ∧ r = match eo with Some x => Some (NewArrayNode (Some x)) | None => None end ∧
    ∃ c, J mergeNode e eo = Some c ∧ ∀ x, x ∈ arr → admits k c x.
Proof.
  intros He Hd Hr. unfold array in Hr. apply bind_Ret in Hr as (eo & cs1 & Ha & Hr). injection Hr as <- <-. exists eo.
  assert (Hall : wfO eo ∧ (is_Some (J mergeNode e eo)) ∧ ∀ x, x ∈ arr → adm k (J mergeNode e eo) x).
  { destruct e as [e|].
    - apply items_extends in Ha as (Hw & _ & Hx); [|auto..]. split_and!; [done|destruct eo; by eexists|done].
    - apply bind_Ret in Ha as ([] & cs2 & _ & Ha). destruct arr as [|x arr].
      + injection Ha as <- <-. split_and!; [apply wfO_Some, wf_marker|by eexists|]. intros ? Hin. by apply elem_of_nil in Hin.
      + apply items_extends in Ha as (Hw & _ & Hx); [|auto..]. split_and!; [done| |done].
        destruct (Hx x) as (c & Hc & _); [set_solver|]. by exists c. }
  destruct Hall as (Hw & [c Hc] & Hx). split_and!; [done|done|]. exists c. split; [done|].
  intros x Hin. destruct (Hx x Hin) as (c' & Hc' & Ha'). congruence.
Qed.

Lemma adm_object o ch fs oc' : n_object o = Some (JM mergeNode ch oc') →
  (∀ i x, (i, x) ∈ fs → adm k (J mergeNode (ch !! i) (oc' !! i)) x) → adm (S k) (Some o) (JObject fs).
Proof.
  intros Ho Hf. exists o. split; [done|]. simpl. eexists. split; [exact Ho|]. intros i x Hx. rewrite JM_lookup.
  destruct (Hf i x Hx) as (c & Hc & Ha). by exists c.
Qed.

Lemma describeAt_extends v p dp cs r cs' : decoded v →
  describeAt false visit v p dp cs = (Ret r, cs') → extends (S k) None v r.
Proof.
  intros Hd Hr. unfold describeAt, inner in Hr.
  match type of Hr with (let '(_, _) := ?m [] in _) = _ => destruct (m []) as [r' cs1] eqn:E end.
  injection Hr as -> _. unfold extends. rewrite J_None_l. destruct Hd as [|fs Hnd Hfs|l Hl|lit d Hp|s|b].
  - injection E as <- _. split; [apply wfO_Some, wf_marker|]. eexists. split; [done|]. by left.
  - apply bind_Ret in E as (ov & cs2 & Ho & E). injection E as <- _.
    apply (object_extends _ ∅ fs p dp None ∅) in Ho as (oc' & Hov & Hw & _ & Hadm); [|done|done|done|done|by eauto].
    assert (Hdef : default NewObjectNode ov = mkNode None (Some oc') None false) by (destruct ov; simpl in Hov; by subst).
    rewrite Hdef. split; [apply wfO_Some; by apply wf_object_only|]. eapply adm_object; [|exact Hadm].
    simpl. f_equal. apply map_eq. intros i. by rewrite JM_lookup, lookup_empty, J_None_l.
  - apply array_extends in E as (eo & Hw & -> & c & Hc & Hx); [|done|done].
    rewrite J_None_l in Hc. subst eo. split; [apply wfO_Some, wf_array_only; by intros ? [= <-]; auto|].
    eexists. split; [done|]. simpl. by exists c.
  - injection E as <- _. destruct (infer_holds (JNumber lit)) as [Ht Hh]; [by econstructor|done|].
    split; [by apply wfO_Some, wf_NewLeafNode|]. eexists. split; [done|]. unfold NewLeafNode. rewrite decide_False by done. by eexists.
  - injection E as <- _. destruct (infer_holds (JString s)) as [Ht Hh]; [by econstructor|done|].
    split; [by apply wfO_Some, wf_NewLeafNode|]. eexists. split; [done|]. unfold NewLeafNode. rewrite decide_False by done. by eexists.
  - injection E as <- _. destruct (infer_holds (JBool b)) as [Ht Hh]; [by econstructor|done|].
    split; [by apply wfO_Some, wf_NewLeafNode|]. eexists. split; [done|]. unfold NewLeafNode. rewrite decide_False by done. by eexists.
Qed.

Lemma wrongKind_extends n v p dp l cs r cs' : wf n → decoded v → v ≠ JNull →
  wrongKind false visit n v p dp l cs = (Ret r, cs') → extends (S k) (Some n) v r.
Proof.
  intros Hn Hd Hnull Hr. unfold wrongKind in Hr. apply bind_Ret in Hr as ([] & cs1 & _ & Hr).
  destruct (isContainer v) eqn:Hc.
  - apply describeAt_extends in Hr as [Hw Ha]; [|done]. rewrite J_None_l in Ha. split; [done|]. apply adm_r; auto.
  - injection Hr as <- _. apply leaf_extends; [done..|]. by destruct Hd.
Qed.

Lemma scalar_extends n v p dp l cs r cs' : wf n → decoded v → isScalar v = true →
  scalar false visit n v p dp l cs = (Ret r, cs') → extends (S k) (Some n) v r.
Proof.
  intros Hn Hd Hs Hr. unfold scalar in Hr. destruct (n_scalar n) as [T|] eqn:HT.
  - destruct (holdsScalar T v) eqn:Hh.
    + injection Hr as <- _. split; [done|]. exists n. split; [done|]. destruct v; try done; simpl; by exists T.
    + apply bind_Ret in Hr as ([] & cs1 & _ & Hr). injection Hr as <- _. by apply leaf_extends.
  - eapply wrongKind_extends; eauto. by intros ->.
Qed.

Lemma node_extends n v p dp l cs r cs' : wf n → decoded v →
  node false visit n v p dp l cs = (Ret r, cs') → extends (S k) (Some n) v r.
Proof.
  intros Hn Hd Hr. pose proof Hd as Hd'. destruct Hd as [|fs Hnd Hfs|arr Harr|lit d Hp|s|b]; simpl in Hr.
  - unfold null, hasKind in Hr. destruct (n_nullable n) eqn:Hnl; simpl in Hr;
      [injection Hr as <- _; split; [done|]; exists n; split; [done|by left]|].
    destruct (n_scalar n) as [T|] eqn:HT.
    + injection Hr as <- _. split; [done|]. exists n. split; [done|]. right. by rewrite HT.
    + apply bind_Ret in Hr as ([] & cs1 & _ & Hr). injection Hr as <- _. split; [apply wfO_Some, wf_marker|].
      apply adm_r; [auto|apply wfO_Some, wf_marker|]. eexists. split; [done|]. by left.
  - destruct (n_object n) as [ch|] eqn:Hch; [|by eapply wrongKind_extends].
    apply (object_extends _ _ fs p dp None ∅) in Hr as (oc' & Hov & Hw & _ & Hadm);
      [|by eapply wfM_children|done|done|done|by eauto].
    pose proof (wf_overlay _ _ Hov Hw) as Hwr. split; [done|].
    destruct r as [o|]; simpl in Hov; unfold J; simpl; (eapply adm_object; [|exact Hadm]).
    + rewrite mergeNode_eq by auto. subst o. simpl. by rewrite Hch.
    + subst oc'. rewrite Hch. f_equal. apply map_eq. intros i. by rewrite JM_lookup, lookup_empty, J_None_r.
  - destruct (n_array n) as [e|] eqn:He; [|by eapply wrongKind_extends].
    apply array_extends in Hr as (eo & Hw & -> & c & Hc & Hx); [|intros x ->; by eapply wf_elem|done].
    destruct eo as [eo|].
    + assert (Hwa : wf (NewArrayNode (Some eo))) by (apply wf_array_only; by intros ? [= <-]; auto).
      split; [auto|]. eexists. split; [done|]. rewrite mergeNode_eq by done. simpl. rewrite He. exists c.
      split; [|done]. unfold J at 1. simpl. by f_equal.
    + rewrite J_None_r in Hc. subst e. split; [done|]. exists n. split; [done|]. simpl. by exists c.
  - by eapply scalar_extends.
  - by eapply scalar_extends.
  - by eapply scalar_extends.
Qed.
End Growth.

Lemma walk_extends k t v p dp l cs r cs' : wfO t → decoded v →
  walk false k t v p dp l cs = (Ret r, cs') → extends k t v r.
Proof.
  revert t v p dp l cs r cs'. induction k as [|k IH]; [done|]. intros t v p dp l cs r cs' Ht Hd Hr. simpl in Hr.
  destruct t as [n|]; [eapply node_extends in Hr|eapply describeAt_extends in Hr]; eauto.
Qed.

(** The model [Extend] returns, for any bound on the depth. *)
Lemma admitted_join k m v r cs m' : wf m → decoded v →
  walk false k (Some m) v "" "" ChangeLevelType [] = (Ret r, cs) →
  m' = match cs, r with _ :: _, Some o => mergeNode m o | _, _ => m end →
  admits k m' v ∧ wf m' ∧ le m m'.
Proof.
  intros Hm Hd Hw ->. destruct cs as [|c cs].
  { split_and!; [by eapply walk_silent|done|by apply merge_idem]. }
  apply walk_extends in Hw as [Hr (x & Hx & Ha)]; [|auto..].
  destruct r as [o|]; injection Hx as <-; [|by split_and!; [| |apply merge_idem]].
  split_and!; [done|apply merge_wf; auto|apply le_merge_l; auto].
Qed.
Lemma Extend_Ret m v level m' : Extend m v level = Ret m' →
  ∃ r cs, Admit m v = (Ret r, cs) ∧ m' = match cs, r with _ :: _, Some o => mergeNode m o | _, _ => m end ∧
    Forall (λ c, levelPermits level (ch_Required c) = true) cs.
Proof.
  unfold Extend. destruct (Admit m v) as [[r|e|w] cs]; [|done..]. intros He. exists r, cs. split; [done|].
  destruct cs as [|c cs]; [by injection He as <-|].
  destruct (list_find _ _) as [[? ?]|] eqn:Hf; [done|]. split; [destruct r; by injection He as <-|].
  apply list_find_None in Hf. eapply Forall_impl; [exact Hf|].
  intros c' Hc'. simpl in Hc'. by destruct (levelPermits level (ch_Required c')).
Qed.

(** The model [Extend] returns admits the document and is above the old one. *)
Lemma Extend_grows m v level m' : wf m → decoded v → Extend m v level = Ret m' →
  admits MaxValidationDepth m' v ∧ wf m' ∧ le m m'.
Proof.
  intros Hm Hd (r & cs & Ha & Heq & _)%Extend_Ret.
  exact (admitted_join MaxValidationDepth m v r cs m' Hm Hd Ha Heq).
Qed.

(** Extension admits what it was asked to admit, and keeps what was there:
    when [Extend] returns, strict validation of the same document against the
    returned model finds nothing, the returned model is well formed, and it is the
    old model joined with something (it is above the old one, so nothing the old
    model declared is lost). *)
Theorem extend_admits m v level m' : wf m → decoded v → Extend m v level = Ret m' →
  Validate m' v = [] ∧ wf m' ∧ le m m'.
Proof.
  rewrite validate_spec. apply Extend_grows.
Qed.

(** Growing a model never invalidates a document: what strict validation
    accepts against a model it accepts against every join of that model with
    another, so replayed extensions cannot turn stored entities invalid. *)
Theorem validation_monotone m x v : wf m → wf x → Validate m v = [] → Validate (mergeNode m x) v = [].
Proof.
  rewrite !validate_spec. intros Hm Hx. apply admits_mono; auto using merge_wf, le_merge_l.
Qed.
End Extend.
