(* ===== verification/SchemaLevel.v ===== *)
(** * The change-level gate

    Below the STRUCTURAL level an extension neither adds a field to an object the
    model knows nor a kind to a node that has one; where the level does not permit
    the scalar changes of a position, the position keeps its types and its
    marker. *)

From stdpp Require Import base gmap strings list.
From S2P Require Import Prelude Schema SchemaLattice SchemaDelta SchemaAdmit SchemaExtend.

Section Level.
Context `{SchemaSPI} {L : SchemaLaws} {K : Classifier} {KL : ClassifierLaws}.
Context (level : ChangeLevel).
Local Notation AM := (M serr (list Change)).

(** [grown c n n']: how [n] may have grown into [n'] at a position whose scalar
    changes cost [c]. *)
Inductive grown : ChangeLevel → ModelNode → ModelNode → Prop :=
| grown_intro c n n' :
    (levelPermits level c = false → n_scalar n' = n_scalar n ∧ n_nullable n' = n_nullable n ∧ (Kinds n = [] → n' = n)) →
    (Kinds n ≠ [] → Kinds n' = Kinds n) →
    (∀ ch, n_object n = Some ch → ∃ ch', n_object n' = Some ch' ∧ dom ch' = dom ch ∧
       ∀ i x x', ch !! i = Some x → ch' !! i = Some x' → grown ChangeLevelType x x') →
    (∀ e, n_array n = Some (Some e) → ∃ e', n_array n' = Some (Some e') ∧ grown ChangeLevelArrayElements e e') →
    (n_array n = Some None → levelPermits level ChangeLevelArrayElements = false → n_array n' = Some None) →
    grown c n n'.

Lemma grown_refl c n : grown c n n.
Proof.
  revert c. induction n as [s o a nl IHo IHa] using node_ind. intros c. constructor; simpl; try done.
  - intros ch ->. exists ch. split_and!; [done..|]. intros i x x' Hx Hx'. assert (x' = x) as -> by congruence. by eapply IHo.
  - intros e ->. exists e. split; [done|]. by apply IHa.
Qed.

Lemma Kinds_ext n n' : (∀ k, hasKind n' k = hasKind n k) → Kinds n' = Kinds n.
Proof. intros Hk. unfold Kinds. apply list_filter_iff. intros k. by rewrite Hk. Qed.
Lemma Kinds_inv n n' k : Kinds n' = Kinds n → hasKind n' k = hasKind n k.
Proof.
  intros HK. apply eq_true_iff_eq.
  assert (HP : ∀ m, hasKind m k = true ↔ k ∈ Kinds m).
  { intros m. unfold Kinds. rewrite list_elem_of_filter. split; [|by intros []]. intros Hk. split; [done|].
    destruct k; set_solver. }
  by rewrite !HP, HK.
Qed.
Lemma hasKind_merge a b k : wf a → wf b → hasKind (mergeNode a b) k = hasKind a k || hasKind b k.
Proof.
  intros Ha Hb. rewrite mergeNode_eq by done. unfold hasKind.
  destruct k; simpl; [destruct (n_scalar a), (n_scalar b)|destruct (n_object a), (n_object b)|destruct (n_array a), (n_array b)]; done.
Qed.
Lemma nullable_merge n o : wf n → n_nullable o = false → n_scalar o = None → n_nullable n && unscaled n && unscaled o = n_nullable n.
Proof.
  intros Hn _ Ho. unfold unscaled, hasKind. rewrite Ho. pose proof (wf_nullable n Hn).
  destruct (n_nullable n); [|done]. by rewrite H0 by done.
Qed.

(** Two ways of growing join. *)
Lemma grown_join n : ∀ c a b, wf n → wf a → wf b → grown c n a → grown c n b → grown c n (mergeNode a b).
Proof.
  induction n as [s o r nl IHo IHa] using node_ind. intros c a b Hn Ha Hb Ga Gb.
  inversion Ga as [? ? ? Sa Ka Oa Aa Na]; subst. inversion Gb as [? ? ? Sb Kb Ob Ab Nb]; subst.
  set (n := mkNode s o r nl) in *. constructor.
  - intros Hc. destruct (Sa Hc) as (Hsa & Hna & Hka), (Sb Hc) as (Hsb & Hnb & Hkb). rewrite mergeNode_eq by done. simpl.
    split_and!.
    + rewrite Hsa, Hsb. apply J_idem. intros T HT. apply joinT_idem. by eapply (wf_types n).
    + unfold unscaled, hasKind. rewrite Hna, Hnb, Hsa, Hsb. pose proof (wf_nullable n Hn). simpl in *.
      destruct nl, s; naive_solver.
    + intros Hk. rewrite <- mergeNode_eq, (Hka Hk), (Hkb Hk) by done. by apply merge_idem.
  - intros Hk. apply Kinds_ext. intros k. rewrite hasKind_merge by done.
    rewrite (Kinds_inv n a k), (Kinds_inv n b k) by auto. apply orb_diag.
  - intros ch Hch. destruct (Oa _ Hch) as (ca & Hca & Hda & Hra), (Ob _ Hch) as (cb & Hcb & Hdb & Hrb).
    rewrite mergeNode_eq by done. simpl. rewrite Hca, Hcb. eexists. split; [done|]. rewrite JM_dom.
    split; [rewrite Hda, Hdb; set_solver|]. intros i x x' Hx. rewrite JM_lookup.
    assert (is_Some (ca !! i)) as [xa Hxa] by (apply elem_of_dom; rewrite Hda; by apply elem_of_dom_2 in Hx).
    assert (is_Some (cb !! i)) as [xb Hxb] by (apply elem_of_dom; rewrite Hdb; by apply elem_of_dom_2 in Hx).
    rewrite Hxa, Hxb. intros [= <-]. eapply IHo; eauto using wf_child.
  - intros e He. destruct (Aa _ He) as (ea & Hea & Hga), (Ab _ He) as (eb & Heb & Hgb).
    rewrite mergeNode_eq by done. simpl. rewrite Hea, Heb. eexists. split; [done|].
    apply IHa; [exact He|exact (wf_elem _ _ Hn He)|exact (wf_elem _ _ Ha Hea)|exact (wf_elem _ _ Hb Heb)|done..].
  - intros He Hl. rewrite mergeNode_eq by done. simpl. by rewrite Na, Nb.
Qed.

(** An overlay that touches one branch. *)
Lemma grown_within c n o : wf n → wf o →
  (∀ k, hasKind o k = true → Kinds n ≠ [] → hasKind n k = true) →
  (levelPermits level c = false → n_scalar o = None ∧ n_nullable o = false ∧ Kinds n ≠ []) →
  (∀ ch, n_object n = Some ch → ∀ oc, n_object o = Some oc →
     ∀ i x, oc !! i = Some x → ∃ y, ch !! i = Some y ∧ grown ChangeLevelType y (mergeNode y x)) →
  (∀ e eo, n_array n = Some (Some e) → n_array o = Some (Some eo) → grown ChangeLevelArrayElements e (mergeNode e eo)) →
  (n_array n = Some None → ∀ eo, n_array o = Some (Some eo) → levelPermits level ChangeLevelArrayElements = true) →
  grown c n (mergeNode n o).
Proof.
  intros Hn Ho Hk Hs Hobj Harr Hnil. constructor.
  - intros Hc. destruct (Hs Hc) as (Hos & Hon & Hkn). rewrite mergeNode_eq by done. simpl.
    rewrite Hos, Hon, J_None_r, orb_false_r. split_and!; [done|by apply nullable_merge|done].
  - intros Hkn. apply Kinds_ext. intros k. rewrite hasKind_merge by done.
    destruct (hasKind o k) eqn:E; [by rewrite (Hk k E Hkn)|by rewrite orb_false_r].
  - intros ch Hch. rewrite mergeNode_eq by done. simpl. rewrite Hch.
    destruct (n_object o) as [oc|] eqn:Hoc.
    + eexists. split; [done|]. rewrite JM_dom. split.
      * apply set_eq. intros i. rewrite elem_of_union. split; [|by left]. intros [?|Hi]; [done|].
        apply elem_of_dom in Hi as [x Hx]. destruct (Hobj _ Hch _ eq_refl _ _ Hx) as (y & Hy & _). by apply elem_of_dom_2 in Hy.
      * intros i x x' Hx. rewrite JM_lookup, Hx. destruct (oc !! i) as [z|] eqn:Hz; intros [= <-]; [|apply grown_refl].
        destruct (Hobj _ Hch _ eq_refl _ _ Hz) as (y & Hy & Hg). by simplify_eq.
    + exists ch. rewrite J_None_r. split_and!; [done..|]. intros i x x' Hx Hx'. simplify_eq. apply grown_refl.
  - intros e He. rewrite mergeNode_eq by done. simpl. rewrite He.
    destruct (n_array o) as [[eo|]|] eqn:Heo; eexists; (split; [done|]); [by apply Harr|apply grown_refl..].
  - intros He Hl. rewrite mergeNode_eq by done. simpl. rewrite He.
    destruct (n_array o) as [[eo|]|] eqn:Heo; [|done..]. by rewrite (Hnil He eo eq_refl) in Hl.
Qed.

(** Every change recorded since [cs] is permitted. *)
Definition permitted (cs cs' : list Change) : Prop :=
  ∃ new, cs' = cs ++ new ∧ Forall (λ c, levelPermits level (ch_Required c) = true) new.

Lemma permitted_split cs cs1 cs' : cs `prefix_of` cs1 → cs1 `prefix_of` cs' → permitted cs cs' →
  permitted cs cs1 ∧ permitted cs1 cs'.
Proof.
  intros [n1 ->] [n2 ->] (new & Heq & Hall). rewrite <- (assoc_L (++)) in Heq. apply app_inv_head in Heq as <-.
  apply Forall_app in Hall as [? ?]. split; by eexists.
Qed.
Lemma permitted_bind {A B} (m : AM A) (f : A → AM B) b cs cs' :
  stable prefix m → (∀ a, stable prefix (f a)) → (m ≫= f) cs = (Ret b, cs') → permitted cs cs' →
  ∃ a cs1, m cs = (Ret a, cs1) ∧ f a cs1 = (Ret b, cs') ∧ permitted cs cs1 ∧ permitted cs1 cs'.
Proof.
  intros Hm Hf (a & cs1 & Ha & Hb)%bind_Ret Hp. exists a, cs1. pose proof (Hm cs) as H1. pose proof (Hf a cs1) as H2.
  rewrite Ha in H1. rewrite Hb in H2. destruct (permitted_split _ _ _ H1 H2 Hp). done.
Qed.
Lemma permitted_record {B} c (f : unit → AM B) b cs cs' :
  (∀ a, stable prefix (f a)) → (record c ≫= f) cs = (Ret b, cs') → permitted cs cs' →
  levelPermits level (ch_Required c) = true ∧ f tt (cs ++ [c]) = (Ret b, cs') ∧ permitted (cs ++ [c]) cs'.
Proof.
  intros Hf Hb Hp. apply permitted_bind in Hb as ([] & cs1 & Hr & Hb & H1 & H2); [|apply stable_record|done|done].
  injection Hr as <-. split_and!; [|done..]. destruct H1 as (new & Heq & Hall). apply app_inv_head in Heq as <-.
  by inversion Hall.
Qed.

Hypothesis below : level ≠ ChangeLevelStructural.

Lemma structural_refused : levelPermits level ChangeLevelStructural = false.
Proof. unfold levelPermits. by destruct level. Qed.

Section Visit.
Context (visit : option ModelNode → JSON → string → string → ChangeLevel → AM (option ModelNode)).
Hypothesis visit_records : ∀ t v p dp l, stable prefix (visit t v p dp l).
Hypothesis visit_wf : ∀ n v p dp l cs r cs', wf n → decoded v → visit (Some n) v p dp l cs = (Ret r, cs') → wfO r.
Hypothesis visit_grows : ∀ n v p dp l cs r cs', wf n → decoded v →
  visit (Some n) v p dp l cs = (Ret r, cs') → permitted cs cs' →
  ∀ o, r = Some o → grown l n (mergeNode n o).
#[local] Hint Resolve visit_records stable_record : stable.
#[local] Hint Extern 1 (stable prefix (object _ _ _ _ _ _ _ _)) => apply records_object : stable.
#[local] Hint Extern 1 (stable prefix (items _ _ _ _ _ _ _)) => apply records_items : stable.
#[local] Hint Extern 1 (stable prefix (describeAt _ _ _ _ _)) => apply records_describeAt : stable.

Lemma object_grows model ch fs p dp ov oc cs r cs' :
  wfM ch → overlayOf ov oc → NoDup fs.*1 → (∀ i x, (i, x) ∈ fs → decoded x ∧ oc !! i = None) →
  (∀ i c, oc !! i = Some c → ∃ x, ch !! i = Some x ∧ grown ChangeLevelType x (mergeNode x c)) →
  object false visit model ch fs p dp ov cs = (Ret r, cs') → permitted cs cs' →
  ∃ oc', overlayOf r oc' ∧ ∀ i c, oc' !! i = Some c → ∃ x, ch !! i = Some x ∧ grown ChangeLevelType x (mergeNode x c).
Proof.
  intros Hch. revert ov oc cs. induction fs as [|[i x] fs IH]; simpl; intros ov oc cs Hov Hnd Hfs Hoc Hr Hp.
  { injection Hr as -> ->. by exists oc. }
  apply NoDup_cons in Hnd as [Hi Hnd]. destruct (Hfs i x) as [Hx Hoci]; [set_solver|].
  destruct (ch !! i) as [c|] eqn:Hc.
  2:{ exfalso. destruct (ValidateFieldName p i); [done|].
      apply permitted_record in Hr as (Hl & _ & _); [|intros []; solve_stable|done].
      simpl in Hl. by rewrite structural_refused in Hl. }
  apply permitted_bind in Hr as (co & cs1 & Hv & Hr & H1 & H2); [|solve_stable|intros; solve_stable|done].
  destruct (Hch _ _ Hc) as (_ & _ & _ & Hwc).
  assert (Hnotin : ∀ j y, (j, y) ∈ fs → j ≠ i).
  { intros j y Hj ->. apply Hi, list_elem_of_fmap. by exists (i, y). }
  destruct co as [o|]; [|eapply (IH ov oc); eauto; intros j y Hj; apply Hfs; set_solver].
  eapply (IH _ (<[i := o]> oc)); [by apply SetChild_overlay|done| | |exact Hr|done].
  - intros j y Hj. rewrite lookup_insert_ne by (symmetry; eauto). apply Hfs. set_solver.
  - intros j d. destruct (decide (i = j)) as [<-|]; [rewrite lookup_insert_eq|rewrite lookup_insert_ne by done; apply Hoc].
    intros [= <-]. exists c. split; [done|]. by eapply visit_grows.
Qed.

Lemma items_grows e arr i p dp ov cs r cs' : wf e → wfO ov → (∀ x, x ∈ arr → decoded x) →
  (∀ o, ov = Some o → grown ChangeLevelArrayElements e (mergeNode e o)) →
  items visit (Some e) arr i p dp ov cs = (Ret r, cs') → permitted cs cs' →
  ∀ o, r = Some o → grown ChangeLevelArrayElements e (mergeNode e o).
Proof.
  intros He. revert i ov cs. induction arr as [|x arr IH]; simpl; intros i ov cs Hov Hd Hgr Hr Hp.
  { by injection Hr as <- <-. }
  apply permitted_bind in Hr as (d & cs1 & Hv & Hr & H1 & H2); [|solve_stable|intros; solve_stable|done].
  assert (Hwd : wfO d) by (eapply visit_wf; [| |exact Hv]; [done|set_solver]).
  assert (Hgd : ∀ o, d = Some o → grown ChangeLevelArrayElements e (mergeNode e o)).
  { eapply visit_grows; [| |exact Hv|done]; [done|set_solver]. }
  rewrite Merge_J in Hr. eapply (IH (S i) (J mergeNode ov d)); [by apply wfO_J|set_solver| |exact Hr|done].
  intros o [(y & z & -> & -> & ->)|[[-> _]|[_ ->]]]%J_Some; [|by apply Hgr|by apply Hgd].
  assert (wf y) by by apply Hov. assert (wf z) by by apply Hwd.
  assert (Heq : mergeNode (mergeNode e y) (mergeNode e z) = mergeNode e (mergeNode y z)).
  { rewrite merge_assoc, <- (merge_assoc y e z), (merge_comm y e), (merge_assoc e y z) by auto using merge_wf.
    by rewrite <- merge_assoc, merge_idem by auto using merge_wf. }
  rewrite <- Heq. apply grown_join; auto using merge_wf.
Qed.

Lemma array_grows c n e arr p dp cs r cs' : wf n → n_array n = Some e → (∀ x, x ∈ arr → decoded x) →
  array visit n e arr p dp cs = (Ret r, cs') → permitted cs cs' → wfO r →
  ∀ o, r = Some o → grown c n (mergeNode n o).
Proof.
  intros Hn He Hd Hr Hp Hw o ->. unfold array in Hr.
  apply permitted_bind in Hr as (eo & cs1 & Ha & Hr & H1 & _); [|destruct e; solve_stable|intros; solve_stable|done].
  destruct eo as [eo|]; [|done]. injection Hr as <- <-. specialize (Hw _ eq_refl).
  assert (Hkn : Kinds n ≠ []) by (unfold Kinds, hasKind; rewrite He; by destruct (n_scalar n), (n_object n)).
  apply grown_within; [done|done| |done|done| |].
  - intros [] Hk _; try done. unfold hasKind. by rewrite He.
  - intros e' eo' He' [= <-]. assert (e = Some e') as -> by congruence.
    eapply (items_grows e' arr 0 _ _ None); [exact (wf_elem _ _ Hn He)|done|done|done|exact Ha|done|done].
  - intros He' eo' _. assert (e = None) as -> by congruence.
    by apply permitted_record in Ha as (Hl & _ & _); [|by intros []; destruct arr; solve_stable|].
Qed.

Lemma wrongKind_grows n v p dp l cs r cs' : wf n → wfO r →
  wrongKind false visit n v p dp l cs = (Ret r, cs') → permitted cs cs' →
  ∀ o, r = Some o → grown l n (mergeNode n o).
Proof.
  intros Hn Hw Hr Hp o ->. unfold wrongKind in Hr.
  apply permitted_record in Hr as (Hl & _ & _); [|intros []; solve_stable|done]. simpl in Hl.
  case_decide as Hk; [|by rewrite structural_refused in Hl].
  assert (Hnone : n_object n = None ∧ n_array n = None).
  { unfold Kinds, hasKind in Hk. destruct (n_scalar n), (n_object n), (n_array n); done. }
  destruct Hnone as [Ho Ha]. apply grown_within; [done|by apply Hw|done|by rewrite Hl|..]; congruence.
Qed.

Lemma leaf_grows l n t : wf n → t ≠ DNull → n_scalar n ≠ None → levelPermits level l = true →
  grown l n (mergeNode n (NewLeafNode t)).
Proof.
  intros Hn Ht Hs Hl. pose proof (wf_NewLeafNode t Ht) as Hw. revert Hw. unfold NewLeafNode. rewrite decide_False by done.
  intros Hw. apply grown_within; [done|done| |by rewrite Hl|done|done|done].
  intros [] Hk _; try done. unfold hasKind. by destruct (n_scalar n).
Qed.

Lemma node_grows n v p dp l cs r cs' : wf n → decoded v → wfO r →
  node false visit n v p dp l cs = (Ret r, cs') → permitted cs cs' →
  ∀ o, r = Some o → grown l n (mergeNode n o).
Proof.
  intros Hn Hd Hw Hr Hp o ->.
  assert (Hscalar : isScalar v = true → scalar false visit n v p dp l cs = (Ret (Some o), cs') → grown l n (mergeNode n o)).
  { intros Hsc Hs. unfold scalar in Hs. destruct (n_scalar n) as [T|] eqn:HT; [|by eapply wrongKind_grows].
    destruct (holdsScalar T v); [done|].
    apply permitted_record in Hs as (Hl & Hs & _); [|intros []; solve_stable|done]. injection Hs as <- _.
    apply leaf_grows; [done|by apply (infer_holds v)|by rewrite HT|done]. }
  pose proof Hd as Hd'. destruct Hd as [|fs Hnd Hfs|arr Harr|lit d Hpd|s|b]; simpl in Hr; [..|by apply Hscalar|by apply Hscalar|by apply Hscalar].
  - unfold null in Hr. destruct (n_nullable n || hasKind n KindLeaf); [done|].
    apply permitted_record in Hr as (Hl & Hr & _); [|intros []; solve_stable|done]. injection Hr as <- _.
    apply grown_within; [done|apply wf_marker|by intros []|by simpl in Hl; rewrite Hl|done..].
  - destruct (n_object n) as [ch|] eqn:Hch; [|by eapply wrongKind_grows].
    assert (Hwch : wfM ch) by by eapply wfM_children.
    eapply (object_grows _ _ fs p dp None ∅) in Hr as (oc' & Hov & Hg); [|done|done|done|by eauto|done|done].
    simpl in Hov. subst o. apply grown_within; [done|by apply Hw| | | |done|done].
    + intros [] Hk _; try done. unfold hasKind. by rewrite Hch.
    + intros _. split_and!; [done..|]. unfold Kinds, hasKind. rewrite Hch. by destruct (n_scalar n).
    + intros ch' Hch' oc [= <-]. assert (ch' = ch) as -> by congruence. exact Hg.
  - destruct (n_array n) as [e|] eqn:He; [|by eapply wrongKind_grows]. by eapply array_grows.
Qed.
End Visit.

Lemma walk_grows k n v p dp l cs r cs' : wf n → decoded v →
  walk false k (Some n) v p dp l cs = (Ret r, cs') → permitted cs cs' →
  ∀ o, r = Some o → grown l n (mergeNode n o).
Proof.
  revert n v p dp l cs r cs'. induction k as [|k IH]; [done|]. intros n v p dp l cs r cs' Hn Hd Hr Hp.
  assert (Hw : wfO r) by by eapply (walk_extends (S k) (Some n)); [by apply wfO_Some| |].
  refine (node_grows (walk false k) (walk_records false k) _ IH n v p dp l cs r cs' Hn Hd Hw Hr Hp).
  intros n0 v0 p0 dp0 l0 cs0 r0 cs0' Hn0 Hd0 Hr0.
  by destruct (walk_extends k (Some n0) v0 p0 dp0 l0 cs0 r0 cs0' (wfO_Some n0 Hn0) Hd0 Hr0).
Qed.

(** The change level confines an extension.  Below STRUCTURAL, an object of
    the model gains no field and a node that declares a kind gains no other; and
    wherever the configured level does not permit the scalar changes of a position
    (ARRAY_ELEMENTS directly on an array's element, TYPE elsewhere) its types, its
    marker and, if it declared nothing, the node itself are unchanged. *)
Theorem extend_confined m v m' : wf m → decoded v → Extend m v level = Ret m' → grown ChangeLevelType m m'.
Proof.
  intros Hm Hd (r & cs & Ha & -> & Hall)%Extend_Ret.
  destruct cs as [|c cs], r as [o|]; try apply grown_refl.
  refine (walk_grows _ _ _ _ _ _ _ _ _ Hm Hd Ha _ o eq_refl). by exists (c :: cs).
Qed.
End Level.
