(* ===== verification/SchemaSample.v ===== *)
(** * A concrete contract for the schema theorems

    Type names, the numeric widening lattice the repository documents, integer
    classification by range and a codec over bit strings: they satisfy the laws,
    and the schema theorems are applied to them at concrete models and documents. *)

From Stdlib Require Import Ascii.
From stdpp Require Import base gmap strings list sorting fin_maps pretty countable.
From S2P Require Import Prelude Schema SchemaLattice SchemaDelta SchemaAdmit SchemaExtend SchemaLevel.

Module Bits.
(** ** Bit strings *)

Fixpoint ofPos (p : positive) : string :=
  match p with xH => "" | xO p' => String "0" (ofPos p') | xI p' => String "1" (ofPos p') end.
Fixpoint toPos (s : string) : positive :=
  match s with
  | EmptyString => xH
  | String c s' => if Ascii.eqb c "1"%char then xI (toPos s') else xO (toPos s')
  end.
Lemma toPos_ofPos p : toPos (ofPos p) = p.
Proof. induction p as [p IH|p IH|]; simpl; by rewrite ?IH. Qed.

(** ** Nodes as trees of leaves *)

Inductive leaf : Type := LTypes (o : option (list DataType)) | LName (s : string) | LBool (b : bool).
#[export] Instance leaf_eq_dec : EqDecision leaf.
Proof. solve_decision. Defined.
#[export] Instance leaf_countable : Countable leaf.
Proof.
  refine (inj_countable'
    (λ l, match l with LTypes o => inl (inl o) | LName s => inl (inr s) | LBool b => inr b end)
    (λ c, match c with inl (inl o) => LTypes o | inl (inr s) => LName s | inr b => LBool b end) _).
  by intros [].
Defined.

Fixpoint toTree (n : ModelNode) : gen_tree leaf :=
  GenNode 0
    [GenLeaf (LTypes (elements <$> n_scalar n));
     match n_object n with
     | None => GenNode 0 []
     | Some m => GenNode 1 (map_fold (λ i c acc, GenNode 2 [GenLeaf (LName i); toTree c] :: acc) [] m)
     end;
     match n_array n with
     | None => GenNode 0 []
     | Some None => GenNode 1 []
     | Some (Some e) => GenNode 2 [toTree e]
     end;
     GenLeaf (LBool (n_nullable n))].

Fixpoint ofTree (fuel : nat) (t : gen_tree leaf) : option ModelNode :=
  match fuel with
  | O => None
  | S f =>
      match t with
      | GenNode 0 [GenLeaf (LTypes ts); o; a; GenLeaf (LBool nl)] =>
          object ← match o with
                   | GenNode 0 [] => Some None
                   | GenNode 1 cs =>
                       kvs ← mapM (λ c, match c with
                                        | GenNode 2 [GenLeaf (LName i); x] => n ← ofTree f x; Some (i, n)
                                        | _ => None
                                        end) cs;
                       Some (Some (list_to_map kvs))
                   | _ => None
                   end;
          array ← match a with
                  | GenNode 0 [] => Some None
                  | GenNode 1 [] => Some (Some None)
                  | GenNode 2 [x] => n ← ofTree f x; Some (Some (Some n))
                  | _ => None
                  end;
          Some (mkNode (list_to_set <$> ts) object array nl)
      | _ => None
      end
  end.

Fixpoint depth (n : ModelNode) : nat :=
  S (match n_object n with Some m => map_fold (λ _ c acc, depth c `max` acc) 0 m | None => 0 end `max`
     match n_array n with Some (Some e) => depth e | _ => 0 end).

Lemma depth_child (m : gmap string ModelNode) i c :
  m !! i = Some c → depth c ≤ map_fold (λ _ c acc, depth c `max` acc) 0 m.
Proof.
  revert c. apply (map_fold_weak_ind (λ r m, ∀ c, m !! i = Some c → depth c ≤ r)); [done|].
  intros j x m' r Hj IH c. destruct (decide (i = j)) as [->|].
  - rewrite lookup_insert_eq. intros [= ->]. lia.
  - rewrite lookup_insert_ne by done. intros Hc%IH. lia.
Qed.

Lemma ofTree_toTree n : ∀ fuel, depth n ≤ fuel → ofTree fuel (toTree n) = Some n.
Proof.
  induction n as [s o a nl IHo IHa] using node_ind. intros [|f] Hf; [simpl in Hf; lia|]. simpl.
  assert (Ho : match match o with
      | Some m => GenNode 1 (map_fold (λ i c acc, GenNode 2 [GenLeaf (LName i); toTree c] :: acc) [] m)
      | None => GenNode 0 [] end with
    | GenNode 0 [] => Some None
    | GenNode 1 cs => kvs ← mapM (λ c, match c with
          | GenNode 2 [GenLeaf (LName i); x] => n ← ofTree f x; Some (i, n) | _ => None end) cs;
        Some (Some (list_to_map kvs))
    | _ => None end = Some o).
  { destruct o as [m|]; [|done].
    assert (Hk : mapM (λ c, match c with
        | GenNode 2 [GenLeaf (LName i); x] => n ← ofTree f x; Some (i, n) | _ => None end)
        (map_fold (λ i c acc, GenNode 2 [GenLeaf (LName i); toTree c] :: acc) [] m) = Some (map_to_list m)).
    { rewrite map_fold_foldr. assert (Hl : ∀ l, l ⊆ map_to_list m →
        mapM (λ c, match c with
          | GenNode 2 [GenLeaf (LName i); x] => n ← ofTree f x; Some (i, n) | _ => None end)
          (foldr (uncurry (λ i c acc, GenNode 2 [GenLeaf (LName i); toTree c] :: acc)) [] l) = Some l).
      { induction l as [|[i c] l IHl]; intros Hl; [done|].
        assert (Hc : m !! i = Some c) by (apply elem_of_map_to_list, Hl; by left).
        cbn. rewrite (IHo m i c) by (done || simpl in Hf; pose proof (depth_child _ _ _ Hc); lia). cbn.
        specialize (IHl ltac:(set_solver)). simpl in IHl. rewrite IHl. done. }
      by apply Hl. }
    rewrite Hk. simpl. by rewrite list_to_map_to_list. }
  simpl in Ho. rewrite Ho. simpl.
  assert (Hs : list_to_set <$> (elements <$> s) = s) by (destruct s; simpl; [by rewrite list_to_set_elements_L|done]).
  destruct a as [[e|]|]; simpl; try by rewrite Hs.
  rewrite (IHa e) by (done || simpl in Hf; lia). simpl. by rewrite Hs.
Qed.

Definition Marshal (n : ModelNode) : serr + string := inr (ofPos (encode (depth n, toTree n))).
Definition Unmarshal (s : string) : serr + ModelNode :=
  match decode (A := nat * gen_tree leaf) (toPos s) with
  | Some (f, t) => match ofTree f t with Some n => inr n | None => inl (SErr "decode") end
  | None => inl (SErr "decode")
  end.
Lemma roundtrip n : ∃ b, Marshal n = inr b ∧ Unmarshal b = inr n.
Proof.
  eexists. split; [done|]. unfold Unmarshal. rewrite toPos_ofPos, decode_encode. by rewrite ofTree_toTree.
Qed.
End Bits.

Module SchemaSample.
(** ** The widening lattice *)

Lemma each {A} (P : A → Prop) l x : Forall P l → x ∈ l → P x.
Proof. induction 1; intros Hx; [by apply elem_of_nil in Hx|]. by apply elem_of_cons in Hx as [->|?]; auto. Qed.
Lemma all {A} (P : A → Prop) l : (∀ x, x ∈ l → P x) → Forall P l.
Proof. induction l as [|a l IH]; intros Hl; constructor; [apply Hl; by left|]. apply IH. intros x Hx. apply Hl. by right. Qed.
Lemma in_types t : t ∈ allDataTypes.
Proof. destruct t; apply (bool_decide_unpack _); by vm_compute. Qed.

(** What a numeric type widens to. *)
Definition up (t : DataType) : list DataType :=
  match t with
  | DInteger => [DInteger; DLong; DBigInteger; DUnboundInteger; DDouble; DBigDecimal; DUnboundDecimal]
  | DLong => [DLong; DBigInteger; DUnboundInteger; DBigDecimal; DUnboundDecimal]
  | DBigInteger => [DBigInteger; DUnboundInteger; DUnboundDecimal]
  | DUnboundInteger => [DUnboundInteger; DUnboundDecimal]
  | DDouble => [DDouble; DUnboundDecimal]
  | DBigDecimal => [DBigDecimal; DUnboundDecimal]
  | DUnboundDecimal => [DUnboundDecimal]
  | _ => []
  end.
Definition widens (t u : DataType) : Prop := u ∈ up t.
(** The narrowest type both widen to. *)
Definition join (t u : DataType) : DataType :=
  match filter (λ w, w ∈ up u) (up t) with w :: _ => w | [] => DUnboundDecimal end.

Definition numerics : list DataType := filter (λ t, numericType t = true) allDataTypes.
Lemma numeric_in t : numericType t = true → t ∈ numerics.
Proof. by destruct t; intros; try done; apply (bool_decide_unpack _); vm_compute. Qed.
Lemma widens_refl t : numericType t = true → widens t t.
Proof. unfold widens. destruct t; intros; try done; apply (bool_decide_unpack _); by vm_compute. Qed.
Lemma widens_trans t u w : widens t u → widens u w → widens t w.
Proof.
  assert (Hall : Forall (λ t, Forall (λ u, Forall (λ w, w ∈ up t) (up u)) (up t)) allDataTypes)
    by (apply (bool_decide_unpack _); by vm_compute).
  intros H1 H2. exact (each _ _ _ (each _ _ _ (each _ _ _ Hall (in_types t)) H1) H2).
Qed.
Lemma widens_anti t u : widens t u → widens u t → t = u.
Proof.
  assert (Hall : Forall (λ t, Forall (λ u, t ∈ up u → t = u) (up t)) allDataTypes)
    by (apply (bool_decide_unpack _); by vm_compute).
  intros H1 H2. exact (each _ _ _ (each _ _ _ Hall (in_types t)) H1 H2).
Qed.
Lemma widens_numeric t u : widens t u → numericType t = true ∧ numericType u = true.
Proof.
  assert (Hall : Forall (λ t, Forall (λ u, numericType t = true ∧ numericType u = true) (up t)) allDataTypes)
    by (apply (bool_decide_unpack _); by vm_compute).
  intros H1. exact (each _ _ _ (each _ _ _ Hall (in_types t)) H1).
Qed.
Lemma join_lub t u : numericType t = true → numericType u = true →
  widens t (join t u) ∧ widens u (join t u) ∧ ∀ w, widens t w → widens u w → widens (join t u) w.
Proof.
  assert (Hall : Forall (λ t, Forall (λ u, join t u ∈ up t ∧ join t u ∈ up u ∧
      Forall (λ w, w ∈ up t → w ∈ up u → w ∈ up (join t u)) allDataTypes) numerics) numerics)
    by (apply (bool_decide_unpack _); by vm_compute).
  intros Ht%numeric_in Hu%numeric_in.
  destruct (each _ _ _ (each _ _ _ Hall Ht) Hu) as (H1 & H2 & H3).
  split_and!; [done..|]. intros w. exact (each _ _ _ H3 (in_types w)).
Qed.

(** ** Collapsing a type set *)

Definition numPart (S : gset DataType) : gset DataType :=
  match filter (λ t, numericType t = true) (elements S) with
  | [] => ∅
  | t :: ts => {[foldl join t ts]}
  end.
Definition collapse (S : gset DataType) : gset DataType := filter (λ t, numericType t = false) S ∪ numPart S.

Definition ub (S : gset DataType) (w : DataType) : Prop :=
  numericType w = true ∧ ∀ t, t ∈ S → numericType t = true → widens t w.
Definition lub (S : gset DataType) (w : DataType) : Prop := ub S w ∧ ∀ y, ub S y → widens w y.

Lemma foldl_lub t ts : Forall (λ t, numericType t = true) (t :: ts) →
  numericType (foldl join t ts) = true ∧ Forall (λ u, widens u (foldl join t ts)) (t :: ts) ∧
  ∀ y, Forall (λ u, widens u y) (t :: ts) → widens (foldl join t ts) y.
Proof.
  revert t. induction ts as [|u ts IH]; intros t Hall; simpl.
  - apply Forall_cons_1 in Hall as [Ht _]. split_and!; [done|by repeat constructor; apply widens_refl|].
    by intros y [? _]%Forall_cons_1.
  - apply Forall_cons_1 in Hall as [Ht [Hu Hts]%Forall_cons_1]. destruct (join_lub t u Ht Hu) as (H1 & H2 & H3).
    assert (Hj : numericType (join t u) = true) by by apply widens_numeric in H1 as [_ ?].
    destruct (IH (join t u)) as (Hn & [Hub1 Hub]%Forall_cons_1 & Hleast); [by constructor|].
    split_and!; [done| |].
    + constructor; [exact (widens_trans _ _ _ H1 Hub1)|]. constructor; [exact (widens_trans _ _ _ H2 Hub1)|done].
    + intros y Hall'. apply Forall_cons_1 in Hall' as [Hty Hall']. apply Forall_cons_1 in Hall' as [Huy Htsy]. apply Hleast. constructor; [by apply H3|done].
Qed.

Lemma numPart_spec S t : t ∈ numPart S ↔ lub S t ∧ ∃ u, u ∈ S ∧ numericType u = true.
Proof.
  unfold numPart. destruct (filter _ (elements S)) as [|x xs] eqn:E.
  - split; [set_solver|]. intros [_ (u & Hu & Hn)].
    assert (Hin : u ∈ filter (λ t, numericType t = true) (elements S))
      by (apply list_elem_of_filter; split; [done|by apply elem_of_elements]).
    rewrite E in Hin. by apply elem_of_nil in Hin.
  - assert (Hmem : ∀ u, u ∈ x :: xs ↔ u ∈ S ∧ numericType u = true).
    { intros u. rewrite <- E, list_elem_of_filter, elem_of_elements. naive_solver. }
    destruct (foldl_lub x xs) as (Hn & Hub & Hleast); [apply all; intros u Hu; by apply Hmem|].
    pose proof (λ u, each _ _ u Hub) as Hub'.
    assert (Hlub : lub S (foldl join x xs)).
    { split; [split; [done|]; intros u Hu Hnu; by apply Hub', Hmem|]. intros y [_ Hy]. apply Hleast, all.
      intros u [? ?]%Hmem. by apply Hy. }
    rewrite elem_of_singleton. split.
    + intros ->. split; [done|]. exists x. apply Hmem. by left.
    + intros [[Hu1 Hl1] _]. apply widens_anti; [by apply Hl1, Hlub|]. by apply Hlub.
Qed.
Lemma collapse_spec S t : t ∈ collapse S ↔
  (t ∈ S ∧ numericType t = false) ∨ (lub S t ∧ ∃ u, u ∈ S ∧ numericType u = true).
Proof. unfold collapse. rewrite elem_of_union, elem_of_filter, numPart_spec. naive_solver. Qed.
Lemma lub_exists S u : u ∈ S → numericType u = true → ∃ j, lub S j ∧ widens u j ∧ j ∈ collapse S.
Proof.
  intros Hu Hn. assert (Hne : ∃ j, j ∈ numPart S).
  { unfold numPart. destruct (filter _ (elements S)) as [|x xs] eqn:E; [|eexists; by apply elem_of_singleton].
    assert (Hin : u ∈ filter (λ t, numericType t = true) (elements S))
      by (apply list_elem_of_filter; split; [done|by apply elem_of_elements]).
    rewrite E in Hin. by apply elem_of_nil in Hin. }
  destruct Hne as [j Hj]. exists j. pose proof (proj1 (numPart_spec _ _) Hj) as [Hl _].
  split_and!; [done|by apply Hl|]. unfold collapse. set_solver.
Qed.
Lemma ub_collapse S T y : ub (collapse S ∪ T) y ↔ ub (S ∪ T) y.
Proof.
  split; intros [Hy Hub]; (split; [done|]); intros t [Ht|Ht]%elem_of_union Hn;
    [|by apply Hub; [apply elem_of_union; right|]| |by apply Hub; [apply elem_of_union; right|]].
  - destruct (lub_exists S t Ht Hn) as (j & Hj & Htj & Hin). eapply widens_trans; [exact Htj|].
    apply Hub; [apply elem_of_union; by left|]. apply Hj.
  - apply collapse_spec in Ht as [[_ Hc]|[[_ Hleast] _]]; [by rewrite Hn in Hc|]. apply Hleast. split; [done|].
    intros u Hu Hnu. apply Hub; [set_solver|done].
Qed.
Lemma collapse_union S T : collapse (collapse S ∪ T) = collapse (S ∪ T).
Proof.
  apply set_eq. intros t. rewrite !collapse_spec.
  assert (Hl : lub (collapse S ∪ T) t ↔ lub (S ∪ T) t) by (unfold lub; by setoid_rewrite ub_collapse).
  assert (Hn : (t ∈ collapse S ∪ T ∧ numericType t = false) ↔ (t ∈ S ∪ T ∧ numericType t = false)).
  { rewrite !elem_of_union, collapse_spec. split; [|naive_solver].
    intros [[[[? ?]|[[[Hc _] _] _]]|?] Hf]; [naive_solver|by rewrite Hf in Hc|naive_solver]. }
  assert (He : (∃ u, u ∈ collapse S ∪ T ∧ numericType u = true) ↔ (∃ u, u ∈ S ∪ T ∧ numericType u = true)).
  { setoid_rewrite elem_of_union. split; intros (u & [Hu|Hu] & Hnu); [|by exists u; auto| |by exists u; auto].
    - apply collapse_spec in Hu as [[? ?]|[_ (w & ? & ?)]]; [by exists u; auto|by exists w; auto].
    - destruct (lub_exists S u Hu Hnu) as (j & Hj & _ & Hin). exists j. split; [by left|]. apply Hj. }
  by rewrite Hl, Hn, He.
Qed.

(** ** The instances *)

Definition dtString (t : DataType) : string :=
  match t with
  | DInteger => "INTEGER" | DLong => "LONG" | DBigInteger => "BIG_INTEGER" | DUnboundInteger => "UNBOUND_INTEGER"
  | DDouble => "DOUBLE" | DBigDecimal => "BIG_DECIMAL" | DUnboundDecimal => "UNBOUND_DECIMAL"
  | DString => "STRING" | DCharacter => "CHARACTER" | DLocalDate => "LOCAL_DATE"
  | DLocalDateTime => "LOCAL_DATE_TIME" | DLocalTime => "LOCAL_TIME" | DZonedDateTime => "ZONED_DATE_TIME"
  | DYear => "YEAR" | DYearMonth => "YEAR_MONTH" | DUUID => "UUID" | DTimeUUID => "TIME_UUID"
  | DByteArray => "BYTE_ARRAY" | DBoolean => "BOOLEAN" | DNull => "NULL"
  end.
Definition ParseDataType (s : string) : option DataType := snd <$> list_find (λ t, dtString t = s) allDataTypes.

#[export] Instance spi : SchemaSPI := {|
  Schema.dtString := dtString; Schema.ParseDataType := ParseDataType; Schema.collapse := collapse;
  Schema.Marshal := Bits.Marshal; Schema.Unmarshal := Bits.Unmarshal |}.
#[export] Instance laws : SchemaLaws.
Proof.
  constructor.
  - intros []; by vm_compute.
  - by intros [].
  - apply collapse_union.
  - intros []; apply (bool_decide_unpack _); by vm_compute.
  - intros S HS [[? _]|[[[Hn _] _] _]]%collapse_spec; [done|]. done.
  - intros S HS. change (collapse S ≠ ∅). apply set_choose_L in HS as [t Ht]. destruct (numericType t) eqn:Hn.
    + destruct (lub_exists S t Ht Hn) as (j & _ & _ & Hj). intros He. rewrite He in Hj. by apply not_elem_of_empty in Hj.
    + assert (Hc : t ∈ collapse S) by (apply collapse_spec; by left). intros He. rewrite He in Hc. by apply not_elem_of_empty in Hc.
  - intros n _. apply Bits.roundtrip.
  - intros n. by vm_compute.
Qed.

(** Whole numbers only, classified and admitted by their range. *)
Fixpoint digits (acc : Z) (s : string) : option Z :=
  match s with
  | EmptyString => Some acc
  | String c s' =>
      let d := (Z.of_N (Ascii.N_of_ascii c) - 48)%Z in
      if decide (0 ≤ d ≤ 9)%Z then digits (acc * 10 + d)%Z s' else None
  end.
Definition parse (s : string) : option Z :=
  match s with
  | EmptyString => None
  | String c t => if Ascii.eqb c "-"%char then match t with EmptyString => None | _ => Z.opp <$> digits 0 t end else digits 0 s
  end.
Definition within (t : DataType) (z : Z) : bool :=
  match t with
  | DInteger => bool_decide (-(2^31) ≤ z < 2^31)%Z
  | DLong => bool_decide (-(2^63) ≤ z < 2^63)%Z
  | DBigInteger => bool_decide (-(2^127) ≤ z < 2^127)%Z
  | DDouble => bool_decide (-(10^15) < z < 10^15)%Z
  | DBigDecimal => bool_decide (-(10^20) < z < 10^20)%Z
  | DUnboundInteger | DUnboundDecimal => true
  | _ => false
  end.
Definition classify (z : Z) : DataType :=
  if within DInteger z then DInteger else if within DLong z then DLong
  else if within DBigInteger z then DBigInteger else DUnboundInteger.

#[export] Instance classifier : Classifier := {|
  Decimal := Z; ParseDecimal := parse; StripTrailingZeros := λ z, z; Scale := λ _, 0%Z; Precision := λ _, 1%Z;
  Unscaled := λ z, z; ClassifyInteger := classify; ClassifyDecimal := λ _, DUnboundDecimal; AdmitsNumeric := within;
  ClassifyTemporalString := λ s, if decide (s = "2026-01-31") then Some DLocalDate else None |}.

Lemma within_widens t u z : widens t u → within t z = true → within u z = true.
Proof.
  unfold widens. destruct t; simpl; intros Hu Hw; rewrite ?elem_of_cons, ?elem_of_nil in Hu; try done;
    repeat destruct Hu as [->|Hu]; try done; simpl; rewrite ?bool_decide_eq_true in *; lia.
Qed.
#[export] Instance classifier_laws : ClassifierLaws.
Proof.
  constructor; simpl.
  - intros z _. replace (z * _)%Z with z by (simpl; lia). unfold classify.
    destruct (within DInteger z) eqn:H1; [done|]. destruct (within DLong z) eqn:H2; [done|].
    by destruct (within DBigInteger z) eqn:H3.
  - done.
  - lia.
  - intros t z Hw. by destruct t.
  - intros s t. case_decide; [by intros [= <-]|done].
  - intros S t z Ht Hw. assert (Hn : numericType t = true) by by destruct t.
    destruct (lub_exists S t Ht Hn) as (j & _ & Hj & Hin). exists j. split; [done|]. by eapply within_widens.
  - intros S t Ht Hn. apply collapse_spec. by left.
Qed.
End SchemaSample.

(** ** The theorems at concrete models *)

Import SchemaSample.

Definition leafOf (t : DataType) : ModelNode := mkNode (Some {[t]}) None None false.
Definition objectOf (l : list (string * ModelNode)) : ModelNode := mkNode None (Some (list_to_map l)) None false.

Definition sampleBase : ModelNode := objectOf [("a", leafOf DInteger); ("tags", mkNode None None (Some None) false)].
Definition sampleLeft : ModelNode := objectOf [("a", leafOf DDouble); ("tags", NewArrayNode (Some (leafOf DString)))].
Definition sampleRight : ModelNode := objectOf [("a", leafOf DLong); ("tags", NewArrayNode (Some (objectOf [("k", leafOf DBoolean)])))].
Definition sampleDoc : JSON :=
  JObject [("a", JNumber "3000000000"); ("tags", JArray [JString "x"; JNull]); ("n", JObject [("ok", JBool true)])].

Lemma wf_leafOf t : t ≠ DNull → wf (leafOf t).
Proof. intros Ht. by apply wf_leaf, typesWf_single. Qed.
Lemma wf_objectOf l : Forall (λ p, (p.1 ≠ "" ∧ p.1 ≠ "[]" ∧ splitSlash p.1 = [p.1]) ∧ wf p.2) l → wf (objectOf l).
Proof.
  intros Hl. apply wf_object_only. intros i c Hc%elem_of_list_to_map_2.
  destruct (each _ _ _ Hl Hc) as [(? & ? & ?) ?]. done.
Qed.
Lemma wf_base : wf sampleBase.
Proof.
  apply wf_objectOf. constructor; [split; [done|by apply wf_leafOf]|]. constructor; [split; [done|]|done].
  by apply wf_array_only.
Qed.
Lemma wf_left : wf sampleLeft.
Proof.
  apply wf_objectOf. constructor; [split; [done|by apply wf_leafOf]|]. constructor; [split; [done|]|done].
  apply wf_array_only. intros x [= <-]. by apply wf_leafOf.
Qed.
Lemma wf_right : wf sampleRight.
Proof.
  apply wf_objectOf. constructor; [split; [done|by apply wf_leafOf]|]. constructor; [split; [done|]|done].
  apply wf_array_only. intros x [= <-]. apply wf_objectOf. constructor; [split; [done|by apply wf_leafOf]|done].
Qed.
Lemma decoded_doc : decoded sampleDoc.
Proof.
  apply decoded_object; [apply (bool_decide_unpack _); by vm_compute|].
  intros i x Hx. rewrite !elem_of_cons, elem_of_nil in Hx. destruct Hx as [[= -> ->]|[[= -> ->]|[[= -> ->]|[]]]].
  - by eapply decoded_number.
  - apply decoded_array. intros y Hy. rewrite !elem_of_cons, elem_of_nil in Hy. by destruct Hy as [->|[->|[]]]; constructor.
  - apply decoded_object; [apply (bool_decide_unpack _); by vm_compute|].
    intros j y Hy. rewrite elem_of_cons, elem_of_nil in Hy. by destruct Hy as [[= -> ->]|[]]; constructor.
Qed.

Lemma merge_is_join_witness : Merge (Some sampleBase) (Some sampleLeft) = Merge (Some sampleLeft) (Some sampleBase).
Proof.
  refine (proj1 (merge_is_join (Some sampleBase) (Some sampleLeft) (Some sampleRight) _)).
  intros n Hn. rewrite !elem_of_cons, elem_of_nil in Hn.
  destruct Hn as [->|[->|[->|[]]]]; intros x [= <-]; [exact wf_base|exact wf_left|exact wf_right].
Defined.

Lemma delta_commutes_witness :
  ∃ d d', Diff (Some sampleBase) (Some (mergeNode sampleBase sampleLeft)) = inr d ∧
    Diff (Some sampleBase) (Some (mergeNode sampleBase sampleRight)) = inr d' ∧ length d = 2 ∧ length d' = 2 ∧
    Apply (Some (mergeNode sampleBase sampleLeft)) d' = Apply (Some (mergeNode sampleBase sampleRight)) d.
Proof.
  destruct (delta_commutes sampleBase sampleLeft sampleRight wf_base wf_left wf_right) as (d & Hd & _ & _ & Hcomm).
  destruct (Diff (Some sampleBase) (Some (mergeNode sampleBase sampleRight))) as [e|d'] eqn:Hd'; [by vm_compute in Hd'|].
  exists d, d'. split; [exact Hd|]. split; [reflexivity|].
  split; [vm_compute in Hd; injection Hd as <-; reflexivity|]. split; [vm_compute in Hd'; injection Hd' as <-; reflexivity|].
  exact (Hcomm d' eq_refl).
Defined.

Lemma extend_admits_witness :
  ∃ m', Extend sampleBase sampleDoc ChangeLevelStructural = Ret m' ∧ Validate sampleBase sampleDoc ≠ [] ∧
    Validate m' sampleDoc = [].
Proof.
  assert (Hr : match Extend sampleBase sampleDoc ChangeLevelStructural with Ret _ => True | _ => False end) by by_eval.
  destruct (Extend sampleBase sampleDoc ChangeLevelStructural) as [m'|e|w] eqn:He; [|destruct Hr..].
  exists m'. split; [reflexivity|]. split; [by vm_compute|].
  exact (proj1 (extend_admits sampleBase sampleDoc ChangeLevelStructural m' wf_base decoded_doc He)).
Defined.

Lemma validation_monotone_witness :
  Validate (mergeNode (mergeNode sampleBase sampleLeft) sampleRight) (JObject [("a", JNumber "7"); ("tags", JArray [JString "x"])]) = [].
Proof.
  apply (validation_monotone (mergeNode sampleBase sampleLeft) sampleRight);
    [apply merge_wf; [exact wf_base|exact wf_left]|exact wf_right|by_eval].
Defined.

(** At TYPE the field learns another type; the new field is refused. *)
Lemma extend_confined_witness :
  ∃ m', Extend sampleBase (JObject [("a", JString "x")]) ChangeLevelType = Ret m' ∧
    Extend sampleBase sampleDoc ChangeLevelType = Err (SLevel ".n") ∧
    grown ChangeLevelType ChangeLevelType sampleBase m'.
Proof.
  assert (Hr : match Extend sampleBase (JObject [("a", JString "x")]) ChangeLevelType with Ret _ => True | _ => False end)
    by by_eval.
  destruct (Extend sampleBase (JObject [("a", JString "x")]) ChangeLevelType) as [m'|e|w] eqn:He; [|destruct Hr..].
  exists m'. split; [reflexivity|]. split; [by_eval|].
  assert (Hd : decoded (JObject [("a", JString "x")])).
  { apply decoded_object; [apply (bool_decide_unpack _); by vm_compute|].
    intros j y Hy. rewrite elem_of_cons, elem_of_nil in Hy. by destruct Hy as [[= -> ->]|[]]; constructor. }
  assert (Hl : ChangeLevelType ≠ ChangeLevelStructural) by discriminate.
  exact (extend_confined ChangeLevelType Hl sampleBase (JObject [("a", JString "x")]) m' wf_base Hd He).
Defined.
