(* ===== verification/Ingest.v ===== *)
(** * Ingest: the schema check every entity payload passes

    [internal/domain/model/ingest/validate.go], the unique-key guard of
    [internal/domain/model/schema/uniquekey_validate.go], the replay function
    [app/app.go] hands to the storage plugin, and the classification of the
    outcome in [internal/domain/entity/handler.go], composed with the model
    schema and the memory plugin's model store. *)

From Stdlib Require Import Ascii.
From stdpp Require Import base gmap strings list.
From S2P Require Import Prelude Spi MemStores Schema SchemaLattice SchemaDelta SchemaAdmit SchemaExtend.
Import ModelStore.

(** ** Unique keys *)

Record FieldDescriptor := mkField { fd_Path : string; fd_IsArray : bool }.

Inductive UniqueKeyReason : Type :=
| EmptyKeyID | DuplicateKeyID (id : string) | NoFields (id : string)
| DuplicateField (id field : string) | NotAScalarLeaf (id field : string).

(** [strings.ContainsAny(p, "[*")]. *)
Fixpoint containsAny (p : string) : bool :=
  match p with
  | EmptyString => false
  | String c p => Ascii.eqb c "["%char || Ascii.eqb c "*"%char || containsAny p
  end.

(** The removal of every path whose node declares a container kind; children are
    visited in an arbitrary order, as the map is. *)
Fixpoint dropContainerPaths (n : ModelNode) (prefix : string) (paths : gset string) : gset string :=
  let '(mkNode _ o a _) := n in
  let paths := match o, a with None, None => paths | _, _ => paths ∖ {[prefix]} end in
  match o with
  | None => paths
  | Some ch => map_fold (λ name child acc, dropContainerPaths child (prefix +:+ "." +:+ name) acc) paths ch
  end.

(** The fields of one key, [seenFields] being those before. *)
Fixpoint checkFields (scalarLeafs : gset string) (id : string) (fields : list string) (seenFields : gset string) :
    option UniqueKeyReason :=
  match fields with
  | [] => None
  | field :: rest =>
      if decide (field ∈ seenFields) then Some (DuplicateField id field) else
      if decide (field ∈ scalarLeafs) then checkFields scalarLeafs id rest ({[field]} ∪ seenFields)
      else Some (NotAScalarLeaf id field)
  end.
Fixpoint checkKeys (scalarLeafs : gset string) (keys : list UniqueKey) (seenIDs : gset string) : option UniqueKeyReason :=
  match keys with
  | [] => None
  | key :: rest =>
      if decide (uk_ID key = "") then Some EmptyKeyID else
      if decide (uk_ID key ∈ seenIDs) then Some (DuplicateKeyID (uk_ID key)) else
      match uk_Fields key with
      | [] => Some (NoFields (uk_ID key))
      | fields =>
          match checkFields scalarLeafs (uk_ID key) fields ∅ with
          | Some r => Some r
          | None => checkKeys scalarLeafs rest ({[uk_ID key]} ∪ seenIDs)
          end
      end
  end.

Section UniqueKeys.
(** The flattening of a model, [spi.ModelNode.Fields]. *)
Context (Fields : ModelNode → list FieldDescriptor).

Definition scalarLeafs (n : ModelNode) : gset string :=
  dropContainerPaths n "$"
    (list_to_set (fd_Path <$> filter (λ f, fd_IsArray f = false ∧ containsAny (fd_Path f) = false) (Fields n))).
Definition ValidateUniqueKeys (n : ModelNode) (keys : list UniqueKey) : option UniqueKeyReason :=
  checkKeys (scalarLeafs n) keys ∅.
End UniqueKeys.

(** *** What a valid definition means *)

(** [reaches n p q c]: from the node [n], spelled [p], the path [q] leads to [c]
    through object branches. *)
Inductive reaches : ModelNode → string → string → ModelNode → Prop :=
| reach_here n p : reaches n p p n
| reach_child n ch name child p q c : n_object n = Some ch → ch !! name = Some child →
    reaches child (p +:+ "." +:+ name) q c → reaches n p q c.
Definition leafOnly (c : ModelNode) : Prop := n_object c = None ∧ n_array c = None.

Lemma dropContainerPaths_spec n p paths q : q ∈ dropContainerPaths n p paths →
  q ∈ paths ∧ ∀ c, reaches n p q c → leafOnly c.
Proof.
  revert p paths. induction n as [s o a nl IHo _] using node_ind. intros p paths Hq. simpl in Hq.
  set (paths' := match o, a with None, None => paths | _, _ => paths ∖ {[p]} end) in Hq.
  assert (Hhere : q ∈ paths' → q ∈ paths ∧ (q = p → leafOnly (mkNode s o a nl))).
  { unfold paths', leafOnly. destruct o, a; [..|done].
    all: intros [Hi Hn]%elem_of_difference; split; [done|]; intros ->; by destruct Hn; apply elem_of_singleton. }
  assert (Hsub : q ∈ paths' ∧ ∀ ch name child, o = Some ch → ch !! name = Some child →
    ∀ c, reaches child (p +:+ "." +:+ name) q c → leafOnly c).
  { destruct o as [ch|]; [|done].
    enough (Hfold : q ∈ paths' ∧ ∀ name child, ch !! name = Some child → ∀ c, reaches child (p +:+ "." +:+ name) q c → leafOnly c)
      by (split; [apply Hfold|]; intros ch' name child [= <-]; apply Hfold).
    assert (IH : ∀ name child, ch !! name = Some child → ∀ P, q ∈ dropContainerPaths child (p +:+ "." +:+ name) P →
      q ∈ P ∧ ∀ c, reaches child (p +:+ "." +:+ name) q c → leafOnly c) by (intros; by eapply IHo).
    clear IHo Hhere. revert Hq IH.
    apply (map_fold_weak_ind (λ r m, q ∈ r → (∀ name child, m !! name = Some child → ∀ P, _ → _) →
      q ∈ paths' ∧ ∀ name child, m !! name = Some child → ∀ c, reaches child (p +:+ "." +:+ name) q c → leafOnly c)).
    { intros Hq _. by split. }
    intros name child m r Hm IHm Hq IH. destruct (IH name child ltac:(by simplify_map_eq) r Hq) as [Hr Hleaf].
    destruct IHm as [H1 H2]; [done|by intros i x Hx; apply IH; rewrite lookup_insert_ne; [|congruence]|].
    split; [done|]. intros i x Hx. apply lookup_insert_Some in Hx as [[<- <-]|[_ Hx]]; [done|by apply H2]. }
  destruct Hsub as [Hp Hch]. destruct (Hhere Hp) as [Hin Hroot]. split; [done|]. intros c Hr.
  inversion Hr as [|? ch name child ? ? ? Ho Hc Hrest]; subst; [by apply Hroot|]. by eapply Hch.
Qed.

(** A key can be enforced: it is named, its fields are distinct, each a known
    field of the model that is not an array element, and no field's path leads to
    a node that admits an object or an array. *)
Definition enforceable (Fields : ModelNode → list FieldDescriptor) (n : ModelNode) (keys : list UniqueKey) : Prop :=
  NoDup (uk_ID <$> keys) ∧
  ∀ key, key ∈ keys → uk_ID key ≠ "" ∧ uk_Fields key ≠ [] ∧ NoDup (uk_Fields key) ∧
    ∀ field, field ∈ uk_Fields key →
      (∃ f, f ∈ Fields n ∧ fd_Path f = field ∧ fd_IsArray f = false) ∧ ∀ c, reaches n "$" field c → leafOnly c.

Lemma checkFields_spec leafs id fields seen : checkFields leafs id fields seen = None →
  NoDup fields ∧ ∀ f, f ∈ fields → f ∉ seen ∧ f ∈ leafs.
Proof.
  revert seen. induction fields as [|f fields IH]; intros seen Hc; [split; [constructor|set_solver]|]. simpl in Hc.
  case_decide; [done|]. case_decide; [|done]. destruct (IH _ Hc) as [Hnd Hall]. split.
  - constructor; [|done]. intros Hf. destruct (Hall f Hf). set_solver.
  - intros g [->|Hg]%elem_of_cons; [done|]. destruct (Hall g Hg). set_solver.
Qed.
Lemma checkKeys_spec leafs keys seen : checkKeys leafs keys seen = None →
  NoDup (uk_ID <$> keys) ∧ ∀ key, key ∈ keys → uk_ID key ∉ seen ∧ uk_ID key ≠ "" ∧ uk_Fields key ≠ [] ∧
    NoDup (uk_Fields key) ∧ ∀ f, f ∈ uk_Fields key → f ∈ leafs.
Proof.
  revert seen. induction keys as [|k keys IH]; intros seen Hc; [split; [constructor|set_solver]|]. cbn [checkKeys] in Hc.
  case_decide; [done|]. case_decide; [done|]. destruct (uk_Fields k) as [|f fs] eqn:Hf; [done|].
  destruct (checkFields _ _ _ _) eqn:Hcf; [done|]. apply checkFields_spec in Hcf as [Hnd Hfs].
  destruct (IH _ Hc) as [Hids Hall]. split.
  - simpl. constructor; [|done]. intros (k' & Heq & Hk')%list_elem_of_fmap. destruct (Hall k' Hk') as [Hns _]. set_solver.
  - intros k' [->|Hk']%elem_of_cons.
    + rewrite Hf. split_and!; [done..|]. intros g Hg. by apply Hfs.
    + destruct (Hall k' Hk') as (? & ? & ? & ? & ?). split_and!; [set_solver|done..].
Qed.
Lemma ValidateUniqueKeys_spec Fields n keys : ValidateUniqueKeys Fields n keys = None → enforceable Fields n keys.
Proof.
  intros Hv%checkKeys_spec. destruct Hv as [Hids Hall]. split; [done|]. intros key Hk.
  destruct (Hall key Hk) as (_ & Hid & Hne & Hnd & Hfs). split_and!; [done..|]. intros field Hf.
  apply Hfs, dropContainerPaths_spec in Hf as [Hp Hr]. split; [|done].
  apply elem_of_list_to_set, list_elem_of_fmap in Hp as (f & -> & Hf). apply list_elem_of_filter in Hf as [[Ha _] Hin]. by exists f.
Qed.

(** ** Outcomes *)

Definition maxRenderedValidationErrors : nat := 32.

(** A joined message: the entries it spells out and how many it only counts. *)
Record Rendered := mkRendered { rd_shown : list ValidationError; rd_more : nat }.

Inductive ierr : Type :=
| ErrInternalSchema
| IncompatibleTypeError (path : string) (expected : gset DataType) (actual : option DataType) (msg : Rendered)
    (ref : option ModelRef)
| ValidationFailed (msg : Rendered)
| InvalidFieldName (parent name : string)
| ChangeLevelViolation (path : string)
| InvalidUniqueKey (r : UniqueKeyReason)
| AdmissionFailed.

Definition ValidationErrorsToError (errs : list ValidationError) : ierr :=
  let joined := mkRendered (take maxRenderedValidationErrors errs) (length errs - maxRenderedValidationErrors) in
  match FirstIncompatibleType errs with
  | Some first => IncompatibleTypeError (ve_Path first) (ve_ExpectedTypes first) (ve_ActualType first) joined None
  | None => ValidationFailed joined
  end.

Definition enrichWithModelRef (e : ierr) (ref : ModelRef) : ierr :=
  match e with
  | IncompatibleTypeError path expected actual msg _ => IncompatibleTypeError path expected actual msg (Some ref)
  | _ => e
  end.

(** The client-visible classification: status and error code. *)
Inductive ErrorCode : Type :=
| ErrCodeValidationFailed | ErrCodeInvalidUniqueKeyDefinition | ErrCodeIncompatibleType | ErrCodeServerError.
Definition classifyValidateOrExtendErr (e : ierr) : nat * ErrorCode :=
  match e with
  | InvalidFieldName _ _ => (400, ErrCodeValidationFailed)
  | InvalidUniqueKey _ => (422, ErrCodeInvalidUniqueKeyDefinition)
  | IncompatibleTypeError _ _ _ _ _ => (400, ErrCodeIncompatibleType)
  | ErrInternalSchema => (500, ErrCodeServerError)
  | ValidationFailed _ | ChangeLevelViolation _ | AdmissionFailed => (400, ErrCodeValidationFailed)
  end.

(** The configured level, spelled as the descriptor stores it. *)
Definition parseLevel (s : string) : ChangeLevel :=
  if decide (s = "ARRAY_LENGTH") then ChangeLevelArrayLength else
  if decide (s = "ARRAY_ELEMENTS") then ChangeLevelArrayElements else
  if decide (s = "TYPE") then ChangeLevelType else
  if decide (s = "STRUCTURAL") then ChangeLevelStructural else LevelNone.

Section Ingest.
Context `{SchemaSPI} {K : Classifier} (Fields : ModelNode → list FieldDescriptor).

(** The function the plugin replays a delta with. *)
Definition makeSchemaApply (base : string) (delta : SchemaDelta) : err + string :=
  match Unmarshal base with
  | inl _ => inl (ErrText "apply: unmarshal base")
  | inr node =>
      match Apply (Some node) delta with
      | inl _ => inl (ErrText "apply")
      | inr extended => match Marshal extended with inl _ => inl (ErrText "marshal") | inr b => inr b end
      end
  end.

Definition ValidateStrict (desc : ModelDescriptor) (parsedData : JSON) : option ierr :=
  match Unmarshal (d_Schema desc) with
  | inl _ => Some ErrInternalSchema
  | inr modelNode =>
      match Validate modelNode parsedData with
      | [] => None
      | errs => Some (enrichWithModelRef (ValidationErrorsToError errs) (d_Ref desc))
      end
  end.

Definition ValidateDescriptor (desc : option ModelDescriptor) (data : JSON) : list ValidationError :=
  match desc with
  | None => [mkVErr "" ErrKindGeneric ∅ None]
  | Some desc =>
      match Unmarshal (d_Schema desc) with
      | inl _ => [mkVErr "" ErrKindGeneric ∅ None]
      | inr node => Validate node data
      end
  end.

(** What the refusals of [Extend] become. *)
Definition extendError (e : serr) : ierr :=
  match e with
  | SFieldName parent name => InvalidFieldName parent name
  | SLevel path => ChangeLevelViolation path
  | SUnsupported _ => ErrInternalSchema
  | _ => AdmissionFailed
  end.

(** [extendSchema] is the model store's, for the caller's tenant. *)
Definition ValidateOrExtend {St} (extendSchema : ModelRef → SchemaDelta → M err St unit) (desc : ModelDescriptor)
    (parsedData : JSON) : M ierr St unit :=
  match Unmarshal (d_Schema desc) with
  | inl _ => fail ErrInternalSchema
  | inr modelNode =>
      if decide (d_ChangeLevel desc = "") then
        match Validate modelNode parsedData with
        | [] => mret tt
        | errs => fail (enrichWithModelRef (ValidationErrorsToError errs) (d_Ref desc))
        end
      else
        match Extend modelNode parsedData (parseLevel (d_ChangeLevel desc)) with
        | Panic w => panic w
        | Err e => fail (extendError e)
        | Ret extended =>
            match (if decide (d_UniqueKeys desc = []) then None else ValidateUniqueKeys Fields extended (d_UniqueKeys desc)) with
            | Some r => fail (InvalidUniqueKey r)
            | None =>
                match Diff (Some modelNode) (Some extended) with
                | inl _ => fail ErrInternalSchema
                | inr [] => mret tt
                | inr delta => λ d,
                    match extendSchema (d_Ref desc) delta d with
                    | (Ret _, d') => (Ret tt, d')
                    | (Err _, d') => (Err ErrInternalSchema, d')
                    | (Panic w, d') => (Panic w, d')
                    end
                end
            end
        end
  end.
End Ingest.

(** ** How the traversal can end *)

Section Outcome.
Context `{SchemaSPI} {K : Classifier}.
Local Notation AM := (M serr (list Change)).

(** A result in [P], the depth bound, or a field name outside the grammar. *)
Definition ends {A} (P : A → Prop) (r : outcome serr A) : Prop :=
  match r with Ret a => P a | Err (SDepth _) | Err (SFieldName _ _) => True | _ => False end.

Lemma ends_bind {A B} (P : A → Prop) (Q : B → Prop) (m : AM A) (f : A → AM B) cs :
  ends P (m cs).1 → (∀ a cs', P a → ends Q (f a cs').1) → ends Q ((m ≫= f) cs).1.
Proof. rewrite run_bind. destruct (m cs) as [[a|e|w] cs']; simpl; auto. Qed.
Lemma ends_record {B} (Q : B → Prop) c (f : unit → AM B) cs :
  (∀ cs', ends Q (f tt cs').1) → ends Q ((record c ≫= f) cs).1.
Proof. intros Hf. apply Hf. Qed.
Lemma ends_inner {A} (P : A → Prop) (m : AM A) cs : (∀ cs', ends P (m cs').1) → ends P (inner m cs).1.
Proof. intros Hm. specialize (Hm []). unfold inner. by destruct (m []). Qed.

(** A described value always has a description. *)
Definition described (t : option ModelNode) (r : option ModelNode) : Prop := t = None → is_Some r.

Section Walk.
Context (visit : option ModelNode → JSON → string → string → ChangeLevel → AM (option ModelNode)).
Hypothesis visit_ends : ∀ t v p dp l cs, decoded v → ends (described t) (visit t v p dp l cs).1.

Lemma object_ends model ch fs p dp ov cs : (∀ i x, (i, x) ∈ fs → decoded x) →
  ends (λ _, True) (object false visit model ch fs p dp ov cs).1.
Proof.
  intros Hfs. revert ov cs. induction fs as [|[i x] fs IH]; intros ov cs; [done|]. simpl.
  assert (Hx : decoded x) by (eapply Hfs; left).
  assert (Hrest : ∀ j y, (j, y) ∈ fs → decoded y) by (intros j y Hy; eapply Hfs; by right).
  destruct (ch !! i) as [child|].
  - eapply ends_bind; [by apply visit_ends|]. intros a cs' _. by apply IH.
  - destruct (ValidateFieldName p i) as [e|u] eqn:He.
    + unfold ValidateFieldName in He. destruct (IsSegmentName i); [done|]. by injection He as <-.
    + apply ends_record. intros cs'. eapply ends_bind; [by apply visit_ends|].
      intros a cs2 Ha. destruct (Ha eq_refl) as [d ->]. by apply IH.
Qed.

Lemma items_ends t arr i p dp ov cs : (∀ x, x ∈ arr → decoded x) →
  ends (λ r, t = None → is_Some ov ∨ arr ≠ [] → is_Some r) (items visit t arr i p dp ov cs).1.
Proof.
  intros Harr. revert i ov cs. induction arr as [|x arr IH]; intros i ov cs; simpl.
  { intros _ [?|?]; done. }
  eapply ends_bind; [apply visit_ends, Harr; left|]. intros a cs' Ha.
  specialize (IH ltac:(intros y Hy; apply Harr; by right) (S i) (Merge ov a) cs').
  destruct (items visit t arr (S i) p dp (Merge ov a) cs') as [[r|e|w] cs2]; simpl in *; [|done..].
  intros Ht _. apply IH; [done|]. left. destruct (Ha Ht) as [d ->]. destruct ov; by eexists.
Qed.

Lemma array_ends model e arr p dp cs : (∀ x, x ∈ arr → decoded x) →
  ends (described e) (array visit model e arr p dp cs).1.
Proof.
  intros Harr. unfold array. eapply (ends_bind (described e)).
  - destruct e as [e|].
    + pose proof (items_ends (Some e) arr 0 (p +:+ "[]") dp None cs Harr) as Hi.
      by destruct (items visit (Some e) arr 0 (p +:+ "[]") dp None cs) as [[r|x|w] cs2].
    + apply ends_record. intros cs'. destruct arr as [|x arr]; [by intros _|].
      pose proof (items_ends None (x :: arr) 0 (p +:+ "[]") dp None cs' Harr) as Hi.
      destruct (items visit None (x :: arr) 0 (p +:+ "[]") dp None cs') as [[r|y|w] cs2]; simpl in *; [|done..].
      intros _. apply Hi; [done|by right].
  - intros a cs' Ha He. destruct (Ha He) as [x ->]. by eexists.
Qed.

Lemma describeAt_ends v p dp cs : decoded v → ends (described None) (describeAt false visit v p dp cs).1.
Proof.
  intros Hv. apply ends_inner. intros cs'. destruct Hv as [|fs Hnd Hfs|arr Harr|lit d Hp|s|b]; try by intros _.
  - eapply ends_bind; [by apply object_ends|]. intros a cs2 _ _. by eexists.
  - by apply array_ends.
Qed.

Lemma wrongKind_ends n v p dp l cs : decoded v → ends (λ _, True) (wrongKind false visit n v p dp l cs).1.
Proof.
  intros Hv. apply ends_record. intros cs'. case_if Hc; [|done].
  pose proof (describeAt_ends v p dp cs' Hv) as Hd. by destruct (describeAt false visit v p dp cs') as [[]].
Qed.

Lemma node_ends n v p dp l cs : decoded v → ends (λ _, True) (node false visit n v p dp l cs).1.
Proof.
  intros Hv. pose proof (wrongKind_ends n v p dp l cs Hv) as Hw.
  destruct Hv as [|fs Hnd Hfs|arr Harr|lit d Hp|s|b]; simpl.
  - unfold null. by case_if Hn.
  - destruct (n_object n); [|done]. by apply object_ends.
  - destruct (n_array n) as [e|]; [|done]. pose proof (array_ends n e arr p dp cs Harr) as Ha.
    by destruct (array visit n e arr p dp cs) as [[]].
  - unfold scalar. destruct (n_scalar n); [|done]. by case_if Hh.
  - unfold scalar. destruct (n_scalar n); [|done]. by case_if Hh.
  - unfold scalar. destruct (n_scalar n); [|done]. by case_if Hh.
Qed.
End Walk.

Lemma walk_ends k t v p dp l cs : decoded v → ends (described t) (walk false k t v p dp l cs).1.
Proof.
  revert t v p dp l cs. induction k as [|k IH]; intros t v p dp l cs Hv; [done|]. simpl.
  destruct t as [n|]; [|by apply describeAt_ends].
  pose proof (node_ends _ IH n v p dp l cs Hv) as Hn. by destruct (node _ _ _ _ _ _ _ _) as [[]].
Qed.

Lemma Extend_ends m v level e : decoded v → Extend m v level ≠ Err (SErr e) ∧ Extend m v level ≠ Err (SUnsupported e) ∧
  Extend m v level ≠ Panic e.
Proof.
  intros Hv. pose proof (walk_ends MaxValidationDepth (Some m) v "" "" ChangeLevelType [] Hv) as Hw.
  unfold Extend, Admit. destruct (walk _ _ _ _ _ _ _ _) as [[r|x|w] cs]; simpl in Hw; [|by destruct x|done].
  destruct cs as [|c cs]; [done|]. destruct (list_find _ _) as [[? ?]|]; [done|]. by destruct r.
Qed.
End Outcome.

(** ** What an accepted payload means for the store *)

Section Store.
Context `{SchemaSPI} {L : SchemaLaws} {K : Classifier} {KL : ClassifierLaws}.
Context (Fields : ModelNode → list FieldDescriptor).

(** The stored bytes of a well-formed model. *)
Definition encodes (sch : string) (n : ModelNode) : Prop := Unmarshal sch = inr n ∧ wf n.

Lemma keys_checked n keys :
  (if decide (keys = []) then None else ValidateUniqueKeys Fields n keys) = ValidateUniqueKeys Fields n keys.
Proof. by destruct keys. Qed.
Lemma lookup_setModel tenant ref e d t m :
  lookupModel (setModel tenant ref e d) t m = if decide ((t, m) = (tenant, ref)) then Some e else lookupModel d t m.
Proof.
  unfold lookupModel, setModel. destruct (decide (t = tenant)) as [->|].
  - rewrite lookup_insert_eq. simpl. destruct (decide (m = ref)) as [->|].
    + by rewrite lookup_insert_eq, decide_True.
    + rewrite lookup_insert_ne, decide_False by congruence. done.
  - rewrite lookup_insert_ne, decide_False by congruence. done.
Qed.

(** Replaying a delta on a newer version of the schema it was computed against. *)
Lemma ExtendSchema_replays tenant ref e d D S X delta : lookupModel d tenant ref = Some e →
  encodes (d_Schema e) S → wf D → wf X → le D X → le D S → Diff (Some D) (Some X) = inr delta → delta ≠ [] →
  ∃ sch, ExtendSchema (Some makeSchemaApply) tenant ref delta d = (Ret tt, setModel tenant ref (desc_set_Schema sch e) d) ∧
    encodes sch (mergeNode S X).
Proof.
  intros He [Hu HS] HD HX HDX HDS Hd Hne. unfold ExtendSchema. rewrite decide_False by by destruct delta.
  mrun. rewrite He. unfold makeSchemaApply. rewrite Hu.
  destruct (diff_replays D X HD HX) as (delta' & Hd' & Hap). rewrite HDX in Hd'. assert (delta' = delta) as -> by congruence.
  rewrite (proj2 (Hap S HS HDS)). destruct (codec_roundtrip (mergeNode S X) (merge_wf _ _ HS HX)) as (b & -> & Hb).
  exists b. split; [done|]. split; [done|]. by apply merge_wf.
Qed.

Lemma empty_delta D S X : wf D → wf X → wf S → le D X → le D S → Diff (Some D) (Some X) = inr [] → le X S.
Proof.
  intros HD HX HS HDX HDS Hd. destruct (diff_replays D X HD HX) as (delta' & Hd' & Hap). rewrite HDX in Hd'.
  assert (delta' = []) as -> by congruence. destruct (Hap S HS HDS) as [Hops _]. simpl in Hops.
  injection Hops as Hm. unfold le. by rewrite merge_comm.
Qed.

Lemma merge_above_r S X : wf S → wf X → le X (mergeNode S X).
Proof. intros. rewrite merge_comm by done. by apply le_merge_l. Qed.

(** The stored model [S] after a call that accepted [v] with a copy of the
    descriptor holding [D]: joined with an extension of [D] under which the copy's
    unique keys are valid, if it changed at all. *)
Definition grownTo (tenant : string) (desc e : ModelDescriptor) (D S : ModelNode) (v : JSON) (d d' : Models) : Prop :=
  ∃ sch S', d' = setModel tenant (d_Ref desc) (desc_set_Schema sch e) d ∧ encodes sch S' ∧ le S S' ∧ Validate S' v = [] ∧
    (S' = S ∨ ∃ X, S' = mergeNode S X ∧ le D X ∧ ValidateUniqueKeys Fields X (d_UniqueKeys desc) = None).

Lemma desc_same e : desc_set_Schema (d_Schema e) e = e.
Proof. by destruct e. Qed.
Lemma setModel_same tenant ref e d : lookupModel d tenant ref = Some e → setModel tenant ref e d = d.
Proof.
  unfold lookupModel, setModel. destruct (d !! tenant) as [m|] eqn:Hd; simpl; [|done]. intros He.
  rewrite (insert_id m) by done. by apply insert_id.
Qed.
Lemma grownTo_same tenant desc e D S v d : lookupModel d tenant (d_Ref desc) = Some e → encodes (d_Schema e) S →
  Validate S v = [] → grownTo tenant desc e D S v d d.
Proof.
  intros He HS Hv. exists (d_Schema e), S. split_and!; [|done|apply merge_idem, HS|done|by left].
  by rewrite desc_same, setModel_same.
Qed.

(** One call, whatever the caller's copy of the descriptor has missed. *)
Lemma ValidateOrExtend_spec tenant desc D v d e S : encodes (d_Schema desc) D →
  lookupModel d tenant (d_Ref desc) = Some e → encodes (d_Schema e) S → le D S → decoded v →
  match ValidateOrExtend Fields (ExtendSchema (Some makeSchemaApply) tenant) desc v d with
  | (Ret _, d') => grownTo tenant desc e D S v d d'
  | (Err r, d') => d' = d ∧ r ≠ ErrInternalSchema
  | (Panic _, _) => False
  end.
Proof.
  intros [HuD HD] He [HuS HS] HDS Hv. unfold ValidateOrExtend. rewrite HuD. case_decide as Hl.
  { destruct (Validate D v) as [|x errs] eqn:Hval; simpl.
    - apply grownTo_same; [done..|]. rewrite validate_spec in *. by apply (admits_mono _ D).
    - split; [done|]. unfold ValidationErrorsToError. by destruct (FirstIncompatibleType _). }
  pose proof (λ x, Extend_ends D v (parseLevel (d_ChangeLevel desc)) x Hv) as Hend.
  destruct (Extend D v _) as [X|r|w] eqn:HX; [|split; [done|]; by destruct r; naive_solver|naive_solver].
  destruct (Extend_grows D v _ X HD Hv HX) as (Hadm & HwX & HDX).
  rewrite keys_checked. destruct (ValidateUniqueKeys _ _ _) as [r|] eqn:Hk; [done|].
  destruct (diff_replays D X HD HwX) as (delta & Hd & _). rewrite HDX in Hd. rewrite Hd. destruct delta as [|op delta]; simpl.
  { apply grownTo_same; [done..|]. rewrite validate_spec. apply (admits_mono _ X); [done..|by eapply (empty_delta D)|done]. }
  destruct (ExtendSchema_replays tenant (d_Ref desc) e d D S X (op :: delta)) as (sch & -> & Hsch); [done..|].
  exists sch, (mergeNode S X). split_and!; [done|done|by apply le_merge_l| |right; by exists X].
  rewrite validate_spec. apply (admits_mono _ X); [done|by apply merge_wf|by apply merge_above_r|done].
Qed.
End Store.
