(* ===== verification/ModelCache.v ===== *)
(** * The model-descriptor cache of a node

    [internal/cluster/modelcache]: the store handed to each request reads locked
    descriptors through a cache shared by the node, and every mutation made
    through it evicts the entry, tells the node's own subscribers and broadcasts
    the eviction.  Here its operations over the memory plugin's model store, and
    the proof that on a node that sees every mutation the cache is invisible. *)

From stdpp Require Import base gmap strings list.
From S2P Require Import Prelude Spi MemStores Schema Ingest.
Import ModelStore.

#[export] Instance ModelState_eq_dec : EqDecision ModelState.
Proof. solve_decision. Defined.

Abbreviation cacheKey := (string * ModelRef)%type.

(** The parsed schema is derived with the entry: [inl] is the retained parse
    failure, [inr None] a descriptor with no schema bound. *)
Record cacheEntry := mkEntry { ce_desc : ModelDescriptor; ce_expiresAt : Time; ce_node : serr + option ModelNode }.

Record invalidationPayload := mkPayload { p_TenantID : string; p_EntityName : string; p_ModelVersion : string }.

(** The state of a node's cache, with what it told its local subscribers and what
    it broadcast, oldest first. *)
Record CachingModelStore := mkCache {
  c_entries : gmap cacheKey cacheEntry;
  c_notified : list cacheKey;
  c_sent : list string }.

(** The backing store and the node's cache. *)
Abbreviation CS := (Models * CachingModelStore)%type.
Abbreviation CM := (M err CS).

Definition topicModelInvalidate : string := "model.invalidate".

(** The JSON codec of the payload. *)
Class PayloadCodec := {
  marshalPayload : invalidationPayload → option string;
  unmarshalPayload : string → option invalidationPayload }.

Section Cache.
Context `{SchemaSPI} {PC : PayloadCodec}.

Definition EncodeInvalidation (tenantID : string) (ref : ModelRef) : option string :=
  marshalPayload (mkPayload tenantID (EntityName ref) (ModelVersion ref)).
Definition DecodeInvalidation (raw : string) : option cacheKey :=
  match unmarshalPayload raw with
  | None => None
  | Some p =>
      if decide (p_TenantID p = "" ∨ p_EntityName p = "" ∨ p_ModelVersion p = "") then None
      else Some (p_TenantID p, mkModelRef (p_EntityName p) (p_ModelVersion p))
  end.

Definition parseSchemaNode (desc : ModelDescriptor) : serr + option ModelNode :=
  if decide (String.length (d_Schema desc) = 0) then inr None else
  match Unmarshal (d_Schema desc) with
  | inl _ => inl (SErr "failed to unmarshal model schema")
  | inr node => inr (Some node)
  end.

(** [now] is the clock's reading. *)
Definition lookupEntry (now : Time) (key : cacheKey) (c : CachingModelStore) : option cacheEntry :=
  match c_entries c !! key with
  | None => None
  | Some e => if After now (ce_expiresAt e) then None else Some e
  end.
Definition lookup_ (now : Time) (key : cacheKey) (c : CachingModelStore) : option ModelDescriptor :=
  match c_entries c !! key with
  | None => None
  | Some e => if After now (ce_expiresAt e) then None else Some (ce_desc e)
  end.

(** [lease] is what [jitteredLeaseLocked] drew. *)
Definition store_ (now : Time) (lease : Z) (key : cacheKey) (desc : ModelDescriptor) (c : CachingModelStore) : CachingModelStore :=
  mkCache (<[key := mkEntry desc (now + lease) (parseSchemaNode desc)]> (c_entries c)) (c_notified c) (c_sent c).
Definition evict (key : cacheKey) (c : CachingModelStore) : CachingModelStore :=
  mkCache (delete key (c_entries c)) (c_notified c) (c_sent c).
Definition notifyLocalSubscribers (key : cacheKey) (c : CachingModelStore) : CachingModelStore :=
  mkCache (c_entries c) (c_notified c ++ [key]) (c_sent c).

(** [broadcaster] says whether one is wired; a payload that does not encode is not
    sent. *)
Definition invalidate (broadcaster : bool) (key : cacheKey) (c : CachingModelStore) : CachingModelStore :=
  let c' := notifyLocalSubscribers key (evict key c) in
  if broadcaster then
    match EncodeInvalidation key.1 key.2 with
    | Some payload => mkCache (c_entries c') (c_notified c') (c_sent c' ++ [payload])
    | None => c'
    end
  else c'.
Definition handleInvalidation (payload : string) (c : CachingModelStore) : CachingModelStore :=
  match DecodeInvalidation payload with
  | None => c
  | Some key => notifyLocalSubscribers key (evict key c)
  end.

(** ** The store of a request *)

Definition inner_ {A} (m : DM A) : CM A := λ '(d, c), let '(r, d') := m d in (r, (d', c)).
Definition onCache (f : CachingModelStore → CachingModelStore) : CM unit := modify (λ s, (s.1, f s.2)).

Section Request.
Context (now : Time) (lease : Z) (broadcaster : bool) (tenant : string).

Definition Get (ref : ModelRef) : CM ModelDescriptor :=
  s ← get;
  match lookup_ now (tenant, ref) s.2 with
  | Some d => mret d
  | None =>
      desc ← inner_ (modelGet tenant ref);
      if decide (d_State desc ≠ ModelLocked) then mret desc else
      onCache (store_ now lease (tenant, ref) desc);; mret desc
  end.

Definition SchemaNode (ref : ModelRef) : CM (serr + option ModelNode) :=
  s ← get;
  match lookupEntry now (tenant, ref) s.2 with
  | Some e => mret (ce_node e)
  | None =>
      desc ← Get ref;
      s ← get;
      match lookupEntry now (tenant, ref) s.2 with
      | Some e => mret (ce_node e)
      | None => mret (parseSchemaNode desc)
      end
  end.

Definition RefreshAndGet (ref : ModelRef) : CM ModelDescriptor :=
  onCache (evict (tenant, ref));;
  desc ← inner_ (modelGet tenant ref);
  (if decide (d_State desc = ModelLocked) then onCache (store_ now lease (tenant, ref) desc) else mret tt);;
  mret desc.

(** A mutation of the inner store followed by the invalidation. *)
Definition mutate (ref : ModelRef) (m : DM unit) : CM unit :=
  inner_ m;; onCache (invalidate broadcaster (tenant, ref)).

Definition Save (desc : ModelDescriptor) : CM unit := mutate (d_Ref desc) (modelSave tenant desc).
Definition Lock (ref : ModelRef) : CM unit := mutate ref (modelLock tenant ref).
Definition Unlock (ref : ModelRef) : CM unit := mutate ref (modelUnlock tenant ref).
Definition SetLevel (ref : ModelRef) (level : string) : CM unit := mutate ref (SetChangeLevel tenant ref level).
Definition Delete (ref : ModelRef) : CM unit := mutate ref (modelDelete tenant ref).
Definition Extend_ (ref : ModelRef) (delta : SchemaDelta) : CM unit :=
  mutate ref (ExtendSchema (Some makeSchemaApply) tenant ref delta).
Definition GetAll : CM (list ModelRef) := inner_ (modelGetAll tenant).
Definition Locked_ (ref : ModelRef) : CM bool := inner_ (IsLocked tenant ref).
End Request.

(** ** The cache is invisible *)

Inductive Call : Type :=
| CGet (ref : ModelRef) | CSchemaNode (ref : ModelRef) | CRefresh (ref : ModelRef) | CSave (desc : ModelDescriptor)
| CLock (ref : ModelRef) | CUnlock (ref : ModelRef) | CSetLevel (ref : ModelRef) (level : string)
| CDelete (ref : ModelRef) | CExtend (ref : ModelRef) (delta : SchemaDelta) | CGetAll | CLocked (ref : ModelRef).
Inductive Answer : Type :=
| ADesc (d : ModelDescriptor) | ANode (n : serr + option ModelNode) | AUnit | ARefs (l : list ModelRef) | ABool (b : bool).

Definition answer {E S A} (f : A → Answer) (m : M E S A) : M E S Answer := a ← m; mret (f a).
Definition done_ {E S} (m : M E S unit) : M E S Answer := answer (λ _, AUnit) m.

(** The call on the caching store. *)
Definition cached (now : Time) (lease : Z) (broadcaster : bool) (tenant : string) (c : Call) : CM Answer :=
  match c with
  | CGet ref => answer ADesc (Get now lease tenant ref)
  | CSchemaNode ref => answer ANode (SchemaNode now lease tenant ref)
  | CRefresh ref => answer ADesc (RefreshAndGet now lease tenant ref)
  | CSave desc => done_ (Save broadcaster tenant desc)
  | CLock ref => done_ (Lock broadcaster tenant ref)
  | CUnlock ref => done_ (Unlock broadcaster tenant ref)
  | CSetLevel ref level => done_ (SetLevel broadcaster tenant ref level)
  | CDelete ref => done_ (Delete broadcaster tenant ref)
  | CExtend ref delta => done_ (Extend_ broadcaster tenant ref delta)
  | CGetAll => answer ARefs (GetAll tenant)
  | CLocked ref => answer ABool (Locked_ tenant ref)
  end.

(** The same call on the store itself. *)
Definition direct (tenant : string) (c : Call) : DM Answer :=
  match c with
  | CGet ref | CRefresh ref => answer ADesc (modelGet tenant ref)
  | CSchemaNode ref => answer ANode (desc ← modelGet tenant ref; mret (parseSchemaNode desc))
  | CSave desc => done_ (modelSave tenant desc)
  | CLock ref => done_ (modelLock tenant ref)
  | CUnlock ref => done_ (modelUnlock tenant ref)
  | CSetLevel ref level => done_ (SetChangeLevel tenant ref level)
  | CDelete ref => done_ (modelDelete tenant ref)
  | CExtend ref delta => done_ (ExtendSchema (Some makeSchemaApply) tenant ref delta)
  | CGetAll => answer ARefs (modelGetAll tenant)
  | CLocked ref => answer ABool (IsLocked tenant ref)
  end.

(** A script of calls, each at some clock reading with some drawn lease, by some
    tenant; the answers in order. *)
Record Request := mkRequest { r_now : Time; r_lease : Z; r_tenant : string; r_call : Call }.
Fixpoint serveCached (broadcaster : bool) (l : list Request) (s : CS) : list (outcome err Answer) * CS :=
  match l with
  | [] => ([], s)
  | r :: l => let '(a, s1) := cached (r_now r) (r_lease r) broadcaster (r_tenant r) (r_call r) s in
              let '(answers, s2) := serveCached broadcaster l s1 in (a :: answers, s2)
  end.
Fixpoint serveDirect (l : list Request) (d : Models) : list (outcome err Answer) * Models :=
  match l with
  | [] => ([], d)
  | r :: l => let '(a, d1) := direct (r_tenant r) (r_call r) d in
              let '(answers, d2) := serveDirect l d1 in (a :: answers, d2)
  end.

(** An entry is what the store holds. *)
Definition coherent (s : CS) : Prop := ∀ t r e, c_entries s.2 !! (t, r) = Some e →
  lookupModel s.1 t r = Some (ce_desc e) ∧ ce_node e = parseSchemaNode (ce_desc e).

(** A mutation of one model: nothing elsewhere, nothing at all when it fails. *)
Definition touches (tenant : string) (ref : ModelRef) (m : DM unit) : Prop := ∀ d,
  match m d with
  | (Ret _, d') => ∀ t r, (t, r) ≠ (tenant, ref) → lookupModel d' t r = lookupModel d t r
  | (_, d') => d' = d
  end.

Lemma touches_set tenant ref e : touches tenant ref (modify (setModel tenant ref e)).
Proof. intros d t r Hk. by rewrite lookup_setModel, decide_False. Qed.
Lemma touches_update tenant ref f : touches tenant ref (updateModel tenant ref f).
Proof.
  intros d. unfold updateModel. mrun. destruct (lookupModel d tenant ref); [|done].
  mrun. intros t r Hk. by rewrite lookup_setModel, decide_False.
Qed.
Lemma touches_delete tenant ref : touches tenant ref (modelDelete tenant ref).
Proof.
  intros d. unfold modelDelete. mrun. destruct (lookupModel d tenant ref); [|done]. mrun. intros t r Hk.
  unfold lookupModel. destruct (decide (t = tenant)) as [->|]; [|by rewrite lookup_insert_ne].
  rewrite lookup_insert_eq. simpl. rewrite lookup_delete_ne; [done|congruence].
Qed.
Lemma touches_extend tenant ref delta : touches tenant ref (ExtendSchema (Some makeSchemaApply) tenant ref delta).
Proof.
  intros d. unfold ExtendSchema. case_decide; [done|]. mrun. destruct (lookupModel d tenant ref) as [e|]; [|done].
  destruct (makeSchemaApply _ _); [done|]. mrun. intros t r Hk. by rewrite lookup_setModel, decide_False.
Qed.

(** A call on a coherent node: the store's own answer and effect. *)
Definition agrees {E A} (m : M E CS A) (m' : M E Models A) : Prop := ∀ s, coherent s →
  (m s).1 = (m' s.1).1 ∧ (m s).2.1 = (m' s.1).2 ∧ coherent (m s).2.

Lemma agrees_answer {A} (f : A → Answer) (m : CM A) m' : agrees m m' → agrees (answer f m) (answer f m').
Proof.
  intros Hm s Hs. destruct (Hm s Hs) as (H1 & H2 & H3). unfold answer. rewrite !run_bind.
  destruct (m s) as [[a|e|w] s'], (m' s.1) as [[a'|e'|w'] d']; simpl in *; naive_solver.
Qed.
Lemma agrees_inner {A} (m : DM A) : (∀ d, (m d).2 = d) → agrees (inner_ m) m.
Proof. intros Hm [d c] Hs. specialize (Hm d). unfold inner_. simpl. by destruct (m d) as [r d']; simpl in *; subst. Qed.

Lemma invalidate_entries b key c : c_entries (invalidate b key c) = delete key (c_entries c).
Proof. unfold invalidate. destruct b; [|done]. by destruct (EncodeInvalidation _ _). Qed.

Lemma agrees_mutate b tenant ref m : touches tenant ref m → agrees (mutate b tenant ref m) m.
Proof.
  intros Hm [d c] Hs. specialize (Hm d). unfold mutate. rewrite run_bind. unfold inner_. simpl.
  destruct (m d) as [[[]|e|w] d']; simpl; [|by subst..]. split_and!; [done..|]. intros t r e. simpl.
  rewrite invalidate_entries, lookup_delete_Some. intros [Hk He]. rewrite Hm by congruence. by apply (Hs t r).
Qed.

Lemma modelGet_run tenant ref d :
  modelGet tenant ref d = (match lookupModel d tenant ref with Some e => Ret e | None => Err ErrNotFound end, d).
Proof. unfold modelGet. mrun. by destruct (lookupModel d tenant ref). Qed.
Lemma modelGet_read tenant ref d : (modelGet tenant ref d).2 = d.
Proof. by rewrite modelGet_run. Qed.
Lemma modelGet_Ret tenant ref d desc d' : modelGet tenant ref d = (Ret desc, d') → lookupModel d tenant ref = Some desc ∧ d' = d.
Proof. rewrite modelGet_run. destruct (lookupModel d tenant ref); [|done]. by intros [= -> ->]. Qed.

Lemma coherent_store d c now lease t r desc : coherent (d, c) → lookupModel d t r = Some desc →
  coherent (d, store_ now lease (t, r) desc c).
Proof.
  intros Hs Hd t' r' e. simpl. rewrite lookup_insert_Some. intros [[[= <- <-] <-]|[_ He]]; [done|by apply (Hs t' r')].
Qed.
Lemma coherent_evict d c key : coherent (d, c) → coherent (d, evict key c).
Proof. intros Hs t r e. simpl. rewrite lookup_delete_Some. intros [_ He]. by apply (Hs t r). Qed.

Lemma agrees_get now lease tenant ref : agrees (Get now lease tenant ref) (modelGet tenant ref).
Proof.
  intros [d c] Hs. unfold Get. mrun. simpl. unfold lookup_. destruct (c_entries c !! (tenant, ref)) as [e|] eqn:He.
  1: destruct (After _ _) eqn:Ha; [|destruct (Hs _ _ _ He) as [Hd _]; unfold modelGet; mrun; simpl in Hd; by rewrite Hd].
  all: rewrite run_bind; unfold inner_; simpl; pose proof (modelGet_read tenant ref d) as Hread.
  all: destruct (modelGet tenant ref d) as [[desc|x|w] d'] eqn:Hg; simpl in *; subst d'; [|done..].
  all: case_decide; [done|]; mrun; split_and!; [done..|]; simpl.
  all: apply coherent_store; [done|by apply modelGet_Ret in Hg as [? _]].
Qed.
Lemma agrees_refresh now lease tenant ref : agrees (RefreshAndGet now lease tenant ref) (modelGet tenant ref).
Proof.
  intros [d c] Hs. unfold RefreshAndGet, onCache. mrun. rewrite run_bind. unfold inner_. simpl.
  pose proof (modelGet_read tenant ref d) as Hread.
  destruct (modelGet tenant ref d) as [[desc|x|w] d'] eqn:Hg; simpl in *; subst d'; [|by split_and!; [..|apply coherent_evict]..].
  case_decide; mrun; (split_and!; [done|done|]); [|by apply coherent_evict].
  apply coherent_store; [by apply coherent_evict|by apply modelGet_Ret in Hg as [? _]].
Qed.
Lemma agrees_schemaNode now lease tenant ref :
  agrees (SchemaNode now lease tenant ref) (desc ← modelGet tenant ref; mret (parseSchemaNode desc)).
Proof.
  intros s Hs. unfold SchemaNode. mrun. destruct (lookupEntry now (tenant, ref) s.2) as [e|] eqn:He.
  - unfold lookupEntry in He. destruct (c_entries s.2 !! (tenant, ref)) as [e'|] eqn:Hc; [|done].
    destruct (After _ _); [done|]. injection He as ->. destruct (Hs _ _ _ Hc) as [Hd Hn].
    unfold modelGet. rewrite run_bind. mrun. rewrite Hd. mrun. by rewrite <- Hn.
  - rewrite !run_bind. destruct (agrees_get now lease tenant ref s Hs) as (H1 & H2 & H3).
    destruct (Get now lease tenant ref s) as [r s']. destruct (modelGet tenant ref s.1) as [r' d'] eqn:Hg.
    simpl in *. subst r' d'. destruct r as [desc|x|w]; [|done..]. mrun.
    destruct (lookupEntry now (tenant, ref) s'.2) as [e|] eqn:He'; mrun; [|done]. split_and!; [|done..]. simpl. f_equal.
    unfold lookupEntry in He'. destruct (c_entries s'.2 !! (tenant, ref)) as [e'|] eqn:Hc; [|done].
    destruct (After _ _); [done|]. injection He' as ->. destruct (H3 _ _ _ Hc) as [Hd Hn].
    apply modelGet_Ret in Hg as [Hl Heq]. rewrite Heq in Hd. rewrite Hn. congruence.
Qed.

Lemma agrees_call now lease b tenant c : agrees (cached now lease b tenant c) (direct tenant c).
Proof.
  destruct c; try (apply agrees_answer, agrees_mutate;
    first [apply touches_set | apply touches_update | apply touches_delete | apply touches_extend]).
  - apply agrees_answer, agrees_get.
  - apply agrees_answer, agrees_schemaNode.
  - apply agrees_answer, agrees_refresh.
  - apply agrees_answer, agrees_inner. done.
  - apply agrees_answer, agrees_inner. intros d. unfold IsLocked. mrun. by destruct (lookupModel d tenant ref).
Qed.

(** C37. On a node that sees every mutation the descriptor cache is invisible:
    whatever requests arrive, at whatever clock readings and with whatever leases,
    from whatever tenants, the answers and the final store are those of the store
    without a cache, expiry and parsed-schema memoisation included. *)
Theorem cache_invisible broadcaster l s : coherent s →
  serveDirect l s.1 = ((serveCached broadcaster l s).1, (serveCached broadcaster l s).2.1) ∧
  coherent (serveCached broadcaster l s).2.
Proof.
  revert s. induction l as [|r l IH]; intros s Hs; [done|]. simpl.
  destruct (agrees_call (r_now r) (r_lease r) broadcaster (r_tenant r) (r_call r) s Hs) as (H1 & H2 & H3).
  destruct (cached _ _ _ _ _ s) as [a s1]. destruct (direct _ _ s.1) as [a' d1]. simpl in *. subst a' d1.
  destruct (IH s1 H3) as [-> Hc]. by destruct (serveCached broadcaster l s1) as [answers s2].
Qed.
End Cache.
