(* ===== verification/ModelService.v ===== *)
(** * The model-administration handlers

    [internal/domain/model/service.go] and the sample-data importer
    [internal/domain/model/importer], over the caching store of [ModelCache]:
    registering a model from sample documents, locking, unlocking, deleting it,
    setting its change level and its unique keys, listing and validating. *)

From stdpp Require Import base gmap strings list.
From S2P Require Import Prelude Spi MemStores Schema SchemaLattice SchemaDelta SchemaAdmit SchemaExtend Ingest ModelCache.
Import ModelStore.

Inductive AppError : Type :=
| Internal | BadRequest | ModelNotFound | ModelAlreadyLocked | ModelAlreadyUnlocked | ModelHasEntities (count : nat)
| ModelValidationFailed | InvalidUniqueKeyDefinition (r : UniqueKeyReason) | InvalidChangeLevel
| CompositeKeyUnsupported.

(** ** Sample data *)

Inductive importErr : Type :=
| UnsupportedFormat | ParseError | NonDocumentSampleData | WalkError (e : serr).

Section Service.
Context `{SchemaSPI} {PC : PayloadCodec} {K : Classifier} (Fields : ModelNode → list FieldDescriptor).
(** The decoders of the two formats, and [spi.ValidateChangeLevel]. *)
Context (ParseJSON ParseXML : string → option JSON) (ValidateChangeLevel : string → option string).

(** Describing a decoded value yields a node; its errors are those of the walk. *)
Definition Walk (data : JSON) : importErr + ModelNode :=
  match Describe data "$" with
  | Ret (Some n) => inr n
  | Err e => inl (WalkError e)
  | _ => inl (WalkError (SErr "nil node"))
  end.

(** The documents of an array body, merged onto [node]. *)
Fixpoint walkDocuments (l : list JSON) (node : ModelNode) : importErr + ModelNode :=
  match l with
  | [] => inr node
  | JObject doc :: rest =>
      match Walk (JObject doc) with
      | inl e => inl e
      | inr derived => walkDocuments rest (mergeNode node derived)
      end
  | _ :: _ => inl NonDocumentSampleData
  end.
Definition walkSampleData (parsed : JSON) : importErr + ModelNode :=
  match parsed with
  | JObject v => Walk (JObject v)
  | JArray v => walkDocuments v NewObjectNode
  | _ => inl NonDocumentSampleData
  end.

Definition Import (data dataFormat : string) : importErr + ModelNode :=
  let parse (p : option JSON) := match p with Some parsed => walkSampleData parsed | None => inl ParseError end in
  if decide (dataFormat = "JSON") then parse (ParseJSON data)
  else if decide (dataFormat = "XML") then parse (ParseXML data)
  else inl UnsupportedFormat.

Definition classifyImportErr (e : importErr) : AppError :=
  match e with
  | WalkError (SUnsupported _) => Internal
  | WalkError (SFieldName _ _) | NonDocumentSampleData => ModelValidationFailed
  | _ => BadRequest
  end.
Definition classifyGetErr (e : err) : AppError := if decide (e = ErrNotFound) then ModelNotFound else Internal.

(** ** The handlers *)

Abbreviation HM := (M AppError CS).

(** A call whose error the handler maps with [f]. *)
Definition orElse {A} (m : CM A) (f : err → AppError) : HM A := λ s,
  match m s with
  | (Ret a, s') => (Ret a, s')
  | (Err e, s') => (Err (f e), s')
  | (Panic w, s') => (Panic w, s')
  end.

Section Request.
(** The clock's reading, the lease drawn, whether a broadcaster is wired, the
    tenant, and the entity store's count of a model's entities. *)
Context (now : Time) (lease : Z) (broadcaster : bool) (tenant : string) (Count : ModelRef → err + nat).

(** The production store has [RefreshAndGet]. *)
Definition getModelFresh (ref : ModelRef) : CM ModelDescriptor := RefreshAndGet now lease tenant ref.

Definition schemaOf (desc : ModelDescriptor) : HM ModelNode :=
  match Unmarshal (d_Schema desc) with inl _ => fail Internal | inr n => mret n end.

Definition finalNode (existing : option ModelDescriptor) (newNode : ModelNode) : HM ModelNode :=
  match existing with
  | Some e =>
      if decide (String.length (d_Schema e) = 0) then mret newNode else
      existingNode ← schemaOf e; mret (mergeNode existingNode newNode)
  | None => mret newNode
  end.

(** The import once the existing descriptor was read. *)
Definition importOver (ref : ModelRef) (existing : option ModelDescriptor) (data format : string) : HM unit :=
  if decide (d_State <$> existing = Some ModelLocked) then fail ModelAlreadyLocked else
  match Import data format with
  | inl e => fail (classifyImportErr e)
  | inr newNode =>
      final ← finalNode existing newNode;
      match Marshal final with
      | inl _ => fail Internal
      | inr schemaBytes =>
          let keys := default [] (d_UniqueKeys <$> existing) in
          let desc := mkDesc ref ModelUnlocked (default "" (d_ChangeLevel <$> existing)) schemaBytes keys in
          match (if decide (keys = []) then None else ValidateUniqueKeys Fields final keys) with
          | Some r => fail (InvalidUniqueKeyDefinition r)
          | None => orElse (Save broadcaster tenant desc) (λ _, Internal)
          end
      end
  end.
(** Whatever the read fails with, the model counts as new. *)
Definition ImportModel (ref : ModelRef) (converter data format : string) : HM unit :=
  if decide (converter ≠ "SAMPLE_DATA") then fail BadRequest else
  r ← orElse (try (getModelFresh ref)) (λ _, Internal);
  importOver ref (match r with inr e => Some e | inl _ => None end) data format.

Definition LockModel (ref : ModelRef) : HM unit :=
  desc ← orElse (getModelFresh ref) classifyGetErr;
  if decide (d_State desc = ModelLocked) then fail ModelAlreadyLocked else
  orElse (Lock broadcaster tenant ref) (λ _, Internal).

(** The entity guard [UnlockModel] and [DeleteModel] share. *)
Definition noEntities (ref : ModelRef) : HM unit :=
  match Count ref with
  | inl _ => fail Internal
  | inr count => if decide (0 < count) then fail (ModelHasEntities count) else mret tt
  end.

Definition UnlockModel (ref : ModelRef) : HM unit :=
  desc ← orElse (getModelFresh ref) classifyGetErr;
  if decide (d_State desc ≠ ModelLocked) then fail ModelAlreadyUnlocked else
  noEntities ref;;
  orElse (Unlock broadcaster tenant ref) (λ _, Internal).

Definition DeleteModel (ref : ModelRef) : HM unit :=
  desc ← orElse (getModelFresh ref) classifyGetErr;
  if decide (d_State desc = ModelLocked) then fail ModelAlreadyLocked else
  noEntities ref;;
  orElse (Delete broadcaster tenant ref) (λ _, Internal).

Definition SetChangeLevel_ (ref : ModelRef) (changeLevel : string) : HM unit :=
  orElse (getModelFresh ref) classifyGetErr;;
  match ValidateChangeLevel changeLevel with
  | None => fail InvalidChangeLevel
  | Some cl => orElse (SetLevel broadcaster tenant ref cl) (λ _, Internal)
  end.

Definition desc_set_UniqueKeys (keys : list UniqueKey) (e : ModelDescriptor) : ModelDescriptor :=
  mkDesc (d_Ref e) (d_State e) (d_ChangeLevel e) (d_Schema e) keys.

(** [capable]: the backend advertises composite unique keys. *)
Definition SetUniqueKeys (capable : bool) (ref : ModelRef) (keys : list UniqueKey) : HM unit :=
  if negb capable then fail CompositeKeyUnsupported else
  desc ← orElse (getModelFresh ref) classifyGetErr;
  if decide (d_State desc = ModelLocked) then fail ModelAlreadyLocked else
  node ← schemaOf desc;
  match ValidateUniqueKeys Fields node keys with
  | Some r => fail (InvalidUniqueKeyDefinition r)
  | None => orElse (Save broadcaster tenant (desc_set_UniqueKeys keys desc)) (λ _, Internal)
  end.

Fixpoint describeAll (refs : list ModelRef) : HM (list (ModelRef * ModelState)) :=
  match refs with
  | [] => mret []
  | ref :: rest =>
      desc ← orElse (Get now lease tenant ref) (λ _, Internal);
      more ← describeAll rest;
      mret ((ref, d_State desc) :: more)
  end.
Definition ListModels : HM (list (ModelRef * ModelState)) :=
  refs ← orElse (GetAll tenant) (λ _, Internal);
  describeAll refs.

(** The validation errors found, none when the document is valid. *)
Definition ValidateModel (ref : ModelRef) (data : string) : HM (list ValidationError) :=
  desc ← orElse (Get now lease tenant ref) classifyGetErr;
  modelNode ← schemaOf desc;
  match ParseJSON data with
  | None => fail BadRequest
  | Some parsedData => mret (Validate modelNode parsedData)
  end.
End Request.

(** ** The handlers as a state machine on the stored descriptor *)

Inductive AdminCall : Type :=
| AImport (converter data format : string) | ALock | AUnlock | ADelete | ASetLevel (level : string)
| ASetKeys (capable : bool) (keys : list UniqueKey).

Definition admin (now : Time) (lease : Z) (broadcaster : bool) (tenant : string) (Count : ModelRef → err + nat)
    (ref : ModelRef) (c : AdminCall) : HM unit :=
  match c with
  | AImport converter data format => ImportModel now lease broadcaster tenant ref converter data format
  | ALock => LockModel now lease broadcaster tenant ref
  | AUnlock => UnlockModel now lease broadcaster tenant Count ref
  | ADelete => DeleteModel now lease broadcaster tenant Count ref
  | ASetLevel level => SetChangeLevel_ now lease broadcaster tenant ref level
  | ASetKeys capable keys => SetUniqueKeys now lease broadcaster tenant capable ref keys
  end.

Definition guardEntities (count : err + nat) {A} (k : AppError + A) : AppError + A :=
  match count with
  | inl _ => inl Internal
  | inr 0 => k
  | inr n => inl (ModelHasEntities n)
  end.

(** The model an import registers, given what is stored. *)
Definition importSpec (ref : ModelRef) (data format : string) (o : option ModelDescriptor) : AppError + ModelDescriptor :=
  match Import data format with
  | inl e => inl (classifyImportErr e)
  | inr n =>
      let merged := match o with
                    | Some e => if decide (d_Schema e = "") then inr n else
                                match Unmarshal (d_Schema e) with inl _ => inl Internal | inr m => inr (mergeNode m n) end
                    | None => inr n
                    end in
      match merged with
      | inl e => inl e
      | inr m =>
          match Marshal m with
          | inl _ => inl Internal
          | inr b =>
              let keys := default [] (d_UniqueKeys <$> o) in
              match ValidateUniqueKeys Fields m keys with
              | Some r => inl (InvalidUniqueKeyDefinition r)
              | None => inr (mkDesc ref ModelUnlocked (default "" (d_ChangeLevel <$> o)) b keys)
              end
          end
      end
  end.

(** What a call makes of the stored descriptor, or the error it answers. *)
Definition adminSpec (count : err + nat) (ref : ModelRef) (c : AdminCall) (o : option ModelDescriptor) :
    AppError + option ModelDescriptor :=
  match c, o with
  | AImport converter data format, _ =>
      if decide (converter ≠ "SAMPLE_DATA") then inl BadRequest else
      if decide (d_State <$> o = Some ModelLocked) then inl ModelAlreadyLocked else
      match importSpec ref data format o with inl e => inl e | inr e => inr (Some e) end
  | ASetKeys false _, _ => inl CompositeKeyUnsupported
  | _, None => inl ModelNotFound
  | ALock, Some e =>
      if decide (d_State e = ModelLocked) then inl ModelAlreadyLocked else inr (Some (desc_set_State ModelLocked e))
  | AUnlock, Some e =>
      if decide (d_State e = ModelLocked) then guardEntities count (inr (Some (desc_set_State ModelUnlocked e)))
      else inl ModelAlreadyUnlocked
  | ADelete, Some e =>
      if decide (d_State e = ModelLocked) then inl ModelAlreadyLocked else guardEntities count (inr None)
  | ASetLevel level, Some e =>
      match ValidateChangeLevel level with None => inl InvalidChangeLevel | Some l => inr (Some (desc_set_ChangeLevel l e)) end
  | ASetKeys true keys, Some e =>
      if decide (d_State e = ModelLocked) then inl ModelAlreadyLocked else
      match Unmarshal (d_Schema e) with
      | inl _ => inl Internal
      | inr n => match ValidateUniqueKeys Fields n keys with
                 | Some r => inl (InvalidUniqueKeyDefinition r)
                 | None => inr (Some (desc_set_UniqueKeys keys e))
                 end
      end
  end.

Definition setEntry (tenant : string) (ref : ModelRef) (o : option ModelDescriptor) (d : Models) : Models :=
  match o with
  | Some e => setModel tenant ref e d
  | None => <[tenant := delete ref (default ∅ (d !! tenant))]> d
  end.

(** [m] answers and leaves the store as the specification says; the cache is
    immaterial. *)
Definition implements (tenant : string) (ref : ModelRef) (m : HM unit) (r : AppError + option ModelDescriptor) (s : CS) : Prop :=
  ∃ c', m s = match r with
              | inl e => (Err e, (s.1, c'))
              | inr o => (Ret tt, (setEntry tenant ref o s.1, c'))
              end.

Lemma fresh_run now lease tenant ref d c : ∃ c',
  getModelFresh now lease tenant ref (d, c) =
  (match lookupModel d tenant ref with Some e => Ret e | None => Err ErrNotFound end, (d, c')).
Proof.
  unfold getModelFresh, RefreshAndGet, onCache. mrun. rewrite run_bind. unfold inner_. simpl.
  rewrite modelGet_run. destruct (lookupModel d tenant ref) as [e|]; [|by eexists]. case_decide; by eexists.
Qed.
Lemma try_fresh now lease tenant ref f d c : ∃ c',
  orElse (try (getModelFresh now lease tenant ref)) f (d, c) =
  (Ret (match lookupModel d tenant ref with Some e => inr e | None => inl ErrNotFound end), (d, c')).
Proof.
  destruct (fresh_run now lease tenant ref d c) as [c' Hf]. exists c'. unfold orElse, try. rewrite Hf.
  by destruct (lookupModel d tenant ref).
Qed.
Lemma mutate_run b tenant ref m d c f : ∃ c',
  orElse (mutate b tenant ref m) f (d, c) =
  (match (m d).1 with Ret a => Ret a | Err e => Err (f e) | Panic w => Panic w end, ((m d).2, c')).
Proof. unfold orElse, mutate. rewrite run_bind. unfold inner_. destruct (m d) as [[[]|e|w] d']; by eexists. Qed.

(** A handler that starts by loading the model. *)
Lemma implements_load now lease tenant ref (k : ModelDescriptor → HM unit) r d c :
  (∀ e c', lookupModel d tenant ref = Some e → implements tenant ref (k e) (r e) (d, c')) →
  implements tenant ref (orElse (getModelFresh now lease tenant ref) classifyGetErr ≫= k)
    (match lookupModel d tenant ref with Some e => r e | None => inl ModelNotFound end) (d, c).
Proof.
  intros Hk. destruct (fresh_run now lease tenant ref d c) as [c' Hf]. unfold implements. rewrite run_bind.
  unfold orElse at 1. rewrite Hf. simpl. destruct (lookupModel d tenant ref) as [e|] eqn:He.
  { specialize (Hk e c' eq_refl). exact Hk. }
  unfold classifyGetErr. rewrite decide_True by done. by eexists.
Qed.
Lemma implements_update b tenant ref f g d c e : lookupModel d tenant ref = Some e →
  implements tenant ref (orElse (mutate b tenant ref (updateModel tenant ref f)) g) (inr (Some (f e))) (d, c).
Proof.
  intros He. destruct (mutate_run b tenant ref (updateModel tenant ref f) d c g) as [c' Hm]. exists c'. rewrite Hm.
  unfold updateModel. mrun. by rewrite He.
Qed.
Lemma implements_entities tenant ref Count (m : HM unit) o s : (implements tenant ref m (inr o) s) →
  implements tenant ref (noEntities Count ref ;; m) (guardEntities (Count ref) (inr o)) s.
Proof.
  intros Hm. unfold noEntities, guardEntities. destruct s as [d c]. destruct (Count ref) as [x|[|n]]; [by eexists|exact Hm|by eexists].
Qed.

Lemma finalNode_run o n s : finalNode o n s =
  match (match o with
         | Some e => if decide (d_Schema e = "") then inr n else
                     match Unmarshal (d_Schema e) with inl _ => inl Internal | inr m => inr (mergeNode m n) end
         | None => inr n
         end) with inl e => (Err e, s) | inr m => (Ret m, s) end.
Proof.
  unfold finalNode, schemaOf. destruct o as [e|]; [|done]. destruct (d_Schema e) as [|x y] eqn:Hs; [done|].
  rewrite !decide_False by done. rewrite run_bind. by destruct (Unmarshal _).
Qed.

Lemma import_implements now lease b tenant ref conv data fmt d c :
  implements tenant ref (ImportModel now lease b tenant ref conv data fmt)
    (adminSpec (inr 0) ref (AImport conv data fmt) (lookupModel d tenant ref)) (d, c).
Proof.
  unfold ImportModel, adminSpec. case_decide; [by eexists|].
  destruct (try_fresh now lease tenant ref (λ _, Internal) d c) as [c' Hf]. unfold implements. rewrite run_bind, Hf.
  simpl. set (o := lookupModel d tenant ref). unfold importOver.
  replace (match match o with Some e => inr e | None => inl ErrNotFound end with inr e => Some e | inl _ => None end)
    with o by by destruct o.
  case_decide; [by eexists|]. unfold importSpec. destruct (Import data fmt) as [e|n]; [by eexists|].
  rewrite run_bind, finalNode_run.
  destruct (match o with Some _ => _ | None => _ end) as [e|m]; [by eexists|].
  destruct (Marshal m) as [e|bytes]; [by eexists|]. rewrite keys_checked. cbv zeta.
  destruct (ValidateUniqueKeys Fields m _); [by eexists|].
  by eexists.
Qed.

Lemma admin_implements now lease b tenant Count ref c d cache :
  (∀ e, lookupModel d tenant ref = Some e → d_Ref e = ref) →
  implements tenant ref (admin now lease b tenant Count ref c)
    (adminSpec (Count ref) ref c (lookupModel d tenant ref)) (d, cache).
Proof.
  intros Href. destruct c as [conv data fmt| | | |level|[] keys]; simpl.
  - apply import_implements.
  - apply (implements_load _ _ _ _ _ (λ e, _)). intros e c' He. case_decide; [by eexists|]. by apply implements_update.
  - apply (implements_load _ _ _ _ _ (λ e, _)). intros e c' He. case_decide; [rewrite decide_False by done; by eexists|].
    rewrite decide_True by (destruct (d_State e); naive_solver). by apply implements_entities, implements_update.
  - apply (implements_load _ _ _ _ _ (λ e, _)). intros e c' He. case_decide; [by eexists|]. apply implements_entities.
    destruct (mutate_run b tenant ref (modelDelete tenant ref) d c' (λ _, Internal)) as [c'' Hm]. exists c''.
    unfold Delete. rewrite Hm. unfold modelDelete. mrun. by rewrite He.
  - apply (implements_load _ _ _ _ _ (λ e, _)). intros e c' He.
    destruct (ValidateChangeLevel level); [by apply implements_update|by eexists].
  - apply (implements_load _ _ _ _ _ (λ e, _)). intros e c' He. case_decide; [by eexists|]. unfold schemaOf, implements.
    rewrite run_bind. destruct (Unmarshal (d_Schema e)); [by eexists|]. simpl.
    destruct (ValidateUniqueKeys _ _ _); [by eexists|]. eexists. unfold orElse, Save. simpl. by rewrite (Href e He).
  - by eexists.
Qed.

(** ** Scripts of administration requests *)

Record AdminRequest := mkAdmin {
  ar_now : Time; ar_lease : Z; ar_tenant : string; ar_count : err + nat; ar_ref : ModelRef; ar_call : AdminCall }.
Definition serveOne (broadcaster : bool) (r : AdminRequest) : HM unit :=
  admin (ar_now r) (ar_lease r) broadcaster (ar_tenant r) (λ _, ar_count r) (ar_ref r) (ar_call r).
Definition specOne (r : AdminRequest) (d : Models) : outcome AppError unit * Models :=
  match adminSpec (ar_count r) (ar_ref r) (ar_call r) (lookupModel d (ar_tenant r) (ar_ref r)) with
  | inl e => (Err e, d)
  | inr o => (Ret tt, setEntry (ar_tenant r) (ar_ref r) o d)
  end.
Fixpoint serveAdmin (broadcaster : bool) (l : list AdminRequest) (s : CS) : list (outcome AppError unit) * CS :=
  match l with
  | [] => ([], s)
  | r :: l => let '(a, s1) := serveOne broadcaster r s in
              let '(answers, s2) := serveAdmin broadcaster l s1 in (a :: answers, s2)
  end.
Fixpoint specAdmin (l : list AdminRequest) (d : Models) : list (outcome AppError unit) * Models :=
  match l with
  | [] => ([], d)
  | r :: l => let '(a, d1) := specOne r d in let '(answers, d2) := specAdmin l d1 in (a :: answers, d2)
  end.

(** Descriptors are stored under their own reference. *)
Definition refsOk (d : Models) : Prop := ∀ t r e, lookupModel d t r = Some e → d_Ref e = r.

Lemma lookup_setEntry tenant ref o d t m :
  lookupModel (setEntry tenant ref o d) t m = if decide ((t, m) = (tenant, ref)) then o else lookupModel d t m.
Proof.
  destruct o as [e|]; [apply lookup_setModel|]. unfold lookupModel, setEntry. destruct (decide (t = tenant)) as [->|].
  - rewrite lookup_insert_eq. simpl. destruct (decide (m = ref)) as [->|].
    + by rewrite lookup_delete_eq, decide_True.
    + rewrite lookup_delete_ne, decide_False by congruence. done.
  - rewrite lookup_insert_ne, decide_False by congruence. done.
Qed.

(** The entry a request leaves: what was there, or what the specification makes. *)
Lemma specOne_entry r d t m : lookupModel (specOne r d).2 t m = lookupModel d t m ∨
  (t, m) = (ar_tenant r, ar_ref r) ∧
  adminSpec (ar_count r) (ar_ref r) (ar_call r) (lookupModel d t m) = inr (lookupModel (specOne r d).2 t m).
Proof.
  unfold specOne. destruct (adminSpec _ _ _ _) as [e|o] eqn:Hs; [by left|]. simpl. rewrite lookup_setEntry.
  case_decide as Hk; [|by left]. right. split; [done|]. by injection Hk as -> ->.
Qed.

Lemma adminSpec_ref count ref c o e' : adminSpec count ref c o = inr (Some e') →
  (∀ e, o = Some e → d_Ref e = ref) → d_Ref e' = ref.
Proof.
  intros Hs Ho. destruct c as [conv data fmt| | | |level|[] keys]; simpl in Hs.
  - do 2 (case_decide; [done|]). destruct (importSpec _ _ _ _) as [|x] eqn:Hi; [done|]. injection Hs as <-.
    unfold importSpec in Hi. destruct (Import _ _); [done|]. destruct (match o with Some _ => _ | None => _ end); [done|].
    destruct (Marshal _); [done|]. destruct (ValidateUniqueKeys _ _ _); [done|]. by injection Hi as <-.
  - destruct o as [e|]; [|done]. case_decide; [done|]. injection Hs as <-. exact (Ho e eq_refl).
  - destruct o as [e|]; [|done]. case_decide; [|done]. destruct count as [|[]]; [done| |done]. injection Hs as <-. exact (Ho e eq_refl).
  - destruct o as [e|]; [|done]. case_decide; [done|]. by destruct count as [|[]].
  - destruct o as [e|]; [|done]. destruct (ValidateChangeLevel _); [|done]. injection Hs as <-. exact (Ho e eq_refl).
  - destruct o as [e|]; [|done]. case_decide; [done|]. destruct (Unmarshal _); [done|].
    destruct (ValidateUniqueKeys _ _ _); [done|]. injection Hs as <-. exact (Ho e eq_refl).
  - done.
Qed.
Lemma specOne_refs r d : refsOk d → refsOk (specOne r d).2.
Proof.
  intros Hd t m e He. destruct (specOne_entry r d t m) as [Heq|[Hk Hs]]; [rewrite Heq in He; by eapply Hd|].
  rewrite He in Hs. injection Hk as -> ->. eapply adminSpec_ref; [exact Hs|]. intros e0. apply Hd.
Qed.
Lemma serveOne_spec b r d c : refsOk d → ∃ c', serveOne b r (d, c) = ((specOne r d).1, ((specOne r d).2, c')).
Proof.
  intros Hd. destruct (admin_implements (ar_now r) (ar_lease r) b (ar_tenant r) (λ _, ar_count r) (ar_ref r) (ar_call r) d c) as [c' Hm].
  { intros e. apply Hd. }
  exists c'. unfold serveOne, specOne. rewrite Hm. by destruct (adminSpec _ _ _ _).
Qed.
Lemma serveAdmin_spec b l d c : refsOk d →
  (serveAdmin b l (d, c)).1 = (specAdmin l d).1 ∧ (serveAdmin b l (d, c)).2.1 = (specAdmin l d).2.
Proof.
  revert d c. induction l as [|r l IH]; intros d c Hd; [done|]. simpl.
  destruct (serveOne_spec b r d c Hd) as [c' ->]. destruct (specOne r d) as [a d1] eqn:Ho. simpl.
  pose proof (specOne_refs r d Hd) as Hd1. rewrite Ho in Hd1. destruct (IH d1 c' Hd1) as [H1 H2].
  destruct (serveAdmin b l (d1, c')) as [answers s2]. destruct (specAdmin l d1) as [answers' d2]. simpl in *. by subst.
Qed.

(** C36. The administration handlers implement the state machine [adminSpec] on the
    stored descriptors: for any script of requests of any tenants, whatever the
    node has cached and whatever it expires in between, every answer is the
    specification's and the store ends as the specification says; a handler that
    answers an error has changed nothing. *)
Theorem admin_refines b l d cache : refsOk d →
  (serveAdmin b l (d, cache)).1 = (specAdmin l d).1 ∧ (serveAdmin b l (d, cache)).2.1 = (specAdmin l d).2.
Proof. apply serveAdmin_spec. Qed.

Definition sameButLevel (e e' : ModelDescriptor) : Prop :=
  d_Ref e' = d_Ref e ∧ d_State e' = d_State e ∧ d_Schema e' = d_Schema e ∧ d_UniqueKeys e' = d_UniqueKeys e.

Lemma frozen_step n ref c e o : d_State e = ModelLocked → adminSpec (inr (S n)) ref c (Some e) = inr o →
  ∃ e', o = Some e' ∧ sameButLevel e e'.
Proof.
  intros Hl Hs. destruct c as [conv data fmt| | | |level|[] keys]; simpl in Hs; rewrite ?Hl in Hs; try done.
  - case_decide; [done|]. by rewrite decide_True in Hs.
  - destruct (ValidateChangeLevel level); [|done]. injection Hs as <-. by eexists.
Qed.

(** A locked model that has entities is frozen: no script of administration
    requests, from this tenant or others, imports over it, deletes it, unlocks it or
    changes its unique keys; only its change level can move. *)
Theorem locked_with_entities_frozen b l d cache tenant ref e : refsOk d →
  lookupModel d tenant ref = Some e → d_State e = ModelLocked →
  Forall (λ r, (ar_tenant r, ar_ref r) = (tenant, ref) → ∃ n, ar_count r = inr (S n)) l →
  ∃ e', lookupModel (serveAdmin b l (d, cache)).2.1 tenant ref = Some e' ∧ sameButLevel e e'.
Proof.
  intros Hd He Hl Hall. rewrite (proj2 (serveAdmin_spec b l d cache Hd)). clear Hd cache b.
  revert d e He Hl. induction Hall as [|r l Hr _ IH]; intros d e He Hl; [by exists e|]. simpl.
  assert (Hone : ∃ e1, lookupModel (specOne r d).2 tenant ref = Some e1 ∧ sameButLevel e e1).
  { destruct (specOne_entry r d tenant ref) as [->|[Hk Hs]]; [by exists e|]. destruct (Hr (eq_sym Hk)) as [n Hn].
    rewrite Hn, He in Hs. destruct (frozen_step _ _ _ _ _ Hl Hs) as (e1 & -> & Hsame). by exists e1. }
  destruct Hone as (e1 & He1 & Hsame). destruct (IH (specOne r d).2 e1) as (e' & He' & Hsame'); [done|unfold sameButLevel in *; naive_solver congruence|].
  destruct (specOne r d) as [a d1]. simpl in *. destruct (specAdmin l d1) as [answers d2]. simpl in *.
  exists e'. split; [done|]. unfold sameButLevel in *. intuition congruence.
Qed.
End Service.
