(* ===== verification/ModelInvariant.v ===== *)
(** * Registered models stay usable

    What the administration handlers of [ModelService] and the ingest of
    [Ingest] guarantee together: a model registered from sample documents admits
    them, and every stored model is well formed and can enforce its unique keys. *)

From stdpp Require Import base gmap strings list.
From S2P Require Import Prelude Spi MemStores Schema SchemaLattice SchemaDelta SchemaAdmit SchemaExtend Ingest ModelCache ModelService.
Import ModelStore.

Section Invariant.
Context `{SchemaSPI} {L : SchemaLaws} {K : Classifier} {KL : ClassifierLaws} {PC : PayloadCodec}.
Context (Fields : ModelNode → list FieldDescriptor).
Context (ParseJSON ParseXML : string → option JSON) (ValidateChangeLevel : string → option string).
Hypothesis json_decoded : ∀ data v, ParseJSON data = Some v → decoded v.
Hypothesis xml_decoded : ∀ data v, ParseXML data = Some v → decoded v.

(** ** Sample documents *)

Lemma le_trans a b c : wf a → wf b → wf c → le a b → le b c → le a c.
Proof. unfold le. intros Ha Hb Hc Hab Hbc. rewrite <- Hbc at 1. by rewrite <- merge_assoc, Hab. Qed.

Lemma described_admits k v p n cs : decoded v → walk false k None v p p ChangeLevelType [] = (Ret (Some n), cs) →
  wf n ∧ admits k n v.
Proof.
  intros Hv Hw. apply walk_extends in Hw as [Hr (x & Hx & Ha)]; [|apply wfO_None|done].
  rewrite J_None_l in Hx. injection Hx as <-. split; [by apply Hr|done].
Qed.
Lemma Walk_admits v n : decoded v → Walk v = inr n → wf n ∧ admits MaxValidationDepth n v.
Proof.
  intros Hv. unfold Walk, Describe. destruct (walk _ _ _ _ _ _ _ _) as [[[x|]|e|w] cs] eqn:Hw; simpl; try done.
  intros [= <-]. exact (described_admits MaxValidationDepth v "$" x cs Hv Hw).
Qed.
Lemma walkDocuments_admits l node n : wf node → (∀ x, x ∈ l → decoded x) → walkDocuments l node = inr n →
  wf n ∧ le node n ∧ ∀ x, x ∈ l → admits MaxValidationDepth n x.
Proof.
  revert node. induction l as [|x l IH]; intros node Hn Hl Hw.
  { injection Hw as <-. split_and!; [done|by apply merge_idem|by intros ? ?%elem_of_nil]. }
  destruct x; try done. simpl in Hw. destruct (Walk _) as [e|d] eqn:Hx; [done|].
  destruct (Walk_admits _ _ (Hl _ ltac:(left)) Hx) as [Hd Ha].
  destruct (IH (mergeNode node d)) as (Hwn & Hle & Hall); [by apply merge_wf|by intros y Hy; apply Hl; right|done|].
  assert (Hm : wf (mergeNode node d)) by by apply merge_wf.
  split_and!; [done|by apply (le_trans _ (mergeNode node d)); auto using le_merge_l|].
  intros y [->|Hy]%elem_of_cons; [|by apply Hall]. apply (admits_mono _ d); [done..| |done].
  apply (le_trans _ (mergeNode node d)); auto using merge_above_r.
Qed.

(** The documents of a sample body. *)
Definition samples (parsed : JSON) : list JSON := match parsed with JArray l => l | v => [v] end.
Definition parsedAs (data format : string) (parsed : JSON) : Prop :=
  format = "JSON" ∧ ParseJSON data = Some parsed ∨ format = "XML" ∧ ParseXML data = Some parsed.

Lemma walkSampleData_admits parsed n : decoded parsed → walkSampleData parsed = inr n →
  wf n ∧ ∀ x, x ∈ samples parsed → admits MaxValidationDepth n x.
Proof.
  intros Hd Hw. destruct parsed as [|fs|l| | | | |]; try done; simpl in Hw.
  - destruct (Walk_admits _ _ Hd Hw) as [Hn Ha]. split; [done|]. intros x [->|?%elem_of_nil]%elem_of_cons; done.
  - inversion Hd as [| |l' Hl| | |]; subst.
    destruct (walkDocuments_admits l NewObjectNode n) as (Hn & _ & Ha); [|done..].
    apply wf_object_only. by intros i c ?%lookup_empty_Some.
Qed.
Lemma Import_admits data format n : Import ParseJSON ParseXML data format = inr n →
  wf n ∧ ∃ parsed, parsedAs data format parsed ∧ ∀ x, x ∈ samples parsed → admits MaxValidationDepth n x.
Proof.
  unfold Import. case_decide as Hf; [|case_decide as Hx; [|done]].
  - destruct (ParseJSON data) as [v|] eqn:Hp; [|done]. intros Hw.
    destruct (walkSampleData_admits v n) as [Hn Ha]; [by eapply json_decoded|done|].
    split; [done|]. exists v. split; [by left|done].
  - destruct (ParseXML data) as [v|] eqn:Hp; [|done]. intros Hw.
    destruct (walkSampleData_admits v n) as [Hn Ha]; [by eapply xml_decoded|done|].
    split; [done|]. exists v. split; [by right|done].
Qed.

(** ** The invariant *)

(** A stored descriptor: under its own reference, its schema well formed, its
    unique keys enforceable under it. *)
Definition okDesc (ref : ModelRef) (e : ModelDescriptor) : Prop :=
  d_Ref e = ref ∧ ∃ S, encodes (d_Schema e) S ∧ enforceable Fields S (d_UniqueKeys e).
(** The same without the keys. *)
Definition okSchema (ref : ModelRef) (e : ModelDescriptor) : Prop := d_Ref e = ref ∧ ∃ S, encodes (d_Schema e) S.
Definition okModels (d : Models) : Prop := ∀ t r e, lookupModel d t r = Some e → okDesc r e.

Lemma okDesc_schema ref e : okDesc ref e → okSchema ref e.
Proof. intros (Hr & S & HS & _). split; [done|]. by exists S. Qed.
Lemma encodes_nonempty sch n : encodes sch n → sch ≠ "".
Proof. intros [Hu _] ->. by eapply unmarshal_empty. Qed.

(** What a successful import stores. *)
Lemma importSpec_ok ref data format o e' : (∀ e, o = Some e → okSchema ref e) →
  importSpec Fields ParseJSON ParseXML ref data format o = inr e' →
  okDesc ref e' ∧ d_State e' = ModelUnlocked ∧
  ∃ n S', wf n ∧ encodes (d_Schema e') S' ∧ le n S' ∧ Import ParseJSON ParseXML data format = inr n ∧
    ∀ e S, o = Some e → encodes (d_Schema e) S → le S S'.
Proof.
  intros Ho Hi. unfold importSpec in Hi. destruct (Import _ _ _ _) as [|n] eqn:Himp; [done|].
  destruct (Import_admits _ _ _ Himp) as [Hn _].
  destruct (match o with Some _ => _ | None => _ end) as [|m] eqn:Hm; [done|].
  assert (Hm' : wf m ∧ le n m ∧ ∀ e S, o = Some e → encodes (d_Schema e) S → le S m).
  { destruct o as [e|]; [|injection Hm as <-; split_and!; [done|by apply merge_idem|done]].
    destruct (Ho e eq_refl) as (_ & S & HS). pose proof (encodes_nonempty _ _ HS) as Hne.
    rewrite decide_False in Hm by done. destruct HS as [Hu HS]. rewrite Hu in Hm. injection Hm as <-.
    split_and!; [by apply merge_wf|by apply merge_above_r|]. intros e0 S0 [= <-] [Hu0 _].
    assert (S0 = S) as -> by congruence. by apply le_merge_l. }
  destruct Hm' as (Hwm & Hnm & Hold). destruct (codec_roundtrip m Hwm) as (b & Hb & Hub). rewrite Hb in Hi. cbv zeta in Hi.
  destruct (ValidateUniqueKeys _ _ _) eqn:Hv; [done|]. injection Hi as <-.
  apply ValidateUniqueKeys_spec in Hv. split; [split; [done|]; by exists m|]. split; [done|]. exists n, m. done.
Qed.

Lemma adminSpec_ok count ref c o e' : (∀ e, o = Some e → okDesc ref e) →
  adminSpec Fields ParseJSON ParseXML ValidateChangeLevel count ref c o = inr (Some e') → okDesc ref e'.
Proof.
  intros Ho Hs. destruct c as [conv data fmt| | | |level|[] keys]; simpl in Hs.
  - do 2 (case_decide; [done|]). destruct (importSpec _ _ _ _ _ _ _) as [|x] eqn:Hi; [done|]. injection Hs as <-.
    eapply importSpec_ok; [|done]. intros e He. by apply okDesc_schema, Ho.
  - destruct o as [e|]; [|done]. case_decide; [done|]. injection Hs as <-. exact (Ho e eq_refl).
  - destruct o as [e|]; [|done]. case_decide; [|done]. destruct count as [|[]]; [done| |done]. injection Hs as <-. exact (Ho e eq_refl).
  - destruct o as [e|]; [|done]. case_decide; [done|]. by destruct count as [|[]].
  - destruct o as [e|]; [|done]. destruct (ValidateChangeLevel _); [|done]. injection Hs as <-. exact (Ho e eq_refl).
  - destruct o as [e|]; [|done]. case_decide; [done|]. destruct (Ho e eq_refl) as (Hr & S & HS & _).
    rewrite (proj1 HS) in Hs. destruct (ValidateUniqueKeys _ _ _) eqn:Hv; [done|]. injection Hs as <-.
    apply ValidateUniqueKeys_spec in Hv. split; [done|]. by exists S.
  - done.
Qed.

Lemma okModels_refs d : okModels d → refsOk d.
Proof. intros Hd t r e He. by apply (Hd t r e). Qed.
Lemma specOne_ok r d : okModels d → okModels (specOne Fields ParseJSON ParseXML ValidateChangeLevel r d).2.
Proof.
  intros Hd t m e He. destruct (specOne_entry Fields ParseJSON ParseXML ValidateChangeLevel r d t m) as [Heq|[Hk Hs]].
  { rewrite Heq in He. by apply (Hd t m). }
  rewrite He in Hs. injection Hk as -> ->. eapply adminSpec_ok; [|exact Hs]. intros e0. apply Hd.
Qed.

(** A registration admits its samples and forgets nothing: after a successful
    import the stored model is unlocked and well formed, strict validation accepts
    every document of the sample body against it, and accepts whatever it
    accepted against the model stored before. *)
Theorem import_admits_samples now lease b tenant ref converter data format d cache d' cache' : okModels d →
  ImportModel Fields ParseJSON ParseXML now lease b tenant ref converter data format (d, cache) = (Ret tt, (d', cache')) →
  ∃ e' S' parsed, lookupModel d' tenant ref = Some e' ∧ d_State e' = ModelUnlocked ∧ encodes (d_Schema e') S' ∧
    parsedAs data format parsed ∧ (∀ x, x ∈ samples parsed → Validate S' x = []) ∧
    ∀ e S v, lookupModel d tenant ref = Some e → encodes (d_Schema e) S → Validate S v = [] → Validate S' v = [].
Proof.
  intros Hd Hi. destruct (import_implements Fields ParseJSON ParseXML ValidateChangeLevel now lease b tenant ref converter data format d cache)
    as [c' Hm]. rewrite Hi in Hm. unfold adminSpec in Hm. do 2 (case_decide; [done|]).
  destruct (importSpec _ _ _ _ _ _ _) as [|e'] eqn:Hs; [done|]. injection Hm as -> ->. simpl.
  destruct (importSpec_ok _ _ _ _ _ (λ e He, okDesc_schema _ _ (Hd tenant ref e He)) Hs) as (_ & Hun & n & S' & Hn & HS' & Hle & Himp & Hold).
  destruct (Import_admits _ _ _ Himp) as (_ & parsed & Hp & Ha). exists e', S', parsed.
  rewrite lookup_setModel, decide_True by done. split_and!; [done..| |].
  - intros x Hx. rewrite validate_spec. apply (admits_mono _ n); [done|by apply HS'|done|by apply Ha].
  - intros e S v He HS. rewrite !validate_spec. apply admits_mono; [by apply HS|by apply HS'|by eapply Hold].
Qed.
End Invariant.
