(* ===== verification/ModelCluster.v ===== *)
(** * Writers, caches and the growing schema

    The doors of entity payloads ([internal/domain/entity/service.go],
    [handler.go]) over the cached model store, and a cluster of nodes whose caches
    may be arbitrarily stale: gossip lost or late, reads overtaken by writes.
    Schema correctness does not depend on the caches being fresh. *)

From stdpp Require Import base gmap strings list.
From S2P Require Import Prelude Spi MemStores Schema SchemaLattice SchemaDelta SchemaAdmit SchemaExtend Ingest ModelCache ModelService ModelInvariant.
Import ModelStore.

Inductive doorErr : Type :=
| DoorModelNotFound | DoorInternal | DoorNotLocked | DoorBadRequest | DoorUnstorable | DoorSchema (e : ierr).

Section Doors.
Context `{SchemaSPI} {K : Classifier} {PC : PayloadCodec} (Fields : ModelNode → list FieldDescriptor).
(** The body's decoder for a format, and the storability screen. *)
Context (decodeBody : string → string → option JSON) (storable : string → bool).

Section Request.
Context (now : Time) (lease : Z) (broadcaster : bool) (tenant : string).

(** The steps of [CreateEntity] before the transaction opens. *)
Definition admitPayload (ref : ModelRef) (format body : string) : M doorErr CS ModelDescriptor := λ s,
  match Get now lease tenant ref s with
  | (Err e, s') => (Err (if decide (e = ErrNotFound) then DoorModelNotFound else DoorInternal), s')
  | (Panic w, s') => (Panic w, s')
  | (Ret desc, s') =>
      if decide (d_State desc ≠ ModelLocked) then (Err DoorNotLocked, s') else
      match decodeBody format body with
      | None => (Err DoorBadRequest, s')
      | Some parsedData =>
          if negb (storable body) then (Err DoorUnstorable, s') else
          match ValidateOrExtend Fields (Extend_ broadcaster tenant) desc parsedData s' with
          | (Ret _, s'') => (Ret desc, s'')
          | (Err e, s'') => (Err (DoorSchema e), s'')
          | (Panic w, s'') => (Panic w, s'')
          end
      end
  end.

(** Strict validation with one refresh, on unknown-element errors only. *)
Definition ValidateWithRefresh (ref : ModelRef) (data : JSON) : M ierr CS unit := λ s,
  match Get now lease tenant ref s with
  | (Err _, s') => (Err ErrInternalSchema, s')
  | (Panic w, s') => (Panic w, s')
  | (Ret desc, s') =>
      match ValidateDescriptor (Some desc) data with
      | [] => (Ret tt, s')
      | errs =>
          if negb (HasUnknownSchemaElement errs) then (Err (ValidationErrorsToError errs), s') else
          match RefreshAndGet now lease tenant ref s' with
          | (Err _, s'') => (Err ErrInternalSchema, s'')
          | (Panic w, s'') => (Panic w, s'')
          | (Ret freshDesc, s'') =>
              match ValidateDescriptor (Some freshDesc) data with
              | [] => (Ret tt, s'')
              | errs2 => (Err (ValidationErrorsToError errs2), s'')
              end
          end
      end
  end.

(** [Ret tt] when the model is registered. *)
Definition EnsureModelRegistered (ref : ModelRef) : M AppError CS unit := λ s,
  match Get now lease tenant ref s with
  | (Ret _, s') => (Ret tt, s')
  | (Panic w, s') => (Panic w, s')
  | (Err e, s') =>
      if decide (e ≠ ErrNotFound) then (Err Internal, s') else
      match RefreshAndGet now lease tenant ref s' with
      | (Ret _, s'') => (Ret tt, s'')
      | (Panic w, s'') => (Panic w, s'')
      | (Err e, s'') => (Err (if decide (e ≠ ErrNotFound) then Internal else ModelNotFound), s'')
      end
  end.
End Request.
End Doors.

(** ** One node *)

Section Node.
Context `{SchemaSPI} {L : SchemaLaws} {K : Classifier} {KL : ClassifierLaws} {PC : PayloadCodec}.
Context (Fields : ModelNode → list FieldDescriptor).
Context (ParseJSON ParseXML : string → option JSON) (ValidateChangeLevel : string → option string).
Hypothesis json_decoded : ∀ data v, ParseJSON data = Some v → decoded v.
Hypothesis xml_decoded : ∀ data v, ParseXML data = Some v → decoded v.
Context (decodeBody : string → string → option JSON) (storable : string → bool).
Hypothesis body_decoded : ∀ format body v, decodeBody format body = Some v → decoded v.

(** Coherence through the handlers. *)
Definition keeps {E A} (m : M E CS A) : Prop := ∀ s, coherent s → coherent (m s).2.

Lemma agrees_keeps {E A} (m : M E CS A) m' : agrees m m' → keeps m.
Proof. intros Hm s Hs. by apply (Hm s Hs). Qed.
Lemma keeps_bind {E A B} (m : M E CS A) (f : A → M E CS B) : keeps m → (∀ a, keeps (f a)) → keeps (m ≫= f).
Proof. intros Hm Hf s Hs. specialize (Hm s Hs). rewrite run_bind. destruct (m s) as [[a|e|w] s']; [by apply Hf|done..]. Qed.
Lemma keeps_orElse {A} (m : CM A) f : keeps m → keeps (orElse m f).
Proof. intros Hm s Hs. specialize (Hm s Hs). unfold orElse. by destruct (m s) as [[]]. Qed.
Lemma keeps_try {E A} (m : M E CS A) : keeps m → keeps (try m).
Proof. intros Hm s Hs. specialize (Hm s Hs). unfold try. by destruct (m s) as [[]]. Qed.
Lemma keeps_same {E A} (m : M E CS A) : (∀ s, (m s).2 = s) → keeps m.
Proof. intros Hm s Hs. by rewrite Hm. Qed.

Lemma keeps_fresh now lease tenant ref : keeps (getModelFresh now lease tenant ref).
Proof. eapply agrees_keeps, agrees_refresh. Qed.
Lemma keeps_save b tenant desc : keeps (Save b tenant desc).
Proof. eapply agrees_keeps, agrees_mutate, touches_set. Qed.
Lemma keeps_update b tenant ref f : keeps (mutate b tenant ref (updateModel tenant ref f)).
Proof. eapply agrees_keeps, agrees_mutate, touches_update. Qed.
Lemma keeps_delete b tenant ref : keeps (Delete b tenant ref).
Proof. eapply agrees_keeps, agrees_mutate, touches_delete. Qed.

Local Ltac keeps_step :=
  first
    [ apply keeps_save | apply keeps_update | apply keeps_delete | apply keeps_fresh
    | apply keeps_bind; [|intros ?] | apply keeps_orElse | apply keeps_try
    | (apply keeps_same; intros ?; reflexivity)
    | match goal with
      | |- keeps (match ?x with _ => _ end) => destruct x
      | |- keeps (if ?x then _ else _) => destruct x
      end ].

Lemma keeps_admin now lease b tenant Count ref c :
  keeps (admin Fields ParseJSON ParseXML ValidateChangeLevel now lease b tenant Count ref c).
Proof.
  destruct c; simpl; unfold ImportModel, importOver, LockModel, UnlockModel, DeleteModel, SetChangeLevel_, SetUniqueKeys, noEntities,
    schemaOf, finalNode, schemaOf; repeat keeps_step.
Qed.

Lemma agrees_ValidateOrExtend b tenant desc v :
  agrees (ValidateOrExtend Fields (Extend_ b tenant) desc v)
    (ValidateOrExtend Fields (ExtendSchema (Some makeSchemaApply) tenant) desc v).
Proof.
  intros s Hs. unfold ValidateOrExtend. destruct (Unmarshal _) as [x|D]; [done|].
  case_decide; [by destruct (Validate D v)|]. destruct (Extend D v _) as [X| |]; [|done..].
  destruct (if decide _ then _ else _); [done|]. destruct (Diff _ _) as [|[|op delta]]; [done..|].
  destruct (agrees_mutate b tenant (d_Ref desc) _ (touches_extend tenant (d_Ref desc) (op :: delta)) s Hs) as (H1 & H2 & H3).
  unfold Extend_. destruct (mutate _ _ _ _ _) as [r s']. destruct (ExtendSchema _ _ _ _ _) as [r' d']. simpl in *. subst.
  by destruct r' as [[]| |].
Qed.

Lemma admitPayload_keeps now lease b tenant ref format body :
  keeps (admitPayload Fields decodeBody storable now lease b tenant ref format body).
Proof.
  intros s Hs. unfold admitPayload. destruct (agrees_get now lease tenant ref s Hs) as (_ & _ & Hg).
  destruct (Get now lease tenant ref s) as [[desc|e|w] s']; [|done..]. case_decide; [done|].
  destruct (decodeBody format body) as [v|]; [|done]. destruct (negb _); [done|].
  destruct (agrees_ValidateOrExtend b tenant desc v s' Hg) as (_ & _ & Hv). by destruct (ValidateOrExtend _ _ _ _ _) as [[]].
Qed.

Lemma setModel_ok tenant ref e d : okModels Fields d → okDesc Fields ref e → okModels Fields (setModel tenant ref e d).
Proof.
  intros Hd He t m x. rewrite lookup_setModel. case_decide as Hk; [|by apply Hd]. injection Hk as -> ->. by intros [= <-].
Qed.

(** A payload through the door of a coherent node leaves the models in order. *)
Lemma admitPayload_ok now lease b tenant ref format body s : coherent s → okModels Fields s.1 →
  okModels Fields (admitPayload Fields decodeBody storable now lease b tenant ref format body s).2.1.
Proof.
  intros Hs Hok. unfold admitPayload. destruct (agrees_get now lease tenant ref s Hs) as (H1 & H2 & Hg).
  rewrite modelGet_run in H1, H2. destruct (Get now lease tenant ref s) as [r s']. simpl in H1, H2. subst r.
  destruct (lookupModel s.1 tenant ref) as [desc|] eqn:He; [|simpl; by rewrite H2].
  case_decide; [simpl; by rewrite H2|]. destruct (decodeBody format body) as [v|] eqn:Hb; [|simpl; by rewrite H2].
  destruct (negb _); [simpl; by rewrite H2|].
  destruct (agrees_ValidateOrExtend b tenant desc v s' Hg) as (Hv1 & Hv2 & _). rewrite H2 in Hv1, Hv2.
  destruct (Hok tenant ref desc He) as (Href & S & HS & Hkeys). pose proof HS as [HuS HwS].
  assert (He' : lookupModel s.1 tenant (d_Ref desc) = Some desc) by by rewrite Href.
  pose proof (ValidateOrExtend_spec Fields tenant desc S v s.1 desc S HS He' HS (merge_idem S HwS) (body_decoded _ _ _ Hb)) as Hspec.
  destruct (ValidateOrExtend Fields (Extend_ b tenant) desc v s') as [r s'']. simpl in Hv1, Hv2. subst r.
  destruct (ValidateOrExtend Fields (ExtendSchema _ tenant) desc v s.1) as [[[]|x|w] d']; simpl in *; rewrite ?Hv2; [|by destruct Hspec as [-> _]|done].
  destruct Hspec as (sch & S' & -> & HS' & _ & _ & Hgrown). apply setModel_ok; [done|]. split; [by simpl; rewrite Href|].
  exists S'. split; [done|]. simpl. destruct Hgrown as [->|(X & -> & Hle & HkX)]; [done|].
  rewrite Hle. by apply ValidateUniqueKeys_spec.
Qed.

(** A node's life: administration requests and payloads. *)
Inductive NodeEvent : Type :=
| EAdmin (r : AdminRequest)
| EPayload (now : Time) (lease : Z) (tenant : string) (ref : ModelRef) (format body : string).
Definition nodeStep (broadcaster : bool) (ev : NodeEvent) (s : CS) : CS :=
  match ev with
  | EAdmin r => (serveOne Fields ParseJSON ParseXML ValidateChangeLevel broadcaster r s).2
  | EPayload now lease tenant ref format body =>
      (admitPayload Fields decodeBody storable now lease broadcaster tenant ref format body s).2
  end.

(** Every stored model stays well formed and able to enforce its unique keys:
    whatever administration requests and payloads a node serves, in whatever order,
    accepted or refused, each stored descriptor's schema decodes to a well-formed
    model under which its unique keys can be enforced: named apart, over distinct
    known fields, none of which leads to a node that admits an object or an array. *)
Theorem unique_keys_stay_valid broadcaster l s : coherent s → okModels Fields s.1 →
  coherent (foldl (flip (nodeStep broadcaster)) s l) ∧ okModels Fields (foldl (flip (nodeStep broadcaster)) s l).1.
Proof.
  revert s. induction l as [|ev l IH]; intros s Hs Hok; [done|]. simpl. apply IH; destruct ev; simpl.
  - by apply keeps_admin.
  - by apply admitPayload_keeps.
  - destruct s as [d c]. pose proof (okModels_refs _ _ Hok) as Hr.
    destruct (serveOne_spec Fields ParseJSON ParseXML ValidateChangeLevel broadcaster r d c Hr) as [c' ->]. simpl. by apply specOne_ok.
  - by apply admitPayload_ok.
Qed.
End Node.

(** ** A cluster *)

Section Cluster.
Context `{SchemaSPI} {L : SchemaLaws} {K : Classifier} {KL : ClassifierLaws} {PC : PayloadCodec}.
Context (Fields : ModelNode → list FieldDescriptor).
Context (ParseJSON ParseXML : string → option JSON) (ValidateChangeLevel : string → option string).
Hypothesis json_decoded : ∀ data v, ParseJSON data = Some v → decoded v.
Hypothesis xml_decoded : ∀ data v, ParseXML data = Some v → decoded v.

(** The shared store, the nodes' caches, the descriptors read from the store by a
    node and not yet delivered, those in the hands of requests, and the documents
    accepted so far, for which tenant and model. *)
Record Cluster := mkCluster {
  cl_store : Models;
  cl_nodes : gmap string CachingModelStore;
  cl_fetched : list (string * string * ModelDescriptor);
  cl_held : list (string * ModelDescriptor);
  cl_accepted : list (string * ModelRef * JSON) }.

Definition cacheOf (c : Cluster) (node : string) : CachingModelStore := default (mkCache ∅ [] []) (cl_nodes c !! node).
Definition withCache (node : string) (x : CachingModelStore) (c : Cluster) : Cluster :=
  mkCluster (cl_store c) (<[node := x]> (cl_nodes c)) (cl_fetched c) (cl_held c) (cl_accepted c).
Definition withStore (d : Models) (c : Cluster) : Cluster :=
  mkCluster d (cl_nodes c) (cl_fetched c) (cl_held c) (cl_accepted c).
Definition hold (tenant : string) (desc : ModelDescriptor) (c : Cluster) : Cluster :=
  mkCluster (cl_store c) (cl_nodes c) (cl_fetched c) ((tenant, desc) :: cl_held c) (cl_accepted c).
Definition accept (tenant : string) (ref : ModelRef) (v : JSON) (c : Cluster) : Cluster :=
  mkCluster (cl_store c) (cl_nodes c) (cl_fetched c) (cl_held c) ((tenant, ref, v) :: cl_accepted c).

(** The payload step of a request at [node] holding [desc]. *)
Definition payload (b : bool) (c : Cluster) (node tenant : string) (desc : ModelDescriptor) (v : JSON) :
    outcome ierr unit * CS :=
  ValidateOrExtend Fields (Extend_ b tenant) desc v (cl_store c, cacheOf c node).

(** One step, at one node: a read of [Get] and of [RefreshAndGet] is split at the
    store (a peer may write in between); an expired or missing entry, a hit, the
    arrival of any gossip or its loss; a payload accepted, refused, or accepted by
    strict validation; an administration request other than a deletion. *)
Inductive cstep (b : bool) : Cluster → Cluster → Prop :=
| c_read c node tenant ref desc : modelGet tenant ref (cl_store c) = (Ret desc, cl_store c) →
    cstep b c (mkCluster (cl_store c) (cl_nodes c) ((node, tenant, desc) :: cl_fetched c) (cl_held c) (cl_accepted c))
| c_deliver c node tenant desc now lease : (node, tenant, desc) ∈ cl_fetched c →
    cstep b c (hold tenant desc
      (if decide (d_State desc = ModelLocked)
       then withCache node (store_ now lease (tenant, d_Ref desc) desc (cacheOf c node)) c else c))
| c_hit c node tenant ref now desc : lookup_ now (tenant, ref) (cacheOf c node) = Some desc →
    cstep b c (hold tenant desc c)
| c_evict c node key : cstep b c (withCache node (evict key (cacheOf c node)) c)
| c_gossip c node raw : cstep b c (withCache node (handleInvalidation raw (cacheOf c node)) c)
| c_accepted c node tenant desc v d' x : (tenant, desc) ∈ cl_held c → decoded v →
    payload b c node tenant desc v = (Ret tt, (d', x)) →
    cstep b c (accept tenant (d_Ref desc) v (withCache node x (withStore d' c)))
| c_refused c node tenant desc v e d' x : (tenant, desc) ∈ cl_held c → decoded v →
    payload b c node tenant desc v = (Err e, (d', x)) → cstep b c (withCache node x (withStore d' c))
| c_strict c tenant desc v : (tenant, desc) ∈ cl_held c → ValidateStrict desc v = None →
    cstep b c (accept tenant (d_Ref desc) v c)
| c_admin c node r a d' x : ar_call r ≠ ADelete →
    serveOne Fields ParseJSON ParseXML ValidateChangeLevel b r (cl_store c, cacheOf c node) = (a, (d', x)) →
    cstep b c (withCache node x (withStore d' c)).

(** *** The invariant *)

Definition okStore (d : Models) : Prop := ∀ t r e, lookupModel d t r = Some e → okSchema r e.

(** A descriptor some node knows: an earlier version of the stored one. *)
Definition below (d : Models) (tenant : string) (desc : ModelDescriptor) : Prop :=
  ∃ D e S, encodes (d_Schema desc) D ∧ lookupModel d tenant (d_Ref desc) = Some e ∧ encodes (d_Schema e) S ∧ le D S.
(** An accepted document the stored model admits. *)
Definition valid (d : Models) (tenant : string) (ref : ModelRef) (v : JSON) : Prop :=
  ∃ e S, lookupModel d tenant ref = Some e ∧ encodes (d_Schema e) S ∧ Validate S v = [].
Definition grows (d d' : Models) : Prop := ∀ t r e S, lookupModel d t r = Some e → encodes (d_Schema e) S →
  ∃ e' S', lookupModel d' t r = Some e' ∧ encodes (d_Schema e') S' ∧ le S S'.

Definition entriesOk (d : Models) (x : CachingModelStore) : Prop := ∀ t r e, c_entries x !! (t, r) = Some e →
  d_Ref (ce_desc e) = r ∧ below d t (ce_desc e).

Record cinv (c : Cluster) : Prop := {
  ci_store : okStore (cl_store c);
  ci_cached node : entriesOk (cl_store c) (cacheOf c node);
  ci_fetched node t desc : (node, t, desc) ∈ cl_fetched c → below (cl_store c) t desc;
  ci_held t desc : (t, desc) ∈ cl_held c → below (cl_store c) t desc;
  ci_accepted t r v : (t, r, v) ∈ cl_accepted c → valid (cl_store c) t r v }.

Lemma grows_refl d : grows d d.
Proof. intros t r e S He [Hu HS]. exists e, S. split_and!; [done..|by apply merge_idem]. Qed.
Lemma below_grows d d' t desc : grows d d' → below d t desc → below d' t desc.
Proof.
  intros Hg (D & e & S & HD & He & HS & Hle). destruct (Hg _ _ _ _ He HS) as (e' & S' & He' & HS' & Hle').
  exists D, e', S'. split_and!; [done..|]. eapply (le_trans D S S'); [apply HD|apply HS|apply HS'|done|done].
Qed.
Lemma valid_grows d d' t r v : grows d d' → valid d t r v → valid d' t r v.
Proof.
  intros Hg (e & S & He & HS & Hv). destruct (Hg _ _ _ _ He HS) as (e' & S' & He' & HS' & Hle). exists e', S'.
  split_and!; [done..|]. rewrite validate_spec in *. eapply admits_mono; [apply HS|apply HS'|done|done].
Qed.
Lemma entries_grows d d' x : grows d d' → entriesOk d x → entriesOk d' x.
Proof. intros Hg Hx t r e He. destruct (Hx t r e He) as [Hr Hb]. split; [done|]. by eapply below_grows. Qed.
Lemma stored_below d t r e : okStore d → lookupModel d t r = Some e → d_Ref e = r ∧ below d t e.
Proof.
  intros Hd He. destruct (Hd t r e He) as (Hr & S & HS). split; [done|]. exists S, e, S. rewrite Hr.
  split_and!; [done..|]. apply merge_idem, HS.
Qed.
Lemma entries_delete d x x' key : entriesOk d x → c_entries x' = delete key (c_entries x) → entriesOk d x'.
Proof. intros Hx Heq t r e. rewrite Heq, lookup_delete_Some. intros [_ He]. by apply (Hx t r e). Qed.

Lemma cacheOf_with node x c node' : cacheOf (withCache node x c) node' = if decide (node' = node) then x else cacheOf c node'.
Proof.
  unfold cacheOf, withCache. simpl. case_decide; [subst; by rewrite lookup_insert_eq|by rewrite lookup_insert_ne].
Qed.

(** Changing the store by growth and one node's cache within it. *)
Lemma cinv_update c node x d' : cinv c → okStore d' → grows (cl_store c) d' → entriesOk d' x →
  cinv (withCache node x (withStore d' c)).
Proof.
  intros [H1 H2 H3 H4 H5] Hok Hg Hx. split; simpl; [done|..].
  - intros node'. rewrite cacheOf_with. case_decide; [done|]. eapply entries_grows; [exact Hg|apply H2].
  - intros ? ? ? ?. eapply below_grows; [done|by eapply H3].
  - intros ? ? ?. eapply below_grows; [done|by eapply H4].
  - intros ? ? ? ?. eapply valid_grows; [done|by eapply H5].
Qed.
Lemma cinv_cache c node x : cinv c → entriesOk (cl_store c) x → cinv (withCache node x c).
Proof.
  intros Hc Hx. replace (withCache node x c) with (withCache node x (withStore (cl_store c) c)) by by destruct c.
  apply cinv_update; [done|apply Hc|apply grows_refl|done].
Qed.
Lemma cinv_hold c tenant desc : cinv c → below (cl_store c) tenant desc → cinv (hold tenant desc c).
Proof.
  intros [H1 H2 H3 H4 H5] Hb. split; simpl; [done..| |done]. by intros t d [[= -> ->]|?]%elem_of_cons; [|apply H4].
Qed.
Lemma cinv_accept c tenant ref v : cinv c → valid (cl_store c) tenant ref v → cinv (accept tenant ref v c).
Proof.
  intros [H1 H2 H3 H4 H5] Hb. split; simpl; [done..|]. by intros t r w [[= -> -> ->]|?]%elem_of_cons; [|apply H5].
Qed.

(** *** Payloads *)

Lemma payload_run b tenant desc v d x : ∃ x', (x' = x ∨ x' = invalidate b (tenant, d_Ref desc) x) ∧
  ValidateOrExtend Fields (Extend_ b tenant) desc v (d, x) =
  ((ValidateOrExtend Fields (ExtendSchema (Some makeSchemaApply) tenant) desc v d).1,
   ((ValidateOrExtend Fields (ExtendSchema (Some makeSchemaApply) tenant) desc v d).2, x')).
Proof.
  unfold ValidateOrExtend. destruct (Unmarshal _) as [y|D]; [exists x; by split; [left|]|].
  case_decide; [exists x; split; [by left|by destruct (Validate D v)]|].
  destruct (Extend D v _) as [X| |]; [|exists x; by split; [left|]..].
  destruct (if decide _ then _ else _); [exists x; by split; [left|]|].
  destruct (Diff _ _) as [|[|op delta]]; [exists x; by split; [left|]..|].
  unfold Extend_, mutate. rewrite run_bind. unfold inner_. destruct (ExtendSchema _ _ _ _ d) as [[[]| |] d']; simpl;
    [eexists; split; [by right|done]|exists x; by split; [left|]..].
Qed.

Lemma setSchema_grows d tenant ref e S sch S' : lookupModel d tenant ref = Some e → encodes (d_Schema e) S →
  encodes sch S' → le S S' → grows d (setModel tenant ref (desc_set_Schema sch e) d).
Proof.
  intros He HS HS' Hle t r e0 S0 He0 HS0. rewrite lookup_setModel. case_decide as Hk; [|exact (grows_refl d _ _ _ _ He0 HS0)].
  injection Hk as -> ->. assert (e0 = e) as -> by congruence. assert (S0 = S) as -> by (destruct HS, HS0; congruence).
  eexists _, S'. split_and!; [done|done|done].
Qed.
Lemma setSchema_ok d tenant ref e sch S' : okStore d → lookupModel d tenant ref = Some e → encodes sch S' →
  okStore (setModel tenant ref (desc_set_Schema sch e) d).
Proof.
  intros Hd He HS' t r x. rewrite lookup_setModel. case_decide as Hk; [|by apply Hd]. injection Hk as -> ->.
  intros [= <-]. destruct (Hd _ _ _ He) as [Hr _]. split; [done|]. by exists S'.
Qed.

(** A payload against any known descriptor: accepted documents are valid in the
    store it leaves, a refusal changes nothing and is never an internal error. *)
Lemma payload_inv b c node tenant desc v : cinv c → below (cl_store c) tenant desc → decoded v →
  match payload b c node tenant desc v with
  | (Ret _, (d', x)) => cinv (withCache node x (withStore d' c)) ∧ valid d' tenant (d_Ref desc) v
  | (Err e, (d', x)) => cinv (withCache node x (withStore d' c)) ∧ e ≠ ErrInternalSchema
  | (Panic _, _) => False
  end.
Proof.
  intros Hc (D & e & S & HD & He & HS & Hle) Hv. unfold payload.
  destruct (payload_run b tenant desc v (cl_store c) (cacheOf c node)) as (x & Hx & ->).
  pose proof (ValidateOrExtend_spec Fields tenant desc D v (cl_store c) e S HD He HS Hle Hv) as Hspec.
  assert (Hent : entriesOk (cl_store c) x).
  { destruct Hx as [->| ->]; [apply Hc|]. eapply entries_delete; [apply Hc|apply invalidate_entries]. }
  destruct (ValidateOrExtend _ _ _ _ _) as [[[]|err|w] d']; simpl; [| |done].
  - destruct Hspec as (sch & S' & -> & HS' & Hle' & Hval & _).
    assert (Hg : grows (cl_store c) (setModel tenant (d_Ref desc) (desc_set_Schema sch e) (cl_store c))) by by eapply setSchema_grows.
    split; [apply cinv_update; [done|eapply setSchema_ok; [apply Hc|done..]|done|by eapply entries_grows]|].
    exists (desc_set_Schema sch e), S'. by rewrite lookup_setModel, decide_True by done.
  - destruct Hspec as [-> Hne]. split; [|done]. apply cinv_update; [done|apply Hc|apply grows_refl|done].
Qed.

Lemma strict_valid d tenant desc v : below d tenant desc → ValidateStrict desc v = None → valid d tenant (d_Ref desc) v.
Proof.
  intros (D & e & S & HD & He & HS & Hle). unfold ValidateStrict. rewrite (proj1 HD).
  destruct (Validate D v) eqn:Hv; [|done]. intros _. exists e, S. split_and!; [done..|].
  rewrite validate_spec in *. eapply admits_mono; [apply HD|apply HS|done|done].
Qed.

(** *** Administration *)

Lemma adminSpec_grows count ref c e o : okSchema ref e → c ≠ ADelete →
  adminSpec Fields ParseJSON ParseXML ValidateChangeLevel count ref c (Some e) = inr o →
  ∃ e', o = Some e' ∧ okSchema ref e' ∧ ∀ S, encodes (d_Schema e) S → ∃ S', encodes (d_Schema e') S' ∧ le S S'.
Proof.
  intros He Hc Hs.
  assert (Hsame : ∀ e', o = Some e' → d_Ref e' = d_Ref e → d_Schema e' = d_Schema e →
    ∃ e', o = Some e' ∧ okSchema ref e' ∧ ∀ S, encodes (d_Schema e) S → ∃ S', encodes (d_Schema e') S' ∧ le S S').
  { intros e' -> Hr Hsch. exists e'. destruct He as (Her & S & HS). unfold okSchema. rewrite Hr, Hsch.
    split_and!; [done|done|by exists S|]. intros S0 HS0. exists S0. split; [done|]. apply merge_idem, HS0. }
  destruct c as [conv data fmt| | | |level|[] keys]; simpl in Hs; try done.
  - do 2 (case_decide; [done|]). destruct (importSpec _ _ _ _ _ _ _) as [|e'] eqn:Hi; [done|]. injection Hs as <-.
    destruct (importSpec_ok Fields ParseJSON ParseXML json_decoded xml_decoded ref data fmt (Some e) e')
      as (Hok & _ & n & S' & _ & HS' & _ & _ & Hold); [by intros ? [= <-]|done|].
    exists e'. split_and!; [done|by eapply okDesc_schema|]. intros S HS. exists S'. split; [done|]. by apply (Hold e).
  - case_decide; [done|]. injection Hs as <-. by eapply Hsame.
  - case_decide; [|done]. destruct count as [|[]]; [done| |done]. injection Hs as <-. by eapply Hsame.
  - destruct (ValidateChangeLevel level); [|done]. injection Hs as <-. by eapply Hsame.
  - case_decide; [done|]. destruct (Unmarshal _); [done|]. destruct (ValidateUniqueKeys _ _ _); [done|].
    injection Hs as <-. by eapply Hsame.
Qed.

Lemma specOne_grows r d : okStore d → ar_call r ≠ ADelete →
  okStore (specOne Fields ParseJSON ParseXML ValidateChangeLevel r d).2 ∧
  grows d (specOne Fields ParseJSON ParseXML ValidateChangeLevel r d).2.
Proof.
  intros Hd Hc. set (d' := (specOne _ _ _ _ r d).2).
  pose proof (specOne_entry Fields ParseJSON ParseXML ValidateChangeLevel r d) as Hent. fold d' in Hent. split.
  - intros t m e' He'. destruct (Hent t m) as [Heq|[Hk Hs]]; [rewrite Heq in He'; by apply (Hd t m)|].
    injection Hk as -> ->. rewrite He' in Hs. destruct (lookupModel d _ _) as [e|] eqn:He.
    { destruct (adminSpec_grows _ _ _ _ _ (Hd _ _ _ He) Hc Hs) as (x & [= <-] & Hok & _). done. }
    destruct (ar_call r) as [conv data fmt| | | |level|[] keys]; simpl in Hs; try done.
    case_decide; [done|]. destruct (importSpec _ _ _ _ _ _ _) as [|x] eqn:Hi; [done|]. injection Hs as ->.
    eapply okDesc_schema, importSpec_ok; [exact json_decoded|exact xml_decoded| |exact Hi]. done.
  - intros t m e S He HS. destruct (Hent t m) as [Heq|[Hk Hs]]; [rewrite Heq; exact (grows_refl d _ _ _ _ He HS)|].
    injection Hk as -> ->. rewrite He in Hs. destruct (adminSpec_grows _ _ _ _ _ (Hd _ _ _ He) Hc Hs) as (e' & Ho & _ & Hgr).
    destruct (Hgr S HS) as (S' & HS' & Hle). exists e', S'. by rewrite Ho.
Qed.

(** What a handler leaves in the cache: entries it found there or descriptors as
    they were stored when it started, since every read precedes the mutation. *)
Section Entries.
Context (P : cacheKey → ModelDescriptor → Prop).
Definition entriesP (x : CachingModelStore) : Prop := ∀ key e, c_entries x !! key = Some e → P key (ce_desc e).
Definition storedP (d : Models) : Prop := ∀ t r e, lookupModel d t r = Some e → P (t, r) e.
Definition readsP {E A} (m : M E CS A) : Prop := ∀ s,
  (m s).2.1 = s.1 ∧ (entriesP s.2 → storedP s.1 → entriesP (m s).2.2).
Definition endsP {E A} (m : M E CS A) : Prop := ∀ s, entriesP s.2 → storedP s.1 → entriesP (m s).2.2.

Lemma reads_same {E A} (m : M E CS A) : (∀ s, (m s).2 = s) → readsP m.
Proof. intros Hm s. by rewrite Hm. Qed.
Lemma reads_bind {E A B} (m : M E CS A) (f : A → M E CS B) : readsP m → (∀ a, readsP (f a)) → readsP (m ≫= f).
Proof.
  intros Hm Hf s. destruct (Hm s) as [H1 H2]. rewrite run_bind. destruct (m s) as [[a|e|w] s']; simpl in *; [|done..].
  destruct (Hf a s') as [H3 H4]. split; [congruence|]. intros He Hs. apply H4; [auto|by rewrite H1].
Qed.
Lemma ends_bindP {E A B} (m : M E CS A) (f : A → M E CS B) : readsP m → (∀ a, endsP (f a)) → endsP (m ≫= f).
Proof.
  intros Hm Hf s He Hs. destruct (Hm s) as [H1 H2]. rewrite run_bind. destruct (m s) as [[a|e|w] s']; simpl in *; [|auto..].
  apply Hf; [auto|by rewrite H1].
Qed.
Lemma reads_orElse {A} (m : CM A) f : readsP m → readsP (orElse m f).
Proof. intros Hm s. specialize (Hm s). unfold orElse. by destruct (m s) as [[]]. Qed.
Lemma reads_try {E A} (m : M E CS A) : readsP m → readsP (try m).
Proof. intros Hm s. specialize (Hm s). unfold try. by destruct (m s) as [[]]. Qed.
Lemma ends_orElse {A} (m : CM A) f : endsP m → endsP (orElse m f).
Proof. intros Hm s He Hs. specialize (Hm s He Hs). unfold orElse. by destruct (m s) as [[]]. Qed.
Lemma reads_ends {E A} (m : M E CS A) : readsP m → endsP m.
Proof. intros Hm s. apply Hm. Qed.
Lemma ends_mutate b tenant ref m : endsP (mutate b tenant ref m).
Proof.
  intros [d x] He _. unfold mutate. rewrite run_bind. unfold inner_. destruct (m d) as [[[]|e|w] d']; [|done..].
  intros key en. simpl. rewrite invalidate_entries, lookup_delete_Some. intros [_ Hk]. by apply (He key).
Qed.
Lemma reads_fresh now lease tenant ref : readsP (getModelFresh now lease tenant ref).
Proof.
  intros [d x]. unfold getModelFresh, RefreshAndGet, onCache. mrun. rewrite run_bind. unfold inner_. simpl. rewrite modelGet_run.
  assert (Hev : entriesP x → entriesP (evict (tenant, ref) x)).
  { intros He key en. simpl. rewrite lookup_delete_Some. intros [_ Hk]. by apply (He key). }
  destruct (lookupModel d tenant ref) as [e|] eqn:Hl; [|by split; [|auto]]. case_decide; [|by split; [|auto]].
  split; [done|]. intros He Hs key en. simpl. rewrite lookup_insert_Some.
  intros [[<- <-]|[_ Hk]]; [by apply Hs|by apply (Hev He key)].
Qed.

Local Ltac ends_step :=
  first
    [ apply ends_mutate
    | apply ends_bindP; [|intros ?]
    | apply ends_orElse
    | apply reads_fresh | apply reads_orElse | apply reads_try | apply reads_bind; [|intros ?]
    | (apply reads_same; intros ?; reflexivity)
    | match goal with
      | |- endsP (match ?x with _ => _ end) => destruct x
      | |- endsP (if ?x then _ else _) => destruct x
      | |- readsP (match ?x with _ => _ end) => destruct x
      | |- readsP (if ?x then _ else _) => destruct x
      end
    | (apply reads_ends, reads_same; intros ?; reflexivity) ].

Lemma ends_admin now lease b tenant Count ref c :
  endsP (admin Fields ParseJSON ParseXML ValidateChangeLevel now lease b tenant Count ref c).
Proof.
  destruct c; simpl; unfold ImportModel, importOver, LockModel, UnlockModel, DeleteModel, SetChangeLevel_, SetUniqueKeys, noEntities,
    finalNode, schemaOf; repeat ends_step.
Qed.
End Entries.

Lemma admin_inv b c node r a d' x : cinv c → ar_call r ≠ ADelete →
  serveOne Fields ParseJSON ParseXML ValidateChangeLevel b r (cl_store c, cacheOf c node) = (a, (d', x)) →
  cinv (withCache node x (withStore d' c)).
Proof.
  intros Hc Hdel Hs. assert (Hr : refsOk (cl_store c)) by (intros t m e He; by apply (ci_store c Hc t m e)).
  destruct (serveOne_spec Fields ParseJSON ParseXML ValidateChangeLevel b r (cl_store c) (cacheOf c node) Hr) as [x' Hx].
  destruct (specOne_grows r (cl_store c) (ci_store c Hc) Hdel) as [Hok Hg].
  set (P := λ key desc, d_Ref desc = key.2 ∧ below d' key.1 desc).
  pose proof (ends_admin P (ar_now r) (ar_lease r) b (ar_tenant r) (λ _, ar_count r) (ar_ref r) (ar_call r) (cl_store c, cacheOf c node)) as He.
  unfold serveOne in Hs, Hx. rewrite Hs in Hx, He. simpl in He. injection Hx as -> -> ->.
  apply cinv_update; [done..|]. intros t m e Hent. apply (He) in Hent; [done|..].
  - intros [t' m'] e' He'. destruct (ci_cached c Hc node _ _ _ He') as [Hd Hb]. split; [done|]. by eapply below_grows.
  - intros t' m' e' He'. destruct (stored_below _ _ _ _ (ci_store c Hc) He') as [Hd Hb]. split; [done|]. by eapply below_grows.
Qed.

(** *** Every step *)

Lemma cstep_inv b c c' : cinv c → cstep b c c' → cinv c'.
Proof.
  intros Hc Hstep. destruct Hstep as [c node tenant ref desc Hg|c node tenant desc now lease Hf|c node tenant ref now desc Hl
    |c node key|c node raw|c node tenant desc v d' x Hh Hv Hp|c node tenant desc v e d' x Hh Hv Hp|c tenant desc v Hh Hs
    |c node r a d' x Hdel Hs].
  - destruct Hc as [H1 H2 H3 H4 H5]. split; simpl; [done..| |done|done]. intros n t d0 [[= -> -> ->]|?]%elem_of_cons; [|by eapply H3].
    apply modelGet_Ret in Hg as [He _]. by apply (stored_below _ _ _ _ H1 He).
  - pose proof (ci_fetched c Hc _ _ _ Hf) as Hb. case_decide; [|by apply cinv_hold]. apply cinv_hold; [|done].
    apply cinv_cache; [done|]. intros t r e. simpl. rewrite lookup_insert_Some. intros [[[= <- <-] <-]|[_ He]]; [done|].
    by apply (ci_cached c Hc node).
  - apply cinv_hold; [done|]. unfold lookup_ in Hl. destruct (c_entries _ !! _) as [e|] eqn:He; [|done].
    destruct (After _ _); [done|]. injection Hl as <-. by apply (ci_cached c Hc node _ _ _ He).
  - apply cinv_cache; [done|]. by eapply entries_delete; [apply Hc|].
  - apply cinv_cache; [done|]. unfold handleInvalidation. destruct (DecodeInvalidation raw); [|apply Hc].
    by eapply entries_delete; [apply Hc|].
  - pose proof (payload_inv b c node tenant desc v Hc (ci_held c Hc _ _ Hh) Hv) as Hpi. rewrite Hp in Hpi.
    destruct Hpi as [Hi Hval]. by apply cinv_accept.
  - pose proof (payload_inv b c node tenant desc v Hc (ci_held c Hc _ _ Hh) Hv) as Hpi. rewrite Hp in Hpi. by apply Hpi.
  - apply cinv_accept; [done|]. by apply strict_valid; [apply Hc|].
  - by eapply admin_inv.
Qed.

Lemma reachable_inv b d c : okStore d → rtc (cstep b) (mkCluster d ∅ [] [] []) c → cinv c.
Proof.
  intros Hd Hr. assert (H0 : cinv (mkCluster d ∅ [] [] [])).
  { split; simpl; [done| |set_solver..]. intros node t r e. unfold cacheOf. simpl. rewrite lookup_empty. simpl. by rewrite lookup_empty. }
  induction Hr as [|x y z Hstep _ IH]; [done|]. apply IH. by eapply cstep_inv.
Qed.


(** *** Reads that validate *)

Lemma get_known now lease tenant ref d x e : lookupModel d tenant ref = Some e → ∃ desc x',
  Get now lease tenant ref (d, x) = (Ret desc, (d, x')) ∧ (desc = e ∨ lookup_ now (tenant, ref) x = Some desc).
Proof.
  intros He. unfold Get. mrun. simpl. destruct (lookup_ now (tenant, ref) x) as [desc|] eqn:Hl; [exists desc, x; auto|].
  rewrite run_bind. unfold inner_. simpl. rewrite modelGet_run, He. case_decide; mrun; eexists _, _; split; [done|by left|done|by left].
Qed.
Lemma refresh_known now lease tenant ref d x e : lookupModel d tenant ref = Some e →
  ∃ x', RefreshAndGet now lease tenant ref (d, x) = (Ret e, (d, x')).
Proof. intros He. destruct (fresh_run now lease tenant ref d x) as [x' Hf]. exists x'. unfold getModelFresh in Hf. by rewrite Hf, He. Qed.

Lemma errors_external errs : ValidationErrorsToError errs ≠ ErrInternalSchema.
Proof. unfold ValidationErrorsToError. by destruct (FirstIncompatibleType errs). Qed.

(** Strict validation with one refresh is safe on any node of any reachable
    cluster: what it accepts the stored model admits; it never reports an internal
    error for a registered model; and it refuses a document the stored model admits
    only when the stale copy it held raised no unknown-element error.  A registered
    model is never reported missing. *)
Theorem refresh_decides b d c node now lease tenant ref v e S : okStore d → rtc (cstep b) (mkCluster d ∅ [] [] []) c →
  lookupModel (cl_store c) tenant ref = Some e → encodes (d_Schema e) S →
  match ValidateWithRefresh now lease tenant ref v (cl_store c, cacheOf c node) with
  | (Ret _, _) => Validate S v = []
  | (Err x, _) => x ≠ ErrInternalSchema ∧ (Validate S v ≠ [] ∨ ∃ desc,
      lookup_ now (tenant, ref) (cacheOf c node) = Some desc ∧
      ValidateDescriptor (Some desc) v ≠ [] ∧ HasUnknownSchemaElement (ValidateDescriptor (Some desc) v) = false)
  | (Panic _, _) => False
  end ∧ (EnsureModelRegistered now lease tenant ref (cl_store c, cacheOf c node)).1 = Ret tt.
Proof.
  intros Hd Hr He HS. pose proof (reachable_inv _ _ _ Hd Hr) as Hc.
  destruct (get_known now lease tenant ref (cl_store c) (cacheOf c node) e He) as (desc & x' & Hg & Hdesc).
  split; [|unfold EnsureModelRegistered; by rewrite Hg]. unfold ValidateWithRefresh. rewrite Hg.
  assert (Hstored : ValidateDescriptor (Some e) v = Validate S v) by (unfold ValidateDescriptor; by rewrite (proj1 HS)).
  assert (Hknown : ValidateDescriptor (Some desc) v = [] → Validate S v = []).
  { destruct Hdesc as [->|Hl]; [by rewrite Hstored|]. unfold lookup_ in Hl.
    destruct (c_entries _ !! _) as [en|] eqn:Hen; [|done]. destruct (After _ _); [done|]. injection Hl as <-.
    destruct (ci_cached c Hc node _ _ _ Hen) as [Href (D & e0 & S0 & HD & He0 & HS0 & Hle)]. rewrite Href, He in He0.
    injection He0 as <-. assert (S0 = S) as -> by (destruct HS, HS0; congruence). unfold ValidateDescriptor. rewrite (proj1 HD).
    rewrite !validate_spec. apply admits_mono; [apply HD|apply HS|done]. }
  destruct (ValidateDescriptor (Some desc) v) as [|er errs] eqn:Hv; [by apply Hknown|].
  destruct (HasUnknownSchemaElement (er :: errs)) eqn:Hu; cbn [negb].
  - destruct (refresh_known now lease tenant ref (cl_store c) x' e He) as [x'' ->]. rewrite Hstored.
    destruct (Validate S v) as [|er' errs'] eqn:HvS; [done|]. split; [apply errors_external|by left].
  - split; [apply errors_external|]. destruct Hdesc as [->|Hl]; [left; by rewrite <- Hstored, Hv|].
    right. exists desc. by rewrite Hv.
Qed.
End Cluster.
