(* ===== verification/ModelSample.v ===== *)
(** * The model-lifecycle theorems at concrete models

    A flattening, parsers and a payload codec for the sample schema library of
    [SchemaSample], and the theorems applied to runs of the handlers and of a
    cluster with them. *)

From stdpp Require Import base gmap strings list.
From S2P Require Import Prelude Spi MemStores Schema SchemaLattice SchemaDelta SchemaAdmit SchemaExtend SchemaSample Ingest ModelCache ModelService ModelInvariant ModelCluster.
Import ModelStore SchemaSample.

#[export] Instance codec : PayloadCodec := {|
  marshalPayload p := Some (p_TenantID p +:+ "|" +:+ p_EntityName p +:+ "|" +:+ p_ModelVersion p);
  unmarshalPayload s := if decide (s = "acme|order|1") then Some (mkPayload "acme" "order" "1") else None |}.

(** The scalar leaves at the root of a model. *)
Definition rootFields (n : ModelNode) : list FieldDescriptor :=
  match n_object n with
  | None => []
  | Some ch => (λ p, mkField ("$." +:+ p.1) (hasKind p.2 KindArray)) <$> filter (λ p, hasKind p.2 KindLeaf = true) (map_to_list ch)
  end.
Definition parse (s : string) : option JSON :=
  if decide (s = "doc") then Some sampleDoc else
  if decide (s = "object key") then Some (JObject [("a", JObject [("x", JBool true)])]) else
  if decide (s = "text") then Some (JObject [("a", JString "x")]) else None.
Definition parseXML (s : string) : option JSON := None.
Definition level (s : string) : option string := match parseLevel s with LevelNone => None | _ => Some s end.
Definition decodeBody (format body : string) : option JSON := parse body.

Lemma parse_decoded data v : parse data = Some v → decoded v.
Proof.
  unfold parse. repeat case_decide; [intros [= <-]; apply decoded_doc|..|done]; intros [= <-].
  all: apply decoded_object; [apply (bool_decide_unpack _); by vm_compute|].
  all: intros i x Hx; rewrite elem_of_cons, elem_of_nil in Hx; destruct Hx as [[= -> ->]|[]].
  - apply decoded_object; [apply (bool_decide_unpack _); by vm_compute|].
    intros j y Hy. rewrite elem_of_cons, elem_of_nil in Hy. by destruct Hy as [[= -> ->]|[]]; constructor.
  - by constructor.
Qed.
Lemma xml_decoded data v : parseXML data = Some v → decoded v.
Proof. done. Qed.

Definition order : ModelRef := mkModelRef "order" "1".
Definition noCache : CachingModelStore := mkCache ∅ [] [].
Lemma coherent_empty d : coherent (d, noCache).
Proof. intros t r e. simpl. by rewrite lookup_empty. Qed.
Lemma lookup_none t r : lookupModel ∅ t r = None.
Proof. unfold lookupModel. rewrite lookup_empty. simpl. by rewrite lookup_empty. Qed.

(** A script: register, lock, extend nothing, read twice across an expiry. *)
Definition cacheScript : list Request :=
  [mkRequest 0 10 "acme" (CSave (mkDesc order ModelUnlocked "" "" [])); mkRequest 1 10 "acme" (CLock order);
   mkRequest 2 10 "acme" (CGet order); mkRequest 3 10 "acme" (CGet order); mkRequest 30 10 "acme" (CSetLevel order "TYPE");
   mkRequest 31 10 "acme" (CGet order); mkRequest 32 10 "other" (CGet order); mkRequest 33 10 "acme" (CSchemaNode order)].
Lemma cache_invisible_witness :
  (serveCached true cacheScript (∅, noCache)).1 !! 5 = Some (Ret (ADesc (mkDesc order ModelLocked "TYPE" "" []))) ∧
  serveDirect cacheScript ∅ = ((serveCached true cacheScript (∅, noCache)).1, (serveCached true cacheScript (∅, noCache)).2.1).
Proof. split; [by vm_compute|]. exact (proj1 (cache_invisible true cacheScript (∅, noCache) (coherent_empty ∅))). Defined.

Definition adminReq (count : nat) (c : AdminCall) : AdminRequest := mkAdmin 0 10 "acme" (inr count) order c.
Definition keyA : UniqueKey := mkUniqueKey "k" ["$.a"].
Definition registered : list AdminRequest :=
  [adminReq 0 (AImport "SAMPLE_DATA" "doc" "JSON"); adminReq 0 (ASetKeys true [keyA]); adminReq 0 (ASetLevel "STRUCTURAL");
   adminReq 0 ALock].
Definition serve (l : list AdminRequest) (s : CS) : list (outcome AppError unit) * CS :=
  serveAdmin rootFields parse parseXML level true l s.
Lemma refsOk_empty : refsOk ∅.
Proof. intros t r e. by rewrite lookup_none. Qed.

(** An import that would make the keyed path polymorphic is refused. *)
Definition adminScript : list AdminRequest :=
  registered ++ [adminReq 0 ALock; adminReq 3 AUnlock; adminReq 0 AUnlock;
                 adminReq 0 (AImport "SAMPLE_DATA" "object key" "JSON"); adminReq 0 ADelete].
Lemma admin_refines_witness :
  (specAdmin rootFields parse parseXML level adminScript ∅).1 =
    [Ret tt; Ret tt; Ret tt; Ret tt; Err ModelAlreadyLocked; Err (ModelHasEntities 3); Ret tt;
     Err (InvalidUniqueKeyDefinition (NotAScalarLeaf "k" "$.a")); Ret tt] ∧
  (serve adminScript (∅, noCache)).1 = (specAdmin rootFields parse parseXML level adminScript ∅).1.
Proof.
  split; [by vm_compute|]. exact (proj1 (admin_refines rootFields parse parseXML level true adminScript ∅ noCache refsOk_empty)).
Defined.

(** A store with one locked, keyed model. *)
Definition bytesOf (n : ModelNode) : string := match Bits.Marshal n with inr b => b | inl _ => "" end.
Lemma bytesOf_encodes n : wf n → encodes (bytesOf n) n.
Proof. intros Hn. split; [|done]. unfold bytesOf. by destruct (Bits.roundtrip n) as (b & -> & Hu). Qed.
Definition baseBytes : string := bytesOf sampleBase.
Definition baseDesc : ModelDescriptor := mkDesc order ModelLocked "STRUCTURAL" baseBytes [keyA].
Definition baseStore : Models := setModel "acme" order baseDesc ∅.
Lemma base_stored t r e : lookupModel baseStore t r = Some e → (t, r) = ("acme", order) ∧ e = baseDesc.
Proof. unfold baseStore. rewrite lookup_setModel. case_decide; [by intros [= <-]|by rewrite lookup_none]. Qed.
Lemma base_encodes : encodes baseBytes sampleBase.
Proof. exact (bytesOf_encodes sampleBase wf_base). Qed.
Lemma base_ok : okModels rootFields baseStore.
Proof.
  intros t r e [[= -> ->] ->]%base_stored. split; [done|]. exists sampleBase. split; [exact base_encodes|].
  apply ValidateUniqueKeys_spec. by_eval.
Qed.
Lemma base_okStore : okStore baseStore.
Proof. intros t r e [[= -> ->] ->]%base_stored. split; [done|]. exists sampleBase. exact base_encodes. Qed.

Definition frozenScript : list AdminRequest :=
  [adminReq 2 (AImport "SAMPLE_DATA" "doc" "JSON"); adminReq 2 AUnlock; adminReq 2 ADelete; adminReq 2 (ASetLevel "TYPE")].
Lemma locked_with_entities_frozen_witness :
  (serve frozenScript (baseStore, noCache)).1 = [Err ModelAlreadyLocked; Err (ModelHasEntities 2); Err ModelAlreadyLocked; Ret tt] ∧
  ∃ e', lookupModel (serve frozenScript (baseStore, noCache)).2.1 "acme" order = Some e' ∧ sameButLevel baseDesc e'.
Proof.
  split; [by vm_compute|].
  assert (Hd : refsOk baseStore) by (intros t r e [[= -> ->] ->]%base_stored; done).
  assert (He : lookupModel baseStore "acme" order = Some baseDesc) by (unfold baseStore; by rewrite lookup_setModel, decide_True).
  assert (Hl : Forall (λ r, (ar_tenant r, ar_ref r) = ("acme", order) → ∃ n, ar_count r = inr (S n)) frozenScript)
    by (repeat (constructor; [intros _; by exists 1|]); constructor).
  exact (locked_with_entities_frozen rootFields parse parseXML level true frozenScript baseStore noCache "acme" order baseDesc Hd He eq_refl Hl).
Defined.

Lemma import_admits_samples_witness : ∃ e' S' parsed,
  lookupModel (ImportModel rootFields parse parseXML 0 10 true "acme" order "SAMPLE_DATA" "doc" "JSON" (∅, noCache)).2.1 "acme" order = Some e' ∧
  d_State e' = ModelUnlocked ∧ encodes (d_Schema e') S' ∧ parsedAs parse parseXML "doc" "JSON" parsed ∧
  ∀ x, x ∈ samples parsed → Validate S' x = [].
Proof.
  assert (Hr : match (ImportModel rootFields parse parseXML 0 10 true "acme" order "SAMPLE_DATA" "doc" "JSON" (∅, noCache)).1 with
    Ret _ => True | _ => False end) by (vm_compute; exact I).
  destruct (ImportModel rootFields parse parseXML 0 10 true "acme" order "SAMPLE_DATA" "doc" "JSON" (∅, noCache))
    as [[u|e|w] [d' cache']] eqn:Hi; [destruct u|destruct Hr..].
  assert (Hok : okModels rootFields ∅) by (intros t r e; by rewrite lookup_none).
  destruct (import_admits_samples rootFields parse parseXML level parse_decoded xml_decoded 0 10 true "acme" order
    "SAMPLE_DATA" "doc" "JSON" ∅ noCache d' cache' Hok Hi) as (e' & S' & parsed & H1 & H2 & H3 & H4 & H5 & _).
  exists e', S', parsed. split; [exact H1|]. split; [exact H2|]. split; [exact H3|]. split; [exact H4|exact H5].
Defined.

(** A payload that adds fields, and one that would put an object under the keyed
    path. *)
Definition nodeScript : list NodeEvent :=
  [EPayload 0 10 "acme" order "JSON" "doc"; EPayload 1 10 "acme" order "JSON" "object key"; EPayload 2 10 "acme" order "JSON" "text";
   EAdmin (adminReq 2 AUnlock)].
Definition nodeRun (l : list NodeEvent) : CS :=
  foldl (flip (nodeStep rootFields parse parseXML level decodeBody (λ _, true) true)) (baseStore, noCache) l.
Lemma unique_keys_stay_valid_witness :
  (admitPayload rootFields decodeBody (λ _, true) 1 10 true "acme" order "JSON" "object key" (nodeRun (take 1 nodeScript))).1
    = Err (DoorSchema (InvalidUniqueKey (NotAScalarLeaf "k" "$.a"))) ∧
  okModels rootFields (nodeRun nodeScript).1.
Proof.
  split; [by vm_compute|].
  refine (proj2 (unique_keys_stay_valid rootFields parse parseXML level parse_decoded xml_decoded decodeBody (λ _, true) _ true
    nodeScript (baseStore, noCache) (coherent_empty baseStore) base_ok)).
  intros f body v. apply parse_decoded.
Defined.

(** Two requests holding the same descriptor: one extends the model, the other's
    payload arrives, at another node, when its copy is stale. *)
Definition afterPayload (c : Cluster) (node : string) (v : JSON) : Cluster :=
  let '(_, (d', x)) := payload rootFields true c node "acme" baseDesc v in
  accept "acme" order v (withCache node x (withStore d' c)).
Lemma accepted_step c node v : ("acme", baseDesc) ∈ cl_held c → decoded v →
  (payload rootFields true c node "acme" baseDesc v).1 = Ret tt →
  cstep rootFields parse parseXML level true c (afterPayload c node v).
Proof.
  intros Hh Hv Hr. unfold afterPayload. destruct (payload _ _ _ _ _ _ _) as [r [d' x]] eqn:Hp. simpl in Hr. subst r.
  exact (c_accepted rootFields parse parseXML level true c node "acme" baseDesc v d' x Hh Hv Hp).
Qed.
Definition textDoc : JSON := JObject [("a", JString "x")].
Definition c1 : Cluster := mkCluster baseStore ∅ [("n1", "acme", baseDesc)] [] [].
Definition c2 : Cluster := hold "acme" baseDesc (withCache "n1" (store_ 0 10 ("acme", order) baseDesc noCache) c1).
Definition c3 : Cluster := afterPayload c2 "n1" sampleDoc.
Definition c4 : Cluster := afterPayload c3 "n2" textDoc.

Lemma held_c3 : ("acme", baseDesc) ∈ cl_held c3.
Proof. unfold c3, afterPayload. destruct (payload _ _ _ _ _ _ _) as [r [d' x]]. by left. Qed.
Lemma accepted_c4 v : v = sampleDoc ∨ v = textDoc → ("acme", order, v) ∈ cl_accepted c4.
Proof.
  unfold c4, c3, afterPayload. destruct (payload _ _ c2 _ _ _ _) as [r [d' x]].
  destruct (payload _ _ _ _ _ _ _) as [r' [d'' x']]. simpl. intros [->| ->]; set_solver.
Qed.
Lemma run_c4 : rtc (cstep rootFields parse parseXML level true) (mkCluster baseStore ∅ [] [] []) c4.
Proof.
  eapply (rtc_l _ _ c1).
  { apply (c_read rootFields parse parseXML level true (mkCluster baseStore ∅ [] [] []) "n1" "acme" order baseDesc).
    rewrite modelGet_run. unfold baseStore. simpl. by rewrite lookup_setModel, decide_True. }
  eapply (rtc_l _ _ c2).
  { apply (c_deliver rootFields parse parseXML level true c1 "n1" "acme" baseDesc 0 10). by left. }
  eapply (rtc_l _ _ c3).
  { apply accepted_step; [by left|exact decoded_doc|by_eval]. }
  apply rtc_once, accepted_step; [exact held_c3| |by_eval]. by apply (parse_decoded "text").
Qed.

Lemma refresh_decides_witness :
  (ValidateWithRefresh 5 10 "acme" order sampleDoc (cl_store c4, cacheOf c4 "n1")).1 = Ret tt ∧
  ∃ e S, lookupModel (cl_store c4) "acme" order = Some e ∧ encodes (d_Schema e) S ∧ Validate S sampleDoc = [].
Proof.
  assert (Hr : (ValidateWithRefresh 5 10 "acme" order sampleDoc (cl_store c4, cacheOf c4 "n1")).1 = Ret tt) by by_eval.
  split; [exact Hr|]. destruct (reachable_inv rootFields parse parseXML level parse_decoded xml_decoded true baseStore c4 base_okStore run_c4)
    as [Hok _ _ _ _].
  assert (He : is_Some (lookupModel (cl_store c4) "acme" order)) by (apply (bool_decide_unpack _); vm_compute; exact I).
  destruct He as [e He]. destruct (Hok _ _ _ He) as (_ & S & HS). exists e, S. split; [exact He|]. split; [exact HS|].
  destruct (refresh_decides rootFields parse parseXML level parse_decoded xml_decoded true baseStore c4 "n1" 5 10
    "acme" order sampleDoc e S base_okStore run_c4 He HS) as [Hd _].
  destruct (ValidateWithRefresh 5 10 "acme" order sampleDoc (cl_store c4, cacheOf c4 "n1")) as [r s]. simpl in Hr. subst r. exact Hd.
Defined.

(** ** An import overtaken by a lock *)

Definition textImported : CS := (serve [adminReq 0 (AImport "SAMPLE_DATA" "text" "JSON"); adminReq 0 (ASetLevel "STRUCTURAL")] (∅, noCache)).2.
(** A second import has read the descriptor; then the model is locked and a
    payload extends it. *)
Definition overtaken : CS := (admitPayload rootFields decodeBody (λ _, true) 1 10 true "acme" order "JSON" "doc"
  (serve [adminReq 0 ALock] textImported).2).2.
Definition overwritten : CS :=
  (importOver rootFields parse parseXML true "acme" order (lookupModel textImported.1 "acme" order) "text" "JSON" overtaken).2.

Definition storedState (s : CS) : option ModelState := d_State <$> lookupModel s.1 "acme" order.
Definition storedErrors (s : CS) (v : JSON) : option nat :=
  e ← lookupModel s.1 "acme" order;
  match Unmarshal (d_Schema e) with inr n => Some (length (Validate n v)) | inl _ => None end.

(** An import does not notice a lock that comes between its read and its save: the
    locked model goes back to unlocked, and the extension of an accepted payload is
    lost, so the stored schema no longer admits it. *)
Theorem import_overtaken_by_lock :
  storedState overtaken = Some ModelLocked ∧ storedErrors overtaken sampleDoc = Some 0 ∧
  storedState overwritten = Some ModelUnlocked ∧ storedErrors overwritten sampleDoc = Some 3.
Proof. split; [by vm_compute|]. split; [by vm_compute|]. split; by vm_compute. Qed.
