(* ===== verification/Condition.v ===== *)
(** * Search conditions: what the API boundary accepts

    [internal/domain/search]: the grammar of a wire path
    ([jsonpath_grammar.go]), the structural check of a condition
    ([operators.go]), its field paths against a model's fields
    ([path_validate.go]), its operand types ([condition_type_validate.go]), the
    sort keys ([sortparam.go], [orderresolve.go], [orderclass.go]); with
    [canonical_path.go] of the schema package and the operator table of
    [internal/match].

    The condition types, the parser of filter paths, the expansion and evaluation
    of a leaf and the vocabulary of meta fields belong to the storage contract's
    module; they are operations of the class [Kernel]. *)

From Stdlib Require Import Ascii.
From stdpp Require Import base gmap strings list.
From S2P Require Import Prelude GoStrings Spi Schema SchemaAdmit.

(** ** Conditions *)

(** [predicate.Condition]; [NilCondition] is the nil interface. *)
Inductive Condition : Type :=
| NilCondition
| SimpleCondition (jsonPath operatorType : string) (value : JSON)
| LifecycleCondition (field operatorType : string) (value : JSON)
| ArrayCondition (jsonPath : string) (values : list JSON)
| GroupCondition (operator : string) (conditions : list Condition)
| FunctionCondition (function : string).

Section ConditionInd.
Context (P : Condition → Prop)
  (Hnil : P NilCondition)
  (Hsimple : ∀ p o v, P (SimpleCondition p o v))
  (Hlife : ∀ f o v, P (LifecycleCondition f o v))
  (Harray : ∀ p vs, P (ArrayCondition p vs))
  (Hgroup : ∀ o cs, Forall P cs → P (GroupCondition o cs))
  (Hfun : ∀ f, P (FunctionCondition f)).
Fixpoint condition_ind (c : Condition) : P c :=
  match c with
  | NilCondition => Hnil
  | SimpleCondition p o v => Hsimple p o v
  | LifecycleCondition f o v => Hlife f o v
  | ArrayCondition p vs => Harray p vs
  | GroupCondition o cs =>
      Hgroup o cs ((fix go l := match l return Forall P l with
                                | [] => List.Forall_nil P
                                | x :: l => List.Forall_cons _ _ _ (condition_ind x) (go l)
                                end) cs)
  | FunctionCondition f => Hfun f
  end.
End ConditionInd.

Inductive FilterOp : Type :=
| FilterEq | FilterNe | FilterGt | FilterLt | FilterGte | FilterLte
| FilterContains | FilterStartsWith | FilterEndsWith | FilterLike | FilterMatchesRegex
| FilterIsNull | FilterNotNull | FilterBetween | FilterBetweenInclusive
| FilterIEq | FilterINe | FilterIContains | FilterINotContains | FilterNotContains
| FilterIStartsWith | FilterINotStartsWith | FilterNotStartsWith
| FilterIEndsWith | FilterINotEndsWith | FilterNotEndsWith.
#[export] Instance FilterOp_eq_dec : EqDecision FilterOp.
Proof. solve_decision. Defined.

Inductive FieldSource : Type := SourceData | SourceMeta.
#[export] Instance FieldSource_eq_dec : EqDecision FieldSource.
Proof. solve_decision. Defined.
Inductive OrderKind : Type := OrderText | OrderNumeric | OrderBool | OrderTemporal.

(** A hop of a parsed path: a member name and its array subscripts, [None] the
    wildcard. *)
Record PathHop := mkHop { hop_Name : string; hop_Subs : list (option Z) }.
Record MetaField := mkMetaField { mf_Path : string; mf_Source : FieldSource; mf_Kind : OrderKind }.
Record FieldDescriptor := mkFieldDesc { fd_Types : list DataType; fd_IsArray : bool }.
Abbreviation Fields := (gmap string FieldDescriptor).

Class Kernel := {
  Expansion : Type;
  Result : Type;
  OperatorNames : list string;
  MapOperator : string → FilterOp;
  ParseFilterPath : string → string + list PathHop;
  NormalisePath : string → string;
  OperandString : JSON → string;
  ExpandLeaf : FilterOp → string → list string → list DataType → string + Expansion;
  ValidateLeafPattern : FilterOp → JSON → option string;
  ValidateConditionPatterns : Condition → option string;
  DesugarCondition : Condition → Condition;
  ResolvePath : string → list PathHop → list Result;
  EvalLeaf : Expansion → Result → bool;
  ResolveMetaField : string → option MetaField;
  IsTemporalMetaField : string → bool;
  ClassifyTypesFold : list DataType → (OrderKind → OrderKind) → string + OrderKind;
  (** a JSON string, a JSON time, an absent value *)
  stringResult : string → Result;
  timeResult : Time → Result;
  absentResult : Result
}.

(** [spi.MaxConditionDepth]. *)
Definition MaxConditionDepth : nat := 256.

(** The sentinels the errors wrap; [CPlain] wraps none. *)
Inductive cerr : Type :=
| CInvalidFieldPath (path reason : string)
| CInvalidCondition (what : string)
| CConditionTypeMismatch (what : string)
| CUnknownSortField (path : string)
| CPlain (what : string).

Section Condition.
Context {K : Kernel}.

(** ** The wire grammar of a path *)

Definition jsonPathLeader : string := "$.".
Definition bracketQuoted (rest : string) : bool :=
  Contains rest "['" || Contains rest "']" ||
  Contains rest (String "["%char (String "034"%char "")) || Contains rest (String "034"%char (String "]"%char "")).

Definition validateJSONPath (path : string) (allowSubscript : bool) : option cerr :=
  if negb (HasPrefix path jsonPathLeader) then Some (CInvalidFieldPath path "expected the $. leader") else
  let rest := dropBytes 2 path in
  if decide (rest = "") then Some (CInvalidFieldPath path "addresses no field") else
  if bracketQuoted rest then Some (CInvalidFieldPath path "bracket-quoted property access is not supported") else
  match ParseFilterPath rest with
  | inl reason => Some (CInvalidFieldPath path reason)
  | inr hops =>
      let hasSubscript := existsb (λ hop, negb (bool_decide (hop_Subs hop = []))) hops in
      if hasSubscript && negb allowSubscript
      then Some (CInvalidFieldPath path "array subscripts and projections are not supported here")
      else None
  end.
Definition ValidateConditionJSONPath (path : string) : option cerr := validateJSONPath path true.
Definition ValidateScalarJSONPath (path : string) : option cerr := validateJSONPath path false.
Definition ValidateArrayClauseJSONPath (path : string) : option cerr :=
  match ValidateConditionJSONPath path with
  | Some err => Some err
  | None => if HasSuffix path "[*]" then None else Some (CInvalidFieldPath path "must end in a trailing array wildcard")
  end.

(** The key a model's fields are recorded under: every array hop is [[*]]. *)
Definition renderHop (hop : PathHop) : string :=
  hop_Name hop +:+ String.concat "" (replicate (length (hop_Subs hop)) "[*]").
Definition foldHopsToWildcard (hops : list PathHop) : string := String.concat "." (renderHop <$> hops).
Definition CanonicalFieldPath (path : string) : string :=
  if negb (Contains path "[") then path else
  let '(prefix, rest) := if HasPrefix path jsonPathLeader then (jsonPathLeader, dropBytes 2 path) else ("", path) in
  match ParseFilterPath rest with
  | inl _ => path
  | inr hops => prefix +:+ foldHopsToWildcard hops
  end.

(** ** Structure of a condition *)

Definition canonicalOperators : gset string := list_to_set OperatorNames.

Definition validateOperator (op : string) : option cerr :=
  if decide (op = "") then Some (CInvalidCondition "missing operatorType") else
  if decide (op ∈ canonicalOperators) then None else Some (CInvalidCondition "unknown operatorType").
Definition validateOperandShape (value : JSON) : option cerr :=
  match value with JObject _ => Some (CInvalidCondition "condition value is an object") | _ => None end.
Definition validateBetweenArity (op : string) (value : JSON) : option cerr :=
  if decide (op ≠ "BETWEEN" ∧ op ≠ "BETWEEN_INCLUSIVE") then None else
  match value with
  | JArray vals => if decide (length vals = 2) then None else Some (CPlain "requires exactly two operands")
  | _ => Some (CPlain "requires exactly two operands")
  end.
Definition validateGroupOperator (operator : string) (n : nat) : option cerr :=
  if decide (operator = "AND" ∨ operator = "OR") then None else
  if decide (operator = "NOT") then
    (if decide (n ≠ 1) then Some (CInvalidCondition "NOT requires exactly one condition") else None)
  else Some (CInvalidCondition "unknown group operator").

Definition firstOf (a b : option cerr) : option cerr := match a with Some e => Some e | None => b end.
(** A leaf's operator and operand. *)
Definition validateLeaf (op : string) (value : JSON) : option cerr :=
  firstOf (validateOperator op) (firstOf (validateOperandShape value) (validateBetweenArity op value)).
(** The non-null values of an array clause. *)
Definition validateValues (values : list JSON) : option cerr :=
  firstErr (λ v, match v with JNull => None | _ => validateOperandShape v end) values.

Fixpoint validateConditionAtDepth (cond : Condition) (depth : nat) : option cerr :=
  match cond with
  | NilCondition => None
  | _ =>
      if decide (MaxConditionDepth ≤ depth) then Some (CPlain "condition depth exceeded") else
      match cond with
      | NilCondition => None
      | SimpleCondition p op v => firstOf (ValidateConditionJSONPath p) (validateLeaf op v)
      | LifecycleCondition _ op v => validateLeaf op v
      | ArrayCondition p vs => firstOf (ValidateArrayClauseJSONPath p) (validateValues vs)
      | GroupCondition op cs =>
          firstOf (validateGroupOperator op (length cs)) (firstErr (λ c, validateConditionAtDepth c (S depth)) cs)
      | FunctionCondition _ => Some (CInvalidCondition "function conditions are not supported in search")
      end
  end.
Definition ValidateCondition (cond : Condition) : option cerr := validateConditionAtDepth cond 0.

(** The same for a workflow criterion, whose paths are checked apart and which may
    hold a function clause. *)
Fixpoint validateCriterionConditionAtDepth (cond : Condition) (depth : nat) : option cerr :=
  match cond with
  | NilCondition => None
  | _ =>
      if decide (MaxConditionDepth ≤ depth) then Some (CPlain "condition depth exceeded") else
      match cond with
      | NilCondition => None
      | SimpleCondition _ op v => validateLeaf op v
      | LifecycleCondition _ op v => validateLeaf op v
      | ArrayCondition _ vs => validateValues vs
      | GroupCondition op cs =>
          firstOf (validateGroupOperator op (length cs))
            (firstErr (λ c, validateCriterionConditionAtDepth c (S depth)) cs)
      | FunctionCondition _ => None
      end
  end.
Definition ValidateCriterionCondition (cond : Condition) : option cerr := validateCriterionConditionAtDepth cond 0.

Definition ValidatePatterns (cond : Condition) : option string := ValidateConditionPatterns cond.

(** The code a structural error is answered with. *)
Inductive ErrCode : Type :=
| ErrCodeInvalidFieldPath | ErrCodeInvalidCondition | ErrCodeConditionTypeMismatch | ErrCodeBadRequest
| ErrCodeModelNotFound | ErrCodeSearchResultLimit.
Definition structuralConditionErrCode (e : cerr) : ErrCode :=
  match e with
  | CInvalidFieldPath _ _ => ErrCodeInvalidFieldPath
  | CInvalidCondition _ => ErrCodeInvalidCondition
  | _ => ErrCodeBadRequest
  end.

(** ** Field paths *)

Definition addPath (raw : string) (out : list string) : list string :=
  let p := NormalisePath raw in
  if decide (p = "") then out else if decide (p ∈ out) then out else out ++ [p].
Fixpoint walkConditionPaths (cond : Condition) (out : list string) : list string :=
  match cond with
  | SimpleCondition p _ _ => addPath p out
  | ArrayCondition p _ => addPath p out
  | GroupCondition _ cs => fold_left (λ out c, walkConditionPaths c out) cs out
  | NilCondition | LifecycleCondition _ _ _ | FunctionCondition _ => out
  end.
Definition extractFieldPaths (cond : Condition) : list string := walkConditionPaths cond [].

Definition isKnownContainerPath (p : string) (fm : Fields) : bool :=
  existsb (λ known, HasPrefix known (p +:+ ".") || HasPrefix known (p +:+ "[")) (map_to_list fm).*1.
Definition pathOrContainerKnown (p : string) (fields : Fields) : bool :=
  match fields !! p with Some _ => true | None => isKnownContainerPath p fields end.
Definition isPathKnown (p : string) (fields : Fields) : bool :=
  pathOrContainerKnown p fields ||
  (bool_decide (CanonicalFieldPath p ≠ p) && pathOrContainerKnown (CanonicalFieldPath p) fields).
Definition findUnknownPaths (paths : list string) (fields : Fields) : list string :=
  filter (λ p, isPathKnown p fields = false) paths.
Definition FindUnknownFieldPaths (cond : Condition) (fields : Fields) : list string :=
  findUnknownPaths (extractFieldPaths cond) fields.

Definition isSortPathKnown (p : string) (fields : Fields) : bool :=
  bool_decide (is_Some (fields !! p)) ||
  (bool_decide (CanonicalFieldPath p ≠ p) && bool_decide (is_Some (fields !! CanonicalFieldPath p))).
Definition findUnknownSortPaths (paths : list string) (fields : Fields) : list string :=
  filter (λ p, isSortPathKnown p fields = false) paths.

(** ** Operand types *)

Definition opNameToFilterOp (op : string) : option FilterOp :=
  list_to_map (M:=gmap string FilterOp)
    [("EQUALS", FilterEq); ("NOT_EQUAL", FilterNe); ("GREATER_THAN", FilterGt); ("LESS_THAN", FilterLt);
     ("GREATER_OR_EQUAL", FilterGte); ("LESS_OR_EQUAL", FilterLte); ("CONTAINS", FilterContains);
     ("STARTS_WITH", FilterStartsWith); ("ENDS_WITH", FilterEndsWith); ("LIKE", FilterLike);
     ("MATCHES_PATTERN", FilterMatchesRegex); ("IS_NULL", FilterIsNull); ("NOT_NULL", FilterNotNull);
     ("BETWEEN", FilterBetween); ("BETWEEN_INCLUSIVE", FilterBetweenInclusive); ("IEQUALS", FilterIEq);
     ("INOT_EQUAL", FilterINe); ("ICONTAINS", FilterIContains); ("INOT_CONTAINS", FilterINotContains);
     ("NOT_CONTAINS", FilterNotContains); ("ISTARTS_WITH", FilterIStartsWith);
     ("INOT_STARTS_WITH", FilterINotStartsWith); ("NOT_STARTS_WITH", FilterNotStartsWith);
     ("IENDS_WITH", FilterIEndsWith); ("INOT_ENDS_WITH", FilterINotEndsWith); ("NOT_ENDS_WITH", FilterNotEndsWith)]
  !! op.

Definition IsTemporalOperator (op : string) : bool :=
  bool_decide (op ∈ ["EQUALS"; "NOT_EQUAL"; "GREATER_THAN"; "LESS_THAN"; "GREATER_OR_EQUAL"; "LESS_OR_EQUAL";
                     "BETWEEN"; "BETWEEN_INCLUSIVE"; "IS_NULL"; "NOT_NULL"]).

Definition isParseConstrainedOp (op : FilterOp) : bool :=
  match op with
  | FilterEq | FilterNe | FilterGt | FilterGte | FilterLt | FilterLte | FilterBetween | FilterBetweenInclusive => true
  | _ => false
  end.
Definition carriesScalarOperand (op : FilterOp) : bool :=
  match op with FilterIsNull | FilterNotNull => false | _ => true end.

Definition operandParsesDeclared (declared : list DataType) (v : JSON) : bool :=
  match ExpandLeaf FilterEq (OperandString v) [] declared with inr _ => true | inl _ => false end.
Definition operandElements (v : JSON) : list JSON := match v with JArray arr => arr | _ => [v] end.
(** Every element that is not null parses into a declared type. *)
Definition elementsParse (declared : list DataType) (what : string) (elems : list JSON) : option cerr :=
  firstErr (λ v, match v with
                 | JNull => None
                 | _ => if operandParsesDeclared declared v then None else Some (CConditionTypeMismatch what)
                 end) elems.

Definition validateSimpleConditionType (fm : Fields) (p op : string) (v : JSON) : option cerr :=
  let key := CanonicalFieldPath (NormalisePath p) in
  match fm !! key with
  | None =>
      if bool_decide (fm ≠ ∅) && carriesScalarOperand (MapOperator op) && isKnownContainerPath key fm
      then Some (CInvalidFieldPath p "is a container with substructure") else None
  | Some fd =>
      if decide (fd_Types fd = []) then None else
      if negb (isParseConstrainedOp (MapOperator op)) then None else
      match v with
      | JNull => None
      | JArray elems => elementsParse (fd_Types fd) p elems
      | _ => if operandParsesDeclared (fd_Types fd) v then None else Some (CConditionTypeMismatch p)
      end
  end.

Definition isKnownMetaFilterField (field : string) : bool :=
  if decide (field = "previousTransition") then true else bool_decide (is_Some (ResolveMetaField field)).
Definition canonicalMetaField (field : string) : string :=
  if decide (field = "previousTransition") then "transitionForLatestSave" else field.
Definition metaTemporalDeclared : list DataType := [DZonedDateTime].

Definition validateLifecycleType (field op : string) (v : JSON) : option cerr :=
  if negb (isKnownMetaFilterField field) then Some (CInvalidFieldPath field "unknown meta filter field") else
  if negb (IsTemporalMetaField (canonicalMetaField field)) then None else
  if negb (IsTemporalOperator op) then Some (CInvalidCondition "operator is not valid on a temporal meta field") else
  if negb (isParseConstrainedOp (MapOperator op)) then None else
  elementsParse metaTemporalDeclared field (operandElements v).
Definition ValidateLifecycleCondition := validateLifecycleType.

(** [levels] is [MaxConditionDepth] less the depth: the guard of the code bounds
    the recursion, which an array clause continues on its desugared form. *)
Fixpoint walkConditionTypes (levels : nat) (fm : Fields) (cond : Condition) : option cerr :=
  match cond with
  | NilCondition => None
  | _ =>
      match levels with
      | O => Some (CPlain "condition depth exceeded")
      | S levels =>
          match cond with
          | SimpleCondition p op v => validateSimpleConditionType fm p op v
          | GroupCondition _ cs => firstErr (walkConditionTypes levels fm) cs
          | LifecycleCondition f op v => validateLifecycleType f op v
          | ArrayCondition _ _ => walkConditionTypes levels fm (DesugarCondition cond)
          | FunctionCondition _ | NilCondition => None
          end
      end
  end.
(** [fm] is empty without a model. *)
Definition ValidateConditionValueTypes (fm : Fields) (cond : Condition) : option cerr :=
  walkConditionTypes MaxConditionDepth fm cond.

Definition classifyConditionTypeErrCode (e : cerr) : ErrCode :=
  match e with
  | CInvalidFieldPath _ _ => ErrCodeInvalidFieldPath
  | CInvalidCondition _ => ErrCodeInvalidCondition
  | _ => ErrCodeConditionTypeMismatch
  end.

(** ** Sort keys *)

Record OrderKey := mkOrderKey { ok_Path : string; ok_Source : FieldSource; ok_Desc : bool }.
#[export] Instance OrderKey_eq_dec : EqDecision OrderKey.
Proof. solve_decision. Defined.
Record OrderSpec := mkOrderSpec { os_Path : string; os_Source : FieldSource; os_Desc : bool; os_Kind : OrderKind }.

(** The last [:] of a token, with what precedes and what follows it. *)
Fixpoint lastColon (s : string) : option (string * string) :=
  match s with
  | EmptyString => None
  | String c s' =>
      match lastColon s' with
      | Some (a, b) => Some (String c a, b)
      | None => if Ascii.eqb c ":"%char then Some (EmptyString, s') else None
      end
  end.
Definition isValidSortPath (p : string) : bool := forallb IsSegmentName (Split "."%char p).
Definition parseSortToken (raw : string) : string + OrderKey :=
  let dir := match lastColon raw with
             | None => Some (raw, false)
             | Some (tok, d) =>
                 if decide (d = "asc") then Some (tok, false) else
                 if decide (d = "desc") then Some (tok, true) else None
             end in
  match dir with
  | None => inl "invalid sort direction"
  | Some (tok, desc) =>
      let meta := HasPrefix tok "@" in
      let tok' := if meta then dropBytes 1 tok else TrimPrefix tok "$." in
      if meta && Contains tok' "." then inl "meta sort field must be a flat name" else
      if decide (tok' = "") then inl "empty sort path" else
      if negb (isValidSortPath tok') then inl "malformed sort path" else
      inr (mkOrderKey tok' (if meta then SourceMeta else SourceData) desc)
  end.
Fixpoint dedupKeys (keys : list OrderKey) (seen : list (FieldSource * string)) : option string :=
  match keys with
  | [] => None
  | k :: keys =>
      if decide ((ok_Source k, ok_Path k) ∈ seen) then Some "duplicate sort key"
      else dedupKeys keys ((ok_Source k, ok_Path k) :: seen)
  end.
Definition capAndDedupOrderKeys (keys : list OrderKey) (maxKeys : Z) : string + list OrderKey :=
  if decide (maxKeys < Z.of_nat (length keys))%Z then inl "too many sort keys" else
  match dedupKeys keys [] with Some e => inl e | None => inr keys end.
Fixpoint parseSortTokens (values : list string) : string + list OrderKey :=
  match values with
  | [] => inr []
  | raw :: values =>
      match parseSortToken raw with
      | inl e => inl e
      | inr k => match parseSortTokens values with inl e => inl e | inr ks => inr (k :: ks) end
      end
  end.
Definition ParseSortParam (values : list string) (maxKeys : Z) : string + list OrderKey :=
  match parseSortTokens values with inl e => inl e | inr keys => capAndDedupOrderKeys keys maxKeys end.

Definition foldTemporalToText (k : OrderKind) : OrderKind := match k with OrderTemporal => OrderText | _ => k end.
Definition sortKindForData (types : list DataType) : string + OrderKind := ClassifyTypesFold types foldTemporalToText.

Definition resolveOrderKey (fields : Fields) (k : OrderKey) : cerr + OrderSpec :=
  match ok_Source k with
  | SourceMeta =>
      match ResolveMetaField (ok_Path k) with
      | None => inl (CPlain "unknown meta sort field")
      | Some mf => inr (mkOrderSpec (mf_Path mf) (mf_Source mf) (ok_Desc k) (mf_Kind mf))
      end
  | SourceData =>
      let key := NormalisePath (ok_Path k) in
      match ValidateScalarJSONPath key with
      | Some err => inl err
      | None =>
          match fields !! key with
          | None => inl (CUnknownSortField (ok_Path k))
          | Some fd =>
              if fd_IsArray fd then inl (CPlain "cannot sort by array field") else
              match sortKindForData (fd_Types fd) with
              | inl e => inl (CPlain e)
              | inr kind => inr (mkOrderSpec (TrimPrefix key "$.") SourceData (ok_Desc k) kind)
              end
          end
      end
  end.
Fixpoint resolveOrderBy (keys : list OrderKey) (fields : Fields) : cerr + list OrderSpec :=
  match keys with
  | [] => inr []
  | k :: keys =>
      match resolveOrderKey fields k with
      | inl e => inl e
      | inr s => match resolveOrderBy keys fields with inl e => inl e | inr specs => inr (s :: specs) end
      end
  end.
End Condition.

(** A range without its two bounds is answered as a bad request, not as an invalid
    condition. *)
Lemma between_arity_is_bad_request op v e :
  validateBetweenArity op v = Some e → structuralConditionErrCode e = ErrCodeBadRequest.
Proof. unfold validateBetweenArity. case_decide; [done|]. destruct v; try (by intros [= <-]). case_decide; [done|by intros [= <-]]. Qed.
