(* ===== verification/ConditionMatch.v ===== *)
(** * Evaluating conditions

    [internal/match]: [Prepare] compiles a condition against the declared types of
    its fields, [Match] evaluates the compiled tree on an entity.  The theorems
    relate the boundary of Condition to this evaluator: what the boundary accepts,
    the evaluator can run; and compiled trees mean what the conditions say. *)

From Stdlib Require Import Ascii.
From stdpp Require Import base gmap strings list.
From S2P Require Import Prelude GoStrings Spi Schema SchemaAdmit Condition.

(** [ErrUnsupportedOperator], [ErrUnevaluableLeaf], and errors with no sentinel. *)
Inductive perr : Type := PUnsupportedOperator (op : string) | PUnevaluableLeaf (why : string) | PPlain (why : string).

(** [FieldTypes], nil included. *)
Abbreviation FieldTypes := (option (string → list DataType)).

Section Match.
Context {K : Kernel}.

Inductive prepNode : Type :=
| PrepNever
| PrepGroup (or : bool) (children : list prepNode)
| PrepNot (child : prepNode)
| PrepLeaf (hops : list PathHop) (exp : Expansion)
| PrepMetaString (metaField : string) (exp : Expansion)
| PrepMetaTemporal (metaField : string) (exp : Expansion).

Definition stripLeader (jsonPath : string) : string :=
  if HasPrefix jsonPath "$." then dropBytes 2 jsonPath else
  if HasPrefix jsonPath "$" then dropBytes 1 jsonPath else jsonPath.
Definition fieldMapKey (raw : string) : string :=
  let p := TrimSpace raw in
  if decide (p = "") then p else
  CanonicalFieldPath (if HasPrefix p "$" then p else "$." +:+ p).

(** The legacy comma form: the text before and after the first comma. *)
Fixpoint cutComma (s : string) : option (string * string) :=
  match s with
  | EmptyString => None
  | String c s' =>
      if Ascii.eqb c ","%char then Some (EmptyString, s')
      else match cutComma s' with Some (a, b) => Some (String c a, b) | None => None end
  end.
Definition operandsToStrings (vs : list JSON) : list string := OperandString <$> vs.
Definition betweenBounds (expected : JSON) : list string :=
  match expected with
  | JArray v => if decide (length v ≠ 2) then [] else operandsToStrings v
  | JString s => match cutComma s with Some (a, b) => [TrimSpace a; TrimSpace b] | None => [] end
  | _ => []
  end.

Definition isRange (op : FilterOp) : bool := bool_decide (op = FilterBetween ∨ op = FilterBetweenInclusive).
Definition isPattern (op : FilterOp) : bool := bool_decide (op = FilterLike ∨ op = FilterMatchesRegex).

Definition expandNamed (operatorType : string) (value : JSON) (declared : list DataType) : perr + Expansion :=
  match opNameToFilterOp operatorType with
  | None => inl (PUnsupportedOperator operatorType)
  | Some op =>
      let values := if isRange op then betweenBounds value else [] in
      match ExpandLeaf op (OperandString value) values declared with
      | inl e => inl (PPlain e)
      | inr exp =>
          if isPattern op then match ValidateLeafPattern op value with Some e => inl (PPlain e) | None => inr exp end
          else inr exp
      end
  end.
(** [leafNode] keeps the sentinel of an unknown operator and makes every other
    failure an unevaluable leaf. *)
Definition leafNode (operatorType : string) (value : JSON) (declared : list DataType) : perr + Expansion :=
  match expandNamed operatorType value declared with
  | inl (PUnsupportedOperator op) => inl (PUnsupportedOperator op)
  | inl _ => inl (PUnevaluableLeaf "expansion")
  | inr exp => inr exp
  end.

Definition prepareSimple (jsonPath op : string) (value : JSON) (fieldTypes : FieldTypes) : perr + prepNode :=
  let declared := match fieldTypes with Some f => f (fieldMapKey jsonPath) | None => [] end in
  match leafNode op value declared with
  | inl e => inl e
  | inr exp =>
      let stripped := stripLeader jsonPath in
      if decide (stripped = "") then inl (PUnevaluableLeaf "empty path") else
      match ParseFilterPath stripped with
      | inl e => inl (PUnevaluableLeaf e)
      | inr hops => inr (PrepLeaf hops exp)
      end
  end.

Definition prepareLifecycle (rawField op : string) (value : JSON) : perr + prepNode :=
  let field := canonicalMetaField rawField in
  if decide (field ∈ ["creationDate"; "lastUpdateTime"]) then
    if negb (IsTemporalOperator op) then inr PrepNever else
    match leafNode op value [DZonedDateTime] with inl e => inl e | inr exp => inr (PrepMetaTemporal field exp) end
  else if decide (field ∈ ["state"; "transitionForLatestSave"; "transactionId"; "id"]) then
    match leafNode op value [DString] with inl e => inl e | inr exp => inr (PrepMetaString field exp) end
  else inl (PPlain "unknown lifecycle field").

(** The loop over a group's conditions. *)
Definition mapErr {A B E} (f : A → E + B) : list A → E + list B :=
  fix go l := match l with
              | [] => inr []
              | x :: l => match f x with
                          | inl e => inl e
                          | inr y => match go l with inl e => inl e | inr ys => inr (y :: ys) end
                          end
              end.

Fixpoint prepareDesugared (cond : Condition) (fieldTypes : FieldTypes) : perr + prepNode :=
  match cond with
  | SimpleCondition p op v => prepareSimple p op v fieldTypes
  | LifecycleCondition f op v => prepareLifecycle f op v
  | GroupCondition op cs =>
      if decide (op = "AND" ∨ op = "OR") then
        match mapErr (λ c, prepareDesugared c fieldTypes) cs with
        | inl e => inl e
        | inr children => inr (PrepGroup (bool_decide (op = "OR")) children)
        end
      else if decide (op = "NOT") then
        match cs with
        | [c] => match prepareDesugared c fieldTypes with inl e => inl e | inr child => inr (PrepNot child) end
        | _ => inl (PPlain "NOT requires exactly one condition")
        end
      else inl (PPlain "unknown group operator")
  | FunctionCondition _ => inl (PPlain "function conditions not implemented")
  | NilCondition | ArrayCondition _ _ => inl (PPlain "unknown condition type")
  end.
Definition Prepare (cond : Condition) (fieldTypes : FieldTypes) : perr + prepNode :=
  prepareDesugared (DesugarCondition cond) fieldTypes.

Definition metaStringResult (field : string) (meta : EntityMeta) : Result :=
  stringResult
    (if decide (field = "state") then m_State meta else
     if decide (field = "transitionForLatestSave") then m_TransitionForLatestSave meta else
     if decide (field = "transactionId") then m_TransactionID meta else
     if decide (field = "id") then m_ID meta else "").
Definition metaTemporalResult (field : string) (meta : EntityMeta) : Result :=
  let t := if decide (field = "creationDate") then m_CreationDate meta else
           if decide (field = "lastUpdateTime") then m_LastModifiedDate meta else 0%Z in
  if IsZero t then absentResult else timeResult t.

Fixpoint Match (n : prepNode) (data : string) (meta : EntityMeta) : bool :=
  match n with
  | PrepNever => false
  | PrepGroup or children =>
      if or then existsb (λ c, Match c data meta) children else forallb (λ c, Match c data meta) children
  | PrepNot child => negb (Match child data meta)
  | PrepLeaf hops exp => existsb (EvalLeaf exp) (ResolvePath data hops)
  | PrepMetaString field exp => EvalLeaf exp (metaStringResult field meta)
  | PrepMetaTemporal field exp => EvalLeaf exp (metaTemporalResult field meta)
  end.
End Match.

(** ** Leaves of a condition

    [every G P c]: each group of [c] satisfies [G] and each leaf [P]. *)
Fixpoint every (G : string → nat → Prop) (P : Condition → Prop) (c : Condition) : Prop :=
  match c with
  | GroupCondition op cs => G op (length cs) ∧ (fix go l := match l with [] => True | x :: l => every G P x ∧ go l end) cs
  | _ => P c
  end.
Definition anyGroup (_ : string) (_ : nat) : Prop := True.
Definition isLeaf (c : Condition) : Prop := match c with GroupCondition _ _ => False | _ => True end.

Lemma every_group G P op cs : every G P (GroupCondition op cs) ↔ G op (length cs) ∧ Forall (every G P) cs.
Proof.
  cbn [every]. apply and_iff_compat_l. induction cs as [|c cs IH]; [by split; [constructor|]|].
  rewrite Forall_cons. tauto.
Qed.
Lemma every_leaf G P c : isLeaf c → every G P c ↔ P c.
Proof. by destruct c. Qed.

Lemma every_impl G G' (P P' : Condition → Prop) c :
  every G P c → (∀ op n, G op n → G' op n) → (∀ l, isLeaf l → P l → P' l) → every G' P' c.
Proof.
  intros Hc HG HP. induction c as [| | | |op cs IH|] using condition_ind;
    try (revert Hc; rewrite !every_leaf by done; by apply HP).
  apply every_group in Hc as [Hg Hcs]. apply every_group. split; [by apply HG|].
  rewrite Forall_forall in *. intros c Hc. by apply IH, Hcs.
Qed.
Lemma every_and G G' (P P' : Condition → Prop) c :
  every G P c → every G' P' c → every (λ op n, G op n ∧ G' op n) (λ l, P l ∧ P' l) c.
Proof.
  induction c as [| | | |op cs IH|] using condition_ind; try by rewrite !every_leaf by done.
  rewrite !every_group. intros [Hg Hcs] [Hg' Hcs']. split; [done|].
  rewrite Forall_forall in *. intros c Hc. apply IH; auto.
Qed.

Lemma mapErr_cons {A B E} (f : A → E + B) x l :
  mapErr f (x :: l) = match f x with
                      | inl e => inl e
                      | inr y => match mapErr f l with inl e => inl e | inr ys => inr (y :: ys) end
                      end.
Proof. done. Qed.
Lemma mapErr_inr {A B E} (f : A → E + B) l : Forall (λ x, ∃ y, f x = inr y) l → ∃ ys, mapErr f l = inr ys.
Proof.
  induction 1 as [|x l [y Hy] _ [ys IH]]; [by exists []|]. rewrite mapErr_cons, Hy, IH. by eexists.
Qed.
Lemma mapErr_inl {A B E} (f : A → E + B) l e : mapErr f l = inl e → ∃ x, x ∈ l ∧ f x = inl e.
Proof.
  induction l as [|x l IH]; [done|]. rewrite mapErr_cons. destruct (f x) as [e'|y] eqn:Ef.
  - intros [= ->]. exists x. split; [by left|done].
  - destruct (mapErr f l) as [e'|ys]; [|done]. intros [= ->].
    destruct (IH eq_refl) as (z & Hz & Hf). exists z. by split; [right|].
Qed.
Lemma mapErr_Forall2 {A B E} (f : A → E + B) l ys : mapErr f l = inr ys → Forall2 (λ x y, f x = inr y) l ys.
Proof.
  revert ys. induction l as [|x l IH]; intros ys; [intros [= <-]; constructor|].
  rewrite mapErr_cons. destruct (f x) as [e|y] eqn:Ef; [done|]. destruct (mapErr f l) as [e|zs]; [done|].
  intros [= <-]. constructor; [done|]. by apply IH.
Qed.

(** The groups the boundary accepts. *)
Definition groupOk (op : string) (n : nat) : Prop := op = "AND" ∨ op = "OR" ∨ (op = "NOT" ∧ n = 1).
Lemma validateGroupOperator_ok op n : validateGroupOperator op n = None ↔ groupOk op n.
Proof.
  unfold validateGroupOperator, groupOk. repeat case_decide; split; intros Hx; try done; try tauto; try lia.
  all: destruct Hx as [?|[?|[??]]]; subst; tauto.
Qed.

Section Prepared.
Context {K : Kernel}.

(** Compilation follows the tree: it succeeds when every leaf compiles, and what
    it fails with is the failure of a leaf. *)
Lemma prepare_every_ok (P : Condition → Prop) ft c :
  every groupOk P c → (∀ l, isLeaf l → P l → ∃ n, prepareDesugared l ft = inr n) →
  ∃ n, prepareDesugared c ft = inr n.
Proof.
  intros Hc HP. induction c as [| | | |op cs IH|] using condition_ind;
    try (apply HP; [done|by rewrite every_leaf in Hc]).
  apply every_group in Hc as [Hg Hcs].
  assert (Forall (λ x, ∃ y, prepareDesugared x ft = inr y) cs) as Hall
    by (rewrite Forall_forall in *; eauto).
  cbn [prepareDesugared]. destruct Hg as [->|[->|[-> Hn]]].
  1,2: rewrite decide_True by tauto; destruct (mapErr_inr _ _ Hall) as [ys ->]; by eexists.
  rewrite decide_False by (by intros [|]). rewrite decide_True by done.
  destruct cs as [|c [|]]; [done| |done]. apply Forall_singleton in Hall as [n ->]. by eexists.
Qed.
Lemma prepare_every_err (P : Condition → Prop) (Q : perr → Prop) ft c e :
  every groupOk P c → (∀ l e, isLeaf l → P l → prepareDesugared l ft = inl e → Q e) →
  prepareDesugared c ft = inl e → Q e.
Proof.
  intros Hc HP. revert e. induction c as [| | | |op cs IH|] using condition_ind;
    try (intros e; apply HP; [done|by rewrite every_leaf in Hc]).
  apply every_group in Hc as [Hg Hcs]. intros e. cbn [prepareDesugared]. rewrite !Forall_forall in *.
  destruct Hg as [->|[->|[-> Hn]]].
  1,2: rewrite decide_True by tauto; case_match eqn:Em; [|done]; intros [= ->];
    apply mapErr_inl in Em as (x & Hx & He); by eapply IH; [|apply Hcs|].
  rewrite decide_False by (by intros [|]). rewrite decide_True by done.
  destruct cs as [|c [|]]; [done| |done]. case_match eqn:Em; [|done]. intros [= ->].
  eapply IH; [|apply Hcs|done]; by left.
Qed.
End Prepared.

(** ** What the boundary relies on

    The storage contract's documented behaviour: its operator table is the one
    [opNameToFilterOp] repeats; a path with its leader is already normal, and a
    parsed path consists of name bytes, dots and subscripts; only comparisons and
    ranges can fail to expand, each when its operand denotes no value of a declared
    type, and any text is a string; the array clause is an AND of EQUALS leaves on
    the positions of its wildcard; the meta fields are six. *)
Class KernelLaws `{Kernel} : Prop := {
  operators_mapped : ∀ op, op ∈ OperatorNames → opNameToFilterOp op = Some (MapOperator op);
  normalise_leader : ∀ r, NormalisePath ("$." +:+ r) = "$." +:+ r;
  path_bytes : ∀ r hops c, ParseFilterPath r = inr hops → c ∈ bytesOfString r → isSpace c = false;
  expand_total : ∀ op s vs d, isParseConstrainedOp op = false → ∃ e, ExpandLeaf op s vs d = inr e;
  expand_compare : ∀ op s d e, isParseConstrainedOp op = true → isRange op = false →
    ExpandLeaf FilterEq s [] d = inr e → ∃ e', ExpandLeaf op s [] d = inr e';
  expand_range : ∀ op s a b d ea eb, isRange op = true →
    ExpandLeaf FilterEq a [] d = inr ea → ExpandLeaf FilterEq b [] d = inr eb → ∃ e, ExpandLeaf op s [a; b] d = inr e;
  expand_string : ∀ s, ∃ e, ExpandLeaf FilterEq s [] [DString] = inr e;
  patterns_checked : ∀ cond, ValidateConditionPatterns cond = None →
    every anyGroup (λ l, match l with
                         | SimpleCondition _ op v | LifecycleCondition _ op v =>
                             isPattern (MapOperator op) = true → ValidateLeafPattern (MapOperator op) v = None
                         | _ => True
                         end) cond;
  desugar_leaf : ∀ c, isLeaf c → (∀ p vs, c ≠ ArrayCondition p vs) → DesugarCondition c = c;
  desugar_group : ∀ op cs, DesugarCondition (GroupCondition op cs) = GroupCondition op (DesugarCondition <$> cs);
  desugar_array : ∀ p vs, ValidateArrayClauseJSONPath p = None →
    every groupOk (λ l, ∃ q v, l = SimpleCondition q "EQUALS" v ∧ v ∈ vs ∧ v ≠ JNull ∧
      ValidateConditionJSONPath q = None ∧ CanonicalFieldPath q = CanonicalFieldPath p)
      (DesugarCondition (ArrayCondition p vs));
  equals_named : MapOperator "EQUALS" = FilterEq;
  meta_vocabulary : ∀ f, is_Some (ResolveMetaField f) →
    f ∈ ["creationDate"; "lastUpdateTime"; "state"; "transitionForLatestSave"; "transactionId"; "id"];
  meta_temporal : ∀ f, IsTemporalMetaField f = bool_decide (f ∈ ["creationDate"; "lastUpdateTime"])
}.

Section Accepted.
Context `{KernelLaws}.

Lemma firstOf_None a b : firstOf a b = None ↔ a = None ∧ b = None.
Proof. destruct a; simpl; naive_solver. Qed.

Lemma desugar_every (G : string → nat → Prop) (P Q : Condition → Prop) c :
  every G P c → (∀ l, isLeaf l → P l → every G Q (DesugarCondition l)) → every G Q (DesugarCondition c).
Proof.
  intros Hc HP. induction c as [| | | |op cs IH|] using condition_ind;
    try (apply HP; [done|by rewrite every_leaf in Hc]).
  apply every_group in Hc as [Hg Hcs]. rewrite desugar_group. apply every_group. rewrite length_fmap.
  split; [done|]. rewrite Forall_fmap. rewrite Forall_forall in *. intros c Hc. apply (IH c Hc), Hcs, Hc.
Qed.

(** Accepted leaves. *)
Definition structured (l : Condition) : Prop :=
  match l with
  | SimpleCondition p op v => ValidateConditionJSONPath p = None ∧ validateLeaf op v = None
  | LifecycleCondition _ op v => validateLeaf op v = None
  | ArrayCondition p vs => ValidateArrayClauseJSONPath p = None ∧ validateValues vs = None
  | FunctionCondition _ => False
  | _ => True
  end.
Lemma validateCondition_every c d : validateConditionAtDepth c d = None → every groupOk structured c.
Proof.
  revert d. induction c as [|p op v|f op v|p vs|op cs IH|f] using condition_ind; intros d Hv;
    cbn [validateConditionAtDepth] in Hv; try (case_decide; [done|]).
  - done.
  - by apply firstOf_None in Hv.
  - done.
  - by apply firstOf_None in Hv.
  - apply firstOf_None in Hv as [Hg Hcs]. apply every_group. split; [by apply validateGroupOperator_ok|].
    apply firstErr_None in Hcs. rewrite Forall_forall in *. intros c Hc. by eapply IH, Hcs.
  - done.
Qed.
Lemma validateCriterion_every c d :
  validateCriterionConditionAtDepth c d = None →
  every groupOk (λ l, match l with
                      | SimpleCondition _ op v | LifecycleCondition _ op v => validateLeaf op v = None
                      | ArrayCondition _ vs => validateValues vs = None
                      | _ => True
                      end) c.
Proof.
  revert d. induction c as [|p op v|f op v|p vs|op cs IH|f] using condition_ind; intros d Hv;
    cbn [validateCriterionConditionAtDepth] in Hv; try (case_decide; [done|]); try done.
  apply firstOf_None in Hv as [Hg Hcs]. apply every_group. split; [by apply validateGroupOperator_ok|].
  apply firstErr_None in Hcs. rewrite Forall_forall in *. intros c Hc. by eapply IH, Hcs.
Qed.

Definition typed (fm : Fields) (l : Condition) : Prop :=
  match l with
  | SimpleCondition p op v => validateSimpleConditionType fm p op v = None
  | LifecycleCondition f op v => validateLifecycleType f op v = None
  | _ => True
  end.
Definition typedArray (fm : Fields) (l : Condition) : Prop :=
  match l with ArrayCondition _ _ => every anyGroup (typed fm) (DesugarCondition l) | _ => typed fm l end.
Lemma walkConditionTypes_every n fm c : walkConditionTypes n fm c = None → every anyGroup (typed fm) c.
Proof.
  revert c. induction n as [|n IH]; intros [| | | |op cs|] Hw; try done. apply every_group. split; [done|].
  apply firstErr_None in Hw. eapply Forall_impl; [exact Hw|]. exact IH.
Qed.
Lemma walkConditionTypes_array n fm c : walkConditionTypes n fm c = None → every anyGroup (typedArray fm) c.
Proof.
  revert c. induction n as [|n IH]; intros [| | | |op cs|] Hw; try done.
  - cbn [every typedArray]. by apply (walkConditionTypes_every n).
  - apply every_group. split; [done|]. apply firstErr_None in Hw. eapply Forall_impl; [exact Hw|]. exact IH.
Qed.

(** ** The evaluator's failures after the boundary *)

Definition named (op : string) : Prop := opNameToFilterOp op = Some (MapOperator op).
Lemma validateLeaf_named op v : validateLeaf op v = None → named op.
Proof.
  intros [Hop _]%firstOf_None. unfold validateOperator in Hop. case_decide; [done|]. case_decide as Hin; [|done].
  apply operators_mapped. unfold canonicalOperators in Hin. by rewrite elem_of_list_to_set in Hin.
Qed.
Lemma named_equals : named "EQUALS".
Proof. unfold named. rewrite equals_named. reflexivity. Qed.

Lemma accepted_path p : ValidateConditionJSONPath p = None →
  ∃ r hops, p = "$." +:+ r ∧ r ≠ "" ∧ ParseFilterPath r = inr hops.
Proof.
  unfold ValidateConditionJSONPath, validateJSONPath. destruct (HasPrefix p jsonPathLeader) eqn:Hp; [|done].
  apply HasPrefix_spec in Hp as [r ->]. change (dropBytes 2 (jsonPathLeader +:+ r)) with (dropBytes (String.length jsonPathLeader) (jsonPathLeader +:+ r)).
  rewrite dropBytes_app. simpl negb. cbv iota. case_decide; [done|]. case_match; [done|].
  destruct (ParseFilterPath r) as [e|hops] eqn:Ep; [done|]. intros _. by exists r, hops.
Qed.
Lemma stripLeader_app r : stripLeader ("$." +:+ r) = r.
Proof. unfold stripLeader. rewrite HasPrefix_app. exact (dropBytes_app "$." r). Qed.

Definition ready (l : Condition) : Prop :=
  match l with
  | SimpleCondition p op v => named op ∧ ValidateConditionJSONPath p = None
  | LifecycleCondition f op v => named op ∧ isKnownMetaFilterField f = true
  | _ => False
  end.

Lemma leafNode_named op v d e : named op → leafNode op v d = inl e → e = PUnevaluableLeaf "expansion".
Proof.
  unfold named, leafNode, expandNamed. intros ->. repeat case_match; naive_solver.
Qed.
Lemma metaField_cases f : isKnownMetaFilterField f = true →
  canonicalMetaField f ∈ ["creationDate"; "lastUpdateTime"] ∨
  canonicalMetaField f ∈ ["state"; "transitionForLatestSave"; "transactionId"; "id"].
Proof.
  unfold isKnownMetaFilterField, canonicalMetaField. case_decide; [intros _; right; by right; left|].
  intros Hf%bool_decide_eq_true%meta_vocabulary. rewrite !elem_of_cons in *. tauto.
Qed.
Lemma ready_fails l ft e : isLeaf l → ready l → prepareDesugared l ft = inl e → ∃ why, e = PUnevaluableLeaf why.
Proof.
  destruct l as [|p op v|f op v| | |]; try done; cbn [ready prepareDesugared]; intros _ [Hop Hl].
  - apply accepted_path in Hl as (r & hops & -> & Hr & Hp). unfold prepareSimple.
    case_match eqn:El; [intros [= <-]; eapply leafNode_named in El; eauto|].
    rewrite stripLeader_app, decide_False, Hp by done. done.
  - unfold prepareLifecycle. case_decide as Ht; [|case_decide as Hs; [|by destruct (metaField_cases f Hl)]].
    + case_match; [done|]. case_match eqn:El; [|done]. intros [= <-]. eapply leafNode_named in El; eauto.
    + case_match eqn:El; [|done]. intros [= <-]. eapply leafNode_named in El; eauto.
Qed.

(** No nil clause: what the parser of conditions builds. *)
Definition parsed (c : Condition) : Prop := every anyGroup (λ l, l ≠ NilCondition) c.

Lemma accepted_ready fm c d n :
  parsed c → validateConditionAtDepth c d = None → walkConditionTypes n fm c = None →
  every groupOk ready (DesugarCondition c).
Proof.
  intros Hp Hs Ht. apply validateCondition_every in Hs. apply walkConditionTypes_array in Ht.
  pose proof (every_and _ _ _ _ _ Hs (every_and _ _ _ _ _ Hp Ht)) as Hall.
  eapply desugar_every.
  { eapply every_impl; [exact Hall|intros op k Hk; exact (proj1 Hk)|intros l _ Hl; exact Hl]. }
  intros [|p op v|f op v|p vs| |f] Hleaf (Hl & Hn & Hty); try done; cbn [structured typedArray typed] in *.
  - rewrite desugar_leaf by done. destruct Hl as [Hq Hl]. split; [by eapply validateLeaf_named|done].
  - rewrite desugar_leaf by done. split; [by eapply validateLeaf_named|].
    unfold validateLifecycleType in Hty. by destruct (isKnownMetaFilterField f).
  - eapply every_impl; [exact (desugar_array p vs (proj1 Hl))|done|].
    intros l _ (q & v & -> & _ & _ & Hq & _). split; [apply named_equals|done].
Qed.

(** A condition that passed the search boundary can be refused by the evaluator
    for one reason only, a leaf whose operand denotes no value of the declared
    types: never for an unknown operator, an unknown group operator, a malformed
    path, an unknown meta field or a clause it cannot evaluate, which would be
    answered as a server error. *)
Theorem boundary_leaves_operands fm cond ft e :
  parsed cond → ValidateCondition cond = None → ValidateConditionValueTypes fm cond = None →
  Prepare cond ft = inl e → ∃ why, e = PUnevaluableLeaf why.
Proof.
  unfold ValidateCondition, ValidateConditionValueTypes, Prepare. intros Hp Hs Ht.
  apply (prepare_every_err ready (λ e, ∃ why, e = PUnevaluableLeaf why));
    [exact (accepted_ready fm cond 0 _ Hp Hs Ht)|].
  intros l e' Hl Hr. by apply ready_fails.
Qed.

(** ** Conditions the evaluator runs *)

Definition typesOf (fm : Fields) (key : string) : list DataType :=
  match fm !! key with Some fd => fd_Types fd | None => [] end.
(** Field keys and their prefixes spell every array hop as the wildcard. *)
Definition canonicalFields (fm : Fields) : Prop := ∀ k fd p,
  fm !! k = Some fd → k = p ∨ HasPrefix k (p +:+ ".") = true ∨ HasPrefix k (p +:+ "[") = true → CanonicalFieldPath p = p.

(** A comparison has one operand, a range two, none of them null. *)
Definition plainOperand (op : string) (v : JSON) : Prop :=
  isParseConstrainedOp (MapOperator op) = true →
  match v with JNull => False | JArray vs => isRange (MapOperator op) = true ∧ JNull ∉ vs | _ => True end.
Definition plain (l : Condition) : Prop :=
  match l with
  | SimpleCondition _ op v | LifecycleCondition _ op v => plainOperand op v
  | ArrayCondition _ vs => ∀ v ws, v ∈ vs → v ≠ JArray ws
  | NilCondition => False
  | _ => True
  end.

Lemma fieldMapKey_accepted p : ValidateConditionJSONPath p = None → fieldMapKey p = CanonicalFieldPath p.
Proof.
  intros (r & hops & -> & Hr & Hp)%accepted_path. unfold fieldMapKey. rewrite TrimSpace_id.
  - by rewrite decide_False by done.
  - intros c. change (bytesOfString ("$." +:+ r)) with ("$"%char :: "."%char :: bytesOfString r).
    rewrite !elem_of_cons. intros [->|[->|Hc]]; [done..|by eapply path_bytes].
Qed.

Lemma known_container fm p :
  canonicalFields fm → isPathKnown p fm = true → fm !! CanonicalFieldPath p = None →
  isKnownContainerPath (CanonicalFieldPath p) fm = true.
Proof.
  intros Hfm Hk Hn. unfold isPathKnown in Hk. apply orb_true_iff in Hk as [Hk|Hk]; unfold pathOrContainerKnown in Hk.
  - destruct (fm !! p) as [fd|] eqn:Ep.
    { rewrite (Hfm p fd p Ep) in Hn by (by left). congruence. }
    pose proof Hk as Hk'. unfold isKnownContainerPath in Hk'. apply existsb_exists in Hk' as (k & Hin & Hpre).
    apply list_elem_of_In, list_elem_of_fmap in Hin as ([k' fd] & -> & Hin%elem_of_map_to_list).
    rewrite (Hfm _ _ p Hin); [done|]. apply orb_true_iff in Hpre. by right.
  - apply andb_true_iff in Hk as [_ Hk]. by rewrite Hn in Hk.
Qed.

Lemma named_range op : named op → isRange (MapOperator op) = true → op = "BETWEEN" ∨ op = "BETWEEN_INCLUSIVE".
Proof.
  unfold named, opNameToFilterOp, isRange. intros Hop%elem_of_list_to_map_2 Hr%bool_decide_eq_true.
  repeat (apply elem_of_cons in Hop as [[= -> E]|Hop]; [first [tauto|rewrite E in Hr; by destruct Hr]|]).
  by apply elem_of_nil in Hop.
Qed.
Lemma range_constrained op : isRange op = true → isParseConstrainedOp op = true ∧ carriesScalarOperand op = true.
Proof. intros [->| ->]%bool_decide_eq_true; done. Qed.
Lemma constrained_scalar op : isParseConstrainedOp op = true → carriesScalarOperand op = true.
Proof. by destruct op. Qed.

(** The operand denotes values of the declared types. *)
Definition fits (d : list DataType) (op : string) (v : JSON) : Prop :=
  if isRange (MapOperator op)
  then ∃ a b, v = JArray [a; b] ∧ operandParsesDeclared d a = true ∧ operandParsesDeclared d b = true
  else operandParsesDeclared d v = true.
Lemma parses_expand d v : operandParsesDeclared d v = true → ∃ e, ExpandLeaf FilterEq (OperandString v) [] d = inr e.
Proof. unfold operandParsesDeclared. destruct (ExpandLeaf _ _ _ _) as [|e]; [done|by exists e]. Qed.

Lemma leafNode_runs d op v :
  named op → (isPattern (MapOperator op) = true → ValidateLeafPattern (MapOperator op) v = None) →
  (isParseConstrainedOp (MapOperator op) = true → fits d op v) → ∃ exp, leafNode op v d = inr exp.
Proof.
  intros Hop Hpat Hfit. unfold leafNode, expandNamed. rewrite Hop.
  assert (∃ e, ExpandLeaf (MapOperator op) (OperandString v)
                 (if isRange (MapOperator op) then betweenBounds v else []) d = inr e) as [e ->].
  { destruct (isParseConstrainedOp (MapOperator op)) eqn:Ec; [|by apply expand_total].
    specialize (Hfit eq_refl). unfold fits in Hfit. destruct (isRange (MapOperator op)) eqn:Er.
    - destruct Hfit as (a & b & -> & [ea Ha]%parses_expand & [eb Hb]%parses_expand). simpl. by eapply expand_range.
    - apply parses_expand in Hfit as [e He]. by eapply expand_compare. }
  destruct (isPattern (MapOperator op)) eqn:Ep; [rewrite Hpat by done|]; by eexists.
Qed.

Lemma elementsParse_parses d what vs v :
  elementsParse d what vs = None → v ∈ vs → v ≠ JNull → operandParsesDeclared d v = true.
Proof.
  unfold elementsParse. rewrite firstErr_None, Forall_forall. intros Hall Hv Hn. specialize (Hall v Hv).
  destruct v; try done; by destruct (operandParsesDeclared d _).
Qed.
Lemma range_bounds op v :
  named op → validateBetweenArity op v = None → isRange (MapOperator op) = true → ∃ a b, v = JArray [a; b].
Proof.
  intros Hop Ha Hr. unfold validateBetweenArity in Ha.
  rewrite decide_False in Ha by (destruct (named_range op Hop Hr) as [-> | ->]; tauto).
  destruct v as [| |[|a [|b [|]]]| | | | |]; try done; by eexists _, _.
Qed.
Lemma fits_of_elements d what op v :
  named op → validateBetweenArity op v = None → plainOperand op v →
  isParseConstrainedOp (MapOperator op) = true → elementsParse d what (operandElements v) = None → fits d op v.
Proof.
  intros Hop Ha Hpl Hc He. specialize (Hpl Hc). unfold fits. destruct (isRange (MapOperator op)) eqn:Er.
  - destruct (range_bounds op v Hop Ha Er) as (a & b & ->). destruct Hpl as [_ Hnn].
    apply not_elem_of_cons in Hnn as [Hna Hnb]. apply not_elem_of_cons in Hnb as [Hnb _].
    exists a, b. split; [done|]. split; eapply elementsParse_parses; eauto; [left|right; left].
  - assert (operandElements v = [v] ∧ v ≠ JNull) as [Hv Hn] by (destruct v; naive_solver).
    rewrite Hv in He. eapply elementsParse_parses; [exact He|by left|done].
Qed.

(** The paths a condition names are those the field check is given. *)
Lemma addPath_spec raw out q : q ∈ addPath raw out ↔ q ∈ out ∨ (q = NormalisePath raw ∧ q ≠ "").
Proof.
  unfold addPath. case_decide as He; [rewrite He; naive_solver|]. case_decide as Hin; [naive_solver|].
  rewrite elem_of_app, list_elem_of_singleton. naive_solver.
Qed.
Lemma walkConditionPaths_mono c out q : q ∈ out → q ∈ walkConditionPaths c out.
Proof.
  revert out. induction c as [|p op v|f op v|p vs|op cs IH|f] using condition_ind; intros out Hq;
    cbn [walkConditionPaths]; try done; try (apply addPath_spec; by left).
  revert out Hq. induction IH as [|c cs Hc _ IHcs]; intros out Hq; [done|]. simpl. by apply IHcs, Hc.
Qed.
Definition collected (S : list string) (l : Condition) : Prop :=
  match l with
  | SimpleCondition p _ _ | ArrayCondition p _ => NormalisePath p ≠ "" → NormalisePath p ∈ S
  | _ => True
  end.
Lemma walkConditionPaths_collects c out S :
  (∀ q, q ∈ walkConditionPaths c out → q ∈ S) → every anyGroup (collected S) c.
Proof.
  revert out. induction c as [|p op v|f op v|p vs|op cs IH|f] using condition_ind; intros out HS;
    cbn [walkConditionPaths] in HS; try done; try (intros Hp; apply HS, addPath_spec; by right).
  apply every_group. split; [done|]. revert out HS. induction IH as [|c cs Hc IH0 IHcs]; intros out HS; [constructor|].
  simpl in HS. constructor; [|by eapply IHcs]. apply (Hc out). intros q Hq. apply HS.
  clear -Hq. revert Hq. generalize (walkConditionPaths c out). induction cs as [|c' cs IH]; intros out' Hq; [done|].
  simpl. by apply IH, walkConditionPaths_mono.
Qed.
Lemma known_paths fm c :
  FindUnknownFieldPaths c fm = [] → every anyGroup (collected (filter (λ p, isPathKnown p fm = true) (extractFieldPaths c))) c.
Proof.
  intros Hu. apply (walkConditionPaths_collects c []). intros q Hq. apply list_elem_of_filter. split; [|done].
  destruct (isPathKnown q fm) eqn:Ek; [done|]. exfalso.
  assert (q ∈ FindUnknownFieldPaths c fm) as Hin by (by apply list_elem_of_filter).
  rewrite Hu in Hin. by apply elem_of_nil in Hin.
Qed.

Definition typedFields (fm : Fields) : Prop := ∀ k fd, fm !! k = Some fd → fd_Types fd ≠ [].

Lemma simple_fits fm p q op v :
  canonicalFields fm → typedFields fm → isPathKnown p fm = true →
  ValidateConditionJSONPath q = None → CanonicalFieldPath q = CanonicalFieldPath p →
  validateSimpleConditionType fm q op v = None → named op → validateBetweenArity op v = None → plainOperand op v →
  isParseConstrainedOp (MapOperator op) = true → fits (typesOf fm (CanonicalFieldPath p)) op v.
Proof.
  intros Hcan Htyped Hk Hq Hqp Hty Hop Ha Hpl Hc. apply accepted_path in Hq as (r & hops & -> & _ & _).
  unfold validateSimpleConditionType in Hty. rewrite normalise_leader, Hqp in Hty. unfold typesOf.
  destruct (fm !! CanonicalFieldPath p) as [fd|] eqn:Ef.
  - rewrite decide_False, Hc in Hty by (by eapply Htyped). simpl in Hty.
    eapply (fits_of_elements _ ("$." +:+ r)); try done. pose proof (Hpl Hc) as Hv.
    destruct v; try done; simpl; unfold elementsParse; simpl;
      by destruct (operandParsesDeclared _ _).
  - rewrite (constrained_scalar _ Hc), (known_container fm p Hcan Hk Ef), bool_decide_true in Hty; [done|].
    intros ->. pose proof (known_container ∅ p Hcan Hk Ef) as Hx. unfold isKnownContainerPath in Hx.
    by rewrite map_to_list_empty in Hx.
Qed.

Lemma simple_runs fm p q op v :
  canonicalFields fm → typedFields fm → isPathKnown p fm = true →
  ValidateConditionJSONPath q = None → CanonicalFieldPath q = CanonicalFieldPath p →
  validateSimpleConditionType fm q op v = None → named op → validateBetweenArity op v = None → plainOperand op v →
  (isPattern (MapOperator op) = true → ValidateLeafPattern (MapOperator op) v = None) →
  ∃ n, prepareSimple q op v (Some (typesOf fm)) = inr n.
Proof.
  intros Hcan Htyped Hk Hq Hqp Hty Hop Ha Hpl Hpat. unfold prepareSimple. rewrite fieldMapKey_accepted, Hqp by done.
  destruct (leafNode_runs (typesOf fm (CanonicalFieldPath p)) op v Hop Hpat) as [exp ->];
    [by eapply (simple_fits fm p q)|].
  apply accepted_path in Hq as (r & hops & -> & Hr & Hparse).
  rewrite stripLeader_app, decide_False, Hparse by done. by eexists.
Qed.

Lemma string_fits op v :
  named op → validateBetweenArity op v = None → fits [DString] op v.
Proof.
  intros Hop Ha. assert (∀ w, operandParsesDeclared [DString] w = true) as Hw.
  { intros w. unfold operandParsesDeclared. by destruct (expand_string (OperandString w)) as [e ->]. }
  unfold fits. destruct (isRange (MapOperator op)) eqn:Er; [|apply Hw].
  destruct (range_bounds op v Hop Ha Er) as (a & b & ->). exists a, b. auto.
Qed.

Lemma lifecycle_runs f op v :
  validateLifecycleType f op v = None → named op → validateBetweenArity op v = None → plainOperand op v →
  (isPattern (MapOperator op) = true → ValidateLeafPattern (MapOperator op) v = None) →
  ∃ n, prepareLifecycle f op v = inr n.
Proof.
  intros Hty Hop Ha Hpl Hpat. unfold validateLifecycleType in Hty. rewrite meta_temporal in Hty.
  destruct (isKnownMetaFilterField f) eqn:Hf; [|done]. unfold prepareLifecycle.
  destruct (decide (canonicalMetaField f ∈ ["creationDate"; "lastUpdateTime"])) as [Ht|Ht];
    [|rewrite decide_True by (by destruct (metaField_cases f Hf))].
  - rewrite bool_decide_true in Hty by done. destruct (IsTemporalOperator op); [|done]. cbn [negb] in *.
    destruct (leafNode_runs [DZonedDateTime] op v Hop Hpat) as [exp ->]; [|by eexists].
    intros Hc. rewrite Hc in Hty. exact (fits_of_elements _ f op v Hop Ha Hpl Hc Hty).
  - destruct (leafNode_runs [DString] op v Hop Hpat) as [exp ->]; [|by eexists]. intros _. by apply string_fits.
Qed.

Lemma accepted_runs fm c d n :
  canonicalFields fm → typedFields fm → every anyGroup plain c →
  validateConditionAtDepth c d = None → FindUnknownFieldPaths c fm = [] →
  ValidatePatterns c = None → walkConditionTypes n fm c = None →
  every groupOk (λ l, ∃ n, prepareDesugared l (Some (typesOf fm)) = inr n) (DesugarCondition c).
Proof.
  intros Hcan Htf Hpl Hs Hu Hpat Ht. apply validateCondition_every in Hs. apply walkConditionTypes_array in Ht.
  apply known_paths in Hu. apply patterns_checked in Hpat.
  pose proof (every_and _ _ _ _ _ Hs (every_and _ _ _ _ _ Hpl (every_and _ _ _ _ _ Ht (every_and _ _ _ _ _ Hu Hpat)))) as Hall.
  eapply desugar_every.
  { eapply every_impl; [exact Hall|intros op k Hk; exact (proj1 Hk)|intros l _ Hl; exact Hl]. }
  intros [|p op v|f op v|p vs| |f] Hleaf (Hl & Hp & Hty & Hc & Hpt); try done; cbn [structured plain typedArray typed collected] in *.
  - rewrite desugar_leaf by done. destruct Hl as [Hq Hl]. cbn [prepareDesugared every].
    pose proof (accepted_path p Hq) as (r & hops & -> & Hr & Hparse).
    rewrite normalise_leader, list_elem_of_filter in Hc. destruct (Hc ltac:(done)) as [Hk _].
    pose proof (validateLeaf_named op v Hl) as Hop. apply firstOf_None in Hl as [_ [_ Ha]%firstOf_None].
    by eapply (simple_runs fm ("$." +:+ r)).
  - rewrite desugar_leaf by done. cbn [prepareDesugared every].
    pose proof (validateLeaf_named op v Hl) as Hop. apply firstOf_None in Hl as [_ [_ Ha]%firstOf_None].
    by apply lifecycle_runs.
  - destruct Hl as [Hq Hvs]. pose proof (desugar_array p vs Hq) as Hd.
    assert (ValidateConditionJSONPath p = None) as Hq' by (unfold ValidateArrayClauseJSONPath in Hq; by case_match).
    pose proof (accepted_path p Hq') as (r & hops & -> & Hr & Hparse).
    rewrite normalise_leader, list_elem_of_filter in Hc. destruct (Hc ltac:(done)) as [Hk _].
    eapply every_impl; [exact (every_and _ _ _ _ _ Hd Hty)|by intros op k [Hg _]|].
    intros l _ [(q & v & -> & Hv & Hn & Hqq & Hcq) Htq]. cbn [prepareDesugared typed] in *.
    eapply (simple_runs fm ("$." +:+ r)); try done; [apply named_equals| |by rewrite equals_named].
    intros _. specialize (Hp v). by destruct v; try done; edestruct Hp.
Qed.

(** A condition the search boundary accepts in full (structure, field paths,
    patterns and operand types), with one operand per comparison, is one the
    in-process evaluator can run: preparing it against the same fields succeeds. *)
Lemma accepted_condition_prepares fm cond :
  canonicalFields fm → typedFields fm → every anyGroup plain cond →
  ValidateCondition cond = None → FindUnknownFieldPaths cond fm = [] →
  ValidatePatterns cond = None → ValidateConditionValueTypes fm cond = None →
  ∃ prepared, Prepare cond (Some (typesOf fm)) = inr prepared.
Proof.
  unfold ValidateCondition, ValidateConditionValueTypes, Prepare. intros Hcan Htf Hpl Hs Hu Hpat Ht.
  eapply prepare_every_ok; [exact (accepted_runs fm cond 0 _ Hcan Htf Hpl Hs Hu Hpat Ht)|].
  by intros l _ Hl.
Qed.
End Accepted.

(** ** The meaning of a prepared condition *)

Section Meaning.
Context {K : Kernel}.
Variables (ft : FieldTypes) (data : string) (meta : EntityMeta).

(** A leaf holds when some value its path addresses satisfies it. *)
Fixpoint sat (c : Condition) : Prop :=
  match c with
  | SimpleCondition p op v =>
      ∃ exp hops r, leafNode op v (match ft with Some f => f (fieldMapKey p) | None => [] end) = inr exp ∧
        ParseFilterPath (stripLeader p) = inr hops ∧ r ∈ ResolvePath data hops ∧ EvalLeaf exp r = true
  | LifecycleCondition f op v =>
      let field := canonicalMetaField f in
      if decide (field ∈ ["creationDate"; "lastUpdateTime"])
      then IsTemporalOperator op = true ∧ ∃ exp, leafNode op v [DZonedDateTime] = inr exp ∧
             EvalLeaf exp (metaTemporalResult field meta) = true
      else ∃ exp, leafNode op v [DString] = inr exp ∧ EvalLeaf exp (metaStringResult field meta) = true
  | GroupCondition op cs =>
      let all := (fix go l := match l with [] => True | c :: l => sat c ∧ go l end) cs in
      let some := (fix go l := match l with [] => False | c :: l => sat c ∨ go l end) cs in
      if decide (op = "AND") then all else if decide (op = "OR") then some else if decide (op = "NOT") then ¬ all else False
  | _ => False
  end.

Lemma sat_and cs : sat (GroupCondition "AND" cs) ↔ Forall sat cs.
Proof. cbn [sat]. rewrite decide_True by done. induction cs as [|c cs IH]; [done|]. rewrite Forall_cons. tauto. Qed.
Lemma sat_or cs : sat (GroupCondition "OR" cs) ↔ Exists sat cs.
Proof.
  cbn [sat]. rewrite decide_False, decide_True by done.
  induction cs as [|c cs IH]; [by rewrite Exists_nil|]. rewrite Exists_cons. tauto.
Qed.
Lemma sat_not c : sat (GroupCondition "NOT" [c]) ↔ ¬ sat c.
Proof. cbn [sat]. rewrite (decide_False (P:="NOT" = "AND")), (decide_False (P:="NOT" = "OR")), decide_True by done. tauto. Qed.

Lemma Match_leaf c n : isLeaf c → prepareDesugared c ft = inr n → Match n data meta = true ↔ sat c.
Proof.
  destruct c as [|p op v|f op v| | |]; try done; intros _; cbn [prepareDesugared sat].
  - unfold prepareSimple. destruct (leafNode _ _ _) as [|exp] eqn:El; [done|]. case_decide; [done|].
    destruct (ParseFilterPath _) as [|hops] eqn:Ep; [done|]. intros [= <-]. cbn [Match]. rewrite existsb_exists.
    split; [intros (r & Hr%list_elem_of_In & He); by exists exp, hops, r|].
    intros (exp' & hops' & r & [= <-] & [= <-] & Hr & He). exists r. by rewrite <- list_elem_of_In.
  - unfold prepareLifecycle. destruct (decide (_ ∈ ["creationDate"; "lastUpdateTime"])).
    + destruct (IsTemporalOperator op); simpl negb; cbv iota; [|intros [= <-]; by split; [|intros [??]]].
      destruct (leafNode _ _ _) as [|exp]; [done|]. intros [= <-]. cbn [Match]. naive_solver.
    + case_decide; [|done]. destruct (leafNode _ _ _) as [|exp]; [done|]. intros [= <-]. cbn [Match]. naive_solver.
Qed.

End Meaning.
