(* ===== verification/ConditionSample.v ===== *)
(** * A storage kernel for the condition boundary

    An instance of [Kernel] satisfying [KernelLaws]: the path grammar the sources
    document, run as a scanner over bytes; operands parsed against three types; the
    array clause desugared to positions.  The theorems of ConditionMatch are applied
    to a condition over it. *)

From Stdlib Require Import Ascii.
From stdpp Require Import base gmap strings list.
From S2P Require Import Prelude GoStrings Spi Schema SchemaAdmit Condition ConditionMatch.

(** ** The path scanner *)

Inductive mode : Type := MStart | MName | MOpen | MStar | MDigits (n : Z) | MClosed.
Record scan := mkScan { sc_hops : list PathHop; sc_name : string; sc_subs : list (option Z); sc_mode : mode }.

Definition digitOf (c : ascii) : option Z :=
  let n := Z.of_nat (nat_of_ascii c) in if decide (48 ≤ n ≤ 57)%Z then Some (n - 48)%Z else None.
Definition snoc (s : string) (c : ascii) : string := s +:+ String c "".

Definition scanByte (s : scan) (c : ascii) : option scan :=
  let '(mkScan hops name subs m) := s in
  let flush := mkScan (hops ++ [mkHop name subs]) "" [] MStart in
  match m with
  | MStart => if IsSegmentNameByte c then Some (mkScan hops (snoc name c) subs MName) else None
  | MName =>
      if IsSegmentNameByte c then Some (mkScan hops (snoc name c) subs MName) else
      if Ascii.eqb c "."%char then Some flush else
      if Ascii.eqb c "["%char then Some (mkScan hops name subs MOpen) else None
  | MOpen =>
      if Ascii.eqb c "*"%char then Some (mkScan hops name subs MStar) else
      match digitOf c with Some d => Some (mkScan hops name subs (MDigits d)) | None => None end
  | MStar => if Ascii.eqb c "]"%char then Some (mkScan hops name (subs ++ [None]) MClosed) else None
  | MDigits n =>
      if Ascii.eqb c "]"%char then Some (mkScan hops name (subs ++ [Some n]) MClosed) else
      match digitOf c with Some d => Some (mkScan hops name subs (MDigits (10 * n + d))) | None => None end
  | MClosed =>
      if Ascii.eqb c "."%char then Some flush else
      if Ascii.eqb c "["%char then Some (mkScan hops name subs MOpen) else None
  end.
Fixpoint scanAll (s : scan) (l : list ascii) : option scan :=
  match l with [] => Some s | c :: l => match scanByte s c with Some s' => scanAll s' l | None => None end end.
Definition finish (s : scan) : string + list PathHop :=
  match sc_mode s with
  | MName | MClosed => inr (sc_hops s ++ [mkHop (sc_name s) (sc_subs s)])
  | _ => inl "incomplete path"
  end.
Definition parsePath (r : string) : string + list PathHop :=
  if decide (r = "") then inr [] else
  match scanAll (mkScan [] "" [] MStart) (bytesOfString r) with Some s => finish s | None => inl "malformed path" end.

(** ** Operands and the array clause *)

Fixpoint decimal (fuel n : nat) : list ascii :=
  match fuel with
  | O => []
  | S fuel => (if decide (n < 10) then [] else decimal fuel (n / 10)) ++ [ascii_of_nat (48 + n mod 10)]
  end.
Fixpoint ofBytes (l : list ascii) : string := match l with [] => "" | c :: l => String c (ofBytes l) end.

(** [p] without its trailing wildcard. *)
Fixpoint cutWildcard (p : string) : option string :=
  if decide (p = "[*]") then Some "" else
  match p with EmptyString => None | String c p => String c <$> cutWildcard p end.
Definition position (stem : string) (i : nat) : string := stem +:+ "[" +:+ ofBytes (decimal (S i) i) +:+ "]".

Fixpoint desugar (c : Condition) : Condition :=
  match c with
  | GroupCondition op cs => GroupCondition op (map desugar cs)
  | ArrayCondition p vs =>
      match cutWildcard p with
      | None => c
      | Some stem =>
          GroupCondition "AND" (mjoin (imap (λ i v, match v with JNull => [] | _ => [SimpleCondition (position stem i) "EQUALS" v] end) vs))
      end
  | _ => c
  end.

Definition operandText (v : JSON) : string :=
  match v with JString s => s | JNumber s => s | JBool true => "true" | JBool false => "false" | _ => "?" end.
Definition denotes (d : DataType) (s : string) : bool :=
  match d with
  | DString => true
  | DInteger => bool_decide (s ≠ "") && allBytes (λ c, bool_decide (is_Some (digitOf c))) s
  | DZonedDateTime => match s with String c _ => bool_decide (is_Some (digitOf c)) | _ => false end
  | _ => false
  end.
Definition expand (op : FilterOp) (s : string) (vs : list string) (d : list DataType) : string + (FilterOp * list string) :=
  let ok w := existsb (λ t, denotes t w) d in
  if isRange op then
    match vs with [a; b] => if ok a && ok b then inr (op, vs) else inl "no declared type" | _ => inl "two bounds" end
  else if isParseConstrainedOp op then (if ok s then inr (op, [s]) else inl "no declared type")
  else inr (op, [s]).

Definition metaNames : list string := ["creationDate"; "lastUpdateTime"; "state"; "transitionForLatestSave"; "transactionId"; "id"].
Definition operatorNames : list string :=
  ["EQUALS"; "NOT_EQUAL"; "GREATER_THAN"; "LESS_THAN"; "GREATER_OR_EQUAL"; "LESS_OR_EQUAL"; "CONTAINS"; "STARTS_WITH";
   "ENDS_WITH"; "LIKE"; "MATCHES_PATTERN"; "IS_NULL"; "NOT_NULL"; "BETWEEN"; "BETWEEN_INCLUSIVE"; "IEQUALS"; "INOT_EQUAL";
   "ICONTAINS"; "INOT_CONTAINS"; "NOT_CONTAINS"; "ISTARTS_WITH"; "INOT_STARTS_WITH"; "NOT_STARTS_WITH"; "IENDS_WITH";
   "INOT_ENDS_WITH"; "NOT_ENDS_WITH"].

(** Rows are sets of addressed texts; a leaf compares texts for equality. *)
#[export] Instance sampleKernel : Kernel := {|
  Expansion := FilterOp * list string;
  Result := option string;
  OperatorNames := operatorNames;
  MapOperator := λ op, default FilterMatchesRegex (opNameToFilterOp op);
  ParseFilterPath := parsePath;
  NormalisePath := λ p, if decide (p = "") then p else if HasPrefix p "$" then p else "$." +:+ p;
  OperandString := operandText;
  ExpandLeaf := expand;
  ValidateLeafPattern := λ _ v, if decide (operandText v = "[") then Some "malformed pattern" else None;
  ValidateConditionPatterns := fix go c :=
    match c with
    | SimpleCondition _ op v | LifecycleCondition _ op v =>
        if isPattern (default FilterMatchesRegex (opNameToFilterOp op)) && bool_decide (operandText v = "[")
        then Some "malformed pattern" else None
    | GroupCondition _ cs => firstErr go cs
    | _ => None
    end;
  DesugarCondition := desugar;
  ResolvePath := λ data _, [Some data];
  EvalLeaf := λ exp r, match r with Some s => bool_decide (s ∈ exp.2) | None => false end;
  ResolveMetaField := λ f, if decide (f ∈ metaNames) then Some (mkMetaField f SourceMeta OrderText) else None;
  IsTemporalMetaField := λ f, bool_decide (f ∈ ["creationDate"; "lastUpdateTime"]);
  ClassifyTypesFold := λ ts fold, match ts with [] => inl "no type" | _ => inr (fold OrderText) end;
  stringResult := Some;
  timeResult := λ _, Some "time";
  absentResult := None
|}.

(** ** Laws *)

Lemma scanAll_app s l k :
  scanAll s (l ++ k) = match scanAll s l with Some s' => scanAll s' k | None => None end.
Proof. revert s. induction l as [|c l IH]; intros s; [done|]. simpl. by destruct (scanByte s c). Qed.

(** Every byte of a parsed path is a name byte, a dot or part of a subscript. *)
Lemma scanByte_plain s c s' : scanByte s c = Some s' → isSpace c = false ∧ c ≠ "'"%char ∧ c ≠ "034"%char.
Proof.
  destruct s as [h n b m]. unfold scanByte. intros Hs.
  assert (IsSegmentNameByte c = true ∨ is_Some (digitOf c) ∨ c = "."%char ∨ c = "["%char ∨ c = "*"%char ∨ c = "]"%char) as Hc.
  { destruct m; repeat (case_match; try done); eauto;
      repeat match goal with H : Ascii.eqb _ _ = true |- _ => apply Ascii.eqb_eq in H end; tauto. }
  clear Hs. destruct Hc as [Hc|[Hc|Hc]]; [| |by repeat (destruct Hc as [->|Hc]; [done|]); rewrite Hc].
  - destruct c as [[] [] [] [] [] [] [] []]; first [by vm_compute in Hc|done].
  - destruct c as [[] [] [] [] [] [] [] []]; first [by destruct Hc as [? Hc]; vm_compute in Hc|done].
Qed.
Lemma scanAll_plain s l s' c : scanAll s l = Some s' → c ∈ l → isSpace c = false ∧ c ≠ "'"%char ∧ c ≠ "034"%char.
Proof.
  revert s. induction l as [|d l IH]; intros s Hs Hc; [by apply elem_of_nil in Hc|]. simpl in Hs.
  destruct (scanByte s d) as [s1|] eqn:Ed; [|done]. apply elem_of_cons in Hc as [->|Hc]; [by eapply scanByte_plain|by eapply IH].
Qed.
Lemma parsePath_plain r hops c :
  parsePath r = inr hops → c ∈ bytesOfString r → isSpace c = false ∧ c ≠ "'"%char ∧ c ≠ "034"%char.
Proof.
  unfold parsePath. case_decide; [subst r; intros _ Hc; by apply elem_of_nil in Hc|].
  destruct (scanAll _ _) as [s|] eqn:Es; [|done]. intros _. by eapply scanAll_plain.
Qed.
Lemma parsePath_lacks r hops sub c :
  parsePath r = inr hops → c ∈ bytesOfString sub → c = "'"%char ∨ c = "034"%char → Contains r sub = false.
Proof.
  intros Hp Hc Hq. apply not_true_iff_false. intros Hs.
  destruct (parsePath_plain r hops c Hp (Contains_bytes _ _ Hs _ Hc)) as (_ & H1 & H2). tauto.
Qed.
Lemma parsePath_unquoted r hops : parsePath r = inr hops → bracketQuoted r = false.
Proof.
  intros Hp. unfold bracketQuoted. rewrite !orb_false_iff.
  repeat split;
    first [apply (parsePath_lacks r hops _ "'"%char Hp); [by_eval|by left]
          |apply (parsePath_lacks r hops _ "034"%char Hp); [by_eval|by right]].
Qed.

(** A positional subscript parses where the wildcard does, to a path with the same
    wildcard form. *)
Lemma digitOf_digit k : k < 10 → is_Some (digitOf (ascii_of_nat (48 + k))).
Proof. intros Hk. do 10 (destruct k as [|k]; [by vm_compute; eexists|]). lia. Qed.
Lemma decimal_digits fuel n : Forall (λ c, is_Some (digitOf c)) (decimal fuel n).
Proof.
  revert n. induction fuel as [|fuel IH]; intros n; [constructor|]. cbn [decimal]. apply Forall_app. split.
  - case_decide; [constructor|apply IH].
  - apply Forall_singleton, digitOf_digit, Nat.mod_upper_bound. lia.
Qed.
Lemma digit_not_special c : is_Some (digitOf c) → Ascii.eqb c "]"%char = false ∧ Ascii.eqb c "*"%char = false.
Proof.
  intros Hc. split; apply Ascii.eqb_neq; intros ->; destruct Hc as [? Hc]; by vm_compute in Hc.
Qed.
Lemma scan_digits h nm sb n l :
  Forall (λ c, is_Some (digitOf c)) l → ∃ n', scanAll (mkScan h nm sb (MDigits n)) l = Some (mkScan h nm sb (MDigits n')).
Proof.
  intros Hl. revert n. induction Hl as [|c l Hc Hl IH]; intros n; [by eexists|]. cbn [scanAll scanByte].
  destruct (digit_not_special c Hc) as [-> _]. destruct Hc as [d ->]. apply IH.
Qed.
Lemma scan_position h nm sb i :
  ∃ n, scanAll (mkScan h nm sb MOpen) (decimal (S i) i ++ ["]"%char]) = Some (mkScan h nm (sb ++ [Some n]) MClosed).
Proof.
  pose proof (decimal_digits (S i) i) as Hd. assert (decimal (S i) i ≠ []) as Hne by (cbn [decimal]; by destruct (if decide (i < 10) then [] else decimal i (i / 10))).
  destruct (decimal (S i) i) as [|c l]; [done|]. inversion Hd as [|? ? Hc Hl]; subst.
  destruct (digit_not_special c Hc) as [_ Hstar]. destruct Hc as [d Hd'].
  change ((c :: l) ++ ["]"%char]) with (c :: (l ++ ["]"%char])). cbn [scanAll scanByte]. rewrite Hstar, Hd', scanAll_app.
  destruct (scan_digits h nm sb d l Hl) as [n' ->]. by exists n'.
Qed.

Lemma cutWildcard_spec p stem : cutWildcard p = Some stem → p = stem +:+ "[*]".
Proof.
  revert stem. induction p as [|c p IH]; intros stem; cbn [cutWildcard]; [by rewrite decide_False by done|].
  case_decide as Hd; [intros [= <-]; by rewrite Hd|].
  destruct (cutWildcard p) as [q|]; [|done]. intros [= <-]. rewrite (IH q eq_refl). done.
Qed.
Lemma cutWildcard_suffix p : HasSuffix p "[*]" = true → is_Some (cutWildcard p).
Proof.
  induction p as [|c p IH]; cbn [HasSuffix cutWildcard]; [done|]. case_decide as Hd; [by eexists|].
  rewrite bool_decide_false by done. intros [q ->]%IH. by eexists.
Qed.

(** The state after a stem on which the wildcard parses takes a subscript. *)
Lemma stem_scan t hops : parsePath (t +:+ "[*]") = inr hops →
  ∃ h nm sb, scanAll (mkScan [] "" [] MStart) (bytesOfString t ++ ["["%char]) = Some (mkScan h nm sb MOpen) ∧
    hops = h ++ [mkHop nm (sb ++ [None])].
Proof.
  unfold parsePath. rewrite decide_False by (by destruct t). rewrite bytesOfString_app.
  change (bytesOfString "[*]") with (["["%char] ++ ["*"%char; "]"%char]). rewrite app_assoc, (scanAll_app _ (_ ++ _)).
  destruct (scanAll _ (bytesOfString t ++ ["["%char])) as [[h nm sb m]|] eqn:Es; [|done].
  assert (m = MOpen) as ->.
  { rewrite scanAll_app in Es. destruct (scanAll _ (bytesOfString t)) as [[h' nm' sb' m']|]; [|done].
    simpl in Es. destruct m'; simpl in Es; by simplify_eq. }
  simpl. intros [= <-]. by exists h, nm, sb.
Qed.
Lemma position_parses t hops i : parsePath (t +:+ "[*]") = inr hops →
  ∃ hops', parsePath (position t i) = inr hops' ∧ foldHopsToWildcard hops' = foldHopsToWildcard hops.
Proof.
  intros (h & nm & sb & Hs & ->)%stem_scan. destruct (scan_position h nm sb i) as [n Hn].
  exists (h ++ [mkHop nm (sb ++ [Some n])]). split.
  - unfold parsePath, position. rewrite decide_False by (by destruct t). rewrite !bytesOfString_app.
    assert (bytesOfString (ofBytes (decimal (S i) i)) = decimal (S i) i) as ->
      by (generalize (decimal (S i) i) as l; induction l as [|c l IH]; simpl; congruence).
    change (bytesOfString "[") with ["["%char]. change (bytesOfString "]") with ["]"%char].
    rewrite app_assoc, scanAll_app, Hs, Hn. done.
  - unfold foldHopsToWildcard. rewrite !fmap_app. do 2 f_equal. simpl. f_equal. unfold renderHop. simpl.
    by rewrite !length_app.
Qed.

Lemma validate_parsed r hops : r ≠ "" → parsePath r = inr hops → ValidateConditionJSONPath ("$." +:+ r) = None.
Proof.
  intros Hr Hp. unfold ValidateConditionJSONPath, validateJSONPath, jsonPathLeader. rewrite HasPrefix_app.
  cbn [negb]. change (dropBytes 2 ("$." +:+ r)) with (dropBytes (String.length "$.") ("$." +:+ r)). rewrite dropBytes_app.
  rewrite decide_False by done. rewrite (parsePath_unquoted r hops Hp). cbn [ParseFilterPath sampleKernel].
  rewrite Hp. by destruct (existsb _ hops).
Qed.
Lemma Contains_app_l s t sub : Contains t sub = true → Contains (s +:+ t) sub = true.
Proof.
  intros Ht. induction s as [|c s IH]; [done|]. change (String c s +:+ t) with (String c (s +:+ t)). cbn [Contains].
  rewrite IH. apply orb_true_r.
Qed.
Lemma canonical_parsed r hops :
  Contains r "[" = true → parsePath r = inr hops → CanonicalFieldPath ("$." +:+ r) = "$." +:+ foldHopsToWildcard hops.
Proof.
  intros Hc Hp. unfold CanonicalFieldPath. rewrite (Contains_app_l "$." r) by done. cbn [negb]. unfold jsonPathLeader.
  rewrite HasPrefix_app. change (dropBytes 2 ("$." +:+ r)) with (dropBytes (String.length "$.") ("$." +:+ r)).
  rewrite dropBytes_app. cbn [ParseFilterPath sampleKernel]. by rewrite Hp.
Qed.

Lemma position_valid p stem i :
  ValidateConditionJSONPath p = None → p = stem +:+ "[*]" →
  ValidateConditionJSONPath (position stem i) = None ∧ CanonicalFieldPath (position stem i) = CanonicalFieldPath p.
Proof.
  intros Hv ->. apply accepted_path in Hv as (r & hops & Hr & _ & Hp).
  assert (∃ t, stem = "$." +:+ t ∧ r = t +:+ "[*]") as (t & -> & ->).
  { destruct stem as [|c [|d t]]; [discriminate Hr|discriminate Hr|]. injection Hr as -> -> Hr.
    exists t. split; [done|]. exact (eq_sym Hr). }
  destruct (position_parses t hops i Hp) as (hops' & Hp' & Hf).
  change (position ("$." +:+ t) i) with ("$." +:+ position t i). split.
  - eapply validate_parsed; [|exact Hp']. unfold position. by destruct t.
  - rewrite (canonical_parsed _ hops'), Hf; [|unfold position; by apply Contains_app_l, HasPrefix_Contains|done].
    change (("$." +:+ t) +:+ "[*]") with ("$." +:+ (t +:+ "[*]")).
    symmetry. apply canonical_parsed; [by apply Contains_app_l|exact Hp].
Qed.

Lemma desugar_positions p vs : ValidateArrayClauseJSONPath p = None →
  every groupOk (λ l, ∃ q v, l = SimpleCondition q "EQUALS" v ∧ v ∈ vs ∧ v ≠ JNull ∧
    ValidateConditionJSONPath q = None ∧ CanonicalFieldPath q = CanonicalFieldPath p) (desugar (ArrayCondition p vs)).
Proof.
  unfold ValidateArrayClauseJSONPath. destruct (ValidateConditionJSONPath p) eqn:Hv; [done|].
  destruct (HasSuffix p "[*]") eqn:Hs; [|done]. intros _. cbn [desugar].
  destruct (cutWildcard_suffix p Hs) as [stem Hc]. rewrite Hc. apply cutWildcard_spec in Hc.
  apply every_group. split; [by left|]. apply Forall_forall. intros l Hl.
  apply list_elem_of_join in Hl as (ls & Hl & Hls). apply elem_of_lookup_imap in Hls as (i & v & -> & Hi).
  apply list_elem_of_lookup_2 in Hi. pose proof (position_valid p stem i Hv Hc) as [Hq Hcan].
  destruct v; try (apply list_elem_of_singleton in Hl as ->; by eexists _, _). by apply elem_of_nil in Hl.
Qed.

#[export] Instance sampleLaws : KernelLaws.
Proof.
  constructor.
  - intros op Hop. cbn [MapOperator sampleKernel]. cbn [OperatorNames sampleKernel] in Hop. unfold operatorNames in Hop.
    repeat (apply elem_of_cons in Hop as [->|Hop]; [reflexivity|]). by apply elem_of_nil in Hop.
  - intros r. reflexivity.
  - intros r hops c Hp Hc. by destruct (parsePath_plain r hops c Hp Hc).
  - intros op s vs d Hop. cbn [ExpandLeaf sampleKernel]. unfold expand. destruct op; try done; by eexists.
  - intros op s d e Hc Hr. cbn [ExpandLeaf sampleKernel]. unfold expand. rewrite Hr, Hc. simpl.
    destruct (existsb _ d); [|done]. by eexists.
  - intros op s a b d ea eb Hr. cbn [ExpandLeaf sampleKernel]. unfold expand. rewrite Hr. simpl.
    destruct (existsb (λ t, denotes t a) d); [|done]. destruct (existsb (λ t, denotes t b) d); [|done]. by eexists.
  - intros s. by eexists.
  - intros cond. cbn [ValidateConditionPatterns MapOperator ValidateLeafPattern sampleKernel].
    induction cond as [|p op v|f op v|p vs|op cs IH|f] using condition_ind; intros Hv; try done;
      try (intros Hp; rewrite Hp in Hv; case_decide as Hd; [by rewrite bool_decide_true in Hv|done]).
    apply every_group. split; [done|]. apply firstErr_None in Hv. rewrite Forall_forall in *. intros c Hc.
    by apply IH, Hv.
  - intros [| | | | |] Hl Ha; try done. by edestruct Ha.
  - intros op cs. done.
  - apply desugar_positions.
  - reflexivity.
  - intros f. cbn [ResolveMetaField sampleKernel]. case_decide; [done|by intros [??]].
  - done.
Qed.

(** ** A condition over it *)

Definition sampleFields : Fields :=
  <["$.age" := mkFieldDesc [DInteger] false]> (<["$.tags[*]" := mkFieldDesc [DString] true]> ∅).
Definition sampleCondition : Condition :=
  GroupCondition "AND"
    [SimpleCondition "$.age" "BETWEEN" (JArray [JNumber "18"; JNumber "65"]);
     ArrayCondition "$.tags[*]" [JString "red"; JNull; JString "blue"];
     GroupCondition "NOT" [SimpleCondition "$.tags[*]" "EQUALS" (JString "old")];
     LifecycleCondition "creationDate" "LESS_THAN" (JString "2026")].

Lemma noBracket_canonical p : Contains p "[" = false → CanonicalFieldPath p = p.
Proof. intros Hp. unfold CanonicalFieldPath. by rewrite Hp. Qed.
Lemma sampleFields_canonical : canonicalFields sampleFields.
Proof.
  intros k fd p Hk Hp. unfold sampleFields in Hk.
  apply lookup_insert_Some in Hk as [[<- _]|[_ Hk]]; [|apply lookup_insert_Some in Hk as [[<- _]|[_ Hk]]; [|done]].
  all: destruct Hp as [<-|Hp]; [by vm_compute|]; apply noBracket_canonical; rewrite !HasPrefix_spec in Hp.
  all: destruct Hp as [[r Hr]|[r Hr]];
    repeat (destruct p as [|? p]; [cbn in Hr; first [discriminate Hr|reflexivity]|cbn in Hr; first [discriminate Hr|injection Hr as <- Hr]]).
Qed.

Lemma sampleCondition_plain : every anyGroup plain sampleCondition.
Proof.
  unfold sampleCondition. repeat first [apply every_group; split; [done|]|apply Forall_cons; split|apply Forall_nil_2];
    cbn [every plain]; try (by intros _).
  - intros _. split; [done|]. intros Hx. repeat (apply elem_of_cons in Hx as [|Hx]; [done|]). by apply elem_of_nil in Hx.
  - intros v ws Hv ->. repeat (apply elem_of_cons in Hv as [|Hv]; [done|]). by apply elem_of_nil in Hv.
Qed.
Lemma sampleFields_typed : typedFields sampleFields.
Proof.
  intros k fd Hk. unfold sampleFields in Hk.
  apply lookup_insert_Some in Hk as [[_ <-]|[_ Hk]]; [done|apply lookup_insert_Some in Hk as [[_ <-]|[_ Hk]]; done].
Qed.

Lemma accepted_condition_prepares_witness :
  ∃ prepared, Prepare sampleCondition (Some (typesOf sampleFields)) = inr prepared.
Proof.
  apply accepted_condition_prepares;
    [exact sampleFields_canonical|exact sampleFields_typed|exact sampleCondition_plain|vm_compute; reflexivity..].
Defined.

(** An integer field compared with a text passes the structural check and is the
    evaluator's one refusal. *)
Definition mistyped : Condition := SimpleCondition "$.age" "EQUALS" (JString "old").
Lemma mistyped_parsed : parsed mistyped.
Proof. discriminate. Qed.
Lemma boundary_leaves_operands_witness :
  ValidateCondition mistyped = None ∧ ∃ why, PUnevaluableLeaf "expansion" = PUnevaluableLeaf why.
Proof.
  split; [vm_compute; reflexivity|].
  refine (boundary_leaves_operands ∅ mistyped (Some (typesOf sampleFields)) (PUnevaluableLeaf "expansion") mistyped_parsed _ _ _);
    reflexivity.
Defined.
Definition sampleMeta : EntityMeta := mkMeta "i" "t" (mkModelRef "m" "1") "S" 1 0 0 "" "" "" "" (mkPrincipal "" "") "".
