(* ===== verification/SearchBoundary.v ===== *)
(** * The search boundary: field paths, the negative cache, sort keys

    [internal/domain/search]: the cache of paths confirmed absent
    ([path_validation_cache.go]), the path check with one refresh
    ([SearchService.validateConditionPaths], [ValidateKnownPaths]), the sort keys
    ([resolveSortKeys]) and [Search] up to the store; with the page arithmetic of
    [internal/domain/pagination].  The model store is the node's caching store
    (ModelCache), whose invalidations reach the negative cache as the application
    wires it. *)

From stdpp Require Import base gmap strings list.
From S2P Require Import Prelude GoStrings Spi MemStores Schema SchemaAdmit ModelCache ModelService ModelCluster Condition ConditionMatch.
Import ModelStore.

(** ** The cache of absent paths *)

Definition pathValidationBucketMapCap : nat := 10000.

(** A bucket is a bounded set of paths; what an insertion evicts is the cache
    library's choice. *)
Class Otter := {
  otterSet : string → gset string → gset string;
  otterSet_sub : ∀ p q b, q ∈ otterSet p b → q = p ∨ q ∈ b;
  otterSet_in : ∀ p b, p ∈ otterSet p b
}.

(** [lruOrder] from the most to the least recently used. *)
Record PathValidationCache := mkPVC { buckets : gmap cacheKey (gset string); lruOrder : list cacheKey }.
Definition NewPathValidationCache : PathValidationCache := mkPVC ∅ [].

Section NegativeCache.
Context {O : Otter}.

Definition moveToFront (k : cacheKey) (l : list cacheKey) : list cacheKey := k :: filter (λ k', k' ≠ k) l.
(** Evict the least recently used bucket when the map is full. *)
Definition makeRoom (c : PathValidationCache) : PathValidationCache :=
  if decide (pathValidationBucketMapCap ≤ size (buckets c)) then
    match last (lruOrder c) with
    | Some victim => mkPVC (delete victim (buckets c)) (filter (λ k', k' ≠ victim) (lruOrder c))
    | None => c
    end
  else c.
Definition bucketLocked (k : cacheKey) (createIfMissing : bool) (c : PathValidationCache) :
    option (gset string) * PathValidationCache :=
  match buckets c !! k with
  | Some b => (Some b, mkPVC (buckets c) (moveToFront k (lruOrder c)))
  | None =>
      if negb createIfMissing then (None, c) else
      let c := makeRoom c in (Some ∅, mkPVC (<[k := ∅]> (buckets c)) (k :: lruOrder c))
  end.
Definition setBucket (k : cacheKey) (b : gset string) (c : PathValidationCache) : PathValidationCache :=
  mkPVC (<[k := b]> (buckets c)) (lruOrder c).

Definition IsAbsent (k : cacheKey) (path : string) (c : PathValidationCache) : bool * PathValidationCache :=
  match bucketLocked k false c with
  | (None, c) => (false, c)
  | (Some b, c) => (bool_decide (path ∈ b), c)
  end.
Definition MarkAbsent (k : cacheKey) (path : string) (c : PathValidationCache) : PathValidationCache :=
  match bucketLocked k true c with
  | (None, c) => c
  | (Some b, c) => setBucket k (otterSet path b) c
  end.
Definition MarkPresent (k : cacheKey) (path : string) (c : PathValidationCache) : PathValidationCache :=
  match bucketLocked k false c with
  | (None, c) => c
  | (Some b, c) => setBucket k (b ∖ {[path]}) c
  end.
Definition InvalidateRef (k : cacheKey) (c : PathValidationCache) : PathValidationCache :=
  match buckets c !! k with
  | Some _ => mkPVC (delete k (buckets c)) (filter (λ k', k' ≠ k) (lruOrder c))
  | None => c
  end.

(** ** The path check *)

Inductive pathSurface : Type := surfaceCondition | surfaceSort.
Definition namespacedCacheKey (surface : pathSurface) (path : string) : string :=
  match surface with surfaceCondition => path | surfaceSort => "sort" +:+ String Ascii.zero path end.

Inductive berr : Type :=
| BClient (code : ErrCode) (paths : list string)
| BInternal (what : string)
| BPathRefreshInfra
| BPlain (what : string).
Definition invalidPathError (paths : list string) : berr := BClient ErrCodeInvalidFieldPath paths.
Definition unknownSortFieldError (paths : list string) : berr := BClient ErrCodeInvalidFieldPath paths.

(** What the model store of a request offers: the fields of the model (nil without
    a schema), and, where there is a cache to refresh, their refresh. *)
Section Request.
Context {K : Kernel} {S : Type}.
Context (loadFieldsMap : M err S (option Fields)) (refreshFieldsMap : option (M err S (option Fields))).
(** The key of the tenant and the model. *)
Context (key : cacheKey).

Abbreviation BM := (M berr (S * option PathValidationCache)).
Definition store {A} (m : M err S A) : M berr (S * option PathValidationCache) (err + A) := λ '(s, pc),
  match m s with
  | (Ret a, s') => (Ret (inr a), (s', pc))
  | (Err e, s') => (Ret (inl e), (s', pc))
  | (Panic w, s') => (Panic w, (s', pc))
  end.
Definition onPaths (f : PathValidationCache → PathValidationCache) : M berr (S * option PathValidationCache) unit :=
  modify (λ '(s, pc), (s, f <$> pc)).

(** Looking a path up touches the recency of its bucket. *)
Fixpoint lookupAbsent (surface : pathSurface) (paths : list string) (pc : PathValidationCache) :
    list string * PathValidationCache :=
  match paths with
  | [] => ([], pc)
  | p :: paths =>
      let '(b, pc) := IsAbsent key (namespacedCacheKey surface p) pc in
      let '(out, pc) := lookupAbsent surface paths pc in
      ((if b then p :: out else out), pc)
  end.
Definition cachedAbsentPaths (surface : pathSurface) (paths : list string) : BM (list string) := λ '(s, pc),
  match pc with
  | None => (Ret [], (s, None))
  | Some pc => let '(out, pc) := lookupAbsent surface paths pc in (Ret out, (s, Some pc))
  end.
Definition markPathsAbsent (surface : pathSurface) (paths : list string) : BM unit :=
  onPaths (λ pc, foldl (λ pc p, MarkAbsent key (namespacedCacheKey surface p) pc) pc paths).
Definition markPathsPresent (surface : pathSurface) (paths : list string) : BM unit :=
  onPaths (λ pc, foldl (λ pc p, MarkPresent key (namespacedCacheKey surface p) pc) pc paths).

Definition fieldsOf (fields : option Fields) : Fields := default ∅ fields.

(** The outcome of consulting the schema, before the negative cache is told. *)
Inductive pathVerdict : Type :=
| PathsKnown (fields : option Fields)
| PathsAbsent (missing : list string)
| PathsRefused (e : berr).
Definition consultSchema (paths : list string) : BM pathVerdict :=
  loaded ← store loadFieldsMap;
  match loaded with
  | inl _ => mret (PathsRefused (BInternal "failed to load model schema for condition validation"))
  | inr fields =>
      let missing := findUnknownPaths paths (fieldsOf fields) in
      if decide (missing = []) then mret (PathsKnown fields) else
      match refreshFieldsMap with
      | None => mret (PathsAbsent missing)
      | Some refresh =>
          refreshed ← store refresh;
          match refreshed with
          | inl e => mret (PathsRefused (if decide (e = ErrNotFound) then invalidPathError missing else BPathRefreshInfra))
          | inr None => mret (PathsRefused (invalidPathError missing))
          | inr (Some freshFields) =>
              let stillMissing := findUnknownPaths missing freshFields in
              if decide (stillMissing = []) then mret (PathsKnown (Some freshFields)) else mret (PathsAbsent stillMissing)
          end
      end
  end.
Definition recordVerdict (paths : list string) (v : pathVerdict) : BM (option Fields) :=
  match v with
  | PathsKnown fields => markPathsPresent surfaceCondition paths;; mret fields
  | PathsAbsent missing => markPathsAbsent surfaceCondition missing;; fail (invalidPathError missing)
  | PathsRefused e => fail e
  end.
Definition validateConditionPaths (cond : Condition) : BM (option Fields) :=
  let paths := extractFieldPaths cond in
  if decide (paths = []) then mret None else
  cachedMissing ← cachedAbsentPaths surfaceCondition paths;
  if decide (cachedMissing ≠ []) then fail (invalidPathError cachedMissing) else
  v ← consultSchema paths;
  recordVerdict paths v.

(** The same check without the negative cache, for other callers. *)
Definition ValidateKnownPaths (paths : list string) (fields : option Fields) : BM (option Fields) :=
  if decide (paths = []) then mret fields else
  let unknown := findUnknownPaths paths (fieldsOf fields) in
  if decide (unknown = []) then mret fields else
  match refreshFieldsMap with
  | None => fail (invalidPathError unknown)
  | Some refresh =>
      refreshed ← store refresh;
      match refreshed with
      | inl e => fail (if decide (e = ErrNotFound) then invalidPathError unknown else BPathRefreshInfra)
      | inr None => fail (invalidPathError unknown)
      | inr (Some freshFields) =>
          let unknown := findUnknownPaths unknown freshFields in
          if decide (unknown = []) then mret (Some freshFields) else fail (invalidPathError unknown)
      end
  end.

(** ** Sort keys *)

Fixpoint dataSortPaths (keys : list OrderKey) (seen : list string) : list string :=
  match keys with
  | [] => []
  | k :: keys =>
      match ok_Source k with
      | SourceMeta => dataSortPaths keys seen
      | SourceData =>
          let p := NormalisePath (ok_Path k) in
          if decide (p ∈ seen) then dataSortPaths keys seen else p :: dataSortPaths keys (p :: seen)
      end
  end.
Definition normalisedDataSortPaths (keys : list OrderKey) : list string := dataSortPaths keys [].
Definition isUnknownSortField (e : cerr) : bool := match e with CUnknownSortField _ => true | _ => false end.

Definition sortRefused : berr := BClient ErrCodeInvalidFieldPath [].
Inductive sortVerdict : Type :=
| SortResolved (specs : list OrderSpec)
| SortAbsent (missing : list string)
| SortRefused (e : berr).
Definition consultSort (keys : list OrderKey) (dataPaths : list string) : BM sortVerdict :=
  loaded ← store loadFieldsMap;
  match loaded with
  | inl _ => mret (SortRefused (BPlain "failed to load schema for sort validation"))
  | inr fields =>
      match resolveOrderBy keys (fieldsOf fields) with
      | inr specs => mret (SortResolved specs)
      | inl rerr =>
          if negb (isUnknownSortField rerr) then mret (SortRefused sortRefused) else
          let missing := findUnknownSortPaths dataPaths (fieldsOf fields) in
          match refreshFieldsMap with
          | None => mret (SortAbsent missing)
          | Some refresh =>
              refreshed ← store refresh;
              match refreshed with
              | inl e => mret (SortRefused (if decide (e = ErrNotFound) then sortRefused else BPathRefreshInfra))
              | inr None => mret (SortRefused sortRefused)
              | inr (Some freshFields) =>
                  match resolveOrderBy keys freshFields with
                  | inl rerr =>
                      if isUnknownSortField rerr then mret (SortAbsent (findUnknownSortPaths missing freshFields))
                      else mret (SortRefused sortRefused)
                  | inr specs => mret (SortResolved specs)
                  end
              end
          end
      end
  end.
Definition recordSort (dataPaths : list string) (v : sortVerdict) : BM (list OrderSpec) :=
  match v with
  | SortResolved specs => markPathsPresent surfaceSort dataPaths;; mret specs
  | SortAbsent missing => markPathsAbsent surfaceSort missing;; fail sortRefused
  | SortRefused e => fail e
  end.
Definition resolveSortKeys (maxSortKeys : Z) (keys : list OrderKey) : BM (list OrderSpec) :=
  if decide (keys = []) then mret [] else
  let effMax := if decide (maxSortKeys ≤ 0)%Z then 16%Z else maxSortKeys in
  match capAndDedupOrderKeys keys effMax with
  | inl _ => fail sortRefused
  | inr keys =>
      let dataPaths := normalisedDataSortPaths keys in
      cachedMissing ← cachedAbsentPaths surfaceSort dataPaths;
      if decide (cachedMissing ≠ []) then fail (unknownSortFieldError cachedMissing) else
      v ← consultSort keys dataPaths;
      recordSort dataPaths v
  end.
End Request.
End NegativeCache.

(** ** The check on a node *)

Section Node.
Context `{SchemaSPI} {PC : PayloadCodec} {K : Kernel} {O : Otter}.
Context (FieldsMap : ModelNode → Fields).

Abbreviation NS := (CS * option PathValidationCache)%type.

Section Request.
Context (now : Time) (lease : Z) (tenant : string) (ref : ModelRef).

(** [loadFieldsMap] and [refreshFieldsMap] on the caching store. *)
Definition nodeLoad : M err CS (option Fields) :=
  r ← SchemaNode now lease tenant ref;
  match r with
  | inl _ => fail (ErrText "failed to unmarshal model schema")
  | inr None => mret None
  | inr (Some node) => mret (Some (FieldsMap node))
  end.
Definition nodeRefresh : M err CS (option Fields) := RefreshAndGet now lease tenant ref;; nodeLoad.

Definition nodePaths (cond : Condition) : M berr NS (option Fields) :=
  validateConditionPaths nodeLoad (Some nodeRefresh) (tenant, ref) cond.
Definition nodeSort (maxSortKeys : Z) (keys : list OrderKey) : M berr NS (list OrderSpec) :=
  resolveSortKeys nodeLoad (Some nodeRefresh) (tenant, ref) maxSortKeys keys.

(** The type check reads the schema only for a condition on data paths. *)
Definition validateConditionTypes (cond : Condition) : M berr NS unit :=
  fields ← (if decide (extractFieldPaths cond = []) then mret None else
            loaded ← store nodeLoad;
            match loaded with
            | inl _ => fail (BInternal "failed to load model schema for condition type validation")
            | inr fields => mret fields
            end);
  match ValidateConditionValueTypes (fieldsOf fields) cond with
  | Some e => fail (BClient (classifyConditionTypeErrCode e) [])
  | None => mret tt
  end.
End Request.

(** A call on the model store of a node whose invalidations the negative cache
    hears. *)
Definition heard {A} (m : CM A) : M err NS A := λ '(s, pc),
  let '(r, s') := m s in
  (r, (s', (λ pc, foldl (flip InvalidateRef) pc (drop (length (c_notified s.2)) (c_notified s'.2))) <$> pc)).

(** *** The fields of a stored model *)

Definition fieldsAt (d : Models) (k : cacheKey) : err + option Fields :=
  match lookupModel d k.1 k.2 with
  | None => inl ErrNotFound
  | Some desc => match parseSchemaNode desc with
                 | inl _ => inl (ErrText "failed to unmarshal model schema")
                 | inr None => inr None
                 | inr (Some node) => inr (Some (FieldsMap node))
                 end
  end.
Definition outcomeOf {A} (r : err + A) : outcome err A := match r with inl e => Err e | inr a => Ret a end.

Lemma nodeLoad_run now lease tenant ref s : coherent s →
  ∃ s', nodeLoad now lease tenant ref s = (outcomeOf (fieldsAt s.1 (tenant, ref)), s') ∧ s'.1 = s.1 ∧ coherent s'.
Proof.
  intros Hs. unfold nodeLoad. rewrite run_bind.
  destruct (agrees_schemaNode now lease tenant ref s Hs) as (H1 & H2 & H3).
  destruct (SchemaNode now lease tenant ref s) as [r s']. simpl in *. rewrite run_bind, modelGet_run in H1, H2. unfold fieldsAt.
  simpl. destruct (lookupModel s.1 tenant ref) as [desc|]; simpl in *; subst r; [|by exists s'].
  destruct (parseSchemaNode desc) as [|[node|]]; mrun; by exists s'.
Qed.
Lemma nodeRefresh_run now lease tenant ref s : coherent s →
  ∃ s', nodeRefresh now lease tenant ref s = (outcomeOf (fieldsAt s.1 (tenant, ref)), s') ∧ s'.1 = s.1 ∧ coherent s'.
Proof.
  intros Hs. unfold nodeRefresh. rewrite run_bind.
  destruct (agrees_refresh now lease tenant ref s Hs) as (H1 & H2 & H3). rewrite modelGet_run in H1, H2.
  destruct (RefreshAndGet now lease tenant ref s) as [r s']. simpl in *.
  destruct (lookupModel s.1 tenant ref) as [desc|] eqn:Hd; simpl in *; subst r.
  - rewrite <- H2. by apply nodeLoad_run.
  - exists s'. unfold fieldsAt. simpl. by rewrite Hd.
Qed.

(** *** What the negative cache holds *)

Definition absentIn (pc : PathValidationCache) (k : cacheKey) (x : string) : Prop :=
  ∃ b, buckets pc !! k = Some b ∧ x ∈ b.

Lemma IsAbsent_buckets k x pc : buckets (IsAbsent k x pc).2 = buckets pc.
Proof. unfold IsAbsent, bucketLocked. by destruct (buckets pc !! k). Qed.
Lemma IsAbsent_spec k x pc : (IsAbsent k x pc).1 = true ↔ absentIn pc k x.
Proof.
  unfold IsAbsent, bucketLocked, absentIn. destruct (buckets pc !! k) as [b|]; simpl.
  - rewrite bool_decide_eq_true. naive_solver.
  - naive_solver.
Qed.
Lemma makeRoom_sub pc k b : buckets (makeRoom pc) !! k = Some b → buckets pc !! k = Some b.
Proof.
  unfold makeRoom. case_decide; [|done]. destruct (last _); [|done]. simpl. by intros [_ ?]%lookup_delete_Some.
Qed.
Lemma MarkAbsent_absent k p pc k' x :
  absentIn (MarkAbsent k p pc) k' x → (k' = k ∧ x = p) ∨ absentIn pc k' x.
Proof.
  unfold MarkAbsent, bucketLocked, absentIn. intros (b & Hb & Hx).
  destruct (buckets pc !! k) as [b0|] eqn:E; simpl in Hb; apply lookup_insert_Some in Hb as [[<- <-]|[Hk Hb]].
  - destruct (otterSet_sub p x b0 Hx); eauto.
  - eauto.
  - destruct (otterSet_sub p x ∅ Hx); set_solver.
  - rewrite lookup_insert_ne in Hb by done. apply makeRoom_sub in Hb. eauto.
Qed.
Lemma MarkPresent_absent k p pc k' x : absentIn (MarkPresent k p pc) k' x → absentIn pc k' x.
Proof.
  unfold MarkPresent, bucketLocked, absentIn. intros (b & Hb & Hx).
  destruct (buckets pc !! k) as [b0|] eqn:E; simpl in Hb; [|eauto].
  apply lookup_insert_Some in Hb as [[<- <-]|[Hk Hb]]; [|eauto]. exists b0. set_solver.
Qed.
Lemma InvalidateRef_absent k pc k' x : absentIn (InvalidateRef k pc) k' x → k' ≠ k ∧ absentIn pc k' x.
Proof.
  unfold InvalidateRef, absentIn. intros (b & Hb & Hx). destruct (buckets pc !! k) as [b0|] eqn:E; simpl in Hb.
  - apply lookup_delete_Some in Hb as [? Hb]. split; [done|eauto].
  - split; [congruence|eauto].
Qed.

(** Each entry is a path its model does not declare. *)
Definition sound (d : Models) (pc : PathValidationCache) : Prop := ∀ k x, absentIn pc k x →
  (HasPrefix x "$" = true → ∃ fm, fieldsAt d k = inr (Some fm) ∧ isPathKnown x fm = false) ∧
  (∀ q, x = namespacedCacheKey surfaceSort q → ∃ fm, fieldsAt d k = inr (Some fm) ∧ isSortPathKnown q fm = false).

Lemma sound_absent d pc k p : sound d pc →
  (HasPrefix p "$" = true → ∃ fm, fieldsAt d k = inr (Some fm) ∧ isPathKnown p fm = false) →
  (∀ q, p = namespacedCacheKey surfaceSort q → ∃ fm, fieldsAt d k = inr (Some fm) ∧ isSortPathKnown q fm = false) →
  sound d (MarkAbsent k p pc).
Proof. intros Hs Hc Hq k' x [[-> ->]|Hx]%MarkAbsent_absent; [done|by apply Hs]. Qed.
Lemma sound_absent_all d pc k surface ps fm : sound d pc → fieldsAt d k = inr (Some fm) →
  Forall (λ p, match surface with
               | surfaceCondition => HasPrefix p "$" = true ∧ isPathKnown p fm = false
               | surfaceSort => isSortPathKnown p fm = false
               end) ps →
  sound d (foldl (λ pc p, MarkAbsent k (namespacedCacheKey surface p) pc) pc ps).
Proof.
  intros Hs Hf Hps. revert pc Hs. induction Hps as [|p ps Hp _ IH]; intros pc Hs; [done|]. simpl. apply IH.
  apply sound_absent; [done|..]; destruct surface; simpl.
  - intros _. exists fm. tauto.
  - done.
  - intros q ->. destruct Hp as [Hp _]. by vm_compute in Hp.
  - intros q [= <-]. by exists fm.
Qed.
Lemma sound_present_all d pc k surface ps :
  sound d pc → sound d (foldl (λ pc p, MarkPresent k (namespacedCacheKey surface p) pc) pc ps).
Proof.
  revert pc. induction ps as [|p ps IH]; intros pc Hs; [done|]. simpl. apply IH.
  intros k' x Hx%MarkPresent_absent. by apply Hs.
Qed.

Lemma lookupAbsent_spec k surface ps pc :
  (∀ p, p ∈ (lookupAbsent k surface ps pc).1 ↔ p ∈ ps ∧ absentIn pc k (namespacedCacheKey surface p)) ∧
  buckets (lookupAbsent k surface ps pc).2 = buckets pc.
Proof.
  revert pc. induction ps as [|p ps IH]; intros pc; [split; [set_solver|done]|]. cbn [lookupAbsent].
  pose proof (IsAbsent_spec k (namespacedCacheKey surface p) pc) as Hp.
  pose proof (IsAbsent_buckets k (namespacedCacheKey surface p) pc) as Hb.
  destruct (IsAbsent k (namespacedCacheKey surface p) pc) as [b pc1]. simpl in Hp, Hb. specialize (IH pc1) as [IH IHb].
  destruct (lookupAbsent k surface ps pc1) as [out pc2]. simpl in *. split; [|congruence].
  assert (∀ x, absentIn pc1 k x ↔ absentIn pc k x) as Heq by (intros x; unfold absentIn; by rewrite Hb).
  intros q. destruct b; rewrite ?elem_of_cons, IH, Heq; [naive_solver|]. split; [naive_solver|].
  intros [[->|] Ha]; [|done]. apply Hp in Ha. done.
Qed.

(** *** The check with and without the negative cache *)

(** Two nodes on one store: the first keeps a negative cache, the second none. *)
Definition beside (n1 n2 : NS) : Prop := ∃ s1 pc s2,
  n1 = (s1, Some pc) ∧ n2 = (s2, None) ∧ coherent s1 ∧ coherent s2 ∧ s1.1 = s2.1 ∧ sound s1.1 pc.
(** The same answer; a refusal may name other paths. *)
Definition sameAnswer {A} (x y : outcome berr A) : Prop :=
  match x, y with
  | Err (BClient c _), Err (BClient c' _) => c = c'
  | _, _ => x = y
  end.
Lemma sameAnswer_refl {A} (x : outcome berr A) : sameAnswer x x.
Proof. by destruct x as [|[]|]. Qed.

Definition specPaths (d : Models) (k : cacheKey) (paths : list string) : pathVerdict :=
  match fieldsAt d k with
  | inl _ => PathsRefused (BInternal "failed to load model schema for condition validation")
  | inr fields =>
      let missing := findUnknownPaths paths (fieldsOf fields) in
      if decide (missing = []) then PathsKnown fields else
      match fields with None => PathsRefused (invalidPathError missing) | Some _ => PathsAbsent missing end
  end.
Lemma findUnknownPaths_idem ps fm : findUnknownPaths (findUnknownPaths ps fm) fm = findUnknownPaths ps fm.
Proof. unfold findUnknownPaths. rewrite list_filter_filter. apply list_filter_iff. tauto. Qed.

Lemma consult_run now lease tenant ref paths s pc : coherent s →
  ∃ s', consultSchema (nodeLoad now lease tenant ref) (Some (nodeRefresh now lease tenant ref)) paths (s, pc) =
          (Ret (specPaths s.1 (tenant, ref) paths), (s', pc)) ∧ s'.1 = s.1 ∧ coherent s'.
Proof.
  intros Hs. unfold consultSchema, specPaths. rewrite run_bind. unfold store at 1.
  destruct (nodeLoad_run now lease tenant ref s Hs) as (s1 & -> & E1 & Hs1).
  destruct (fieldsAt s.1 (tenant, ref)) as [e|fields] eqn:Hf; simpl outcomeOf; cbv iota; [by exists s1|].
  case_decide; [by exists s1|]. rewrite run_bind. unfold store.
  destruct (nodeRefresh_run now lease tenant ref s1 Hs1) as (s2 & -> & E2 & Hs2). rewrite E1, Hf.
  destruct fields as [fm|]; simpl outcomeOf; cbv iota; [|exists s2; rewrite E2; done].
  simpl fieldsOf in *. rewrite findUnknownPaths_idem, decide_False by done. exists s2. by rewrite E2.
Qed.

Lemma cached_run k surface ps (s : CS) pc :
  ∃ out pc', cachedAbsentPaths k surface ps (s, Some pc) = (Ret out, (s, Some pc')) ∧ buckets pc' = buckets pc ∧
    ∀ p, p ∈ out ↔ p ∈ ps ∧ absentIn pc k (namespacedCacheKey surface p).
Proof.
  unfold cachedAbsentPaths. destruct (lookupAbsent_spec k surface ps pc) as [Hout Hb].
  destruct (lookupAbsent k surface ps pc) as [out pc']. by exists out, pc'.
Qed.
Lemma sound_buckets d pc pc' : buckets pc' = buckets pc → sound d pc → sound d pc'.
Proof. intros Hb Hs k x. unfold absentIn. rewrite Hb. apply Hs. Qed.

Definition wired (cond : Condition) : Prop := Forall (λ p, HasPrefix p "$" = true) (extractFieldPaths cond).

Lemma record_same (s1 s2 : CS) pc k paths v :
  coherent s1 → coherent s2 → s1.1 = s2.1 → sound s1.1 pc → Forall (λ p, HasPrefix p "$" = true) paths →
  v = specPaths s1.1 k paths →
  sameAnswer (recordVerdict k paths v (s1, Some pc)).1 (recordVerdict k paths v (s2, None)).1 ∧
  beside (recordVerdict k paths v (s1, Some pc)).2 (recordVerdict k paths v (s2, None)).2.
Proof.
  intros H1 H2 Heq Hs Hw Hv. unfold recordVerdict, markPathsPresent, markPathsAbsent, onPaths.
  destruct v as [f|missing|e]; mrun; (split; [apply sameAnswer_refl|]).
  - eexists s1, _, s2. split_and!; try done. by apply sound_present_all.
  - eexists s1, _, s2. split_and!; try done. unfold specPaths in Hv.
    destruct (fieldsAt s1.1 k) as [|[fm|]] eqn:Hf; [done| |by case_decide].
    apply (sound_absent_all _ _ k surfaceCondition _ fm); [done..|].
    case_decide; [done|]. injection Hv as ->. apply Forall_forall. intros p [Hp Hin]%list_elem_of_filter.
    rewrite Forall_forall in Hw. by split; [apply Hw|].
  - by eexists s1, _, s2.
Qed.

Lemma paths_same now lease tenant ref cond n1 n2 : wired cond → beside n1 n2 →
  sameAnswer (nodePaths now lease tenant ref cond n1).1 (nodePaths now lease tenant ref cond n2).1 ∧
  beside (nodePaths now lease tenant ref cond n1).2 (nodePaths now lease tenant ref cond n2).2.
Proof.
  intros Hw (s1 & pc & s2 & -> & -> & H1 & H2 & Heq & Hs). unfold nodePaths, validateConditionPaths.
  case_decide as Hps; [split; [done|by eexists _, _, _]|]. rewrite !(run_bind (cachedAbsentPaths _ _ _)).
  destruct (cached_run (tenant, ref) surfaceCondition (extractFieldPaths cond) s1 pc) as (out & pc' & -> & Hb & Hout).
  cbv beta iota. unfold cachedAbsentPaths. rewrite (decide_False (P:=[] ≠ [])) by tauto. apply (sound_buckets _ _ _ Hb) in Hs as Hs'.
  destruct (consult_run now lease tenant ref (extractFieldPaths cond) s2 None H2) as (t2 & E2 & Et2 & Ht2).
  case_decide as Ho.
  - rewrite !run_bind, E2, <- Heq. destruct out as [|p out]; [done|].
    destruct (Hout p) as [[Hp Ha] _]; [by left|]. destruct (Hs _ _ Ha) as [Hc _].
    unfold wired in Hw. rewrite Forall_forall in Hw. destruct (Hc (Hw p Hp)) as (fm & Hf & Hk).
    unfold specPaths. rewrite Hf. cbv zeta. simpl fieldsOf. rewrite decide_False.
    2: { intros Hnil. assert (p ∈ findUnknownPaths (extractFieldPaths cond) fm) as Hin by (by apply list_elem_of_filter).
         rewrite Hnil in Hin. by apply elem_of_nil in Hin. }
    split; [done|]. eexists s1, pc', t2. split_and!; try done. by rewrite Et2.
  - rewrite !run_bind, E2.
    destruct (consult_run now lease tenant ref (extractFieldPaths cond) s1 (Some pc') H1) as (t1 & -> & Et1 & Ht1).
    rewrite <- Heq. apply record_same; try done; [congruence|by rewrite Et1|by rewrite Et1].
Qed.

(** *** Sort keys with and without the negative cache *)

Definition specSort (d : Models) (k : cacheKey) (keys : list OrderKey) (dataPaths : list string) : sortVerdict :=
  match fieldsAt d k with
  | inl _ => SortRefused (BPlain "failed to load schema for sort validation")
  | inr fields =>
      match resolveOrderBy keys (fieldsOf fields), fields with
      | inr specs, _ => SortResolved specs
      | inl rerr, Some fm => if isUnknownSortField rerr then SortAbsent (findUnknownSortPaths dataPaths fm) else SortRefused sortRefused
      | inl rerr, None => SortRefused sortRefused
      end
  end.
Lemma findUnknownSortPaths_idem ps fm : findUnknownSortPaths (findUnknownSortPaths ps fm) fm = findUnknownSortPaths ps fm.
Proof. unfold findUnknownSortPaths. rewrite list_filter_filter. apply list_filter_iff. tauto. Qed.

Lemma consultSort_run now lease tenant ref keys dataPaths s pc : coherent s →
  ∃ s', consultSort (nodeLoad now lease tenant ref) (Some (nodeRefresh now lease tenant ref)) keys dataPaths (s, pc) =
          (Ret (specSort s.1 (tenant, ref) keys dataPaths), (s', pc)) ∧ s'.1 = s.1 ∧ coherent s'.
Proof.
  intros Hs. unfold consultSort, specSort. rewrite run_bind. unfold store at 1.
  destruct (nodeLoad_run now lease tenant ref s Hs) as (s1 & -> & E1 & Hs1).
  destruct (fieldsAt s.1 (tenant, ref)) as [e|fields] eqn:Hf; simpl outcomeOf; cbv iota; [by exists s1|].
  destruct (resolveOrderBy keys (fieldsOf fields)) as [rerr|specs] eqn:Hr; [|by exists s1].
  destruct (isUnknownSortField rerr) eqn:Hu; cbn [negb]; [|exists s1; by destruct fields].
  rewrite run_bind. unfold store.
  destruct (nodeRefresh_run now lease tenant ref s1 Hs1) as (s2 & -> & E2 & Hs2). rewrite E1, Hf.
  destruct fields as [fm|]; simpl outcomeOf; cbv iota; [|exists s2; by rewrite E2].
  simpl fieldsOf in *. rewrite Hr, Hu, findUnknownSortPaths_idem. exists s2. by rewrite E2.
Qed.

Lemma recordSort_same (s1 s2 : CS) pc k keys dataPaths v :
  coherent s1 → coherent s2 → s1.1 = s2.1 → sound s1.1 pc → v = specSort s1.1 k keys dataPaths →
  sameAnswer (recordSort k dataPaths v (s1, Some pc)).1 (recordSort k dataPaths v (s2, None)).1 ∧
  beside (recordSort k dataPaths v (s1, Some pc)).2 (recordSort k dataPaths v (s2, None)).2.
Proof.
  intros H1 H2 Heq Hs Hv. unfold recordSort, markPathsPresent, markPathsAbsent, onPaths.
  destruct v as [specs|missing|e]; mrun; (split; [apply sameAnswer_refl|]).
  - eexists s1, _, s2. split_and!; try done. by apply sound_present_all.
  - eexists s1, _, s2. split_and!; try done. unfold specSort in Hv.
    destruct (fieldsAt s1.1 k) as [|[fm|]] eqn:Hf; [done| |by case_match].
    apply (sound_absent_all _ _ k surfaceSort _ fm); [done..|].
    case_match; [|done]. case_match; [|done]. injection Hv as ->. apply Forall_forall. by intros p [Hp _]%list_elem_of_filter.
  - by eexists s1, _, s2.
Qed.

(** A data key outside the fields is refused. *)
Lemma resolveOrderBy_unknown keys seen fm q :
  q ∈ dataSortPaths keys seen → isSortPathKnown q fm = false → ∃ e, resolveOrderBy keys fm = inl e.
Proof.
  intros Hq Hk. assert (fm !! q = None) as Hn.
  { unfold isSortPathKnown in Hk. apply orb_false_iff in Hk as [Hk _]. apply bool_decide_eq_false in Hk. by apply eq_None_not_Some. }
  clear Hk. revert seen Hq. induction keys as [|k keys IH]; intros seen Hq; [by apply elem_of_nil in Hq|].
  cbn [dataSortPaths resolveOrderBy] in *. destruct (resolveOrderKey fm k) as [e|sp] eqn:Hr; [by exists e|].
  assert (∃ seen', q ∈ dataSortPaths keys seen') as [seen' Hq'].
  { destruct (ok_Source k) eqn:Hsrc; [|by exists seen]. case_decide; [by exists seen|].
    apply elem_of_cons in Hq as [->|Hq]; [|by eexists]. exfalso. unfold resolveOrderKey in Hr. rewrite Hsrc, Hn in Hr.
    by destruct (ValidateScalarJSONPath _). }
  destruct (IH seen' Hq') as [e ->]. by exists e.
Qed.

Lemma sort_same now lease tenant ref m keys n1 n2 : beside n1 n2 →
  sameAnswer (nodeSort now lease tenant ref m keys n1).1 (nodeSort now lease tenant ref m keys n2).1 ∧
  beside (nodeSort now lease tenant ref m keys n1).2 (nodeSort now lease tenant ref m keys n2).2.
Proof.
  intros (s1 & pc & s2 & -> & -> & H1 & H2 & Heq & Hs). unfold nodeSort, resolveSortKeys.
  case_decide as Hks; [split; [done|by eexists _, _, _]|].
  destruct (capAndDedupOrderKeys keys _) as [e|keys']; [split; [done|by eexists _, _, _]|]. cbv zeta.
  rewrite !(run_bind (cachedAbsentPaths _ _ _)).
  destruct (cached_run (tenant, ref) surfaceSort (normalisedDataSortPaths keys') s1 pc) as (out & pc' & -> & Hb & Hout).
  cbv beta iota. unfold cachedAbsentPaths. rewrite (decide_False (P:=[] ≠ [])) by tauto. apply (sound_buckets _ _ _ Hb) in Hs as Hs'.
  destruct (consultSort_run now lease tenant ref keys' (normalisedDataSortPaths keys') s2 None H2) as (t2 & E2 & Et2 & Ht2).
  case_decide as Ho.
  - rewrite !run_bind, E2, <- Heq. destruct out as [|p out]; [done|].
    destruct (Hout p) as [[Hp Ha] _]; [by left|]. destruct (Hs _ _ Ha) as [_ Hc].
    destruct (Hc p eq_refl) as (fm & Hf & Hk). unfold specSort. rewrite Hf. simpl fieldsOf.
    destruct (resolveOrderBy_unknown keys' [] fm p Hp Hk) as [e ->].
    split; [by destruct (isUnknownSortField e)|]. eexists s1, pc', t2.
    split_and!; try done; [by destruct (isUnknownSortField e)|by rewrite Et2].
  - rewrite !run_bind, E2.
    destruct (consultSort_run now lease tenant ref keys' (normalisedDataSortPaths keys') s1 (Some pc') H1) as (t1 & -> & Et1 & Ht1).
    rewrite <- Heq. eapply recordSort_same; try done; [congruence|by rewrite Et1|by rewrite Et1].
Qed.

(** *** Calls on the model store *)

(** A call tells the subscribers of the one model it changed. *)
Definition hears (s s' : CS) : Prop :=
  (s'.1 = s.1 ∧ c_notified s'.2 = c_notified s.2) ∨
  (∃ k, c_notified s'.2 = c_notified s.2 ++ [k] ∧ ∀ t r, (t, r) ≠ k → lookupModel s'.1 t r = lookupModel s.1 t r).

Lemma hears_mutate b tenant ref m s : touches tenant ref m → hears s (mutate b tenant ref m s).2.
Proof.
  intros Hm. destruct s as [d c]. specialize (Hm d). unfold mutate. rewrite run_bind. unfold inner_. simpl.
  destruct (m d) as [[[]|e|w] d']; simpl; [|by left; subst..]. right. exists (tenant, ref). split; [|done].
  unfold onCache. mrun. simpl. unfold invalidate. destruct b; [|done]. by destruct (EncodeInvalidation _ _).
Qed.
Lemma hears_answer {A} (f : A → Answer) (m : CM A) s : hears s (m s).2 → hears s (answer f m s).2.
Proof. intros Hm. unfold answer. rewrite run_bind. by destruct (m s) as [[]]. Qed.
Definition quiet {A} (m : CM A) : Prop := ∀ s, (m s).2.1 = s.1 ∧ c_notified (m s).2.2 = c_notified s.2.
Lemma quiet_get now lease tenant ref : quiet (Get now lease tenant ref).
Proof.
  intros [d c]. unfold Get. mrun. simpl. destruct (lookup_ _ _ _); [done|]. rewrite run_bind. unfold inner_. simpl.
  rewrite modelGet_run. destruct (lookupModel d tenant ref); simpl; [|done]. by case_decide.
Qed.
Lemma quiet_refresh now lease tenant ref : quiet (RefreshAndGet now lease tenant ref).
Proof.
  intros [d c]. unfold RefreshAndGet, onCache. mrun. rewrite run_bind. unfold inner_. simpl. rewrite modelGet_run.
  destruct (lookupModel d tenant ref); simpl; [|done]. by case_decide.
Qed.
Lemma quiet_schemaNode now lease tenant ref : quiet (SchemaNode now lease tenant ref).
Proof.
  intros s. unfold SchemaNode. mrun. destruct (lookupEntry _ _ _); [done|]. rewrite run_bind.
  pose proof (quiet_get now lease tenant ref s) as Hq. destruct (Get now lease tenant ref s) as [[desc|e|w] s1]; [|done..].
  mrun. by destruct (lookupEntry _ _ s1.2).
Qed.
Lemma quiet_inner {A} (m : DM A) : (∀ d, (m d).2 = d) → quiet (inner_ m).
Proof. intros Hm [d c]. specialize (Hm d). unfold inner_. by destruct (m d). Qed.

Lemma cached_hears now lease b tenant c s : hears s (cached now lease b tenant c s).2.
Proof.
  destruct c; apply hears_answer; try (apply hears_mutate;
    first [apply touches_set | apply touches_update | apply touches_delete | apply touches_extend]); left.
  - apply quiet_get.
  - apply quiet_schemaNode.
  - apply quiet_refresh.
  - by apply quiet_inner.
  - apply quiet_inner. intros d. unfold IsLocked. mrun. by destruct (lookupModel d tenant ref).
Qed.

Lemma sound_heard s s' pc : hears s s' → sound s.1 pc →
  sound s'.1 (foldl (flip InvalidateRef) pc (drop (length (c_notified s.2)) (c_notified s'.2))).
Proof.
  intros [[Hd Hn]|(k & Hn & Hd)] Hs; rewrite Hn.
  - rewrite drop_all. by rewrite Hd.
  - rewrite drop_app_length. simpl. intros [t r] x [Hk Hx]%InvalidateRef_absent. unfold fieldsAt.
    simpl. rewrite Hd by done. by apply (Hs (t, r)).
Qed.

Lemma heard_same now lease b tenant c n1 n2 : beside n1 n2 →
  (heard (cached now lease b tenant c) n1).1 = (heard (cached now lease b tenant c) n2).1 ∧
  beside (heard (cached now lease b tenant c) n1).2 (heard (cached now lease b tenant c) n2).2.
Proof.
  intros (s1 & pc & s2 & -> & -> & H1 & H2 & Heq & Hs). unfold heard.
  destruct (agrees_call now lease b tenant c s1 H1) as (A1 & B1 & C1).
  destruct (agrees_call now lease b tenant c s2 H2) as (A2 & B2 & C2).
  pose proof (cached_hears now lease b tenant c s1) as Hh.
  destruct (cached now lease b tenant c s1) as [r1 t1]. destruct (cached now lease b tenant c s2) as [r2 t2]. simpl in *.
  rewrite <- Heq in A2, B2. split; [congruence|]. eexists t1, _, t2. split_and!; try done; [congruence|].
  by apply sound_heard.
Qed.

(** ** A node serving searches and model changes *)

Inductive Event : Type :=
| EvPaths (now : Time) (lease : Z) (tenant : string) (ref : ModelRef) (cond : Condition)
| EvSort (now : Time) (lease : Z) (tenant : string) (ref : ModelRef) (maxSortKeys : Z) (keys : list OrderKey)
| EvModel (r : Request).
Inductive Reply : Type :=
| RFields (f : outcome berr (option Fields)) | RSpecs (l : outcome berr (list OrderSpec)) | RModel (a : outcome err Answer).
Definition serveEvent (b : bool) (ev : Event) (n : NS) : Reply * NS :=
  match ev with
  | EvPaths now lease tenant ref cond => let '(r, n') := nodePaths now lease tenant ref cond n in (RFields r, n')
  | EvSort now lease tenant ref m keys => let '(r, n') := nodeSort now lease tenant ref m keys n in (RSpecs r, n')
  | EvModel r => let '(a, n') := heard (cached (r_now r) (r_lease r) b (r_tenant r) (r_call r)) n in (RModel a, n')
  end.
Fixpoint serveEvents (b : bool) (l : list Event) (n : NS) : list Reply :=
  match l with [] => [] | ev :: l => let '(r, n') := serveEvent b ev n in r :: serveEvents b l n' end.
Definition sameReply (x y : Reply) : Prop :=
  match x, y with
  | RFields f, RFields f' => sameAnswer f f'
  | RSpecs f, RSpecs f' => sameAnswer f f'
  | RModel a, RModel a' => a = a'
  | _, _ => False
  end.
Definition eventWired (ev : Event) : Prop := match ev with EvPaths _ _ _ _ cond => wired cond | _ => True end.


(** ** [Search] up to the store *)

Definition MaxPageSize : Z := 10000.
Definition isNil (cond : Condition) : bool := match cond with NilCondition => true | _ => false end.
Definition onNode {A} (m : M AppError CS A) : M berr NS A := λ '(s, pc),
  match m s with
  | (Ret a, s') => (Ret a, (s', pc))
  | (Err ModelNotFound, s') => (Err (BClient ErrCodeModelNotFound []), (s', pc))
  | (Err _, s') => (Err (BInternal "model registration"), (s', pc))
  | (Panic w, s') => (Panic w, (s', pc))
  end.

Section Search.
Context (now : Time) (lease : Z) (tenant : string) (ref : ModelRef) (maxSortKeys : Z).

(** Everything before the query: the fields the condition is translated with and
    the resolved order. *)
Definition admitSearch (cond : Condition) (limit : Z) (orderBy : list OrderKey) : M berr NS (option Fields * list OrderSpec) :=
  if decide (limit ≤ 0)%Z then fail (BPlain "limit must be >= 1") else
  if isNil cond then fail (BClient ErrCodeInvalidCondition []) else
  if decide (MaxPageSize < limit)%Z then fail (BClient ErrCodeBadRequest []) else
  match ValidateCondition cond with
  | Some e => fail (BClient (structuralConditionErrCode e) [])
  | None =>
      onNode (EnsureModelRegistered now lease tenant ref);;
      validatedFields ← nodePaths now lease tenant ref cond;
      match ValidatePatterns cond with
      | Some _ => fail (BClient ErrCodeInvalidCondition [])
      | None =>
          validateConditionTypes now lease tenant ref cond;;
          specs ← nodeSort now lease tenant ref maxSortKeys orderBy;
          mret (validatedFields, specs)
      end
  end.
Definition Search {R} (query : option Fields → Condition → list OrderSpec → M berr NS R)
    (cond : Condition) (limit : Z) (orderBy : list OrderKey) : M berr NS R :=
  '(fields, specs) ← admitSearch cond limit orderBy; query fields cond specs.
End Search.

(** The state between the steps of a search. *)
Definition settled (n : NS) : Prop := coherent n.1.
Lemma nodePaths_ok now lease tenant ref cond n f n' : settled n →
  nodePaths now lease tenant ref cond n = (Ret f, n') →
  settled n' ∧ n'.1.1 = n.1.1 ∧ (extractFieldPaths cond = [] ∧ f = None ∨
    extractFieldPaths cond ≠ [] ∧ fieldsAt n.1.1 (tenant, ref) = inr f ∧ FindUnknownFieldPaths cond (fieldsOf f) = []).
Proof.
  destruct n as [s pc]. unfold settled. simpl. intros Hs. unfold nodePaths, validateConditionPaths.
  case_decide as Hp; [intros [= <- <-]; split_and!; [done..|by left]|].
  intros (out & [s1 pc1] & Hc & Hrest)%bind_Ret.
  assert (s1 = s) as -> by (unfold cachedAbsentPaths in Hc; destruct pc; [destruct (lookupAbsent _ _ _ _)|]; by simplify_eq).
  case_decide; [done|]. rewrite run_bind in Hrest.
  destruct (consult_run now lease tenant ref (extractFieldPaths cond) s pc1 Hs) as (s2 & E & Es & Hs2).
  rewrite E in Hrest. unfold specPaths in Hrest.
  destruct (fieldsAt s.1 (tenant, ref)) as [|g] eqn:Hf; [done|]. case_decide as Hm; [|by destruct g].
  cbn [recordVerdict] in Hrest. unfold markPathsPresent, onPaths in Hrest. mrun_in Hrest. injection Hrest as <- <-.
  split_and!; [done..|]. by right.
Qed.
Lemma validateConditionTypes_ok now lease tenant ref cond n n' : settled n →
  validateConditionTypes now lease tenant ref cond n = (Ret tt, n') →
  ∃ f, ValidateConditionValueTypes (fieldsOf f) cond = None ∧
    (extractFieldPaths cond = [] ∧ f = None ∨ extractFieldPaths cond ≠ [] ∧ fieldsAt n.1.1 (tenant, ref) = inr f).
Proof.
  destruct n as [s pc]. unfold settled. simpl. intros Hs. unfold validateConditionTypes.
  intros (f & n1 & Hf & Hrest)%bind_Ret. destruct (ValidateConditionValueTypes (fieldsOf f) cond) eqn:Ht; [done|].
  exists f. split; [done|]. case_decide; [left; by injection Hf as <- _|]. right. split; [done|].
  rewrite run_bind in Hf. unfold store in Hf. destruct (nodeLoad_run now lease tenant ref s Hs) as (s1 & E & _ & _).
  rewrite E in Hf. destruct (fieldsAt s.1 (tenant, ref)); [done|]. by injection Hf as <- _.
Qed.
Lemma ensure_ok now lease tenant ref n n' : settled n →
  onNode (EnsureModelRegistered now lease tenant ref) n = (Ret tt, n') → settled n' ∧ n'.1.1 = n.1.1.
Proof.
  destruct n as [s pc]. unfold settled, onNode, EnsureModelRegistered. simpl. intros Hs.
  destruct (agrees_get now lease tenant ref s Hs) as (_ & E1 & C1). rewrite modelGet_read in E1.
  destruct (Get now lease tenant ref s) as [[|e|w] s1]; simpl in *; [by intros [= <-]| |done].
  case_decide; [done|]. destruct (agrees_refresh now lease tenant ref s1 C1) as (_ & E2 & C2). rewrite modelGet_read in E2.
  destruct (RefreshAndGet now lease tenant ref s1) as [[|e'|w] s2]; simpl in *; [intros [= <-]; split; [done|simpl; congruence]| |done].
  by case_decide.
Qed.

Lemma admitted_steps now lease tenant ref m cond limit orderBy n fields specs n' : settled n →
  admitSearch now lease tenant ref m cond limit orderBy n = (Ret (fields, specs), n') →
  ValidateCondition cond = None ∧ ValidatePatterns cond = None ∧ ValidateConditionValueTypes (fieldsOf fields) cond = None ∧
  (extractFieldPaths cond = [] ∧ fields = None ∨
   extractFieldPaths cond ≠ [] ∧ fieldsAt n.1.1 (tenant, ref) = inr fields ∧ FindUnknownFieldPaths cond (fieldsOf fields) = []).
Proof.
  intros Hn. unfold admitSearch. case_decide; [done|]. destruct (isNil cond); [done|]. case_decide; [done|].
  destruct (ValidateCondition cond); [done|]. intros ([] & n1 & Hq1 & Hrun)%bind_Ret.
  apply ensure_ok in Hq1 as [Hn1 E1]; [|done]. apply bind_Ret in Hrun as (f & n2 & Hq2 & Hrun).
  apply nodePaths_ok in Hq2 as (Hn2 & E2 & Hf); [|done]. destruct (ValidatePatterns cond); [done|].
  apply bind_Ret in Hrun as ([] & n3 & Hq3 & Hrun). apply validateConditionTypes_ok in Hq3 as (g & Hg & Hfg); [|done].
  apply bind_Ret in Hrun as (sp & n4 & Hq4 & Hrun). mrun_in Hrun. injection Hrun as -> -> ->. rewrite E2, E1 in *.
  assert (g = fields) as -> by (destruct Hf as [[? ?]|(? & ? & ?)], Hfg as [[? ?]|[? ?]]; congruence). done.
Qed.


Lemma MarkAbsent_in k p pc : absentIn (MarkAbsent k p pc) k p.
Proof.
  unfold MarkAbsent, bucketLocked, absentIn. destruct (buckets pc !! k) as [b|]; simpl;
    (eexists; split; [apply lookup_insert_eq|apply otterSet_in]).
Qed.

(** ** Between the schema read and the mark

    [validateConditionPaths] reads the schema and tells the negative cache in two
    steps, and another request may run between them.  A path found absent and then
    marked absent is refused from then on, whatever the model has come to declare
    meanwhile: the invalidation that came with the change is already past. *)
Theorem absent_mark_overtaken now lease tenant ref cond p fm (s : CS) pc :
  coherent s → extractFieldPaths cond = [p] → fieldsAt s.1 (tenant, ref) = inr (Some fm) → isPathKnown p fm = true →
  (nodePaths now lease tenant ref cond (s, None)).1 = Ret (Some fm) ∧
  (nodePaths now lease tenant ref cond (recordVerdict (tenant, ref) [p] (PathsAbsent [p]) (s, Some pc)).2).1 =
    Err (invalidPathError [p]).
Proof.
  intros Hs Hp Hf Hk. unfold nodePaths, validateConditionPaths. rewrite Hp. rewrite !(decide_False (P:=[p] = [])) by done. split.
  - rewrite run_bind. cbn [cachedAbsentPaths]. rewrite decide_False by tauto. rewrite run_bind.
    destruct (consult_run now lease tenant ref [p] s None Hs) as (s' & -> & _ & _). unfold specPaths. rewrite Hf.
    simpl fieldsOf. unfold findUnknownPaths. rewrite filter_cons_False, filter_nil by (by rewrite Hk). by rewrite decide_True.
  - cbn [recordVerdict]. unfold markPathsAbsent, onPaths. mrun. rewrite run_bind.
    change (cachedAbsentPaths (tenant, ref) surfaceCondition [p] _) with
      (let '(out, pc') := lookupAbsent (tenant, ref) surfaceCondition [p] (MarkAbsent (tenant, ref) p pc) in
       (Ret out : outcome berr (list string), (s, Some pc'))).
    cbn [lookupAbsent namespacedCacheKey]. pose proof (proj2 (IsAbsent_spec _ _ _) (MarkAbsent_in (tenant, ref) p pc)) as Ha.
    destruct (IsAbsent (tenant, ref) p (MarkAbsent (tenant, ref) p pc)) as [b pc']. simpl in Ha. subst b.
    by rewrite decide_True by done.
Qed.

(** ** The size of the negative cache *)

Record wfPVC (pc : PathValidationCache) : Prop := {
  pvc_nodup : NoDup (lruOrder pc);
  pvc_dom k : k ∈ lruOrder pc ↔ is_Some (buckets pc !! k);
  pvc_size : size (buckets pc) ≤ pathValidationBucketMapCap }.
Inductive pvcOp : Type :=
| OpIsAbsent (k : cacheKey) (p : string) | OpMarkAbsent (k : cacheKey) (p : string)
| OpMarkPresent (k : cacheKey) (p : string) | OpInvalidate (k : cacheKey).
Definition runOp (op : pvcOp) (pc : PathValidationCache) : PathValidationCache :=
  match op with
  | OpIsAbsent k p => (IsAbsent k p pc).2
  | OpMarkAbsent k p => MarkAbsent k p pc
  | OpMarkPresent k p => MarkPresent k p pc
  | OpInvalidate k => InvalidateRef k pc
  end.

Lemma wf_touch pc k : wfPVC pc → is_Some (buckets pc !! k) → wfPVC (mkPVC (buckets pc) (moveToFront k (lruOrder pc))).
Proof.
  intros [Hn Hd Hs] Hk. split; simpl; [|intros k'|done].
  - unfold moveToFront. apply NoDup_cons. split; [|by apply NoDup_filter]. rewrite list_elem_of_filter. tauto.
  - unfold moveToFront. rewrite elem_of_cons, list_elem_of_filter, <- Hd. destruct (decide (k' = k)) as [->|]; [|tauto].
    rewrite Hd. tauto.
Qed.
Lemma wf_set pc k b : wfPVC pc → is_Some (buckets pc !! k) → wfPVC (setBucket k b pc).
Proof.
  intros [Hn Hd Hs] Hk. split; simpl; [done|intros k'|].
  - rewrite Hd. destruct (decide (k' = k)) as [->|]; [by rewrite lookup_insert_eq|by rewrite lookup_insert_ne].
  - by rewrite map_size_insert_Some.
Qed.
Lemma wf_drop pc k : wfPVC pc → wfPVC (mkPVC (delete k (buckets pc)) (filter (λ k', k' ≠ k) (lruOrder pc))).
Proof.
  intros [Hn Hd Hs]. split; simpl; [by apply NoDup_filter|intros k'|].
  - rewrite list_elem_of_filter, Hd, lookup_delete_is_Some. naive_solver.
  - rewrite map_size_delete. destruct (buckets pc !! k); unfold id; lia.
Qed.
Lemma cap_positive : 0 < pathValidationBucketMapCap.
Proof. apply Nat.ltb_lt. reflexivity. Qed.
Lemma makeRoom_wf pc : wfPVC pc → wfPVC (makeRoom pc) ∧ size (buckets (makeRoom pc)) < pathValidationBucketMapCap.
Proof.
  intros Hpc. unfold makeRoom. case_decide as Hs; [|split; [done|lia]]. destruct (last (lruOrder pc)) as [v|] eqn:Hv.
  - split; [by apply wf_drop|]. simpl. rewrite map_size_delete.
    assert (is_Some (buckets pc !! v)) as [b ->] by (apply Hpc, last_Some_elem_of, Hv).
    destruct Hpc as [_ _ Hle]. pose proof cap_positive. lia.
  - exfalso. apply last_None in Hv. destruct Hpc as [_ Hd _]. pose proof cap_positive.
    assert (buckets pc = ∅) as He by (apply map_eq; intros k; rewrite lookup_empty; apply eq_None_not_Some; rewrite <- Hd, Hv; apply not_elem_of_nil).
    rewrite He, map_size_empty in Hs. lia.
Qed.
Lemma bucketLocked_wf k create pc : wfPVC pc →
  wfPVC (bucketLocked k create pc).2 ∧
  ∀ b, (bucketLocked k create pc).1 = Some b → is_Some (buckets (bucketLocked k create pc).2 !! k).
Proof.
  intros Hpc. unfold bucketLocked. destruct (buckets pc !! k) as [b|] eqn:Hb; [simpl; split; [by apply wf_touch|by rewrite Hb]|].
  destruct create; simpl; [|done]. destruct (makeRoom_wf pc Hpc) as [[Hn Hd Hs] Hlt].
  assert (buckets (makeRoom pc) !! k = None) as Hnone.
  { destruct (buckets (makeRoom pc) !! k) eqn:E; [|done]. apply makeRoom_sub in E. congruence. }
  split; [|by rewrite lookup_insert_eq]. split; simpl; [|intros k'|].
  - apply NoDup_cons. split; [|done]. rewrite Hd, Hnone. by intros [??].
  - rewrite elem_of_cons, Hd, lookup_insert_is_Some. destruct (decide (k' = k)); naive_solver.
  - rewrite map_size_insert_None by done. lia.
Qed.

(** C40. The cache of absent paths stays bounded whatever is asked of it: at most
    [pathValidationBucketMapCap] models have a bucket, the recency list and the map
    name the same buckets, and recording a path for one model changes no other
    model's bucket, except that a full cache gives up its least recently used one. *)
Theorem negative_cache_bounded ops k p k' :
  let pc := foldl (flip runOp) NewPathValidationCache ops in
  wfPVC pc ∧
  (k' ≠ k → buckets (MarkAbsent k p pc) !! k' = buckets pc !! k' ∨
    (size (buckets pc) = pathValidationBucketMapCap ∧ last (lruOrder pc) = Some k' ∧ buckets (MarkAbsent k p pc) !! k' = None)).
Proof.
  intros pc. assert (wfPVC pc) as Hpc.
  { subst pc. assert (wfPVC NewPathValidationCache) as H0.
    { split; simpl; [constructor|intros k0; rewrite lookup_empty; set_solver|rewrite map_size_empty; pose proof cap_positive; lia]. }
    revert H0. generalize NewPathValidationCache as pc. induction ops as [|op ops IH]; intros pc Hpc; [done|]. simpl. apply IH.
    destruct op as [k0 q|k0 q|k0 q|k0]; unfold runOp, flip.
    - unfold IsAbsent. destruct (bucketLocked_wf k0 false pc Hpc) as [Hw _]. by destruct (bucketLocked k0 false pc) as [[]].
    - unfold MarkAbsent. destruct (bucketLocked_wf k0 true pc Hpc) as [Hw Hb].
      destruct (bucketLocked k0 true pc) as [[b|] pc']; [|done]. by eapply wf_set, Hb.
    - unfold MarkPresent. destruct (bucketLocked_wf k0 false pc Hpc) as [Hw Hb].
      destruct (bucketLocked k0 false pc) as [[b|] pc']; [|done]. by eapply wf_set, Hb.
    - unfold InvalidateRef. destruct (buckets pc !! k0); [by apply wf_drop|done]. }
  split; [done|]. intros Hk. unfold MarkAbsent, bucketLocked. destruct (buckets pc !! k) as [b|]; simpl.
  { left. by rewrite lookup_insert_ne. }
  rewrite !lookup_insert_ne by done. unfold makeRoom. case_decide as Hs; [|by left].
  destruct (last (lruOrder pc)) as [v|] eqn:Hv; [|by left]. simpl. destruct (decide (v = k')) as [->|]; [right|left; by rewrite lookup_delete_ne].
  split_and!; [destruct Hpc; lia|done|apply lookup_delete_eq].
Qed.
End Node.

(** ** Pages *)

Definition MaxPageNumber : Z := Z.quot 2147483647 10000.
(** [bits.Mul64]: the product's high and low words. *)
Definition ValidateOffset (pageNumber pageSize : Z) : option string :=
  if decide (pageNumber < 0)%Z then Some "invalid pageNumber" else
  if decide (pageSize < 0)%Z then Some "invalid pageSize" else
  if decide (MaxPageSize < pageSize)%Z then Some "pageSize exceeds maximum" else
  if decide (MaxPageNumber < pageNumber)%Z then Some "pageNumber exceeds maximum" else
  let hi := (pageNumber * pageSize / 18446744073709551616)%Z in
  let lo := ((pageNumber * pageSize) `mod` 18446744073709551616)%Z in
  if decide (hi ≠ 0 ∨ maxInt64 < lo)%Z then Some "pageNumber*pageSize overflows int64" else None.

(** The pages the boundary accepts are windows the stores can cut: the offset
    of an accepted page does not wrap, the window at that offset holds exactly the
    page's rows, and the pages of a listing, put together, are the listing. *)
Theorem accepted_pages_cover {A} (pageSize : Z) (l : list A) (n : nat) :
  (1 ≤ pageSize)%Z → (Z.of_nat (length l) ≤ Z.of_nat n * pageSize)%Z →
  (∀ i, i < n → ValidateOffset (Z.of_nat i) pageSize = None) →
  (∀ i, i < n → window (wrap64 (Z.of_nat i * pageSize)) pageSize l =
     Some (take (Z.to_nat pageSize) (drop (Z.to_nat (Z.of_nat i * pageSize)) l))) ∧
  mjoin ((λ i, take (Z.to_nat pageSize) (drop (Z.to_nat (Z.of_nat i * pageSize)) l)) <$> seq 0 n) = l.
Proof.
  intros H1 Hn Hv. split; [|by apply windows_concat]. intros i Hi. specialize (Hv i Hi). unfold ValidateOffset in Hv.
  repeat (case_decide; [done|]). unfold MaxPageSize, MaxPageNumber in *.
  assert (Z.of_nat i ≤ 214748)%Z by (change (Z.quot 2147483647 10000) with 214748%Z in *; lia).
  assert (0 ≤ Z.of_nat i * pageSize ≤ 2147480000)%Z by nia.
  rewrite wrap64_small by (unfold maxInt64; lia). apply window_ok; [lia|done|unfold maxInt64; lia].
Qed.
