(* ===== verification/SearchSample.v ===== *)
(** * The search boundary at a concrete node

    The theorems of SearchBoundary applied to a node over the sample model store,
    with the storage kernel of ConditionSample. *)

From stdpp Require Import base gmap strings list.
From S2P Require Import Prelude GoStrings Spi MemStores Schema SchemaAdmit SchemaSample ModelCache ModelService ModelCluster ModelSample Condition ConditionMatch ConditionSample SearchBoundary.
Import ModelStore SchemaSample.

(** A bucket that evicts nothing. *)
#[export] Program Instance otter : Otter := {| otterSet p b := {[p]} ∪ b |}.
Next Obligation. set_solver. Qed.
Next Obligation. set_solver. Qed.

Definition fieldsMap (n : ModelNode) : Fields := sampleFields.
Definition unknownField : Condition := SimpleCondition "$.nope" "EQUALS" (JString "x").

(** A known condition, an unknown field twice (the second answered by the cache), a
    sort by it, a change of the model, and both again. *)
Definition script : list Event :=
  let paths t c := EvPaths t 10 "acme" order c in
  let sort t p := EvSort t 10 "acme" order 16 [mkOrderKey p SourceData false] in
  [paths 1%Z sampleCondition; paths 2%Z unknownField; paths 3%Z unknownField; sort 4%Z "nope"; sort 5%Z "nope";
   EvModel (mkRequest 6 10 "acme" (CSetLevel order "TYPE")); paths 7%Z unknownField; sort 8%Z "age"].

Lemma sound_new d : sound fieldsMap d NewPathValidationCache.
Proof. intros k x (b & Hb & _). discriminate Hb. Qed.
Lemma script_wired : Forall eventWired script.
Proof. repeat (constructor; [first [exact I|unfold eventWired, wired; vm_compute; repeat (constructor; [reflexivity|]); constructor]|]); constructor. Qed.


Lemma fieldsMap_ok node : canonicalFields (fieldsMap node) ∧ typedFields (fieldsMap node).
Proof. exact (conj sampleFields_canonical sampleFields_typed). Qed.
Definition search1 : outcome berr (option Fields * list OrderSpec) * (CS * option PathValidationCache) :=
  admitSearch fieldsMap 1 10 "acme" order 16 sampleCondition 100 [mkOrderKey "age" SourceData true]
    ((baseStore, noCache), Some NewPathValidationCache).

Lemma accepted_pages_cover_witness :
  mjoin ((λ i, take 2 (drop (Z.to_nat (Z.of_nat i * 2)) [1; 2; 3; 4; 5])) <$> seq 0 3) = [1; 2; 3; 4; 5].
Proof.
  exact (proj2 (accepted_pages_cover 2 [1; 2; 3; 4; 5] 3 ltac:(lia) ltac:(simpl; lia)
    ltac:(intros [|[|[|i]]] Hi; [reflexivity..|lia]))).
Defined.
