(* ===== verification/Scheduler.v ===== *)
(** * The scheduler's scan loop

    [internal/scheduler] and the executor of [internal/cluster/scheduler_rpc.go]:
    every node ticks; the coordinator scans the due tasks of the memory plugin's
    store, marks each for redispatch and hands it to the member the distribution
    strategy picks.  One coordinator, fair picks, no double dispatch within the
    backoff, and every due task dispatched after boundedly many ticks. *)

From stdpp Require Import base gmap strings list sorting.
From S2P Require Import Prelude GoStrings Spi MemState MemTx MemSched MemFrame MemTasks Workflow WorkflowRun WorkflowFire WorkflowLoops.

Record NodeInfo := mkNode { NodeID : string; Addr : string; Alive : bool }.

(** ** Strategies *)

Definition strLt (a b : string) : bool := String.ltb a b.
(** The loop of [LowestLiveNodeID]. *)
Definition minID (first : string) (rest : list NodeInfo) : string :=
  foldl (λ m n, if strLt (NodeID n) m then NodeID n else m) first rest.
Definition IsCoordinator (members : list NodeInfo) (selfID : string) : bool :=
  match members with
  | [] => true
  | m :: rest => bool_decide (selfID = minID (NodeID m) rest)
  end.

(** [cursor] is a [uint64]. *)
Definition wrapU64 (z : Z) : Z := z `mod` 2^64.
Definition PickRoundRobin (cursor : Z) (members : list NodeInfo) (selfID : string) : string * Z :=
  if decide (members = []) then (selfID, cursor)
  else
    let ids := sortStrings (NodeID <$> members) in
    (default "" (ids !! Z.to_nat (cursor `mod` Z.of_nat (length ids))), wrapU64 (cursor + 1)).
Definition PickSelf (selfID : string) : string := selfID.

Inductive DistributionStrategy : Type := RoundRobin | Self.
Definition Pick (d : DistributionStrategy) (cursor : Z) (members : list NodeInfo) (selfID : string) : string * Z :=
  match d with
  | RoundRobin => PickRoundRobin cursor members selfID
  | Self => (PickSelf selfID, cursor)
  end.

(** ** The tick *)

Record Config := mkConfig { Enabled : bool; RedispatchBackoff : Z; BatchSize : Z }.
Record Deps := mkDeps { Distribution : DistributionStrategy; SelfID : string }.

(** The node's view of the store, the pick cursor and the process's health flag. *)
Record SchedState := mkSched { sd_mem : Mem; sd_cursor : Z; sd_healthy : bool }.
Abbreviation SM := (M err SchedState).
Definition inStore {A} (m : MM A) : SM A := λ s,
  let '(r, mem) := m (sd_mem s) in (r, mkSched mem (sd_cursor s) (sd_healthy s)).

(** Instants in nanoseconds; [UnixMilli] rounds down. *)
Definition UnixMilli (t : Z) : Z := t `div` 1000000.

(** A task handed to the executor. *)
Record Dispatch := mkDispatch { dp_task : ScheduledTask; dp_target : string }.

Fixpoint dispatchAll (d : Deps) (members : list NodeInfo) (redispatchAfter : Z) (tasks : list ScheduledTask) :
    SM (list Dispatch) :=
  match tasks with
  | [] => mret []
  | task :: tasks =>
      marked ← try (inStore (SchedStore.MarkRedispatch (st_ID task) redispatchAfter));
      match marked with
      | inl _ => dispatchAll d members redispatchAfter tasks
      | inr _ =>
          s ← get;
          let '(target, cursor) := Pick (Distribution d) (sd_cursor s) members (SelfID d) in
          put (mkSched (sd_mem s) cursor (sd_healthy s));;
          rest ← dispatchAll d members redispatchAfter tasks;
          mret (mkDispatch task target :: rest)
      end
  end.

(** [listed] is the registry's answer, [opened] the store factory's, [now] the
    clock's. *)
Definition tick (c : Config) (d : Deps) (listed : err + list NodeInfo) (opened : option err) (now : Z) :
    SM (list Dispatch) :=
  if negb (Enabled c) then mret []
  else match listed with
       | inl _ => mret []
       | inr members =>
           if negb (IsCoordinator members (SelfID d)) then mret []
           else match opened with
                | Some _ => mret []
                | None =>
                    scanned ← try (inStore (SchedStore.ScanDue (UnixMilli now) (BatchSize c)));
                    match scanned with
                    | inl _ => mret []
                    | inr tasks => dispatchAll d members (UnixMilli (now + RedispatchBackoff c)) tasks
                    end
                end
       end.

(** ** Executors *)

(** [common.SystemUserContext]. *)
Definition SystemUserContext (tenant : string) : ECtx :=
  mkECtx (Some (mkUser "system" "system" tenant)) None false None noPrincipal [].

(** Where [ClusterExecutor.Execute] takes a task: [lookup] is the registry's, none
    when the executor has no cluster wiring. *)
Inductive Route : Type := FireLocally | ForwardTo (addr : string) | Dropped.
Definition routeOf (selfID : string) (lookup : option (string → err + string * bool)) (target : string) : Route :=
  match lookup with
  | None => FireLocally
  | Some look =>
      if decide (target = selfID ∨ target = "") then FireLocally
      else match look target with
           | inl _ => Dropped
           | inr (addr, alive) => if alive && negb (bool_decide (addr = "")) then ForwardTo addr else Dropped
           end
  end.

Section Execute.
Context {X : Env}.
(** [LocalExecutor.Execute], and the peer's handler for a forwarded task: the
    error is logged. *)
Definition LocalExecute (e : Engine) (task : ScheduledTask) : EM FireResult :=
  FireScheduledTransition e (SystemUserContext (st_TenantID task)) task.
End Execute.
(** The dispatch goroutine recovers a panic and withdraws the node. *)
Definition afterDispatch {E A} (r : outcome E A) (s : SchedState) : SchedState :=
  match r with Panic _ => mkSched (sd_mem s) (sd_cursor s) false | _ => s end.

(** ** One coordinator *)

Lemma strLt_le a b : strLt a b = false ↔ String.le b a.
Proof.
  unfold strLt, String.ltb, String.le, String.leb. rewrite (String.compare_antisym a b).
  by destruct (String.compare b a).
Qed.
Lemma strLt_lt a b : strLt a b = true → String.le a b.
Proof. unfold strLt, String.ltb, String.le, String.leb. by destruct (String.compare a b). Qed.
Lemma minID_in first rest : minID first rest = first ∨ minID first rest ∈ NodeID <$> rest.
Proof.
  unfold minID. revert first. induction rest as [|n rest IH]; intros first; simpl; [by left|].
  rewrite elem_of_cons. destruct (IH (if strLt (NodeID n) first then NodeID n else first)) as [->|?]; [|tauto].
  destruct (strLt (NodeID n) first); tauto.
Qed.
Lemma minID_le first rest x : x = first ∨ x ∈ NodeID <$> rest → String.le (minID first rest) x.
Proof.
  unfold minID. revert first x. induction rest as [|n rest IH]; intros first x; simpl.
  { by intros [->|?%elem_of_nil]. }
  rewrite elem_of_cons. set (f := if strLt (NodeID n) first then NodeID n else first).
  assert (Hf : String.le (foldl _ f rest) f) by (apply IH; by left).
  assert (Hfn : String.le f (NodeID n) ∧ String.le f first).
  { unfold f. destruct (strLt (NodeID n) first) eqn:E; [by split; [|apply strLt_lt]|by split; [apply strLt_le|]]. }
  intros [->|[->|Hx]]; [by etrans; [|apply Hfn]..|]. apply IH. by right.
Qed.

(** Among the members of one view exactly one id is the coordinator's, and it
    is the least; so nodes that see the same members never scan twice, and one of
    them scans. *)
Theorem one_coordinator members :
  members ≠ [] →
  ∃ id, id ∈ NodeID <$> members ∧ (∀ x, x ∈ NodeID <$> members → String.le id x) ∧
    ∀ self, IsCoordinator members self = true ↔ self = id.
Proof.
  destruct members as [|m rest]; [done|]. intros _. exists (minID (NodeID m) rest). simpl. split_and!.
  - rewrite elem_of_cons. apply minID_in.
  - intros x. rewrite elem_of_cons. apply minID_le.
  - intros self. by rewrite bool_decide_eq_true.
Qed.

(** ** Fair picks *)

Fixpoint picks (k : nat) (cursor : Z) (members : list NodeInfo) (selfID : string) : list string :=
  match k with
  | 0 => []
  | S k => let '(id, cursor) := PickRoundRobin cursor members selfID in id :: picks k cursor members selfID
  end.

Lemma picks_lookup k c members self i :
  members ≠ [] → i < k → (0 ≤ c)%Z → (c + Z.of_nat k ≤ 2^64)%Z →
  picks k c members self !! i =
    Some (default "" (sortStrings (NodeID <$> members) !! Z.to_nat ((c + Z.of_nat i) `mod` Z.of_nat (length members)))).
Proof.
  intros Hne. revert c i. induction k as [|k IH]; intros c i Hi Hc Hk; [lia|]. cbn [picks].
  unfold PickRoundRobin. rewrite decide_False by done.
  assert (Hl : length (sortStrings (NodeID <$> members)) = length members).
  { unfold sortStrings. by rewrite (Permutation_length (merge_sort_Permutation _ _)), length_fmap. }
  rewrite Hl. destruct i as [|i]; [by rewrite Z.add_0_r|]. cbn [lookup list_lookup].
  destruct (decide (k = 0)) as [->|Hk0]; [lia|]. unfold wrapU64. rewrite Z.mod_small by lia.
  change (list_lookup i (picks k (c + 1) members self)) with (picks k (c + 1) members self !! i).
  rewrite IH by lia. by replace (c + 1 + Z.of_nat i)%Z with (c + Z.of_nat (S i))%Z by lia.
Qed.

(** The round-robin strategy is fair: as long as the membership is stable and
    the cursor does not wrap, [n] consecutive picks among [n] members choose every
    member exactly once. *)
Theorem round_robin_fair members self c :
  members ≠ [] → (0 ≤ c)%Z → (c + Z.of_nat (length members) ≤ 2^64)%Z →
  picks (length members) c members self ≡ₚ NodeID <$> members.
Proof.
  intros Hne Hc Hw. set (ids := sortStrings (NodeID <$> members)).
  assert (Hids : ids ≡ₚ NodeID <$> members) by apply merge_sort_Permutation.
  assert (Hl : length ids = length members) by (by rewrite Hids, length_fmap).
  assert (Hn : 0 < length members) by (destruct members; simpl; [done|lia]).
  set (n := length members) in *. set (r := Z.to_nat (c `mod` Z.of_nat n)).
  assert (Hr : r < n) by (unfold r; assert (Hb := Z.mod_pos_bound c (Z.of_nat n)); lia).
  assert (Hp : picks n c members self = drop r ids ++ take r ids).
  { apply list_eq_same_length with n; [rewrite length_app, length_drop, length_take; lia| |].
    - clear. revert c. generalize n at 1 2 as k. intros k. induction k as [|k IH]; intros c; [done|]. cbn [picks].
      destruct (PickRoundRobin c members self). simpl. by rewrite IH.
    - intros i x y Hi. rewrite picks_lookup by done. intros [= <-].
      assert (Hm : Z.to_nat ((c + Z.of_nat i) `mod` Z.of_nat n) = if decide (r + i < n) then r + i else r + i - n).
      { unfold r in *. rewrite <- Z.add_mod_idemp_l by lia. assert (Hb := Z.mod_pos_bound c (Z.of_nat n)). case_decide.
        - rewrite Z.mod_small by lia. lia.
        - assert (((c `mod` Z.of_nat n + Z.of_nat i) `mod` Z.of_nat n = c `mod` Z.of_nat n + Z.of_nat i - Z.of_nat n)%Z) as ->; [|lia].
          symmetry. apply Z.mod_unique with 1%Z; lia. }
      fold n ids. rewrite Hm. case_decide.
      + rewrite lookup_app_l by (rewrite length_drop; lia). rewrite lookup_drop. by intros ->.
      + rewrite lookup_app_r by (rewrite length_drop; lia). rewrite length_drop, lookup_take_lt by lia.
        replace (i - (length ids - r)) with (r + i - n) by lia. by intros ->. }
  rewrite Hp, Permutation_app_comm, take_drop. exact Hids.
Qed.

(** ** What a tick does *)

Definition tasksOf (s : SchedState) : gmap string ScheduledTask := scheduledTasks (fac (sd_mem s)).
Definition idOf (x : Dispatch) : string := st_ID (dp_task x).
Definition markAll (after : Z) (ids : list string) (m : gmap string ScheduledTask) : gmap string ScheduledTask :=
  foldl (λ m id, alter (SchedStore.markedRedispatch after) id m) m ids.

Lemma MarkRedispatch_run id after s :
  ∃ s', SchedStore.MarkRedispatch id after s = (Ret tt, s') ∧
    scheduledTasks (fac s') = alter (SchedStore.markedRedispatch after) id (scheduledTasks (fac s)).
Proof.
  unfold SchedStore.MarkRedispatch. mrun. destruct (scheduledTasks (fac s) !! id) as [t|] eqn:E; eexists; (split; [done|]); simpl.
  - apply map_eq. intros k. destruct (decide (k = id)) as [->|Hk].
    + by rewrite lookup_insert_eq, lookup_alter_eq, E.
    + by rewrite lookup_insert_ne, lookup_alter_ne.
  - apply map_eq. intros k. destruct (decide (k = id)) as [->|Hk].
    + by rewrite lookup_alter_eq, E.
    + by rewrite lookup_alter_ne.
Qed.
Lemma dispatchAll_run d members after tasks s :
  ∃ out s', dispatchAll d members after tasks s = (Ret out, s') ∧ dp_task <$> out = tasks ∧
    tasksOf s' = markAll after (st_ID <$> tasks) (tasksOf s).
Proof.
  revert s. induction tasks as [|t tasks IH]; intros s; simpl; [by exists [], s|].
  destruct (MarkRedispatch_run (st_ID t) after (sd_mem s)) as (mem & Hm & Htab).
  rewrite run_bind. unfold try, inStore. rewrite Hm. mrun. cbn [sd_mem sd_cursor sd_healthy].
  destruct (Pick _ _ _ _) as [target cursor].
  destruct (IH (mkSched mem cursor (sd_healthy s))) as (out & s' & Hr & Hout & Ht).
  eexists (_ :: out), s'. split; [rewrite run_bind; unfold put; rewrite run_bind, Hr; done|].
  rewrite fmap_cons, Hout. split; [done|]. rewrite Ht. unfold tasksOf at 1. simpl. by rewrite Htab.
Qed.
Lemma markAll_lookup after ids m id :
  NoDup ids →
  markAll after ids m !! id = if decide (id ∈ ids) then SchedStore.markedRedispatch after <$> m !! id else m !! id.
Proof.
  unfold markAll. revert m. induction ids as [|x ids IH]; intros m Hnd; simpl; [done|].
  apply NoDup_cons in Hnd as [Hx Hnd]. rewrite IH by done. destruct (decide (id = x)) as [->|Hne].
  - rewrite decide_False by done. rewrite decide_True by (by left). by rewrite lookup_alter_eq.
  - rewrite lookup_alter_ne by done. do 2 case_decide; rewrite ?elem_of_cons in *; try done; tauto.
Qed.

Definition batch (c : Config) (now : Z) (m : gmap string ScheduledTask) : list ScheduledTask :=
  SchedStore.scanDueOf ((map_to_list m).*2) (UnixMilli now) (BatchSize c).

Lemma tick_run c d members now s :
  Enabled c = true → IsCoordinator members (SelfID d) = true →
  ∃ out s', tick c d (inr members) None now s = (Ret out, s') ∧ dp_task <$> out = batch c now (tasksOf s) ∧
    tasksOf s' = markAll (UnixMilli (now + RedispatchBackoff c)) (idOf <$> out) (tasksOf s).
Proof.
  intros He Hc. unfold tick. rewrite He, Hc. simpl. rewrite run_bind. unfold try, inStore, SchedStore.ScanDue. mrun.
  destruct (dispatchAll_run d members (UnixMilli (now + RedispatchBackoff c)) (batch c now (tasksOf s)) s)
    as (out & s' & Hr & Hout & Ht).
  exists out, s'. split; [by destruct s|]. split; [done|]. rewrite Ht, <- Hout, <- list_fmap_compose. done.
Qed.

Lemma map_rows m t : keyedByID m → t ∈ (map_to_list m).*2 ↔ m !! st_ID t = Some t.
Proof.
  intros Hk. rewrite list_elem_of_fmap. split.
  - intros ([id u] & -> & Hin%elem_of_map_to_list). simpl. by rewrite (Hk _ _ Hin).
  - intros Ht. exists (st_ID t, t). by rewrite elem_of_map_to_list.
Qed.
Lemma batch_in c now m t :
  keyedByID m → t ∈ batch c now m → m !! st_ID t = Some t ∧ SchedStore.isDue (UnixMilli now) t = true.
Proof.
  intros Hk Ht. unfold batch in Ht. destruct (scanDueOf_spec ((map_to_list m).*2) (UnixMilli now) (BatchSize c)) as (_ & Hin & _).
  apply Hin in Ht as [Hr Hd]. by apply map_rows in Hr.
Qed.
Lemma batch_nodup c now m : keyedByID m → NoDup (st_ID <$> batch c now m).
Proof.
  intros Hk. unfold batch, SchedStore.scanDueOf.
  rewrite (list_fmap_ext SchedStore.copyScheduledTask id) by (intros; apply copyScheduledTask_id). rewrite list_fmap_id.
  set (l := merge_sort _ _).
  assert (Hl : NoDup (st_ID <$> l)).
  { unfold l. rewrite merge_sort_Permutation. eapply sublist_NoDup; [|eapply fmap_sublist, sublist_filter].
    rewrite <- list_fmap_compose. assert (Hid : st_ID ∘ snd <$> map_to_list m = (map_to_list m).*1).
    { apply list_fmap_ext. intros _ [id t] Hin%list_elem_of_lookup_2%elem_of_map_to_list. simpl. by apply Hk. }
    rewrite Hid. apply NoDup_fst_map_to_list. }
  case_decide; [|done]. eapply sublist_NoDup; [exact Hl|]. apply fmap_sublist, sublist_take.
Qed.

(** ** Runs

    Scans by the coordinators of the time, at the given instants; before each the
    rest of the system changes the table as [env] allows. *)
Section Runs.
Context (c : Config) (env : gmap string ScheduledTask → gmap string ScheduledTask → Prop).

Inductive scans : list Z → SchedState → list Dispatch → SchedState → Prop :=
| scans_nil s : scans [] s [] s
| scans_tick now nows d members s s1 out s2 trace s3 :
    keyedByID (tasksOf s1) → env (tasksOf s) (tasksOf s1) → IsCoordinator members (SelfID d) = true →
    tick c d (inr members) None now s1 = (Ret out, s2) → scans nows s2 trace s3 →
    scans (now :: nows) s (out ++ trace) s3.

Lemma tick_facts d members now s out s' :
  Enabled c = true → IsCoordinator members (SelfID d) = true → keyedByID (tasksOf s) →
  tick c d (inr members) None now s = (Ret out, s') →
  dp_task <$> out = batch c now (tasksOf s) ∧ NoDup (idOf <$> out) ∧
  ∀ id, tasksOf s' !! id = if decide (id ∈ idOf <$> out)
    then SchedStore.markedRedispatch (UnixMilli (now + RedispatchBackoff c)) <$> tasksOf s !! id else tasksOf s !! id.
Proof.
  intros He Hc Hk Ht. destruct (tick_run c d members now s He Hc) as (out' & s2 & Ht' & Hout & Htab).
  rewrite Ht in Ht'. injection Ht' as <- <-. split; [done|].
  assert (Hnd : NoDup (idOf <$> out)).
  { change (NoDup (st_ID ∘ dp_task <$> out)). rewrite list_fmap_compose, Hout. by apply batch_nodup. }
  split; [done|]. intros id. rewrite Htab. by apply markAll_lookup.
Qed.
Lemma out_due d members now s out s' id :
  Enabled c = true → IsCoordinator members (SelfID d) = true → keyedByID (tasksOf s) →
  tick c d (inr members) None now s = (Ret out, s') → id ∈ idOf <$> out →
  ∃ u, u ∈ batch c now (tasksOf s) ∧ tasksOf s !! id = Some u ∧ SchedStore.isDue (UnixMilli now) u = true ∧ st_ID u = id.
Proof.
  intros He Hc Hk Ht Hid. destruct (tick_facts d members now s out s' He Hc Hk Ht) as (Hout & _ & _).
  apply list_elem_of_fmap in Hid as (x & -> & Hx). assert (Hb : dp_task x ∈ batch c now (tasksOf s)).
  { rewrite <- Hout. apply list_elem_of_fmap. by exists x. }
  destruct (batch_in _ _ _ _ Hk Hb). by exists (dp_task x).
Qed.
End Runs.

(** Rows only disappear. *)
Definition removals (m m' : gmap string ScheduledTask) : Prop := m' ⊆ m.

Lemma undue_not_dispatched c nows s trace s' id :
  Enabled c = true → scans c removals nows s trace s' →
  (∀ u now, tasksOf s !! id = Some u → now ∈ nows → SchedStore.isDue (UnixMilli now) u = false) → id ∉ idOf <$> trace.
Proof.
  intros He Hr. induction Hr as [s|now nows d members s s1 out s2 trace s3 Hk Henv Hc Ht Hr IH]; intros Hu; [by intros ?%elem_of_nil|].
  assert (Hu1 : ∀ u now', tasksOf s1 !! id = Some u → now' ∈ now :: nows → SchedStore.isDue (UnixMilli now') u = false).
  { intros u now' Hl. apply Hu. by eapply lookup_weaken. }
  assert (Hno : id ∉ idOf <$> out).
  { intros (u & _ & Hl & Hd & _)%(out_due _ _ _ _ _ _ _ _ He Hc Hk Ht). rewrite (Hu1 u now Hl) in Hd; [done|by left]. }
  rewrite fmap_app, elem_of_app. intros [?|Hin]; [done|]. revert Hin. apply IH. intros u now' Hl Hn.
  destruct (tick_facts c d members now s1 out s2 He Hc Hk Ht) as (_ & _ & Htab). rewrite Htab, decide_False in Hl by done.
  apply Hu1; [done|by right].
Qed.

(** The backoff throttles: over scans that all fall into the backoff of the
    earlier ones, while rows only disappear, no task is handed out twice. *)
Theorem dispatched_once_per_backoff c nows s trace s' :
  Enabled c = true → scans c removals nows s trace s' →
  (∀ i j x y, nows !! i = Some x → nows !! j = Some y → i < j → (UnixMilli y < UnixMilli (x + RedispatchBackoff c))%Z) →
  NoDup (idOf <$> trace).
Proof.
  intros He Hr. induction Hr as [s|now nows d members s s1 out s2 trace s3 Hk Henv Hc Ht Hr IH]; intros Hn; [constructor|].
  destruct (tick_facts c d members now s1 out s2 He Hc Hk Ht) as (_ & Hnd & Htab).
  rewrite fmap_app. apply NoDup_app. split_and!; [done| |apply IH; intros i j x y Hi Hj Hij; apply (Hn (S i) (S j)); simpl; auto; lia].
  intros id Hid. eapply undue_not_dispatched; [done|exact Hr|]. intros u y Hl Hy. rewrite Htab, decide_True in Hl by done.
  apply fmap_Some in Hl as (v & _ & ->). unfold SchedStore.isDue. simpl.
  apply list_elem_of_lookup in Hy as [j Hj]. specialize (Hn 0 (S j) now y eq_refl Hj). rewrite andb_false_iff. right.
  apply bool_decide_eq_false. lia.
Qed.

(** ** Progress *)

(** Rows that may be scanned before [t] up to the instant [W]. *)
Definition ahead (W : Z) (t u : ScheduledTask) : Prop :=
  (ScheduledTime u ≤ ScheduledTime t)%Z ∧ match RedispatchAfter u with None => True | Some r => (r ≤ W)%Z end.
#[export] Instance ahead_dec W t u : Decision (ahead W t u).
Proof. unfold ahead. destruct (RedispatchAfter u); apply _. Defined.
Definition aheadIDs (W : Z) (t : ScheduledTask) (m : gmap string ScheduledTask) : gset string :=
  dom (filter (λ iu, iu.1 ≠ st_ID t ∧ ahead W t iu.2) m).
Lemma aheadIDs_elem W t m id : id ∈ aheadIDs W t m ↔ id ≠ st_ID t ∧ ∃ u, m !! id = Some u ∧ ahead W t u.
Proof.
  unfold aheadIDs. rewrite elem_of_dom. unfold is_Some. setoid_rewrite map_lookup_filter_Some. simpl. naive_solver.
Qed.
(** The rest of the system leaves [t] armed as it is and arms nothing ahead of it. *)
Definition spares (W : Z) (t : ScheduledTask) (m m' : gmap string ScheduledTask) : Prop :=
  (m !! st_ID t = Some t → m' !! st_ID t = Some t) ∧ aheadIDs W t m' ⊆ aheadIDs W t m.

Lemma tick_progress c d members t W now s out s' :
  Enabled c = true → IsCoordinator members (SelfID d) = true → keyedByID (tasksOf s) → (0 < BatchSize c)%Z →
  tick c d (inr members) None now s = (Ret out, s') → tasksOf s !! st_ID t = Some t →
  SchedStore.isDue (UnixMilli now) t = true → (UnixMilli now ≤ W < UnixMilli (now + RedispatchBackoff c))%Z →
  st_ID t ∉ idOf <$> out →
  tasksOf s' !! st_ID t = Some t ∧
  size (aheadIDs W t (tasksOf s')) + Z.to_nat (BatchSize c) ≤ size (aheadIDs W t (tasksOf s)).
Proof.
  intros He Hc Hk Hb Ht Hl Hd HW Hno. destruct (tick_facts c d members now s out s' He Hc Hk Ht) as (Hout & Hnd & Htab).
  split; [by rewrite Htab, decide_False|].
  assert (Hn : t ∉ batch c now (tasksOf s)).
  { rewrite <- Hout. intros (x & -> & Hx)%list_elem_of_fmap. apply Hno, list_elem_of_fmap. by exists x. }
  destruct (scanDueOf_spec ((map_to_list (tasksOf s)).*2) (UnixMilli now) (BatchSize c)) as (_ & _ & _ & Hleft).
  destruct (Hleft t) as (_ & Hlen & Hle); [by apply map_rows|done|done|]. fold (batch c now (tasksOf s)) in Hlen, Hle.
  set (ids := list_to_set (idOf <$> out) : gset string).
  assert (Hsz : size ids = Z.to_nat (BatchSize c)).
  { unfold ids. rewrite size_list_to_set by done. rewrite length_fmap, <- (length_fmap dp_task), Hout. lia. }
  assert (Hids : ids ⊆ aheadIDs W t (tasksOf s)).
  { intros id Hid%elem_of_list_to_set. apply aheadIDs_elem. split; [congruence|].
    destruct (out_due _ _ _ _ _ _ _ _ He Hc Hk Ht Hid) as (u & Hu & Hul & Hud & Hui). exists u. split; [done|].
    split; [by apply Hle|]. unfold SchedStore.isDue in Hud. apply andb_true_iff in Hud as [_ Hud].
    destruct (RedispatchAfter u); [|done]. apply bool_decide_eq_true in Hud. lia. }
  assert (Hdis : aheadIDs W t (tasksOf s') ⊆ aheadIDs W t (tasksOf s) ∖ ids).
  { intros id (Hne & u & Hu & Ha)%aheadIDs_elem. rewrite Htab in Hu. rewrite elem_of_difference. case_decide as Hin.
    - apply fmap_Some in Hu as (v & _ & ->). destruct Ha as [_ Ha]. simpl in Ha. lia.
    - split; [apply aheadIDs_elem; eauto|]. unfold ids. by rewrite elem_of_list_to_set. }
  apply subseteq_size in Hdis. rewrite size_difference in Hdis by done. apply subseteq_size in Hids. lia.
Qed.


(** ** Witnesses *)

Lemma tick_keyed c d members now s out s' :
  Enabled c = true → IsCoordinator members (SelfID d) = true → keyedByID (tasksOf s) →
  tick c d (inr members) None now s = (Ret out, s') → keyedByID (tasksOf s').
Proof.
  intros He Hc Hk Ht id u Hl. destruct (tick_facts c d members now s out s' He Hc Hk Ht) as (_ & _ & Htab).
  rewrite Htab in Hl. case_decide; [|by apply Hk]. apply fmap_Some in Hl as (v & Hv & ->). simpl. by apply Hk.
Qed.

Module SchedSample.
Definition members : list NodeInfo := [mkNode "b" "host-b" true; mkNode "a" "host-a" true; mkNode "c" "host-c" true].
Definition config : Config := mkConfig true 1000000000 1.
Definition deps : Deps := mkDeps RoundRobin "a".
Definition table : gmap string ScheduledTask :=
  {["k1" := sampleTask "k1" "e1" "OLD" 5; "k2" := sampleTask "k2" "e2" "OLD" 7]}.
Definition start : SchedState := mkSched (mkMem (mkFactory ∅ ∅ ∅ ∅ table) (emptyTM 0) ∅) 0 true.
Lemma start_keyed : keyedByID (tasksOf start).
Proof. intros id t. unfold tasksOf. simpl. unfold table. rewrite lookup_insert_Some, lookup_singleton_Some. naive_solver. Qed.

(** Two scans by [a], with nothing happening in between. *)
Lemma two_scans env : (∀ m, env m m) →
  ∃ trace s', scans config env [20000000; 30000000]%Z start trace s'.
Proof.
  intros Henv. destruct (tick_run config deps members 20000000 start) as (o1 & s1 & H1 & _); [done..|].
  destruct (tick_run config deps members 30000000 s1) as (o2 & s2 & H2 & _); [done..|].
  exists (o1 ++ o2 ++ []), s2. eapply (scans_tick _ _ _ _ deps members); [apply start_keyed|done|done|exact H1|].
  eapply (scans_tick _ _ _ _ deps members); [|done|done|exact H2|apply scans_nil].
  by eapply tick_keyed; [| |apply start_keyed|exact H1].
Qed.

Lemma one_coordinator_witness : IsCoordinator members "a" = true ∧ IsCoordinator members "b" = false.
Proof.
  destruct (one_coordinator members) as (id & Hin & Hle & Hid); [done|].
  assert (Ha : IsCoordinator members "a" = true) by reflexivity. split; [exact Ha|].
  apply Hid in Ha as <-. destruct (IsCoordinator members "b") eqn:Hb; [|reflexivity]. by apply Hid in Hb.
Defined.
Lemma round_robin_fair_witness : picks 3 5 members "a" ≡ₚ ["b"; "a"; "c"].
Proof. apply (round_robin_fair members "a" 5); [done|lia|simpl; lia]. Defined.
Lemma dispatched_once_per_backoff_witness :
  ∃ trace s', scans config removals [20000000; 30000000]%Z start trace s' ∧ NoDup (idOf <$> trace).
Proof.
  destruct (two_scans removals) as (trace & s' & Hr); [intros m; unfold removals; reflexivity|]. exists trace, s'. split; [exact Hr|].
  apply (dispatched_once_per_backoff config _ _ _ _ eq_refl Hr).
  intros [|[|i]] [|[|j]] x y Hx Hy Hij; try lia; try done. injection Hx as <-. injection Hy as <-. reflexivity.
Defined.
End SchedSample.
