(* ===== verification/WorkflowImport.v ===== *)
(** * Workflow import and export

    [internal/domain/workflow/validate.go], [import.go], [schemaversion.go] and
    [handler.go]: what a workflow must look like to be imported, how an import
    combines with what is stored, and the two HTTP handlers over the memory plugin's
    workflow store.  The criteria are checked by the validators of Condition, the
    loops by WorkflowLoops. *)

From Stdlib Require Import Ascii.
From stdpp Require Import base gmap strings list pretty.
From S2P Require Import Prelude GoStrings Spi MemStores Workflow WorkflowRun WorkflowFrame WorkflowSample WorkflowPath WorkflowLoops Schema SchemaAdmit Condition.

(** ** Results *)

Definition sbind {E A B} (r : E + A) (f : A → E + B) : E + B := match r with inl e => inl e | inr a => f a end.
Local Notation "x ←? r ; k" := (sbind r (λ x, k)) (at level 20, r at level 100, k at level 200, right associativity).

(** A loop that stops at the first error. *)
Fixpoint traverse {E A B} (f : A → E + B) (l : list A) : E + list B :=
  match l with
  | [] => inr []
  | x :: l => y ←? f x; ys ←? traverse f l; inr (y :: ys)
  end.

Lemma traverse_inr {E A B} (f : A → E + B) l k : traverse f l = inr k ↔ Forall2 (λ x y, f x = inr y) l k.
Proof.
  revert k. induction l as [|x l IH]; intros k; simpl.
  - split; [by intros [= <-]|by inversion 1].
  - destruct (f x) as [e|y] eqn:Ef; simpl; [by split; [|inversion 1; congruence]|].
    destruct (traverse f l) as [e|ys]; simpl.
    + split; [done|]. inversion 1 as [|? y' ? ys' _ Hys]; subst. by apply IH in Hys.
    + split.
      * intros [= <-]. constructor; [done|]. by apply IH.
      * inversion 1 as [|? y' ? ys' Hy Hys]; subst. rewrite Ef in Hy. injection Hy as ->.
        apply IH in Hys. by injection Hys as ->.
Qed.

(** ** Errors *)

Inductive ImportRule : Type :=
| RDuplicateWorkflow | REmptyWorkflowName | RNameTooLong (len : nat)
| REmptyInitialState | RInitialStateUndeclared | RCriterion (e : cerr) | RPattern (why : string)
| REmptyStateName | REmptyTransitionName | RDuplicateTransition | RNextUndeclared
| RManualScheduled | RScheduleShape | RScheduleResultKind | RScheduleFunctionIncomplete
| REmptyProcessorName | RAsyncResult | RCrossover | RExecutionMode | RRetryPolicy
| RAnnotationsNotObject | RAnnotationsNotJSON | RAnnotationsTooBig (len : nat)
| RInfiniteLoop (path : list string) | RLoopSearchSpins | RStartNewTxOnDispatch.

(** The rule broken and where: workflow, state, transition, processor. *)
Record importErr := mkImportErr { ie_rule : ImportRule; ie_at : list string }.

Definition reject (b : bool) (rule : ImportRule) (at_ : list string) : option importErr :=
  if b then Some (mkImportErr rule at_) else None.
Lemma reject_None b rule at_ : reject b rule at_ = None ↔ b = false.
Proof. by destruct b. Qed.

(** What the encoders and decoders outside the package do: the condition parser of
    the storage contract, [json.Compact], and what [json.Marshal] makes of the raw
    JSON inside a value (compact, with HTML characters escaped); and the order in
    which [range] visits a map, each entry once. *)
Class ImportEnv := {
  ParseCondition : string → option Condition;
  Compact : string → option string;
  reencode : string → string;
  rangeStates : gmap string StateDefinition → list (string * StateDefinition);
  rangeStates_perm : ∀ m, rangeStates m ≡ₚ map_to_list m
}.
(** [json.Compact] drops insignificant space: its result is compact already, and an
    object stays an object.  Marshalling twice changes nothing more. *)
Class ImportLaws {N : ImportEnv} : Prop := {
  Compact_idem : ∀ s t, Compact s = Some t → Compact t = Some t;
  Compact_trimmed : ∀ s t, Compact s = Some t → TrimSpace t = t;
  Compact_object : ∀ s t, HasPrefix s "{" = true → Compact s = Some t → HasPrefix t "{" = true;
  reencode_idem : ∀ s, reencode (reencode s) = reencode s
}.

Section Importing.
Context {K : Kernel} {N : ImportEnv}.

(** ** Annotations *)

Definition maxAnnotationsBytes : Z := 64 * 1024.

Definition canonicalizeAnnotations (raw : string) (location : list string) : importErr + string :=
  let trimmed := TrimSpace raw in
  if decide (trimmed = "" ∨ trimmed = "null") then inr "" else
  if negb (HasPrefix trimmed "{") then inl (mkImportErr RAnnotationsNotObject location) else
  match Compact trimmed with
  | None => inl (mkImportErr RAnnotationsNotJSON location)
  | Some buf =>
      if decide (maxAnnotationsBytes < Z.of_nat (String.length buf))%Z
      then inl (mkImportErr (RAnnotationsTooBig (String.length buf)) location)
      else inr buf
  end.

Definition annotateProcessor (at_ : list string) (p : ProcessorDefinition) : importErr + ProcessorDefinition :=
  canon ←? canonicalizeAnnotations (pr_Annotations p) (at_ ++ [pr_Name p]);
  inr (mkProc (pr_Name p) (pr_Type p) (pr_ExecutionMode p) (pr_StartNewTxOnDispatch p) (pr_AsyncResult p)
         (pr_CrossoverToAsyncMs p) (pr_RetryPolicy p) (pr_AttachEntity p) canon).
Definition annotateTransition (at_ : list string) (tr : TransitionDefinition) : importErr + TransitionDefinition :=
  canon ←? canonicalizeAnnotations (tr_Annotations tr) (at_ ++ [tr_Name tr]);
  crit ←? canonicalizeAnnotations (tr_CriterionAnnotations tr) (at_ ++ [tr_Name tr; "criterionAnnotations"]);
  procs ←? traverse (annotateProcessor (at_ ++ [tr_Name tr])) (tr_Processors tr);
  inr (mkTransition (tr_Name tr) (tr_Next tr) (tr_Manual tr) (tr_Disabled tr) (tr_Criterion tr) procs
         (tr_Schedule tr) canon crit).
Definition annotateState (wfName : string) (entry : string * StateDefinition) : importErr + string * StateDefinition :=
  canon ←? canonicalizeAnnotations (st_Annotations entry.2) [wfName; entry.1];
  trs ←? traverse (annotateTransition [wfName; entry.1]) (st_Transitions entry.2);
  inr (entry.1, mkState trs canon).
(** Each state is written back under its name. *)
Definition writeBack (states : gmap string StateDefinition) (entries : list (string * StateDefinition)) :
    gmap string StateDefinition := foldr (λ e m, <[e.1 := e.2]> m) states entries.
Definition annotateWorkflow (wf : WorkflowDefinition) : importErr + WorkflowDefinition :=
  canon ←? canonicalizeAnnotations (wf_Annotations wf) [wf_Name wf];
  crit ←? canonicalizeAnnotations (wf_CriterionAnnotations wf) [wf_Name wf; "criterionAnnotations"];
  entries ←? traverse (annotateState (wf_Name wf)) (rangeStates (wf_StateDefs wf));
  inr (mkWorkflow (wf_Name wf) (wf_Active wf) (wf_InitialState wf) (wf_Criterion wf)
         (writeBack (wf_StateDefs wf) entries) (wf_Version wf) (wf_Description wf) canon crit).
Definition validateAndNormalizeAnnotations (workflows : list WorkflowDefinition) : importErr + list WorkflowDefinition :=
  traverse annotateWorkflow workflows.

(** ** Structure *)

Definition maxIdentifierLen : nat := 256.
Definition validExecutionModes : list string :=
  [""; "SYNC"; "ASYNC_SAME_TX"; ExecutionModeAsyncNewTx; ExecutionModeCommitBeforeDispatch].
Definition validRetryPolicies : list string := [""; "NONE"; "FIXED"].
Definition tooLong (name : string) : bool := bool_decide (maxIdentifierLen < String.length name).

Fixpoint walkCriterion (cond : Condition) : option cerr :=
  match cond with
  | SimpleCondition p _ _ => ValidateConditionJSONPath p
  | ArrayCondition p _ => ValidateArrayClauseJSONPath p
  | LifecycleCondition f op v => ValidateLifecycleCondition f op v
  | GroupCondition _ cs => firstErr walkCriterion cs
  | FunctionCondition _ | NilCondition => None
  end.

(** A criterion that does not parse is left for its evaluation to refuse. *)
Definition validateCriterion (criterion : string) (location : list string) : option importErr :=
  let trimmed := TrimSpace criterion in
  if decide (trimmed = "" ∨ trimmed = "null") then None else
  match ParseCondition trimmed with
  | None => None
  | Some cond =>
      match walkCriterion cond with
      | Some e => Some (mkImportErr (RCriterion e) location)
      | None =>
          match ValidateCriterionCondition cond with
          | Some e => Some (mkImportErr (RCriterion e) location)
          | None =>
              match ValidatePatterns cond with
              | Some e => Some (mkImportErr (RPattern e) location)
              | None => None
              end
          end
      end
  end.

Definition validateProcessor (at_ : list string) (p : ProcessorDefinition) : option importErr :=
  let here := at_ ++ [pr_Name p] in
  firstErr id
    [ reject (bool_decide (pr_Name p = "")) REmptyProcessorName at_;
      reject (tooLong (pr_Name p)) (RNameTooLong (String.length (pr_Name p))) at_;
      reject (bool_decide (pr_AsyncResult p = Some true)) RAsyncResult here;
      reject (bool_decide (pr_CrossoverToAsyncMs p ≠ None)) RCrossover here;
      reject (negb (bool_decide (pr_ExecutionMode p ∈ validExecutionModes))) RExecutionMode here;
      reject (negb (bool_decide (pr_RetryPolicy p ∈ validRetryPolicies))) RRetryPolicy here ].

Definition validateSchedule (at_ : list string) (tr : TransitionDefinition) : option importErr :=
  match tr_Schedule tr with
  | None => None
  | Some sc =>
      let hasDelay := bool_decide (0 < sc_DelayMs sc)%Z in
      let hasFn := match sc_Function sc with Some _ => true | None => false end in
      firstErr id
        [ reject (tr_Manual tr) RManualScheduled at_;
          reject (Bool.eqb hasDelay hasFn) RScheduleShape at_;
          match sc_Function sc with
          | None => None
          | Some f =>
              firstErr id
                [ reject (negb (bool_decide (sf_ResultKind f = "Schedule"))) RScheduleResultKind at_;
                  reject (bool_decide (sf_Name f = "" ∨ sf_CalculationNodesTags f = "")) RScheduleFunctionIncomplete at_ ]
          end ]
  end.

(** One transition; [trNames] holds the names of the state's earlier ones. *)
Definition validateTransition (wfName stateName : string) (declared : gset string) (trNames : list string)
    (tr : TransitionDefinition) : option importErr :=
  let at_ := [wfName; stateName] in
  let here := [wfName; stateName; tr_Name tr] in
  firstErr id
    [ reject (bool_decide (tr_Name tr = "")) REmptyTransitionName at_;
      reject (tooLong (tr_Name tr)) (RNameTooLong (String.length (tr_Name tr))) at_;
      reject (bool_decide (tr_Name tr ∈ trNames)) RDuplicateTransition here;
      reject (negb (bool_decide (tr_Next tr ∈ declared))) RNextUndeclared here;
      validateCriterion (tr_Criterion tr) here;
      validateSchedule here tr;
      firstErr (validateProcessor here) (tr_Processors tr) ].
Fixpoint validateTransitions (wfName stateName : string) (declared : gset string) (trNames : list string)
    (trs : list TransitionDefinition) : option importErr :=
  match trs with
  | [] => None
  | tr :: trs =>
      match validateTransition wfName stateName declared trNames tr with
      | Some e => Some e
      | None => validateTransitions wfName stateName declared (tr_Name tr :: trNames) trs
      end
  end.
Definition validateState (wfName : string) (declared : gset string) (entry : string * StateDefinition) : option importErr :=
  firstErr id
    [ reject (bool_decide (entry.1 = "")) REmptyStateName [wfName];
      reject (tooLong entry.1) (RNameTooLong (String.length entry.1)) [wfName];
      validateTransitions wfName entry.1 declared [] (st_Transitions entry.2) ].

Definition validateWorkflowStructure (wf : WorkflowDefinition) : option importErr :=
  let declared := dom (wf_StateDefs wf) in
  firstErr id
    [ reject (bool_decide (wf_Name wf = "")) REmptyWorkflowName [];
      reject (tooLong (wf_Name wf)) (RNameTooLong (String.length (wf_Name wf))) [];
      reject (bool_decide (wf_InitialState wf = "")) REmptyInitialState [wf_Name wf];
      reject (negb (bool_decide (wf_InitialState wf ∈ declared))) RInitialStateUndeclared [wf_Name wf];
      validateCriterion (wf_Criterion wf) [wf_Name wf];
      firstErr (validateState (wf_Name wf) declared) (rangeStates (wf_StateDefs wf)) ].

Fixpoint duplicateName (seen : list string) (workflows : list WorkflowDefinition) : option importErr :=
  match workflows with
  | [] => None
  | wf :: workflows =>
      if decide (wf_Name wf ∈ seen ∧ wf_Name wf ≠ "") then Some (mkImportErr RDuplicateWorkflow [wf_Name wf])
      else duplicateName (wf_Name wf :: seen) workflows
  end.
Definition validateImportRequest (workflows : list WorkflowDefinition) : option importErr :=
  match duplicateName [] workflows with
  | Some e => Some e
  | None => firstErr validateWorkflowStructure workflows
  end.

(** ** Behaviour *)

Definition misusedFlag (wfName : string) (tr : TransitionDefinition) (p : ProcessorDefinition) : option importErr :=
  reject (bool_decide (pr_StartNewTxOnDispatch p = Some true ∧ pr_ExecutionMode p ≠ ExecutionModeCommitBeforeDispatch))
    RStartNewTxOnDispatch [wfName; tr_Name tr; pr_Name p].
Definition validateProcessorFlags (wf : WorkflowDefinition) : option importErr :=
  firstErr (λ entry, firstErr (λ tr, firstErr (misusedFlag (wf_Name wf) tr) (tr_Processors tr))
                       (st_Transitions entry.2)) (rangeStates (wf_StateDefs wf)).

Definition loopError (wf : WorkflowDefinition) : option importErr :=
  match validateWorkflowLoops wf with
  | Finished _ => None
  | Loop path => Some (mkImportErr (RInfiniteLoop path) [wf_Name wf])
  | Spun => Some (mkImportErr RLoopSearchSpins [wf_Name wf])
  end.
Definition validateWorkflows (workflows : list WorkflowDefinition) (allowCycles : bool) : option importErr :=
  firstErr (λ wf, firstErr id [ (if allowCycles then None else loopError wf); validateProcessorFlags wf ]) workflows.

(** ** Schema versions *)

Definition CurrentSchemaVersion : string := "1.4".
Record SchemaRange := mkRange { Major : Z; MinMinor : Z; MaxMinor : Z }.
Definition SupportedSchemaRanges : list SchemaRange := [mkRange 1 1 4].

(** The parse errors, and the sentinels of [Supports]. *)
Inductive versionErr : Type :=
| VEmpty | VForm | VEmptySegment | VLeadingZero | VNonDigit | VOutOfRange
| ErrSchemaMajorUnsupported | ErrSchemaMinorTooNew | ErrSchemaMinorTooOld.

(** [strconv.Atoi] of a string of digits, on 64 bits. *)
Definition maxInt : Z := 2^63 - 1.
Definition digitVal (c : ascii) : Z := Z.of_N (N_of_ascii c) - 48.
Definition isDigit (c : ascii) : bool := let n := N_of_ascii c in (48 <=? n)%N && (n <=? 57)%N.
Definition decimal (seg : string) : Z := foldl (λ acc c, acc * 10 + digitVal c)%Z 0%Z (bytesOfString seg).
Definition Atoi (seg : string) : versionErr + Z :=
  if decide (decimal seg ≤ maxInt)%Z then inr (decimal seg) else inl VOutOfRange.

Definition parseSegment (seg : string) : versionErr + Z :=
  if decide (seg = "") then inl VEmptySegment else
  if bool_decide (1 < String.length seg) && HasPrefix seg "0" then inl VLeadingZero else
  if negb (forallb isDigit (bytesOfString seg)) then inl VNonDigit else
  Atoi seg.
Definition ParseSchemaVersion (s : string) : versionErr + Z * Z :=
  if decide (s = "") then inl VEmpty else
  match Split "."%char s with
  | [a; b] => maj ←? parseSegment a; min ←? parseSegment b; inr (maj, min)
  | _ => inl VForm
  end.

(** The first range of the major decides. *)
Fixpoint supportsIn (ranges : list SchemaRange) (major minor : Z) : option versionErr :=
  match ranges with
  | [] => Some ErrSchemaMajorUnsupported
  | r :: ranges =>
      if negb (bool_decide (Major r = major)) then supportsIn ranges major minor else
      if decide (minor < MinMinor r)%Z then Some ErrSchemaMinorTooOld else
      if decide (MaxMinor r < minor)%Z then Some ErrSchemaMinorTooNew else None
  end.
Definition Supports (major minor : Z) : option versionErr := supportsIn SupportedSchemaRanges major minor.

Definition validateSchemaVersion (wf : WorkflowDefinition) : option versionErr :=
  match ParseSchemaVersion (wf_Version wf) with
  | inl e => Some e
  | inr (maj, min) => Supports maj min
  end.
Definition validateSchemaVersions (workflows : list WorkflowDefinition) : option versionErr :=
  firstErr validateSchemaVersion workflows.

(** ** Import modes *)

Definition deactivate (wf : WorkflowDefinition) : WorkflowDefinition :=
  mkWorkflow (wf_Name wf) false (wf_InitialState wf) (wf_Criterion wf) (wf_StateDefs wf) (wf_Version wf)
    (wf_Description wf) (wf_Annotations wf) (wf_CriterionAnnotations wf).

(** [merged] and [order] after the loop over the incoming workflows. *)
Fixpoint overlay (incoming : list WorkflowDefinition) (merged : gmap string WorkflowDefinition) (order : list string) :
    gmap string WorkflowDefinition * list string :=
  match incoming with
  | [] => (merged, order)
  | wf :: incoming =>
      overlay incoming (<[wf_Name wf := wf]> merged)
        (match merged !! wf_Name wf with Some _ => order | None => order ++ [wf_Name wf] end)
  end.
(** Reading a missing key gives the zero value. *)
Definition zeroWorkflow : WorkflowDefinition := mkWorkflow "" false "" "" ∅ "" "" "" "".

Definition applyImportMode (existing incoming : list WorkflowDefinition) (mode : string) : list WorkflowDefinition :=
  if decide (mode = "REPLACE") then incoming else
  if decide (mode = "ACTIVATE") then
    (deactivate <$> filter (λ wf, wf_Name wf ∉ wf_Name <$> incoming) existing) ++ incoming
  else
    let merged := foldl (λ m wf, <[wf_Name wf := wf]> m) ∅ existing in
    let '(merged, order) := overlay incoming merged (wf_Name <$> existing) in
    (λ name, default zeroWorkflow (merged !! name)) <$> order.

(** ** The request *)

Record workflowImportDef := mkImportDef {
  wi_Version : string; wi_Name : string; wi_Description : string; wi_InitialState : string;
  wi_Active : option bool; wi_Criterion : string; wi_States : gmap string StateDefinition;
  wi_Annotations : string; wi_CriterionAnnotations : string
}.
Record importRequest := mkImportRequest {
  ir_ImportMode : string; ir_AllowCycles : bool; ir_Workflows : list workflowImportDef
}.

(** Which [attachEntity] keys the body has: per transition, the one of
    [schedule.function] and one per processor. *)
Record transitionProbe := mkProbe { tp_Function : option (option bool); tp_Processors : list (option bool) }.
Abbreviation attachEntityProbe := (list (gmap string (list transitionProbe))).

(** The loops over index-aligned slices. *)
Definition aligned {A B} (f : A → B → A) (l : list A) (ps : list B) : list A :=
  imap (λ i x, match ps !! i with Some p => f x p | None => x end) l.

Definition attachFunction (f : ScheduleFunction) (omitted : bool) : ScheduleFunction :=
  mkFunction (sf_Name f) (sf_ResultKind f) (sf_CalculationNodesTags f) (if omitted then true else sf_AttachEntity f).
Definition attachProcessor (p : ProcessorDefinition) (probe : option bool) : ProcessorDefinition :=
  mkProc (pr_Name p) (pr_Type p) (pr_ExecutionMode p) (pr_StartNewTxOnDispatch p) (pr_AsyncResult p)
    (pr_CrossoverToAsyncMs p) (pr_RetryPolicy p)
    (match probe with None => true | Some _ => pr_AttachEntity p end) (pr_Annotations p).
Definition attachTransition (tr : TransitionDefinition) (pTr : transitionProbe) : TransitionDefinition :=
  mkTransition (tr_Name tr) (tr_Next tr) (tr_Manual tr) (tr_Disabled tr) (tr_Criterion tr)
    (aligned attachProcessor (tr_Processors tr) (tp_Processors pTr))
    ((λ sc, mkSchedule (sc_DelayMs sc) (sc_TimeoutMs sc)
              ((λ f, attachFunction f (bool_decide (tp_Function pTr = Some None))) <$> sc_Function sc)) <$> tr_Schedule tr)
    (tr_Annotations tr) (tr_CriterionAnnotations tr).
Definition attachState (probe : gmap string (list transitionProbe)) (name : string) (st : StateDefinition) :
    StateDefinition :=
  match probe !! name with
  | None => st
  | Some ps => mkState (aligned attachTransition (st_Transitions st) ps) (st_Annotations st)
  end.
Definition attachWorkflow (w : workflowImportDef) (probe : gmap string (list transitionProbe)) : workflowImportDef :=
  mkImportDef (wi_Version w) (wi_Name w) (wi_Description w) (wi_InitialState w) (wi_Active w) (wi_Criterion w)
    (map_imap (λ name st, Some (attachState probe name st)) (wi_States w)) (wi_Annotations w) (wi_CriterionAnnotations w).
Definition applyAttachEntityDefaults (workflows : list workflowImportDef) (probe : attachEntityProbe) :
    list workflowImportDef := aligned attachWorkflow workflows probe.

(** An absent [active] means true. *)
Definition toWorkflow (w : workflowImportDef) : WorkflowDefinition :=
  mkWorkflow (wi_Name w) (default true (wi_Active w)) (wi_InitialState w) (wi_Criterion w) (wi_States w)
    (wi_Version w) (wi_Description w) (wi_Annotations w) (wi_CriterionAnnotations w).

(** ** The handlers *)

Inductive apiErr : Type :=
| ABadRequest (why : string)
| ASchemaVersion (e : versionErr)
| AModelNotFound
| AWorkflowNotFound
| AValidationFailed (e : importErr)
| AEmptyImport
| AInternal (why : string) (e : err).

(** The body decoded strictly, with what follows the request object; and the second,
    lenient decoding. *)
Context (decodeRequest : string → string + importRequest * bool) (decodeProbe : string → attachEntityProbe).
(** The store factory resolves the caller's tenant; the model store looks a model up;
    the workflow store copies through JSON. *)
Context (tenantOf : err + string) (modelGet : string → ModelRef → option err)
        (copyWorkflows : list WorkflowDefinition → err + list WorkflowDefinition).

Abbreviation Store := (gmap string (gmap ModelRef (list WorkflowDefinition))).
Abbreviation HM := (M apiErr Store).

Definition maxBody : Z := 10 * 1024 * 1024.
Definition refuse (e : option apiErr) : HM unit := match e with Some e => fail e | None => mret tt end.
(** [storeCall m]: the call's error as a value. *)
Definition storeCall {A} (m : M err Store A) : HM (err + A) := λ s,
  match m s with
  | (Ret a, s') => (Ret (inr a), s')
  | (Err e, s') => (Ret (inl e), s')
  | (Panic w, s') => (Panic w, s')
  end.

Definition decodeBody (body : string) : apiErr + importRequest :=
  if decide (maxBody < Z.of_nat (String.length body))%Z then inl (ABadRequest "failed to read request body") else
  match decodeRequest body with
  | inl e => inl (ABadRequest e)
  | inr (_, true) => inl (ABadRequest "trailing data after request object")
  | inr (req, false) => inr req
  end.
Definition importMode (req : importRequest) : apiErr + string :=
  let mode := ToUpper (ir_ImportMode req) in
  let mode := if decide (mode = "") then "MERGE" else mode in
  if decide (mode ≠ "MERGE" ∧ mode ≠ "REPLACE" ∧ mode ≠ "ACTIVATE") then inl (ABadRequest "unknown importMode")
  else inr mode.

Definition requireModel (ref : ModelRef) : apiErr + string :=
  match tenantOf with
  | inl e => inl (AInternal "failed to get model store" e)
  | inr tenant =>
      match modelGet tenant ref with
      | Some ErrNotFound => inl AModelNotFound
      | Some e => inl (AInternal "failed to load model" e)
      | None => inr tenant
      end
  end.

(** The checks between loading and saving: what the store will hold. *)
Definition combine (existing incoming : list WorkflowDefinition) (mode : string) (allowCycles : bool) :
    apiErr + list WorkflowDefinition :=
  if decide (incoming = [] ∧ (mode = "REPLACE" ∨ mode = "ACTIVATE")) then inl AEmptyImport else
  match validateImportRequest incoming with
  | Some e => inl (AValidationFailed e)
  | None =>
      match validateAndNormalizeAnnotations incoming with
      | inl e => inl (AValidationFailed e)
      | inr incoming =>
          let result := applyImportMode existing incoming mode in
          match validateWorkflows result allowCycles with
          | Some e => inl (AValidationFailed e)
          | None => inr result
          end
      end
  end.

Definition incomingOf (req : importRequest) (body : string) : list WorkflowDefinition :=
  toWorkflow <$> applyAttachEntityDefaults (ir_Workflows req) (decodeProbe body).

Definition ImportEntityModelWorkflow (ref : ModelRef) (body : string) : HM unit :=
  req ← lift_sum (decodeBody body);
  mode ← lift_sum (importMode req);
  let incoming := incomingOf req body in
  refuse (ASchemaVersion <$> validateSchemaVersions incoming);;
  tenant ← lift_sum (requireModel ref);
  loaded ← storeCall (WorkflowStore.workflowGet copyWorkflows tenant ref);
  existing ← match loaded with
             | inr existing => mret existing
             | inl ErrNotFound => mret []
             | inl e => fail (AInternal "failed to load existing workflows" e)
             end;
  result ← lift_sum (combine existing incoming mode (ir_AllowCycles req));
  saved ← storeCall (WorkflowStore.workflowSave copyWorkflows tenant ref result);
  match saved with
  | inl e => fail (AInternal "failed to save workflows" e)
  | inr _ => mret tt
  end.

(** Every workflow leaves with the current version on it. *)
Definition stamp (wf : WorkflowDefinition) : WorkflowDefinition :=
  mkWorkflow (wf_Name wf) (wf_Active wf) (wf_InitialState wf) (wf_Criterion wf) (wf_StateDefs wf)
    CurrentSchemaVersion (wf_Description wf) (wf_Annotations wf) (wf_CriterionAnnotations wf).

Definition ExportEntityModelWorkflow (ref : ModelRef) : HM (list WorkflowDefinition) :=
  tenant ← lift_sum (requireModel ref);
  loaded ← storeCall (WorkflowStore.workflowGet copyWorkflows tenant ref);
  match loaded with
  | inl e => fail (AInternal "failed to load workflows" e)
  | inr [] => fail AWorkflowNotFound
  | inr workflows => mret (stamp <$> workflows)
  end.
End Importing.
