(* ===== verification/SchemaVersion.v ===== *)
(** * Workflow schema versions

    [ParseSchemaVersion] and [Supports] of
    [internal/domain/workflow/schemaversion.go]: the accepted strings are exactly the
    printed pairs of 64-bit numbers, and of those exactly the supported window is let
    in. *)

From Stdlib Require Import Ascii.
From stdpp Require Import base strings list pretty.
From S2P Require Import Prelude GoStrings Spi Workflow WorkflowImport.

Definition digits (l : list ascii) : Prop := Forall (λ c, isDigit c = true) l.
Definition value (l : list ascii) (acc : Z) : Z := foldl (λ acc c, acc * 10 + digitVal c)%Z acc l.

Lemma isDigit_val c : isDigit c = true → (0 ≤ digitVal c ≤ 9)%Z ∧ c = pretty_N_char (Z.to_N (digitVal c)).
Proof. destruct c as [[] [] [] [] [] [] [] []]; vm_compute; intros; try done; by split; [split; done|]. Qed.
Lemma pretty_char_digit n : (n < 10)%N → isDigit (pretty_N_char n) = true ∧ digitVal (pretty_N_char n) = Z.of_N n.
Proof. intros Hn. assert (n = 0 ∨ n = 1 ∨ n = 2 ∨ n = 3 ∨ n = 4 ∨ n = 5 ∨ n = 6 ∨ n = 7 ∨ n = 8 ∨ n = 9)%N as Hc by lia.
  repeat destruct Hc as [->|Hc]; try subst n; done. Qed.

Lemma value_nonneg l acc : digits l → (0 ≤ acc)%Z → (acc ≤ value l acc)%Z.
Proof.
  unfold digits. revert acc. induction l as [|c l IH]; intros acc Hd Ha; simpl; [lia|].
  apply Forall_cons in Hd as [Hc Hd]. destruct (isDigit_val c Hc) as [Hv _]. specialize (IH (acc * 10 + digitVal c)%Z Hd).
  unfold value in *. simpl. lia.
Qed.

(** Printing, on numbers and on digits. *)
Lemma print_value x s : value (bytesOfString (pretty_N_go x s)) 0 = value (bytesOfString s) (Z.of_N x).
Proof.
  revert s. induction (N.lt_wf_0 x) as [x _ IH]; intros s. destruct (decide (0 < x)%N) as [Hx|Hx].
  - rewrite pretty_N_go_step by done. rewrite IH by (apply N.div_lt; lia). simpl.
    destruct (pretty_char_digit (x `mod` 10)) as [_ Hv]; [apply N.mod_lt; lia|]. unfold value. simpl. f_equal.
    rewrite Hv. assert (Hdm := N.div_mod x 10 ltac:(done)). lia.
  - assert (x = 0%N) as -> by lia. by rewrite pretty_N_go_0.
Qed.
Lemma print_digits x s : digits (bytesOfString s) → digits (bytesOfString (pretty_N_go x s)).
Proof.
  revert s. induction (N.lt_wf_0 x) as [x _ IH]; intros s Hs. destruct (decide (0 < x)%N) as [Hx|Hx].
  - rewrite pretty_N_go_step by done. apply IH; [apply N.div_lt; lia|]. constructor; [|done].
    apply pretty_char_digit. apply N.mod_lt. lia.
  - assert (x = 0%N) as -> by lia. by rewrite pretty_N_go_0.
Qed.

(** No leading zero. *)
Definition leads (l : list ascii) : Prop := match l with c :: _ => c ≠ "0"%char | [] => False end.
Lemma print_leads x s : (0 < x)%N → leads (bytesOfString (pretty_N_go x s)).
Proof.
  revert s. induction (N.lt_wf_0 x) as [x _ IH]; intros s Hx. rewrite pretty_N_go_step by done.
  destruct (decide (x < 10)%N) as [Hlt|Hge].
  - rewrite N.div_small, pretty_N_go_0 by done. simpl. rewrite N.mod_small by done. intros Hc.
    destruct (pretty_char_digit x Hlt) as [_ Hv]. rewrite Hc in Hv. change (digitVal "0"%char) with 0%Z in Hv. lia.
  - apply IH; [apply N.div_lt; lia|]. apply N.div_str_pos. lia.
Qed.
Lemma leads_positive l : leads l → digits l → (0 < value l 0)%Z.
Proof.
  destruct l as [|c l]; [done|]. intros Hc Hd. apply Forall_cons in Hd as [Hd Hl]. destruct (isDigit_val c Hd) as [Hv Heq].
  assert (digitVal c ≠ 0)%Z by (intros H0; rewrite H0 in Heq; by subst c).
  assert (Hm := value_nonneg l (0 * 10 + digitVal c)%Z Hl). unfold value in *. simpl. lia.
Qed.
Lemma leads_print l s :
  leads l → digits l → bytesOfString (pretty_N_go (Z.to_N (value l 0)) s) = l ++ bytesOfString s.
Proof.
  revert s. induction l as [|c l IH] using rev_ind; [done|]. intros s Hl Hd.
  assert (Hp := leads_positive _ Hl Hd). apply Forall_app in Hd as [Hd Hc]. apply Forall_cons in Hc as [Hc _].
  destruct (isDigit_val c Hc) as [Hv Heq].
  assert (Hval : value (l ++ [c]) 0 = (value l 0 * 10 + digitVal c)%Z) by (unfold value; by rewrite foldl_app).
  assert (Hnn : (0 ≤ value l 0)%Z) by (apply value_nonneg; [done|lia]).
  rewrite pretty_N_go_step by lia. rewrite Hval in *.
  assert (Hdiv : (Z.to_N (value l 0 * 10 + digitVal c) / 10 = Z.to_N (value l 0))%N).
  { symmetry. apply (N.div_unique _ _ _ (Z.to_N (digitVal c))); lia. }
  assert (Hmod : (Z.to_N (value l 0 * 10 + digitVal c) `mod` 10 = Z.to_N (digitVal c))%N).
  { symmetry. apply (N.mod_unique _ _ (Z.to_N (value l 0))); lia. }
  rewrite Hdiv, Hmod, <- Heq. destruct l as [|a l].
  - change (value [] 0) with 0%Z. rewrite pretty_N_go_0. done.
  - rewrite IH; [by rewrite <- app_assoc|done|done].
Qed.

Definition print (n : Z) : string := pretty (Z.to_N n).

Lemma bytes_inj s t : bytesOfString s = bytesOfString t → s = t.
Proof. revert t. induction s as [|c s IH]; intros [|d t] H; try done. injection H as -> H. by rewrite (IH t). Qed.

Lemma Split_one sep s a : Split sep s = [a] → s = a.
Proof.
  revert a. induction s as [|c s IH]; intros a; simpl; [by intros [= <-]|].
  destruct (Ascii.eqb c sep); [by intros [= _ ?%Split_nonempty]|].
  destruct (Split sep s) as [|x rest] eqn:E; [by destruct (Split_nonempty sep s)|].
  intros [= <- ->]. by rewrite (IH x).
Qed.
Lemma Split_pair sep s a b : Split sep s = [a; b] → s = a +:+ String sep b.
Proof.
  revert a. induction s as [|c s IH]; intros a; simpl; [done|].
  destruct (Ascii.eqb c sep) eqn:Hc.
  - apply Ascii.eqb_eq in Hc as ->. intros [= <- H]. by rewrite (Split_one _ _ _ H).
  - destruct (Split sep s) as [|x rest]; [done|]. intros [= <- ->]. by rewrite (IH x).
Qed.

Lemma print_pos n : (0 < n)%Z → print n = pretty_N_go (Z.to_N n) "".
Proof. intros Hn. unfold print, pretty, pretty_N. by rewrite decide_False by lia. Qed.
Lemma digits_forallb l : forallb isDigit l = true ↔ digits l.
Proof.
  unfold digits. induction l as [|c l IH]; simpl; [split; [intros _; constructor|done]|].
  by rewrite andb_true_iff, Forall_cons, IH.
Qed.
Lemma leads_prefix seg : leads (bytesOfString seg) → seg ≠ "" ∧ HasPrefix seg "0" = false.
Proof.
  intros Hl. split; [by intros ->|]. destruct (HasPrefix seg "0") eqn:Hp; [|done].
  by apply HasPrefix_spec in Hp as [r ->].
Qed.
Lemma segment_cases seg :
  seg ≠ "" → bool_decide (1 < String.length seg) && HasPrefix seg "0" = false → seg = "0" ∨ leads (bytesOfString seg).
Proof.
  destruct seg as [|c [|d seg]]; [done|..]; intros _ Hz.
  - destruct (decide (c = "0"%char)) as [->|Hc]; [by left|by right].
  - right. intros ->. done.
Qed.

Lemma parseSegment_print seg n : parseSegment seg = inr n ↔ (0 ≤ n ≤ maxInt)%Z ∧ seg = print n.
Proof.
  unfold parseSegment, Atoi. change (decimal seg) with (value (bytesOfString seg) 0). split.
  - destruct (decide (seg = "")) as [|Hne]; [done|]. destruct (_ && _) eqn:Hz; [done|]. destruct (forallb _ _) eqn:Hd; [|done]. simpl.
    destruct (decide (value _ _ ≤ _)%Z) as [Hmax|]; [|done]. intros [= <-]. apply digits_forallb in Hd.
    destruct (segment_cases seg Hne Hz) as [->|Hl]; [done|]. assert (Hp := leads_positive _ Hl Hd). split; [lia|].
    rewrite print_pos by done. apply bytes_inj. rewrite leads_print by done. by rewrite app_nil_r.
  - intros [Hn ->]. destruct (decide (n = 0)%Z) as [->|Hnz]; [done|]. rewrite print_pos by lia.
    destruct (leads_prefix (pretty_N_go (Z.to_N n) "")) as [Hne Hz]; [apply print_leads; lia|].
    rewrite decide_False by done. rewrite Hz, andb_false_r.
    rewrite (proj2 (digits_forallb _)) by (apply print_digits; constructor). simpl.
    rewrite print_value. simpl. rewrite Z2N.id by lia. by rewrite decide_True by lia.
Qed.

Lemma print_segment m : (0 ≤ m)%Z → decimal (print m) = m ∧ forallb isDigit (bytesOfString (print m)) = true ∧ print m ≠ "".
Proof.
  intros Hm. destruct (decide (m = 0)%Z) as [->|Hz]; [done|]. rewrite print_pos by lia.
  split_and!; [|apply digits_forallb, print_digits; constructor|].
  - change (value (bytesOfString (pretty_N_go (Z.to_N m) "")) 0 = m). rewrite print_value. simpl. unfold value. simpl. lia.
  - assert (Hl := print_leads (Z.to_N m) "" ltac:(lia)). by apply leads_prefix in Hl as [? _].
Qed.
Lemma print_nodot n : "."%char ∉ bytesOfString (print n).
Proof.
  assert (Hd : digits (bytesOfString (print n))).
  { unfold print, pretty, pretty_N. case_decide; [by repeat constructor|]. apply print_digits. constructor. }
  intros Hin. unfold digits in Hd. rewrite Forall_forall in Hd. by apply Hd in Hin.
Qed.

(** A schema version string is accepted as a pair of numbers just when it is
    the plain decimal printing of that pair, both within 64 bits; and of these the
    server supports exactly the minors 1 to 4 of major 1. *)
Theorem schema_version_exact s maj min :
  (ParseSchemaVersion s = inr (maj, min) ↔
     (0 ≤ maj ≤ maxInt)%Z ∧ (0 ≤ min ≤ maxInt)%Z ∧ s = print maj +:+ "." +:+ print min) ∧
  (Supports maj min = None ↔ maj = 1%Z ∧ (1 ≤ min ≤ 4)%Z).
Proof.
  split.
  - unfold ParseSchemaVersion. split.
    + case_decide as Hne; [done|]. destruct (Split "." s) as [|a [|b []]] eqn:Hs; try done.
      destruct (parseSegment a) as [|x] eqn:Ha; [done|]. destruct (parseSegment b) as [|y] eqn:Hb; [done|].
      intros [= <- <-]. apply parseSegment_print in Ha as [Hx ->]. apply parseSegment_print in Hb as [Hy ->].
      split_and!; [lia..|]. by rewrite (Split_pair _ _ _ _ Hs).
    + intros (Hx & Hy & ->). rewrite decide_False; [|by destruct (print maj)].
      change ("." +:+ print min) with (String "." (print min)).
      rewrite Split_app by apply print_nodot. rewrite Split_single by apply print_nodot.
      rewrite (proj2 (parseSegment_print _ maj)) by done. simpl. by rewrite (proj2 (parseSegment_print _ min)).
  - unfold Supports, SupportedSchemaRanges. cbn [supportsIn Major MinMinor MaxMinor].
    destruct (bool_decide_reflect (1 = maj)%Z); cbn [negb]; [|split; [done|lia]].
    destruct (decide (min < 1)%Z); [split; [done|lia]|]. destruct (decide (4 < min)%Z); [split; [done|lia]|].
    split; [lia|done].
Qed.
