(* ===== verification/WorkflowImportProof.v ===== *)
(** * Workflow import: what is accepted and what is stored

    The structural checks decide well-formedness; the import modes combine by name;
    an import either leaves the store alone or stores exactly the combination,
    checked and canonical; an export imports back. *)

From Stdlib Require Import Ascii.
From stdpp Require Import base gmap strings list pretty.
From S2P Require Import Prelude GoStrings Spi MemStores Workflow WorkflowRun WorkflowFrame WorkflowSample WorkflowPath WorkflowLoops Schema SchemaAdmit Condition WorkflowImport.

(** The checks of a list, one by one. *)
Ltac split_checks :=
  rewrite firstErr_None, ?Forall_cons, ?Forall_nil_iff; unfold id; rewrite ?reject_None, ?negb_false_iff,
    ?bool_decide_eq_false, ?bool_decide_eq_true.

Section Structure.
Context {K : Kernel} {N : ImportEnv}.

(** ** Well-formed workflows *)

Definition criterionOk (criterion : string) : Prop :=
  let c := TrimSpace criterion in
  c = "" ∨ c = "null" ∨ ParseCondition c = None ∨
  ∃ cond, ParseCondition c = Some cond ∧ walkCriterion cond = None ∧ ValidateCriterionCondition cond = None ∧
    ValidatePatterns cond = None.
Definition nameOk (name : string) : Prop := name ≠ "" ∧ String.length name ≤ maxIdentifierLen.
Definition processorOk (p : ProcessorDefinition) : Prop :=
  nameOk (pr_Name p) ∧ pr_AsyncResult p ≠ Some true ∧ pr_CrossoverToAsyncMs p = None ∧
  pr_ExecutionMode p ∈ validExecutionModes ∧ pr_RetryPolicy p ∈ validRetryPolicies.
(** A scheduled transition is not manual and has a delay or a function, not both. *)
Definition scheduleOk (tr : TransitionDefinition) : Prop :=
  ∀ sc, tr_Schedule tr = Some sc → tr_Manual tr = false ∧
    match sc_Function sc with
    | None => (0 < sc_DelayMs sc)%Z
    | Some f => (sc_DelayMs sc ≤ 0)%Z ∧ sf_ResultKind f = "Schedule" ∧ sf_Name f ≠ "" ∧ sf_CalculationNodesTags f ≠ ""
    end.
Definition transitionOk (declared : gset string) (tr : TransitionDefinition) : Prop :=
  nameOk (tr_Name tr) ∧ tr_Next tr ∈ declared ∧ criterionOk (tr_Criterion tr) ∧ scheduleOk tr ∧
  Forall processorOk (tr_Processors tr).
Definition stateOk (declared : gset string) (name : string) (st : StateDefinition) : Prop :=
  nameOk name ∧ NoDup (tr_Name <$> st_Transitions st) ∧ Forall (transitionOk declared) (st_Transitions st).
Definition wellFormed (wf : WorkflowDefinition) : Prop :=
  nameOk (wf_Name wf) ∧ wf_InitialState wf ≠ "" ∧ wf_InitialState wf ∈ dom (wf_StateDefs wf) ∧
  criterionOk (wf_Criterion wf) ∧
  ∀ name st, wf_StateDefs wf !! name = Some st → stateOk (dom (wf_StateDefs wf)) name st.

Lemma tooLong_false name : tooLong name = false ↔ String.length name ≤ maxIdentifierLen.
Proof. unfold tooLong. rewrite bool_decide_eq_false. lia. Qed.

Lemma validateCriterion_ok c loc : validateCriterion c loc = None ↔ criterionOk c.
Proof.
  unfold validateCriterion, criterionOk. case_decide as Hd; [tauto|].
  destruct (ParseCondition (TrimSpace c)) as [cond|]; [|tauto].
  destruct (walkCriterion cond) eqn:H1; [split; [done|]; naive_solver|].
  destruct (ValidateCriterionCondition cond) eqn:H2; [split; [done|]; naive_solver|].
  destruct (ValidatePatterns cond) eqn:H3; [split; [done|]; naive_solver|]. naive_solver.
Qed.
Lemma validateProcessor_ok at_ p : validateProcessor at_ p = None ↔ processorOk p.
Proof.
  unfold validateProcessor, processorOk, nameOk. split_checks. rewrite tooLong_false.
  destruct (pr_CrossoverToAsyncMs p); naive_solver.
Qed.
Lemma validateSchedule_ok at_ tr : validateSchedule at_ tr = None ↔ scheduleOk tr.
Proof.
  unfold validateSchedule, scheduleOk. destruct (tr_Schedule tr) as [sc|]; [|naive_solver].
  split_checks. destruct (sc_Function sc) as [f|] eqn:Hf.
  - split_checks. split.
    + intros (Hm & Hd & (Hk & Hn & _) & _) ? [= <-]. rewrite Hf. split; [done|].
      destruct (bool_decide_reflect (0 < sc_DelayMs sc)%Z); [done|]. split_and!; [lia|done|tauto..].
    + intros H. destruct (H sc eq_refl) as (Hm & H'). rewrite Hf in H'. destruct H' as (Hd & Hk & Hn & Ht).
      split_and!; try done; [by rewrite bool_decide_eq_false_2 by lia|tauto].
  - split.
    + intros (Hm & Hd & _) ? [= <-]. rewrite Hf. split; [done|].
      by destruct (bool_decide_reflect (0 < sc_DelayMs sc)%Z).
    + intros H. destruct (H sc eq_refl) as (Hm & Hd). rewrite Hf in Hd. split_and!; try done.
      by rewrite bool_decide_eq_true_2.
Qed.
Lemma validateTransition_ok w st declared seen tr :
  validateTransition w st declared seen tr = None ↔ tr_Name tr ∉ seen ∧ transitionOk declared tr.
Proof.
  unfold validateTransition, transitionOk, nameOk. split_checks. rewrite tooLong_false, validateCriterion_ok,
    validateSchedule_ok, firstErr_None. setoid_rewrite validateProcessor_ok. tauto.
Qed.
Lemma validateTransitions_ok w st declared seen trs :
  validateTransitions w st declared seen trs = None ↔
  NoDup (tr_Name <$> trs) ∧ Forall (λ tr, tr_Name tr ∉ seen) trs ∧ Forall (transitionOk declared) trs.
Proof.
  revert seen. induction trs as [|tr trs IH]; intros seen; simpl; [split; [intros _; split_and!; constructor|done]|].
  rewrite !Forall_cons, NoDup_cons, list_elem_of_fmap.
  destruct (validateTransition w st declared seen tr) eqn:Hv.
  { split; [done|]. intros (_ & [Hs _] & [Hok _]). assert (validateTransition w st declared seen tr = None); [|congruence].
    by apply validateTransition_ok. }
  apply validateTransition_ok in Hv as [Hs Hok]. rewrite IH. setoid_rewrite not_elem_of_cons. split.
  - intros (Hn & Hf & Ha). apply Forall_and in Hf as [Hf1 Hf2]. split_and!; try done.
    intros (tr' & Heq & Hin). rewrite Forall_forall in Hf1. by apply (Hf1 tr').
  - intros ((Hni & Hn) & (_ & Hf) & _ & Ha). split_and!; [done| |done]. apply Forall_and. split; [|done].
    rewrite Forall_forall. intros tr' Hin Heq. apply Hni. by exists tr'.
Qed.
Lemma range_elem m name st : (name, st) ∈ rangeStates m ↔ m !! name = Some st.
Proof. rewrite (rangeStates_perm m). apply elem_of_map_to_list. Qed.
Lemma range_Forall (P : string * StateDefinition → Prop) m :
  Forall P (rangeStates m) ↔ ∀ name st, m !! name = Some st → P (name, st).
Proof. rewrite Forall_forall. split; [intros H name st Hl; by apply H, range_elem|intros H [name st] Hin%range_elem; by apply H]. Qed.

Lemma structure_ok wf : validateWorkflowStructure wf = None ↔ wellFormed wf.
Proof.
  unfold validateWorkflowStructure, wellFormed, nameOk. split_checks.
  rewrite tooLong_false, validateCriterion_ok, firstErr_None, range_Forall.
  assert (Hst : ∀ name st, validateState (wf_Name wf) (dom (wf_StateDefs wf)) (name, st) = None ↔
                           stateOk (dom (wf_StateDefs wf)) name st).
  { intros name st. unfold validateState, stateOk, nameOk. split_checks. simpl.
    rewrite tooLong_false, validateTransitions_ok. assert (Forall (λ tr, tr_Name tr ∉ []) (st_Transitions st)); [|tauto].
    apply Forall_true. intros ? ?%elem_of_nil. done. }
  setoid_rewrite Hst. tauto.
Qed.

Lemma duplicateName_ok seen wfs :
  Forall (λ wf, wf_Name wf ≠ "") wfs →
  duplicateName seen wfs = None ↔ NoDup (wf_Name <$> wfs) ∧ Forall (λ wf, wf_Name wf ∉ seen) wfs.
Proof.
  revert seen. induction wfs as [|wf wfs IH]; intros seen Hne; simpl; [split; [intros _; split; constructor|done]|].
  apply Forall_cons in Hne as [Hw Hne]. rewrite NoDup_cons, Forall_cons, list_elem_of_fmap. case_decide as Hd; [split; [done|tauto]|].
  rewrite IH by done. setoid_rewrite not_elem_of_cons. split.
  - intros (Hn & Hf). apply Forall_and in Hf as [Hf1 Hf2]. split_and!; [|done|tauto|done].
    intros (x & Heq & Hin). rewrite Forall_forall in Hf1. by apply (Hf1 x).
  - intros ((Hni & Hn) & _ & Hf). split; [done|]. apply Forall_and. split; [|done].
    rewrite Forall_forall. intros x Hin Heq. apply Hni. by exists x.
Qed.

Lemma structure_request wfs :
  validateImportRequest wfs = None ↔ NoDup (wf_Name <$> wfs) ∧ Forall wellFormed wfs.
Proof.
  unfold validateImportRequest. assert (Hs : ∀ l, firstErr validateWorkflowStructure l = None ↔ Forall wellFormed l).
  { intros l. rewrite firstErr_None. by setoid_rewrite structure_ok. }
  assert (Hn : Forall wellFormed wfs → Forall (λ wf, wf_Name wf ≠ "") wfs).
  { intros Hw. eapply Forall_impl; [exact Hw|]. by intros wf [[Hne _] _]. }
  assert (Hnil : Forall (λ wf, wf_Name wf ∉ []) wfs) by (apply Forall_true; intros ? ?%elem_of_nil; done).
  destruct (duplicateName [] wfs) eqn:Hd.
  - split; [done|]. intros [Hnd Hw]. rewrite (proj2 (duplicateName_ok [] wfs (Hn Hw)) (conj Hnd Hnil)) in Hd. done.
  - rewrite Hs. split; [|tauto]. intros Hw. split; [|done]. by apply (duplicateName_ok [] wfs (Hn Hw)).
Qed.

(** The structural checks decide well-formedness: a request passes just when
    its workflow names are distinct and every workflow starts in a declared state,
    leads only to declared states, names each state's transitions differently, has
    sound criteria, coherent schedules and processors this backend can run, with
    every name present and within its length. *)
Theorem import_structure_decides wfs :
  validateImportRequest wfs = None ↔ NoDup (wf_Name <$> wfs) ∧ Forall wellFormed wfs.
Proof. apply structure_request. Qed.
End Structure.

(** ** Import modes *)

Definition names (wfs : list WorkflowDefinition) : list string := wf_Name <$> wfs.
(** What becomes of a stored workflow the request does not name. *)
Definition survivor (mode : string) (old : WorkflowDefinition) : option WorkflowDefinition :=
  if decide (mode = "REPLACE") then None else if decide (mode = "ACTIVATE") then Some (deactivate old) else Some old.

Lemma foldl_insert_lookup wfs (m : gmap string WorkflowDefinition) n wf :
  NoDup (names wfs) →
  foldl (λ m wf, <[wf_Name wf := wf]> m) m wfs !! n = Some wf ↔
  (wf ∈ wfs ∧ wf_Name wf = n) ∨ (n ∉ names wfs ∧ m !! n = Some wf).
Proof.
  revert m. induction wfs as [|w wfs IH]; intros m Hnd; simpl.
  { rewrite !elem_of_nil. tauto. }
  apply NoDup_cons in Hnd as [Hw Hnd]. rewrite IH by done. rewrite !elem_of_cons, lookup_insert_Some.
  assert (Hin : wf ∈ wfs → wf_Name wf ∈ names wfs) by (intros; apply list_elem_of_fmap; eauto).
  split.
  - intros [?|(Hn & [[<- <-]|[? ?]])]; [tauto|tauto|]. right. split; [|done]. intros [?|?]; congruence.
  - intros [[[->|?] <-]|[Hn Hm]]; [|tauto|].
    + right. split; [done|]. by left.
    + right. split; [tauto|]. right. split; [|done]. intros <-. tauto.
Qed.
Lemma filter_ext_in {A} (P Q : A → Prop) `{!∀ x, Decision (P x), !∀ x, Decision (Q x)} (l : list A) :
  (∀ x, x ∈ l → P x ↔ Q x) → filter P l = filter Q l.
Proof.
  induction l as [|x l IH]; intros Hl; [done|]. assert (Hx : P x ↔ Q x) by (apply Hl; by left).
  rewrite !filter_cons, IH by (intros; apply Hl; by right). do 2 case_decide; tauto.
Qed.
Lemma overlay_spec wfs m o :
  NoDup (names wfs) →
  overlay wfs m o = (foldl (λ m wf, <[wf_Name wf := wf]> m) m wfs, o ++ filter (λ n, m !! n = None) (names wfs)).
Proof.
  revert m o. induction wfs as [|w wfs IH]; intros m o Hnd; simpl; [by rewrite app_nil_r|].
  apply NoDup_cons in Hnd as [Hw Hnd]. rewrite IH by done. f_equal. rewrite filter_cons.
  assert (Hf : filter (λ n, <[wf_Name w := w]> m !! n = None) (names wfs) = filter (λ n, m !! n = None) (names wfs)).
  { apply filter_ext_in. intros n Hn. rewrite lookup_insert_ne; [done|]. intros <-. done. }
  rewrite Hf. destruct (m !! wf_Name w); simpl; [done|by rewrite <- app_assoc].
Qed.

(** The default mode, on distinct names: order and contents. *)
Lemma merge_names existing incoming mode :
  NoDup (names existing) → NoDup (names incoming) → mode ≠ "REPLACE" → mode ≠ "ACTIVATE" →
  names (applyImportMode existing incoming mode) =
    names existing ++ filter (λ n, n ∉ names existing) (names incoming) ∧
  ∀ wf, wf ∈ applyImportMode existing incoming mode ↔
    wf ∈ incoming ∨ (wf ∈ existing ∧ wf_Name wf ∉ names incoming).
Proof.
  intros He Hi Hr Ha. unfold applyImportMode. rewrite !decide_False by done. rewrite overlay_spec by done.
  set (m := foldl _ ∅ existing). set (m' := foldl _ m incoming).
  assert (Hm : ∀ n wf, m !! n = Some wf ↔ wf ∈ existing ∧ wf_Name wf = n).
  { intros n wf. unfold m. rewrite foldl_insert_lookup by done. rewrite lookup_empty. naive_solver. }
  assert (Hm' : ∀ n wf, m' !! n = Some wf ↔ (wf ∈ incoming ∧ wf_Name wf = n) ∨ (n ∉ names incoming ∧ wf ∈ existing ∧ wf_Name wf = n)).
  { intros n wf. unfold m'. rewrite foldl_insert_lookup by done. by rewrite Hm. }
  assert (Hnone : ∀ n, m !! n = None ↔ n ∉ names existing).
  { intros n. rewrite eq_None_not_Some. unfold names. rewrite list_elem_of_fmap. unfold is_Some. setoid_rewrite Hm. naive_solver. }
  assert (Hf : filter (λ n, m !! n = None) (names incoming) = filter (λ n, n ∉ names existing) (names incoming)).
  { apply list_filter_iff. intros n. apply Hnone. }
  change (wf_Name <$> existing) with (names existing). rewrite Hf. set (order := names existing ++ _).
  assert (Hsome : ∀ n, n ∈ order → ∃ wf, m' !! n = Some wf ∧ wf_Name wf = n).
  { intros n Hn. destruct (m' !! n) as [wf|] eqn:E; [exists wf; split; [done|]; apply Hm' in E; naive_solver|].
    exfalso. destruct (decide (n ∈ names incoming)) as [Hin|Hin].
    - apply list_elem_of_fmap in Hin as (wf & Hwf & Hin). assert (m' !! n = Some wf) by (apply Hm'; auto). congruence.
    - unfold order in Hn. rewrite elem_of_app, list_elem_of_filter in Hn. destruct Hn as [Hn|[_ ?]]; [|done].
      apply list_elem_of_fmap in Hn as (wf & Hwf & Hn). assert (m' !! n = Some wf) by (apply Hm'; auto). congruence. }
  split.
  - unfold names at 1. rewrite <- list_fmap_compose. transitivity (id <$> order); [|by rewrite list_fmap_id].
    apply list_fmap_ext. intros i n Hn%list_elem_of_lookup_2. destruct (Hsome n Hn) as (wf & E & Hwf).
    unfold compose. by rewrite E.
  - intros wf. rewrite list_elem_of_fmap. split.
    + intros (n & -> & Hn). destruct (Hsome n Hn) as (wf & E & _). rewrite E. simpl. apply Hm' in E. naive_solver.
    + intros Hwf. exists (wf_Name wf). assert (E : m' !! wf_Name wf = Some wf) by (apply Hm'; tauto). rewrite E.
      split; [done|]. unfold order. rewrite elem_of_app, list_elem_of_filter. unfold names. rewrite !list_elem_of_fmap.
      destruct (decide (wf_Name wf ∈ names existing)) as [Hin|Hin]; [apply list_elem_of_fmap in Hin; auto|].
      right. split; [by rewrite <- list_elem_of_fmap|]. destruct Hwf as [?|[Hex _]]; [eauto|].
      exfalso. apply Hin, list_elem_of_fmap. eauto.
Qed.

Lemma filter_names_NoDup wfs (P : WorkflowDefinition → Prop) `{!∀ x, Decision (P x)} :
  NoDup (names wfs) → NoDup (names (filter P wfs)).
Proof.
  unfold names. induction wfs as [|w wfs IH]; [done|]. simpl. rewrite NoDup_cons, filter_cons. intros [Hw Hnd].
  case_decide; [|by apply IH]. simpl. constructor; [|by apply IH]. rewrite list_elem_of_fmap in *.
  intros (x & Hx & [_ Hin]%list_elem_of_filter). eauto.
Qed.

(** What an import does to the stored workflows, names being distinct: exactly
    the incoming workflows are in, and of the stored ones those the request does
    not name survive as the mode says (REPLACE drops them, ACTIVATE deactivates
    them, MERGE keeps them); names stay distinct; and MERGE keeps the order
    selection goes by, new names last. *)
Theorem import_mode_combines existing incoming mode :
  NoDup (names existing) → NoDup (names incoming) →
  NoDup (names (applyImportMode existing incoming mode)) ∧
  (∀ wf, wf ∈ applyImportMode existing incoming mode ↔
     wf ∈ incoming ∨ ∃ old, old ∈ existing ∧ wf_Name old ∉ names incoming ∧ survivor mode old = Some wf) ∧
  (mode = "MERGE" → names (applyImportMode existing incoming mode) =
     names existing ++ filter (λ n, n ∉ names existing) (names incoming)).
Proof.
  intros He Hi. unfold survivor. destruct (decide (mode = "REPLACE")) as [->|Hr].
  { split_and!; [done| |done]. intros wf. split; [tauto|]. by intros [?|(? & ? & ? & ?)]. }
  destruct (decide (mode = "ACTIVATE")) as [->|Ha].
  - unfold applyImportMode. rewrite decide_False, decide_True by done. split_and!; [| |done].
    + unfold names. rewrite fmap_app, <- list_fmap_compose. change (wf_Name ∘ deactivate) with wf_Name.
      apply NoDup_app. split_and!; [by apply (filter_names_NoDup existing)| |done].
      intros n Hn. apply list_elem_of_fmap in Hn as (wf & -> & [Hn _]%list_elem_of_filter). done.
    + intros wf. rewrite elem_of_app, list_elem_of_fmap. setoid_rewrite list_elem_of_filter. naive_solver.
  - destruct (merge_names existing incoming mode He Hi Hr Ha) as [Hn Hm]. split_and!; [|intros wf; rewrite Hm; naive_solver|done].
    rewrite Hn. apply NoDup_app. split_and!; [done| |by apply NoDup_filter].
    intros n Hin [? _]%list_elem_of_filter. done.
Qed.
