(* ===== verification/WorkflowImportStore.v ===== *)
(** * Workflow import: canonical annotations, the store, export and import again

    Annotations are stored in a canonical form; the handlers change the store only
    by a whole, checked import; what is exported imports back, but for one field the
    export leaves out when it is false. *)

From Stdlib Require Import Ascii.
From stdpp Require Import base gmap strings list pretty.
From S2P Require Import Prelude GoStrings Spi MemStores Workflow WorkflowRun WorkflowFrame WorkflowSample WorkflowPath WorkflowLoops Schema SchemaAdmit Condition WorkflowImport WorkflowImportProof.

(** ** What the checks look at

    A workflow without annotations, [attachEntity] and version. *)
Definition bareProcessor (p : ProcessorDefinition) : ProcessorDefinition :=
  mkProc (pr_Name p) (pr_Type p) (pr_ExecutionMode p) (pr_StartNewTxOnDispatch p) (pr_AsyncResult p)
    (pr_CrossoverToAsyncMs p) (pr_RetryPolicy p) false "".
Definition bareSchedule (sc : Schedule) : Schedule :=
  mkSchedule (sc_DelayMs sc) (sc_TimeoutMs sc)
    ((λ f, mkFunction (sf_Name f) (sf_ResultKind f) (sf_CalculationNodesTags f) false) <$> sc_Function sc).
Definition bareTransition (tr : TransitionDefinition) : TransitionDefinition :=
  mkTransition (tr_Name tr) (tr_Next tr) (tr_Manual tr) (tr_Disabled tr) (tr_Criterion tr)
    (bareProcessor <$> tr_Processors tr) (bareSchedule <$> tr_Schedule tr) "" "".
Definition bareState (st : StateDefinition) : StateDefinition := mkState (bareTransition <$> st_Transitions st) "".
Definition bare (wf : WorkflowDefinition) : WorkflowDefinition :=
  mkWorkflow (wf_Name wf) (wf_Active wf) (wf_InitialState wf) (wf_Criterion wf) (bareState <$> wf_StateDefs wf)
    "" (wf_Description wf) "" "".

Section Bare.
Context {K : Kernel} {N : ImportEnv}.

Lemma bare_scheduleOk tr : scheduleOk (bareTransition tr) ↔ scheduleOk tr.
Proof.
  unfold scheduleOk. simpl. destruct (tr_Schedule tr) as [sc|]; simpl; [|naive_solver]. split.
  - intros H ? [= <-]. specialize (H _ eq_refl). simpl in H. by destruct (sc_Function sc).
  - intros H ? [= <-]. specialize (H _ eq_refl). simpl. by destruct (sc_Function sc).
Qed.
Lemma bare_transitionOk d tr : transitionOk d (bareTransition tr) ↔ transitionOk d tr.
Proof. unfold transitionOk. rewrite bare_scheduleOk. simpl. by rewrite Forall_fmap. Qed.
Lemma bare_stateOk d n st : stateOk d n (bareState st) ↔ stateOk d n st.
Proof.
  unfold stateOk. simpl. rewrite <- list_fmap_compose, Forall_fmap. change (tr_Name ∘ bareTransition) with tr_Name.
  unfold compose. setoid_rewrite bare_transitionOk. done.
Qed.
Lemma bare_states (P : string → StateDefinition → Prop) wf :
  (∀ n st, wf_StateDefs (bare wf) !! n = Some st → P n st) ↔
  (∀ n st, wf_StateDefs wf !! n = Some st → P n (bareState st)).
Proof.
  simpl. setoid_rewrite lookup_fmap_Some. naive_solver.
Qed.
Lemma bare_wellFormed wf : wellFormed (bare wf) ↔ wellFormed wf.
Proof. unfold wellFormed. rewrite bare_states. simpl. rewrite dom_fmap_L. by setoid_rewrite bare_stateOk. Qed.

Lemma bare_unguarded wf x y : unguardedEdge (bare wf) x y ↔ unguardedEdge wf x y.
Proof.
  unfold unguardedEdge. simpl. setoid_rewrite lookup_fmap_Some. split.
  - intros (? & tr & (st & <- & Hst) & Hin & Hu & Hy). simpl in Hin. apply list_elem_of_fmap in Hin as (tr' & -> & Hin).
    by exists st, tr'.
  - intros (st & tr & Hst & Hin & Hu & Hy). exists (bareState st), (bareTransition tr). split_and!; try done; [eauto|].
    simpl. apply list_elem_of_fmap. eauto.
Qed.
(** No unguarded cycle. *)
Definition acyclic (wf : WorkflowDefinition) : Prop := ∀ s, ¬ tc (unguardedEdge wf) s s.
Lemma loopError_ok wf : loopError wf = None ↔ acyclic wf.
Proof.
  unfold loopError, acyclic. assert (H := loops_decided wf). destruct (validateWorkflowLoops wf) as [d|path|]; [done| |done].
  split; [done|]. destruct H as (c & mid & -> & Hl). intros Hac. by apply linked_tc, Hac in Hl.
Qed.
Lemma bare_acyclic wf : acyclic (bare wf) ↔ acyclic wf.
Proof.
  unfold acyclic. split; intros H s Hs; apply (H s); revert Hs; apply tc_congruence with (f := id); intros x y;
    apply bare_unguarded.
Qed.

(** A processor starts a transaction on dispatch only in its own mode. *)
Definition flagsOk (wf : WorkflowDefinition) : Prop :=
  ∀ n st tr p, wf_StateDefs wf !! n = Some st → tr ∈ st_Transitions st → p ∈ tr_Processors tr →
    pr_StartNewTxOnDispatch p = Some true → pr_ExecutionMode p = ExecutionModeCommitBeforeDispatch.
Lemma processorFlags_ok wf : validateProcessorFlags wf = None ↔ flagsOk wf.
Proof.
  unfold validateProcessorFlags, misusedFlag, flagsOk. rewrite firstErr_None, range_Forall.
  setoid_rewrite firstErr_None. setoid_rewrite firstErr_None. setoid_rewrite reject_None.
  setoid_rewrite bool_decide_eq_false. setoid_rewrite Forall_forall. setoid_rewrite Forall_forall. simpl. split.
  - intros H n st tr p Hst Htr Hp Hf. destruct (decide (pr_ExecutionMode p = ExecutionModeCommitBeforeDispatch)); [done|].
    exfalso. by apply (H n st Hst tr Htr p Hp).
  - intros H n st Hst tr Htr p Hp [Hf Hm]. by eapply Hm, H.
Qed.
Lemma bare_flagsOk wf : flagsOk (bare wf) ↔ flagsOk wf.
Proof.
  unfold flagsOk. simpl. setoid_rewrite lookup_fmap_Some. split.
  - intros H n st tr p Hst Htr Hp. apply (H n (bareState st) (bareTransition tr) (bareProcessor p)); [eauto|..];
      apply list_elem_of_fmap; eauto.
  - intros H n ? tr p (st & <- & Hst) Htr Hp. simpl in Htr. apply list_elem_of_fmap in Htr as (tr' & -> & Htr).
    simpl in Hp. apply list_elem_of_fmap in Hp as (p' & -> & Hp). by eapply (H n st tr' p').
Qed.
Lemma validateWorkflows_ok wfs allow :
  validateWorkflows wfs allow = None ↔ Forall (λ wf, (allow = false → acyclic wf) ∧ flagsOk wf) wfs.
Proof.
  unfold validateWorkflows. rewrite firstErr_None. apply Forall_iff. intros wf. rewrite firstErr_None.
  rewrite !Forall_cons, Forall_nil_iff. unfold id. rewrite processorFlags_ok. destruct allow; [naive_solver|].
  rewrite loopError_ok. naive_solver.
Qed.
End Bare.

(** ** Canonical annotations *)

Section Annotations.
Context {K : Kernel} {N : ImportEnv} {L : ImportLaws}.

Definition canonical (a : string) : Prop :=
  a = "" ∨ (TrimSpace a = a ∧ HasPrefix a "{" = true ∧ Compact a = Some a ∧
            (Z.of_nat (String.length a) ≤ maxAnnotationsBytes)%Z).
Definition canonicalProcessor (p : ProcessorDefinition) : Prop := canonical (pr_Annotations p).
Definition canonicalTransition (tr : TransitionDefinition) : Prop :=
  canonical (tr_Annotations tr) ∧ canonical (tr_CriterionAnnotations tr) ∧ Forall canonicalProcessor (tr_Processors tr).
Definition canonicalState (st : StateDefinition) : Prop :=
  canonical (st_Annotations st) ∧ Forall canonicalTransition (st_Transitions st).
Definition canonicalWorkflow (wf : WorkflowDefinition) : Prop :=
  canonical (wf_Annotations wf) ∧ canonical (wf_CriterionAnnotations wf) ∧
  ∀ n st, wf_StateDefs wf !! n = Some st → canonicalState st.

Lemma canonicalize_canonical raw loc a : canonicalizeAnnotations raw loc = inr a → canonical a.
Proof.
  unfold canonicalizeAnnotations. case_decide; [intros [= <-]; by left|].
  destruct (HasPrefix (TrimSpace raw) "{") eqn:Hp; [|done]. simpl.
  destruct (Compact (TrimSpace raw)) as [buf|] eqn:Hc; [|done]. case_decide; [done|]. intros [= <-]. right.
  split_and!; [by eapply Compact_trimmed|by eapply Compact_object|by eapply Compact_idem|lia].
Qed.
Lemma canonical_fix a loc : canonical a → canonicalizeAnnotations a loc = inr a.
Proof.
  unfold canonicalizeAnnotations. intros [->|(Ht & Hp & Hc & Hl)]; [done|]. rewrite Ht.
  rewrite decide_False; [|intros [-> | ->]; done]. rewrite Hp, Hc. simpl. by rewrite decide_False by lia.
Qed.

Lemma annotateProcessor_out loc p p' :
  annotateProcessor loc p = inr p' → canonicalProcessor p' ∧ bareProcessor p' = bareProcessor p.
Proof.
  unfold annotateProcessor. destruct (canonicalizeAnnotations _ _) as [|a] eqn:Ha; [done|]. intros [= <-].
  split; [by eapply canonicalize_canonical|done].
Qed.
Lemma annotateProcessor_fix loc p : canonicalProcessor p → annotateProcessor loc p = inr p.
Proof. intros Hp. unfold annotateProcessor. rewrite canonical_fix by done. by destruct p. Qed.

Lemma Forall2_out {A B} (f : A → importErr + A) (C : A → Prop) (b : A → B) l k :
  (∀ x y, f x = inr y → C y ∧ b y = b x) → traverse f l = inr k → Forall C k ∧ b <$> k = b <$> l.
Proof.
  intros Hf Ht%traverse_inr. induction Ht as [|x y l k Hxy _ [IHc IHb]]; [by split; [constructor|]|].
  apply Hf in Hxy as [Hc Hb]. split; [by constructor|]. by rewrite !fmap_cons, Hb, IHb.
Qed.
Lemma traverse_fix {A} (f : A → importErr + A) l : Forall (λ x, f x = inr x) l → traverse f l = inr l.
Proof. intros H. apply traverse_inr. induction H; by constructor. Qed.

Lemma annotateTransition_out loc tr tr' :
  annotateTransition loc tr = inr tr' → canonicalTransition tr' ∧ bareTransition tr' = bareTransition tr.
Proof.
  unfold annotateTransition. destruct (canonicalizeAnnotations _ _) as [|a] eqn:Ha; [done|]. simpl.
  destruct (canonicalizeAnnotations (tr_CriterionAnnotations tr) _) as [|c] eqn:Hc; [done|]. simpl.
  destruct (traverse _ _) as [|procs] eqn:Hp; [done|]. intros [= <-].
  apply (Forall2_out _ canonicalProcessor bareProcessor) in Hp as [Hcp Hb]; [|apply annotateProcessor_out].
  split; [|unfold bareTransition; simpl; by rewrite Hb]. split_and!; [by eapply canonicalize_canonical..|done].
Qed.
Lemma annotateTransition_fix loc tr : canonicalTransition tr → annotateTransition loc tr = inr tr.
Proof.
  intros (Ha & Hc & Hp). unfold annotateTransition. rewrite !canonical_fix by done. simpl.
  rewrite traverse_fix; [by destruct tr|]. eapply Forall_impl; [exact Hp|]. intros p. apply annotateProcessor_fix.
Qed.
Lemma annotateState_out w e e' :
  annotateState w e = inr e' → (e'.1 = e.1 ∧ canonicalState e'.2) ∧ bareState e'.2 = bareState e.2.
Proof.
  unfold annotateState. destruct (canonicalizeAnnotations _ _) as [|a] eqn:Ha; [done|]. simpl.
  destruct (traverse _ _) as [|trs] eqn:Ht; [done|]. intros [= <-].
  apply (Forall2_out _ canonicalTransition bareTransition) in Ht as [Hct Hb]; [|apply annotateTransition_out].
  split; [|unfold bareState; simpl; by rewrite Hb]. split; [done|]. split; [by eapply canonicalize_canonical|done].
Qed.
Lemma annotateState_fix w e : canonicalState e.2 → annotateState w e = inr e.
Proof.
  intros (Ha & Ht). unfold annotateState. rewrite canonical_fix by done. simpl.
  rewrite traverse_fix; [by destruct e as [n [trs a]]|]. eapply Forall_impl; [exact Ht|].
  intros tr. apply annotateTransition_fix.
Qed.

Lemma writeBack_lookup m (entries : list (string * StateDefinition)) n :
  NoDup (entries.*1) → (∀ k, k ∈ entries.*1 ↔ k ∈ dom m) →
  ∀ st, writeBack m entries !! n = Some st ↔ (n, st) ∈ entries.
Proof.
  intros Hnd Hk st.
  assert (Hw : writeBack m entries = list_to_map entries ∪ m).
  { clear. unfold writeBack. induction entries as [|[k v] l IH]; simpl; [by rewrite (left_id_L ∅ (∪))|].
    by rewrite IH, insert_union_l. }
  rewrite Hw, lookup_union_Some_raw, <- elem_of_list_to_map by done. split; [|tauto]. intros [?|[Hn Hm]]; [done|].
  exfalso. apply elem_of_dom_2 in Hm. apply Hk in Hm. by apply not_elem_of_list_to_map in Hn.
Qed.

Lemma annotateStates_out w m entries :
  traverse (annotateState w) (rangeStates m) = inr entries →
  (∀ n st, writeBack m entries !! n = Some st → canonicalState st) ∧ bareState <$> writeBack m entries = bareState <$> m.
Proof.
  intros Ht. pose (b := λ e : string * StateDefinition, (e.1, bareState e.2)).
  assert (Hout : Forall (λ e, canonicalState e.2) entries ∧ b <$> entries = b <$> rangeStates m).
  { apply (Forall2_out (annotateState w)); [|done]. intros e e' [[H1 H2] H3]%annotateState_out. unfold b. by rewrite H1, H3. }
  destruct Hout as [Hc Hb].
  assert (Hk : entries.*1 ≡ₚ (map_to_list m).*1).
  { rewrite <- (rangeStates_perm m). change (@fst string StateDefinition) with (fst ∘ b). rewrite !list_fmap_compose.
    by rewrite Hb. }
  assert (Hnd : NoDup (entries.*1)) by (rewrite Hk; apply NoDup_fst_map_to_list).
  assert (Hd : ∀ k, k ∈ entries.*1 ↔ k ∈ dom m).
  { intros k. rewrite Hk, list_elem_of_fmap, elem_of_dom. split.
    - intros ([? v] & -> & Hin%elem_of_map_to_list). by exists v.
    - intros [v Hv]. exists (k, v). by rewrite elem_of_map_to_list. }
  split.
  - intros n st Hl%writeBack_lookup; [|done..]. rewrite Forall_forall in Hc. by apply (Hc (n, st)).
  - apply map_eq. intros n. apply option_eq. intros st. rewrite !lookup_fmap_Some.
    assert (Hbe : ∀ l : list (string * StateDefinition), (n, st) ∈ b <$> l ↔ ∃ x, bareState x = st ∧ (n, x) ∈ l).
    { intros l. rewrite list_elem_of_fmap. unfold b. split; [intros ([n' x] & [= -> ->] & Hin); eauto|].
      intros (x & <- & Hin). by exists (n, x). }
    setoid_rewrite (writeBack_lookup m entries n Hnd Hd). rewrite <- Hbe, Hb, Hbe. by setoid_rewrite range_elem.
Qed.
Lemma annotateWorkflow_out wf wf' :
  annotateWorkflow wf = inr wf' → canonicalWorkflow wf' ∧ bare wf' = bare wf.
Proof.
  unfold annotateWorkflow. destruct (canonicalizeAnnotations _ _) as [|a] eqn:Ha; [done|]. simpl.
  destruct (canonicalizeAnnotations (wf_CriterionAnnotations wf) _) as [|c] eqn:Hc; [done|]. simpl.
  destruct (traverse _ _) as [|entries] eqn:He; [done|]. intros [= <-]. apply annotateStates_out in He as [Hcs Hb].
  split; [|unfold bare; simpl; by rewrite Hb]. split_and!; [by eapply canonicalize_canonical..|done].
Qed.
Lemma annotateWorkflow_fix wf : canonicalWorkflow wf → annotateWorkflow wf = inr wf.
Proof.
  intros (Ha & Hc & Hs). unfold annotateWorkflow. rewrite !canonical_fix by done. simpl.
  rewrite traverse_fix.
  - simpl. assert (Hw : writeBack (wf_StateDefs wf) (rangeStates (wf_StateDefs wf)) = wf_StateDefs wf); [|rewrite Hw; by destruct wf].
    apply map_eq. intros n. apply option_eq. intros st.
    rewrite writeBack_lookup; [apply range_elem| |].
    + rewrite (rangeStates_perm _). apply NoDup_fst_map_to_list.
    + intros k. rewrite list_elem_of_fmap, elem_of_dom. split.
      * intros ([? v] & -> & Hin%range_elem). by exists v.
      * intros [v Hv]. exists (k, v). by rewrite range_elem.
  - apply range_Forall. intros n st Hst. apply annotateState_fix. by eapply Hs.
Qed.
Lemma annotate_out wfs wfs' :
  validateAndNormalizeAnnotations wfs = inr wfs' → Forall canonicalWorkflow wfs' ∧ bare <$> wfs' = bare <$> wfs.
Proof. apply Forall2_out. apply annotateWorkflow_out. Qed.
Lemma annotate_fix wfs : Forall canonicalWorkflow wfs → validateAndNormalizeAnnotations wfs = inr wfs.
Proof. intros H. apply traverse_fix. eapply Forall_impl; [exact H|]. apply annotateWorkflow_fix. Qed.

(** Names and well-formedness do not see what [bare] forgets. *)
Lemma bare_names wfs wfs' : bare <$> wfs' = bare <$> wfs → names wfs' = names wfs.
Proof.
  unfold names. change wf_Name with (wf_Name ∘ bare). rewrite !list_fmap_compose. by intros ->.
Qed.
Lemma bare_Forall (P : WorkflowDefinition → Prop) wfs wfs' :
  (∀ wf, P (bare wf) ↔ P wf) → bare <$> wfs' = bare <$> wfs → Forall P wfs → Forall P wfs'.
Proof.
  intros HP Hb H. assert (Hf : ∀ l, Forall P (bare <$> l) ↔ Forall P l).
  { intros l. rewrite Forall_fmap. by apply Forall_iff. }
  by apply Hf; rewrite Hb; apply Hf.
Qed.
End Annotations.

(** ** The handlers and the store *)

Section Handlers.
Context {K : Kernel} {N : ImportEnv} {L : ImportLaws}.
Context (decodeRequest : string → string + importRequest * bool)
        (decodeProbe : string → list (gmap string (list transitionProbe)))
        (tenantOf : err + string) (modelGet : string → ModelRef → option err).
Abbreviation Store := (gmap string (gmap ModelRef (list WorkflowDefinition))).

(** A definition after [json.Marshal] and [json.Unmarshal]: the raw JSON inside is
    written anew. *)
Definition copyProcessor (p : ProcessorDefinition) : ProcessorDefinition :=
  mkProc (pr_Name p) (pr_Type p) (pr_ExecutionMode p) (pr_StartNewTxOnDispatch p) (pr_AsyncResult p)
    (pr_CrossoverToAsyncMs p) (pr_RetryPolicy p) (pr_AttachEntity p) (reencode (pr_Annotations p)).
Definition copyTransition (tr : TransitionDefinition) : TransitionDefinition :=
  mkTransition (tr_Name tr) (tr_Next tr) (tr_Manual tr) (tr_Disabled tr) (reencode (tr_Criterion tr))
    (copyProcessor <$> tr_Processors tr) (tr_Schedule tr) (reencode (tr_Annotations tr))
    (reencode (tr_CriterionAnnotations tr)).
Definition copyState (st : StateDefinition) : StateDefinition :=
  mkState (copyTransition <$> st_Transitions st) (reencode (st_Annotations st)).
Definition copyWorkflow (wf : WorkflowDefinition) : WorkflowDefinition :=
  mkWorkflow (wf_Name wf) (wf_Active wf) (wf_InitialState wf) (reencode (wf_Criterion wf))
    (copyState <$> wf_StateDefs wf) (wf_Version wf) (wf_Description wf) (reencode (wf_Annotations wf))
    (reencode (wf_CriterionAnnotations wf)).
Definition copyWorkflows (wfs : list WorkflowDefinition) : err + list WorkflowDefinition := inr (copyWorkflow <$> wfs).

Lemma copyProcessor_idem p : copyProcessor (copyProcessor p) = copyProcessor p.
Proof. unfold copyProcessor. simpl. by rewrite reencode_idem. Qed.
Lemma copyTransition_idem tr : copyTransition (copyTransition tr) = copyTransition tr.
Proof.
  unfold copyTransition. simpl. rewrite !reencode_idem, <- list_fmap_compose. f_equal.
  apply list_fmap_ext. intros _ p _. apply copyProcessor_idem.
Qed.
Lemma copyState_idem st : copyState (copyState st) = copyState st.
Proof.
  unfold copyState. simpl. rewrite reencode_idem, <- list_fmap_compose. f_equal.
  apply list_fmap_ext. intros _ tr _. apply copyTransition_idem.
Qed.
Lemma copyWorkflow_idem wf : copyWorkflow (copyWorkflow wf) = copyWorkflow wf.
Proof.
  unfold copyWorkflow. simpl. rewrite !reencode_idem, <- map_fmap_compose. f_equal.
  apply map_fmap_ext. intros _ st _. apply copyState_idem.
Qed.
Lemma copyWorkflows_idem (wfs : list WorkflowDefinition) : copyWorkflow <$> (copyWorkflow <$> wfs) = copyWorkflow <$> wfs.
Proof. rewrite <- list_fmap_compose. apply list_fmap_ext. intros _ wf _. apply copyWorkflow_idem. Qed.

Abbreviation Import := (ImportEntityModelWorkflow decodeRequest decodeProbe tenantOf modelGet copyWorkflows).
Abbreviation Export := (ExportEntityModelWorkflow tenantOf modelGet copyWorkflows).

(** What a reader of the store gets. *)
Definition stored (s : Store) (tenant : string) (ref : ModelRef) : list WorkflowDefinition :=
  copyWorkflow <$> default [] (s !! tenant ≫= lookup ref).

(** A whole import of [incoming] into what was stored. *)
Record imported (body : string) (ref : ModelRef) (s s' : Store) (tenant : string) (req : importRequest) (mode : string)
    (incoming result : list WorkflowDefinition) : Prop := {
  im_tenant : requireModel tenantOf modelGet ref = inr tenant;
  im_request : decodeBody decodeRequest body = inr req;
  im_mode : importMode req = inr mode;
  im_versions : validateSchemaVersions (incomingOf decodeProbe req body) = None;
  im_incoming : validateAndNormalizeAnnotations (incomingOf decodeProbe req body) = inr incoming;
  im_result : result = applyImportMode (stored s tenant ref) incoming mode;
  im_stored : stored s' tenant ref = copyWorkflow <$> result;
  im_distinct : NoDup (names incoming);
  im_wellFormed : Forall wellFormed incoming;
  im_canonical : Forall canonicalWorkflow incoming;
  im_nonempty : mode = "REPLACE" ∨ mode = "ACTIVATE" → incoming ≠ [];
  im_checked : Forall (λ wf, (ir_AllowCycles req = false → acyclic wf) ∧ flagsOk wf) result;
  im_others : ∀ t r, (t, r) ≠ (tenant, ref) → stored s' t r = stored s t r
}.

Lemma workflowGet_stored tenant ref s :
  WorkflowStore.workflowGet copyWorkflows tenant ref s = (Ret (stored s tenant ref), s).
Proof. unfold WorkflowStore.workflowGet, stored. mrun. destruct (s !! tenant) as [m|]; [|done]. simpl. by destruct (m !! ref). Qed.
Lemma workflowSave_stored tenant ref wfs s :
  ∃ s', WorkflowStore.workflowSave copyWorkflows tenant ref wfs s = (Ret tt, s') ∧
    stored s' tenant ref = copyWorkflow <$> wfs ∧ ∀ t r, (t, r) ≠ (tenant, ref) → stored s' t r = stored s t r.
Proof.
  eexists. split; [done|]. unfold stored. rewrite !lookup_insert_eq. simpl. rewrite lookup_insert_eq.
  split; [apply copyWorkflows_idem|].
  intros t r Hne. destruct (decide (t = tenant)) as [->|Ht].
  - rewrite lookup_insert_eq. simpl. rewrite lookup_insert_ne by congruence. by destruct (s !! tenant).
  - by rewrite !lookup_insert_ne by done.
Qed.

Lemma storeCall_Ret {A B} (m : M err Store A) (f : err + A → M apiErr Store B) s a s' :
  m s = (Ret a, s') → (storeCall m ≫= f) s = f (inr a) s'.
Proof. intros H. rewrite run_bind. unfold storeCall. by rewrite H. Qed.

Lemma combine_ok existing incoming mode allow result :
  combine existing incoming mode allow = inr result ↔
  ∃ incoming', ¬ (incoming = [] ∧ (mode = "REPLACE" ∨ mode = "ACTIVATE")) ∧
    (NoDup (names incoming) ∧ Forall wellFormed incoming) ∧
    validateAndNormalizeAnnotations incoming = inr incoming' ∧ result = applyImportMode existing incoming' mode ∧
    Forall (λ wf, (allow = false → acyclic wf) ∧ flagsOk wf) result.
Proof.
  unfold combine. case_decide; [naive_solver|]. assert (Hs := structure_request incoming).
  change (wf_Name <$> incoming) with (names incoming) in Hs. destruct (validateImportRequest incoming).
  { split; [done|]. intros (? & _ & H' & _). by apply Hs in H'. }
  destruct (validateAndNormalizeAnnotations incoming) as [|incoming']; [naive_solver|].
  destruct (validateWorkflows _ allow) eqn:Hv.
  - split; [done|]. intros (? & _ & _ & [= <-] & -> & Hf). apply validateWorkflows_ok in Hf. congruence.
  - apply validateWorkflows_ok in Hv. split; [|naive_solver]. intros [= <-].
    destruct (proj1 Hs eq_refl) as [Hn Hw]. exists incoming'. by split_and!.
Qed.


(** ** Export and import again

    An exported body has an [attachEntity] key with its value, or omits it, as the
    JSON tags of the storage contract say. *)
Context (emitProcessor emitFunction : bool → option bool).

Definition probeTransition (tr : TransitionDefinition) : transitionProbe :=
  mkProbe ((λ f, emitFunction (sf_AttachEntity f)) <$> (tr_Schedule tr ≫= sc_Function))
    ((λ p, emitProcessor (pr_AttachEntity p)) <$> tr_Processors tr).
Definition probeOf (wf : WorkflowDefinition) : gmap string (list transitionProbe) :=
  (λ st, probeTransition <$> st_Transitions st) <$> wf_StateDefs wf.
Definition wireDef (wf : WorkflowDefinition) : workflowImportDef :=
  mkImportDef (wf_Version wf) (wf_Name wf) (wf_Description wf) (wf_InitialState wf) (Some (wf_Active wf))
    (wf_Criterion wf) (wf_StateDefs wf) (wf_Annotations wf) (wf_CriterionAnnotations wf).
(** [body] is a REPLACE request with the exported workflows. *)
Definition carries (body : string) (wfs : list WorkflowDefinition) : Prop :=
  decodeBody decodeRequest body = inr (mkImportRequest "REPLACE" false (wireDef <$> wfs)) ∧
  decodeProbe body = probeOf <$> wfs.

(** The value an import gives a flag that was exported as [b]. *)
Definition kept (emit : bool → option bool) (b : bool) : bool := match emit b with Some _ => b | None => true end.
Definition rereadProcessor (p : ProcessorDefinition) : ProcessorDefinition :=
  mkProc (pr_Name p) (pr_Type p) (pr_ExecutionMode p) (pr_StartNewTxOnDispatch p) (pr_AsyncResult p)
    (pr_CrossoverToAsyncMs p) (pr_RetryPolicy p) (kept emitProcessor (pr_AttachEntity p)) (pr_Annotations p).
Definition rereadSchedule (sc : Schedule) : Schedule :=
  mkSchedule (sc_DelayMs sc) (sc_TimeoutMs sc)
    ((λ f, mkFunction (sf_Name f) (sf_ResultKind f) (sf_CalculationNodesTags f) (kept emitFunction (sf_AttachEntity f)))
       <$> sc_Function sc).
Definition rereadTransition (tr : TransitionDefinition) : TransitionDefinition :=
  mkTransition (tr_Name tr) (tr_Next tr) (tr_Manual tr) (tr_Disabled tr) (tr_Criterion tr)
    (rereadProcessor <$> tr_Processors tr) (rereadSchedule <$> tr_Schedule tr) (tr_Annotations tr)
    (tr_CriterionAnnotations tr).
Definition rereadState (st : StateDefinition) : StateDefinition :=
  mkState (rereadTransition <$> st_Transitions st) (st_Annotations st).
Definition reread (wf : WorkflowDefinition) : WorkflowDefinition :=
  mkWorkflow (wf_Name wf) (wf_Active wf) (wf_InitialState wf) (wf_Criterion wf) (rereadState <$> wf_StateDefs wf)
    (wf_Version wf) (wf_Description wf) (wf_Annotations wf) (wf_CriterionAnnotations wf).

Lemma aligned_fmap {A B C} (f : A → B → A) (g : C → A) (h : C → B) (l : list C) :
  aligned f (g <$> l) (h <$> l) = (λ x, f (g x) (h x)) <$> l.
Proof.
  unfold aligned. apply list_eq. intros i. rewrite list_lookup_imap, !list_lookup_fmap.
  destruct (l !! i); [|done]. simpl. done.
Qed.
Lemma aligned_self {A B} (f : A → B → A) (h : A → B) (l : list A) : aligned f l (h <$> l) = (λ x, f x (h x)) <$> l.
Proof. rewrite <- (list_fmap_id l) at 1. apply (aligned_fmap f id). Qed.

Lemma attach_transition tr : attachTransition tr (probeTransition tr) = rereadTransition tr.
Proof.
  unfold attachTransition, rereadTransition. simpl. rewrite aligned_self. f_equal.
  destruct (tr_Schedule tr) as [sc|]; [|done]. simpl. unfold rereadSchedule. do 2 f_equal.
  destruct (sc_Function sc) as [f|]; [|done]. simpl. f_equal. unfold attachFunction, kept.
  destruct (emitFunction (sf_AttachEntity f)); [by rewrite bool_decide_eq_false_2|by rewrite bool_decide_eq_true_2].
Qed.
Lemma attach_workflow wf : toWorkflow (attachWorkflow (wireDef wf) (probeOf wf)) = reread wf.
Proof.
  unfold toWorkflow, reread. simpl. f_equal. apply map_eq. intros n. rewrite map_lookup_imap, lookup_fmap.
  destruct (wf_StateDefs wf !! n) as [st|] eqn:Hst; [|done]. simpl. f_equal. unfold attachState, probeOf.
  rewrite lookup_fmap, Hst. simpl. rewrite aligned_self. unfold rereadState. f_equal. apply list_fmap_ext.
  intros _ tr _. apply attach_transition.
Qed.
Lemma carries_incoming body wfs :
  carries body wfs → incomingOf decodeProbe (mkImportRequest "REPLACE" false (wireDef <$> wfs)) body = reread <$> wfs.
Proof.
  intros [_ Hp]. unfold incomingOf, applyAttachEntityDefaults. simpl. rewrite Hp, aligned_fmap, <- list_fmap_compose.
  apply list_fmap_ext. intros _ wf _. apply attach_workflow.
Qed.

Lemma bare_reread wf : bare (reread wf) = bare wf.
Proof.
  unfold bare. simpl. f_equal. rewrite <- map_fmap_compose. apply map_fmap_ext. intros _ st _. unfold compose, bareState.
  simpl. f_equal. rewrite <- list_fmap_compose. apply list_fmap_ext. intros _ tr _. unfold compose, bareTransition. simpl.
  rewrite <- list_fmap_compose. f_equal. destruct (tr_Schedule tr) as [sc|]; [|done]. simpl. unfold bareSchedule. simpl.
  by destruct (sc_Function sc).
Qed.
Lemma canonical_reread wf : canonicalWorkflow wf → canonicalWorkflow (reread wf).
Proof.
  intros (Ha & Hc & Hs). split_and!; [done..|]. simpl. intros n st' (st & <- & Hst)%lookup_fmap_Some.
  destruct (Hs n st Hst) as [Hsa Hst']. split; [done|]. simpl. rewrite Forall_fmap. eapply Forall_impl; [exact Hst'|].
  intros tr (? & ? & Hp). unfold compose. split_and!; [done..|]. simpl. by rewrite Forall_fmap.
Qed.
Lemma copy_reread wf : copyWorkflow (reread wf) = reread (copyWorkflow wf).
Proof.
  unfold copyWorkflow, reread. simpl. f_equal. rewrite <- !map_fmap_compose. apply map_fmap_ext. intros _ st _.
  unfold compose, copyState, rereadState. simpl. f_equal. rewrite <- !list_fmap_compose. apply list_fmap_ext.
  intros _ tr _. unfold compose, copyTransition, rereadTransition. simpl. by rewrite <- !list_fmap_compose.
Qed.

Lemma versions_stamped wfs : Forall (λ wf, wf_Version wf = CurrentSchemaVersion) wfs → validateSchemaVersions wfs = None.
Proof.
  intros H. apply firstErr_None. eapply Forall_impl; [exact H|]. intros wf Hv. unfold validateSchemaVersion.
  by rewrite Hv.
Qed.

(** Everything an import checks. *)
Definition passes (wf : WorkflowDefinition) : Prop := wellFormed wf ∧ canonicalWorkflow wf ∧ acyclic wf ∧ flagsOk wf.
Lemma passes_reread wf : passes wf → passes (reread wf).
Proof.
  intros (Hw & Hc & Ha & Hf). split_and!; [|by apply canonical_reread|..].
  - by rewrite <- bare_wellFormed, bare_reread, bare_wellFormed.
  - by rewrite <- bare_acyclic, bare_reread, bare_acyclic.
  - by rewrite <- bare_flagsOk, bare_reread, bare_flagsOk.
Qed.
Lemma combine_passes existing wfs :
  wfs ≠ [] → NoDup (names wfs) → Forall passes wfs → combine existing wfs "REPLACE" false = inr wfs.
Proof.
  intros Hne Hnd Hp. apply combine_ok. exists wfs. split_and!; [tauto|done| | |done|].
  - eapply Forall_impl; [exact Hp|]. by intros wf [].
  - apply annotate_fix. eapply Forall_impl; [exact Hp|]. by intros wf (? & ? & ?).
  - eapply Forall_impl; [exact Hp|]. by intros wf (? & ? & ? & ?).
Qed.

End Handlers.
