(* ===== verification/WorkflowImportSample.v ===== *)
(** * Imported workflows in the engine

    An entity that runs under imported workflows rests in a declared state; and a
    concrete import, with which the properties of the handlers are instantiated. *)

From Stdlib Require Import Ascii.
From stdpp Require Import base gmap strings list.
From S2P Require Import Prelude GoStrings Spi MemStores Schema SchemaAdmit Condition ConditionMatch ConditionSample Workflow WorkflowRun WorkflowFire WorkflowFrame WorkflowSample WorkflowPath WorkflowLoops WorkflowImport WorkflowImportProof WorkflowImportStore.

Section Engine.
Context {X : Env} {L : EnvLaws} {K : Kernel} {N : ImportEnv}.

Definition anyTransition (tr : TransitionDefinition) : Prop := True.
Lemma moveBy_any p wf m : moveBy p wf m → moveBy anyTransition wf m.
Proof. intros (trs & tr & ? & ? & ? & ? & ?). by exists trs, tr. Qed.

Lemma walk_declared wf st ms st' :
  wellFormed wf → walk st ms = Some st' → Forall (moveBy anyTransition wf) ms →
  st ∈ dom (wf_StateDefs wf) → st' ∈ dom (wf_StateDefs wf).
Proof.
  intros (_ & _ & _ & _ & Hs). revert st. induction ms as [|m ms IH]; intros st Hw Hf Hd; simpl in Hw; [by injection Hw as <-|].
  case_decide; [|done]. apply Forall_cons in Hf as [(trs & tr & Htrs & Hin & _ & _ & Hto) Hf]. eapply IH; [done..|].
  unfold wf_States in Htrs. rewrite lookup_fmap in Htrs. apply fmap_Some in Htrs as (sd & Hsd & ->).
  destruct (Hs _ _ Hsd) as (_ & _ & Htr). rewrite Forall_forall in Htr. rewrite <- Hto. by apply (Htr tr Hin).
Qed.
Lemma firstMove_any wf st name ms : firstMove wf st name ms → Forall (moveBy anyTransition wf) ms.
Proof.
  destruct name as [n|]; simpl; [|by intros ->]. intros (tr & (trs & Htrs & Hf & _) & ->). apply Forall_singleton.
  exists trs, tr. apply findTransition_name in Hf as Hn. unfold findTransition in Hf.
  destruct (list_find _ trs) as [[i tr']|] eqn:E; [|done]. injection Hf as ->. apply list_find_Some in E as (Hi & _).
  split_and!; try done. by eapply list_elem_of_lookup_2.
Qed.

(** Imported workflows keep entities in declared states.  A successful request
    runs a workflow that selection picked among the model's definitions or the
    defaults; and if those pass the structural checks of an import, then a created
    entity comes to rest in a declared state of its workflow, and an entity whose
    state is declared there still is in one after any later request. *)
Theorem imported_entity_declared e ctx d s res s' :
  enter e ctx d s = (Ret res, s') →
  ∃ ctx' wfs wf, candidates e ctx' (es_ent s) wfs ∧ (wf ∈ wfs ∨ head (defaultWorkflows e) = Some wf) ∧
    (Forall (λ wf, validateWorkflowStructure wf = None) (wfs ++ defaultWorkflows e) →
     match d with
     | DExecute _ => er_State res ∈ dom (wf_StateDefs wf)
     | _ => stateOf s ∈ dom (wf_StateDefs wf) → er_State res ∈ dom (wf_StateDefs wf)
     end).
Proof.
  intros (Hst & wf & ms1 & ms2 & (ctx' & t & s1 & s2 & Hr & Hs1) & _ & Hw & H1 & H2 & _)%enter_done.
  apply resolve_selects in Hr as (wfs & Hc & Hsel). rewrite Hs1 in Hc, Hsel.
  assert (Hin : wf ∈ wfs ∨ head (defaultWorkflows e) = Some wf).
  { destruct Hsel as [(pre & post & -> & _)|[_ ?]]; [left; rewrite elem_of_app; right; by left|by right]. }
  exists ctx', wfs, wf. split_and!; [done..|]. intros Hok.
  assert (Hwf : wellFormed wf).
  { apply structure_ok. rewrite Forall_forall in Hok. apply Hok, elem_of_app.
    destruct Hin as [?|Hh]; [by left|right]. destruct (defaultWorkflows e); [done|]. injection Hh as ->. by left. }
  assert (Hmoves : Forall (moveBy anyTransition wf) (ms1 ++ ms2)).
  { apply Forall_app. split; [by eapply firstMove_any|]. eapply Forall_impl; [exact H2|]. apply moveBy_any. }
  rewrite Hst. destruct d; simpl in Hw; [eapply walk_declared; [done..|]; apply Hwf|by apply walk_declared with (ms := ms1 ++ ms2)..].
Qed.
End Engine.

(** ** A concrete import *)
Module ImportSample.

(** ["d"] is the one criterion that parses as a condition. *)
#[export] Instance importEnv : ImportEnv := {|
  ParseCondition c := if decide (c = "d") then Some (SimpleCondition "$.name" "EQUALS" (JString "x")) else None;
  Compact s := if decide (TrimSpace s = s) then Some s else None;
  reencode s := s;
  rangeStates := map_to_list;
  rangeStates_perm := λ m, reflexivity _
|}.
#[export] Instance importLaws : ImportLaws.
Proof.
  split; simpl.
  - intros s t. case_decide as Hs; [|done]. intros [= <-]. by rewrite decide_True.
  - intros s t. case_decide as Hs; [|done]. by intros [= <-].
  - intros s t Hp. case_decide as Hs; [|done]. by intros [= <-].
  - done.
Qed.

Definition ref : ModelRef := mkModelRef "order" "1".
(** The tags of the storage contract omit a false flag, so that it comes back true. *)
Definition omitempty (b : bool) : option bool := if b then Some true else None.
Lemma omitted_flag_returns p : pr_AttachEntity (rereadProcessor omitempty p) = true.
Proof. unfold rereadProcessor, kept. simpl. by destruct (pr_AttachEntity p). Qed.

Definition attached : WorkflowDefinition := reread omitempty omitempty sampleWF.
(** ["body"] carries the sample workflow, ["again"] what is exported then. *)
Definition decodeRequest (body : string) : string + importRequest * bool :=
  if decide (body = "body") then inr (mkImportRequest "merge" false [wireDef sampleWF], false)
  else if decide (body = "again") then inr (mkImportRequest "REPLACE" false [wireDef (stamp attached)], false)
  else inl "unexpected end of JSON input".
Definition decodeProbe (body : string) : list (gmap string (list transitionProbe)) :=
  if decide (body = "body") then [probeOf omitempty omitempty sampleWF]
  else [probeOf omitempty omitempty (stamp attached)].
Definition tenantOf : err + string := inr "t1".
Definition modelGet (tenant : string) (r : ModelRef) : option err := if decide (r = ref) then None else Some ErrNotFound.
Definition run (body : string) := ImportEntityModelWorkflow decodeRequest decodeProbe tenantOf modelGet copyWorkflows ref body.

Lemma import_mode_combines_witness :
  wf_Name <$> applyImportMode [sampleWF; otherWF] [defaultWF; otherWF] "MERGE" = ["wf"; "other"; "default"] ∧
  NoDup (names (applyImportMode [sampleWF; otherWF] [defaultWF; otherWF] "ACTIVATE")).
Proof.
  assert (H1 : NoDup (names [sampleWF; otherWF])) by (apply (bool_decide_unpack _); reflexivity).
  assert (H2 : NoDup (names [defaultWF; otherWF])) by (apply (bool_decide_unpack _); reflexivity).
  split.
  - destruct (import_mode_combines _ _ "MERGE" H1 H2) as (_ & _ & Hn). exact (Hn eq_refl).
  - by destruct (import_mode_combines _ _ "ACTIVATE" H1 H2) as (Hn & _ & _).
Defined.

Lemma imported_entity_declared_witness :
  ∃ res s', enter Toy.engine Toy.ctx (DManual "go" "") (sampleRun "NEW") = (Ret res, s') ∧ er_State res = "DONE" ∧
    ∃ wfs wf, (wf ∈ wfs ∨ wf = defaultWF) ∧
      (Forall (λ wf, validateWorkflowStructure wf = None) (wfs ++ defaultWorkflows Toy.engine) →
       "NEW" ∈ dom (wf_StateDefs wf) → "DONE" ∈ dom (wf_StateDefs wf)).
Proof.
  assert (Hr : match enter Toy.engine Toy.ctx (DManual "go" "") (sampleRun "NEW") with
               | (Ret res, _) => er_State res = "DONE" | _ => False end) by by_eval.
  destruct (enter Toy.engine Toy.ctx (DManual "go" "") (sampleRun "NEW")) as [[res|er|p] s'] eqn:E; [|destruct Hr..].
  exists res, s'. split; [reflexivity|]. split; [exact Hr|].
  destruct (@imported_entity_declared Toy.env Toy.laws sampleKernel importEnv Toy.engine Toy.ctx (DManual "go" "")
              (sampleRun "NEW") res s' E) as (ctx' & wfs & wf & _ & Hin & H).
  exists wfs, wf. split; [destruct Hin as [Hin|Hh]; [left; exact Hin|right; injection Hh as Hh; symmetry; exact Hh]|].
  rewrite <- Hr. exact H.
Defined.

(** The store after the first import: the body omits the processors'
    [attachEntity]. *)
Definition imported1 : gmap string (gmap ModelRef (list WorkflowDefinition)) := {[ "t1" := {[ ref := [attached] ]} ]}.

Lemma run_body : run "body" ∅ = (Ret tt, imported1).
Proof. reflexivity. Qed.


Lemma attached_passes : passes attached.
Proof.
  split_and!.
  - apply structure_ok. reflexivity.
  - refine (proj1 (annotateWorkflow_out attached attached _)). reflexivity.
  - apply loopError_ok. reflexivity.
  - apply processorFlags_ok. reflexivity.
Qed.
End ImportSample.
