(* ===== verification/PeerAuth.v ===== *)
(** * Authentication between peers

    [internal/cluster/dispatch/nonce_cache.go] and [aead_peer_auth.go]: a request
    between nodes is sealed with a shared key, bound to its method, path and time
    stamp, accepted within a skew of the receiver's clock and at most once. *)

From Stdlib Require Import Ascii.
From stdpp Require Import base gmap strings list.
From S2P Require Import Prelude GoStrings Spi Workflow WorkflowImport SchemaVersion.

(** ** Time

    Instants in nanoseconds; durations on 64 bits. *)
Definition minDuration : Z := - 2^63.
Definition maxDuration : Z := 2^63 - 1.
(** [Time.Sub] saturates; negation wraps. *)
Definition Sub (t u : Z) : Z := Z.max minDuration (Z.min maxDuration (t - u)).
Definition negDuration (d : Z) : Z := wrap64 (- d).
Definition Unix (t : Z) : Z := t `div` 1000000000.
Definition ofUnix (sec : Z) : Z := sec * 1000000000.

(** ** The replay cache *)

Record nonceCache := mkNonces { nc_ttl : Z; nc_cap : Z; nc_entries : gmap string Z }.
Definition newNonceCache (ttl capacity : Z) : nonceCache := mkNonces ttl capacity ∅.

Definition evictLocked (now : Z) (c : nonceCache) : nonceCache :=
  let cutoff := (now - nc_ttl c)%Z in
  mkNonces (nc_ttl c) (nc_cap c) (filter (λ kt, ¬ (kt.2 < cutoff)%Z) (nc_entries c)).
(** [true] means a replay, or a cache that is full. *)
Definition checkAndRecord (now : Z) (nonce : string) (observed : Z) (c : nonceCache) : bool * nonceCache :=
  let c := evictLocked now c in
  match nc_entries c !! nonce with
  | Some _ => (true, c)
  | None =>
      if decide (nc_cap c ≤ Z.of_nat (size (nc_entries c)))%Z then (true, c)
      else (false, mkNonces (nc_ttl c) (nc_cap c) (<[nonce := observed]> (nc_entries c)))
  end.

(** ** Envelopes *)

Definition DispatchContentType : string := "application/cyoda-dispatch-v1".
Definition dispatchMaxBodySize : Z := 10 * 1024 * 1024.
Definition nonceCacheCapacity : Z := 100000.

(** AES-GCM under the derived key. *)
Definition NonceSize : nat := 12.
Definition Overhead : nat := 16.
Class AEAD := {
  deriveDispatchKey : string → string;
  Seal : string → string → string → string → string;
  Open : string → string → string → string → option string
}.
(** What was sealed opens, and a tag is as long as the overhead. *)
Class AEADLaws {G : AEAD} : Prop := {
  Open_Seal : ∀ key nonce body ad, Open key nonce (Seal key nonce body ad) ad = Some body;
  Seal_length : ∀ key nonce body ad, String.length (Seal key nonce body ad) = String.length body + Overhead
}.

Record AEADPeerAuth := mkAuth { pa_key : string; pa_nonces : nonceCache; pa_skew : Z }.
Inductive authErr : Type :=
| ErrSharedSecretTooShort | MissingTimestamp | MalformedTimestamp | OutsideSkew | BodyTooShort | OpenFailed | Replayed.

(** The parts of a request the authentication uses; [rq_ContentType] and
    [rq_Timestamp] are headers. *)
Record PeerRequest := mkRequest {
  rq_Method : string; rq_Path : string; rq_ContentType : string; rq_Timestamp : string; rq_Body : string
}.

(** [strconv.ParseInt(s, 10, 64)]: an optional sign and digits. *)
Definition ParseInt64 (s : string) : option Z :=
  let number (neg : bool) (t : string) : option Z :=
    if bool_decide (t = "") || negb (forallb isDigit (bytesOfString t)) then None
    else let v := (if neg then - decimal t else decimal t)%Z in
         if decide (- 2^63 ≤ v ≤ 2^63 - 1)%Z then Some v else None in
  match s with
  | String "-"%char t => number true t
  | String "+"%char t => number false t
  | t => number false t
  end.
(** [strconv.FormatInt(n, 10)]. *)
Definition FormatInt64 (n : Z) : string := if decide (n < 0)%Z then "-" +:+ print (- n) else print n.

Definition newline : string := String "010"%char "".
Definition buildAD (method path ts : string) : string := method +:+ newline +:+ path +:+ newline +:+ ts.

Section Auth.
Context {G : AEAD}.

Definition newAEADPeerAuth (sharedSecret : string) (skew : Z) : authErr + AEADPeerAuth :=
  if decide (String.length sharedSecret < 32) then inl ErrSharedSecretTooShort
  else inr (mkAuth (deriveDispatchKey sharedSecret) (newNonceCache (wrap64 (skew * 2)) nonceCacheCapacity) skew).

(** [nonce] is the random draw. *)
Definition Sign (a : AEADPeerAuth) (now : Z) (nonce method path body : string) : PeerRequest :=
  let ts := FormatInt64 (Unix now) in
  mkRequest method path DispatchContentType ts (nonce +:+ Seal (pa_key a) nonce body (buildAD method path ts)).

(** The absolute difference, as computed. *)
Definition outsideSkew (now ts skew : Z) : bool :=
  let diff := Sub now ts in
  let diff := if decide (diff < 0)%Z then negDuration diff else diff in
  bool_decide (skew < diff)%Z.

Definition limitBody (body : string) : string :=
  if decide (Z.of_nat (String.length body) ≤ dispatchMaxBodySize)%Z then body
  else takeBytes (Z.to_nat dispatchMaxBodySize) body.

Definition Verify (a : AEADPeerAuth) (now : Z) (r : PeerRequest) : (authErr + string) * AEADPeerAuth :=
  if decide (rq_Timestamp r = "") then (inl MissingTimestamp, a) else
  match ParseInt64 (rq_Timestamp r) with
  | None => (inl MalformedTimestamp, a)
  | Some sec =>
      let ts := ofUnix sec in
      if outsideSkew now ts (pa_skew a) then (inl OutsideSkew, a) else
      let body := limitBody (rq_Body r) in
      if decide (String.length body < NonceSize + Overhead) then (inl BodyTooShort, a) else
      let nonce := takeBytes NonceSize body in
      let ct := dropBytes NonceSize body in
      match Open (pa_key a) nonce ct (buildAD (rq_Method r) (rq_Path r) (rq_Timestamp r)) with
      | None => (inl OpenFailed, a)
      | Some pt =>
          let '(replay, nonces) := checkAndRecord now nonce ts (pa_nonces a) in
          let a' := mkAuth (pa_key a) nonces (pa_skew a) in
          if replay then (inl Replayed, a') else (inr pt, a')
      end
  end.

(** A node's answers to a sequence of requests, each at an instant. *)
Fixpoint serve (a : AEADPeerAuth) (calls : list (Z * PeerRequest)) : list (authErr + string) :=
  match calls with
  | [] => []
  | (now, r) :: calls => let '(res, a') := Verify a now r in res :: serve a' calls
  end.
(** What identifies an envelope: its nonce and its time stamp. *)
Definition nonceOf (r : PeerRequest) : string := takeBytes NonceSize (limitBody (rq_Body r)).
Definition stampOf (r : PeerRequest) : option Z := ParseInt64 (rq_Timestamp r).

(** ** No replays *)

Lemma outsideSkew_late now ts skew :
  (0 ≤ skew < maxDuration)%Z → outsideSkew now ts skew = false → (now - ts ≤ skew)%Z.
Proof.
  unfold outsideSkew, Sub, minDuration, maxDuration. intros Hs. destruct (decide _) as [Hd|Hd]; [lia|].
  rewrite bool_decide_eq_false. lia.
Qed.
Lemma evict_keeps now c nonce ts :
  nc_entries c !! nonce = Some ts → (now - nc_ttl c ≤ ts)%Z → nc_entries (evictLocked now c) !! nonce = Some ts.
Proof. intros Hl Hn. simpl. apply map_lookup_filter_Some. split; [done|]. simpl. lia. Qed.

(** What a request leaves of the authenticator. *)
Lemma Verify_frame a now r res a' :
  Verify a now r = (res, a') → pa_skew a' = pa_skew a ∧ nc_ttl (pa_nonces a') = nc_ttl (pa_nonces a) ∧
  ∀ nonce ts, nc_entries (pa_nonces a) !! nonce = Some ts → (now - nc_ttl (pa_nonces a) ≤ ts)%Z →
    nc_entries (pa_nonces a') !! nonce = Some ts.
Proof.
  unfold Verify. case_decide; [by intros [= _ <-]|]. destruct (ParseInt64 _) as [sec|]; [|by intros [= _ <-]].
  destruct (outsideSkew _ _ _); [by intros [= _ <-]|]. case_decide; [by intros [= _ <-]|].
  destruct (Open _ _ _ _) as [pt|]; [|by intros [= _ <-]].
  unfold checkAndRecord. set (n := takeBytes _ _). set (c := evictLocked now (pa_nonces a)).
  assert (Hc : ∀ nonce ts, nc_entries (pa_nonces a) !! nonce = Some ts → (now - nc_ttl (pa_nonces a) ≤ ts)%Z →
                           nc_entries c !! nonce = Some ts) by (intros; by apply evict_keeps).
  destruct (nc_entries c !! n) eqn:E; [by intros [= _ <-]|]. case_decide; intros [= _ <-]; split_and!; try done.
  intros nonce ts Hl Hn. simpl. rewrite lookup_insert_ne; [by apply Hc|]. intros <-. specialize (Hc _ _ Hl Hn). congruence.
Qed.
Lemma Verify_accepts a now r pt a' :
  Verify a now r = (inr pt, a') → ∃ sec, stampOf r = Some sec ∧ outsideSkew now (ofUnix sec) (pa_skew a) = false ∧
    nc_entries (evictLocked now (pa_nonces a)) !! nonceOf r = None ∧
    nc_entries (pa_nonces a') !! nonceOf r = Some (ofUnix sec).
Proof.
  unfold Verify, stampOf, nonceOf. case_decide; [done|]. destruct (ParseInt64 _) as [sec|]; [|done].
  destruct (outsideSkew _ _ _) eqn:Hs; [done|]. case_decide; [done|].
  destruct (Open _ _ _ _) as [pt'|]; [|done]. unfold checkAndRecord.
  destruct (nc_entries (evictLocked now (pa_nonces a)) !! _) eqn:E; [done|]. case_decide; [done|].
  intros [= <- <-]. exists sec. split_and!; [done..|]. simpl. by rewrite lookup_insert_eq.
Qed.

Lemma serve_accepts a calls j now r pt :
  serve a calls !! j = Some (inr pt) → calls !! j = Some (now, r) →
  ∃ b b', pa_skew b = pa_skew a ∧ Verify b now r = (inr pt, b').
Proof.
  revert a j. induction calls as [|[now0 r0] calls IH]; intros a j Hres Hj; [done|]. simpl in Hres.
  destruct (Verify a now0 r0) as [res a'] eqn:Hv. destruct j as [|j]; simpl in Hj, Hres.
  - injection Hj as -> ->. injection Hres as ->. by exists a, a'.
  - destruct (IH a' j Hres Hj) as (b & b' & Hb & Hvb). exists b, b'. split; [|done]. rewrite Hb.
    by apply Verify_frame in Hv as [-> _].
Qed.
Lemma recorded_rejects a calls nonce sec j now r pt :
  (0 ≤ pa_skew a < maxDuration)%Z → (pa_skew a ≤ nc_ttl (pa_nonces a))%Z →
  nc_entries (pa_nonces a) !! nonce = Some (ofUnix sec) →
  (∀ k now' r', calls !! k = Some (now', r') → k ≤ j → (now' ≤ now)%Z) →
  calls !! j = Some (now, r) → nonceOf r = nonce → stampOf r = Some sec → serve a calls !! j ≠ Some (inr pt).
Proof.
  intros Hs Httl He Hle Hj Hn Hst Hres.
  assert (Hbound : (now - pa_skew a ≤ ofUnix sec)%Z).
  { destruct (serve_accepts _ _ _ _ _ _ Hres Hj) as (b & b' & Hb & (sec' & Hst' & Hsk & _)%Verify_accepts).
    rewrite Hst in Hst'. injection Hst' as <-. rewrite Hb in Hsk. apply outsideSkew_late in Hsk; [lia|done]. }
  revert a j Hs Httl He Hle Hj Hres Hbound.
  induction calls as [|[now0 r0] calls IH]; intros a j Hs Httl He Hle Hj Hres Hbound; [done|].
  simpl in Hres. destruct (Verify a now0 r0) as [res a'] eqn:Hv.
  destruct j as [|j]; simpl in Hj, Hres.
  - injection Hj as -> ->. injection Hres as ->. apply Verify_accepts in Hv as (_ & _ & _ & Hno & _).
    rewrite Hn, (evict_keeps now _ _ _ He) in Hno; [done|]. lia.
  - destruct (Verify_frame _ _ _ _ _ Hv) as (Hsk & Htt & Hkeep).
    assert (now0 ≤ now)%Z by (apply (Hle 0 now0 r0); [done|lia]).
    apply (IH a' j); rewrite ?Hsk, ?Htt; try done; [apply Hkeep; [done|lia]|].
    intros k n' r' Hk Hkj. apply (Hle (S k) n' r'); [done|lia].
Qed.


(** A time stamp more than 292 years ahead of the clock passes the skew check. *)
Lemma far_future_passes now ts skew :
  (0 ≤ skew)%Z → (2^63 ≤ ts - now)%Z → outsideSkew now ts skew = false.
Proof.
  intros Hs Hf. unfold outsideSkew, Sub, minDuration, maxDuration.
  replace (Z.max (- 2 ^ 63) (Z.min (2 ^ 63 - 1) (now - ts)))%Z with (- 2^63)%Z by lia.
  rewrite decide_True by done. apply bool_decide_eq_false. unfold negDuration.
  change (wrap64 (- - 2 ^ 63)) with (- 2^63)%Z. lia.
Qed.
End Auth.

(** ** A sealed request verifies *)

Lemma ParseInt64_digits t :
  forallb isDigit (bytesOfString t) = true → t ≠ "" →
  ParseInt64 t = if decide (- 2^63 ≤ decimal t ≤ 2^63 - 1)%Z then Some (decimal t) else None.
Proof.
  intros Hd Hne. destruct t as [|c t]; [done|].
  assert (Hn : ParseInt64 (String c t) =
    (if bool_decide (String c t = "") || negb (forallb isDigit (bytesOfString (String c t))) then None
     else if decide (- 2^63 ≤ decimal (String c t) ≤ 2^63 - 1)%Z then Some (decimal (String c t)) else None)).
  { simpl in Hd. apply andb_true_iff in Hd as [Hc _]. by destruct c as [[] [] [] [] [] [] [] []]. }
  rewrite Hn, Hd. by rewrite bool_decide_eq_false_2.
Qed.
Lemma ParseInt64_Format n : (- 2^63 ≤ n ≤ 2^63 - 1)%Z → ParseInt64 (FormatInt64 n) = Some n.
Proof.
  intros Hn. unfold FormatInt64. case_decide as Hneg.
  - destruct (print_segment (- n)) as (Hv & Hd & Hne); [lia|].
    change ("-" +:+ print (- n)) with (String "-" (print (- n))). unfold ParseInt64. rewrite Hd, bool_decide_eq_false_2 by done.
    simpl negb. simpl orb. cbv iota. rewrite Hv, Z.opp_involutive. by rewrite decide_True.
  - destruct (print_segment n) as (Hv & Hd & Hne); [lia|]. rewrite ParseInt64_digits by done. rewrite Hv. by rewrite decide_True.
Qed.
(** A signed request verifies: a node with the same key accepts what a peer
    signed, for the method and path it was signed for, and gets the peer's body,
    provided the clocks agree within the skew, the envelope fits the size limit and
    its nonce is fresh in a cache with room. *)
Theorem signed_request_verifies `{G : AEAD, L : !AEADLaws} a b now1 now2 nonce method path body :
  pa_key a = pa_key b → String.length nonce = NonceSize → (- 2^63 ≤ Unix now1 ≤ 2^63 - 1)%Z →
  (Z.of_nat (NonceSize + String.length body + Overhead) ≤ dispatchMaxBodySize)%Z →
  outsideSkew now2 (ofUnix (Unix now1)) (pa_skew b) = false →
  nc_entries (evictLocked now2 (pa_nonces b)) !! nonce = None →
  (Z.of_nat (size (nc_entries (evictLocked now2 (pa_nonces b)))) < nc_cap (pa_nonces b))%Z →
  (Verify b now2 (Sign a now1 nonce method path body)).1 = inr body.
Proof.
  intros Hk Hn Hu Hlen Hs Hf Hc. unfold Verify, Sign. simpl rq_Timestamp. simpl rq_Body. simpl rq_Method. simpl rq_Path.
  rewrite decide_False by (by unfold FormatInt64; case_decide; [|apply print_segment; lia]).
  rewrite ParseInt64_Format by done. rewrite Hs.
  set (ct := Seal _ _ _ _). assert (Hct : String.length ct = String.length body + Overhead) by apply Seal_length.
  assert (Hlim : limitBody (nonce +:+ ct) = nonce +:+ ct).
  { unfold limitBody. rewrite length_append, Hn, Hct. rewrite decide_True; [done|lia]. }
  rewrite Hlim. rewrite decide_False by (rewrite length_append; lia).
  rewrite <- Hn, takeBytes_app, dropBytes_app. unfold ct. rewrite Hk, Open_Seal.
  unfold checkAndRecord. rewrite Hf. rewrite decide_False; [done|]. simpl nc_cap. lia.
Qed.

(** ** Witnesses *)
Module AuthSample.
(** A toy seal: the body, then a tag of its own length. *)
Definition tag : string := "0123456789abcdef".
#[export] Instance toyAEAD : AEAD := {|
  deriveDispatchKey s := s;
  Seal key nonce body ad := body +:+ tag;
  Open key nonce ct ad :=
    if HasSuffix ct tag then Some (takeBytes (String.length ct - 16) ct) else None
|}.
Lemma HasSuffix_app b t : HasSuffix (b +:+ t) t = true.
Proof.
  induction b as [|c b IH].
  - change ("" +:+ t) with t. destruct t; [reflexivity|]. cbn [HasSuffix]. by rewrite bool_decide_eq_true_2.
  - change (String c b +:+ t) with (String c (b +:+ t)). cbn [HasSuffix]. rewrite IH. apply orb_true_r.
Qed.
#[export] Instance toyLaws : AEADLaws.
Proof.
  split; simpl.
  - intros _ _ body _. rewrite HasSuffix_app, length_append. simpl String.length.
    rewrite Nat.add_sub. by rewrite takeBytes_app.
  - intros _ _ body _. by rewrite length_append.
Qed.
Definition auth : AEADPeerAuth := mkAuth "k" (newNonceCache 60000000000 nonceCacheCapacity) 30000000000.
Definition request : PeerRequest := Sign auth 1000000000000 "nonce-nonce-" "POST" "/internal/dispatch/callout" "{}".

Lemma signed_request_verifies_witness : (Verify auth 1000500000000 request).1 = inr "{}".
Proof.
  apply (signed_request_verifies auth auth 1000000000000 1000500000000 "nonce-nonce-");
    [reflexivity|reflexivity|vm_compute; split; discriminate|vm_compute; discriminate|reflexivity|reflexivity|reflexivity].
Defined.
(** The second copy of the request is refused; a later one is not the same. *)
Definition fresh : PeerRequest := Sign auth 1001000000000 "nonce-other-" "POST" "/internal/dispatch/callout" "{}".
Definition traffic : list (Z * PeerRequest) := [(1000500000000%Z, request); (1000600000000%Z, request); (1001000000000%Z, fresh)].
End AuthSample.
