(* ===== verification/TxToken.v ===== *)
(** * Transaction tokens

    [internal/cluster/token/token.go] and [internal/domain/txjoin/txjoin.go]: a
    compute node's callback names the transaction it belongs to by a signed token;
    the token is verified and the transaction of the memory plugin joined. *)

From Stdlib Require Import Ascii.
From stdpp Require Import base gmap strings list.
From S2P Require Import Prelude GoStrings Spi MemState MemTx MemFrame MemSI MemIsolation Workflow WorkflowImport SchemaVersion.

(** ** [base64.RawURLEncoding] *)

Definition alphabet : list ascii :=
  bytesOfString "ABCDEFGHIJKLMNOPQRSTUVWXYZabcdefghijklmnopqrstuvwxyz0123456789-_".
(** Six bits, lowest first. *)
Record sextet := mkSextet { x0 : bool; x1 : bool; x2 : bool; x3 : bool; x4 : bool; x5 : bool }.
Definition sextetIndex (x : sextet) : nat :=
  nat_of_ascii (Ascii (x0 x) (x1 x) (x2 x) (x3 x) (x4 x) (x5 x) false false).
Definition encodeChar (x : sextet) : ascii := default "A"%char (alphabet !! sextetIndex x).
Definition decodeChar (c : ascii) : option sextet :=
  match list_find (eq c) alphabet with
  | Some (i, _) => let 'Ascii a b d e f g _ _ := ascii_of_nat i in Some (mkSextet a b d e f g)
  | None => None
  end.

Fixpoint encodeBytes (l : list ascii) : list ascii :=
  match l with
  | Ascii a0 a1 a2 a3 a4 a5 a6 a7 :: Ascii b0 b1 b2 b3 b4 b5 b6 b7 :: Ascii c0 c1 c2 c3 c4 c5 c6 c7 :: l =>
      encodeChar (mkSextet a2 a3 a4 a5 a6 a7) :: encodeChar (mkSextet b4 b5 b6 b7 a0 a1) ::
      encodeChar (mkSextet c6 c7 b0 b1 b2 b3) :: encodeChar (mkSextet c0 c1 c2 c3 c4 c5) :: encodeBytes l
  | [Ascii a0 a1 a2 a3 a4 a5 a6 a7; Ascii b0 b1 b2 b3 b4 b5 b6 b7] =>
      [encodeChar (mkSextet a2 a3 a4 a5 a6 a7); encodeChar (mkSextet b4 b5 b6 b7 a0 a1);
       encodeChar (mkSextet false false b0 b1 b2 b3)]
  | [Ascii a0 a1 a2 a3 a4 a5 a6 a7] =>
      [encodeChar (mkSextet a2 a3 a4 a5 a6 a7); encodeChar (mkSextet false false false false a0 a1)]
  | [] => []
  end.
(** Four digits make three bytes; the bits left over at the end are not looked at. *)
Fixpoint decodeDigits (l : list sextet) : option (list ascii) :=
  match l with
  | [] => Some []
  | [_] => None
  | [a; b] => Some [Ascii (x4 b) (x5 b) (x0 a) (x1 a) (x2 a) (x3 a) (x4 a) (x5 a)]
  | [a; b; c] => Some [Ascii (x4 b) (x5 b) (x0 a) (x1 a) (x2 a) (x3 a) (x4 a) (x5 a);
                       Ascii (x2 c) (x3 c) (x4 c) (x5 c) (x0 b) (x1 b) (x2 b) (x3 b)]
  | a :: b :: c :: d :: l =>
      rest ← decodeDigits l;
      Some (Ascii (x4 b) (x5 b) (x0 a) (x1 a) (x2 a) (x3 a) (x4 a) (x5 a) ::
            Ascii (x2 c) (x3 c) (x4 c) (x5 c) (x0 b) (x1 b) (x2 b) (x3 b) ::
            Ascii (x0 d) (x1 d) (x2 d) (x3 d) (x4 d) (x5 d) (x0 c) (x1 c) :: rest)
  end.
Definition lineBreak (c : ascii) : bool := bool_decide (c = "010"%char ∨ c = "013"%char).
Definition decodeBytes (l : list ascii) : option (list ascii) :=
  mapM decodeChar (filter (λ c, lineBreak c = false) l) ≫= decodeDigits.

Fixpoint ofBytes (l : list ascii) : string := match l with [] => EmptyString | c :: l => String c (ofBytes l) end.
Definition EncodeToString (s : string) : string := ofBytes (encodeBytes (bytesOfString s)).
Definition DecodeString (s : string) : option string := ofBytes <$> decodeBytes (bytesOfString s).

Lemma ofBytes_bytes s : ofBytes (bytesOfString s) = s.
Proof. induction s as [|c s IH]; simpl; [done|]. by rewrite IH. Qed.
Lemma bytes_ofBytes l : bytesOfString (ofBytes l) = l.
Proof. induction l as [|c l IH]; simpl; [done|]. by rewrite IH. Qed.
Lemma decode_encodeChar x :
  decodeChar (encodeChar x) = Some x ∧ lineBreak (encodeChar x) = false ∧ encodeChar x ≠ "."%char.
Proof. by destruct x as [[] [] [] [] [] []]. Qed.

(** Three bytes at a time. *)
Lemma bytes_ind (P : list ascii → Prop) :
  P [] → (∀ a, P [a]) → (∀ a b, P [a; b]) → (∀ a b c l, P l → P (a :: b :: c :: l)) → ∀ l, P l.
Proof.
  intros H0 H1 H2 H3. fix IH 1. intros [|a [|b [|c l]]]; [exact H0|apply H1|apply H2|apply H3, IH].
Qed.
Lemma encode_digits l :
  ∃ xs, encodeBytes l = encodeChar <$> xs ∧ decodeDigits xs = Some l.
Proof.
  induction l as [|[]|[] []|[] [] [] l (xs & He & Hd)] using bytes_ind; simpl.
  - by exists [].
  - by eexists [_; _].
  - by eexists [_; _; _].
  - eexists (_ :: _ :: _ :: _ :: xs). rewrite !fmap_cons, <- He. split; [done|]. simpl. by rewrite Hd.
Qed.
Lemma decode_encode s : DecodeString (EncodeToString s) = Some s.
Proof.
  unfold DecodeString, EncodeToString. rewrite bytes_ofBytes. destruct (encode_digits (bytesOfString s)) as (xs & -> & Hd).
  unfold decodeBytes. assert (Hf : filter (λ c, lineBreak c = false) (encodeChar <$> xs) = encodeChar <$> xs).
  { clear. induction xs as [|x xs IH]; [done|]. rewrite fmap_cons, filter_cons_True, IH by apply decode_encodeChar. done. }
  rewrite Hf. assert (Hm : mapM decodeChar (encodeChar <$> xs) = Some xs).
  { clear. apply mapM_Some. induction xs as [|x xs IH]; constructor; [apply decode_encodeChar|done]. }
  rewrite Hm. simpl. rewrite Hd. simpl. by rewrite ofBytes_bytes.
Qed.
Lemma encode_nodot s : "."%char ∉ bytesOfString (EncodeToString s).
Proof.
  unfold EncodeToString. rewrite bytes_ofBytes. destruct (encode_digits (bytesOfString s)) as (xs & -> & _).
  intros (x & Hx & _)%list_elem_of_fmap. by destruct (decode_encodeChar x) as (_ & _ & ?).
Qed.

(** ** Tokens *)

Record Claims := mkClaims { cl_NodeID : string; cl_TxRef : string; cl_ExpiresAt : Z }.
(** HMAC-SHA256 under a secret, and the claims as JSON. *)
Class TokenPrims := {
  hmacSum : string → string → string;
  marshalClaims : Claims → string;
  unmarshalClaims : string → option Claims
}.
Class TokenLaws {P : TokenPrims} : Prop := {
  unmarshal_marshal : ∀ c, unmarshalClaims (marshalClaims c) = Some c
}.

Inductive tokenErr : Type := ErrTokenExpired | ErrTokenInvalid | ErrTokenTampered | ErrSecretTooShort.
Record Signer := mkSigner { sg_secret : string }.

(** The text before and after the last dot. *)
Fixpoint cutLastDot (s : string) : option (string * string) :=
  match s with
  | EmptyString => None
  | String c s =>
      match cutLastDot s with
      | Some (a, b) => Some (String c a, b)
      | None => if Ascii.eqb c "."%char then Some (EmptyString, s) else None
      end
  end.

Section Tokens.
Context {P : TokenPrims}.

Definition NewSigner (secret : string) : tokenErr + Signer :=
  if decide (String.length secret < 32) then inl ErrSecretTooShort else inr (mkSigner secret).
Definition sign (s : Signer) (payload : string) : string := hmacSum (sg_secret s) payload.
(** [expiresAt] in seconds. *)
Definition Issue (s : Signer) (nodeID txRef : string) (expiresAt : Z) : string :=
  let payload := marshalClaims (mkClaims nodeID txRef expiresAt) in
  EncodeToString payload +:+ "." +:+ EncodeToString (sign s payload).
Definition VerifyToken (s : Signer) (now : Z) (tok : string) : tokenErr + Claims :=
  match cutLastDot tok with
  | None => inl ErrTokenInvalid
  | Some (payloadB64, sigB64) =>
      match DecodeString payloadB64, DecodeString sigB64 with
      | Some payload, Some sig =>
          if decide (sig = sign s payload) then
            match unmarshalClaims payload with
            | None => inl ErrTokenInvalid
            | Some claims => if decide (cl_ExpiresAt claims < now)%Z then inl ErrTokenExpired else inr claims
            end
          else inl ErrTokenTampered
      | _, _ => inl ErrTokenInvalid
      end
  end.

Lemma cutLastDot_none s : "."%char ∉ bytesOfString s → cutLastDot s = None.
Proof.
  induction s as [|c s IH]; simpl; [done|]. rewrite not_elem_of_cons. intros [Hc Hs]. rewrite IH by done.
  destruct (Ascii.eqb_spec c "."); [congruence|done].
Qed.
Lemma cutLastDot_app a b : "."%char ∉ bytesOfString b → cutLastDot (a +:+ String "." b) = Some (a, b).
Proof.
  intros Hb. induction a as [|c a IH].
  - change ("" +:+ String "." b) with (String "." b). simpl. by rewrite cutLastDot_none.
  - change (String c a +:+ String "." b) with (String c (a +:+ String "." b)). simpl. by rewrite IH.
Qed.

Lemma verify_issued s now nodeID txRef expiresAt `{L : !TokenLaws} :
  VerifyToken s now (Issue s nodeID txRef expiresAt) =
    if decide (expiresAt < now)%Z then inl ErrTokenExpired else inr (mkClaims nodeID txRef expiresAt).
Proof.
  unfold VerifyToken, Issue. change ("." +:+ ?x) with (String "." x). rewrite cutLastDot_app by apply encode_nodot.
  rewrite !decode_encode. rewrite decide_True by done. by rewrite unmarshal_marshal.
Qed.

(** ** Joining *)

Inductive joinErr : Type :=
| JTransactionExpired | JUnauthorized | JForbidden | JTransactionNotFound | JInternal (e : err).
Definition JoinFromToken (signer : Signer) (now : Z) (ctx : Ctx) (tok : string) : M joinErr Mem Ctx :=
  if decide (tok = "") then mret ctx else
  match VerifyToken signer now tok with
  | inl ErrTokenExpired => fail JTransactionExpired
  | inl _ => fail JUnauthorized
  | inr claims => λ s,
      match Join ctx (cl_TxRef claims) s with
      | (Ret joined, s') => (Ret joined, s')
      | (Err ErrTxTenantMismatch, s') => (Err JForbidden, s')
      | (Err (ErrTxNotFound | ErrTxRolledBack | ErrTxAlreadyCommitted), s') => (Err JTransactionNotFound, s')
      | (Err e, s') => (Err (JInternal e), s')
      | (Panic w, s') => (Panic w, s')
      end
  end.

(** The transaction can be joined from [ctx]. *)
Definition joinable (ctx : Ctx) (txID : string) (s : Mem) : Prop :=
  txID ∈ active (tm s) ∧ ∃ tx, heap s !! txID = Some tx ∧ RolledBack tx = false ∧ Closed tx = false ∧
    tenantMismatch ctx (tx_TenantID tx) = false.
Lemma Join_run ctx txID s joined s' :
  Join ctx txID s = (Ret joined, s') ↔ s' = s ∧ joined = WithTransaction ctx txID ∧ joinable ctx txID s.
Proof.
  unfold Join, joinable. mrun. case_decide as Ha; [split; [done|tauto]|]. unfold deref. mrun.
  destruct (heap s !! txID) as [tx|]; [|split; [done|by intros (_ & _ & _ & ? & ? & _)]]. mrun.
  assert (Hno : (∃ tx', Some tx = Some tx' ∧ RolledBack tx' = false ∧ Closed tx' = false ∧
      tenantMismatch ctx (tx_TenantID tx') = false) →
    RolledBack tx = false ∧ Closed tx = false ∧ tenantMismatch ctx (tx_TenantID tx) = false).
  { by intros (tx' & [= <-] & ?). }
  destruct (RolledBack tx) eqn:H1; [split; [done|intros (_ & _ & _ & (? & _)%Hno); done]|].
  destruct (Closed tx) eqn:H2; [split; [done|intros (_ & _ & _ & (_ & ? & _)%Hno); done]|].
  destruct (tenantMismatch ctx (tx_TenantID tx)) eqn:H3; [split; [done|intros (_ & _ & _ & (_ & _ & ?)%Hno); done]|].
  split; [intros [= <- <-]|intros (-> & -> & _); done]. split_and!; [done..| |by exists tx].
  by destruct (decide (txID ∈ active (tm s))).
Qed.

(** C35. What a token is good for.  A callback with a token issued for a transaction
    joins exactly that transaction, and just when the token has not expired and the
    transaction is still active and of the caller's tenant; the join changes
    nothing.  And whatever token gets a caller into a transaction carries a payload
    naming that transaction under the signature of the cluster's secret. *)
Theorem token_joins_its_transaction `{L : !TokenLaws} signer now ctx s :
  (∀ nodeID txID expiresAt joined s',
     JoinFromToken signer now ctx (Issue signer nodeID txID expiresAt) s = (Ret joined, s') ↔
     s' = s ∧ joined = WithTransaction ctx txID ∧ (now ≤ expiresAt)%Z ∧ joinable ctx txID s) ∧
  (∀ tok joined s', tok ≠ "" → JoinFromToken signer now ctx tok s = (Ret joined, s') →
     ∃ payloadB64 sigB64 payload claims,
       cutLastDot tok = Some (payloadB64, sigB64) ∧ DecodeString payloadB64 = Some payload ∧
       DecodeString sigB64 = Some (sign signer payload) ∧ unmarshalClaims payload = Some claims ∧
       joined = WithTransaction ctx (cl_TxRef claims) ∧ joinable ctx (cl_TxRef claims) s).
Proof.
  assert (Hjoin : ∀ claims joined s',
    match Join ctx (cl_TxRef claims) s with
    | (Ret j, s1) => (Ret j, s1)
    | (Err ErrTxTenantMismatch, s1) => (Err JForbidden, s1)
    | (Err (ErrTxNotFound | ErrTxRolledBack | ErrTxAlreadyCommitted), s1) => (Err JTransactionNotFound, s1)
    | (Err e, s1) => (Err (JInternal e), s1)
    | (Panic w, s1) => (Panic w, s1)
    end = (Ret joined, s') ↔ s' = s ∧ joined = WithTransaction ctx (cl_TxRef claims) ∧ joinable ctx (cl_TxRef claims) s).
  { intros claims joined s'. rewrite <- Join_run. destruct (Join ctx (cl_TxRef claims) s) as [[j|e|w] s1].
    - split; by intros [= -> ->].
    - by destruct e.
    - done. }
  split.
  - intros nodeID txID expiresAt joined s'. unfold JoinFromToken.
    rewrite (verify_issued signer now nodeID txID expiresAt).
    rewrite decide_False by (unfold Issue; by destruct (EncodeToString _)).
    destruct (decide (expiresAt < now)%Z) as [Hexp|Hexp].
    + split; [done|lia].
    + rewrite Hjoin. simpl. naive_solver lia.
  - intros tok joined s' Hne. unfold JoinFromToken. rewrite decide_False by done. unfold VerifyToken.
    destruct (cutLastDot tok) as [[pb sb]|]; [|done]. destruct (DecodeString pb) as [payload|] eqn:Hp; [|done].
    destruct (DecodeString sb) as [sig|] eqn:Hs; [|done]. case_decide as Hsig; [|done]. subst sig.
    destruct (unmarshalClaims payload) as [claims|] eqn:Hc; [|done]. case_decide; [done|].
    intros (-> & -> & Hj)%Hjoin. by exists pb, sb, payload, claims.
Qed.
End Tokens.

(** ** Witness *)
Module TokenSample.
(** Claims as text: the two lengths in unary, the sign, then the parts. *)
Fixpoint unary (n : nat) : string := match n with 0 => "0" | S n => String "1" (unary n) end.
Fixpoint readUnary (s : string) : nat * string :=
  match s with
  | String c s => if Ascii.eqb c "1" then let '(n, r) := readUnary s in (S n, r) else (0, s)
  | EmptyString => (0, "")
  end.
Lemma readUnary_unary n r : readUnary (unary n +:+ r) = (n, r).
Proof.
  induction n as [|n IH]; [done|]. change (unary (S n) +:+ r) with (String "1" (unary n +:+ r)). simpl. by rewrite IH.
Qed.
Definition marshal (c : Claims) : string :=
  unary (String.length (cl_NodeID c)) +:+ (unary (String.length (cl_TxRef c)) +:+
    String (if decide (cl_ExpiresAt c < 0)%Z then "-" else "+")
      (cl_NodeID c +:+ (cl_TxRef c +:+ print (Z.abs (cl_ExpiresAt c))))).
Definition unmarshal (s : string) : option Claims :=
  let '(n, s) := readUnary s in
  let '(m, s) := readUnary s in
  match s with
  | EmptyString => None
  | String sg s =>
      let rest := dropBytes n s in
      let v := decimal (dropBytes m rest) in
      Some (mkClaims (takeBytes n s) (takeBytes m rest) (if Ascii.eqb sg "-" then - v else v)%Z)
  end.
#[export] Instance prims : TokenPrims := {|
  hmacSum secret payload := secret +:+ payload; marshalClaims := marshal; unmarshalClaims := unmarshal |}.
#[export] Instance laws : TokenLaws.
Proof.
  split. intros [n t e]. simpl. unfold unmarshal, marshal. simpl cl_NodeID. simpl cl_TxRef. simpl cl_ExpiresAt.
  rewrite !readUnary_unary. rewrite takeBytes_app, !dropBytes_app, takeBytes_app.
  destruct (print_segment (Z.abs e)) as (-> & _ & _); [lia|]. do 2 f_equal. case_decide; simpl; lia.
Qed.
Definition signer : Signer := mkSigner "0123456789abcdef0123456789abcdef".
Definition open : Mem := (Begin (H := Sample.spi) (Sample.ctx "t") "A" 10 (mkMem (mkFactory ∅ ∅ ∅ ∅ ∅) (emptyTM 0) ∅)).2.

Lemma token_joins_its_transaction_witness :
  (JoinFromToken signer 50 (Sample.ctx "t") (Issue signer "n1" "A" 60) open).1 =
    Ret (WithTransaction (Sample.ctx "t") "A").
Proof.
  destruct (proj1 (token_joins_its_transaction signer 50 (Sample.ctx "t") open) "n1" "A" 60%Z
    (WithTransaction (Sample.ctx "t") "A") open) as [_ H].
  rewrite H; [reflexivity|]. split_and!; [reflexivity|reflexivity|lia|].
  split; [apply (bool_decide_unpack _); reflexivity|]. eexists. by split_and!.
Defined.
End TokenSample.
