(* ===== verification/TxGate.v ===== *)
(** * Per-transaction gates

    [internal/txgate/txgate.go]: callbacks joined to a transaction and its owner's
    commit exclude each other by a mutex per transaction id, created on first use
    and removed with its last user.  The registry is a transition system whose steps
    are the critical sections of [Acquire] and of the release function it returns,
    in any interleaving. *)

From stdpp Require Import base gmap strings list.
From S2P Require Import Prelude GoStrings.

(** Gates are heap objects; an acquisition is one call of [Acquire]. *)
Record gate := mkGate { g_locked : option nat; g_refs : Z }.
(** Where an acquisition stands: registered and waiting for [g.mu], holding it, or
    with [g.mu] released and the reference still counted. *)
Inductive phase : Type := Waiting | Holding | Leaving.
#[export] Instance phase_eq_dec : EqDecision phase.
Proof. solve_decision. Defined.
Record acquisition := mkAcq { aq_txID : string; aq_gate : nat; aq_phase : phase }.

Record Registry := mkRegistry {
  gates : gmap string nat;
  gateHeap : gmap nat gate;
  acquisitions : gmap nat acquisition
}.
Definition New : Registry := mkRegistry ∅ ∅ ∅.

Definition freshGate (r : Registry) : nat := fresh (dom (gateHeap r)).

(** [Acquire] up to [r.mu.Unlock()]: acquisition [a] of a gate that is there or is
    made.  The empty id is never gated. *)
Definition register (a : nat) (txID : string) (r : Registry) : option Registry :=
  if decide (txID = "" ∨ is_Some (acquisitions r !! a)) then None else
  let '(p, gs, h) := match gates r !! txID with
                     | Some p => (p, gates r, gateHeap r)
                     | None => let p := freshGate r in (p, <[txID := p]> (gates r), <[p := mkGate None 0]> (gateHeap r))
                     end in
  Some (mkRegistry gs (alter (λ g, mkGate (g_locked g) (g_refs g + 1)) p h) (<[a := mkAcq txID p Waiting]> (acquisitions r))).
(** [g.mu.Lock()] returns. *)
Definition lock (a : nat) (r : Registry) : option Registry :=
  q ← acquisitions r !! a;
  g ← gateHeap r !! aq_gate q;
  if decide (aq_phase q = Waiting ∧ g_locked g = None) then
    Some (mkRegistry (gates r) (<[aq_gate q := mkGate (Some a) (g_refs g)]> (gateHeap r))
            (<[a := mkAcq (aq_txID q) (aq_gate q) Holding]> (acquisitions r)))
  else None.
(** The release function: [g.mu.Unlock()]. *)
Definition unlock (a : nat) (r : Registry) : option Registry :=
  q ← acquisitions r !! a;
  g ← gateHeap r !! aq_gate q;
  if decide (aq_phase q = Holding) then
    Some (mkRegistry (gates r) (<[aq_gate q := mkGate None (g_refs g)]> (gateHeap r))
            (<[a := mkAcq (aq_txID q) (aq_gate q) Leaving]> (acquisitions r)))
  else None.
(** Then its section under [r.mu]: the last reference removes the entry. *)
Definition drop (a : nat) (r : Registry) : option Registry :=
  q ← acquisitions r !! a;
  g ← gateHeap r !! aq_gate q;
  if decide (aq_phase q = Leaving) then
    let refs := (g_refs g - 1)%Z in
    Some (mkRegistry (if decide (refs = 0)%Z then delete (aq_txID q) (gates r) else gates r)
            (<[aq_gate q := mkGate (g_locked g) refs]> (gateHeap r)) (delete a (acquisitions r)))
  else None.

Inductive step : Registry → Registry → Prop :=
| step_register a txID r r' : register a txID r = Some r' → step r r'
| step_lock a r r' : lock a r = Some r' → step r r'
| step_unlock a r r' : unlock a r = Some r' → step r r'
| step_drop a r r' : drop a r = Some r' → step r r'.
Definition reachable (r : Registry) : Prop := rtc step New r.

(** ** The invariant *)

(** The acquisitions that count on gate [p]. *)
Definition users (acqs : gmap nat acquisition) (p : nat) : gset nat := dom (filter (λ aq, aq_gate aq.2 = p) acqs).
Definition holds (acqs : gmap nat acquisition) (p a : nat) : Prop :=
  ∃ q, acqs !! a = Some q ∧ aq_gate q = p ∧ aq_phase q = Holding.

Record wf (r : Registry) : Prop := {
  (** An acquisition's gate is the one registered for its id. *)
  wf_current : ∀ a q, acquisitions r !! a = Some q → gates r !! aq_txID q = Some (aq_gate q);
  (** A registered gate exists, belongs to one id, and counts its users. *)
  wf_gate : ∀ txID p, gates r !! txID = Some p →
    ∃ g, gateHeap r !! p = Some g ∧ g_refs g = Z.of_nat (size (users (acquisitions r) p)) ∧ (0 < g_refs g)%Z;
  wf_injective : ∀ x y p, gates r !! x = Some p → gates r !! y = Some p → x = y;
  (** The mutex is held by exactly the acquisition that is holding. *)
  wf_locked : ∀ p g a, gateHeap r !! p = Some g → g_locked g = Some a ↔ holds (acquisitions r) p a
}.

Lemma users_elem acqs p a : a ∈ users acqs p ↔ ∃ q, acqs !! a = Some q ∧ aq_gate q = p.
Proof. unfold users. rewrite elem_of_dom. unfold is_Some. setoid_rewrite map_lookup_filter_Some. done. Qed.
Lemma users_insert acqs a q p :
  users (<[a := q]> acqs) p = if decide (aq_gate q = p) then {[a]} ∪ users acqs p else users acqs p ∖ {[a]}.
Proof.
  apply set_eq. intros x. rewrite users_elem. destruct (decide (x = a)) as [->|Hne].
  - setoid_rewrite lookup_insert_eq. case_decide; set_solver.
  - setoid_rewrite lookup_insert_ne; [|done]. rewrite <- users_elem. case_decide; set_solver.
Qed.
Lemma users_delete acqs a p : users (delete a acqs) p = users acqs p ∖ {[a]}.
Proof.
  apply set_eq. intros x. rewrite elem_of_difference, !users_elem, elem_of_singleton. destruct (decide (x = a)) as [->|Hne].
  - setoid_rewrite lookup_delete_eq. naive_solver.
  - setoid_rewrite lookup_delete_ne; [|done]. naive_solver.
Qed.
(** An acquisition changes its phase. *)
Lemma users_phase acqs a q ph p :
  acqs !! a = Some q → users (<[a := mkAcq (aq_txID q) (aq_gate q) ph]> acqs) p = users acqs p.
Proof.
  intros Hq. rewrite users_insert. simpl. assert (Ha : a ∈ users acqs p ↔ aq_gate q = p).
  { rewrite users_elem. rewrite Hq. naive_solver. }
  case_decide; set_solver.
Qed.
Lemma holds_insert acqs a q p b :
  holds (<[a := q]> acqs) p b ↔ (b = a ∧ aq_gate q = p ∧ aq_phase q = Holding) ∨ (b ≠ a ∧ holds acqs p b).
Proof.
  unfold holds. destruct (decide (b = a)) as [->|Hne].
  - setoid_rewrite lookup_insert_eq. naive_solver.
  - setoid_rewrite lookup_insert_ne; [|done]. naive_solver.
Qed.
Lemma holds_delete acqs a p b : holds (delete a acqs) p b ↔ b ≠ a ∧ holds acqs p b.
Proof.
  unfold holds. destruct (decide (b = a)) as [->|Hne].
  - setoid_rewrite lookup_delete_eq. naive_solver.
  - setoid_rewrite lookup_delete_ne; [|done]. naive_solver.
Qed.
Lemma holds_at acqs p p' a q : acqs !! a = Some q → holds acqs p a → aq_gate q = p' → p = p'.
Proof. intros Hq (q' & Hq' & <- & _) <-. congruence. Qed.

Lemma wf_user r a q : wf r → acquisitions r !! a = Some q →
  ∃ g, gateHeap r !! aq_gate q = Some g ∧ g_refs g = Z.of_nat (size (users (acquisitions r) (aq_gate q))) ∧ (0 < g_refs g)%Z.
Proof. intros Hr Hq. eapply wf_gate; [done|]. by eapply wf_current. Qed.

Lemma lock_wf r a r' : wf r → lock a r = Some r' → wf r'.
Proof.
  intros Hr H. unfold lock in H. destruct (acquisitions r !! a) as [q|] eqn:Hq; [|done]. simpl in H.
  destruct (gateHeap r !! aq_gate q) as [g|] eqn:Hg; [|done]. simpl in H. case_decide as Hd; [|done]. injection H as <-.
  destruct Hd as [Hw Hfree]. split; simpl.
  - intros b q'. rewrite lookup_insert_Some. intros [[<- <-]|[_ Hb]]; [exact (wf_current r Hr a q Hq)|exact (wf_current r Hr b q' Hb)].
  - intros tx p Hp. rewrite (users_phase _ _ _ _ _ Hq). destruct (wf_gate r Hr tx p Hp) as (g' & Hg' & Hrefs).
    destruct (decide (p = aq_gate q)) as [->|Hne].
    + rewrite lookup_insert_eq. replace g' with g in * by congruence. eauto.
    + rewrite lookup_insert_ne by done. eauto.
  - apply Hr.
  - intros p g' b Hg'. rewrite holds_insert. simpl. destruct (decide (p = aq_gate q)) as [->|Hne].
    + rewrite lookup_insert_eq in Hg'. injection Hg' as <-. simpl. split; [intros [= ->]; auto|].
      intros [[-> _]|[_ Hb]]; [done|]. apply (wf_locked r Hr _ g b Hg) in Hb. congruence.
    + rewrite lookup_insert_ne in Hg' by done. rewrite (wf_locked r Hr _ _ _ Hg'). split; [|naive_solver].
      intros Hb. right. split; [|done]. intros ->. by apply Hne, (holds_at _ _ _ _ _ Hq Hb).
Qed.
Lemma unlock_wf r a r' : wf r → unlock a r = Some r' → wf r'.
Proof.
  intros Hr H. unfold unlock in H. destruct (acquisitions r !! a) as [q|] eqn:Hq; [|done]. simpl in H.
  destruct (gateHeap r !! aq_gate q) as [g|] eqn:Hg; [|done]. simpl in H. case_decide as Hd; [|done]. injection H as <-.
  assert (Hl : g_locked g = Some a) by (apply (wf_locked r Hr _ _ _ Hg); by exists q). split; simpl.
  - intros b q'. rewrite lookup_insert_Some. intros [[<- <-]|[_ Hb]]; [exact (wf_current r Hr a q Hq)|exact (wf_current r Hr b q' Hb)].
  - intros tx p Hp. rewrite (users_phase _ _ _ _ _ Hq). destruct (wf_gate r Hr tx p Hp) as (g' & Hg' & Hrefs).
    destruct (decide (p = aq_gate q)) as [->|Hne].
    + rewrite lookup_insert_eq. replace g' with g in * by congruence. eauto.
    + rewrite lookup_insert_ne by done. eauto.
  - apply Hr.
  - intros p g' b Hg'. rewrite holds_insert. simpl. destruct (decide (p = aq_gate q)) as [->|Hne].
    + rewrite lookup_insert_eq in Hg'. injection Hg' as <-. simpl. split; [done|].
      intros [(_ & _ & ?)|[Hb Hh]]; [done|]. apply (wf_locked r Hr _ g b Hg) in Hh. congruence.
    + rewrite lookup_insert_ne in Hg' by done. rewrite (wf_locked r Hr _ _ _ Hg'). split; [|naive_solver].
      intros Hb. right. split; [|done]. intros ->. by apply Hne, (holds_at _ _ _ _ _ Hq Hb).
Qed.
Lemma drop_wf r a r' : wf r → drop a r = Some r' → wf r'.
Proof.
  intros Hr H. unfold drop in H. destruct (acquisitions r !! a) as [q|] eqn:Hq; [|done]. simpl in H.
  destruct (gateHeap r !! aq_gate q) as [g|] eqn:Hg; [|done]. simpl in H. case_decide as Hd; [|done]. injection H as <-.
  destruct (wf_user r a q Hr Hq) as (g0 & Hg0 & Hrefs & Hpos). replace g0 with g in * by congruence.
  assert (Hu : a ∈ users (acquisitions r) (aq_gate q)) by (apply users_elem; eauto).
  assert (Hsz : size (users (acquisitions r) (aq_gate q) ∖ {[a]}) = size (users (acquisitions r) (aq_gate q)) - 1)
    by (rewrite size_difference, size_singleton; set_solver).
  assert (Hcur := wf_current r Hr a q Hq). split; simpl.
  - intros b q'. rewrite lookup_delete_Some. intros [Hba Hb]. assert (Hcb := wf_current r Hr b q' Hb).
    case_decide as Hz; [|done]. rewrite lookup_delete_ne; [done|]. intros Htx.
    assert (Hgq : aq_gate q' = aq_gate q) by congruence.
    assert (Hbu : b ∈ users (acquisitions r) (aq_gate q) ∖ {[a]}) by (apply elem_of_difference; split; [apply users_elem; eauto|set_solver]).
    assert (size (users (acquisitions r) (aq_gate q) ∖ {[a]}) = 0) as Hz0%size_empty_inv by lia. set_solver.
  - intros tx p Hp. assert (Hp' : gates r !! tx = Some p) by (case_decide; [by apply lookup_delete_Some in Hp as [_ ?]|done]).
    rewrite users_delete. destruct (decide (p = aq_gate q)) as [->|Hne].
    + rewrite lookup_insert_eq. eexists. split; [done|]. simpl. assert (tx = aq_txID q) as -> by (by eapply wf_injective).
      case_decide as Hz; [by rewrite lookup_delete_eq in Hp|]. rewrite Hsz. lia.
    + rewrite lookup_insert_ne by done. destruct (wf_gate r Hr tx p Hp') as (g' & Hg' & Hr').
      assert (users (acquisitions r) p ∖ {[a]} = users (acquisitions r) p) as ->; [|eauto].
      assert (a ∉ users (acquisitions r) p) by (rewrite users_elem, Hq; naive_solver). set_solver.
  - intros x y p Hx Hy. case_decide; [|by eapply wf_injective].
    apply lookup_delete_Some in Hx as [_ ?], Hy as [_ ?]. by eapply wf_injective.
  - intros p g' b Hg'. rewrite holds_delete. destruct (decide (p = aq_gate q)) as [->|Hne].
    + rewrite lookup_insert_eq in Hg'. injection Hg' as <-. simpl. rewrite (wf_locked r Hr _ _ _ Hg). split; [|naive_solver].
      intros Hb. split; [|done]. intros ->. destruct Hb as (q' & Hq' & _ & Hph). congruence.
    + rewrite lookup_insert_ne in Hg' by done. rewrite (wf_locked r Hr _ _ _ Hg'). split; [|naive_solver].
      intros Hb. split; [|done]. intros ->. by apply Hne, (holds_at _ _ _ _ _ Hq Hb).
Qed.
(** Registering on gate [p], which is the current one of [txID] in the new maps. *)
Lemma register_on_wf r a txID p gs h g :
  wf r → acquisitions r !! a = None → gs !! txID = Some p → h !! p = Some g →
  (∀ x, x ≠ txID → gs !! x = gates r !! x) → (∀ x, gates r !! x = Some p → x = txID) →
  (∀ a q, acquisitions r !! a = Some q → gs !! aq_txID q = Some (aq_gate q)) →
  (∀ p', p' ≠ p → h !! p' = gateHeap r !! p') →
  g_refs g = Z.of_nat (size (users (acquisitions r) p)) → (∀ b, g_locked g = Some b ↔ holds (acquisitions r) p b) →
  wf (mkRegistry gs (alter (λ g, mkGate (g_locked g) (g_refs g + 1)) p h) (<[a := mkAcq txID p Waiting]> (acquisitions r))).
Proof.
  intros Hr Ha Hp Hg Hgs Hinj Hcur Hh Hrefs Hlk. split; simpl.
  - intros b q. rewrite lookup_insert_Some. intros [[<- <-]|[_ Hb]]; [done|by apply (Hcur b)].
  - intros x p' Hx. rewrite users_insert. simpl. destruct (decide (p' = p)) as [->|Hne].
    + rewrite lookup_alter_eq, Hg. eexists. split; [done|]. simpl. rewrite decide_True by done.
      assert (a ∉ users (acquisitions r) p) by (rewrite users_elem, Ha; naive_solver).
      rewrite size_union by set_solver. rewrite size_singleton. lia.
    + rewrite lookup_alter_ne by done. rewrite Hh by done. rewrite decide_False by done.
      assert (x ≠ txID) by congruence. rewrite Hgs in Hx by done. destruct (wf_gate r Hr x p' Hx) as (g' & ? & ? & ?).
      assert (users (acquisitions r) p' ∖ {[a]} = users (acquisitions r) p') as ->; [|eauto].
      assert (a ∉ users (acquisitions r) p') by (rewrite users_elem, Ha; naive_solver). set_solver.
  - intros x y p' Hx Hy. destruct (decide (x = txID)) as [->|Hxn], (decide (y = txID)) as [->|Hyn]; [done|..].
    + rewrite Hgs in Hy by done. symmetry. apply Hinj. congruence.
    + rewrite Hgs in Hx by done. apply Hinj. congruence.
    + rewrite Hgs in Hx, Hy by done. by eapply wf_injective.
  - intros p' g' b Hg'. rewrite holds_insert. simpl.
    assert (Hna : ∀ p0, ¬ holds (acquisitions r) p0 a) by (intros p0 (q & Hq & _); congruence).
    destruct (decide (p' = p)) as [->|Hne].
    + rewrite lookup_alter_eq, Hg in Hg'. injection Hg' as <-. simpl. rewrite Hlk. naive_solver.
    + rewrite lookup_alter_ne, Hh in Hg' by done. rewrite (wf_locked r Hr _ _ _ Hg'). naive_solver.
Qed.
Lemma register_wf r a txID r' : wf r → register a txID r = Some r' → wf r'.
Proof.
  intros Hr H. unfold register in H. case_decide as Hd; [done|].
  assert (Ha : acquisitions r !! a = None) by (apply eq_None_not_Some; tauto).
  destruct (gates r !! txID) as [p|] eqn:Hp; injection H as <-.
  - destruct (wf_gate r Hr txID p Hp) as (g & Hg & Hrefs & _).
    apply (register_on_wf r a txID p _ _ g); try done; [|apply Hr|intros b; by apply (wf_locked r Hr)].
    intros x Hx. by eapply wf_injective.
  - set (p := freshGate r). assert (Hf : gateHeap r !! p = None) by (apply not_elem_of_dom; subst p; unfold freshGate; apply is_fresh).
    assert (Hno : ∀ b q, acquisitions r !! b = Some q → aq_gate q ≠ p).
    { intros b q Hq <-. destruct (wf_user r b q Hr Hq) as (g & Hg & _). congruence. }
    apply (register_on_wf r a txID p _ _ (mkGate None 0)); try done; [by rewrite lookup_insert_eq..| | | | | |].
    + intros x Hx. by rewrite lookup_insert_ne.
    + intros x Hx. destruct (wf_gate r Hr x p Hx) as (g & Hg & _). congruence.
    + intros b q Hq. rewrite lookup_insert_ne; [by eapply wf_current|]. intros He.
      assert (Hc := wf_current r Hr b q Hq). congruence.
    + intros p' Hne. by rewrite lookup_insert_ne.
    + simpl. assert (users (acquisitions r) p = ∅) as ->; [|by rewrite size_empty].
      apply set_eq. intros b. rewrite users_elem. set_solver.
    + simpl. intros b. split; [done|]. intros (q & Hq & Hg & _). by destruct (Hno b q Hq).
Qed.

Lemma step_wf r r' : wf r → step r r' → wf r'.
Proof. intros Hr Hs. destruct Hs; eauto using register_wf, lock_wf, unlock_wf, drop_wf. Qed.
Lemma reachable_wf r : reachable r → wf r.
Proof.
  unfold reachable. intros H. assert (Hn : wf New) by (by split; simpl; intros *; rewrite ?lookup_empty).
  induction H as [|x y z Hs _ IH]; [done|]. by eapply IH, step_wf.
Qed.

(** C12. Gates exclude: in every interleaving at most one acquisition holds the gate
    of a transaction at a time, even as gates come and go. *)
Theorem gate_excludes r a b qa qb :
  reachable r → acquisitions r !! a = Some qa → acquisitions r !! b = Some qb → aq_txID qa = aq_txID qb →
  aq_phase qa = Holding → aq_phase qb = Holding → a = b.
Proof.
  intros Hr%reachable_wf Ha Hb Htx Hpa Hpb.
  assert (Hga := wf_current r Hr a qa Ha). assert (Hgb := wf_current r Hr b qb Hb).
  assert (Hg : aq_gate qa = aq_gate qb) by congruence. destruct (wf_user r a qa Hr Ha) as (g & Hg' & _).
  assert (H1 : g_locked g = Some a) by (apply (wf_locked r Hr _ _ _ Hg'); by exists qa).
  assert (H2 : g_locked g = Some b) by (apply (wf_locked r Hr _ _ _ Hg'); by exists qb). congruence.
Qed.

(** Gates neither leak nor get stuck: a transaction has an entry in the registry
    just when an acquisition of it is under way; and while nobody holds its gate, any
    acquisition that waits for it can take it. *)
Theorem gate_live r :
  reachable r →
  (∀ txID, is_Some (gates r !! txID) ↔ ∃ a q, acquisitions r !! a = Some q ∧ aq_txID q = txID) ∧
  (∀ a q, acquisitions r !! a = Some q → aq_phase q = Waiting →
     (∀ b q', acquisitions r !! b = Some q' → aq_txID q' = aq_txID q → aq_phase q' ≠ Holding) →
     is_Some (lock a r)).
Proof.
  intros Hr%reachable_wf. split.
  - intros txID. split.
    + intros [p Hp]. destruct (wf_gate r Hr txID p Hp) as (g & _ & Hrefs & Hpos).
      destruct (size_pos_elem_of (users (acquisitions r) p)) as [a Ha]; [lia|].
      apply users_elem in Ha as (q & Hq & Hg). exists a, q. split; [done|].
      eapply (wf_injective r Hr); [by eapply wf_current|by rewrite Hg].
    + intros (a & q & Hq & <-). rewrite (wf_current r Hr a q Hq). by eexists.
  - intros a q Hq Hw Hfree. destruct (wf_user r a q Hr Hq) as (g & Hg & _). unfold lock. rewrite Hq. simpl. rewrite Hg. simpl.
    rewrite decide_True; [by eexists|]. split; [done|]. destruct (g_locked g) as [b|] eqn:Hl; [|done].
    apply (wf_locked r Hr _ _ _ Hg) in Hl as (q' & Hq' & Hgq & Hp). exfalso. apply (Hfree b q' Hq'); [|done].
    assert (Hc := wf_current r Hr b q' Hq'). assert (Hc' := wf_current r Hr a q Hq).
    eapply (wf_injective r Hr); [exact Hc|by rewrite Hgq].
Qed.

(** ** Witnesses *)

(** Two callbacks of one transaction: the first holds, the second waits. *)
Definition contended : Registry :=
  default New (r ← register 0 "tx" New; r ← lock 0 r; register 1 "tx" r).
Lemma contended_reachable : reachable contended.
Proof.
  eapply rtc_l; [apply (step_register 0 "tx"); reflexivity|].
  eapply rtc_l; [apply (step_lock 0); reflexivity|].
  eapply rtc_l; [apply (step_register 1 "tx"); reflexivity|]. apply rtc_refl.
Qed.
Lemma gate_excludes_witness :
  acquisitions contended !! 1 = Some (mkAcq "tx" 0 Waiting) ∧
  ¬ acquisitions contended !! 1 = Some (mkAcq "tx" 0 Holding).
Proof.
  split; [reflexivity|]. intros Hq. assert (0 = 1); [|done].
  by apply (gate_excludes contended 0 1 (mkAcq "tx" 0 Holding) (mkAcq "tx" 0 Holding) contended_reachable).
Defined.
Lemma gate_live_witness :
  is_Some (gates contended !! "tx") ∧ gates contended !! "other" = None.
Proof.
  destruct (gate_live contended contended_reachable) as [H _]. split.
  - apply H. by exists 0, (mkAcq "tx" 0 Holding).
  - reflexivity.
Defined.
