(* ===== verification/MergePatch.v ===== *)
(** * JSON merge patches

    [internal/domain/entity/mergepatch.go]: the RFC 7386 merge a PATCH request
    applies to the stored document.  A Go map is the list of its entries, keys
    distinct. *)

From stdpp Require Import base gmap strings list.
From S2P Require Import Prelude Schema SchemaAdmit.

Abbreviation Object := (list (string * JSON)).

(** ** Go maps as entry lists *)

Fixpoint getKey (k : string) (o : Object) : option JSON :=
  match o with
  | [] => None
  | (k', v) :: o => if decide (k' = k) then Some v else getKey k o
  end.
Definition deleteKey (k : string) (o : Object) : Object := filter (λ e, e.1 ≠ k) o.
Fixpoint setKey (k : string) (v : JSON) (o : Object) : Object :=
  match o with
  | [] => [(k, v)]
  | (k', v') :: o => if decide (k' = k) then (k, v) :: o else (k', v') :: setKey k v o
  end.

(** ** The merge *)

Definition isObject (v : option JSON) : Object := match v with Some (JObject o) => o | _ => [] end.

(** [applyMergePatch]: reading a missing key gives nil, which is no object. *)
Fixpoint applyMergePatch (target : option JSON) (patch : JSON) : JSON :=
  match patch with
  | JObject entries =>
      let fix merge (entries : Object) (o : Object) : Object :=
        match entries with
        | [] => o
        | (k, v) :: entries =>
            merge entries (match v with
                           | JNull => deleteKey k o
                           | _ => setKey k (applyMergePatch (getKey k o) v) o
                           end)
        end in
      JObject (merge entries (isObject target))
  | _ => patch
  end.

(** [mergeMergePatch]: an empty stored document is nil. *)
Definition mergeMergePatch {E} (decode : string → E + JSON) (existing : string) (patch : JSON) : E + JSON :=
  if decide (existing = "") then inr (applyMergePatch None patch)
  else match decode existing with
       | inl e => inl e
       | inr target => inr (applyMergePatch (Some target) patch)
       end.

(** ** What a merge does to each key *)

Definition mergeEntries : Object → Object → Object :=
  fix merge (entries : Object) (o : Object) : Object :=
    match entries with
    | [] => o
    | (k, v) :: entries =>
        merge entries (match v with
                       | JNull => deleteKey k o
                       | _ => setKey k (applyMergePatch (getKey k o) v) o
                       end)
    end.
Lemma applyMergePatch_object target entries :
  applyMergePatch target (JObject entries) = JObject (mergeEntries entries (isObject target)).
Proof. done. Qed.

Lemma getKey_delete k k' o : getKey k (deleteKey k' o) = if decide (k = k') then None else getKey k o.
Proof.
  unfold deleteKey. induction o as [|[k1 v] o IH]; simpl; [by case_decide|].
  rewrite filter_cons. simpl. destruct (decide (k1 ≠ k')) as [Hne|He]; simpl.
  - rewrite IH. destruct (decide (k1 = k)) as [->|?]; [by rewrite decide_False|done].
  - apply dec_stable in He. subst k1. rewrite IH. destruct (decide (k = k')) as [->|?]; [done|by rewrite decide_False].
Qed.
Lemma getKey_set k k' v o : getKey k (setKey k' v o) = if decide (k = k') then Some v else getKey k o.
Proof.
  induction o as [|[k1 v1] o IH]; simpl.
  - destruct (decide (k' = k)), (decide (k = k')); congruence.
  - destruct (decide (k1 = k')) as [->|?]; simpl.
    + destruct (decide (k' = k)) as [Hk|?]; [by rewrite decide_True|by rewrite decide_False].
    + rewrite IH. destruct (decide (k1 = k)) as [->|?]; [by rewrite decide_False|done].
Qed.

(** One entry: nil deletes, anything else is merged into what was there. *)
Definition patched (v : JSON) (old : option JSON) : option JSON :=
  match v with JNull => None | _ => Some (applyMergePatch old v) end.
Lemma getKey_entry k v o k' :
  getKey k' (match v with JNull => deleteKey k o | _ => setKey k (applyMergePatch (getKey k o) v) o end) =
  if decide (k' = k) then patched v (getKey k o) else getKey k' o.
Proof. destruct v; simpl; rewrite ?getKey_set, ?getKey_delete; done. Qed.

Lemma getKey_merge entries o k :
  NoDup entries.*1 →
  getKey k (mergeEntries entries o) =
  match getKey k entries with Some v => patched v (getKey k o) | None => getKey k o end.
Proof.
  revert o. induction entries as [|[k1 v1] entries IH]; intros o Hd; [done|].
  rewrite fmap_cons in Hd. apply NoDup_cons in Hd as [Hk Hd]. change (mergeEntries ((k1, v1) :: entries) o) with
    (mergeEntries entries (match v1 with JNull => deleteKey k1 o | _ => setKey k1 (applyMergePatch (getKey k1 o) v1) o end)).
  rewrite IH, getKey_entry by done. simpl. destruct (decide (k1 = k)) as [->|Hne].
  - rewrite (decide_True (P := k = k)) by done.
    destruct (getKey k entries) eqn:E; [|done]. exfalso. apply Hk. simpl. clear -E.
    induction entries as [|[k1 v1] entries IH]; simpl in *; [done|]. destruct (decide (k1 = k)) as [->|?]; [left|right; auto].
  - rewrite (decide_False (P := k = k1)) by congruence. done.
Qed.

(** ** Laws *)

(** Documents as decoded: the keys of every object are distinct. *)
Fixpoint decoded (v : JSON) : Prop :=
  match v with
  | JObject o => NoDup o.*1 ∧ (fix all (o : Object) : Prop := match o with [] => True | (_, v) :: o => decoded v ∧ all o end) o
  | _ => True
  end.
Lemma decoded_object o : decoded (JObject o) ↔ NoDup o.*1 ∧ Forall (λ e, decoded e.2) o.
Proof.
  simpl. apply and_iff_compat_l. induction o as [|[k v] o IH]; simpl; [by split|]. rewrite Forall_cons. simpl. by rewrite IH.
Qed.
(** Induction through the entries of objects. *)
Lemma JSON_object_ind (P : JSON → Prop) :
  (∀ o, Forall (λ e, P e.2) o → P (JObject o)) → (∀ v, (∀ o, v ≠ JObject o) → P v) → ∀ v, P v.
Proof.
  intros Ho Hv. fix IH 1. intros [|o|l|x|x|b| |t]; try (by apply Hv). apply Ho.
  induction o as [|[k v] o IHo]; [by apply Forall_nil|]. apply Forall_cons. split; [apply IH|exact IHo].
Qed.

(** Documents that are equal as Go values: the order of entries does not matter. *)
Inductive same : JSON → JSON → Prop :=
| same_leaf v : (∀ o, v ≠ JObject o) → same v v
| same_object o o' : (∀ k, option_Forall2 same (getKey k o) (getKey k o')) → same (JObject o) (JObject o').

(** No null but possibly inside arrays, which a patch replaces whole. *)
Fixpoint nullFree (v : JSON) : Prop :=
  match v with
  | JNull => False
  | JObject o => (fix all (o : Object) : Prop := match o with [] => True | (_, v) :: o => nullFree v ∧ all o end) o
  | _ => True
  end.
Lemma nullFree_object o : nullFree (JObject o) ↔ Forall (λ e, nullFree e.2) o.
Proof. simpl. induction o as [|[k v] o IH]; [by split|]. rewrite Forall_cons. simpl. by rewrite IH. Qed.

Lemma getKey_elem k o v : NoDup o.*1 → getKey k o = Some v ↔ (k, v) ∈ o.
Proof.
  induction o as [|[k1 v1] o IH]; csimpl; [by split; [|intros ?%not_elem_of_nil]|].
  intros [Hk Hd]%NoDup_cons. rewrite elem_of_cons. destruct (decide (k1 = k)) as [->|Hne].
  - split; [intros [= <-]; by left|]. intros [[= <-]|Hin]; [done|]. exfalso. apply Hk.
    apply list_elem_of_fmap. by exists (k, v).
  - rewrite IH by done. naive_solver.
Qed.
Lemma getKey_None k o : getKey k o = None ↔ k ∉ o.*1.
Proof.
  induction o as [|[k1 v1] o IH]; csimpl; [split; [intros _ []%not_elem_of_nil|done]|].
  rewrite not_elem_of_cons. destruct (decide (k1 = k)) as [->|Hne]; [naive_solver|]. rewrite IH. naive_solver.
Qed.

(** A key that is there twice over is set to the same thing. *)
Lemma setKey_get k v o : getKey k o = Some v → setKey k v o = o.
Proof.
  induction o as [|[k1 v1] o IH]; simpl; [done|]. destruct (decide (k1 = k)) as [->|Hne]; [by intros [= ->]|].
  intros H. by rewrite IH.
Qed.
Lemma deleteKey_None k o : getKey k o = None → deleteKey k o = o.
Proof.
  unfold deleteKey. induction o as [|[k1 v1] o IH]; simpl; [done|]. destruct (decide (k1 = k)) as [->|Hne]; [done|].
  intros H. rewrite filter_cons_True by done. by rewrite IH.
Qed.

(** Entries whose effect is already there change nothing. *)
Lemma mergeEntries_fixed entries o :
  (∀ k v, (k, v) ∈ entries → patched v (getKey k o) = getKey k o) → mergeEntries entries o = o.
Proof.
  induction entries as [|[k v] entries IH]; [done|]. intros H.
  assert (Hk : patched v (getKey k o) = getKey k o) by (apply H; by left).
  change (mergeEntries ((k, v) :: entries) o) with
    (mergeEntries entries (match v with JNull => deleteKey k o | _ => setKey k (applyMergePatch (getKey k o) v) o end)).
  assert ((match v with JNull => deleteKey k o | _ => setKey k (applyMergePatch (getKey k o) v) o end) = o) as ->.
  { unfold patched in Hk. destruct v; try (by apply setKey_get); by apply deleteKey_None. }
  apply IH. intros k' v' Hin. apply H. by right.
Qed.

Lemma merge_idempotent p t : decoded p → applyMergePatch (Some (applyMergePatch t p)) p = applyMergePatch t p.
Proof.
  revert t. induction p as [o IH|v Hv] using JSON_object_ind; intros t Hd; [|destruct v; try done; by destruct (Hv fields)].
  apply decoded_object in Hd as [Hd Hall]. rewrite !applyMergePatch_object. simpl. f_equal. apply mergeEntries_fixed.
  intros k v Hin. rewrite getKey_merge by done. assert (getKey k o = Some v) as -> by (by apply getKey_elem).
  rewrite Forall_forall in IH, Hall. unfold patched at 1 2. destruct v eqn:Ev; try done;
    subst v; unfold patched; f_equal.
  apply (IH _ Hin), (Hall _ Hin).
Qed.

(** The patch from one document to another. *)
Fixpoint diff (t : option JSON) (v : JSON) : JSON :=
  match v with
  | JObject o =>
      JObject (((λ e, (e.1, JNull)) <$> filter (λ e, e.1 ∉ o.*1) (isObject t)) ++
               (fix entries (o : Object) : Object :=
                  match o with [] => [] | (k, v) :: o => (k, diff (getKey k (isObject t)) v) :: entries o end) o)
  | _ => v
  end.
Definition diffEntries (t : option JSON) : Object → Object :=
  fix entries (o : Object) : Object :=
    match o with [] => [] | (k, v) :: o => (k, diff (getKey k (isObject t)) v) :: entries o end.
Lemma diff_object t o :
  diff t (JObject o) = JObject (((λ e, (e.1, JNull)) <$> filter (λ e, e.1 ∉ o.*1) (isObject t)) ++ diffEntries t o).
Proof. done. Qed.
Lemma diffEntries_keys t o : (diffEntries t o).*1 = o.*1.
Proof. induction o as [|[k v] o IH]; csimpl; [done|]. by f_equal. Qed.
Lemma diffEntries_get t o k : getKey k (diffEntries t o) = diff (getKey k (isObject t)) <$> getKey k o.
Proof. induction o as [|[k1 v] o IH]; simpl; [done|]. by destruct (decide (k1 = k)) as [->|?]. Qed.
Lemma nulls_keys (l : Object) : ((λ e, (e.1, JNull)) <$> l).*1 = l.*1.
Proof. rewrite <- list_fmap_compose. by apply list_fmap_ext. Qed.
Lemma getKey_app k o o' : getKey k (o ++ o') = match getKey k o with Some v => Some v | None => getKey k o' end.
Proof. induction o as [|[k1 v1] o IH]; simpl; [done|]. by destruct (decide (k1 = k)). Qed.
Lemma getKey_nulls k (o o' : Object) :
  getKey k ((λ e, (e.1, JNull)) <$> filter (λ e : string * JSON, e.1 ∉ o'.*1) o) =
  if decide (k ∈ o'.*1) then None else (λ _, JNull) <$> getKey k o.
Proof.
  induction o as [|[k1 v1] o IH]; simpl; [by case_decide|]. rewrite filter_cons. simpl.
  destruct (decide (k1 ∉ o'.*1)) as [Hn|Hn]; csimpl.
  - rewrite IH. destruct (decide (k1 = k)) as [->|?]; [by rewrite decide_False|done].
  - rewrite IH. apply dec_stable in Hn. destruct (decide (k1 = k)) as [->|?]; [by rewrite !decide_True|done].
Qed.
Lemma diff_notNull t v : nullFree v → diff t v ≠ JNull.
Proof. by destruct v. Qed.

Lemma diff_reaches v t :
  (∀ o, t = Some (JObject o) → NoDup o.*1 ∧ Forall (λ e, decoded e.2) o) →
  decoded v → nullFree v → same (applyMergePatch t (diff t v)) v.
Proof.
  revert t. induction v as [o IH|v Hv] using JSON_object_ind; intros t Ht Hd Hn.
  2: { destruct v; try (by apply same_leaf); by destruct (Hv fields). }
  apply decoded_object in Hd as [Hd Hall]. apply nullFree_object in Hn. rewrite diff_object, applyMergePatch_object.
  apply same_object. intros k.
  assert (Hto : NoDup (isObject t).*1 ∧ Forall (λ e, decoded e.2) (isObject t)).
  { destruct t as [[| | | | | | |]|]; simpl; try (by split; [apply NoDup_nil_2|apply Forall_nil]). by apply Ht. }
  rewrite getKey_merge, getKey_app, getKey_nulls, diffEntries_get.
  - destruct (decide (k ∈ o.*1)) as [Hk|Hk].
    + destruct (getKey k o) as [w|] eqn:Ew; [|by apply getKey_None in Ew]. simpl.
      apply getKey_elem in Ew; [|done]. rewrite Forall_forall in IH, Hall, Hn. specialize (Hn _ Ew). simpl in Hn.
      assert (patched (diff (getKey k (isObject t)) w) (getKey k (isObject t)) =
              Some (applyMergePatch (getKey k (isObject t)) (diff (getKey k (isObject t)) w))) as ->.
      { assert (H := diff_notNull (getKey k (isObject t)) w Hn). unfold patched.
        by destruct (diff (getKey k (isObject t)) w). }
      constructor. apply (IH _ Ew); [|apply (Hall _ Ew)|done]. intros o' Ho'. apply getKey_elem in Ho'; [|apply Hto].
      destruct Hto as [_ Hto]. rewrite Forall_forall in Hto. apply decoded_object, (Hto _ Ho').
    + apply getKey_None in Hk as Ek. rewrite Ek. simpl. destruct (getKey k (isObject t)) as [w|]; constructor.
  - rewrite fmap_app, nulls_keys, diffEntries_keys. apply NoDup_app. split_and!; [..|done].
    + eapply sublist_NoDup; [apply (proj1 Hto)|]. apply fmap_sublist, sublist_filter.
    + intros x Hx. apply list_elem_of_fmap in Hx as (e & -> & [He _]%list_elem_of_filter). done.
Qed.

(** C29. A merge patch does what RFC 7386 says and no more: each key of the result is
    the stored one merged with the patch's entry, gone when the entry is null, and
    untouched when the patch has none; applying a patch twice is applying it once;
    and every document without nulls can be reached from every other by a patch. *)
Theorem merge_patch_laws (t : option JSON) :
  (∀ o, t = Some (JObject o) → NoDup o.*1 ∧ Forall (λ e, decoded e.2) o) →
  (∀ entries, decoded (JObject entries) → ∃ o, applyMergePatch t (JObject entries) = JObject o ∧
     ∀ k, getKey k o = match getKey k entries with
                       | None => getKey k (isObject t)
                       | Some JNull => None
                       | Some v => Some (applyMergePatch (getKey k (isObject t)) v)
                       end) ∧
  (∀ p, decoded p → applyMergePatch (Some (applyMergePatch t p)) p = applyMergePatch t p) ∧
  (∀ v, decoded v → nullFree v → ∃ p, same (applyMergePatch t p) v).
Proof.
  intros Ht. split_and!.
  - intros entries [Hd _]%decoded_object. eexists. split; [apply applyMergePatch_object|]. intros k.
    rewrite getKey_merge by done. destruct (getKey k entries) as [v|]; [|done]. by destruct v.
  - intros p. apply merge_idempotent.
  - intros v Hd Hn. exists (diff t v). by apply diff_reaches.
Qed.

(** ** A witness *)

Definition storedDoc : JSON := JObject [("title", JString "old"); ("tags", JArray [JNull]); ("author", JObject [("name", JString "x"); ("mail", JString "m")])].
Lemma merge_patch_laws_witness :
  applyMergePatch (Some storedDoc) (JObject [("author", JObject [("mail", JNull)]); ("tags", JNull)]) =
    JObject [("title", JString "old"); ("author", JObject [("name", JString "x")])] ∧
  ∃ p, same (applyMergePatch (Some storedDoc) p) (JObject [("title", JString "new")]).
Proof.
  split; [reflexivity|]. refine (proj2 (proj2 (merge_patch_laws (Some storedDoc) _)) _ _ _); [|by simpl; split; [apply NoDup_singleton|]|done].
  intros o [= <-]. split; [by_eval|]. repeat (apply Forall_cons; split; [simpl|]); [done..| |by apply Forall_nil].
  split; [by_eval|done].
Defined.
