(* ===== verification/EntityScope.v ===== *)
(** * The entity service: errors, gates and transaction scopes

    What the write flows of [internal/domain/entity] share: the application errors
    of [internal/common/errors.go] and their classification, the operations of the
    environment the service calls besides the engine's, the per-transaction gate as
    calls on the trace, and [txscope.go], the scope that begins or joins a
    transaction and settles it in one deferred release. *)

From stdpp Require Import base gmap strings list.
From S2P Require Import Prelude Spi Schema SchemaAdmit Workflow WorkflowRun.

(** ** Application errors *)

Definition Operational (status : Z) (code : string) : eerr := EApp (mkApp LevelOperational status code false) None.
Definition AsRetryable (e : eerr) : eerr :=
  match e with
  | EApp a c => EApp (mkApp (ap_Level a) (ap_Status a) (ap_Code a) true) c
  | _ => e
  end.
Definition WithCause (e cause : eerr) : eerr := match e with EApp a _ => EApp a (Some cause) | _ => e end.

(** Some error in the chain satisfies [p]. *)
Fixpoint anyErr (p : err → bool) (e : eerr) : bool :=
  match e with
  | EStore e' => p e'
  | EApp _ (Some e') | EWrap _ e' => anyErr p e'
  | EJoin e1 e2 => anyErr p e1 || anyErr p e2
  | _ => false
  end.
(** [context.DeadlineExceeded] or [context.Canceled]. *)
Definition isCtxErr (e : err) : bool := match e with ErrCtx _ => true | _ => false end.

(** ** The environment of the service

    Besides the engine's: the clock, the attribution of a write, the codecs, the
    model descriptor's fields and its verdict on a payload, and the markers the
    classifiers look for in a store's or a compute node's error. *)
Class EntityEnv {X : Env} := {
  yNow : W → Time * W;
  yAttribution : ECtx → Principal * Principal;
  yDecodeJSON : string → err + JSON;
  yParseXML : string → err + JSON;
  yMarshal : JSON → err + string;
  yLocked : xDescriptor → bool;
  yUniqueKeys : xDescriptor → list UniqueKey;
  yComputeClaims : list UniqueKey → string → option err;
  yValidateOrExtend : ECtx → xDescriptor → JSON → M err W verdict;
  yValidateStrict : xDescriptor → JSON → err + verdict;
  yStorageUnavailable : err → bool;
  yNoMatchingMember : err → bool;
  yAuthContextUnavailable : err → bool;
  yIncompatibleType : err → bool;
  yAppError : err → option AppError
}.

Section Classify.
Context {X : Env} {Y : EntityEnv}.

(** [errors.As] for [*AppError]. *)
Fixpoint asApp (e : eerr) : option eerr :=
  match e with
  | EApp _ _ => Some e
  | EStore e' => (λ a, EApp a None) <$> yAppError e'
  | EWrap _ e' => asApp e'
  | EJoin e1 e2 => match asApp e1 with Some a => Some a | None => asApp e2 end
  | _ => None
  end.

Definition StorageUnavailable (e : eerr) : option eerr :=
  if anyErr yStorageUnavailable e then Some (WithCause (AsRetryable (Operational 503 "STORAGE_UNAVAILABLE")) e) else None.

Definition Internal (e : eerr) : eerr :=
  match StorageUnavailable e with
  | Some a => a
  | None =>
      if isErr e ErrUniqueViolation then Operational 409 "UNIQUE_VIOLATION"
      else if isErr e ErrPartialUniqueKey then Operational 422 "INVALID_UNIQUE_KEY"
      else if isErr e ErrConflict then AsRetryable (Operational 409 "CONFLICT")
      else EApp (mkApp LevelInternal 500 "SERVER_ERROR" false) (Some e)
  end.

Definition classifyError (e : eerr) : eerr := default (Internal e) (asApp e).
Definition classifyBeginErr (e : eerr) : eerr := default (Internal e) (StorageUnavailable e).

(** [internal]: the error carries [ingest.ErrInternalSchema]. *)
Definition classifyValidateOrExtendErr (internal : bool) (e : eerr) : eerr :=
  match asApp e with
  | Some a => a
  | None =>
      if anyErr yIncompatibleType e then Operational 400 "INCOMPATIBLE_TYPE"
      else if internal then Internal e
      else Operational 400 "VALIDATION_FAILED"
  end.

Definition classifyWorkflowError (e : eerr) : eerr :=
  match asApp e with
  | Some a => a
  | None =>
      match StorageUnavailable e with
      | Some a => a
      | None =>
          if anyErr yNoMatchingMember e then AsRetryable (Operational 503 "NO_COMPUTE_MEMBER_FOR_TAG")
          else if isSentinel e ErrProcessorOutputInfra then Internal e
          else if isSentinel e ErrCriterionTypingInfra then Internal e
          else if isSentinel e ErrCommitBeforeDispatchInfra then Internal e
          else if isSentinel e ErrScheduledTaskInfra then Internal e
          else if anyErr yAuthContextUnavailable e then Internal e
          else if isErr e ErrUniqueViolation then Operational 409 "UNIQUE_VIOLATION"
          else if isErr e ErrPartialUniqueKey then Operational 422 "INVALID_UNIQUE_KEY"
          else if isSentinel e ErrTransitionNotFound then Operational 400 "TRANSITION_NOT_FOUND"
          else if anyErr isCtxErr e then Internal e
          else Operational 400 "WORKFLOW_FAILED"
      end
  end.
End Classify.

(** [if err != nil { return nil, f(err) }]. *)
Definition orReturn {S A} (m : M eerr S A) (f : eerr → eerr) : M eerr S A :=
  r ← try m;
  match r with inl e => fail (f e) | inr a => mret a end.

(** ** Gates *)

Section Scope.
Context {X : Env} {Y : EntityEnv}.

Definition acquire (tx : string) : EM unit := if decide (tx = "") then mret tt else logCall (CAcquire tx).
Definition ungated (tx : string) (s : Eng) : Eng :=
  if decide (tx = "") then s else set_trace (es_trace s ++ [CUngate tx]) s.

(** ** Transaction scopes *)

Record txScope := mkScope {
  sc_entryTxID : string;
  sc_ctx : ECtx;
  sc_txID : string;
  sc_owned : bool;
  sc_done : bool
}.
Abbreviation SL := (M eerr (Eng * txScope)).

(** [defer h.gate.Acquire(tx)()] around a section. *)
Definition gatedSection {A} (tx : string) (m : SL A) : SL A :=
  up (acquire tx);; finally m (λ '(s, sc), (ungated tx s, sc)).

(** Begin a transaction, or join the one the context carries. *)
Definition beginOrJoin (e : Engine) (ctx : ECtx) : EM (string * ECtx * bool) :=
  match ec_tx ctx with
  | Some tx => mret (tx, ctx, false)
  | None => '(tx, txCtx) ← txBegin e ctx; mret (tx, txCtx, true)
  end.

(** [Advance]: an empty id names no segment. *)
Definition Advance (ctx : ECtx) (txID : string) : SL unit :=
  if decide (txID = "") then mret tt
  else sc ← getL; setL (mkScope (sc_entryTxID sc) ctx txID (sc_owned sc) (sc_done sc)).

(** The commit runs detached from the caller's cancellation; a failure while its
    own budget has run out is in doubt. *)
Definition commitOwned (e : Engine) (ctx : ECtx) (txID : string) (owned : bool) : EM unit :=
  if owned then
    r ← try (txCommit e (WithoutCancel ctx) txID);
    match r with
    | inr _ => mret tt
    | inl err =>
        interrupted ← ask (xCommitInterrupted (WithoutCancel ctx));
        fail (if (interrupted : bool) then EJoin (ESentinel ErrCommitInterrupted) err else err)
    end
  else mret tt.
Definition CommitScope (e : Engine) : SL unit :=
  sc ← getL;
  (if sc_owned sc then
     dead ← up (ctxErr (sc_ctx sc));
     match dead with Some er => fail (EStore er) | None => mret tt end
   else mret tt);;
  setL (mkScope (sc_entryTxID sc) (sc_ctx sc) (sc_txID sc) (sc_owned sc) true);;
  up (commitOwned e (sc_ctx sc) (sc_txID sc) (sc_owned sc)).
(** How every flow answers a failed commit. *)
Definition commitOr409 (e : Engine) : SL unit :=
  orReturn (CommitScope e) (λ err, if isErr err ErrConflict then AsRetryable (Operational 409 "CONFLICT") else Internal err).

(** The deferred release: roll back the segment now open, under its gate, unless
    the scope is done or the transaction is somebody else's. *)
Definition ReleaseScope {A} (_ : outcome eerr A) (sc : txScope) : EM unit :=
  if decide (sc_done sc = true ∨ sc_txID sc = "" ∨ (sc_owned sc = false ∧ sc_txID sc = sc_entryTxID sc)) then mret tt
  else
    acquire (sc_txID sc);;
    finally (logCall (CRollback (sc_txID sc));;
             try (call (xRollback (WithoutCancel (sc_ctx sc)) (sc_txID sc)));; mret tt)
            (ungated (sc_txID sc)).

(** The shape of every flow: a scope whose release is deferred, and for a joined
    call the transaction's gate around the whole body, freed before the release. *)
Definition withScope {A} (e : Engine) (ctx : ECtx) (body : txScope → SL A) : EM A :=
  '(txID, txCtx, owned) ← orReturn (beginOrJoin e ctx) classifyBeginErr;
  let sc := mkScope txID txCtx txID owned false in
  scoped sc (if (owned : bool) then body sc else gatedSection txID (body sc)) ReleaseScope.

(** The owner takes the gate for its last section; a joined call holds it already. *)
Definition finalSection {A} (owned : bool) (tx : string) (m : SL A) : SL A :=
  if owned then gatedSection tx m else m.
End Scope.
Abbreviation SL := (M eerr (Eng * txScope)).
