(* ===== verification/EntityWrite.v ===== *)
(** * The entity service: creating and updating entities

    [CreateEntity], [CreateEntityCollection], [updateEntityCore] (behind
    [UpdateEntity] and [PatchEntity]) and [UpdateEntityCollection] of
    [internal/domain/entity/service.go], whole: parsing and validation, the
    transaction scope, the workflow engine, the gated save and commit. *)

From stdpp Require Import base gmap strings list pretty.
From S2P Require Import Prelude Spi Schema SchemaAdmit Workflow WorkflowRun MergePatch EntityScope.

(** ** Requests and answers *)

Record CreateEntityInput := mkCreate {
  ci_EntityName : string; ci_ModelVersion : string; ci_Format : string; ci_Data : string
}.
Record EntityTransactionResult := mkTxResult { tr_TransactionID : string; tr_EntityIDs : list string }.
Record UpdateEntityInput := mkUpdate {
  ui_EntityID : string; ui_Format : string; ui_Data : string; ui_Transition : string; ui_IfMatch : string
}.
Record updateOptions := mkUpdateOptions {
  uo_merge : option (string → JSON → err + JSON);
  uo_strictValidate : bool
}.
Record PatchEntityInput := mkPatch {
  pi_EntityID : string; pi_Patch : string; pi_PatchFormat : string; pi_Transition : string; pi_IfMatch : string
}.
Record CollectionItem := mkItem { it_ModelName : string; it_ModelVersion : Z; it_Payload : string }.
Record UpdateCollectionItem := mkUpdateItem {
  ut_EntityID : string; ut_Payload : string; ut_Transition : string; ut_IfMatch : string
}.
Record UpdateCollectionItemFailure := mkFailure { uf_EntityID : string; uf_Code : string; uf_ItemIndex : nat }.
Record UpdateCollectionResult := mkUpdated {
  ur_TransactionID : string; ur_EntityIDs : list string; ur_Failed : list UpdateCollectionItemFailure
}.

Section Write.
Context {X : Env} {Y : EntityEnv} (e : Engine).

(** ** Shared steps *)

(** [spi.MustGetUserContext]. *)
Definition mustGetUserContext (ctx : ECtx) : EM UserContext :=
  match ec_user ctx with Some uc => mret uc | None => panic "no user context" end.

(** The body by its format: the document and the bytes to store. *)
Definition parseBody (format data : string) : EM (JSON * string) :=
  if decide (format = "JSON") then
    match yDecodeJSON data with
    | inl _ => fail (Operational 400 "BAD_REQUEST")
    | inr v => mret (v, data)
    end
  else if decide (format = "XML") then
    match yParseXML data with
    | inl _ => fail (Operational 400 "BAD_REQUEST")
    | inr v =>
        match yMarshal v with
        | inl er => fail (Internal (EStore er))
        | inr bytes => mret (v, bytes)
        end
    end
  else fail (Operational 400 "BAD_REQUEST").

Definition rejectUnstorable (bytes : string) : EM unit :=
  match xRejectUnstorable bytes with Some _ => fail (Operational 400 "BAD_REQUEST") | None => mret tt end.

Definition judged (v : verdict) : EM unit :=
  match v with
  | Accepted => mret tt
  | InternalSchema er => fail (classifyValidateOrExtendErr true (EStore er))
  end.
Definition validateOrExtend (ctx : ECtx) (desc : xDescriptor) (data : JSON) : EM unit :=
  v ← orReturn (call (yValidateOrExtend ctx desc data)) (classifyValidateOrExtendErr false);
  judged v.
Definition validateStrict (desc : xDescriptor) (data : JSON) : EM unit :=
  match yValidateStrict desc data with
  | inl er => fail (classifyValidateOrExtendErr false (EStore er))
  | inr v => judged v
  end.

(** A complete composite key, or none: checked before anything is written. *)
Definition checkUniqueKeys (desc : xDescriptor) (inputDoc : string) : EM unit :=
  if decide (yUniqueKeys desc = []) then mret tt
  else match yComputeClaims (yUniqueKeys desc) inputDoc with
       | Some er =>
           fail (if decide (er = ErrPartialUniqueKey) then Operational 422 "INVALID_UNIQUE_KEY" else Internal (EStore er))
       | None => mret tt
       end.
Definition withUniqueKeys (ctx : ECtx) (desc : xDescriptor) (inputDoc : string) : EM ECtx :=
  if decide (yUniqueKeys desc = []) then mret ctx
  else checkUniqueKeys desc inputDoc;; mret (WithUniqueKeys ctx (yUniqueKeys desc)).

(** The locked model a new entity belongs to. *)
Definition lockedModel (ctx : ECtx) (ref : ModelRef) : EM xDescriptor :=
  found ← orReturn (call (xModelGet ctx ref)) Internal;
  match found with
  | None => fail (Operational 404 "MODEL_NOT_FOUND")
  | Some desc => if yLocked desc then mret desc else fail (Operational 409 "MODEL_NOT_LOCKED")
  end.
(** The stored entity and its model, inside the transaction. *)
Definition storedEntity (ctx : ECtx) (id : string) : EM Entity :=
  orReturn (call (xEntityGet ctx id))
    (λ err, if isErr err ErrNotFound then Operational 404 "ENTITY_NOT_FOUND" else Internal err).
Definition storedModel (ctx : ECtx) (ref : ModelRef) : EM xDescriptor :=
  found ← orReturn (call (xModelGet ctx ref)) Internal;
  match found with None => fail (Internal (EStore ErrNotFound)) | Some desc => mret desc end.

Definition newEntity (ctx : ECtx) (id tenant : string) (ref : ModelRef) (now : Time) (txID body : string) : Entity :=
  let '(attributed, executor) := yAttribution ctx in
  mkEntity (mkMeta id tenant ref "" 0 now now txID "CREATED" (p_ID attributed) (p_Kind attributed) executor "") body.
Definition updatedEntity (ctx : ECtx) (old : Entity) (now : Time) (txID transition body : string) : Entity :=
  let '(attributed, executor) := yAttribution ctx in
  let m := Meta old in
  mkEntity (mkMeta (m_ID m) (m_TenantID m) (m_ModelRef m) (m_State m) (m_Version m) (m_CreationDate m) now txID
              "UPDATED" (p_ID attributed) (p_Kind attributed) executor transition) body.

(** [entity.Meta.TransitionForLatestSave = name]. *)
Definition setTransition (name : string) : EM unit :=
  modify (λ s, let m := Meta (es_ent s) in
    set_ent (mkEntity (mkMeta (m_ID m) (m_TenantID m) (m_ModelRef m) (m_State m) (m_Version m) (m_CreationDate m)
      (m_LastModifiedDate m) (m_TransactionID m) (m_ChangeType m) (m_ChangeUser m) (m_ChangeUserKind m)
      (m_ChangeExecutor m) name) (Data (es_ent s))) s).

(** The engine's answer to a creation: an entity without a workflow is CREATED. *)
Definition finishCreation (result : EngineResult) : EM unit :=
  st ← state;
  (if decide (st = "") then setState "CREATED" else mret tt);;
  if decide (er_StopReason result = "") then setTransition "loopback" else mret tt.

(** A participating call must not have moved to another transaction. *)
Definition joinedGuard (owned : bool) (txID finalTxID : string) : SL unit :=
  if decide (owned = false ∧ finalTxID ≠ txID)
  then fail (Internal (EText "joined callback unexpectedly segmented transaction")) else mret tt.

Definition emitTransitionAborted (ctx : ECtx) (cascadeEntryTxID transitionName expectedTxID : string) : EM unit :=
  opened ← try (call (xStore AuditStoreK ctx));
  match opened with
  | inl _ => mret tt
  | inr _ =>
      x ← ent;
      let name := if decide (transitionName = "") then "loopback" else transitionName in
      actual ← LookupActualTxID ctx (m_ID (Meta x));
      recordEvent ctx cascadeEntryTxID (m_State (Meta x)) SMEventTransitionAborted [name]
        [("reason", "ENTITY_MODIFIED"); ("transitionName", name); ("expectedTxId", expectedTxID); ("actualTxId", actual)]
  end.

(** ** Creating *)

(** Within the scope of a creation. *)
Definition createInScope (uc : UserContext) (ref : ModelRef) (bodyBytes : string) (sc : txScope) :
    SL EntityTransactionResult :=
  let '(txID, txCtx, owned) := (sc_txID sc, sc_ctx sc, sc_owned sc) in
  entityID ← up (ask xNewTimeUUID);
  now ← up (ask yNow);
  up (modify (set_ent (newEntity txCtx entityID (uc_TenantID uc) ref now txID bodyBytes)));;
  result ← orReturn (up (enter e txCtx (DExecute ""))) classifyWorkflowError;
  Advance (er_FinalCtx result) (er_FinalTxID result);;
  up (finishCreation result);;
  fin ← getL;
  let '(finalCtx, finalTxID) := (sc_ctx fin, sc_txID fin) in
  joinedGuard owned txID finalTxID;;
  orReturn (up (call (xStore EntityStoreK finalCtx))) Internal;;
  finalSection owned finalTxID
    (orReturn (up (saveEntity finalCtx)) Internal;;
     commitOr409 e);;
  mret (mkTxResult txID [entityID]).

Definition CreateEntity (ctx : ECtx) (input : CreateEntityInput) : EM EntityTransactionResult :=
  uc ← mustGetUserContext ctx;
  orReturn (call (xStore ModelStoreK ctx)) Internal;;
  let ref := mkModelRef (ci_EntityName input) (ci_ModelVersion input) in
  desc ← lockedModel ctx ref;
  '(parsedData, bodyBytes) ← parseBody (ci_Format input) (ci_Data input);
  rejectUnstorable bodyBytes;;
  validateOrExtend ctx desc parsedData;;
  ctx ← withUniqueKeys ctx desc bodyBytes;
  withScope e ctx (createInScope uc ref bodyBytes).

Record parsedItem := mkParsed { pa_ref : ModelRef; pa_bytes : string; pa_keys : list UniqueKey }.
Definition parseItem (ctx : ECtx) (item : CollectionItem) : EM parsedItem :=
  let ref := mkModelRef (it_ModelName item) (pretty (it_ModelVersion item)) in
  desc ← lockedModel ctx ref;
  match yDecodeJSON (it_Payload item) with
  | inl _ => fail (Operational 400 "BAD_REQUEST")
  | inr data =>
      rejectUnstorable (it_Payload item);;
      validateOrExtend ctx desc data;;
      checkUniqueKeys desc (it_Payload item);;
      mret (mkParsed ref (it_Payload item) (yUniqueKeys desc))
  end.
Fixpoint mapM {E S A B} (f : A → M E S B) (l : list A) : M E S (list B) :=
  match l with
  | [] => mret []
  | a :: l => b ← f a; bs ← mapM f l; mret (b :: bs)
  end.

(** The check at the head of a batch's iterations. *)
Definition abortIfDead (ctx : ECtx) : EM unit :=
  dead ← ctxErr ctx;
  match dead with Some er => fail (EWrap "operation aborted" (EStore er)) | None => mret tt end.

(** One item of a batch of creations, on the segment now open. *)
Definition createItem (ctx : ECtx) (tenant : string) (now : Time) (owned : bool) (txID : string)
    (cur : ECtx * string) (entityID : string) (item : parsedItem) : SL (ECtx * string) :=
  up (abortIfDead ctx);;
  let '(currentCtx, currentTxID) := cur in
  up (modify (set_ent (newEntity currentCtx entityID tenant (pa_ref item) now currentTxID (pa_bytes item))));;
  let currentCtx := WithUniqueKeys currentCtx (pa_keys item) in
  result ← orReturn (up (enter e currentCtx (DExecute ""))) (λ err, classifyWorkflowError (EWrap "item" err));
  Advance (er_FinalCtx result) (er_FinalTxID result);;
  fin ← getL;
  let '(currentCtx, currentTxID) := (sc_ctx fin, sc_txID fin) in
  up (finishCreation result);;
  joinedGuard owned txID currentTxID;;
  finalSection owned currentTxID
    (orReturn (up (call (xStore EntityStoreK currentCtx))) Internal;;
     orReturn (up (saveEntity currentCtx)) Internal);;
  mret (currentCtx, currentTxID).
Fixpoint createItems (ctx : ECtx) (tenant : string) (now : Time) (owned : bool) (txID : string)
    (cur : ECtx * string) (items : list (string * parsedItem)) : SL (ECtx * string) :=
  match items with
  | [] => mret cur
  | (id, item) :: items =>
      cur' ← createItem ctx tenant now owned txID cur id item;
      createItems ctx tenant now owned txID cur' items
  end.

Definition createAllInScope (ctx : ECtx) (uc : UserContext) (parsed : list parsedItem) (sc : txScope) :
    SL EntityTransactionResult :=
  let '(txID, txCtx, owned) := (sc_txID sc, sc_ctx sc, sc_owned sc) in
  now ← up (ask yNow);
  entityIDs ← up (mapM (λ _, ask xNewTimeUUID) parsed);
  cur ← createItems ctx (uc_TenantID uc) now owned txID (txCtx, txID) (zip entityIDs parsed);
  finalSection owned cur.2 (commitOr409 e);;
  mret (mkTxResult txID entityIDs).

Definition CreateEntityCollection (ctx : ECtx) (items : list CollectionItem) : EM EntityTransactionResult :=
  uc ← mustGetUserContext ctx;
  orReturn (call (xStore ModelStoreK ctx)) Internal;;
  parsed ← mapM (parseItem ctx) items;
  withScope e ctx (createAllInScope ctx uc parsed).

(** ** Updating *)

Definition entityModified : eerr := Operational 412 "ENTITY_MODIFIED".
Definition doorOf (transition ifMatch : string) : Door :=
  if decide (transition = "") then DLoopback ifMatch else DManual transition ifMatch.
Definition transitionMark (transition : string) : string :=
  if decide (transition = "") then "loopback" else transition.

(** The save that ends an update: the handler compares the precondition itself
    unless the engine's first segment did. *)
Definition saveUpdated (ctx : ECtx) (txID transition ifMatch : string) (segmented : bool) : EM unit :=
  if decide (ifMatch ≠ "" ∧ segmented = false) then
    r ← try (compareAndSave ctx ifMatch);
    match r with
    | inr _ => mret tt
    | inl err =>
        if isErr err ErrConflict
        then emitTransitionAborted ctx txID transition ifMatch;; fail entityModified
        else fail (Internal err)
    end
  else orReturn (saveEntity ctx) Internal.

(** The document to write: for a PATCH the request merged into the stored one. *)
Definition mergedBody (opts : updateOptions) (existing : string) (parsedData : JSON) (bodyBytes : string) :
    EM (JSON * string) :=
  match uo_merge opts with
  | None => mret (parsedData, bodyBytes)
  | Some merge =>
      match merge existing parsedData with
      | inl _ => fail (Operational 400 "BAD_REQUEST")
      | inr merged =>
          match yMarshal merged with
          | inl er => fail (Internal (EStore er))
          | inr bytes => mret (merged, bytes)
          end
      end
  end.

Definition updateInScope (input : UpdateEntityInput) (opts : updateOptions) (parsedData : JSON) (bodyBytes : string)
    (sc : txScope) : SL EntityTransactionResult :=
  let '(txID, txCtx, owned) := (sc_txID sc, sc_ctx sc, sc_owned sc) in
  orReturn (up (call (xStore EntityStoreK txCtx))) Internal;;
  existing ← up (storedEntity txCtx (ui_EntityID input));
  desc ← up (storedModel txCtx (m_ModelRef (Meta existing)));
  '(parsedData, bodyBytes) ← up (mergedBody opts (Data existing) parsedData bodyBytes);
  up (if uo_strictValidate opts then validateStrict desc parsedData else validateOrExtend txCtx desc parsedData);;
  txCtx ← up (withUniqueKeys txCtx desc bodyBytes);
  now ← up (ask yNow);
  up (modify (set_ent (updatedEntity txCtx existing now txID (ui_Transition input) bodyBytes)));;
  result ← orReturn (up (enter e txCtx (doorOf (ui_Transition input) (ui_IfMatch input))))
             (λ err, if isErr err ErrConflict then entityModified else classifyWorkflowError err);
  Advance (er_FinalCtx result) (er_FinalTxID result);;
  up (setTransition (transitionMark (ui_Transition input)));;
  fin ← getL;
  let '(finalCtx, finalTxID) := (sc_ctx fin, sc_txID fin) in
  joinedGuard owned txID finalTxID;;
  orReturn (up (call (xStore EntityStoreK finalCtx))) Internal;;
  finalSection owned finalTxID
    (up (saveUpdated finalCtx txID (ui_Transition input) (ui_IfMatch input) (er_Segmented result));;
     commitOr409 e);;
  mret (mkTxResult txID [ui_EntityID input]).

Definition updateEntityCore (ctx : ECtx) (input : UpdateEntityInput) (opts : updateOptions) : EM EntityTransactionResult :=
  orReturn (call (xStore ModelStoreK ctx)) Internal;;
  '(parsedData, bodyBytes) ← parseBody (ui_Format input) (ui_Data input);
  rejectUnstorable bodyBytes;;
  withScope e ctx (updateInScope input opts parsedData bodyBytes).

Definition UpdateEntity (ctx : ECtx) (input : UpdateEntityInput) : EM EntityTransactionResult :=
  updateEntityCore ctx input (mkUpdateOptions None false).

Definition PatchEntity (ctx : ECtx) (input : PatchEntityInput) : EM EntityTransactionResult :=
  if decide (pi_PatchFormat input = "MERGE_PATCH") then
    let ifMatch := if decide (pi_IfMatch input = "*") then "" else pi_IfMatch input in
    updateEntityCore ctx
      (mkUpdate (pi_EntityID input) "JSON" (pi_Patch input) (pi_Transition input) ifMatch)
      (mkUpdateOptions (Some (mergeMergePatch yDecodeJSON)) true)
  else if decide (pi_PatchFormat input = "JSON_PATCH") then fail (Operational 501 "NOT_IMPLEMENTED")
  else fail (Operational 415 "UNSUPPORTED_MEDIA_TYPE").

(** ** Updating a collection *)

Definition parseUpdate (item : UpdateCollectionItem) : EM (UpdateCollectionItem * JSON) :=
  if decide (ut_EntityID item = "") then fail (Operational 400 "BAD_REQUEST")
  else match yDecodeJSON (ut_Payload item) with
       | inl _ => fail (Operational 400 "BAD_REQUEST")
       | inr data => rejectUnstorable (ut_Payload item);; mret (item, data)
       end.

(** The conflicts of one item that leave the batch's transaction usable. *)
Definition isolates (ifMatch : string) (err : eerr) : bool :=
  bool_decide (ifMatch ≠ "") && isErr err ErrConflict && negb (isSentinel err ErrPostSegmentConflict)
  && negb (isSentinel err ErrCommitBeforeDispatchInfra).

(** The save of one item: whether its precondition failed. *)
Definition saveUpdatedItem (ctx : ECtx) (txID transition ifMatch : string) (segmented : bool) : EM bool :=
  orReturn (call (xStore EntityStoreK ctx)) Internal;;
  let applyHandlerCAS := bool_decide (ifMatch ≠ "") && negb segmented in
  saved ← try (if applyHandlerCAS then compareAndSave ctx ifMatch else saveEntity ctx);
  match saved with
  | inr _ => mret false
  | inl err =>
      if applyHandlerCAS && isErr err ErrConflict
      then emitTransitionAborted ctx txID transition ifMatch;; mret true
      else fail (Internal err)
  end.

(** One item: the segment to go on with, and its id or its isolated failure. *)
Definition updateItem (ctx : ECtx) (now : Time) (owned : bool) (txID : string) (cur : ECtx * string)
    (i : nat) (it : UpdateCollectionItem * JSON) : SL (ECtx * string * (UpdateCollectionItemFailure + string)) :=
  let '(item, parsedData) := it in
  let '(currentCtx, currentTxID) := cur in
  up (abortIfDead ctx);;
  orReturn (up (call (xStore EntityStoreK currentCtx))) Internal;;
  existing ← up (storedEntity currentCtx (ut_EntityID item));
  desc ← up (storedModel currentCtx (m_ModelRef (Meta existing)));
  up (checkUniqueKeys desc (ut_Payload item));;
  let currentCtx := WithUniqueKeys currentCtx (yUniqueKeys desc) in
  up (validateOrExtend currentCtx desc parsedData);;
  up (modify (set_ent (updatedEntity currentCtx existing now currentTxID "" (ut_Payload item))));;
  let failure x := mkFailure (m_ID (Meta x)) "ENTITY_MODIFIED" i in
  r ← try (up (enter e currentCtx (doorOf (ut_Transition item) (ut_IfMatch item))));
  match r with
  | inl err =>
      if isolates (ut_IfMatch item) err
      then x ← up ent; mret (currentCtx, currentTxID, inl (failure x))
      else fail (classifyWorkflowError (EWrap "item" err))
  | inr result =>
      Advance (er_FinalCtx result) (er_FinalTxID result);;
      fin ← getL;
      let '(currentCtx, currentTxID) := (sc_ctx fin, sc_txID fin) in
      up (setTransition (transitionMark (ut_Transition item)));;
      joinedGuard owned txID currentTxID;;
      isolated ← finalSection owned currentTxID
        (up (saveUpdatedItem currentCtx currentTxID (ut_Transition item) (ut_IfMatch item) (er_Segmented result)));
      x ← up ent;
      mret (currentCtx, currentTxID, if (isolated : bool) then inl (failure x) else inr (m_ID (Meta x)))
  end.

Fixpoint updateItems (ctx : ECtx) (now : Time) (owned : bool) (txID : string) (cur : ECtx * string) (i : nat)
    (items : list (UpdateCollectionItem * JSON)) : SL (string * list (UpdateCollectionItemFailure + string)) :=
  match items with
  | [] => mret (cur.2, [])
  | it :: items =>
      '(cctx, ctx', r) ← updateItem ctx now owned txID cur i it;
      '(tx, rs) ← updateItems ctx now owned txID (cctx, ctx') (S i) items;
      mret (tx, r :: rs)
  end.

Definition failuresOf {A B} (rs : list (A + B)) : list A := omap (λ r, match r with inl a => Some a | inr _ => None end) rs.
Definition successesOf {A B} (rs : list (A + B)) : list B := omap (λ r, match r with inr b => Some b | inl _ => None end) rs.

Definition updateAllInScope (ctx : ECtx) (parsed : list (UpdateCollectionItem * JSON)) (sc : txScope) :
    SL UpdateCollectionResult :=
  let '(txID, txCtx, owned) := (sc_txID sc, sc_ctx sc, sc_owned sc) in
  now ← up (ask yNow);
  '(currentTxID, rs) ← updateItems ctx now owned txID (txCtx, txID) 0 parsed;
  finalSection owned currentTxID (commitOr409 e);;
  mret (mkUpdated txID (successesOf rs) (failuresOf rs)).

Definition UpdateEntityCollection (ctx : ECtx) (items : list UpdateCollectionItem) : EM UpdateCollectionResult :=
  if decide (items = []) then fail (Operational 400 "BAD_REQUEST")
  else
    orReturn (call (xStore ModelStoreK ctx)) Internal;;
    parsed ← mapM parseUpdate items;
    withScope e ctx (updateAllInScope ctx parsed).
End Write.
