(* ===== verification/EntityDelete.v ===== *)
(** * The entity service: deleting entities

    [DeleteEntity], [DeleteAllEntities], [DeleteEntitiesConditional] and
    [deleteBatched] of [internal/domain/entity/service.go]: a delete selects by
    streaming a scan of the store, drains and closes it, and deletes under the gate
    of its transaction; in batches, each in a transaction of its own, an entity goes
    only when its version is still the one selected. *)

From Stdlib Require Import Ascii.
From stdpp Require Import base gmap strings list.
From S2P Require Import Prelude GoStrings Spi Schema SchemaAdmit Workflow WorkflowRun EntityScope EntityWrite.

(** ** The environment of the deletes

    Deleting; scanning: the entities a scan yields and, for each number of them read
    before it is closed, the error closing it reports; the compiled filter of a
    condition; the checks of the search boundary; which sentinels of the contract and
    of the evaluator a store's error carries. *)
Inductive querySentinel :=
| QSearchResultLimitExceeded | QInvalidFilterPath | QUnevaluableLeaf | QInvalidPattern
| QMatchUnevaluableLeaf | QMatchUnsupportedOperator.
Class DeleteEnv {X : Env} := {
  dDelete : ECtx → string → M err W unit;
  dDeleteAll : ECtx → ModelRef → M err W unit;
  dFilter : Type;
  dEverything : dFilter;
  dIterate : ECtx → ModelRef → dFilter → option Time → M err W (list Entity * (nat → option err));
  dValidateCondition : Condition → option string;
  dConditionTypeCode : err → string;
  dConditionToFilter : Condition → gmap string (list string) → err + dFilter;
  dQuerySentinel : querySentinel → err → bool;
  dModelID : ModelRef → string
}.

Record deleteEntityResult := mkDeleted {
  dr_EntityID : string; dr_ModelName : string; dr_ModelVersion : Z; dr_TransactionID : string
}.
Record DeleteAllResult := mkDeletedAll { da_TotalCount : nat; da_EntityModelID : string }.
(** [dl_IDToError] holds the code of each item's error. *)
Record DeleteResult := mkDelete {
  dl_EntityModelID : string;
  dl_MatchedCount : nat;
  dl_RemovedCount : nat;
  dl_IDToError : gmap string string;
  dl_IDs : list string
}.
Record batchTarget := mkTarget { bt_id : string; bt_baselineVersion : Z }.

(** [strconv.Atoi] with its error dropped: 0 on bad syntax, the nearest bound on a
    value out of range. *)
Definition Atoi (s : string) : Z :=
  let bounded (neg : bool) (t : string) : Z :=
    match t, parseDigits 0 t with
    | EmptyString, _ | _, None => 0%Z
    | _, Some v => if neg then Z.max (- maxInt64 - 1) (- v) else Z.min maxInt64 v
    end in
  match s with
  | String c t => if Ascii.eqb c "-"%char then bounded true t
                  else if Ascii.eqb c "+"%char then bounded false t else bounded false s
  | EmptyString => 0%Z
  end.

Section Delete.
Context {X : Env} {Y : EntityEnv} {D : DeleteEnv} (e : Engine).

(** ** One entity, all entities *)

Definition deleteEntity (ctx : ECtx) (id : string) : EM unit :=
  r ← try (call (dDelete ctx id));
  logCall (CDelete (ec_tx ctx) id (isOk r));;
  lift_sum r.
Definition deleteAll (ctx : ECtx) (ref : ModelRef) : EM unit :=
  r ← try (call (dDeleteAll ctx ref));
  logCall (CDeleteAll (ec_tx ctx) ref (isOk r));;
  lift_sum r.

Definition deleteInScope (entityID : string) (sc : txScope) : SL deleteEntityResult :=
  let '(txID, txCtx, owned) := (sc_txID sc, sc_ctx sc, sc_owned sc) in
  orReturn (up (call (xStore EntityStoreK txCtx))) Internal;;
  x ← up (storedEntity txCtx entityID);
  finalSection owned txID
    (orReturn (up (deleteEntity txCtx entityID)) Internal;;
     commitOr409 e);;
  let ref := m_ModelRef (Meta x) in
  mret (mkDeleted entityID (EntityName ref) (Atoi (ModelVersion ref)) txID).
Definition DeleteEntity (ctx : ECtx) (entityID : string) : EM deleteEntityResult :=
  withScope e ctx (deleteInScope entityID).

(** ** Selecting *)

(** [search.ClassifyStoreQueryError]: a condition the store cannot evaluate. *)
Definition ClassifyStoreQueryError (err : eerr) : option eerr :=
  let carries q := anyErr (dQuerySentinel q) err in
  let refusal code := Some (WithCause (Operational 400 code) err) in
  if carries QSearchResultLimitExceeded then refusal "SEARCH_RESULT_LIMIT"
  else if carries QInvalidFilterPath then refusal "INVALID_FIELD_PATH"
  else if carries QUnevaluableLeaf then refusal "INVALID_CONDITION"
  else if carries QInvalidPattern then refusal "INVALID_CONDITION"
  else if carries QMatchUnevaluableLeaf then refusal "INVALID_CONDITION"
  else if carries QMatchUnsupportedOperator then refusal "INVALID_CONDITION"
  else None.

Definition drainDeleteSelection (ctx : ECtx) (ref : ModelRef) (filter : dFilter) (pointInTime : option Time) :
    EM (list Entity) :=
  '(es, closing) ← orReturn (call (dIterate ctx ref filter pointInTime)) (λ err, default err (ClassifyStoreQueryError err));
  match closing (length es) with
  | Some er => fail (default (EStore er) (ClassifyStoreQueryError (EStore er)))
  | None => mret es
  end.
Definition selectDeleteIDs (ctx : ECtx) (ref : ModelRef) (filter : dFilter) (pointInTime : option Time) : EM (list string) :=
  es ← drainDeleteSelection ctx ref filter pointInTime;
  mret ((λ x, m_ID (Meta x)) <$> es).

(** The model must exist. *)
Definition modelExists (ctx : ECtx) (ref : ModelRef) : EM unit :=
  found ← orReturn (call (xModelGet ctx ref)) Internal;
  match found with None => fail (Operational 404 "MODEL_NOT_FOUND") | Some _ => mret tt end.

Definition deleteConditionTypeCheck (ctx : ECtx) (ref : ModelRef) (cond : Condition) : EM unit :=
  node ← (if decide (xConditionFieldPaths cond = []) then mret None
          else orReturn (call (xLoadModelNode ctx ref)) (EWrap "failed to load model schema for condition validation"));
  match xValidateConditionValueTypes node cond with
  | Some er => fail (Operational 400 (dConditionTypeCode er))
  | None => mret tt
  end.

Definition planDeleteSelection (ctx : ECtx) (ref : ModelRef) (cond : option Condition) : EM dFilter :=
  match cond with
  | None => mret dEverything
  | Some cond =>
      match dValidateCondition cond with
      | Some code => fail (Operational 400 code)
      | None =>
          match xValidatePatterns cond with
          | Some _ => fail (Operational 400 "INVALID_CONDITION")
          | None =>
              node ← orReturn (call (xLoadModelNode ctx ref)) (EWrap "failed to load model field types");
              let fields := match node with Some n => xFieldsMap n | None => ∅ end in
              known ← call (xValidateKnownPaths ctx ref (xConditionFieldPaths cond) fields);
              match known with
              | inl er => fail (EStore er)
              | inr fields =>
                  deleteConditionTypeCheck ctx ref cond;;
                  match dConditionToFilter cond fields with
                  | inl er => fail (default (Operational 400 "INVALID_CONDITION") (ClassifyStoreQueryError (EStore er)))
                  | inr filter => mret filter
                  end
              end
          end
      end
  end.

Definition deleteAllInScope (ref : ModelRef) (sc : txScope) : SL DeleteAllResult :=
  let '(txID, txCtx, owned) := (sc_txID sc, sc_ctx sc, sc_owned sc) in
  orReturn (up (call (xStore EntityStoreK txCtx))) Internal;;
  orReturn (up (call (xStore ModelStoreK txCtx))) Internal;;
  up (modelExists txCtx ref);;
  es ← orReturn (up (drainDeleteSelection txCtx ref dEverything None)) Internal;
  finalSection owned txID
    (orReturn (up (deleteAll txCtx ref)) Internal;;
     commitOr409 e);;
  mret (mkDeletedAll (length es) (dModelID ref)).
Definition DeleteAllEntities (ctx : ECtx) (ref : ModelRef) : EM DeleteAllResult :=
  withScope e ctx (deleteAllInScope ref).

(** ** Deleting by condition, in one transaction *)

Definition perIDDeleteError (err : eerr) : string :=
  let other :=
    if anyErr yStorageUnavailable err then "STORAGE_UNAVAILABLE"
    else if isErr err ErrNotFound then "ENTITY_NOT_FOUND"
    else "SERVER_ERROR" in
  match asApp err with
  | Some (EApp a _) => if decide (ap_Level a = LevelOperational) then ap_Code a else other
  | _ => other
  end.
Definition noteError (id code : string) (r : DeleteResult) : DeleteResult :=
  mkDelete (dl_EntityModelID r) (dl_MatchedCount r) (dl_RemovedCount r) (<[id := code]> (dl_IDToError r)) (dl_IDs r).
Definition noteRemoved (n : nat) (r : DeleteResult) : DeleteResult :=
  mkDelete (dl_EntityModelID r) (dl_MatchedCount r) (dl_RemovedCount r + n) (dl_IDToError r) (dl_IDs r).
Definition noteID (id : string) (r : DeleteResult) : DeleteResult :=
  mkDelete (dl_EntityModelID r) (dl_MatchedCount r) (dl_RemovedCount r) (dl_IDToError r) (dl_IDs r ++ [id]).
Definition noteMatched (n : nat) (r : DeleteResult) : DeleteResult :=
  mkDelete (dl_EntityModelID r) (dl_MatchedCount r + n) (dl_RemovedCount r) (dl_IDToError r) (dl_IDs r).

(** A cancelled caller fails the pass: the transaction rolls back. *)
Definition passAlive (ctx : ECtx) : EM unit :=
  dead ← ctxErr ctx;
  match dead with Some er => fail (classifyError (EWrap "operation aborted" (EStore er))) | None => mret tt end.

Fixpoint deleteIDs (ctx txCtx : ECtx) (verbose : bool) (ids : list string) (result : DeleteResult) : EM DeleteResult :=
  match ids with
  | [] => mret result
  | id :: ids =>
      passAlive ctx;;
      let result := if verbose then noteID id result else result in
      r ← try (deleteEntity txCtx id);
      match r with
      | inl err => deleteIDs ctx txCtx verbose ids (noteError id (perIDDeleteError err) result)
      | inr _ => deleteIDs ctx txCtx verbose ids (noteRemoved 1 result)
      end
  end.

Definition deleteMatchingInScope (ctx : ECtx) (ref : ModelRef) (cond : option Condition) (pointInTime : option Time)
    (verbose : bool) (sc : txScope) : SL DeleteResult :=
  let '(txID, txCtx, owned) := (sc_txID sc, sc_ctx sc, sc_owned sc) in
  orReturn (up (call (xStore ModelStoreK txCtx))) Internal;;
  up (modelExists txCtx ref);;
  orReturn (up (call (xStore EntityStoreK txCtx))) Internal;;
  filter ← up (planDeleteSelection txCtx ref cond);
  ids ← orReturn (up (selectDeleteIDs txCtx ref filter pointInTime)) classifyError;
  let result := mkDelete (dModelID ref) (length ids) 0 ∅ [] in
  finalSection owned txID
    (result ← up (deleteIDs ctx txCtx verbose ids result);
     commitOr409 e;;
     mret result).

(** ** Deleting in batches *)

(** The targets whose current version is still the one selected are deleted;
    [pending] is what the chunk's transaction deleted so far, and the last component
    the error the pass stops with. *)
Fixpoint deleteTargets (ctx txCtx : ECtx) (chunk : list batchTarget) (result : DeleteResult) (pending : list string) :
    EM (DeleteResult * list string * option eerr) :=
  match chunk with
  | [] => mret (result, pending, None)
  | t :: chunk =>
      alive ← try (passAlive ctx);
      match alive with
      | inl err => mret (result, pending, Some err)
      | inr _ =>
          cur ← try (call (xEntityGet txCtx (bt_id t)));
          match cur with
          | inl err => deleteTargets ctx txCtx chunk (noteError (bt_id t) (perIDDeleteError err) result) pending
          | inr x =>
              if decide (m_Version (Meta x) = bt_baselineVersion t) then
                r ← try (deleteEntity txCtx (bt_id t));
                match r with
                | inl err => deleteTargets ctx txCtx chunk (noteError (bt_id t) (perIDDeleteError err) result) pending
                | inr _ => deleteTargets ctx txCtx chunk result (pending ++ [bt_id t])
                end
              else deleteTargets ctx txCtx chunk (noteError (bt_id t) "ENTITY_MODIFIED" result) pending
          end
      end
  end.

(** How the failure of a pass reads on its items. *)
Definition batchFailure (err : eerr) : string :=
  match err with
  | EApp a _ => if decide (ap_Level a = LevelOperational) then ap_Code a else "SERVER_ERROR"
  | _ => "SERVER_ERROR"
  end.

(** A failure of the pass, of its commit included, is folded into the items it had
    deleted; the caller goes on. *)
Definition deleteBatchInScope (ctx : ECtx) (chunk : list batchTarget) (result : DeleteResult) (sc : txScope) : SL DeleteResult :=
  let '(txID, txCtx, owned) := (sc_txID sc, sc_ctx sc, sc_owned sc) in
  orReturn (up (call (xStore EntityStoreK txCtx))) Internal;;
  '(result, pending, failed) ← finalSection owned txID
    ('(result, pending, stopped) ← up (deleteTargets ctx txCtx chunk result []);
     match stopped with
     | Some err => mret (result, pending, Some err)
     | None =>
         committed ← try (commitOr409 e);
         mret (result, pending, match committed with inl err => Some err | inr _ => None end)
     end);
  match failed with
  | Some err => mret (foldl (λ r id, noteError id (batchFailure err) r) result pending)
  | None => mret (noteRemoved (length pending) result)
  end.
Definition deleteOneBatch (ctx : ECtx) (chunk : list batchTarget) (result : DeleteResult) : EM DeleteResult :=
  withScope e ctx (deleteBatchInScope ctx chunk result).

(** The cancellation check between batches. *)
Definition betweenBatches (ctx : ECtx) : EM unit :=
  dead ← ctxErr ctx;
  match dead with Some er => fail (EWrap "delete aborted between batches" (EStore er)) | None => mret tt end.

(** *** As at a point in time: one selection, chunk by chunk *)

Fixpoint readBaselines (ctx : ECtx) (ids : list string) (result : DeleteResult) : EM (list batchTarget * DeleteResult) :=
  match ids with
  | [] => mret ([], result)
  | id :: ids =>
      cur ← try (call (xEntityGet ctx id));
      match cur with
      | inl err => readBaselines ctx ids (noteError id (perIDDeleteError err) result)
      | inr x =>
          '(targets, result) ← readBaselines ctx ids result;
          mret (mkTarget id (m_Version (Meta x)) :: targets, result)
      end
  end.
Definition resolveBatchTargetsOnePass (ctx : ECtx) (ref : ModelRef) (filter : dFilter) (pointInTime : option Time)
    (verbose : bool) (result : DeleteResult) : EM (list batchTarget * DeleteResult) :=
  es ← orReturn (drainDeleteSelection ctx ref filter pointInTime) classifyError;
  let ids := (λ x, m_ID (Meta x)) <$> es in
  let result := noteMatched (length ids) result in
  readBaselines ctx ids (if verbose then foldl (λ r id, noteID id r) result ids else result).

(** [fuel] is the number of targets: each chunk takes at least one. *)
Fixpoint deleteChunks (ctx : ECtx) (batchSize : nat) (fuel : nat) (targets : list batchTarget) (result : DeleteResult) :
    EM DeleteResult :=
  match fuel, targets with
  | S fuel, _ :: _ =>
      betweenBatches ctx;;
      result ← deleteOneBatch ctx (take batchSize targets) result;
      deleteChunks ctx batchSize fuel (drop batchSize targets) result
  | _, _ => mret result
  end.

(** *** On live data: select a chunk, delete it, select again *)

(** Read a scan until the chunk is full: the chunk, how many entities were read, and
    whether the scan ran out. *)
Fixpoint pullChunk (batchSize : nat) (seen : gset string) (es : list Entity) : list batchTarget * nat * bool :=
  match es with
  | [] => ([], 0, true)
  | x :: es =>
      let id := m_ID (Meta x) in
      if decide (id ∈ seen) then
        let '(chunk, n, out) := pullChunk batchSize seen es in (chunk, S n, out)
      else
        let t := mkTarget id (m_Version (Meta x)) in
        match batchSize with
        | 0 | 1 => ([t], 1, false)
        | S b => let '(chunk, n, out) := pullChunk b seen es in (t :: chunk, S n, out)
        end
  end.

Definition failedOf (chunk : list batchTarget) (result : DeleteResult) : gset string :=
  list_to_set (filter (λ id, is_Some (dl_IDToError result !! id)) (bt_id <$> chunk)).

(** [budget] is the number of cycles left before the delete gives up. *)
Fixpoint deleteCycles (ctx : ECtx) (ref : ModelRef) (filter : dFilter) (verbose : bool) (batchSize : nat) (budget : nat)
    (seen : gset string) (result : DeleteResult) : EM DeleteResult :=
  betweenBatches ctx;;
  match budget with
  | 0 => fail (AsRetryable (Operational 409 "DELETE_NOT_CONVERGED"))
  | S budget =>
      let refuse err := default (Internal err) (ClassifyStoreQueryError err) in
      '(es, closing) ← orReturn (call (dIterate ctx ref filter None)) refuse;
      let '(chunk, n, exhausted) := pullChunk batchSize seen es in
      match closing n with
      | Some er => fail (refuse (EStore er))
      | None =>
          if decide (chunk = []) then mret result
          else
            let result := if verbose then foldl (λ r t, noteID (bt_id t) r) result chunk else result in
            result ← deleteOneBatch ctx chunk (noteMatched (length chunk) result);
            if (exhausted : bool) then mret result
            else deleteCycles ctx ref filter verbose batchSize budget (seen ∪ failedOf chunk result) result
      end
  end.

(** The setup transaction: the model exists, the condition has a plan. *)
Definition planInScope (ref : ModelRef) (cond : option Condition) (sc : txScope) : SL dFilter :=
  let txCtx := sc_ctx sc in
  orReturn (up (call (xStore ModelStoreK txCtx))) Internal;;
  up (modelExists txCtx ref);;
  orReturn (up (call (xStore EntityStoreK txCtx))) Internal;;
  filter ← up (planDeleteSelection txCtx ref cond);
  commitOr409 e;;
  mret filter.

Definition defaultMaxDeleteCycles : Z := 1000000.
Definition deleteCycleBudget (maxDeleteCycles : Z) : Z :=
  if decide (0 < maxDeleteCycles)%Z then maxDeleteCycles else defaultMaxDeleteCycles.

(** The whole body runs in the scope of the setup transaction, already committed
    when the batches start. *)
Definition deleteBatched (maxDeleteCycles : Z) (ctx : ECtx) (ref : ModelRef) (cond : option Condition)
    (pointInTime : option Time) (verbose : bool) (batchSize : nat) : EM DeleteResult :=
  withScope e ctx (λ sc,
    filter ← planInScope ref cond sc;
    let result := mkDelete (dModelID ref) 0 0 ∅ [] in
    up (match pointInTime with
        | Some _ =>
            '(targets, result) ← resolveBatchTargetsOnePass ctx ref filter pointInTime verbose result;
            deleteChunks ctx batchSize (length targets) targets result
        | None =>
            deleteCycles ctx ref filter verbose batchSize (Z.to_nat (deleteCycleBudget maxDeleteCycles)) ∅ result
        end)).

(** ** The request *)

Definition DeleteEntitiesConditional (maxDeleteCycles : Z) (ctx : ECtx) (ref : ModelRef) (condBody : string)
    (pointInTime : option Time) (verbose : bool) (batchSize : Z) : EM DeleteResult :=
  let go (cond : option Condition) : EM DeleteResult :=
    if decide (0 < batchSize)%Z then deleteBatched maxDeleteCycles ctx ref cond pointInTime verbose (Z.to_nat batchSize)
    else
      match cond, pointInTime, verbose with
      | None, None, false =>
          all ← DeleteAllEntities ctx ref;
          mret (mkDelete (da_EntityModelID all) (da_TotalCount all) (da_TotalCount all) ∅ [])
      | _, _, _ => withScope e ctx (deleteMatchingInScope ctx ref cond pointInTime verbose)
      end in
  if decide (TrimSpace condBody = "") then go None
  else match xParseCondition condBody with
       | inl er => fail (EWrap "invalid condition" (EStore er))
       | inr cond => go (Some cond)
       end.
End Delete.
