(* ===== verification/EntitySettle.v ===== *)
(** * The entity service: every request settles its transactions

    A write request begins a transaction, hands it to the engine, which may commit
    it and open others, and ends in a commit, an error or a panic anywhere.  The
    scope's deferred release closes what is left: the invariant is that while the
    scope is live, nothing is open but what was open before and its current
    segment. *)

From stdpp Require Import base gmap strings list.
From S2P Require Import Prelude Spi Schema SchemaAdmit Workflow WorkflowRun WorkflowFire WorkflowFrame WorkflowSample WorkflowSegments MergePatch EntityScope EntityWrite.

(** ** Requests *)

Inductive WriteRequest : Type :=
| WCreate (input : CreateEntityInput)
| WCreateCollection (items : list CollectionItem)
| WUpdate (input : UpdateEntityInput)
| WPatch (input : PatchEntityInput)
| WUpdateCollection (items : list UpdateCollectionItem).
Definition serve {X : Env} {Y : EntityEnv} (e : Engine) (ctx : ECtx) (r : WriteRequest) :
    EM (EntityTransactionResult + UpdateCollectionResult) :=
  match r with
  | WCreate input => x ← CreateEntity e ctx input; mret (inl x)
  | WCreateCollection items => x ← CreateEntityCollection e ctx items; mret (inl x)
  | WUpdate input => x ← UpdateEntity e ctx input; mret (inl x)
  | WPatch input => x ← PatchEntity e ctx input; mret (inl x)
  | WUpdateCollection items => x ← UpdateEntityCollection e ctx items; mret (inr x)
  end.

(** The last commit attempted, and whether it succeeded. *)
Definition commitOf (c : Call) : option (string * bool) :=
  match c with CCommit tx ok => Some (tx, ok) | _ => None end.
Definition lastCommit (t : list Call) : option (string * bool) := last (omap commitOf t).

Section Settle.
Context {X : Env} {Y : EntityEnv} {L : EnvLaws} (e : Engine).
Implicit Types (O : gset string) (t : string) (s : Eng) (sc : txScope).

(** ** Steps that open nothing *)

Definition shr s s' : Prop := openS s' ⊆ openS s.
#[local] Instance shr_preorder : PreOrder shr.
Proof. split; [intros ?|intros ???]; unfold shr; set_solver. Qed.
Lemma quiet_shr {A} (m : EM A) : stable (ext quietCall) m → stable shr m.
Proof. intros Hm s. apply ext_open, Hm. Qed.
Lemma shr_silent (f : Eng → Eng) : (∀ s, es_trace (f s) = es_trace s) → stable shr (modify f : EM unit).
Proof. intros Hf s. unfold shr, openS. simpl. by rewrite Hf. Qed.
Lemma stable_orReturn {S A} (R : relation S) `{!PreOrder R} (m : M eerr S A) f : stable R m → stable R (orReturn m f).
Proof. intros Hm. unfold orReturn. solve_stable. Qed.
#[local] Hint Extern 3 (stable shr _) => apply quiet_shr; solve [auto with stable] : stable.
#[local] Hint Extern 4 (stable _ (orReturn _ _)) => apply stable_orReturn; [apply _|solve_stable] : stable.
#[local] Hint Extern 3 (stable shr (modify _)) => by apply shr_silent : stable.

Lemma shr_log c : (∀ o, openStep o c ⊆ o) → stable shr (logCall c).
Proof. intros Hc s. unfold shr. by rewrite openS_log. Qed.
Lemma shr_acquire t : stable shr (acquire t).
Proof. unfold acquire. case_decide; [solve_stable|by apply shr_log]. Qed.
Lemma shr_ungated t s : shr s (ungated t s).
Proof. unfold ungated. case_decide; [done|]. apply (shr_log (CUngate t)). done. Qed.
Lemma shr_storedEntity ctx id : stable shr (storedEntity ctx id).
Proof. unfold storedEntity. solve_stable. Qed.
Lemma shr_storedModel ctx ref : stable shr (storedModel ctx ref).
Proof. unfold storedModel. solve_stable. Qed.
Lemma shr_lockedModel ctx ref : stable shr (lockedModel ctx ref).
Proof. unfold lockedModel. solve_stable. Qed.
Lemma shr_validateOrExtend ctx d v : stable shr (validateOrExtend ctx d v).
Proof. unfold validateOrExtend, judged. solve_stable. Qed.
Lemma shr_validateStrict d v : stable shr (validateStrict d v).
Proof. unfold validateStrict, judged. solve_stable. Qed.
Lemma shr_checkUniqueKeys d b : stable shr (checkUniqueKeys d b).
Proof. unfold checkUniqueKeys. solve_stable. Qed.
#[local] Hint Resolve shr_acquire shr_storedEntity shr_storedModel shr_lockedModel shr_validateOrExtend
  shr_validateStrict shr_checkUniqueKeys : stable.
Lemma shr_withUniqueKeys ctx d b : stable shr (withUniqueKeys ctx d b).
Proof. unfold withUniqueKeys. solve_stable. Qed.
Lemma shr_parseBody f d : stable shr (parseBody f d).
Proof. unfold parseBody. solve_stable. Qed.
Lemma shr_rejectUnstorable b : stable shr (rejectUnstorable b).
Proof. unfold rejectUnstorable. solve_stable. Qed.
Lemma shr_mergedBody o x v b : stable shr (mergedBody o x v b).
Proof. unfold mergedBody. solve_stable. Qed.
Lemma shr_setTransition n : stable shr (setTransition n).
Proof. unfold setTransition. solve_stable. Qed.
Lemma shr_finishCreation r : stable shr (finishCreation r).
Proof. unfold finishCreation, state, setState, setTransition. solve_stable. Qed.
Lemma shr_abortIfDead ctx : stable shr (abortIfDead ctx).
Proof. unfold abortIfDead, ctxErr. solve_stable. Qed.
Lemma shr_emitTransitionAborted ctx t n x : stable shr (emitTransitionAborted ctx t n x).
Proof. unfold emitTransitionAborted, LookupActualTxID, ent. solve_stable. Qed.
#[local] Hint Resolve shr_withUniqueKeys shr_parseBody shr_rejectUnstorable shr_mergedBody shr_setTransition
  shr_finishCreation shr_abortIfDead shr_emitTransitionAborted : stable.
Lemma shr_saveUpdated ctx t n x b : stable shr (saveUpdated ctx t n x b).
Proof. unfold saveUpdated. solve_stable. Qed.
Lemma shr_saveUpdatedItem ctx t n x b : stable shr (saveUpdatedItem ctx t n x b).
Proof. unfold saveUpdatedItem. solve_stable. Qed.
Lemma stable_mapM {E S A B} (R : relation S) `{!PreOrder R} (f : A → M E S B) l :
  (∀ a, stable R (f a)) → stable R (mapM f l).
Proof. intros Hf. induction l as [|a l IH]; simpl; solve_stable; auto. Qed.
Lemma shr_parseItem ctx it : stable shr (parseItem ctx it).
Proof. unfold parseItem. solve_stable. Qed.
Lemma shr_parseUpdate it : stable shr (parseUpdate it).
Proof. unfold parseUpdate. solve_stable. Qed.
#[local] Hint Resolve shr_saveUpdated shr_saveUpdatedItem shr_parseItem shr_parseUpdate : stable.

(** ** The scope *)
Section Scoped.
Hypothesis Htm : hasTxMgr e = true.
Hypothesis commit_returns : ∀ ctx tx w p w', xCommit ctx tx w ≠ (Panic p, w').
(** The transaction entered with, whether it is the request's own, and what may
    stay open: the owner's transaction of a joined call among it. *)
Context (ow : bool) (t0 : string) (O : gset string) (Hjoined : ow = false → t0 ∈ O).

(** All closed, but for a segment whose commit was the last attempted and failed. *)
Definition settledW s : Prop :=
  openS s ⊆ O ∨ ∃ tx, lastCommit (es_trace s) = Some (tx, false) ∧ owned O tx s.
Definition live sc : Prop := sc_entryTxID sc = t0 ∧ sc_owned sc = ow ∧ sc_txID sc ≠ "" ∧ sc_done sc = false.
Abbreviation here sc := (at_ sc (owned O (sc_txID sc))).
Definition scopePost {A} (_ : outcome eerr A) (sl : Eng * txScope) : Prop :=
  if sc_done sl.2 then settledW sl.1 else live sl.2 ∧ owned O (sc_txID sl.2) sl.1.

Lemma live_post {A} sc (r : outcome eerr A) s : live sc → owned O (sc_txID sc) s → scopePost r (s, sc).
Proof. intros Hl Hs. unfold scopePost. simpl. destruct Hl as (? & ? & ? & Hd). rewrite Hd. done. Qed.

Lemma scope_ret {A} sc (a : A) : live sc → triple (here sc) (mret a) scopePost.
Proof. intros Hl. apply at_ret. intros s. by apply live_post. Qed.
Lemma orReturn_up {A} (m : EM A) g (sl : Eng * txScope) : orReturn (up m) g sl = up (orReturn m g) sl.
Proof.
  destruct sl as [s l]. unfold orReturn. rewrite run_bind. unfold up. rewrite run_bind. unfold try.
  by destruct (m s) as [[]].
Qed.
Lemma triple_ext {E S A} (P : S → Prop) (m m' : M E S A) Q : (∀ x, m x = m' x) → triple P m' Q → triple P m Q.
Proof. intros Hm H x Hx. rewrite Hm. by apply H. Qed.

(** A postcondition under which a failed step is no worse than [scopePost]. *)
Class Admits {B} (Q : outcome eerr B → Eng * txScope → Prop) : Prop := {
  admits_err er sl : scopePost (Err er : outcome eerr B) sl → Q (Err er) sl;
  admits_panic p sl : scopePost (Panic p : outcome eerr B) sl → Q (Panic p) sl
}.
#[local] Instance scopePost_admits {B} : Admits (@scopePost B).
Proof. by split. Qed.

Section Steps.
Context {B : Type} (Q : outcome eerr B → Eng * txScope → Prop) `{!Admits Q}.
Implicit Types (f : unit → SL B).

Lemma scope_fail sc er : live sc → triple (here sc) (fail er : SL B) Q.
Proof. intros Hl. apply at_fail. intros s Hs. by apply admits_err, live_post. Qed.
Lemma scope_step {A} sc (m : EM A) (f : A → SL B) :
  live sc → stable shr m → (∀ a, triple (here sc) (f a) Q) → triple (here sc) (up m ≫= f) Q.
Proof.
  intros Hl Hm Hf.
  apply (at_up _ _ _ (λ _ s, owned O (sc_txID sc) s)); [|done|by intros; (apply admits_err || apply admits_panic); apply live_post..].
  intros s Hs. eapply owned_shrink; [apply Hm|done].
Qed.
Lemma scope_or {A} sc (m : EM A) g (f : A → SL B) :
  live sc → stable shr m → (∀ a, triple (here sc) (f a) Q) → triple (here sc) (orReturn (up m) g ≫= f) Q.
Proof.
  intros Hl Hm Hf. apply (triple_ext _ _ (up (orReturn m g) ≫= f)).
  { intros sl. by rewrite !run_bind, orReturn_up. }
  apply scope_step; [done|solve_stable|done].
Qed.
Lemma scope_guard sc tx tx' f :
  live sc → ((ow = false → tx' = tx) → triple (here sc) (f tt) Q) →
  triple (here sc) (joinedGuard ow tx tx' ≫= f) Q.
Proof.
  intros Hl Hf. unfold joinedGuard. destruct (decide _) as [Hd|Hd].
  - intros sl Hsl. by apply (scope_fail sc _ Hl).
  - intros sl Hsl. apply Hf; [|done]. intros How. apply dec_stable. intros ?. by apply Hd.
Qed.

(** Handing the entity to the engine. *)
Lemma scope_engine sc x ctx d (k : eerr + EngineResult → SL B) :
  live sc → m_TransactionID (Meta x) = sc_txID sc →
  (∀ er, triple (here sc) (k (inl er)) Q) →
  (∀ res, er_FinalTxID res ≠ "" → triple (at_ sc (owned O (er_FinalTxID res))) (k (inr res)) Q) →
  triple (here sc) (up (modify (set_ent x));; r ← try (up (enter e ctx d)); k r) Q.
Proof.
  intros Hl Hx Herr Hret. assert (Hne : sc_txID sc ≠ "") by apply Hl.
  apply (at_up _ _ _ (λ _ s, owned O (sc_txID sc) s ∧ m_TransactionID (Meta (es_ent s)) = sc_txID sc));
    [by intros s Hs|intros []|by intros ?? [? _]; (apply admits_err || apply admits_panic); apply live_post..].
  intros [s l] [Hs Hsc]. simpl in Hs, Hsc. subst l. rewrite run_bind. unfold try, up.
  assert (HE := enter_spec e O ctx d (sc_txID sc) Hne s Hs).
  destruct (enter e ctx d s) as [[res|er|w] s']; simpl in *.
  - destruct HE as (Ho & Hor & _). apply (Hret res); [|done].
    destruct Hor as [Hres|[_ ?]]; [by rewrite Hres|done].
  - by apply (Herr er (s', sc)).
  - by apply admits_panic, live_post.
Qed.
Lemma scope_advance sc ctx tx f :
  live sc → tx ≠ "" →
  (∀ sc', live sc' → sc_txID sc' = tx → triple (here sc') (f tt) Q) →
  triple (at_ sc (owned O tx)) (Advance ctx tx ≫= f) Q.
Proof.
  intros (Ht & How & Hne & Hd) Htx Hf. unfold Advance. rewrite decide_False by done.
  apply triple_assoc, at_getL, at_setL. apply (Hf (mkScope _ _ _ _ _)); [by repeat split|done].
Qed.
Lemma scope_enter sc x ctx d g (k : EngineResult → SL B) :
  live sc → m_TransactionID (Meta x) = sc_txID sc →
  (∀ res sc', live sc' → sc_txID sc' = er_FinalTxID res → triple (here sc') (k res) Q) →
  triple (here sc)
    (up (modify (set_ent x));; res ← orReturn (up (enter e ctx d)) g;
     Advance (er_FinalCtx res) (er_FinalTxID res);; k res) Q.
Proof.
  intros Hl Hx Hk.
  eapply triple_ext; [|apply (scope_engine sc x ctx d
    (λ r, match r with inl er => fail (g er)
          | inr res => Advance (er_FinalCtx res) (er_FinalTxID res);; k res end)); [done..| |]].
  - intros [s l]. rewrite !run_bind. simpl. unfold orReturn. rewrite !run_bind.
    by destruct (try _ _) as [[[]| |] ?].
  - intros er. by apply scope_fail.
  - intros res Hne. apply scope_advance; [done..|]. apply Hk.
Qed.
End Steps.

(** ** Gates, commit, release *)

Lemma triple_finally {E S A} (P : S → Prop) (m : M E S A) g (R Q : outcome E A → S → Prop) :
  triple P m R → (∀ r x, R r x → Q r (g x)) → triple P (finally m g) Q.
Proof. intros Hm Hg x Hx. specialize (Hm x Hx). unfold finally. destruct (m x). by apply Hg. Qed.
Lemma lastCommit_ungated t s : lastCommit (es_trace (ungated t s)) = lastCommit (es_trace s).
Proof.
  unfold ungated. case_decide; [done|]. unfold lastCommit. simpl. rewrite omap_app. simpl. by rewrite app_nil_r.
Qed.
Lemma post_ungated {A} tx (r : outcome eerr A) s l : scopePost r (s, l) → scopePost r (ungated tx s, l).
Proof.
  assert (Hu := shr_ungated tx s). unfold scopePost, settledW. simpl. rewrite lastCommit_ungated.
  destruct (sc_done l).
  - intros [Hs|(c & Hc & Hs)]; [left; unfold shr in Hu; set_solver|right; exists c; split; [done|]; by eapply owned_shrink].
  - intros [Hl Hs]. split; [done|]. by eapply owned_shrink.
Qed.
Lemma scope_gated {A} sc tx (m : SL A) :
  live sc → triple (here sc) m scopePost → triple (here sc) (gatedSection tx m) scopePost.
Proof.
  intros Hl Hm. apply scope_step; [apply _|done|solve_stable|intros []].
  eapply triple_finally; [exact Hm|]. intros r [s l]. apply post_ungated.
Qed.
Lemma scope_final {A} sc tx (m : SL A) :
  live sc → triple (here sc) m scopePost → triple (here sc) (finalSection ow tx m) scopePost.
Proof. intros Hl Hm. unfold finalSection. generalize ow. intros []; [by apply scope_gated|done]. Qed.

(** A gated section that only saves. *)
Lemma stays_up {A} sc (m : EM A) : stable shr m → triple (here sc) (up m) (λ _, here sc).
Proof.
  intros Hm [s l] [Hs Hl]. simpl in Hs, Hl. subst l. specialize (Hm s). unfold up.
  destruct (m s) as [r s']. split; [|done]. by eapply owned_shrink.
Qed.
Lemma stays_or {A} sc (m : EM A) g : stable shr m → triple (here sc) (orReturn (up m) g) (λ _, here sc).
Proof. intros Hm. eapply triple_ext; [apply orReturn_up|]. apply stays_up. solve_stable. Qed.
Lemma stays_final {A} sc tx (m : SL A) :
  triple (here sc) m (λ _, here sc) → triple (here sc) (finalSection ow tx m) (λ _, here sc).
Proof.
  intros Hm. unfold finalSection. generalize ow. intros []; [|done]. unfold gatedSection.
  eapply triple_bind; [apply stays_up, shr_acquire|intros []|done..].
  eapply triple_finally; [exact Hm|]. intros r [s l] [Hs Hl]. split; [|done].
  eapply owned_shrink; [apply shr_ungated|exact Hs].
Qed.
Lemma scope_save {A B} Q `{!Admits Q} sc tx (m : SL A) (f : A → SL B) :
  live sc → triple (here sc) m (λ _, here sc) → (∀ a, triple (here sc) (f a) Q) →
  triple (here sc) (finalSection ow tx m ≫= f) Q.
Proof.
  intros Hl Hm Hf. eapply triple_bind; [by apply stays_final|done|..]; intros ? [s l] [Hs Hsc];
    simpl in Hs, Hsc; subst l; (apply admits_err || apply admits_panic); by apply live_post.
Qed.

Lemma scope_commit sc :
  live sc → (ow = false → sc_txID sc = t0) → triple (here sc) (commitOr409 e) scopePost.
Proof.
  intros Hl Hj. assert (H : triple (here sc) (CommitScope e) scopePost).
  { assert (How : sc_owned sc = ow) by apply Hl. apply at_getL. destruct (sc_owned sc) eqn:Eow.
    - apply triple_assoc, scope_step; [apply _|done|unfold ctxErr; solve_stable|].
      intros [er|]; [intros sl Hsl; by apply (scope_fail scopePost sc)|].
      apply at_setL. intros [s l] [Hs Hsc]. simpl in Hs, Hsc. subst l. unfold commitOwned, up.
      rewrite run_bind. unfold txCommit, try, call. rewrite Htm. rewrite run_bind.
      assert (Hc := commit_returns (WithoutCancel (sc_ctx sc)) (sc_txID sc) (es_w s)).
      destruct (xCommit _ (sc_txID sc) (es_w s)) as [[[]|er|p] w']; [..|by destruct (Hc p w')]; simpl.
      + left. unfold openS. simpl. rewrite openSegs_app. simpl. fold (openS s). unfold owned in Hs. set_solver.
      + rewrite run_bind. unfold ask. simpl. destruct (xCommitInterrupted (WithoutCancel (sc_ctx sc)) w') as [b w2]. right.
        exists (sc_txID sc). simpl.
        split; [unfold lastCommit; rewrite omap_app; apply last_snoc|].
        unfold owned, openS. simpl. rewrite openSegs_app. exact Hs.
    - intros [s l] [Hs Hsc]. simpl in Hs, Hsc. subst l. left. simpl. specialize (Hj (eq_sym How)).
      assert (t0 ∈ O) by auto. unfold owned in Hs. rewrite Hj in Hs. set_solver. }
  intros sl Hsl. specialize (H sl Hsl). unfold commitOr409, orReturn. rewrite run_bind. unfold try.
  by destruct (CommitScope e sl) as [[]].
Qed.
Lemma scope_done {A B} (m : SL A) sc (b : A → B) :
  triple (here sc) m scopePost → triple (here sc) (m ≫= λ a, mret (b a)) scopePost.
Proof. intros Hm. eapply triple_bind; [exact Hm|by intros a sl Hsl..]. Qed.

Lemma release_spec {A} (r : outcome eerr A) sc :
  triple (λ s, scopePost r (s, sc)) (ReleaseScope r sc) (λ _ s, settledW s).
Proof.
  intros s Hs. unfold ReleaseScope, scopePost in *. simpl in Hs. destruct (decide _) as [Hd|Hd].
  - destruct (sc_done sc); [done|]. destruct Hs as [(Ht & How & Hne & _) Hs]. left.
    destruct Hd as [?|[?|[Hf He]]]; [done..|]. assert (sc_txID sc ∈ O) by (rewrite He, Ht; apply Hjoined; congruence).
    change (openS s ⊆ O). unfold owned in Hs. clear -Hs H. set_solver.
  - destruct (sc_done sc); [by destruct Hd; left|]. destruct Hs as [(_ & _ & Hne & _) Hs]. left.
    unfold acquire. rewrite decide_False by done. rewrite run_bind. simpl.
    set (s1 := set_trace _ s). assert (H1 : openS s1 ⊆ openS s) by (apply (shr_log (CAcquire (sc_txID sc))); done).
    assert (Hq : stable shr (try (call (xRollback (WithoutCancel (sc_ctx sc)) (sc_txID sc)));; mret () : EM unit))
      by solve_stable.
    unfold finally. rewrite run_bind. simpl. set (s2 := set_trace _ s1). specialize (Hq s2).
    destruct ((try _ ;; _) s2) as [r' s3]. simpl in *. etrans; [apply shr_ungated|]. etrans; [exact Hq|].
    assert (openS s2 = openS s1 ∖ {[sc_txID sc]}) as ->.
    { unfold s2, openS. simpl. rewrite openSegs_app. done. }
    unfold owned in Hs. set_solver.
Qed.

(** ** The bodies of the requests *)

Lemma create_body sc uc ref bytes :
  live sc → sc_txID sc = t0 → triple (here sc) (createInScope e uc ref bytes sc) scopePost.
Proof.
  intros Hl Ht. assert (How : sc_owned sc = ow) by apply Hl. unfold createInScope. rewrite How.
  apply scope_step; [apply _|done|solve_stable|intros id]. apply scope_step; [apply _|done|solve_stable|intros n].
  apply scope_enter; [apply _|done|unfold newEntity; by destruct (yAttribution _)|]. intros res sc' Hl' Htx.
  apply scope_step; [apply _|done|solve_stable|intros []]. apply at_getL. apply scope_guard; [apply _|done|intros Hj].
  apply scope_or; [apply _|done|solve_stable|intros []].
  apply (scope_done _ _ (λ _, _)), scope_final; [done|]. apply scope_or; [apply _|done|solve_stable|intros []].
  apply scope_commit; [done|]. intros Ho. by rewrite Hj.
Qed.

Lemma update_body sc input opts data bytes :
  live sc → sc_txID sc = t0 → triple (here sc) (updateInScope e input opts data bytes sc) scopePost.
Proof.
  intros Hl Ht. assert (How : sc_owned sc = ow) by apply Hl. unfold updateInScope. rewrite How.
  apply scope_or; [apply _|done|solve_stable|intros []]. apply scope_step; [apply _|done|solve_stable|intros old].
  apply scope_step; [apply _|done|solve_stable|intros desc].
  apply scope_step; [apply _|done|solve_stable|intros [data' bytes']].
  apply scope_step; [apply _|done|solve_stable|intros []]. apply scope_step; [apply _|done|solve_stable|intros kctx].
  apply scope_step; [apply _|done|solve_stable|intros now].
  apply scope_enter; [apply _|done|unfold updatedEntity; by destruct (yAttribution _)|]. intros res sc' Hl' Htx.
  apply scope_step; [apply _|done|solve_stable|intros []]. apply at_getL. apply scope_guard; [apply _|done|intros Hj].
  apply scope_or; [apply _|done|solve_stable|intros []].
  apply (scope_done _ _ (λ _, _)), scope_final; [done|]. apply scope_step; [apply _|done|solve_stable|intros []].
  apply scope_commit; [done|]. intros Ho. by rewrite Hj.
Qed.

(** An item of a batch leaves a live scope behind, at the segment it names. *)
Definition at_segment (tx : string) (sl : Eng * txScope) : Prop :=
  live sl.2 ∧ owned O (sc_txID sl.2) sl.1 ∧ tx = sc_txID sl.2 ∧ (ow = false → tx = t0).
Definition itemPost {A} (c : A → string) (r : outcome eerr A) (sl : Eng * txScope) : Prop :=
  match r with Ret a => at_segment (c a) sl | _ => scopePost r sl end.
#[local] Instance itemPost_admits {A} (c : A → string) : Admits (itemPost c).
Proof. by split. Qed.
Lemma at_segment_all {A} tx (m : SL A) Q :
  (∀ sc, live sc → sc_txID sc = tx → (ow = false → tx = t0) → triple (here sc) m Q) → triple (at_segment tx) m Q.
Proof. intros Hm [s sc] (Hl & Hs & Ht & Hj). by apply (Hm sc). Qed.
Lemma item_ret {A} sc (a : A) (c : A → string) :
  live sc → c a = sc_txID sc → (ow = false → sc_txID sc = t0) → triple (here sc) (mret a) (itemPost c).
Proof. intros Hl Hc Hj. apply at_ret. intros s Hs. split_and!; [done..|]. rewrite Hc. done. Qed.

Lemma createItem_spec ctx tenant now cur id item :
  triple (at_segment cur.2) (createItem e ctx tenant now ow t0 cur id item) (itemPost snd).
Proof.
  apply at_segment_all. intros sc Hl Hc Hj. unfold createItem. destruct cur as [cctx ctx']. simpl in Hc. subst ctx'.
  apply scope_step; [apply _|done|solve_stable|intros []].
  apply scope_enter; [apply _|done|unfold newEntity; by destruct (yAttribution _)|]. intros res sc' Hl' Htx.
  apply at_getL. apply scope_step; [apply _|done|solve_stable|intros []].
  apply scope_guard; [apply _|done|intros Hj'].
  apply scope_save; [apply _|done| |intros []; by apply item_ret].
  apply (triple_bind _ _ _ (λ _, here sc')); [|intros []|done..]; apply stays_or; solve_stable.
Qed.
Lemma createItems_spec ctx tenant now cur items :
  triple (at_segment cur.2) (createItems e ctx tenant now ow t0 cur items) (itemPost snd).
Proof.
  revert cur. induction items as [|[id it] items IH]; intros cur; simpl; [by intros sl Hsl|].
  eapply triple_bind; [apply createItem_spec|intros cur'; apply IH|by intros ?? H..].
Qed.

Lemma updateItem_spec ctx now cur i it :
  triple (at_segment cur.2) (updateItem e ctx now ow t0 cur i it) (itemPost (λ r, r.1.2)).
Proof.
  apply at_segment_all. intros sc Hl Hc Hj. unfold updateItem. destruct it as [item data], cur as [cctx ctx'].
  simpl in Hc, Hj. subst ctx'.
  apply scope_step; [apply _|done|solve_stable|intros []]. apply scope_or; [apply _|done|solve_stable|intros []].
  apply scope_step; [apply _|done|solve_stable|intros old]. apply scope_step; [apply _|done|solve_stable|intros desc].
  apply scope_step; [apply _|done|solve_stable|intros []]. apply scope_step; [apply _|done|solve_stable|intros []].
  apply scope_engine; [apply _|done|unfold updatedEntity; by destruct (yAttribution _)|..].
  - intros er. destruct (isolates _ er); [|by apply scope_fail; [apply _|]].
    apply scope_step; [apply _|done|unfold ent; solve_stable|intros x]. by apply item_ret.
  - intros res Hne. apply scope_advance; [done..|]. intros sc' Hl' Htx. apply at_getL.
    apply scope_step; [apply _|done|solve_stable|intros []]. apply scope_guard; [apply _|done|intros Hj'].
    apply scope_save; [apply _|done|apply stays_up; solve_stable|intros b].
    apply scope_step; [apply _|done|unfold ent; solve_stable|intros x]. by apply item_ret.
Qed.
Lemma updateItems_spec ctx now cur i items :
  triple (at_segment cur.2) (updateItems e ctx now ow t0 cur i items) (itemPost fst).
Proof.
  revert cur i. induction items as [|it items IH]; intros cur i; simpl; [by intros sl Hsl|].
  eapply triple_bind; [apply updateItem_spec| |by intros ?? H..]. intros [[cctx ctx'] r].
  eapply triple_bind; [apply (IH (cctx, ctx'))| |by intros ?? H..]. by intros [tx rs] sl Hsl.
Qed.

(** The end of a batch: commit the segment it stopped at. *)
Lemma batch_end {A} tx (a : A) :
  triple (at_segment tx) (finalSection ow tx (commitOr409 e);; mret a) scopePost.
Proof.
  apply at_segment_all. intros sc Hl Htx Hj. apply (scope_done _ _ (λ _, _)), scope_final; [done|].
  apply scope_commit; [done|]. intros How. rewrite Htx. by apply Hj.
Qed.
Lemma at_entry {A} sc (m : SL A) Q : live sc → sc_txID sc = t0 → triple (at_segment t0) m Q → triple (here sc) m Q.
Proof. intros Hl Ht Hm [s l] [Hs El]. simpl in Hs, El. subst l. apply Hm. by split_and!. Qed.

Lemma createAll_body sc ctx uc parsed :
  live sc → sc_txID sc = t0 → triple (here sc) (createAllInScope e ctx uc parsed sc) scopePost.
Proof.
  intros Hl Ht. assert (How : sc_owned sc = ow) by apply Hl. unfold createAllInScope. rewrite How.
  apply scope_step; [apply _|done|solve_stable|intros now].
  apply scope_step; [apply _|done|apply stable_mapM; [apply _|solve_stable]|intros ids].
  apply at_entry; [done..|]. rewrite Ht.
  eapply triple_bind; [apply (createItems_spec _ _ _ (_, t0))|intros cur; apply batch_end|by intros ?? H..].
Qed.
Lemma updateAll_body sc ctx parsed :
  live sc → sc_txID sc = t0 → triple (here sc) (updateAllInScope e ctx parsed sc) scopePost.
Proof.
  intros Hl Ht. assert (How : sc_owned sc = ow) by apply Hl. unfold updateAllInScope. rewrite How.
  apply scope_step; [apply _|done|solve_stable|intros now]. apply at_entry; [done..|]. rewrite Ht.
  eapply triple_bind; [apply (updateItems_spec _ _ (_, t0))|intros [tx rs]; apply batch_end|by intros ?? H..].
Qed.
End Scoped.

(** ** Whole requests *)
Section Whole.
Hypothesis Htm : hasTxMgr e = true.
Hypothesis commit_returns : ∀ ctx tx w p w', xCommit ctx tx w ≠ (Panic p, w').

(** What may be open when a request with this context has ended. *)
Definition base (ctx : ECtx) O : gset string := match ec_tx ctx with Some t => O ∪ {[t]} | None => O end.

Lemma withScope_spec {A} ctx (body : txScope → SL A) O :
  ec_tx ctx ≠ Some "" →
  (∀ ow t0 O' sc, (ow = false → t0 ∈ O') → live ow t0 sc → sc_txID sc = t0 →
     triple (at_ sc (owned O' (sc_txID sc))) (body sc) (scopePost ow t0 O')) →
  triple (λ s, openS s ⊆ O) (withScope e ctx body) (λ _ s, settledW (base ctx O) s).
Proof.
  intros Hne Hb. unfold withScope, beginOrJoin, base. destruct (ec_tx ctx) as [t|] eqn:Et.
  - intros s Hs. rewrite run_bind. simpl.
    assert (Hj : false = false → t ∈ O ∪ {[t]}) by (intros _; set_solver).
    assert (Hl : live false t (mkScope t ctx t false false)) by (split_and!; simpl; congruence).
    refine (triple_scoped (λ s, openS s ⊆ O) _ _ _ (scopePost false t (O ∪ {[t]}))
              (λ _ s', settledW (O ∪ {[t]}) s') _ _ s Hs).
    + eapply at_conseq; [apply scope_gated; [done..|by apply (Hb false t (O ∪ {[t]}))]|]. intros s'. unfold owned. simpl. set_solver.
    + intros r sc'. eapply triple_conseq; [by apply (release_spec Htm commit_returns false t)|done|by intros []].
  - eapply (triple_bind _ _ _ (λ r s, match r with
      | Ret (t, _, ow) => ow = true ∧ owned O t s ∧ t ≠ "" | _ => openS s ⊆ O end)); [|..|by intros; left].
    + intros s Hs. assert (HB := txBegin_spec e O ctx s Hs). unfold orReturn. rewrite run_bind. unfold try.
      rewrite run_bind. destruct (txBegin e ctx s) as [[[t c]|er|p] s']; simpl in *; [|done..].
      by destruct HB as [? [??]].
    + intros [[t tctx] ow] s (-> & Hs & Ht).
      assert (Hl : live true t (mkScope t tctx t true false)) by done.
      refine (triple_scoped (owned O t) _ _ _ (scopePost true t O) (λ _ s', settledW O s') _ _ s Hs).
      * by apply (Hb true t O (mkScope t tctx t true false)).
      * intros r sc'. eapply triple_conseq; [by apply (release_spec Htm commit_returns true t O)|done|by intros []].
    + by intros; left.
Qed.

Lemma before_scope {A B} ctx (m : EM A) (f : A → EM B) O :
  stable shr m → (∀ a, triple (λ s, openS s ⊆ O) (f a) (λ _ s, settledW (base ctx O) s)) →
  triple (λ s, openS s ⊆ O) (m ≫= f) (λ _ s, settledW (base ctx O) s).
Proof.
  intros Hm Hf. assert (Hb : O ⊆ base ctx O) by (unfold base; destruct (ec_tx ctx); set_solver).
  apply (triple_bind _ _ _ (λ _ s, openS s ⊆ O)); [|done|by intros; left; etrans..].
  intros s Hs. specialize (Hm s). unfold shr in Hm. set_solver.
Qed.
Lemma refused {A} ctx er O : triple (λ s, openS s ⊆ O) (fail er : EM A) (λ _ s, settledW (base ctx O) s).
Proof. intros s Hs. left. unfold base. destruct (ec_tx ctx); simpl; set_solver. Qed.

Lemma with_keys {A} ctx desc bytes (f : ECtx → EM A) O :
  (∀ k, ec_tx k = ec_tx ctx → triple (λ s, openS s ⊆ O) (f k) (λ _ s, settledW (base ctx O) s)) →
  triple (λ s, openS s ⊆ O) (withUniqueKeys ctx desc bytes ≫= f) (λ _ s, settledW (base ctx O) s).
Proof.
  intros Hf. unfold withUniqueKeys. case_decide; [by apply (Hf ctx)|].
  apply triple_assoc, before_scope; [solve_stable|intros []]. by apply (Hf (WithUniqueKeys ctx _)).
Qed.

Lemma create_spec ctx input O :
  ec_tx ctx ≠ Some "" →
  triple (λ s, openS s ⊆ O) (CreateEntity e ctx input) (λ _ s, settledW (base ctx O) s).
Proof.
  intros Hne. unfold CreateEntity.
  apply before_scope; [unfold mustGetUserContext; solve_stable|intros uc]. apply before_scope; [solve_stable|intros []].
  apply before_scope; [solve_stable|intros desc]. apply before_scope; [solve_stable|intros [data bytes]].
  apply before_scope; [solve_stable|intros []]. apply before_scope; [solve_stable|intros []].
  apply with_keys. intros k Hk. replace (base ctx O) with (base k O) by (unfold base; by rewrite Hk).
  apply withScope_spec; [by rewrite Hk|]. intros. by apply create_body.
Qed.
Lemma createCollection_spec ctx items O :
  ec_tx ctx ≠ Some "" →
  triple (λ s, openS s ⊆ O) (CreateEntityCollection e ctx items) (λ _ s, settledW (base ctx O) s).
Proof.
  intros Hne. unfold CreateEntityCollection.
  apply before_scope; [unfold mustGetUserContext; solve_stable|intros uc]. apply before_scope; [solve_stable|intros []].
  apply before_scope; [apply stable_mapM; [apply _|solve_stable]|intros parsed].
  apply withScope_spec; [done|]. intros. by apply createAll_body.
Qed.
Lemma update_spec ctx input opts O :
  ec_tx ctx ≠ Some "" →
  triple (λ s, openS s ⊆ O) (updateEntityCore e ctx input opts) (λ _ s, settledW (base ctx O) s).
Proof.
  intros Hne. unfold updateEntityCore. apply before_scope; [solve_stable|intros []].
  apply before_scope; [solve_stable|intros [data bytes]]. apply before_scope; [solve_stable|intros []].
  apply withScope_spec; [done|]. intros. by apply update_body.
Qed.
Lemma updateCollection_spec ctx items O :
  ec_tx ctx ≠ Some "" →
  triple (λ s, openS s ⊆ O) (UpdateEntityCollection e ctx items) (λ _ s, settledW (base ctx O) s).
Proof.
  intros Hne. unfold UpdateEntityCollection. case_decide; [apply refused|].
  apply before_scope; [solve_stable|intros []].
  apply before_scope; [apply stable_mapM; [apply _|solve_stable]|intros parsed].
  apply withScope_spec; [done|]. intros. by apply updateAll_body.
Qed.

(** C5. A write request settles its transactions: whatever is requested (creating,
    replacing or patching an entity, or a collection) and however it ends, in an
    answer, in an error of any step, or in a panic of a store, the audit trail or a
    compute node, every transaction begun for it, by the service or by the engine's
    segments, has been committed or rolled back.  A request inside a transaction of
    its caller leaves open at most that transaction.  The one exception is a
    commit that failed as the last one attempted. *)
Theorem write_settles ctx r s :
  ec_tx ctx ≠ Some "" →
  let '(_, s') := serve e ctx r s in
  let kept := match ec_tx ctx with Some t => openS s ∪ {[t]} | None => openS s end in
  openS s' ⊆ kept ∨
  ∃ tx, lastCommit (es_trace s') = Some (tx, false) ∧ openS s' ⊆ kept ∪ {[tx]}.
Proof.
  intros Hne.
  assert (H : triple (λ s', openS s' ⊆ openS s) (serve e ctx r) (λ _ s', settledW (base ctx (openS s)) s'));
    [|by specialize (H s (reflexivity _)); destruct (serve e ctx r s)].
  assert (Hret : ∀ A B (m : EM A) (f : A → B),
    triple (λ s', openS s' ⊆ openS s) m (λ _ s', settledW (base ctx (openS s)) s') →
    triple (λ s', openS s' ⊆ openS s) (a ← m; mret (f a)) (λ _ s', settledW (base ctx (openS s)) s')).
  { intros A B m f Hm. eapply triple_bind; [exact Hm|by intros ? ? Hs..]. }
  destruct r as [input|items|input|input|items]; apply Hret;
    [by apply create_spec|by apply createCollection_spec|by apply update_spec| |by apply updateCollection_spec].
  unfold PatchEntity. repeat case_decide; try apply refused; by apply update_spec.
Qed.
End Whole.
End Settle.
