(* ===== verification/EntityGates.v ===== *)
(** * The entity service: the discipline of the transaction gates

    The gate of a transaction is a mutex that does not nest, taken around the last
    section of an owned request and around the whole body of a joined one.  Read
    off the trace: no request takes a gate it holds, every gate is freed on every
    path, and the engine dispatches to a compute node while the request holds no
    gate but the joined transaction's own, which the engine suspends. *)

From stdpp Require Import base gmap strings list.
From S2P Require Import Prelude Spi Schema SchemaAdmit Workflow WorkflowRun WorkflowFire WorkflowFrame WorkflowSample WorkflowSegments MergePatch EntityScope EntityWrite EntitySettle.

(** ** The calls of the engine *)

(** The engine itself takes no gate and deletes no entity. *)
Definition engineCall (c : Call) : Prop :=
  match c with CAcquire _ | CUngate _ | CDelete _ _ _ | CDeleteAll _ _ _ => False | _ => True end.

Section Adds.
Context {X : Env}.

(** From [s] to [s'] every call made is in [K]. *)
Definition adds (K : Call → Prop) (s s' : Eng) : Prop := ∃ t, es_trace s' = es_trace s ++ t ∧ Forall K t.
#[export] Instance adds_preorder K : PreOrder (adds K).
Proof.
  split.
  - intros s. exists []. by rewrite app_nil_r.
  - intros s1 s2 s3 (t1 & E1 & F1) (t2 & E2 & F2). exists (t1 ++ t2). rewrite E2, E1, app_assoc.
    split; [done|]. by apply Forall_app.
Qed.
Lemma adds_call {A} K (m : M err W A) : stable (adds K) (call m : EM A).
Proof. intros s. unfold call. destruct (m (es_w s)) as [[] w]; exists []; by rewrite app_nil_r. Qed.
Lemma adds_ask {A} K (f : W → A * W) : stable (adds K) (ask f : EM A).
Proof. intros s. unfold ask. destruct (f (es_w s)). exists []. by rewrite app_nil_r. Qed.
Lemma adds_log (K : Call → Prop) c : K c → stable (adds K) (logCall c).
Proof. intros Hc s. exists [c]. auto. Qed.
Lemma adds_silent K (f : Eng → Eng) : (∀ s, es_trace (f s) = es_trace s) → stable (adds K) (modify f : EM unit).
Proof. intros Hf s. exists []. rewrite app_nil_r. split; [apply Hf|done]. Qed.
#[local] Hint Resolve adds_call adds_ask : stable.
#[local] Hint Extern 2 (stable (adds _) (modify _)) => by apply adds_silent : stable.
#[local] Hint Extern 2 (stable (adds _) (logCall _)) => by apply adds_log : stable.
Local Notation engine m := (stable (adds engineCall) m).
Local Notation engineL m := (stable (onState (adds engineCall)) m).

Lemma adds_recordEvent ctx tx st ty ds d : engine (recordEvent ctx tx st ty ds d).
Proof. unfold recordEvent, ent. solve_stable. Qed.
Lemma adds_saveEntity ctx : engine (saveEntity ctx).
Proof. unfold saveEntity, ent. solve_stable. Qed.
Lemma adds_compareAndSave ctx x : engine (compareAndSave ctx x).
Proof. unfold compareAndSave, ent. solve_stable. Qed.
Lemma adds_rollbackSegment e ctx o t : engine (rollbackSegment e ctx o t).
Proof. unfold rollbackSegment. solve_stable. Qed.
Lemma adds_txCommit e ctx tx : engine (txCommit e ctx tx).
Proof. unfold txCommit. solve_stable. Qed.
Lemma adds_txBegin e ctx : engine (txBegin e ctx).
Proof. unfold txBegin. solve_stable. Qed.
#[local] Hint Resolve adds_recordEvent adds_saveEntity adds_compareAndSave adds_rollbackSegment adds_txCommit
  adds_txBegin : stable.
Lemma adds_evaluateCriterion e c cc : engine (evaluateCriterion e c cc).
Proof. unfold evaluateCriterion, criterionTyping, ent. solve_stable. Qed.
Lemma adds_applyProcessorData ctx d : engine (applyProcessorData ctx d).
Proof. unfold applyProcessorData, memoGet, ent. solve_stable. Qed.
Lemma adds_dispatch ctx proc w t tx : engine (dispatch ctx proc w t tx).
Proof. unfold dispatch, ent. solve_stable. Qed.
#[local] Hint Resolve adds_evaluateCriterion adds_applyProcessorData adds_dispatch : stable.
Lemma adds_executeSyncProcessor e ctx proc w t tx : engine (executeSyncProcessor e ctx proc w t tx).
Proof. unfold executeSyncProcessor. solve_stable. Qed.
Lemma adds_executeAsyncNewTx e ctx proc w t tx : engine (executeAsyncNewTx e ctx proc w t tx).
Proof. unfold executeAsyncNewTx. solve_stable. Qed.
Lemma adds_flush e ctx tx x b : engine (flushAndCommitSegment e ctx tx x b).
Proof. unfold flushAndCommitSegment, ShieldedCommit, ctxErr. solve_stable. Qed.
Lemma adds_beginSegment e ctx : engine (beginSegment e ctx).
Proof. unfold beginSegment. solve_stable. Qed.
Lemma adds_recordAbort ctx t n x : engine (recordAbortForIfMatchConflict ctx t n x).
Proof. unfold recordAbortForIfMatchConflict, LookupActualTxID, ent. solve_stable. Qed.
Lemma adds_applyDispatched ctx t p : engine (applyDispatched ctx t p).
Proof. unfold applyDispatched. solve_stable. Qed.
#[local] Hint Resolve adds_executeSyncProcessor adds_executeAsyncNewTx adds_flush adds_beginSegment adds_recordAbort
  adds_applyDispatched : stable.
Lemma adds_commitAndDispatch e ctx proc w t tx en : engineL (commitAndDispatch e ctx proc w t tx en).
Proof. unfold commitAndDispatch, commitAndBeginNextSegment, consumeIfMatch. solve_stable. Qed.
#[local] Hint Resolve adds_commitAndDispatch : stable.
Lemma adds_runProcessor e proc w t en : engineL (runProcessor e proc w t en).
Proof. unfold runProcessor, executeCommitBeforeDispatch. solve_stable. Qed.
#[local] Hint Resolve adds_runProcessor : stable.
Lemma adds_runProcessors e procs w t en : engineL (runProcessors e procs w t en).
Proof. induction procs as [|p procs IH]; simpl; unfold state; solve_stable. Qed.
#[local] Hint Resolve adds_runProcessors : stable.
Lemma adds_executeProcessors e ctx procs w t tx : engine (executeProcessors e ctx procs w t tx).
Proof. unfold executeProcessors, panicGuard, state. solve_stable. Qed.
#[local] Hint Resolve adds_executeProcessors : stable.
Lemma adds_evaluateTransition e ctx wf tr tx : engine (evaluateTransition e ctx wf tr tx).
Proof. unfold evaluateTransition. solve_stable. Qed.
Lemma adds_makeTransition ctx tr tx : engine (makeTransition ctx tr tx).
Proof. unfold makeTransition, state, setState. solve_stable. Qed.
Lemma adds_processorsFailed ctx tr tx : engine (processorsFailed ctx tr tx).
Proof. unfold processorsFailed, state. solve_stable. Qed.
#[local] Hint Resolve adds_evaluateTransition adds_makeTransition adds_processorsFailed : stable.
Lemma adds_attemptTransition e ctx wf n tx : engine (attemptTransition e ctx wf n tx).
Proof. unfold attemptTransition, fireTransition, panicGuard, state. solve_stable. Qed.
Lemma adds_cascadePass e wf a trs : engineL (cascadePass e wf a trs).
Proof. induction trs as [|tr trs IH]; simpl; unfold state; solve_stable. Qed.
#[local] Hint Resolve adds_attemptTransition adds_cascadePass : stable.
Lemma adds_cascadeLoop e wf a d v : engineL (cascadeLoop e wf a d v).
Proof. revert v. induction d as [|d IH]; intros v; simpl; unfold state, ctxErr; solve_stable. Qed.
#[local] Hint Resolve adds_cascadeLoop : stable.
Lemma adds_cascadeAutomated e ctx wf tx : engine (cascadeAutomated e ctx wf tx).
Proof. unfold cascadeAutomated, panicGuard. solve_stable. Qed.
Lemma adds_armState e ctx wf ms tx trs : engine (armState e ctx wf ms tx trs).
Proof. induction trs as [|tr trs IH]; simpl; unfold armViaFunction, ent; solve_stable. Qed.
#[local] Hint Resolve adds_cascadeAutomated adds_armState : stable.
Lemma adds_reconcile e ctx wf tx x : engine (reconcileScheduledTasks e ctx wf tx x).
Proof. unfold reconcileScheduledTasks, ent. solve_stable. Qed.
Lemma adds_selectAmong e ctx a tx wfs : engine (selectAmong e ctx a tx wfs).
Proof. induction wfs as [|wf wfs IH]; simpl; unfold state, auditing; solve_stable. Qed.
#[local] Hint Resolve adds_reconcile adds_selectAmong : stable.
Lemma adds_resolveWorkflow e ctx tx : engine (resolveWorkflow e ctx tx).
Proof. unfold resolveWorkflow, resolveWorkflowWith, selectWorkflow, state, auditing, ent. solve_stable. Qed.
#[local] Hint Resolve adds_resolveWorkflow : stable.
Lemma adds_settle e wf tx f : engineL (settle e wf tx f).
Proof. unfold settle, advance, state. solve_stable. Qed.
#[local] Hint Resolve adds_settle : stable.
Lemma adds_enter e ctx d : engine (enter e ctx d).
Proof.
  destruct d; simpl; unfold ManualTransitionWithIfMatch, LoopbackWithIfMatch, withIfMatch, Execute, ManualTransition,
    Loopback, openAudit, resolveAuditTxID, setState, advance, entryGuard, state, ent; solve_stable.
Qed.
End Adds.

(** ** Reading the gates off a trace *)

(** [None]: a gate taken while held, freed while not held, or a dispatch while
    holding a gate outside [J]. *)
Definition gateStep (J : gset string) (held : option (gset string)) (c : Call) : option (gset string) :=
  match held with
  | None => None
  | Some h =>
      match c with
      | CAcquire t => if decide (t ∈ h) then None else Some (h ∪ {[t]})
      | CUngate t => if decide (t ∈ h) then Some (h ∖ {[t]}) else None
      | CDispatch _ _ => if decide (h ⊆ J) then Some h else None
      | _ => Some h
      end
  end.
Definition gateRun (J h : gset string) (t : list Call) : option (gset string) := foldl (gateStep J) (Some h) t.

Section Gates.
Context {X : Env} {Y : EntityEnv} (e : Engine).
Implicit Types (J h : gset string).

(** The calls from [s] to [s'] take and free gates in pairs, starting with [h] held. *)
Definition gates J h (s s' : Eng) : Prop :=
  ∃ t, es_trace s' = es_trace s ++ t ∧ gateRun J h t = Some h.
#[local] Instance gates_preorder J h : PreOrder (gates J h).
Proof.
  split.
  - intros s. exists []. by rewrite app_nil_r.
  - intros s1 s2 s3 (t1 & E1 & F1) (t2 & E2 & F2). exists (t1 ++ t2). rewrite E2, E1, app_assoc.
    split; [done|]. unfold gateRun in *. by rewrite foldl_app, F1.
Qed.

(** A call that touches no gate, and no compute node unless the engine may. *)
Definition calm (c : Call) : Prop := match c with CAcquire _ | CUngate _ | CDispatch _ _ => False | _ => True end.
Lemma gates_calls J h (K : Call → Prop) s s' :
  (∀ c, K c → gateStep J (Some h) c = Some h) → adds K s s' → gates J h s s'.
Proof.
  intros HK (t & E & F). exists t. split; [done|]. unfold gateRun. clear E.
  induction F as [|c t Hc F IH]; simpl; [done|].
  change (foldl (gateStep J) (gateStep J (Some h) c) t = Some h). by rewrite HK.
Qed.
Lemma gates_engine {A} J h (m : EM A) : h ⊆ J → stable (adds engineCall) m → stable (gates J h) m.
Proof.
  intros Hh Hm s. apply (gates_calls _ _ engineCall); [|apply Hm]. intros [] ?; try done. simpl. by rewrite decide_True.
Qed.
Lemma gates_calm {A} J h (m : EM A) : stable (adds calm) m → stable (gates J h) m.
Proof. intros Hm s. apply (gates_calls _ _ calm); [|apply Hm]. by intros []. Qed.

(** A gated section, entered without the gate. *)
Definition gateHeld (t : string) h : gset string := if decide (t = "") then h else h ∪ {[t]}.
Lemma gates_wrap J h t s s' :
  t ∉ h → gates J (gateHeld t h) (acquire t s).2 s' → gates J h s (ungated t s').
Proof.
  intros Ht. unfold gateHeld, acquire, ungated. destruct (decide (t = "")) as [Hd|Hd]; [done|].
  intros (tr & E & F). exists (CAcquire t :: tr ++ [CUngate t]). simpl in *. rewrite E.
  split; [by rewrite <- !app_assoc|]. unfold gateRun in *. simpl. rewrite decide_False by done.
  rewrite foldl_app, F. simpl. rewrite decide_True by set_solver. f_equal. set_solver.
Qed.
Lemma acquire_Ret t s : (acquire t s).1 = Ret tt.
Proof. unfold acquire. by case_decide. Qed.
Lemma gates_section {A L} J h t (m : M eerr (Eng * L) A) :
  t ∉ h → stable (onState (gates J (gateHeld t h))) m →
  stable (onState (gates J h)) (up (acquire t);; finally m (λ '(s, l), (ungated t s, l))).
Proof.
  intros Ht Hm [s l]. rewrite run_bind. unfold up, finally. assert (Hr := acquire_Ret t s).
  assert (Hw := gates_wrap J h t s). destruct (acquire t s) as [r s1]. simpl in Hr, Hw. subst r.
  specialize (Hm (s1, l)). destruct (m (s1, l)) as [r [s' l']]. unfold onState in *. simpl in *. by apply Hw.
Qed.
Lemma gates_release {A} J (r : outcome eerr A) sc : stable (gates J ∅) (ReleaseScope r sc).
Proof.
  intros s. unfold ReleaseScope. case_decide; [reflexivity|]. rewrite run_bind. unfold finally.
  assert (Hr := acquire_Ret (sc_txID sc) s). assert (Hw := gates_wrap J ∅ (sc_txID sc) s).
  destruct (acquire (sc_txID sc) s) as [o s1]. simpl in Hr, Hw. subst o.
  set (m := (logCall (CRollback (sc_txID sc));; _) : EM unit).
  assert (Hm : stable (adds calm) m).
  { unfold m. apply stable_bind; [apply _|by apply adds_log|intros []].
    apply stable_bind; [apply _|apply stable_try, adds_call|intros ?; apply stable_ret, _]. }
  specialize (Hm s1). destruct (m s1) as [o s']. simpl in *. apply Hw; [set_solver|].
  apply (gates_calls _ _ calm); [by intros []|done].
Qed.

(** ** The steps of the service *)

#[local] Hint Resolve adds_call adds_ask : stable.
#[local] Hint Extern 2 (stable (adds _) (modify _)) => by apply adds_silent : stable.
#[local] Hint Extern 2 (stable (adds _) (logCall _)) => by apply adds_log : stable.
#[local] Hint Extern 4 (stable _ (orReturn _ _)) => apply stable_orReturn; [apply _|solve_stable] : stable.
Local Notation calmly m := (stable (adds calm) m).
Lemma calm_recordEvent ctx tx st ty ds d : calmly (recordEvent ctx tx st ty ds d).
Proof. unfold recordEvent, ent. solve_stable. Qed.
Lemma calm_saveEntity ctx : calmly (saveEntity ctx).
Proof. unfold saveEntity, ent. solve_stable. Qed.
Lemma calm_compareAndSave ctx x : calmly (compareAndSave ctx x).
Proof. unfold compareAndSave, ent. solve_stable. Qed.
Lemma calm_commitOwned ctx tx b : calmly (commitOwned e ctx tx b).
Proof. unfold commitOwned, txCommit. solve_stable. Qed.
Lemma calm_txBegin ctx : calmly (txBegin e ctx).
Proof. unfold txBegin. solve_stable. Qed.
Lemma calm_validateOrExtend ctx d v : calmly (validateOrExtend ctx d v).
Proof. unfold validateOrExtend, judged. solve_stable. Qed.
Lemma calm_lockedModel ctx ref : calmly (lockedModel ctx ref).
Proof. unfold lockedModel. solve_stable. Qed.
Lemma calm_storedEntity ctx id : calmly (storedEntity ctx id).
Proof. unfold storedEntity. solve_stable. Qed.
Lemma calm_storedModel ctx ref : calmly (storedModel ctx ref).
Proof. unfold storedModel. solve_stable. Qed.
Lemma calm_checkUniqueKeys d b : calmly (checkUniqueKeys d b).
Proof. unfold checkUniqueKeys. solve_stable. Qed.
#[local] Hint Resolve calm_recordEvent calm_saveEntity calm_compareAndSave calm_commitOwned calm_txBegin
  calm_validateOrExtend calm_lockedModel calm_storedEntity calm_storedModel calm_checkUniqueKeys : stable.
Lemma calm_withUniqueKeys ctx d b : calmly (withUniqueKeys ctx d b).
Proof. unfold withUniqueKeys. solve_stable. Qed.
Lemma calm_parseBody f d : calmly (parseBody f d).
Proof. unfold parseBody. solve_stable. Qed.
Lemma calm_rejectUnstorable b : calmly (rejectUnstorable b).
Proof. unfold rejectUnstorable. solve_stable. Qed.
Lemma calm_emitTransitionAborted ctx t n x : calmly (emitTransitionAborted ctx t n x).
Proof. unfold emitTransitionAborted, LookupActualTxID, ent. solve_stable. Qed.
#[local] Hint Resolve calm_withUniqueKeys calm_parseBody calm_rejectUnstorable calm_emitTransitionAborted : stable.
#[local] Hint Extern 3 (stable (gates _ _) ?m) =>
  lazymatch m with mbind _ _ => fail | _ => apply gates_calm; solve [solve_stable] end : stable.

(** ** The bodies *)
Section Bodies.
Context (J h : gset string) (Hh : h ⊆ J).
Local Notation paired m := (stable (onState (gates J h)) m).

Lemma gates_enter ctx d : stable (gates J h) (enter e ctx d).
Proof. apply gates_engine; [done|apply adds_enter]. Qed.
#[local] Hint Resolve gates_enter : stable.
Lemma gates_final {A} ow t (m : SL A) :
  (ow = true → h = ∅) → (∀ h', stable (onState (gates J h')) m) → paired (finalSection ow t m).
Proof.
  intros How Hm. unfold finalSection. destruct ow; [|apply Hm]. apply gates_section; [|apply Hm].
  rewrite How by done. set_solver.
Qed.
Lemma gates_commit h' : stable (onState (gates J h')) (commitOr409 e).
Proof. unfold commitOr409, CommitScope, ctxErr. solve_stable. Qed.
#[local] Hint Resolve gates_commit : stable.
Lemma gates_advance ctx t : paired (Advance ctx t).
Proof. unfold Advance. solve_stable. Qed.
Lemma gates_guard b t t' : paired (joinedGuard b t t').
Proof. unfold joinedGuard. solve_stable. Qed.
Lemma gates_finishCreation r : stable (gates J h) (finishCreation r).
Proof. unfold finishCreation, state, setState, setTransition. solve_stable. Qed.
#[local] Hint Resolve gates_advance gates_guard gates_finishCreation : stable.

Lemma gates_create uc ref b sc : (sc_owned sc = true → h = ∅) → paired (createInScope e uc ref b sc).
Proof.
  intros How. unfold createInScope. solve_stable. apply gates_final; [done|]. intros h'. solve_stable.
Qed.
Lemma gates_update input opts v b sc : (sc_owned sc = true → h = ∅) → paired (updateInScope e input opts v b sc).
Proof.
  intros How. unfold updateInScope, mergedBody, validateStrict, judged, setTransition. solve_stable.
  apply gates_final; [done|]. intros h'. unfold saveUpdated. solve_stable.
Qed.
Lemma gates_createItems ctx tn now ow t cur items :
  (ow = true → h = ∅) → paired (createItems e ctx tn now ow t cur items).
Proof.
  intros How. revert cur. induction items as [|[id it] items IH]; intros cur; simpl; [solve_stable|].
  apply stable_bind; [apply _| |auto]. unfold createItem, abortIfDead, ctxErr. solve_stable.
  apply gates_final; [done|]. intros h'. solve_stable.
Qed.
Lemma gates_updateItems ctx now ow t cur i items :
  (ow = true → h = ∅) → paired (updateItems e ctx now ow t cur i items).
Proof.
  intros How. revert cur i. induction items as [|it items IH]; intros cur i; simpl; [solve_stable|].
  apply stable_bind; [apply _| |intros [[]]; solve_stable; auto].
  unfold updateItem, abortIfDead, ctxErr, setTransition, ent. solve_stable.
  apply gates_final; [done|]. intros h'. unfold saveUpdatedItem. solve_stable.
Qed.
#[local] Hint Resolve gates_createItems gates_updateItems : stable.
Lemma gates_createAll ctx uc ps sc : (sc_owned sc = true → h = ∅) → paired (createAllInScope e ctx uc ps sc).
Proof.
  intros How. unfold createAllInScope. solve_stable; [|apply gates_final; [done|solve_stable]].
  apply gates_calm, stable_mapM; [apply _|solve_stable].
Qed.
Lemma gates_updateAll ctx ps sc : (sc_owned sc = true → h = ∅) → paired (updateAllInScope e ctx ps sc).
Proof. intros How. unfold updateAllInScope. solve_stable. apply gates_final; [done|solve_stable]. Qed.
End Bodies.

(** The gate a request inside its caller's transaction holds throughout. *)
Definition joinedGates (ctx : ECtx) : gset string := match ec_tx ctx with Some t => {[t]} | None => ∅ end.

Lemma gates_withScope {A} ctx J (body : txScope → SL A) :
  joinedGates ctx = J →
  (∀ h sc, h ⊆ J → (sc_owned sc = true → h = ∅) → stable (onState (gates J h)) (body sc)) →
  stable (gates J ∅) (withScope e ctx body).
Proof.
  intros HJ Hb s. unfold withScope, beginOrJoin. unfold joinedGates in HJ. destruct (ec_tx ctx) as [t|].
  - refine (stable_scoped (gates J ∅) _ _ _ _ _ s); [|intros; apply gates_release].
    apply gates_section; [set_solver|]. apply Hb; [|done]. unfold gateHeld. case_decide; set_solver.
  - assert (HB := calm_txBegin ctx s). rewrite run_bind. unfold orReturn. rewrite run_bind. unfold try.
    rewrite run_bind. apply (gates_calls J ∅ calm) in HB; [|by intros []].
    destruct (txBegin e ctx s) as [[[t c]|er|p] s1]; [|exact HB..]. etrans; [exact HB|].
    refine (stable_scoped (gates J ∅) _ _ _ _ _ s1); [apply Hb; set_solver|intros; apply gates_release].
Qed.

Lemma gates_withKeys {A} J h ctx d b (f : ECtx → EM A) :
  (∀ k, ec_tx k = ec_tx ctx → stable (gates J h) (f k)) → stable (gates J h) (withUniqueKeys ctx d b ≫= f).
Proof.
  intros Hf. unfold withUniqueKeys. case_decide; [by apply (Hf ctx)|]. intros s. rewrite bind_bind. revert s.
  apply (stable_bind (gates J h)); [solve_stable|intros []]. by apply (Hf (WithUniqueKeys ctx _)).
Qed.
#[local] Hint Extern 1 (stable _ (withUniqueKeys _ _ _ ≫= _)) =>
  apply gates_withKeys; intros ? Hk; apply gates_withScope;
    [unfold joinedGates; by rewrite Hk|intros; by apply gates_create] : stable.
#[local] Hint Extern 1 (stable _ (withScope _ _ _)) =>
  apply gates_withScope; [done|intros; by (apply gates_create || apply gates_createAll || apply gates_update || apply gates_updateAll)] : stable.

End Gates.
