(* ===== verification/EntityIfMatch.v ===== *)
(** * The entity service: the If-Match precondition

    A conditional update hands the token of the caller's last read to the engine,
    in a cell on the context: the first segment that commits compares it; when no
    segment does, the service compares it itself.  Read off the trace: nothing is
    committed before the token was compared, on any path through the engine. *)

From stdpp Require Import base gmap strings list.
From S2P Require Import Prelude Spi Schema SchemaAdmit Workflow WorkflowRun WorkflowFire WorkflowFrame WorkflowSample WorkflowSegments MergePatch EntityScope EntityWrite EntitySettle EntityGates.

(** Whether [x] was compared so far; [None]: something was committed before. *)
Definition casStep (x : string) (b : option bool) (c : Call) : option bool :=
  match b with
  | None => None
  | Some compared =>
      match c with
      | CCompareAndSave _ _ y true => Some (compared || bool_decide (y = x))
      | CCommit _ true => if compared then Some true else None
      | _ => Some compared
      end
  end.
Definition casRun (x : string) (t : list Call) : option bool := foldl (casStep x) (Some false) t.

Section IfMatch.
Context {X : Env} {Y : EntityEnv} (e : Engine).
Context (x : string) (Hx : x ≠ "") (T0 : list Call).
Implicit Types (s : Eng) (n : nat) (t c : string).

Definition compared (b : bool) s : Prop := ∃ calls, es_trace s = T0 ++ calls ∧ casRun x calls = Some b.
(** Nothing was committed without the comparison. *)
Definition sound s : Prop := ∃ b, compared b s.
(** In a frame whose cursor is [ctx], [c], entered with segment [t]: the token was
    compared, or it waits in the context's cell [n] and no segment was opened. *)
Definition waiting n t (ctx : ECtx) c s : Prop :=
  compared true s ∨ compared false s ∧ es_slots s !! n = Some x ∧ ec_slot ctx = Some n ∧ c = t.

Lemma waiting_sound n t ctx c s : waiting n t ctx c s → sound s.
Proof. intros [?|[? _]]; by eexists. Qed.

(** ** Steps that commit nothing and leave the cells alone *)

Definition uncommitting (c : Call) : Prop := match c with CCommit _ true => False | _ => True end.
Definition still s s' : Prop := es_slots s' = es_slots s ∧ adds uncommitting s s'.
#[local] Instance still_preorder : PreOrder still.
Proof.
  split; [intros s; split; [done|reflexivity]|].
  intros s1 s2 s3 [H1 A1] [H2 A2]. split; [congruence|by etrans].
Qed.
Lemma casRun_app (l l' : list Call) : casRun x (l ++ l') = foldl (casStep x) (casRun x l) l'.
Proof. apply foldl_app. Qed.
Lemma cas_uncommitting b (l : list Call) :
  Forall uncommitting l → ∃ b', foldl (casStep x) (Some b) l = Some b' ∧ (b = true → b' = true).
Proof.
  intros F. revert b. induction F as [|k l Hk F IH]; intros b; simpl; [eauto|].
  destruct k as [| |? []| | |? ? ? []| | | | | | |]; simpl in *; try done; try apply IH.
  destruct (IH (b || bool_decide (expected = x))) as (b' & Hb & Ht). exists b'. split; [done|].
  intros ->. by apply Ht.
Qed.
Lemma still_compared b s s' : still s s' → compared b s → ∃ b', compared b' s' ∧ (b = true → b' = true).
Proof.
  intros [_ (t & E & F)] (calls & E0 & Hc). destruct (cas_uncommitting b t F) as (b' & Hb & Ht).
  exists b'. split; [|done]. exists (calls ++ t). rewrite E, E0, app_assoc. split; [done|]. by rewrite casRun_app, Hc.
Qed.
Lemma still_sound s s' : still s s' → sound s → sound s'.
Proof. intros Hs [b Hb]. destruct (still_compared b s s' Hs Hb) as (b' & ? & _). by exists b'. Qed.
Lemma still_waiting n t ctx c s s' : still s s' → waiting n t ctx c s → waiting n t ctx c s'.
Proof.
  intros Hs [Hb|(Hb & Hn & Hc)]; destruct (still_compared _ s s' Hs Hb) as (b' & Hb' & Ht).
  - left. by rewrite <- Ht.
  - destruct b'; [by left|]. right. destruct Hs as [-> _]. done.
Qed.

#[local] Hint Extern 4 (stable _ (orReturn _ _)) => apply stable_orReturn; [apply _|solve_stable] : stable.
Lemma still_call {A} (m : M err W A) : stable still (call m : EM A).
Proof. intros s. split; [unfold call; by destruct (m (es_w s)) as [[] w]|apply adds_call]. Qed.
Lemma still_ask {A} (f : W → A * W) : stable still (ask f : EM A).
Proof. intros s. split; [unfold ask; by destruct (f (es_w s))|apply adds_ask]. Qed.
Lemma still_log k : uncommitting k → stable still (logCall k).
Proof. intros Hk s. split; [done|by apply adds_log]. Qed.
Lemma still_silent (f : Eng → Eng) :
  (∀ s, es_trace (f s) = es_trace s ∧ es_slots (f s) = es_slots s) → stable still (modify f : EM unit).
Proof. intros Hf s. split; [apply Hf|apply adds_silent; intros; apply Hf]. Qed.
#[local] Hint Resolve still_call still_ask : stable.
#[local] Hint Extern 2 (stable still (logCall _)) => by apply still_log : stable.
#[local] Hint Extern 2 (stable still (modify _)) => by apply still_silent : stable.
Local Notation quietly m := (stable still m).

Lemma still_recordEvent ctx tx st ty ds d : quietly (recordEvent ctx tx st ty ds d).
Proof. unfold recordEvent, ent. solve_stable. Qed.
Lemma still_saveEntity ctx : quietly (saveEntity ctx).
Proof. unfold saveEntity, ent. solve_stable. Qed.
Lemma still_compareAndSave ctx y : quietly (compareAndSave ctx y).
Proof. unfold compareAndSave, ent. solve_stable. Qed.
Lemma still_rollbackSegment ctx o t : quietly (rollbackSegment e ctx o t).
Proof. unfold rollbackSegment. solve_stable. Qed.
Lemma still_txBegin ctx : quietly (txBegin e ctx).
Proof. unfold txBegin. solve_stable. Qed.
Lemma still_state : quietly state.
Proof. unfold state. solve_stable. Qed.
#[local] Hint Resolve still_recordEvent still_saveEntity still_compareAndSave still_rollbackSegment still_txBegin
  still_state : stable.
Lemma still_evaluateCriterion k cc : quietly (evaluateCriterion e k cc).
Proof. unfold evaluateCriterion, criterionTyping, ent. solve_stable. Qed.
Lemma still_applyProcessorData ctx d : quietly (applyProcessorData ctx d).
Proof. unfold applyProcessorData, memoGet, ent. solve_stable. Qed.
Lemma still_dispatch ctx proc w t tx : quietly (dispatch ctx proc w t tx).
Proof. unfold dispatch, ent. solve_stable. Qed.
#[local] Hint Resolve still_evaluateCriterion still_applyProcessorData still_dispatch : stable.
Lemma still_executeSyncProcessor ctx proc w t tx : quietly (executeSyncProcessor e ctx proc w t tx).
Proof. unfold executeSyncProcessor. solve_stable. Qed.
Lemma still_executeAsyncNewTx ctx proc w t tx : quietly (executeAsyncNewTx e ctx proc w t tx).
Proof. unfold executeAsyncNewTx. solve_stable. Qed.
Lemma still_begin_segment ctx : quietly (beginSegment e ctx).
Proof. unfold beginSegment. solve_stable. Qed.
Lemma still_recordAbort ctx t k y : quietly (recordAbortForIfMatchConflict ctx t k y).
Proof. unfold recordAbortForIfMatchConflict, LookupActualTxID, ent. solve_stable. Qed.
Lemma still_applyDispatched ctx t p : quietly (applyDispatched ctx t p).
Proof. unfold applyDispatched. solve_stable. Qed.
Lemma still_evaluateTransition ctx wf tr tx : quietly (evaluateTransition e ctx wf tr tx).
Proof. unfold evaluateTransition. solve_stable. Qed.
Lemma still_makeTransition ctx tr tx : quietly (makeTransition ctx tr tx).
Proof. unfold makeTransition, setState. solve_stable. Qed.
Lemma still_processorsFailed ctx tr tx : quietly (processorsFailed ctx tr tx).
Proof. unfold processorsFailed. solve_stable. Qed.
Lemma still_armState ctx wf ms tx trs : quietly (armState e ctx wf ms tx trs).
Proof. induction trs as [|tr trs IH]; simpl; unfold armViaFunction, ent; solve_stable. Qed.
#[local] Hint Resolve still_armState : stable.
Lemma still_reconcile ctx wf tx y : quietly (reconcileScheduledTasks e ctx wf tx y).
Proof. unfold reconcileScheduledTasks, ent. solve_stable. Qed.
Lemma still_selectAmong ctx a tx wfs : quietly (selectAmong e ctx a tx wfs).
Proof. induction wfs as [|wf wfs IH]; simpl; unfold auditing; solve_stable. Qed.
#[local] Hint Resolve still_selectAmong : stable.
Lemma still_resolveWorkflow ctx tx : quietly (resolveWorkflow e ctx tx).
Proof. unfold resolveWorkflow, resolveWorkflowWith, selectWorkflow, auditing, ent. solve_stable. Qed.
#[local] Hint Resolve still_executeSyncProcessor still_executeAsyncNewTx still_begin_segment still_recordAbort
  still_applyDispatched still_evaluateTransition still_makeTransition still_processorsFailed still_reconcile
  still_resolveWorkflow : stable.

(** ** The segment boundary *)

(** Once compared, compared for good. *)
Lemma compared_adds K s s' : adds K s s' → compared true s → compared true s'.
Proof.
  intros (l & E & _) (calls & E0 & Hc). exists (calls ++ l). rewrite E, E0, app_assoc. split; [done|].
  rewrite casRun_app, Hc. clear. induction l as [|k l IH]; simpl; [done|]. by destruct k as [| |? []| | |? ? ? []| | | | | | |].
Qed.

(** What the boundary is entered with: [y] is to be compared when [b]. *)
Definition primed (y : string) (b : bool) s : Prop := compared true s ∨ b = true ∧ y = x ∧ sound s.
Lemma consume_spec n t ctx c :
  triple (waiting n t ctx c) (consumeIfMatch ctx) (λ r s, match r with Ret (y, b) => primed y b s | _ => sound s end).
Proof.
  intros s Hs. unfold consumeIfMatch. destruct Hs as [Hs|(Hs & Hn & Hk & _)].
  - destruct (ec_slot ctx) as [k|]; [|by left]. mrun. case_decide; mrun; [by left|].
    left. destruct Hs as (l & E & Hl). by exists l.
  - rewrite Hk. mrun. rewrite Hn. simpl. rewrite decide_False by done. mrun. right. split_and!; [done..|].
    exists false. destruct Hs as (l & E & Hl). by exists l.
Qed.

Lemma primed_sound y b s : primed y b s → sound s.
Proof. intros [?|(_ & _ & ?)]; [by eexists|done]. Qed.
Lemma primed_still y b s s' : still s s' → primed y b s → primed y b s'.
Proof.
  intros Hs [H|(? & ? & H)]; [left; by eapply compared_adds; [apply Hs|]|right; split_and!; [done..|]].
  by eapply still_sound.
Qed.
(** A successful comparison. *)
Lemma compared_cas ctx s s' :
  sound s → compareAndSave ctx x s = (Ret tt, s') → compared true s'.
Proof.
  intros (b & calls & E & H). unfold compareAndSave, ent. mrun. rewrite run_bind. unfold try, call.
  destruct (xCompareAndSave ctx (es_ent s) x (es_w s)) as [[x'|er|p] w]; mrun; [|done..].
  intros [= <-]. simpl. exists (calls ++ [CCompareAndSave (ec_tx ctx) (es_ent s) x true]).
  rewrite E, app_assoc. split; [done|]. rewrite casRun_app, H. simpl. by rewrite bool_decide_true, orb_true_r.
Qed.

Lemma triple_still {A} (P : Eng → Prop) (m : EM A) :
  quietly m → (∀ s s', still s s' → P s → P s') → triple P m (λ _ s, P s).
Proof. apply triple_stable. Qed.
Lemma shielded_spec ctx tx :
  triple (compared true) (ShieldedCommit e ctx tx) (λ _ s, compared true s).
Proof.
  intros s Hs. eapply (compared_adds engineCall); [|exact Hs].
  assert (H : stable (adds engineCall) (ShieldedCommit e ctx tx)); [|apply H].
  unfold ShieldedCommit. apply stable_bind; [apply _|apply stable_try, adds_txCommit|].
  intros [er|[]]; [|apply stable_ret, _]. apply stable_bind; [apply _|apply adds_ask|]. intros b. apply stable_fail, _.
Qed.
Lemma flush_cas ctx tx y b :
  triple (primed y b) (flushAndCommitSegment e ctx tx y b)
    (λ r s, match r with Ret _ => compared true s | _ => sound s end).
Proof.
  unfold flushAndCommitSegment.
  eapply triple_bind; [apply (triple_still (primed y b)); [solve_stable|apply primed_still]| |intros ?? H; exact (primed_sound _ _ _ H)..].
  intros [er|[]]; [intros s Hs; exact (primed_sound _ _ _ Hs)|].
  eapply (triple_bind _ _ _ (tried (λ r s, match r with Ret _ => compared true s | _ => sound s end))).
  - apply triple_try. intros s Hs. destruct b.
    + assert (Hc := still_compareAndSave ctx y s).
      destruct Hs as [Hs|(_ & -> & Hs)].
      * assert (compared true (compareAndSave ctx y s).2) by (by eapply compared_adds; [apply Hc|]).
        destruct (compareAndSave ctx y s) as [[]]; simpl in *; [done|by exists true..].
      * assert (sound (compareAndSave ctx x s).2) by by eapply still_sound.
        destruct (compareAndSave ctx x s) as [[[]| |] s'] eqn:E; simpl in *; [|done..]. exact (compared_cas _ _ _ Hs E).
    + destruct Hs as [Hs|[? _]]; [|done]. assert (Hc := still_saveEntity ctx s).
      assert (compared true (saveEntity ctx s).2) by (by eapply compared_adds; [apply Hc|]).
      destruct (saveEntity ctx s) as [[]]; simpl in *; [done|by exists true..].
  - intros [er|[]]; simpl; [intros s Hs; by destruct (_ && _)|].
    eapply (triple_bind _ _ _ (λ _ s, compared true s)); [|intros [er|]|by intros; eexists..].
    + intros s Hs. eapply (compared_adds uncommitting); [|exact Hs].
      assert (H : stable still (ctxErr ctx)) by (unfold ctxErr; solve_stable). apply H.
    + intros s Hs. by exists true.
    + eapply triple_conseq; [apply shielded_spec|done|]. intros [] s Hs; [done|by exists true..].
  - done.
  - done.
Qed.

(** ** The frames of the engine *)

(** A step that keeps an invariant of [still], at a cursor. *)
Lemma at_still {L A B} (l : L) (P : Eng → Prop) (m : EM A) (f : A → M eerr (Eng * L) B) Q :
  quietly m → (∀ s s', still s s' → P s → P s') → (∀ s, P s → sound s) →
  (∀ a, triple (at_ l P) (f a) Q) → (∀ er s, sound s → Q (Err er) (s, l)) → (∀ w s, sound s → Q (Panic w) (s, l)) →
  triple (at_ l P) (up m ≫= f) Q.
Proof. intros Hm HP Hs Hf He Hw. eapply at_up; [by apply triple_still|auto..]. Qed.

Definition soundPost {A} (_ : outcome eerr A) (sl : Eng * Cursor) : Prop := sound sl.1.
Definition cbdCompared (r : outcome eerr (string * ECtx * option string)) (sl : Eng * Cursor) : Prop :=
  match r with Ret _ => compared true sl.1 | _ => sound sl.1 end.

Lemma compared_still s s' : still s s' → compared true s → compared true s'.
Proof. intros Hs. by apply (compared_adds uncommitting), Hs. Qed.
Lemma compared_sound s : compared true s → sound s.
Proof. by exists true. Qed.
#[local] Hint Resolve compared_still compared_sound still_sound still_waiting waiting_sound : core.

Lemma commitAndDispatch_cas n t ctx c proc w tr en :
  triple (at_ (mkCursor ctx c false) (waiting n t ctx c)) (commitAndDispatch e ctx proc w tr c en) cbdCompared.
Proof.
  unfold commitAndDispatch.
  eapply at_up; [apply consume_spec| |by intros ?? H..]. intros [y b].
  assert (Habort : ∀ cu er, triple (at_ cu sound)
    (up (if b && isErr er ErrConflict then recordAbortForIfMatchConflict ctx en tr y else mret ()) ;;
     fail er) cbdCompared).
  { intros cu er. apply at_still; [solve_stable|eauto|eauto| |done|done]. intros []. by apply at_fail. }
  destruct (default false _).
  - eapply (at_up _ _ _ (tried (λ r s, match r with Ret _ => compared true s | _ => sound s end))); [|..|done|done].
    + apply triple_try. unfold commitAndBeginNextSegment.
      eapply triple_bind; [apply flush_cas|intros []|done..].
      eapply triple_conseq; [apply (triple_still (compared true)); [solve_stable|eauto]|done|].
      intros [] s Hs; eauto.
    + intros [er|[tx nctx]]; apply at_setL; [apply Habort|]. apply (at_conseq _ _ (compared true)); [|by intros s].
      destruct (hasExtProc e); [|by apply at_ret].
      apply at_still; [solve_stable|eauto|eauto| |done|done]. intros a. by apply at_ret.
  - eapply (at_up _ _ _ (tried (λ r s, match r with Ret _ => compared true s | _ => sound s end)));
      [apply triple_try, flush_cas| |done|done].
    intros [er|[]]; [apply Habort|]. apply (at_conseq _ _ (compared true)); [|by intros s].
    assert (Hnext : ∀ m : option string, triple (at_ (mkCursor ctx c false) (compared true))
      (begun ← up (try (beginSegment e ctx));
       match begun with
       | inl err => setL (mkCursor ctx "" false);; fail err
       | inr (newTxID, newCtx) => setL (mkCursor newCtx newTxID false);; mret (newTxID, newCtx, m)
       end) cbdCompared).
    { intros m. apply at_still; [solve_stable|eauto|eauto| |done|done].
      intros [er|[tx nctx]]; apply at_setL; [apply at_fail; apply compared_sound|by apply at_ret]. }
    destruct (hasExtProc e); [|apply Hnext]. apply at_still; [solve_stable|eauto|eauto|exact Hnext|done|done].
Qed.

(** A deferred guard that commits nothing. *)
Lemma defer_still {A} (Q : outcome eerr A → Eng → Prop) r (m : EM unit) :
  quietly m → (∀ s s', still s s' → Q r s → Q r s') → (∀ s, Q r s → sound s) → (∀ w s, sound s → Q (Panic w) s) →
  triple (Q r) m (λ d s, match d with Panic w => Q (Panic w) s | _ => Q r s end).
Proof. intros Hm HQ Hs Hp s H. specialize (Hm s). destruct (m s) as [[] s']; simpl in *; eauto. Qed.

Lemma executeCBD_cas n t ctx c proc w tr en :
  triple (waiting n t ctx c) (executeCommitBeforeDispatch e ctx proc w tr c en)
    (λ r s, match r with Ret _ => compared true s | _ => sound s end).
Proof.
  eapply (triple_scoped _ _ _ _ (λ r sl, match r with Ret _ => compared true sl.1 | _ => sound sl.1 end)).
  - eapply triple_bind; [apply commitAndDispatch_cas| |by intros ?? H..]. intros [[tx nctx] d].
    apply at_all. intros cu. eapply (at_conseq _ _ (compared true)); [|by intros s].
    apply at_still; [solve_stable|eauto|eauto| |done|done]. intros []. by apply at_setL, at_ret.
  - intros r cu. apply (defer_still (λ r s, match r with Ret _ => compared true s | _ => sound s end));
      [solve_stable|destruct r; eauto|destruct r; eauto|done].
Qed.

(** What a frame entered with [t] hands back, and the body of a frame at its cursor. *)
Definition handed n t (r : outcome eerr (ECtx * string * option eerr)) s : Prop :=
  match r with Ret (nctx, c, None) => waiting n t nctx c s | _ => sound s end.
Abbreviation W n t cu := (waiting n t (cu_ctx cu) (cu_tx cu)).

Lemma runProcessor_cas n t cu proc w tr en :
  triple (at_ cu (W n t cu)) (runProcessor e proc w tr en)
    (λ r sl, match r with
     | Ret None => W n t sl.2 sl.1
     | Ret (Some _) => if decide (pr_ExecutionMode proc = ExecutionModeAsyncNewTx) then W n t sl.2 sl.1 else sound sl.1
     | _ => sound sl.1 end).
Proof.
  apply at_getL. case_decide; [|case_decide].
  - apply at_still; [solve_stable|eauto|eauto| |done|done]. intros r. apply at_ret. by destruct r.
  - eapply (at_up _ _ _ (tried (λ r s, match r with Ret _ => compared true s | _ => sound s end))).
    + apply triple_try, executeCBD_cas.
    + intros [er|[nctx tx]]; [by apply at_ret|]. apply at_setL, at_ret. intros s Hs. by left.
    + done.
    + done.
  - apply at_still; [solve_stable|eauto|eauto| |done|done]. intros r. apply at_ret. destruct r; simpl; eauto.
Qed.

Lemma runProcessors_cas n t procs w tr en cu :
  triple (at_ cu (W n t cu)) (runProcessors e procs w tr en) (λ r sl, handed n t r sl.1).
Proof.
  revert cu. induction procs as [|proc procs IH]; intros cu; simpl; [by apply at_getL, at_ret|].
  assert (Hres : ∀ cu (P : Eng → Prop) d f, (∀ s s', still s s' → P s → P s') → (∀ s, P s → sound s) →
    triple (at_ cu P) f (λ r sl, handed n t r sl.1) →
    triple (at_ cu P)
      ((cu ← getL; st ← up state; up (recordEvent (cu_ctx cu) en st SMEventStateProcessResult [pr_Name proc] d)) ;;
       f) (λ r sl, handed n t r sl.1)).
  { intros cu0 P d f HP HS Hf. apply triple_assoc, at_getL, triple_assoc.
    apply at_still; [solve_stable|done|done| |done|done]. intros st.
    apply at_still; [solve_stable|done|done| |done|done]. by intros []. }
  assert (Hstop : ∀ cu er, triple (at_ cu sound)
    (cu ← getL; mret (cu_ctx cu, cu_tx cu, Some (EWrap "processor failed" er))) (λ r sl, handed n t r sl.1)).
  { intros cu0 er. by apply at_getL, at_ret. }
  case_decide as Hty; [apply Hres; [eauto|eauto|]; eapply at_conseq; [apply Hstop|eauto]|].
  eapply triple_bind; [apply runProcessor_cas| |by intros ?? H..].
  intros procErr. apply at_all. intros cu'. simpl. destruct procErr as [er|]; [case_decide|].
  - apply Hres; [eauto|eauto|apply IH].
  - apply Hres; [eauto|eauto|apply Hstop].
  - apply Hres; [eauto|eauto|apply IH].
Qed.

Lemma scoped_cas n t ctx c (body : EL (ECtx * string * option eerr)) en :
  triple (at_ (mkCursor ctx c false) (waiting n t ctx c)) body (λ r sl, handed n t r sl.1) →
  triple (waiting n t ctx c) (scoped (mkCursor ctx c false) body (panicGuard e en)) (handed n t).
Proof.
  intros Hb. eapply triple_scoped; [exact Hb|]. intros r cu. simpl.
  apply (defer_still (handed n t)); [unfold panicGuard; solve_stable|destruct r as [[[]]| |]..|done]; unfold handed;
    try destruct o; eauto.
Qed.

Lemma handed_step {A} n t ctx c (m : EM A) f :
  quietly m → (∀ a, triple (waiting n t ctx c) (f a) (handed n t)) → triple (waiting n t ctx c) (m ≫= f) (handed n t).
Proof.
  intros Hm Hf. eapply triple_bind; [apply (triple_still (waiting n t ctx c)); [done|eauto]|done|..];
    intros ? s Hs; exact (waiting_sound _ _ _ _ _ Hs).
Qed.
Lemma executeProcessors_cas n t ctx procs w tr c :
  triple (waiting n t ctx c) (executeProcessors e ctx procs w tr c) (handed n t).
Proof.
  unfold executeProcessors. case_decide; [by intros s Hs|].
  apply handed_step; [solve_stable|intros st]. apply handed_step; [solve_stable|intros []].
  apply handed_step; [solve_stable|intros []]. apply scoped_cas, runProcessors_cas.
Qed.

(** A frame called at the cursor. *)
Lemma at_handed {L B} (l : L) n t ctx c (m : EM (ECtx * string * option eerr)) (f : _ → M eerr (Eng * L) B) Q :
  triple (waiting n t ctx c) m (handed n t) →
  (∀ nctx tx, triple (at_ l (waiting n t nctx tx)) (f (nctx, tx, None)) Q) →
  (∀ nctx tx er, triple (at_ l sound) (f (nctx, tx, Some er)) Q) →
  (∀ er s, sound s → Q (Err er) (s, l)) → (∀ w s, sound s → Q (Panic w) (s, l)) →
  triple (at_ l (waiting n t ctx c)) (up m ≫= f) Q.
Proof. intros Hm Hf Hs He Hw. eapply at_up; [exact Hm| |done|done]. intros [[nctx tx] [er|]]; [apply Hs|apply Hf]. Qed.

Lemma fireTransition_cas n t ctx wf tr c :
  triple (waiting n t ctx c) (fireTransition e ctx wf tr c) (handed n t).
Proof.
  apply scoped_cas. apply at_still; [solve_stable|eauto|eauto| |done|done]. intros [er|[[] reason]].
  - apply at_ret. simpl. eauto.
  - eapply at_handed; [apply executeProcessors_cas|..|done|done]; intros; apply at_setL;
      (apply at_still; [solve_stable|eauto|eauto| |done|done]); intros []; by apply at_ret.
  - apply at_still; [solve_stable|eauto|eauto|intros st|done|done].
    apply at_still; [solve_stable|eauto|eauto|intros []|done|done]. apply at_ret. simpl. eauto.
Qed.
Lemma attemptTransition_cas n t ctx wf name c :
  triple (waiting n t ctx c) (attemptTransition e ctx wf name c) (handed n t).
Proof.
  assert (Hrefuse : ∀ st why, triple (waiting n t ctx c)
    (recordEvent ctx c st SMEventTransitionNotFound [name; st; why] [];;
     mret (ctx, c, Some (EWrap why (ESentinel ErrTransitionNotFound)))) (handed n t)).
  { intros st why. apply handed_step; [solve_stable|intros [] s Hs]. exact (waiting_sound _ _ _ _ _ Hs). }
  apply handed_step; [solve_stable|intros st]. destruct (wf_States wf !! st) as [trs|].
  2: { intros s Hs. exact (waiting_sound _ _ _ _ _ Hs). }
  destruct (findTransition trs name) as [tr|]; [|apply Hrefuse].
  destruct (tr_Disabled tr); [apply Hrefuse|]. destruct (tr_Schedule tr); [apply Hrefuse|].
  apply fireTransition_cas.
Qed.

Definition passed n t (r : outcome eerr passResult) (sl : Eng * Cursor) : Prop :=
  match r with Ret Quiet | Ret Moved => W n t sl.2 sl.1 | _ => sound sl.1 end.
Lemma cascadePass_cas n t wf a trs cu : triple (at_ cu (W n t cu)) (cascadePass e wf a trs) (passed n t).
Proof.
  induction trs as [|tr trs IH]; simpl; [by apply at_ret|]. destruct (automated tr); simpl; [|apply IH].
  apply at_getL, at_still; [solve_stable|eauto|eauto| |done|done]. intros [er|[[] reason]].
  - apply at_ret. simpl. eauto.
  - eapply at_handed; [apply executeProcessors_cas|..|done|done]; intros; apply at_setL;
      (apply at_still; [solve_stable|eauto|eauto| |done|done]); intros []; by apply at_ret.
  - apply at_still; [solve_stable|eauto|eauto|intros st|done|done].
    apply at_still; [solve_stable|eauto|eauto|intros []; apply IH|done|done].
Qed.
Definition looped n t (r : outcome eerr (option eerr)) (sl : Eng * Cursor) : Prop :=
  match r with Ret None => W n t sl.2 sl.1 | _ => sound sl.1 end.
Lemma cascadeLoop_cas n t wf a depth visits cu :
  triple (at_ cu (W n t cu)) (cascadeLoop e wf a depth visits) (looped n t).
Proof.
  revert visits cu. induction depth as [|d IH]; intros visits cu; simpl;
    (apply at_still; [solve_stable|eauto|eauto|intros st|done|done]); apply at_getL.
  { apply at_still; [solve_stable|eauto|eauto|intros []|done|done]. apply at_ret. simpl. eauto. }
  apply at_still; [unfold ctxErr; solve_stable|eauto|eauto| |done|done].
  intros [er|]; [apply at_ret; simpl; eauto|]. case_decide.
  { apply at_still; [solve_stable|eauto|eauto|intros []|done|done]. apply at_ret. simpl. eauto. }
  destruct (wf_States wf !! st) as [trs|]; [|by apply at_ret].
  eapply triple_bind; [apply cascadePass_cas| |by intros ?? Hq..].
  intros r. apply at_all. intros cu'. destruct r; [by apply at_ret|apply IH|by apply at_ret].
Qed.
Lemma cascadeAutomated_cas n t ctx wf c :
  triple (waiting n t ctx c) (cascadeAutomated e ctx wf c) (handed n t).
Proof.
  apply scoped_cas. eapply triple_bind; [apply (cascadeLoop_cas n t _ _ _ _ (mkCursor ctx c false))| |by intros ?? H..].
  intros r. apply at_all. intros cu. apply at_getL, at_ret. intros s Hs. by destruct r.
Qed.

(** ** The doors *)

Definition entered (r : outcome eerr EngineResult) s : Prop :=
  match r with Ret res => (er_Segmented res = true → compared true s) ∧ sound s | _ => sound s end.

Lemma settle_cas n t wf fin cu :
  triple (at_ cu (W n t cu)) (settle e wf t fin) (λ r sl, entered r sl.1).
Proof.
  apply at_getL. eapply at_handed; [apply cascadeAutomated_cas|..|done|done].
  - intros nctx tx. apply triple_assoc, at_setL, at_getL.
    apply at_still; [solve_stable|eauto|eauto|intros []|done|done].
    apply at_still; [solve_stable|eauto|eauto|intros st|done|done].
    apply at_still; [solve_stable|eauto|eauto|intros []|done|done].
    apply at_setL, at_ret. simpl. intros s Hs. split; [|eauto]. intros Hseg%bool_decide_eq_true.
    destruct Hs as [?|(_ & _ & _ & ?)]; done.
  - intros nctx tx er. apply triple_assoc, at_setL. by apply at_fail.
Qed.
Lemma door_cas n ctx (B : string → EL EngineResult) :
  ec_slot ctx = Some n →
  (∀ t, triple (at_ (mkCursor ctx t false) (waiting n t ctx t)) (B t) (λ r sl, entered r sl.1)) →
  triple (λ s, sound s ∧ es_slots s !! n = Some x)
    (openAudit ctx;; txID ← resolveAuditTxID; scoped (mkCursor ctx txID false) (B txID) (entryGuard e txID)) entered.
Proof.
  intros Hn HB. set (P s := sound s ∧ es_slots s !! n = Some x).
  assert (HP : ∀ s s', still s s' → P s → P s').
  { intros s s' Hs [H1 H2]. split; [by eapply still_sound|]. by destruct Hs as [-> _]. }
  eapply triple_bind; [apply (triple_still P); [unfold openAudit; solve_stable|done]|intros []|by intros ?? [? _]..].
  eapply triple_bind; [apply (triple_still P); [unfold resolveAuditTxID, ent; solve_stable|done]| |by intros ?? [? _]..].
  intros t. eapply (triple_scoped _ _ _ _ (λ r sl, entered r sl.1)).
  - eapply at_conseq; [apply HB|]. intros s [[b Hb] Hs]. destruct b; [by left|right; done].
  - intros r cu. apply (defer_still entered); [unfold entryGuard; solve_stable|..|done].
    + intros s s' Hs. destruct r; simpl; [intros [? ?]; split; eauto|eauto..].
    + intros s. destruct r; simpl; [by intros [_ ?]|done..].
Qed.
Lemma Loopback_cas n ctx :
  ec_slot ctx = Some n → triple (λ s, sound s ∧ es_slots s !! n = Some x) (Loopback e ctx) entered.
Proof.
  intros Hn. apply (door_cas n ctx _ Hn). intros t.
  apply at_still; [solve_stable|eauto|eauto|intros st|done|done].
  apply at_still; [solve_stable|eauto|eauto|intros []|done|done].
  apply at_still; [solve_stable|eauto|eauto|intros wf|done|done].
  apply at_still; [solve_stable|eauto|eauto|intros st'|done|done].
  destruct (wf_States wf !! st'); [apply (settle_cas n t wf _ (mkCursor ctx t false))|].
  apply at_still; [solve_stable|eauto|eauto|intros []|done|done].
  apply at_still; [solve_stable|eauto|eauto|intros []|done|done].
  apply at_setL, at_ret. intros s Hs. split; [done|]. simpl. eauto.
Qed.
Lemma ManualTransition_cas n ctx name :
  ec_slot ctx = Some n → triple (λ s, sound s ∧ es_slots s !! n = Some x) (ManualTransition e ctx name) entered.
Proof.
  intros Hn. apply (door_cas n ctx _ Hn). intros t.
  apply at_still; [solve_stable|eauto|eauto|intros st|done|done].
  apply at_still; [solve_stable|eauto|eauto|intros []|done|done].
  apply at_still; [solve_stable|eauto|eauto|intros wf|done|done].
  eapply at_handed; [apply attemptTransition_cas|..|done|done].
  - intros nctx tx. apply triple_assoc, at_setL. apply (settle_cas n t wf _ (mkCursor nctx tx false)).
  - intros nctx tx er. apply triple_assoc, at_setL. by apply at_fail.
Qed.
(** Both conditional doors put the token in a fresh cell. *)
Lemma enter_cas ctx transition : triple sound (enter e ctx (doorOf transition x)) entered.
Proof.
  intros s Hs. unfold doorOf.
  assert (Hw : withIfMatch ctx x s = (Ret (withSlot ctx (length (es_slots s))), set_slots (es_slots s ++ [x]) s)).
  { unfold withIfMatch. rewrite decide_False by done. by mrun. }
  assert (Hp : sound (set_slots (es_slots s ++ [x]) s) ∧
    es_slots (set_slots (es_slots s ++ [x]) s) !! length (es_slots s) = Some x).
  { split; [|by apply list_lookup_middle]. destruct Hs as (b & l & ? & ?). by exists b, l. }
  case_decide; simpl; unfold LoopbackWithIfMatch, ManualTransitionWithIfMatch; rewrite run_bind, Hw.
  - by apply (Loopback_cas (length (es_slots s))).
  - by apply (ManualTransition_cas (length (es_slots s))).
Qed.

(** ** The service *)

(** The update after the engine: nothing is left to compare when it segmented. *)
Definition resumed (seg : bool) s : Prop := (seg = true → compared true s) ∧ sound s.
Lemma resumed_still seg s s' : still s s' → resumed seg s → resumed seg s'.
Proof. intros Hs [H1 H2]. split; eauto. Qed.
Lemma resumed_sound seg s : resumed seg s → sound s.
Proof. by intros [_ ?]. Qed.
#[local] Hint Resolve resumed_still resumed_sound : core.

Definition updated {A} (r : outcome eerr A) (s : Eng) : Prop := match r with Ret _ => compared true s | _ => sound s end.
Abbreviation onS P := (λ sl : Eng * txScope, P sl.1).
Lemma on_step {A B} (P : Eng → Prop) (m : SL A) (f : A → SL B) :
  stable (onState still) m → (∀ s s', still s s' → P s → P s') → (∀ s, P s → sound s) →
  (∀ a, triple (onS P) (f a) (λ r sl, updated r sl.1)) → triple (onS P) (m ≫= f) (λ r sl, updated r sl.1).
Proof.
  intros Hm HP HS Hf. apply (triple_bind _ _ _ (λ _ sl, P sl.1)); [|exact Hf|by intros ? sl ?; apply HS..].
  apply (triple_stable _ _ _ Hm). intros sl sl'. apply HP.
Qed.
Lemma still_ungated t s : still s (ungated t s).
Proof. unfold ungated. case_decide; [reflexivity|]. by apply (still_log (CUngate t)). Qed.
Lemma still_acquire t : quietly (acquire t).
Proof. unfold acquire. solve_stable. Qed.
#[local] Hint Resolve still_acquire : stable.

Lemma saveUpdated_cas ctx t tr seg : triple (resumed seg) (saveUpdated ctx t tr x seg) updated.
Proof.
  unfold saveUpdated. case_decide as Hd.
  - intros s [_ Hs]. rewrite run_bind. unfold try. assert (Hc := still_compareAndSave ctx x s).
    assert (sound (compareAndSave ctx x s).2) by by eapply still_sound.
    destruct (compareAndSave ctx x s) as [[[]|er|p] s'] eqn:E; simpl in *; [exact (compared_cas _ _ _ Hs E)| |done].
    destruct (isErr er ErrConflict); [|done].
    assert (Hq : quietly (emitTransitionAborted ctx t tr x)).
    { unfold emitTransitionAborted, LookupActualTxID, ent. solve_stable. }
    specialize (Hq s'). rewrite run_bind. destruct (emitTransitionAborted ctx t tr x s') as [[]]; simpl in *; eauto.
  - intros s [Hs _]. assert (seg = true) as -> by (destruct seg; [done|by destruct Hd]).
    assert (Hq : quietly (orReturn (saveEntity ctx) Internal)) by solve_stable. specialize (Hq s).
    assert (compared true (orReturn (saveEntity ctx) Internal s).2) by eauto.
    destruct (orReturn (saveEntity ctx) Internal s) as [[]]; simpl in *; eauto.
Qed.
Lemma commit_cas : triple (onS (compared true)) (commitOr409 e) (λ r sl, updated r sl.1).
Proof.
  assert (H : stable (onState (adds calm)) (commitOr409 e)).
  { unfold commitOr409, CommitScope, ctxErr. solve_stable; first [apply adds_ask|apply calm_commitOwned]. }
  intros sl Hsl. specialize (H sl). apply (compared_adds calm) in H; [|done].
  destruct (commitOr409 e sl) as [[]]; simpl in *; eauto.
Qed.
Lemma final_cas ow tx ctx t tr seg :
  triple (onS (resumed seg)) (finalSection ow tx (up (saveUpdated ctx t tr x seg);; commitOr409 e))
    (λ r sl, updated r sl.1).
Proof.
  assert (Hm : triple (onS (resumed seg)) (up (saveUpdated ctx t tr x seg);; commitOr409 e) (λ r sl, updated r sl.1)).
  { apply at_all. intros sc. eapply at_up; [apply saveUpdated_cas|intros []|done|done].
    intros sl [Hs _]. by apply commit_cas. }
  unfold finalSection. destruct ow; [|done]. apply on_step; [solve_stable|eauto|eauto|intros []].
  eapply triple_finally; [exact Hm|]. intros r [s l]. simpl. assert (Hu := still_ungated tx s).
  destruct r; simpl; eauto.
Qed.

Lemma update_cas input opts v b sc :
  ui_IfMatch input = x →
  triple (onS sound) (updateInScope e input opts v b sc) (λ r sl, updated r sl.1).
Proof.
  intros Hi. unfold updateInScope, storedEntity, storedModel, mergedBody, validateStrict, validateOrExtend, judged, withUniqueKeys, checkUniqueKeys.
  apply on_step; [solve_stable|eauto|eauto|intros []]. apply on_step; [solve_stable|eauto|eauto|intros old].
  apply on_step; [solve_stable|eauto|eauto|intros desc]. apply on_step; [solve_stable|eauto|eauto|intros [v' b']].
  apply on_step; [solve_stable|eauto|eauto|intros []]. apply on_step; [solve_stable|eauto|eauto|intros kctx].
  apply on_step; [solve_stable|eauto|eauto|intros now]. apply on_step; [solve_stable|eauto|eauto|intros []].
  rewrite Hi.
  eapply (triple_bind _ _ _ (λ r sl, match r with Ret res => resumed (er_Segmented res) sl.1 | _ => sound sl.1 end));
    [|..|done|done].
  { intros [s l] Hs. rewrite orReturn_up. unfold up, orReturn. rewrite run_bind. unfold try.
    assert (HE := enter_cas kctx (ui_Transition input) s Hs).
    by destruct (enter e kctx _ s) as [[res|er|p] s']. }
  intros res. apply on_step; [unfold Advance; solve_stable|eauto|eauto|intros []].
  apply on_step; [unfold setTransition; solve_stable|eauto|eauto|intros []].
  apply on_step; [solve_stable|eauto|eauto|intros fin].
  apply on_step; [unfold joinedGuard; solve_stable|eauto|eauto|intros []].
  apply on_step; [solve_stable|eauto|eauto|intros []].
  eapply triple_bind; [apply final_cas|by intros a sl Hsl|done|done].
Qed.

Lemma still_release {A} (r : outcome eerr A) sc : quietly (ReleaseScope r sc).
Proof.
  unfold ReleaseScope. case_decide; [solve_stable|]. apply stable_bind; [apply _|solve_stable|intros []].
  apply stable_finally; [apply _|solve_stable|]. intros s. apply still_ungated.
Qed.
Lemma withScope_cas {A} ctx (body : txScope → SL A) :
  (∀ sc, triple (onS sound) (body sc) (λ r sl, updated r sl.1)) → triple sound (withScope e ctx body) updated.
Proof.
  intros Hb. unfold withScope.
  eapply triple_bind; [apply (triple_still sound); [unfold beginOrJoin; solve_stable|eauto]| |done|done].
  intros [[t tctx] ow]. eapply (triple_scoped _ _ _ _ (λ r sl, updated r sl.1)).
  - intros sl [Hs _]. destruct ow; [by apply Hb|]. refine (on_step sound _ _ _ _ _ _ sl Hs); [solve_stable|eauto|eauto|].
    intros []. eapply triple_finally; [apply Hb|]. intros r [s l]. simpl. assert (Hu := still_ungated t s).
    destruct r; simpl; eauto.
  - intros r sc. apply (defer_still updated); [apply still_release|..|done]; destruct r; simpl; eauto.
Qed.
Lemma core_cas ctx input opts : ui_IfMatch input = x → triple sound (updateEntityCore e ctx input opts) updated.
Proof.
  intros Hi. unfold updateEntityCore. assert (Hstep : ∀ A B (m : EM A) (f : A → EM B),
    quietly m → (∀ a, triple sound (f a) updated) → triple sound (m ≫= f) updated).
  { intros A B m f Hm Hf. eapply triple_bind; [apply (triple_still sound); [done|eauto]|done|done|done]. }
  apply Hstep; [solve_stable|intros []]. apply Hstep; [unfold parseBody; solve_stable|intros [v b]].
  apply Hstep; [unfold rejectUnstorable; solve_stable|intros []]. apply withScope_cas. intros sc. by apply update_cas.
Qed.
End IfMatch.

Section Conditional.
Context {X : Env} {Y : EntityEnv} (e : Engine).

(** C6. A conditional update or patch loses no update: whatever workflow runs,
    whichever segments it commits, and however the request ends, panics included,
    no commit among its calls succeeds before a compare-and-save against the
    request's If-Match token has succeeded, and a request that succeeds has had its
    token compared.  The comparison is the engine's at the first segment boundary,
    and the service's own when the cascade did not segment. *)
Theorem precondition_guards_commit ctx input opts s :
  ui_IfMatch input ≠ "" →
  let '(r, s') := updateEntityCore e ctx input opts s in
  ∃ calls b, es_trace s' = es_trace s ++ calls ∧ casRun (ui_IfMatch input) calls = Some b ∧
    match r with Ret _ => b = true | _ => True end.
Proof.
  intros Hne. assert (H := core_cas e (ui_IfMatch input) Hne (es_trace s) ctx input opts eq_refl s).
  assert (Hs : sound (ui_IfMatch input) (es_trace s) s) by (exists false, []; by rewrite app_nil_r).
  specialize (H Hs). destruct (updateEntityCore e ctx input opts s) as [[res|er|p] s']; simpl in H.
  - destruct H as (calls & E & Hc). by exists calls, true.
  - destruct H as (b & calls & E & Hc). by exists calls, b.
  - destruct H as (b & calls & E & Hc). by exists calls, b.
Qed.
End Conditional.
