(* ===== verification/EntitySample.v ===== *)
(** * A sample environment for the entity service

    The engine's sample environment with codecs that keep the payload as it is and
    a model that accepts everything.  The witnesses of the service's properties run
    on it, and two runs that show where the service falls short of its comments. *)

From stdpp Require Import base gmap strings list.
From S2P Require Import Prelude Spi Schema SchemaAdmit Workflow WorkflowRun WorkflowFire WorkflowFrame WorkflowSample WorkflowSegments MergePatch EntityScope EntityWrite EntitySettle EntityGates EntityIfMatch.

Module EntityToy.

#[local] Existing Instance Toy.env.
Definition marshal (v : JSON) : err + string := match v with JString d => inr d | _ => inl (ErrText "not a string") end.
#[export] Instance eenv : EntityEnv (X := Toy.env) := {|
  yNow := λ w, (Toy.tw_now w, w);
  yAttribution := λ _, (mkPrincipal "u" "user", mkPrincipal "u" "user");
  yDecodeJSON := λ d, inr (JString d);
  yParseXML := λ d, inr (JString d);
  yMarshal := marshal;
  yLocked := λ _, true;
  yUniqueKeys := λ _, [];
  yComputeClaims := λ _ _, None;
  yValidateOrExtend := λ _ _ _, mret Accepted;
  yValidateStrict := λ _ _, inr Accepted;
  yStorageUnavailable := λ _, false;
  yNoMatchingMember := λ _, false;
  yAuthContextUnavailable := λ _, false;
  yIncompatibleType := λ _, false;
  yAppError := λ _, None
|}.

(** Outside any transaction, and inside the transaction ["tx0"] of a caller. *)
Definition outside : ECtx := withTx Toy.ctx None.
Definition joined : ECtx := Toy.ctx.

(** A workflow whose entry transition runs these processors, and whose manual
    transition ["go"] runs those. *)
Definition flow (entry go : list ProcessorDefinition) : WorkflowDefinition :=
  plainWorkflow "wf" true "NEW" ""
    (<["NEW" := [Toy.tr "init" "OPEN" false "" entry]]>
     (<["OPEN" := [Toy.tr "go" "DONE" true "" go]]> (<["DONE" := []]> ∅))) "1.4".
(** A store whose row was last written by ["tx0"]. *)
Definition store (entry go : list ProcessorDefinition) : Eng :=
  mkEng (X := Toy.env) (Toy.entity "OPEN" "d" "tx0") [] None []
    (Toy.mkWorld 1 (Some (Toy.entity "OPEN" "d" "tx0")) ∅ [flow entry go] 5000).
Definition aCreate : CreateEntityInput := mkCreate "order" "1" "JSON" "payload".
End EntityToy.
Import EntityToy.

(** ** Witnesses *)

(** A creation whose cascade commits its transaction, opens another and panics. *)
Lemma write_settles_witness :
  (serve Toy.engine outside (WCreate aCreate) (store [Toy.cbd; Toy.proc "panic" "SYNC" false] [])).1
    = Panic "processor panicked" ∧
  openS (serve Toy.engine outside (WCreate aCreate) (store [Toy.cbd; Toy.proc "panic" "SYNC" false] [])).2 ⊆ ∅.
Proof.
  set (s := store [Toy.cbd; Toy.proc "panic" "SYNC" false] []).
  assert (Hr : (serve Toy.engine outside (WCreate aCreate) s).1 = Panic "processor panicked") by by_eval.
  assert (Hl : lastCommit (es_trace (serve Toy.engine outside (WCreate aCreate) s).2) = Some ("seg1", true)) by by_eval.
  split; [exact Hr|].
  assert (Hc : ∀ ctx tx w p w', @xCommit Toy.env ctx tx w ≠ (Panic p, w')) by discriminate.
  assert (Hn : ec_tx outside ≠ Some "") by discriminate.
  assert (H := @write_settles Toy.env eenv Toy.laws Toy.engine eq_refl Hc outside (WCreate aCreate) s Hn).
  destruct (serve Toy.engine outside (WCreate aCreate) s) as [r s']. simpl in Hl |- *.
  destruct H as [H|(tx & H & _)]; [exact H|congruence].
Defined.

Definition anUpdate (ifMatch : string) : UpdateEntityInput := mkUpdate "e1" "JSON" "new" "go" ifMatch.
(** An update whose first segment compares the token. *)
Lemma precondition_guards_commit_witness :
  (∃ calls b, es_trace (updateEntityCore Toy.engine outside (anUpdate "tx0") (mkUpdateOptions None false)
                         (store [] [Toy.cbd])).2 = calls ∧
     casRun "tx0" calls = Some b ∧ b = true).
Proof.
  assert (Hn : ui_IfMatch (anUpdate "tx0") ≠ "") by discriminate.
  assert (H := @precondition_guards_commit Toy.env eenv Toy.engine outside (anUpdate "tx0") (mkUpdateOptions None false)
                 (store [] [Toy.cbd]) Hn).
  assert (Hr : (updateEntityCore Toy.engine outside (anUpdate "tx0") (mkUpdateOptions None false)
                 (store [] [Toy.cbd])).1 = Ret (mkTxResult "seg1" ["e1"])) by by_eval.
  destruct (updateEntityCore _ _ _ _ _) as [r s']. simpl in *. subst r.
  destruct H as (calls & b & E & Hc & Hb). exists calls, b. by rewrite E.
Defined.

(** ** Two shortcomings *)

(** A collection of two updates, only the first with a precondition.  The first
    item's cascade does not segment: the service compares the token itself, and the
    cell stays full on the context.  The second item asks for no comparison, but its
    cascade segments and compares the first item's token: the whole batch is refused,
    where the second item alone succeeds. *)
Definition twoUpdates : list UpdateCollectionItem :=
  [mkUpdateItem "e1" "a" "" "tx0"; mkUpdateItem "e1" "b" "go" ""].
Lemma stale_precondition_compared :
  (UpdateEntityCollection Toy.engine outside twoUpdates (store [] [Toy.cbd])).1
    = Err (Operational 400 "WORKFLOW_FAILED") ∧
  (UpdateEntityCollection Toy.engine outside [mkUpdateItem "e1" "b" "go" ""] (store [] [Toy.cbd])).1
    = Ret (mkUpdated "seg1" ["e1"] []).
Proof. split; by_eval. Qed.
(** A request inside its caller's transaction whose cascade segments: the refusal
    comes after the engine has committed the caller's transaction. *)
Lemma joined_segment_commits_owner :
  (∃ c, (CreateEntity Toy.engine joined aCreate (store [Toy.cbd] [])).1 =
     Err (EApp (mkApp LevelInternal 500 "SERVER_ERROR" false) c)) ∧
  ("tx0", true) ∈ omap commitOf (es_trace (CreateEntity Toy.engine joined aCreate (store [Toy.cbd] [])).2).
Proof. split; [eexists; vm_compute; reflexivity|by_eval]. Qed.
