(* ===== verification/EntityAnswer.v ===== *)
(** * The entity service: what a successful answer means

    The engine hands back a context and a transaction that belong together, so the
    save that ends a request lands in the transaction committed next; and the answer
    to a collection of updates accounts for every item. *)

From stdpp Require Import base gmap strings list sorting.
From S2P Require Import Prelude Spi Schema SchemaAdmit Workflow WorkflowRun WorkflowFire WorkflowFrame WorkflowSample WorkflowSegments MergePatch EntityScope EntityWrite EntitySettle EntitySample.

(** ** Values returned *)

Definition returns {E S A} (m : M E S A) (P : A → Prop) : Prop := ∀ s a s', m s = (Ret a, s') → P a.
Section Returns.
Context {E S : Type}.
Lemma returns_bind {A B} (m : M E S A) (f : A → M E S B) R P :
  returns m R → (∀ a, R a → returns (f a) P) → returns (m ≫= f) P.
Proof. intros Hm Hf s b s' (a & s1 & H1 & H2)%bind_Ret. by eapply Hf, H2; eapply Hm. Qed.
Lemma returns_any {A} (m : M E S A) : returns m (λ _, True).
Proof. done. Qed.
Lemma returns_skip {A B} (m : M E S A) (f : A → M E S B) P : (∀ a, returns (f a) P) → returns (m ≫= f) P.
Proof. intros Hf. by apply (returns_bind _ _ (λ _, True)). Qed.
Lemma returns_ret {A} (a : A) P : P a → returns (mret a : M E S A) P.
Proof. by intros Ha s ? ? [= <- _]. Qed.
Lemma returns_fail {A} (e : E) P : returns (fail e : M E S A) P.
Proof. by intros s a s' [=]. Qed.
Lemma returns_panic {A} w P : returns (panic w : M E S A) P.
Proof. by intros s a s' [=]. Qed.
Lemma returns_try {A} (m : M E S A) P : returns m P → returns (try m) (λ r, match r with inr a => P a | inl _ => True end).
Proof. intros Hm s r s'. unfold try. destruct (m s) as [[a| |] s1] eqn:Em; intros [= <- <-]; [by eapply Hm|done]. Qed.
End Returns.

Section Consistent.
Context {X : Env} (e : Engine).

(** A context carries the transaction it is paired with. *)
Definition carries (ctx : ECtx) (tx : string) : Prop := ec_tx ctx = Some tx.
Definition cursorOk (cu : Cursor) : Prop := carries (cu_ctx cu) (cu_tx cu).
Definition handsBack (r : ECtx * string * option eerr) : Prop := let '(ctx, tx, _) := r in carries ctx tx.

(** From a consistent cursor, a value in [P] and a consistent cursor. *)
Definition lreturns {A} (m : EL A) (P : A → Prop) : Prop :=
  ∀ s cu a s' cu', cursorOk cu → m (s, cu) = (Ret a, (s', cu')) → cursorOk cu' ∧ P a.
Lemma lreturns_bind {A B} (m : EL A) (f : A → EL B) R P :
  lreturns m R → (∀ a, R a → lreturns (f a) P) → lreturns (m ≫= f) P.
Proof.
  intros Hm Hf s cu b s' cu' Hcu (a & [s1 cu1] & H1 & H2)%bind_Ret.
  destruct (Hm _ _ _ _ _ Hcu H1) as [Hcu1 Ha]. by eapply Hf.
Qed.
Lemma lreturns_up {A} (m : EM A) P : returns m P → lreturns (up m) P.
Proof. intros Hm s cu a s' cu' Hcu [H ->]%up_Ret. split; [done|]. by eapply Hm. Qed.
Lemma lreturns_step {A B} (m : EM A) (f : A → EL B) P : (∀ a, lreturns (f a) P) → lreturns (up m ≫= f) P.
Proof. intros Hf. apply (lreturns_bind _ _ (λ _, True)); [by apply lreturns_up|done]. Qed.
Lemma lreturns_get {B} (f : Cursor → EL B) P : (∀ cu, cursorOk cu → lreturns (f cu) P) → lreturns (getL ≫= f) P.
Proof. intros Hf s cu b s' cu' Hcu H. exact (Hf cu Hcu s cu b s' cu' Hcu H). Qed.
Lemma lreturns_set {B} cu (f : unit → EL B) P : cursorOk cu → lreturns (f tt) P → lreturns (setL cu ≫= f) P.
Proof. intros Hcu Hf s cu0 b s' cu' _ H. exact (Hf s cu b s' cu' Hcu H). Qed.
Lemma lreturns_ret {A} (a : A) P : P a → lreturns (mret a) P.
Proof. by intros Ha s cu ? ? ? Hcu [= <- _ <-]. Qed.
Lemma lreturns_fail {A} er (P : A → Prop) : lreturns (fail er) P.
Proof. by intros s cu a s' cu' _ [=]. Qed.
Lemma returns_scoped {A} cu (body : EL A) d P : cursorOk cu → lreturns body P → returns (scoped cu body d) P.
Proof. intros Hcu Hb s a s' (s1 & cu1 & H1 & _)%scoped_Ret. by eapply Hb. Qed.

Lemma txBegin_carries ctx : returns (txBegin e ctx) (λ '(tx, c), carries c tx).
Proof.
  unfold txBegin. destruct (hasTxMgr e); [|apply returns_panic].
  apply returns_skip. intros tx. apply returns_skip. intros _. by apply returns_ret.
Qed.
Lemma beginSegment_carries ctx : returns (beginSegment e ctx) (λ '(tx, c), carries c tx).
Proof.
  eapply returns_bind; [apply returns_try, txBegin_carries|].
  intros [er|p] Hp; [apply returns_fail|by apply returns_ret].
Qed.
Lemma commitAndBegin_carries ctx tx x b : returns (commitAndBeginNextSegment e ctx tx x b) (λ '(tx, c), carries c tx).
Proof. apply returns_skip. intros []. apply beginSegment_carries. Qed.

Lemma commitAndDispatch_carries ctx proc w tr tx en :
  carries ctx tx →
  lreturns (commitAndDispatch e ctx proc w tr tx en) (λ '(tx', c, _), carries c tx').
Proof.
  intros Hc. unfold commitAndDispatch. apply lreturns_step. intros [y b]. destruct (default false _).
  - eapply lreturns_bind; [apply lreturns_up, returns_try, commitAndBegin_carries|].
    intros [er|[tx' c]] Hr; [|apply lreturns_set; [done|]].
    + intros s cu a s' cu' _ H. apply bind_Ret in H as (? & [? ?] & _ & H). by apply bind_Ret in H as (? & [? ?] & _ & [=]).
    + destruct (hasExtProc e); [apply lreturns_step; intros d|]; by apply lreturns_ret.
  - apply lreturns_step. intros [er|[]]; [apply lreturns_step; intros; apply lreturns_fail|].
    apply (lreturns_bind _ _ (λ _, True)); [destruct (hasExtProc e); [by apply lreturns_up|by apply lreturns_ret]|].
    intros d _. eapply lreturns_bind; [apply lreturns_up, returns_try, beginSegment_carries|].
    intros [er|[tx' c]] Hr.
    + intros s cu a s' cu' _ H. by apply bind_Ret in H as (? & [? ?] & _ & [=]).
    + apply lreturns_set; [done|]. by apply lreturns_ret.
Qed.
Lemma executeCBD_carries ctx proc w tr tx en :
  carries ctx tx → returns (executeCommitBeforeDispatch e ctx proc w tr tx en) (λ '(c, tx'), carries c tx').
Proof.
  intros Hc. apply returns_scoped; [done|]. eapply lreturns_bind; [by apply commitAndDispatch_carries|].
  intros [[tx' c] d] Hr. apply lreturns_step. intros []. apply lreturns_set; [done|]. by apply lreturns_ret.
Qed.
Lemma runProcessor_carries proc w tr en : lreturns (runProcessor e proc w tr en) (λ _, True).
Proof.
  apply lreturns_get. intros cu Hcu. case_decide; [apply lreturns_step; intros; by apply lreturns_ret|].
  case_decide; [|apply lreturns_step; intros; by apply lreturns_ret].
  eapply lreturns_bind; [by apply lreturns_up, returns_try, executeCBD_carries|].
  intros [er|[c tx]] Hr; [by apply lreturns_ret|]. apply lreturns_set; [done|]. by apply lreturns_ret.
Qed.
Lemma runProcessors_carries procs w tr en : lreturns (runProcessors e procs w tr en) handsBack.
Proof.
  induction procs as [|proc procs IH]; simpl; [apply lreturns_get; intros; by apply lreturns_ret|].
  assert (Hres : ∀ d f, lreturns f handsBack → lreturns
    ((cu ← getL; st ← up state; up (recordEvent (cu_ctx cu) en st SMEventStateProcessResult [pr_Name proc] d)) ;; f)
    handsBack).
  { intros d f Hf. apply (lreturns_bind _ _ (λ _, True)); [|done]. apply lreturns_get. intros cu _.
    apply lreturns_step. intros st. by apply lreturns_up. }
  assert (Hstop : ∀ er, lreturns (cu ← getL; mret (cu_ctx cu, cu_tx cu, Some (EWrap "processor failed" er))) handsBack).
  { intros er. apply lreturns_get. intros. by apply lreturns_ret. }
  case_decide; [by apply Hres|]. apply (lreturns_bind _ _ (λ _, True)); [apply runProcessor_carries|].
  intros pe _. apply Hres. destruct pe; [case_decide|]; auto.
Qed.
Lemma executeProcessors_carries ctx procs w tr tx :
  carries ctx tx → returns (executeProcessors e ctx procs w tr tx) handsBack.
Proof.
  intros Hc. unfold executeProcessors. case_decide; [by apply returns_ret|].
  do 3 (apply returns_skip; intros ?). apply returns_scoped; [done|apply runProcessors_carries].
Qed.

(** A frame at the cursor. *)
Lemma lreturns_frame {B} (m : Cursor → EM (ECtx * string * option eerr)) (f : _ → EL B) P :
  (∀ cu, cursorOk cu → returns (m cu) handsBack) →
  (∀ c tx er, carries c tx → lreturns (f (c, tx, er)) P) →
  ∀ cu, cursorOk cu → lreturns (up (m cu) ≫= f) P.
Proof.
  intros Hm Hf cu Hcu. eapply lreturns_bind; [by apply lreturns_up, Hm|]. intros [[c tx] er]. apply Hf.
Qed.
Lemma attemptTransition_carries ctx wf name tx :
  carries ctx tx → returns (attemptTransition e ctx wf name tx) handsBack.
Proof.
  intros Hc. apply returns_skip. intros st. destruct (wf_States wf !! st) as [trs|]; [|by apply returns_ret].
  assert (Hrefuse : ∀ why, returns (recordEvent ctx tx st SMEventTransitionNotFound [name; st; why] [];;
     mret (ctx, tx, Some (EWrap why (ESentinel ErrTransitionNotFound)))) handsBack).
  { intros why. apply returns_skip. intros. by apply returns_ret. }
  destruct (findTransition trs name) as [tr|]; [|apply Hrefuse].
  destruct (tr_Disabled tr); [apply Hrefuse|]. destruct (tr_Schedule tr); [apply Hrefuse|].
  apply returns_scoped; [done|]. apply lreturns_step. intros [er|[[] reason]].
  - by apply lreturns_ret.
  - apply (lreturns_frame (λ _, executeProcessors e ctx (tr_Processors tr) (wf_Name wf) (tr_Name tr) tx))
      with (cu := mkCursor ctx tx false); [intros; by apply executeProcessors_carries| |done].
    intros c tx' er Hr. apply lreturns_set; [done|].
    destruct er; (apply lreturns_step; intros; by apply lreturns_ret).
  - do 2 (apply lreturns_step; intros ?). by apply lreturns_ret.
Qed.
Lemma cascadePass_carries wf a trs : lreturns (cascadePass e wf a trs) (λ _, True).
Proof.
  induction trs as [|tr trs IH]; simpl; [by apply lreturns_ret|]. destruct (automated tr); simpl; [|done].
  apply lreturns_get. intros cu Hcu. apply lreturns_step. intros [er|[[] reason]].
  - by apply lreturns_ret.
  - apply (lreturns_frame (λ cu, executeProcessors e (cu_ctx cu) (tr_Processors tr) (wf_Name wf) (tr_Name tr) (cu_tx cu)));
      [intros; by apply executeProcessors_carries| |done].
    intros c tx' er Hr. apply lreturns_set; [done|].
    destruct er; (apply lreturns_step; intros; by apply lreturns_ret).
  - do 2 (apply lreturns_step; intros ?). done.
Qed.
Lemma cascadeLoop_carries wf a d v : lreturns (cascadeLoop e wf a d v) (λ _, True).
Proof.
  revert v. induction d as [|d IH]; intros v; simpl; apply lreturns_step; intros st; apply lreturns_get; intros cu Hcu.
  { apply lreturns_step. intros. by apply lreturns_ret. }
  apply lreturns_step. intros [er|]; [by apply lreturns_ret|].
  case_decide; [apply lreturns_step; intros; by apply lreturns_ret|].
  destruct (wf_States wf !! st); [|by apply lreturns_ret].
  apply (lreturns_bind _ _ (λ _, True)); [apply cascadePass_carries|]. intros [] _; [by apply lreturns_ret|done|by apply lreturns_ret].
Qed.
Lemma cascadeAutomated_carries ctx wf tx : carries ctx tx → returns (cascadeAutomated e ctx wf tx) handsBack.
Proof.
  intros Hc. apply returns_scoped; [done|]. apply (lreturns_bind _ _ (λ _, True)); [apply cascadeLoop_carries|].
  intros r _. apply lreturns_get. intros. by apply lreturns_ret.
Qed.

Definition finalOk (res : EngineResult) : Prop := carries (er_FinalCtx res) (er_FinalTxID res).
Lemma advance_carries {B} c tx er (f : unit → EL B) P :
  carries c tx → lreturns (f tt) P → lreturns (advance (c, tx, er) ≫= f) P.
Proof.
  intros Hc Hf s cu b s' cu' _ H. unfold advance in H. rewrite bind_bind in H.
  destruct er; [done|]. exact (Hf s (mkCursor c tx false) b s' cu' Hc H).
Qed.
Lemma settle_carries wf tx fin : lreturns (settle e wf tx fin) finalOk.
Proof.
  apply lreturns_get, (lreturns_frame (λ cu, cascadeAutomated e (cu_ctx cu) wf (cu_tx cu)));
    [intros; by apply cascadeAutomated_carries|].
  intros c tx' er Hc. apply advance_carries; [done|]. apply lreturns_get. intros cu Hcu.
  do 3 (apply lreturns_step; intros ?). apply lreturns_set; [done|]. by apply lreturns_ret.
Qed.
Lemma door_carries ctx t (B : string → EL EngineResult) s res s' :
  t ≠ "" → carries ctx t → m_TransactionID (Meta (es_ent s)) = t → lreturns (B t) finalOk →
  (openAudit ctx;; txID ← resolveAuditTxID; scoped (mkCursor ctx txID false) (B txID) (entryGuard e txID)) s
    = (Ret res, s') → finalOk res.
Proof.
  intros Ht Hc Hent HB. rewrite run_bind.
  assert (He : es_ent (openAudit ctx s).2 = es_ent s).
  { unfold openAudit, call, try, mbind, M_bind. by destruct (xStore AuditStoreK ctx (es_w s)) as [[] w]. }
  destruct (openAudit ctx s) as [[[]|er|p] s1]; simpl in *; [|done..].
  unfold resolveAuditTxID, ent. mrun. rewrite He, Hent, decide_True by done. mrun.
  intros H. by eapply (returns_scoped (mkCursor ctx t false)); [| |exact H].
Qed.
Lemma enter_carries ctx d t s res s' :
  t ≠ "" → carries ctx t → m_TransactionID (Meta (es_ent s)) = t → enter e ctx d s = (Ret res, s') → finalOk res.
Proof.
  intros Ht Hc Hent.
  assert (Hslot : ∀ y, ∃ c' s1, withIfMatch ctx y s = (Ret c', s1) ∧ es_ent s1 = es_ent s ∧ carries c' t).
  { intros y. unfold withIfMatch. case_decide; mrun; eauto. }
  destruct d as [name|name y|y]; simpl; unfold ManualTransitionWithIfMatch, LoopbackWithIfMatch.
  - apply (door_carries ctx t); [done..|]. do 4 (apply lreturns_step; intros ?). case_decide; [|apply settle_carries].
    apply (lreturns_bind _ _ (λ _, True)); [|intros; apply settle_carries].
    apply (lreturns_frame (λ _, attemptTransition e ctx a1 name t) advance (λ _, True)) with (cu := mkCursor ctx t false);
      [intros; by apply attemptTransition_carries| |done].
    intros c tx er Hr s0 cu b s1 cu' _ Hb. unfold advance in Hb. rewrite run_bind in Hb. simpl in Hb.
    destruct er; [done|]. by injection Hb as _ _ <-.
  - destruct (Hslot y) as (c' & s1 & Hw & He & Hc'). rewrite run_bind, Hw.
    apply (door_carries c' t); [done..|congruence|]. do 3 (apply lreturns_step; intros ?).
    apply (lreturns_frame (λ _, attemptTransition e c' a1 name t)) with (cu := mkCursor c' t false);
      [intros; by apply attemptTransition_carries| |done].
    intros c tx er Hr. apply advance_carries; [done|apply settle_carries].
  - destruct (Hslot y) as (c' & s1 & Hw & He & Hc'). rewrite run_bind, Hw.
    apply (door_carries c' t); [done..|congruence|]. do 4 (apply lreturns_step; intros ?).
    destruct (wf_States a1 !! a2); [apply settle_carries|]. do 2 (apply lreturns_step; intros ?).
    apply lreturns_set; [done|]. by apply lreturns_ret.
Qed.
End Consistent.

(** ** The end of a successful request *)

Section Answer.
Context {X : Env} {Y : EntityEnv} {L : EnvLaws} (e : Engine).
Implicit Types (s : Eng) (sc : txScope).

Definition scopeOk sc : Prop := carries (sc_ctx sc) (sc_txID sc) ∧ sc_txID sc ≠ "" ∧ sc_owned sc = true.

Lemma orReturn_Ret {S A} (m : M eerr S A) g x a x' : orReturn m g x = (Ret a, x') → m x = (Ret a, x').
Proof. unfold orReturn. rewrite run_bind. unfold try. by destruct (m x) as [[] ?]. Qed.
Lemma up_bind_Ret {A B} (m : EM A) (f : A → SL B) s sc b z :
  (up m ≫= f) (s, sc) = (Ret b, z) → ∃ a s1, m s = (Ret a, s1) ∧ f a (s1, sc) = (Ret b, z).
Proof. intros (a & [s1 sc1] & [H ->]%up_Ret & H2)%bind_Ret. eauto. Qed.
Lemma up_or_Ret {A B} (m : EM A) g (f : A → SL B) s sc b z :
  (orReturn (up m) g ≫= f) (s, sc) = (Ret b, z) → ∃ a s1, m s = (Ret a, s1) ∧ f a (s1, sc) = (Ret b, z).
Proof. intros (a & [s1 sc1] & [H ->]%orReturn_Ret%up_Ret & H2)%bind_Ret. eauto. Qed.

(** Through the engine the scope stays consistent. *)
Lemma engine_scope {B} x c d g (k : EngineResult → SL B) s sc b z :
  scopeOk sc → carries c (sc_txID sc) → m_TransactionID (Meta x) = sc_txID sc →
  (up (modify (set_ent x));; res ← orReturn (up (enter e c d)) g;
   Advance (er_FinalCtx res) (er_FinalTxID res);; k res) (s, sc) = (Ret b, z) →
  ∃ res s1 sc1, scopeOk sc1 ∧ k res (s1, sc1) = (Ret b, z).
Proof.
  intros (Hc & Hne & How) Hc' Hx ([] & s0 & [= <-] & H)%up_bind_Ret.
  apply up_or_Ret in H as (res & s1 & Hen & H). apply enter_carries with (t := sc_txID sc) in Hen; [|done..].
  apply bind_Ret in H as ([] & [s2 sc2] & Ha & H). exists res, s2, sc2. split; [|done].
  unfold Advance in Ha. case_decide; [by injection Ha as _ <-|]. rewrite run_bind in Ha. simpl in Ha.
  injection Ha as _ <-. by split_and!.
Qed.

(** A save, as a call on the trace. *)
Definition saves (c : Call) (tx : option string) (x : Entity) : Prop :=
  c = CSave tx x true ∨ ∃ y, c = CCompareAndSave tx x y true.
Lemma saveEntity_Ret ctx s s' :
  saveEntity ctx s = (Ret tt, s') → es_trace s' = es_trace s ++ [CSave (ec_tx ctx) (es_ent s) true].
Proof.
  unfold saveEntity, ent. mrun. rewrite run_bind. unfold try, call.
  destruct (xSave ctx (es_ent s) (es_w s)) as [[x'|er|p] w]; mrun; [by intros [= <-]|done..].
Qed.
Lemma compareAndSave_Ret ctx y s s' :
  compareAndSave ctx y s = (Ret tt, s') → es_trace s' = es_trace s ++ [CCompareAndSave (ec_tx ctx) (es_ent s) y true].
Proof.
  unfold compareAndSave, ent. mrun. rewrite run_bind. unfold try, call.
  destruct (xCompareAndSave ctx (es_ent s) y (es_w s)) as [[x'|er|p] w]; mrun; [by intros [= <-]|done..].
Qed.
Lemma saveUpdated_Ret ctx t tr y seg s s' :
  saveUpdated ctx t tr y seg s = (Ret tt, s') → ∃ c, saves c (ec_tx ctx) (es_ent s) ∧ es_trace s' = es_trace s ++ [c].
Proof.
  unfold saveUpdated. case_decide.
  - rewrite run_bind. unfold try. destruct (compareAndSave ctx y s) as [[[]|er|p] s1] eqn:E; [|case_match|done].
    + intros [= <-]. apply compareAndSave_Ret in E. eexists. split; [right; by eexists|exact E].
    + by intros ([] & ? & _ & [=])%bind_Ret.
    + done.
  - intros Hr%orReturn_Ret%saveEntity_Ret. eexists. split; [by left|exact Hr].
Qed.
Lemma commit_Ret s sc sc' s' :
  sc_owned sc = true → commitOr409 e (s, sc) = (Ret tt, (s', sc')) →
  es_trace s' = es_trace s ++ [CCommit (sc_txID sc) true] ∧ sc_done sc' = true.
Proof.
  intros How H%orReturn_Ret. unfold CommitScope in H. rewrite run_bind in H. simpl in H. rewrite How in H.
  apply bind_Ret in H as ([] & [s1 sc1] & H1 & H). rewrite run_bind in H. simpl in H.
  apply up_bind_Ret in H1 as (dead & s0 & Hd & H1). destruct dead; [done|]. injection H1 as -> ->.
  assert (Ht : es_trace s1 = es_trace s).
  { unfold ctxErr in Hd. destruct (ec_cancel (sc_ctx sc1)); [|by injection Hd as <-].
    unfold ask in Hd. destruct (xCtxErr (sc_ctx sc1) (es_w s)). by simplify_eq. }
  apply up_Ret in H as [H ->]. split; [|done]. unfold commitOwned in H. rewrite run_bind in H.
  unfold try, txCommit in H. destruct (hasTxMgr e); [|done]. rewrite run_bind in H. unfold try, call in H.
  destruct (xCommit _ _ _) as [[[]|er|p] w]; simpl in H; [by injection H as <-; simpl; rewrite Ht| |done].
  rewrite run_bind in H. unfold ask in H. by destruct (xCommitInterrupted _ _).
Qed.
(** The last section of an owned request: the trace it leaves. *)
Definition closing f fctx (x : Entity) (t t' : list Call) : Prop :=
  ∃ c, saves c (ec_tx fctx) x ∧ t' = t ++ [CAcquire f; c; CCommit f true; CUngate f].
Lemma final_Ret (m : SL unit) s sc s' sc' :
  scopeOk sc →
  (∀ s1 z, m (s1, sc) = (Ret tt, z) →
     z.2 = sc ∧ ∃ c, saves c (ec_tx (sc_ctx sc)) (es_ent s1) ∧ es_trace z.1 = es_trace s1 ++ [c]) →
  finalSection true (sc_txID sc) (m;; commitOr409 e) (s, sc) = (Ret tt, (s', sc')) →
  closing (sc_txID sc) (sc_ctx sc) (es_ent s) (es_trace s) (es_trace s') ∧ sc_done sc' = true.
Proof.
  intros (Hc & Hne & How) Hm H. unfold finalSection, gatedSection in H.
  apply up_bind_Ret in H as ([] & s1 & Ha & H). unfold acquire in Ha. rewrite decide_False in Ha by done.
  injection Ha as <-. unfold finally in H. set (s1 := set_trace _ s) in H.
  destruct ((m;; commitOr409 e) (s1, sc)) as [r [s2 sc2]] eqn:E. injection H as -> <- <-.
  apply bind_Ret in E as ([] & [s3 sc3] & Hs & E). destruct (Hm _ _ Hs) as (Hsc & c & Hsv & Ht). simpl in Hsc, Ht.
  subst sc3. apply commit_Ret in E as [Et Hd]; [|done]. split; [|done]. exists c. split; [done|].
  unfold ungated. rewrite decide_False by done. simpl. rewrite Et, Ht. simpl. by rewrite <- !app_assoc.
Qed.

(** What the body of a single-entity request leaves: its scope is done and the
    trace ends with the save and the commit of an entity in [P]. *)
Definition concludes (P : Entity → Prop) (z : Eng * txScope) : Prop :=
  sc_done z.2 = true ∧ ∃ t f fctx x, carries fctx f ∧ P x ∧ closing f fctx x t (es_trace z.1).

Lemma finishCreation_Ret res s s' : finishCreation res s = (Ret tt, s') → m_State (Meta (es_ent s')) ≠ "".
Proof.
  unfold finishCreation, state, setTransition, setState. mrun.
  destruct (decide _) as [Hd|Hd]; mrun; (case_decide; mrun; intros [= <-]; simpl; done).
Qed.
Lemma create_concludes uc ref bytes sc s res z :
  scopeOk sc → createInScope e uc ref bytes sc (s, sc) = (Ret res, z) → concludes (λ x, m_State (Meta x) ≠ "") z.
Proof.
  intros Hsc. unfold createInScope. assert (How : sc_owned sc = true) by apply Hsc. rewrite How.
  intros (id & s1 & _ & H)%up_bind_Ret. apply up_bind_Ret in H as (now & s2 & _ & H).
  apply engine_scope in H as (er & s3 & sc3 & Hsc3 & H); [|done|apply Hsc|unfold newEntity; by destruct (yAttribution _)].
  apply up_bind_Ret in H as ([] & s4 & Hst%finishCreation_Ret & H). rewrite run_bind in H. simpl in H.
  apply bind_Ret in H as ([] & [s5 sc5] & Hg & H). unfold joinedGuard in Hg. rewrite decide_False in Hg by (by intros [??]).
  injection Hg as <- <-. apply up_or_Ret in H as ([] & s6 & Hq & H).
  assert (Ht : es_ent s6 = es_ent s4).
  { unfold call in Hq. by destruct (xStore _ _ _) as [[] w]; simplify_eq. }
  apply bind_Ret in H as ([] & [s7 sc7] & Hf & H). rewrite run_ret in H. injection H as _ <-.
  apply final_Ret in Hf as [Hcl Hd]; [|done|].
  - split; [done|]. exists (es_trace s6), (sc_txID sc3), (sc_ctx sc3), (es_ent s6).
    split_and!; [apply Hsc3|by rewrite Ht|done].
  - intros sa [sb scb] [Hm ->]%orReturn_Ret%up_Ret. split; [done|]. apply saveEntity_Ret in Hm.
    eexists. split; [by left|exact Hm].
Qed.
Lemma update_concludes input opts v b sc s res z :
  scopeOk sc → updateInScope e input opts v b sc (s, sc) = (Ret res, z) → concludes (λ _, True) z.
Proof.
  intros Hsc. unfold updateInScope. assert (How : sc_owned sc = true) by apply Hsc. rewrite How.
  intros (? & s1 & _ & H)%up_or_Ret. apply up_bind_Ret in H as (old & s2 & _ & H).
  apply up_bind_Ret in H as (desc & s3 & _ & H). apply up_bind_Ret in H as ([v' b'] & s4 & _ & H).
  apply up_bind_Ret in H as (? & s5 & _ & H). apply up_bind_Ret in H as (kctx & s6 & Hk & H).
  assert (Hkc : carries kctx (sc_txID sc)).
  { unfold withUniqueKeys in Hk. case_decide; [injection Hk as <- _; apply Hsc|].
    apply bind_Ret in Hk as (? & ? & _ & Hk). injection Hk as <- _. apply Hsc. }
  apply up_bind_Ret in H as (now & s7 & _ & H).
  apply engine_scope in H as (er & s8 & sc8 & Hsc8 & H); [|done|done|unfold updatedEntity; by destruct (yAttribution _)].
  apply up_bind_Ret in H as ([] & s9 & _ & H). rewrite run_bind in H. simpl in H.
  apply bind_Ret in H as ([] & [s10 sc10] & Hg & H). unfold joinedGuard in Hg. rewrite decide_False in Hg by (by intros [??]).
  injection Hg as <- <-. apply up_or_Ret in H as ([] & s11 & _ & H).
  apply bind_Ret in H as ([] & [s12 sc12] & Hf & H). rewrite run_ret in H. injection H as _ <-.
  apply final_Ret in Hf as [Hcl Hd]; [|done|].
  - split; [done|]. exists (es_trace s11), (sc_txID sc8), (sc_ctx sc8), (es_ent s11). by split_and!; [apply Hsc8| |].
  - intros sa [sb scb] [Hm ->]%up_Ret. split; [done|]. by eapply saveUpdated_Ret.
Qed.

Lemma withScope_Ret {A} ctx (body : txScope → SL A) P s a s' :
  ec_tx ctx = None →
  (∀ sc s a z, scopeOk sc → body sc (s, sc) = (Ret a, z) → concludes P z) →
  withScope e ctx body s = (Ret a, s') →
  ∃ t f x c, saves c (Some f) x ∧ P x ∧
    es_trace s' = t ++ [CAcquire f; c; CCommit f true; CUngate f].
Proof.
  intros Hctx Hb H. unfold withScope in H. apply bind_Ret in H as ([[t c] ow] & s1 & Hbj%orReturn_Ret & H).
  unfold beginOrJoin in Hbj. rewrite Hctx in Hbj. apply bind_Ret in Hbj as ([t' c'] & s2 & Hbg & Hbj).
  injection Hbj as <- <- <- <-.
  assert (Hok : scopeOk (mkScope t' c' t' true false)).
  { assert (Hc := txBegin_carries e ctx _ _ _ Hbg). split; [exact Hc|]. split; [|done].
    unfold txBegin in Hbg. destruct (hasTxMgr e); [|done]. apply bind_Ret in Hbg as (tx & s3 & Hx & Hbg).
    apply bind_Ret in Hbg as ([] & s4 & _ & Hbg). injection Hbg as <- _ _. unfold call in Hx.
    destruct (xBegin ctx (es_w s)) as [[tx'| |] w] eqn:Eb; simplify_eq. by eapply begin_named. }
  apply scoped_Ret in H as (s3 & sc3 & H & Hd). destruct (Hb _ _ _ _ Hok H) as (Hdn & t & f & fctx & x & Hc & HP & k & Hsv & Ht).
  unfold ReleaseScope in Hd. rewrite decide_True in Hd by (by left). simpl in Hd, Ht. subst s3.
  exists t, f, x, k. split_and!; [|done|done]. unfold carries in Hc. by rewrite Hc in Hsv.
Qed.

Definition single (r : WriteRequest) : bool := match r with WCreate _ | WUpdate _ | WPatch _ => true | _ => false end.


(** ** The accounts of a collection *)

(** A failure reported for item [i] carries its index, and the item a precondition. *)
Definition accounted (i : nat) (it : UpdateCollectionItem) (r : UpdateCollectionItemFailure + string) : Prop :=
  match r with inl f => uf_ItemIndex f = i ∧ ut_IfMatch it ≠ "" | inr _ => True end.
Lemma saveUpdatedItem_true ctx t tr y seg : returns (saveUpdatedItem ctx t tr y seg) (λ b, b = true → y ≠ "").
Proof.
  apply returns_skip. intros []. apply returns_skip. intros [er|[]]; [|by apply returns_ret].
  destruct (_ && isErr er ErrConflict) eqn:Eb; [|apply returns_fail]. apply returns_skip. intros []. apply returns_ret.
  intros _. apply andb_true_iff in Eb as [Eb _]. apply andb_true_iff in Eb as [Eb _]. by apply bool_decide_eq_true in Eb.
Qed.
Lemma returns_up {A L'} (m : EM A) P : returns m P → returns (up (L := L') m) P.
Proof. intros Hm [s l] a [s' l'] [H _]%up_Ret. by eapply Hm. Qed.
Lemma returns_gated {A} t (m : SL A) P : returns m P → returns (gatedSection t m) P.
Proof.
  intros Hm s a s' ([] & x & _ & H)%bind_Ret. unfold finally in H. destruct (m x) as [o [s1 sc1]] eqn:Eo.
  injection H as -> _. by eapply Hm.
Qed.
Lemma returns_final {A} ow t (m : SL A) P : returns m P → returns (finalSection ow t m) P.
Proof. intros Hm. unfold finalSection. destruct ow; [by apply returns_gated|done]. Qed.
Lemma updateItem_accounted ctx now ow t cur i it :
  returns (updateItem e ctx now ow t cur i it) (λ r, accounted i it.1 r.2).
Proof.
  unfold updateItem. destruct it as [item v], cur as [c tx]. simpl. do 7 (apply returns_skip; intros ?).
  apply returns_skip. intros [er|res].
  - destruct (isolates (ut_IfMatch item) er) eqn:Ei; [|apply returns_fail]. apply returns_skip. intros x.
    apply returns_ret. split; [done|]. unfold isolates in Ei. do 3 apply andb_true_iff in Ei as [Ei _].
    by apply bool_decide_eq_true in Ei.
  - apply returns_skip. intros []. apply returns_skip. intros fin. do 2 (apply returns_skip; intros []).
    eapply (returns_bind _ _ (λ b, b = true → ut_IfMatch item ≠ "")).
    + apply returns_final, returns_up, saveUpdatedItem_true.
    + intros b Hb. apply returns_skip. intros x. apply returns_ret. destruct b; simpl; auto.
Qed.

Lemma updateItems_accounted ctx now ow t cur i items :
  returns (updateItems e ctx now ow t cur i items)
    (λ r, length r.2 = length items ∧
       ∀ k o, r.2 !! k = Some o → ∃ it, items !! k = Some it ∧ accounted (i + k) it.1 o).
Proof.
  revert cur i. induction items as [|it items IH]; intros cur i; simpl; [by apply returns_ret|].
  eapply returns_bind; [apply updateItem_accounted|]. intros [[c tx] r] Hr. eapply returns_bind; [apply IH|].
  intros [tx' rs] [Hlen Hrs]. apply returns_ret. simpl in *. split; [lia|]. intros [|k] o Ho; simpl in Ho.
  - injection Ho as <-. exists it. by rewrite Nat.add_0_r.
  - destruct (Hrs k o Ho) as (it' & Hit & Ha). exists it'. by rewrite Nat.add_succ_r.
Qed.
Lemma parsed_items items : returns (mapM parseUpdate items) (λ l, l.*1 = items).
Proof.
  induction items as [|it items IH]; simpl; [by apply returns_ret|].
  apply (returns_bind _ _ (λ p, p.1 = it)).
  { unfold parseUpdate. case_decide; [apply returns_fail|]. destruct (yDecodeJSON _); [apply returns_fail|].
    apply returns_skip. intros []. by apply returns_ret. }
  intros [it' v] Hp. eapply returns_bind; [apply IH|]. intros l Hl. apply returns_ret. simpl in Hp. csimpl. by rewrite Hp, Hl.
Qed.
Lemma partition_length {A B} (rs : list (A + B)) : length (successesOf rs) + length (failuresOf rs) = length rs.
Proof. induction rs as [|[]]; simpl; lia. Qed.
Lemma failures_sorted (rs : list (UpdateCollectionItemFailure + string)) i :
  (∀ k f, rs !! k = Some (inl f) → uf_ItemIndex f = i + k) →
  StronglySorted lt (uf_ItemIndex <$> failuresOf rs) ∧ Forall (λ f, i ≤ uf_ItemIndex f) (failuresOf rs).
Proof.
  revert i. induction rs as [|r rs IH]; intros i Hk; simpl; [by split; constructor|].
  destruct (IH (S i)) as [Hs Hf]; [intros k f Hr; rewrite (Hk (S k) f Hr); lia|].
  assert (Hle : Forall (λ f, i ≤ uf_ItemIndex f) (failuresOf rs)) by (eapply Forall_impl; [exact Hf|simpl; lia]).
  destruct r as [f|x]; [|done]. assert (Hi : uf_ItemIndex f = i) by (rewrite (Hk 0 f eq_refl); lia).
  split; [|constructor; [lia|done]]. csimpl. constructor; [done|]. apply Forall_fmap.
  eapply Forall_impl; [exact Hf|simpl; lia].
Qed.

End Answer.

(** ** Witnesses *)

#[local] Existing Instances Toy.env EntityToy.eenv.


(** Two updates, the second with an outdated token. *)
Definition mixedUpdates : list UpdateCollectionItem := [mkUpdateItem "e1" "a" "" ""; mkUpdateItem "e1" "b" "" "old"].
