(* ===== verification/EntityDeleteProof.v ===== *)
(** * The entity service: the accounts of a delete

    A conditional delete answers with how many entities matched, how many were
    removed, and an error for each of the others. *)

From stdpp Require Import base gmap strings list.
From S2P Require Import Prelude GoStrings Spi Schema SchemaAdmit Workflow WorkflowRun WorkflowFire WorkflowFrame WorkflowSample WorkflowSegments MergePatch EntityScope EntityWrite EntityDelete EntitySettle EntitySample EntityAnswer.

Section Accounts.
Context {X : Env} {Y : EntityEnv} {D : DeleteEnv} (e : Engine).
(** A scan yields each entity once. *)
Hypothesis scan_distinct : ∀ ctx ref f pit w es closing w',
  dIterate ctx ref f pit w = (Ret (es, closing), w') → NoDup ((λ x, m_ID (Meta x)) <$> es).
Implicit Types (r : DeleteResult) (ids : list string) (chunk : list batchTarget).

Definition failures r : nat := size (dl_IDToError r).
Definition unreported r id : Prop := dl_IDToError r !! id = None.
(** From [r] to [r'], [n] more entities are accounted for; errors only on [ids]. *)
Definition accounts r r' (n : nat) ids : Prop :=
  dl_MatchedCount r' = dl_MatchedCount r ∧
  dl_RemovedCount r' + failures r' = dl_RemovedCount r + failures r + n ∧
  (∀ id, id ∉ ids → dl_IDToError r' !! id = dl_IDToError r !! id).

Lemma accounts_refl r ids : accounts r r 0 ids.
Proof. split_and!; [done|lia|done]. Qed.
Lemma accounts_trans r1 r2 r3 n m ids ids' :
  accounts r1 r2 n ids → accounts r2 r3 m ids' → accounts r1 r3 (n + m) (ids ++ ids').
Proof.
  intros (M1 & S1 & D1) (M2 & S2 & D2). split_and!; [congruence|lia|]. intros id Hid.
  rewrite D2, D1; [done|set_solver..].
Qed.
Lemma accounts_mono r r' n ids ids' : ids ⊆ ids' → accounts r r' n ids → accounts r r' n ids'.
Proof. intros Hs (HM & HS & HD). split_and!; [done..|]. intros id Hid. apply HD. set_solver. Qed.
Lemma accounts_error r id code : unreported r id → accounts r (noteError id code r) 1 [id].
Proof.
  intros Hu. split_and!; [done|unfold failures; simpl; rewrite map_size_insert_None by done; lia|].
  intros id' Hid. simpl. rewrite lookup_insert_ne; [done|set_solver].
Qed.
Lemma accounts_removed r n ids : accounts r (noteRemoved n r) n ids.
Proof. split_and!; [done|unfold failures; simpl; lia|done]. Qed.
Lemma accounts_ids r l ids : accounts r (foldl (λ r id, noteID id r) r l) 0 ids.
Proof.
  revert r. induction l as [|id l IH]; intros r; simpl; [apply accounts_refl|].
  destruct (IH (noteID id r)) as (? & ? & ?). by split_and!.
Qed.
Lemma accounts_errors r code ids :
  NoDup ids → Forall (unreported r) ids → accounts r (foldl (λ r id, noteError id code r) r ids) (length ids) ids.
Proof.
  revert r. induction ids as [|id ids IH]; intros r; simpl; [intros; apply accounts_refl|].
  intros [Hni Hnd]%NoDup_cons [Hu Hf]%Forall_cons.
  apply (accounts_trans _ (noteError id code r) _ 1 _ [id]); [by apply accounts_error|]. apply IH; [done|].
  rewrite Forall_forall in Hf |- *. intros id' Hin. specialize (Hf id' Hin). unfold unreported in *. simpl.
  rewrite lookup_insert_ne; [done|]. by intros <-.
Qed.
Lemma unreported_later r r' n ids id : accounts r r' n ids → id ∉ ids → unreported r id → unreported r' id.
Proof. intros (_ & _ & HD) Hid. unfold unreported. by rewrite HD. Qed.
Lemma unreported_others r r' n id ids :
  accounts r r' n [id] → id ∉ ids → Forall (unreported r) ids → Forall (unreported r') ids.
Proof.
  intros Ha Hni Hf. rewrite Forall_forall in Hf |- *. intros id' Hin. apply (unreported_later _ _ _ _ _ Ha); [|by apply Hf].
  by intros ->%list_elem_of_singleton.
Qed.

(** ** One transaction *)

Lemma deleteIDs_accounts ctx txCtx v ids r :
  NoDup ids → Forall (unreported r) ids →
  returns (deleteIDs ctx txCtx v ids r) (λ r', accounts r r' (length ids) ids).
Proof.
  revert r. induction ids as [|id ids IH]; intros r; simpl; [intros; apply returns_ret, accounts_refl|].
  intros [Hni Hnd]%NoDup_cons [Hu Hf]%Forall_cons. apply returns_skip. intros [].
  set (r0 := if v then noteID id r else r).
  assert (H0 : accounts r r0 0 [] ∧ unreported r0 id ∧ Forall (unreported r0) ids).
  { unfold r0. destruct v; split_and!; done. }
  destruct H0 as (Ha & Hu0 & Hf0).
  assert (Hrest : ∀ r1, accounts r0 r1 1 [id] →
    returns (deleteIDs ctx txCtx v ids r1) (λ r', accounts r r' (S (length ids)) (id :: ids))).
  { intros r1 H1. intros s r' s' H. apply (IH r1) in H; [|done|by eapply unreported_others].
    exact (accounts_trans _ _ _ _ _ _ _ Ha (accounts_trans _ _ _ _ _ _ _ H1 H)). }
  apply returns_skip. intros [er|[]]; apply Hrest; [by apply accounts_error|].
  apply accounts_removed.
Qed.

(** ** Batches *)

Definition alive (ctx : ECtx) : Prop := ∀ s, (ctxErr ctx s).1 = Ret None.
Lemma passAlive_returns ctx : alive ctx → returns (try (passAlive ctx)) (λ o, o = inr tt).
Proof.
  intros Ha s o s'. unfold try, passAlive. rewrite run_bind. specialize (Ha s). destruct (ctxErr ctx s) as [d s1].
  simpl in Ha. subst d. by intros [= <- _].
Qed.

(** What a pass over a chunk leaves: its errors, and the items still pending. *)
Definition passed_over r ids (n : nat) (o : DeleteResult * list string * option eerr) : Prop :=
  let '(r', pending, _) := o in
  NoDup pending ∧ Forall (unreported r') pending ∧ pending ⊆ ids ∧
  ∃ k, accounts r r' k ids ∧ k + length pending = n.

Lemma deleteTargets_accounts ctx txCtx chunk r pending :
  alive ctx → NoDup (pending ++ (bt_id <$> chunk)) → Forall (unreported r) (pending ++ (bt_id <$> chunk)) →
  returns (deleteTargets ctx txCtx chunk r pending)
    (λ o, passed_over r (pending ++ (bt_id <$> chunk)) (length pending + length chunk) o ∧ o.2 = None).
Proof.
  intros Ha. revert r pending. induction chunk as [|t chunk IH]; intros r pending Hnd Hf; simpl.
  { rewrite app_nil_r in *. apply returns_ret. split; [|done]. split_and!; [done..|]. exists 0.
    split; [apply accounts_refl|simpl; lia]. }
  csimpl in Hnd. csimpl in Hf. csimpl. set (id := bt_id t) in *. set (ids := bt_id <$> chunk) in *.
  assert (Hid : id ∉ pending ++ ids ∧ NoDup (pending ++ ids)).
  { rewrite <- Permutation_middle in Hnd. by apply NoDup_cons in Hnd. }
  destruct Hid as [Hni Hnd']. rewrite <- Permutation_middle in Hf. apply Forall_cons in Hf as [Hu Hf].
  assert (Herr : ∀ code, returns (deleteTargets ctx txCtx chunk (noteError id code r) pending)
    (λ o, passed_over r (pending ++ id :: ids) (length pending + S (length chunk)) o ∧ o.2 = None)).
  { intros code s [[r' p'] st] s' H. assert (Hc := accounts_error r id code Hu).
    apply IH in H; [|done|by eapply unreported_others].
    destruct H as ((Hnp & Hfp & Hsub & n & Hac & Hn) & Hst). split; [|done]. split_and!; [done..|set_solver|].
    exists (S n). split; [|lia]. eapply accounts_mono; [|exact (accounts_trans _ _ _ _ _ _ _ Hc Hac)]. set_solver. }
  eapply returns_bind; [by apply passAlive_returns|]. intros o ->. apply returns_skip. intros [er|x]; [apply Herr|].
  case_decide; [|apply Herr]. apply returns_skip. intros [er|[]]; [apply Herr|].
  intros s [[r' p'] st] s' H'.
  apply IH in H'; [|by rewrite <- app_assoc|rewrite <- app_assoc; csimpl; by rewrite <- Permutation_middle; constructor].
  rewrite <- app_assoc in H'. csimpl in H'. rewrite length_app in H'. simpl in H'.
  replace (length pending + S (length chunk)) with (length pending + 1 + length chunk) by lia. exact H'.
Qed.

(** ** Scopes and sections *)

Lemma returns_withScope {A} ctx (body : txScope → SL A) P :
  (∀ sc, returns (body sc) P) → returns (withScope e ctx body) P.
Proof.
  intros Hb. apply returns_skip. intros [[t c] ow] s a s' (s1 & sc1 & H & _)%scoped_Ret.
  destruct ow; [by eapply Hb|exact (returns_gated t _ _ (Hb _) _ _ _ H)].
Qed.
Lemma deleteOneBatch_accounts ctx chunk r :
  alive ctx → NoDup (bt_id <$> chunk) → Forall (unreported r) (bt_id <$> chunk) →
  returns (deleteOneBatch e ctx chunk r) (λ r', accounts r r' (length chunk) (bt_id <$> chunk)).
Proof.
  intros Ha Hnd Hf. apply returns_withScope. intros sc. apply returns_skip. intros [].
  eapply (returns_bind _ _ (passed_over r (bt_id <$> chunk) (length chunk))).
  - apply returns_final. eapply returns_bind; [by apply returns_up, deleteTargets_accounts|].
    intros [[r' p] st] [Hp Hst]. simpl in Hst. subst st. apply returns_skip. intros c. by apply returns_ret.
  - intros [[r' p] failed] (Hnp & Hfp & Hsub & k & Hac & Hk). rewrite <- Hk. destruct failed as [er|]; apply returns_ret.
    + eapply accounts_mono; [|exact (accounts_trans _ _ _ _ _ _ _ Hac (accounts_errors _ (batchFailure er) _ Hnp Hfp))]. set_solver.
    + eapply accounts_mono; [|exact (accounts_trans _ _ _ _ _ _ _ Hac (accounts_removed _ (length p) []))]. set_solver.
Qed.

(** ** Live data *)

Lemma pullChunk_spec b (seen : gset string) es :
  NoDup ((λ x, m_ID (Meta x)) <$> es) →
  let '(chunk, _, _) := pullChunk b seen es in
  NoDup (bt_id <$> chunk) ∧ Forall (λ id, id ∉ seen) (bt_id <$> chunk) ∧
  bt_id <$> chunk ⊆ (λ x, m_ID (Meta x)) <$> es.
Proof.
  revert b. induction es as [|x es IH]; intros b Hnd; simpl; [split_and!; [constructor|constructor|done]|].
  csimpl in Hnd. apply NoDup_cons in Hnd as [Hni Hnd]. case_decide as Hs.
  - specialize (IH b Hnd). destruct (pullChunk b seen es) as [[c n] o]. destruct IH as (? & ? & ?).
    split_and!; [done..|csimpl; set_solver].
  - destruct b as [|[|b]].
    1,2: split_and!; [apply NoDup_singleton|by repeat constructor|csimpl; set_solver].
    specialize (IH (S b) Hnd). destruct (pullChunk (S b) seen es) as [[c n] o]. destruct IH as (? & ? & Hsub).
    csimpl. split_and!; [|by constructor|set_solver]. apply NoDup_cons. split; [|done]. intros Hin. by apply Hni, Hsub.
Qed.

(** Everything matched so far is accounted for. *)
Definition balanced r : Prop := dl_MatchedCount r = dl_RemovedCount r + failures r.
Lemma balanced_batch r r' n ids : balanced r → accounts (noteMatched n r) r' n ids → balanced r'.
Proof. unfold balanced, failures. intros Hb (HM & HS & _). unfold failures in HS. simpl in *. lia. Qed.

Lemma scan_returns ctx ref f pit s es cl s' :
  call (dIterate ctx ref f pit) s = (Ret (es, cl), s') → NoDup ((λ x, m_ID (Meta x)) <$> es).
Proof.
  unfold call. destruct (dIterate ctx ref f pit (es_w s)) as [[[es' cl']| |] w] eqn:Hi; intros; simplify_eq.
  by eapply scan_distinct.
Qed.

Lemma deleteCycles_balanced ctx ref f v b budget (seen : gset string) r :
  alive ctx → balanced r → (∀ id, is_Some (dl_IDToError r !! id) → id ∈ seen) →
  returns (deleteCycles e ctx ref f v b budget seen r) balanced.
Proof.
  intros Ha. revert seen r. induction budget as [|budget IH]; intros seen r Hb Hseen; simpl; apply returns_skip; intros [];
    [apply returns_fail|].
  eapply (returns_bind _ _ (λ p, NoDup ((λ x, m_ID (Meta x)) <$> p.1))).
  { intros s [es cl] s' H%orReturn_Ret. by eapply scan_returns. }
  intros [es closing] Hnd. simpl in Hnd. assert (Hp := pullChunk_spec b seen es Hnd).
  destruct (pullChunk b seen es) as [[chunk n] out]. destruct Hp as (Hnc & Hfc & _).
  destruct (closing n); [apply returns_fail|]. case_decide; [by apply returns_ret|].
  set (r0 := if v then foldl (λ r t, noteID (bt_id t) r) r chunk else r).
  assert (Hr0 : accounts r r0 0 []).
  { unfold r0. destruct v; [|apply accounts_refl]. assert (Hi := accounts_ids r (bt_id <$> chunk) []).
    by rewrite foldl_fmap in Hi. }
  assert (Hu : Forall (unreported (noteMatched (length chunk) r0)) (bt_id <$> chunk)).
  { eapply Forall_impl; [exact Hfc|]. intros id Hid. unfold unreported. simpl.
    destruct Hr0 as (_ & _ & ->); [|set_solver]. apply eq_None_not_Some. intros Hs. by apply Hid, Hseen. }
  eapply returns_bind; [by apply deleteOneBatch_accounts|]. intros r' Hac.
  assert (Hb0 : balanced r0).
  { destruct Hr0 as (HM & HS & _). unfold balanced in *. rewrite HM. lia. }
  assert (Hb' := balanced_batch _ _ _ _ Hb0 Hac).
  destruct out; [by apply returns_ret|]. apply IH; [done|].
  intros id Hid. apply elem_of_union. destruct (decide (id ∈ bt_id <$> chunk)) as [Hin|Hout].
  - right. unfold failedOf. apply elem_of_list_to_set, list_elem_of_filter. done.
  - left. apply Hseen. destruct Hac as (_ & _ & HD). rewrite HD in Hid by done. simpl in Hid.
    destruct Hr0 as (_ & _ & HD0). rewrite HD0 in Hid by set_solver. done.
Qed.

(** ** As at a point in time *)

Lemma drain_distinct ctx ref f pit : returns (drainDeleteSelection ctx ref f pit) (λ es, NoDup ((λ x, m_ID (Meta x)) <$> es)).
Proof.
  eapply (returns_bind _ _ (λ p, NoDup ((λ x, m_ID (Meta x)) <$> p.1))).
  - intros s [es cl] s' H%orReturn_Ret. by eapply scan_returns.
  - intros [es cl] H. destruct (cl (length es)); [apply returns_fail|by apply returns_ret].
Qed.
Lemma readBaselines_accounts ctx ids r :
  NoDup ids → Forall (unreported r) ids →
  returns (readBaselines ctx ids r) (λ '(ts, r'), passed_over r ids (length ids) (r', bt_id <$> ts, None)).
Proof.
  revert r. induction ids as [|id ids IH]; intros r; simpl.
  { intros _ _. apply returns_ret. split_and!; [constructor..|done|]. exists 0. split; [apply accounts_refl|done]. }
  intros [Hni Hnd]%NoDup_cons [Hu Hf]%Forall_cons. apply returns_skip. intros [er|x].
  - assert (Hc := accounts_error r id (perIDDeleteError er) Hu). intros s [ts r'] s' H.
    apply IH in H as (Hnp & Hfp & Hsub & k & Hac & Hk); [|done|by eapply unreported_others].
    split_and!; [done..|set_solver|]. exists (S k). split; [exact (accounts_trans _ _ _ _ _ _ _ Hc Hac)|lia].
  - eapply returns_bind; [by apply IH|]. intros [ts r'] (Hnp & Hfp & Hsub & k & Hac & Hk). apply returns_ret.
    csimpl. split_and!; [apply NoDup_cons; by auto|constructor; [|done]|set_solver|].
    { by eapply unreported_later. }
    exists k. split; [eapply accounts_mono; [|done]; set_solver|lia].
Qed.
Lemma deleteChunks_accounts ctx b fuel targets r :
  alive ctx → 0 < b → length targets ≤ fuel → NoDup (bt_id <$> targets) → Forall (unreported r) (bt_id <$> targets) →
  returns (deleteChunks e ctx b fuel targets r) (λ r', accounts r r' (length targets) (bt_id <$> targets)).
Proof.
  intros Ha Hb. revert targets r. induction fuel as [|fuel IH]; intros targets r Hl Hnd Hf.
  { destruct targets; [apply returns_ret, accounts_refl|simpl in Hl; lia]. }
  destruct targets as [|t targets]; [apply returns_ret, accounts_refl|].
  unfold deleteChunks; fold deleteChunks. set (all := t :: targets) in *. apply returns_skip. intros [].
  assert (Hlen : length (drop b all) ≤ fuel) by (rewrite length_drop; unfold all in *; simpl in *; lia).
  assert (Hsplit : bt_id <$> all = (bt_id <$> take b all) ++ (bt_id <$> drop b all)) by by rewrite <- fmap_app, take_drop.
  rewrite Hsplit in Hnd, Hf |- *. apply NoDup_app in Hnd as (Hn1 & Hdis & Hn2). apply Forall_app in Hf as [Hf1 Hf2].
  eapply returns_bind; [by apply deleteOneBatch_accounts|]. intros r' Hac s r'' s' H.
  apply IH in H; [|done..|].
  - replace (length all) with (length (take b all) + length (drop b all)) by (rewrite <- length_app, take_drop; done).
    exact (accounts_trans _ _ _ _ _ _ _ Hac H).
  - rewrite Forall_forall in Hf2 |- *. intros id Hid. apply (unreported_later _ _ _ _ _ Hac); [|by apply Hf2].
    intros Hin. by eapply Hdis.
Qed.

(** ** The request *)

Lemma deleteBatched_balanced n ctx ref cond pit v b :
  alive ctx → 0 < b → returns (deleteBatched e n ctx ref cond pit v b) balanced.
Proof.
  intros Ha Hb. apply returns_withScope. intros sc. apply returns_skip. intros f. apply returns_up.
  destruct pit as [pit|]; [|apply deleteCycles_balanced; [done|done|intros id [? ?]; set_solver]].
  eapply (returns_bind _ _ (λ '(ts, r'), NoDup (bt_id <$> ts) ∧ Forall (unreported r') (bt_id <$> ts) ∧
    dl_MatchedCount r' = dl_RemovedCount r' + failures r' + length ts)).
  - intros s [ts r'] s' (es & s1 & H1 & H2)%bind_Ret. apply orReturn_Ret in H1. apply drain_distinct in H1.
    set (ids := (λ x, m_ID (Meta x)) <$> es) in *. set (r0 := noteMatched (length ids) (mkDelete (dModelID ref) 0 0 ∅ [])) in *.
    set (r1 := if v then foldl (λ r id, noteID id r) r0 ids else r0) in *.
    assert (Hr : accounts r0 r1 0 []) by (unfold r1; destruct v; [apply accounts_ids|apply accounts_refl]).
    apply readBaselines_accounts in H2 as (? & ? & _ & k & Hac & Hk); [|done|].
    + split_and!; [done..|]. destruct (accounts_trans _ _ _ _ _ _ _ Hr Hac) as (HM & HS & _).
      rewrite length_fmap in Hk. unfold failures in *.
      replace (dl_MatchedCount r0) with (length ids) in HM by done. simpl in HS.
      replace (size (dl_IDToError r0)) with 0 in HS by done. lia.
    + apply Forall_forall. intros id _. destruct Hr as (_ & _ & HD). unfold unreported. rewrite HD by set_solver. done.
  - intros [ts r'] (Hnd & Hf & Hm) s r'' s' H. apply deleteChunks_accounts in H as (HM & HS & _); [|done..].
    unfold balanced. lia.
Qed.
Lemma deleteMatching_balanced ctx ref cond pit v sc : returns (deleteMatchingInScope e ctx ref cond pit v sc) balanced.
Proof.
  apply returns_skip; intros []. apply returns_skip; intros []. apply returns_skip; intros []. apply returns_skip; intros f.
  eapply (returns_bind _ _ NoDup).
  - intros s ids s' H%orReturn_Ret. revert s ids s' H. apply returns_up. eapply returns_bind; [apply drain_distinct|].
    intros es Hnd. by apply returns_ret.
  - intros ids Hnd. apply returns_final. eapply returns_bind.
    + apply returns_up, deleteIDs_accounts; [done|]. by apply Forall_forall.
    + intros r (HM & HS & _). apply returns_skip. intros []. apply returns_ret. unfold balanced.
      simpl in HM, HS. unfold failures at 2 in HS. simpl in HS. rewrite map_size_empty in HS. lia.
Qed.

End Accounts.

(** ** A sample store *)

Module DeleteToy.
#[local] Existing Instances Toy.env EntityToy.eenv.
(** Beside its row, a scan as at a point in time yields an entity deleted since. *)
Definition gone : Entity :=
  mkEntity (mkMeta "e2" "t1" Sample.model "OPEN" 0 0 0 "" "" "u" "user" (mkPrincipal "u" "user") "") "d".
Definition scan (pit : option Time) (w : Toy.World) : list Entity :=
  match Toy.tw_row w, pit with
  | None, None => []
  | None, Some _ => [gone]
  | Some x, None => [x]
  | Some x, Some _ => if decide (m_ID (Meta x) = "e2") then [x] else [x; gone]
  end.
Definition delete (id : string) : M err Toy.World unit :=
  w ← get;
  match Toy.tw_row w with
  | Some x => if decide (m_ID (Meta x) = id)
              then modify (λ w, Toy.mkWorld (Toy.tw_next w) None (Toy.tw_tasks w) (Toy.tw_workflows w) (Toy.tw_now w))
              else fail ErrNotFound
  | None => fail ErrNotFound
  end.
#[export] Instance denv : DeleteEnv (X := Toy.env) := {|
  dDelete := λ _, delete;
  dDeleteAll := λ _ _, mret tt;
  dFilter := unit;
  dEverything := tt;
  dIterate := λ _ _ _ pit, gets (λ w, (scan pit w, λ _, None));
  dValidateCondition := λ _, None;
  dConditionTypeCode := λ _, "";
  dConditionToFilter := λ _ _, inr tt;
  dQuerySentinel := λ _ _, false;
  dModelID := λ _, "model"
|}.
Lemma scan_once ctx ref f pit w es cl w' :
  dIterate ctx ref f pit w = (Ret (es, cl), w') → NoDup ((λ x, m_ID (Meta x)) <$> es).
Proof.
  unfold dIterate; simpl. unfold gets. intros [= <- _ _]. unfold scan.
  destruct (Toy.tw_row w), pit; try case_decide; csimpl; try apply NoDup_singleton; try apply NoDup_nil_2.
  apply NoDup_cons. split; [by intros ?%list_elem_of_singleton|apply NoDup_singleton].
Qed.
(** The store with the clock at [now]. *)
Definition storeAt (now : Z) : Eng :=
  mkEng (X := Toy.env) (Toy.entity "OPEN" "d" "tx0") [] None []
    (Toy.mkWorld 1 (Some (Toy.entity "OPEN" "d" "tx0")) ∅ [] now).
End DeleteToy.
Import DeleteToy.
#[local] Existing Instances Toy.env EntityToy.eenv.


(** A caller that goes away inside the last batch: the answer is a success that says
    one entity matched, none was removed and none failed. *)
Lemma cancelled_batch_unreported :
  (DeleteEntitiesConditional Toy.engine 0 EntityToy.outside Sample.model "" None false 2 (storeAt (-3))).1
    = Ret (mkDelete "model" 1 0 ∅ []).
Proof. by_eval. Qed.
