(* ===== verification/AuthKeys.v ===== *)
(** * Keys and clients of the built-in identity service

    [internal/auth/store.go]: the in-memory stores of signing keys, trusted keys and
    machine-to-machine clients; [key_source.go], the lookup a token's signature is
    checked with; [jwks.go], what other verifiers are told.  Key generation, RSA and
    bcrypt are operations; the clock reading is an argument of each operation that
    reads it. *)

From stdpp Require Import base gmap strings list.
From S2P Require Import Prelude GoStrings Spi Schema SchemaAdmit.

(** ** Keys *)

Record PublicKey := mkPub { pk_N : N; pk_E : Z }.
#[export] Instance PublicKey_eq_dec : EqDecision PublicKey.
Proof. solve_decision. Defined.

(** RSA signatures over SHA-256, and bcrypt with its salt drawn by the caller. *)
Class AuthPrims := {
  PrivateKey : Type;
  Public : PrivateKey → PublicKey;
  SignPKCS1v15 : PrivateKey → string → option string;
  VerifyPKCS1v15 : PublicKey → string → string → bool;
  bcryptHash : string → string → option string;
  bcryptCompare : string → string → bool
}.
Class AuthPrimsLaws {P : AuthPrims} : Prop := {
  verify_signed k m sig : SignPKCS1v15 k m = Some sig → VerifyPKCS1v15 (Public k) m sig = true;
  compare_hashed salt s h : bcryptHash salt s = Some h → bcryptCompare h s = true
}.

(** The order in which a map is ranged over. *)
Class MapOrder := {
  range : ∀ {A}, gmap string A → list (string * A);
  range_perm : ∀ {A} (m : gmap string A), range m ≡ₚ map_to_list m
}.

Record RotateOptions := mkRotate { ro_Invalidate : bool; ro_GracePeriodSec : Z }.

(** [now.Add(time.Duration(sec) * time.Second)]: the duration is an [int64]. *)
Definition after (now : Time) (sec : Z) : Time := (now + wrap64 (sec * 1000000000))%Z.
(** [validTo == nil || now.Before( *validTo)]. *)
Definition unexpired (now : Time) (validTo : option Time) : bool :=
  match validTo with None => true | Some t => bool_decide (now < t)%Z end.

Inductive authErr : Type :=
| KeyPairNotFound | TrustedKeyNotFound | ClientNotFound | ClientExists
| KeyOwnedByDifferentTenant | TrustedKeyCapReached
| ValidToRequired | ValidToInPast | ValidToBeforeFrom
| KeyInvalidated | HashFailed | StorageFailed (partial : bool).
#[export] Instance authErr_eq_dec : EqDecision authErr.
Proof. solve_decision. Defined.

(** The checks of a new validity window. *)
Definition checkWindow (now validFrom validTo : Time) : option authErr :=
  if decide (validTo ≤ now)%Z then Some ValidToInPast
  else if decide (validTo ≤ validFrom)%Z then Some ValidToBeforeFrom
  else None.

Section Stores.
Context {P : AuthPrims}.

(** ** Signing keys *)

Record KeyPair := mkKeyPair {
  kp_KID : string;
  kp_Audience : string;
  kp_Algorithm : string;
  kp_PublicKey : PublicKey;
  kp_PrivateKey : PrivateKey;
  kp_Active : bool;
  kp_ValidFrom : Time;
  kp_ValidTo : option Time
}.
Abbreviation KeyStore := (gmap string KeyPair).
Implicit Types (ks : KeyStore) (kp : KeyPair).

Definition kp_set (active : bool) (validFrom : Time) (validTo : option Time) kp : KeyPair :=
  mkKeyPair (kp_KID kp) (kp_Audience kp) (kp_Algorithm kp) (kp_PublicKey kp) (kp_PrivateKey kp) active validFrom validTo.
Definition retire (expiry : Time) kp : KeyPair := kp_set false (kp_ValidFrom kp) (Some expiry) kp.

(** A rotation retires the other active keys of the audience. *)
Definition sibling kp existing : bool :=
  bool_decide (kp_Audience existing = kp_Audience kp) && kp_Active existing && bool_decide (kp_KID existing ≠ kp_KID kp).
Definition Save (now : Time) kp (opts : RotateOptions) ks : KeyStore :=
  let ks := if ro_Invalidate opts
            then (λ existing, if sibling kp existing then retire (after now (ro_GracePeriodSec opts)) existing else existing) <$> ks
            else ks in
  <[kp_KID kp := kp]> ks.
Definition Get (kid : string) ks : authErr + KeyPair :=
  match ks !! kid with None => inl KeyPairNotFound | Some kp => inr kp end.

(** The usable key of an audience with the latest [ValidFrom]. *)
Definition usable (now : Time) (audience : string) kp : bool :=
  bool_decide (kp_Audience kp = audience) && kp_Active kp && unexpired now (kp_ValidTo kp).
Definition better (best : option KeyPair) kp : option KeyPair :=
  match best with
  | None => Some kp
  | Some b => if decide (kp_ValidFrom b < kp_ValidFrom kp)%Z then Some kp else best
  end.
Definition GetActive `{O : MapOrder} (now : Time) (audience : string) ks : authErr + KeyPair :=
  match foldl better None (filter (λ kp, usable now audience kp = true) (range ks).*2) with
  | None => inl KeyPairNotFound
  | Some kp => inr kp
  end.

Definition List ks : list KeyPair := (map_to_list ks).*2.
Definition ListForVerification (now : Time) ks : list KeyPair :=
  filter (λ kp, unexpired now (kp_ValidTo kp) = true) (List ks).
Definition Delete (kid : string) ks : authErr + KeyStore :=
  match ks !! kid with None => inl KeyPairNotFound | Some _ => inr (delete kid ks) end.
Definition Invalidate (now : Time) (kid : string) (gracePeriodSec : Z) ks : authErr + KeyStore :=
  match ks !! kid with
  | None => inl KeyPairNotFound
  | Some kp => inr (<[kid := retire (after now gracePeriodSec) kp]> ks)
  end.
Definition Reactivate (now : Time) (kid : string) (validFrom validTo : Time) ks : authErr + KeyStore :=
  match ks !! kid with
  | None => inl KeyPairNotFound
  | Some kp =>
      match checkWindow now validFrom validTo with
      | Some er => inl er
      | None => inr (<[kid := kp_set true validFrom (Some validTo) kp]> ks)
      end
  end.

(** [localKeySource.GetKey]: the key a signature under [kid] is checked with. *)
Definition GetKey (kid : string) ks : authErr + PublicKey :=
  match Get kid ks with
  | inl er => inl er
  | inr kp => if kp_Active kp then inr (kp_PublicKey kp) else inl KeyInvalidated
  end.
(** [JWKSHandler.ServeHTTP]: the published key ids with their keys. *)
Definition publishedKeys (now : Time) ks : list (string * PublicKey) :=
  (λ kp, (kp_KID kp, kp_PublicKey kp)) <$> ListForVerification now ks.

(** ** Trusted keys *)

Record TrustedKey := mkTrusted {
  tk_KID : string;
  tk_TenantID : string;
  tk_JWK : list (string * JSON);
  tk_PublicKey : PublicKey;
  tk_Audience : string;
  tk_Issuers : list string;
  tk_Active : bool;
  tk_ValidFrom : Time;
  tk_ValidTo : option Time
}.
Abbreviation TrustedKeys := (gmap string TrustedKey).
Implicit Types (tks : TrustedKeys) (tk : TrustedKey).

Definition tk_set (active : bool) (validFrom : Time) (validTo : option Time) tk : TrustedKey :=
  mkTrusted (tk_KID tk) (tk_TenantID tk) (tk_JWK tk) (tk_PublicKey tk) (tk_Audience tk) (tk_Issuers tk) active validFrom validTo.
Definition retireTrusted (expiry : Time) tk : TrustedKey := tk_set false (tk_ValidFrom tk) (Some expiry) tk.

(** The guards of a registration: a key id of another tenant, and the cap on the
    tenant's other keys that are active and unexpired. *)
Definition ownedElsewhere tk tks : bool :=
  match tks !! tk_KID tk with Some existing => bool_decide (tk_TenantID existing ≠ tk_TenantID tk) | None => false end.
Definition counts (now : Time) tk k : bool :=
  bool_decide (tk_TenantID k = tk_TenantID tk) && bool_decide (tk_KID k ≠ tk_KID tk) && tk_Active k && unexpired now (tk_ValidTo k).
Definition capReached (now : Time) (maxPerTenant : Z) tk tks : bool :=
  bool_decide (0 < maxPerTenant)%Z &&
  bool_decide (maxPerTenant ≤ Z.of_nat (length (filter (λ k, counts now tk k = true) (map_to_list tks).*2)))%Z.
Definition admitTrusted (now : Time) (maxPerTenant : Z) tk tks : option authErr :=
  if ownedElsewhere tk tks then Some KeyOwnedByDifferentTenant
  else if capReached now maxPerTenant tk tks then Some TrustedKeyCapReached
  else None.
Definition trustedSibling tk k : bool :=
  bool_decide (tk_TenantID k = tk_TenantID tk) && tk_Active k && bool_decide (tk_KID k ≠ tk_KID tk).

Definition RegisterMem (now now' : Time) (maxPerTenant : Z) tk (opts : RotateOptions) tks : authErr + TrustedKeys :=
  match admitTrusted now maxPerTenant tk tks with
  | Some er => inl er
  | None =>
      let tks := if ro_Invalidate opts
                 then (λ k, if trustedSibling tk k then retireTrusted (after now' (ro_GracePeriodSec opts)) k else k) <$> tks
                 else tks in
      inr (<[tk_KID tk := tk]> tks)
  end.
(** The key of a tenant: another tenant's is not found. *)
Definition ownKey (tenantID kid : string) tks : authErr + TrustedKey :=
  match tks !! kid with
  | Some tk => if decide (tk_TenantID tk = tenantID) then inr tk else inl TrustedKeyNotFound
  | None => inl TrustedKeyNotFound
  end.
Definition ListTrusted (tenantID : string) tks : list TrustedKey :=
  filter (λ tk, tk_TenantID tk = tenantID) (map_to_list tks).*2.
Definition ListTrustedForVerification (now : Time) tks : list TrustedKey :=
  filter (λ tk, unexpired now (tk_ValidTo tk) = true) (map_to_list tks).*2.
Definition DeleteMem (tenantID kid : string) tks : authErr + TrustedKeys :=
  match ownKey tenantID kid tks with inl er => inl er | inr _ => inr (delete kid tks) end.
Definition InvalidateMem (now : Time) (tenantID kid : string) (gracePeriodSec : Z) tks : authErr + TrustedKeys :=
  match ownKey tenantID kid tks with
  | inl er => inl er
  | inr tk => inr (<[kid := retireTrusted (after now gracePeriodSec) tk]> tks)
  end.
(** [zeroTime] is the zero [time.Time]. *)
Definition ReactivateMem (zeroTime now : Time) (tenantID kid : string) (validFrom validTo : Time) tks : authErr + TrustedKeys :=
  match ownKey tenantID kid tks with
  | inl er => inl er
  | inr tk =>
      if decide (validTo = zeroTime) then inl ValidToRequired
      else match checkWindow now validFrom validTo with
           | Some er => inl er
           | None => inr (<[kid := tk_set true validFrom (Some validTo) tk]> tks)
           end
  end.

(** ** Machine-to-machine clients *)

Record M2MClient := mkClient {
  mc_ClientID : string;
  mc_HashedSecret : string;
  mc_TenantID : string;
  mc_UserID : string;
  mc_Roles : list string;
  mc_CreatedAt : Time;
  mc_UpdatedAt : Time
}.
Abbreviation Clients := (gmap string M2MClient).
Implicit Types (cs : Clients) (c : M2MClient).

Definition CreateWithSecret (salt : string) (now : Time) (clientID tenantID userID secret : string) (roles : list string) cs :
    authErr + Clients :=
  match bcryptHash salt secret with
  | None => inl HashFailed
  | Some hashed =>
      match cs !! clientID with
      | Some _ => inl ClientExists
      | None => inr (<[clientID := mkClient clientID hashed tenantID userID roles now now]> cs)
      end
  end.
(** [secret] is what [GenerateSecret] drew. *)
Definition Create (secret salt : string) (now : Time) (clientID tenantID userID : string) (roles : list string) cs :
    authErr + (string * Clients) :=
  match CreateWithSecret salt now clientID tenantID userID secret roles cs with
  | inl er => inl er
  | inr cs => inr (secret, cs)
  end.
Definition GetClient (clientID : string) cs : authErr + M2MClient :=
  match cs !! clientID with None => inl ClientNotFound | Some c => inr c end.
Definition ListClients (tenantID : string) cs : list M2MClient :=
  filter (λ c, mc_TenantID c = tenantID) (map_to_list cs).*2.
Definition DeleteClient (clientID : string) cs : authErr + Clients :=
  match cs !! clientID with None => inl ClientNotFound | Some _ => inr (delete clientID cs) end.
Definition ResetSecret (secret salt : string) (now : Time) (clientID : string) cs : authErr + (string * Clients) :=
  match bcryptHash salt secret with
  | None => inl HashFailed
  | Some hashed =>
      match cs !! clientID with
      | None => inl ClientNotFound
      | Some c =>
          inr (secret, <[clientID := mkClient (mc_ClientID c) hashed (mc_TenantID c) (mc_UserID c) (mc_Roles c)
                                       (mc_CreatedAt c) now]> cs)
      end
  end.
Definition VerifySecret (clientID plaintext : string) cs : authErr + bool :=
  match cs !! clientID with
  | None => inl ClientNotFound
  | Some c => inr (bcryptCompare (mc_HashedSecret c) plaintext)
  end.
End Stores.
