(* ===== verification/AuthJwt.v ===== *)
(** * Bearer tokens

    [internal/auth]: signing, parsing and checking of RS256 tokens ([jwt.go]), the
    first-party validator ([validator.go]), the chain of validators ([chain.go]), the
    authenticator of requests ([delegating.go]) and the token endpoint ([token.go])
    with its two grants.  JSON is an operation with a law; a number of a claim is kept
    as its truncation to an integer, which is all the code looks at.  A request reads
    the clock once. *)

From Stdlib Require Import Ascii.
From stdpp Require Import base gmap strings list.
From S2P Require Import Prelude GoStrings Spi Schema SchemaAdmit TxToken AuthKeys.

(** ** Claims *)

Inductive claim : Type :=
| CNull
| CBool (b : bool)
| CNumber (trunc : Z)
| CString (s : string)
| CArray (l : list claim)
| CObject (m : list (string * claim)).
Abbreviation claims := (gmap string claim).

(** [json.Marshal] and [json.Unmarshal] into a map: numbers come back as [float64]s,
    which hold the integers up to 2^53 and some larger ones. *)
Class ClaimCodec := {
  encodeJSON : claims → string;
  decodeJSON : string → option claims;
  isFloat : Z → bool
}.
Section Floats.
Context {J : ClaimCodec}.
Fixpoint floats (c : claim) : bool :=
  match c with
  | CNumber n => isFloat n
  | CArray l => forallb floats l
  | CObject m => forallb (λ '(_, c), floats c) m
  | _ => true
  end.
Class ClaimCodecLaws : Prop := {
  small_float n : (- 9007199254740992 ≤ n ≤ 9007199254740992)%Z → isFloat n = true;
  decoded_floats s m : decodeJSON s = Some m → map_Forall (λ _ c, floats c = true) m;
  decode_encoded (m : claims) : map_Forall (λ _ c, floats c = true) m → decodeJSON (encodeJSON m) = Some m
}.
End Floats.

(** [v, _ := m[k].(string)] *)
Definition str (m : claims) (k : string) : string := match m !! k with Some (CString s) => s | _ => "" end.
Definition num (m : claims) (k : string) : option Z := match m !! k with Some (CNumber n) => Some n | _ => None end.

(** [time.Unix(sec, 0)]: seconds are kept from the year 1, in an [int64]. *)
Definition Unix (sec : Z) : Time := ((wrap64 (sec + 62135596800) - 62135596800) * 1000000000)%Z.
(** [t.Unix()] *)
Definition unixSeconds (t : Time) : Z := (t / 1000000000)%Z.

(** ** Tokens *)

Section Jwt.
Context {P : AuthPrims} {J : ClaimCodec}.

Definition Sign (m : claims) (key : PrivateKey) (kid : string) : option string :=
  let header := <["alg" := CString "RS256"]> (<["typ" := CString "JWT"]> (<["kid" := CString kid]> ∅)) in
  let signingInput := EncodeToString (encodeJSON header) +:+ String "." (EncodeToString (encodeJSON m)) in
  sig ← SignPKCS1v15 key signingInput;
  Some (signingInput +:+ String "." (EncodeToString sig)).

Record ParsedToken := mkParsedToken {
  pt_Header : claims; pt_Claims : claims; pt_Signature : string; pt_SigningInput : string
}.
(** What precedes the first dot, and what follows it. *)
Fixpoint cutDot (s : string) : option (string * string) :=
  match s with
  | EmptyString => None
  | String c s =>
      if decide (c = "."%char) then Some (EmptyString, s)
      else '(a, b) ← cutDot s; Some (String c a, b)
  end.
Definition ParseToken (tokenString : string) : option ParsedToken :=
  '(part0, rest) ← cutDot tokenString;
  '(part1, part2) ← cutDot rest;
  headerBytes ← DecodeString part0;
  claimsBytes ← DecodeString part1;
  sigBytes ← DecodeString part2;
  header ← decodeJSON headerBytes;
  m ← decodeJSON claimsBytes;
  Some (mkParsedToken header m sigBytes (part0 +:+ String "." part1)).

Definition VerifySignature (signingInput signature : string) (publicKey : PublicKey) : bool :=
  VerifyPKCS1v15 publicKey signingInput signature.
Definition EnsureAlgRS256 (header : claims) : bool :=
  match header !! "alg" with Some (CString alg) => bool_decide (alg = "RS256") | _ => false end.

Inductive claimErr : Type := TokenExpired | MissingExp | MissingIat | IatInFuture | NotYetValid.
Definition ValidateClaims (now : Time) (m : claims) (clockSkew : Z) : option claimErr :=
  match num m "exp" with
  | None => Some MissingExp
  | Some exp =>
      if decide (Unix exp + clockSkew < now)%Z then Some TokenExpired
      else match num m "iat" with
           | None => Some MissingIat
           | Some iat =>
               if decide (now + clockSkew < Unix iat)%Z then Some IatInFuture
               else match num m "nbf" with
                    | Some nbf => if decide (now < Unix nbf - clockSkew)%Z then Some NotYetValid else None
                    | None => None
                    end
           end
  end.
Definition skew : Z := 30000000000.

(** ** The first-party validator *)

(** [spi.UserContext] *)
Record AuthUser := mkAuthUser { au_UserID : string; au_Kind : string; au_TenantID : string; au_Roles : list string }.
Inductive authFailure : Type :=
| FMalformed | FAlgorithm | FUnknownKID | FIssuer | FSignature | FClaims | FUser | FPreTransition | FUnavailable.

Definition checkAudience (aud : option claim) (expected : string) : bool :=
  match aud with
  | Some (CString v) => bool_decide (v = expected)
  | Some (CArray l) => existsb (λ a, match a with CString s => bool_decide (s = expected) | _ => false end) l
  | _ => false
  end.
Definition extractStringSlice (v : option claim) : list string :=
  match v with
  | Some (CArray l) => omap (λ c, match c with CString s => Some s | _ => None end) l
  | _ => []
  end.
Definition buildUserContext (m : claims) : option AuthUser :=
  let userID := if decide (str m "caas_user_id" = "") then str m "sub" else str m "caas_user_id" in
  let orgID := str m "caas_org_id" in
  if decide (userID = "" ∨ orgID = "") then None
  else
    let kind := if decide (m !! "user_roles" = None ∧ m !! "scopes" ≠ None) then "service" else "user" in
    let roles := extractStringSlice (m !! "user_roles") in
    let roles := if decide (roles = []) then extractStringSlice (m !! "scopes") else roles in
    Some (mkAuthUser userID kind orgID roles).

(** [getKey] is the key source; [audience] is empty when no audience is expected. *)
Definition Validate (getKey : string → authErr + PublicKey) (issuer audience : string) (now : Time) (tokenString : string) :
    authFailure + AuthUser :=
  match ParseToken tokenString with
  | None => inl FMalformed
  | Some parsed =>
      if EnsureAlgRS256 (pt_Header parsed) then
        let kid := str (pt_Header parsed) "kid" in
        if decide (kid = "") then inl FClaims
        else match getKey kid with
             | inl _ => inl FUnknownKID
             | inr publicKey =>
                 if VerifySignature (pt_SigningInput parsed) (pt_Signature parsed) publicKey then
                   match ValidateClaims now (pt_Claims parsed) skew with
                   | Some _ => inl FClaims
                   | None =>
                       if decide (str (pt_Claims parsed) "iss" = issuer) then
                         if decide (audience = "" ∨ checkAudience (pt_Claims parsed !! "aud") audience = true) then
                           match buildUserContext (pt_Claims parsed) with Some u => inr u | None => inl FUser end
                         else inl FClaims
                       else inl FIssuer
                   end
                 else inl FSignature
             end
      else inl FAlgorithm
  end.

(** [ChainedValidator.Validate]: only an unknown key falls through. *)
Fixpoint ValidateChain (validators : list (string → authFailure + AuthUser)) (tokenString : string) : authFailure + AuthUser :=
  match validators with
  | [] => inl FUnknownKID
  | v :: vs =>
      match v tokenString with
      | inl FUnknownKID => ValidateChain vs tokenString
      | r => r
      end
  end.

(** [DelegatingAuthenticator.Authenticate]: every failure looks the same. *)
Definition Authenticate (validate : string → authFailure + AuthUser) (authHeader : string) : option AuthUser :=
  if decide (authHeader = "") then None
  else if HasPrefix authHeader "Bearer " then
    let token := TrimPrefix authHeader "Bearer " in
    if decide (token = "") then None
    else match validate token with inr u => Some u | inl _ => None end
  else None.

(** ** The token endpoint *)

(** [base64.StdEncoding.DecodeString]: padded, with [+] and [/]. *)
Definition fromStd (c : ascii) : option ascii :=
  if decide (c = "+"%char) then Some "-"%char
  else if decide (c = "/"%char) then Some "_"%char
  else if decide (c = "-"%char ∨ c = "_"%char) then None
  else Some c.
Definition stdDecode (s : string) : option string :=
  let l := filter (λ c, lineBreak c = false) (bytesOfString s) in
  if decide (length l mod 4 = 0) then
    let pad := match reverse l with
               | c :: d :: _ => if decide (c = "="%char) then if decide (d = "="%char) then 2 else 1 else 0
               | _ => 0
               end in
    digits ← mapM fromStd (take (length l - pad) l);
    DecodeString (ofBytes digits)
  else None.
(** [url.QueryUnescape] *)
Definition hexDigit (c : ascii) : option nat :=
  let n := nat_of_ascii c in
  if decide (48 ≤ n ≤ 57) then Some (n - 48)
  else if decide (65 ≤ n ≤ 70) then Some (n - 55)
  else if decide (97 ≤ n ≤ 102) then Some (n - 87)
  else None.
Fixpoint QueryUnescape (s : string) : option string :=
  match s with
  | EmptyString => Some EmptyString
  | String "%" (String a (String b s)) =>
      h ← hexDigit a; l ← hexDigit b; r ← QueryUnescape s; Some (String (ascii_of_nat (16 * h + l)) r)
  | String "%" _ => None
  | String "+" s => r ← QueryUnescape s; Some (String " " r)
  | String c s => r ← QueryUnescape s; Some (String c r)
  end.
(** What precedes the first colon, and what follows it. *)
Fixpoint cutColon (s : string) : option (string * string) :=
  match s with
  | EmptyString => None
  | String c s =>
      if decide (c = ":"%char) then Some (EmptyString, s)
      else '(a, b) ← cutColon s; Some (String c a, b)
  end.
Definition parseBasicAuth (authHeader : string) : option (string * string) :=
  if HasPrefix authHeader "Basic " then
    decoded ← stdDecode (dropBytes 6 authHeader);
    '(a, b) ← cutColon decoded;
    id ← QueryUnescape a;
    sec ← QueryUnescape b;
    Some (id, sec)
  else None.

Record tokenHandler := mkTokenHandler { th_issuer : string; th_expirySeconds : Z }.
Record tokenRequest := mkTokenRequest {
  rq_Method : string;
  rq_Authorization : string;
  rq_FormValue : string → string
}.
(** [tr_exchanged]: the answer names the type of the token it issued. *)
Inductive tokenAnswer : Type :=
| TokenError (status : Z) (code : string)
| TokenIssued (access_token : string) (expires_in : Z) (exchanged : bool).

Definition expiry (h : tokenHandler) (now : Time) : Z := unixSeconds (after now (th_expirySeconds h)).
Definition credentialClaims (h : tokenHandler) (now : Time) (jti clientID : string) (c : M2MClient) : claims :=
  list_to_map [("sub", CString clientID); ("iss", CString (th_issuer h)); ("caas_user_id", CString (mc_UserID c));
               ("caas_org_id", CString (mc_TenantID c)); ("scopes", CArray (CString <$> mc_Roles c));
               ("caas_tier", CString "unlimited"); ("exp", CNumber (expiry h now)); ("iat", CNumber (unixSeconds now));
               ("jti", CString jti)].
Definition exchangeClaims (h : tokenHandler) (now : Time) (jti clientID sub orgID : string) (roles : claim) : claims :=
  list_to_map [("sub", CString sub); ("iss", CString (th_issuer h)); ("caas_user_id", CString sub);
               ("caas_org_id", CString orgID); ("user_roles", roles); ("act", CObject [("sub", CString clientID)]);
               ("caas_tier", CString "unlimited"); ("exp", CNumber (expiry h now)); ("iat", CNumber (unixSeconds now));
               ("jti", CString jti)].

Context `{O : MapOrder}.
Definition issue (h : tokenHandler) (ks : gmap string KeyPair) (now : Time) (exchanged : bool) (m : claims) : tokenAnswer :=
  match GetActive now "client" ks with
  | inl _ => TokenError 500 "server_error"
  | inr kp =>
      match Sign m (kp_PrivateKey kp) (kp_KID kp) with
      | None => TokenError 500 "server_error"
      | Some token => TokenIssued token (th_expirySeconds h) exchanged
      end
  end.
Definition handleClientCredentials (h : tokenHandler) (ks : gmap string KeyPair) (cs : gmap string M2MClient) (now : Time)
    (jti clientID : string) : tokenAnswer :=
  match GetClient clientID cs with
  | inl _ => TokenError 401 "invalid_client"
  | inr c => issue h ks now false (credentialClaims h now jti clientID c)
  end.

(** [getTrustedKeyByKID], on what the store lists for verification. *)
Definition getTrustedKeyByKID (listed : list TrustedKey) (kid : string) : option TrustedKey :=
  snd <$> list_find (λ tk, tk_KID tk = kid) listed.
Definition rolesOf (m : claims) : claim :=
  match m !! "user_roles" with
  | Some CNull | None => default CNull (m !! "roles")
  | Some v => v
  end.
(** The subject token of an exchange: its claims, or [None] for [invalid_grant]. *)
Definition checkSubject (listed : list TrustedKey) (now : Time) (subjectToken : string) : option claims :=
  parsed ← ParseToken subjectToken;
  let kid := str (pt_Header parsed) "kid" in
  let m := pt_Claims parsed in
  if EnsureAlgRS256 (pt_Header parsed) && bool_decide (kid ≠ "") then
    tk ← getTrustedKeyByKID listed kid;
    if tk_Active tk && bool_decide (tk_ValidFrom tk ≤ now)%Z
       && match tk_ValidTo tk with Some t => bool_decide (now ≤ t)%Z | None => true end
       && VerifySignature (pt_SigningInput parsed) (pt_Signature parsed) (tk_PublicKey tk)
       && (bool_decide (tk_Issuers tk = []) || bool_decide (str m "iss" ∈ tk_Issuers tk))
       && match ValidateClaims now m skew with None => true | Some _ => false end
       && bool_decide (str m "sub" ≠ "")
    then Some m else None
  else None.
Definition handleTokenExchange (h : tokenHandler) (ks : gmap string KeyPair) (cs : gmap string M2MClient)
    (listed : list TrustedKey) (now : Time) (jti clientID : string) (r : tokenRequest) : tokenAnswer :=
  if decide (rq_FormValue r "subject_token_type" = "urn:ietf:params:oauth:token-type:jwt") then
    match checkSubject listed now (rq_FormValue r "subject_token") with
    | None => TokenError 400 "invalid_grant"
    | Some m =>
        match GetClient clientID cs with
        | inl _ => TokenError 401 "invalid_client"
        | inr c =>
            if decide (mc_TenantID c = str m "caas_org_id")
            then issue h ks now true (exchangeClaims h now jti clientID (str m "sub") (str m "caas_org_id") (rolesOf m))
            else TokenError 403 "access_denied"
        end
    end
  else TokenError 400 "invalid_grant".

Definition ServeHTTP (h : tokenHandler) (ks : gmap string KeyPair) (cs : gmap string M2MClient) (listed : list TrustedKey)
    (now : Time) (jti : string) (r : tokenRequest) : tokenAnswer :=
  if decide (rq_Method r = "POST") then
    match parseBasicAuth (rq_Authorization r) with
    | None => TokenError 401 "invalid_client"
    | Some (clientID, secret) =>
        match VerifySecret clientID secret cs with
        | inr true =>
            if decide (rq_FormValue r "grant_type" = "client_credentials") then
              handleClientCredentials h ks cs now jti clientID
            else if decide (rq_FormValue r "grant_type" = "urn:ietf:params:oauth:grant-type:token-exchange") then
              handleTokenExchange h ks cs listed now jti clientID r
            else TokenError 400 "unsupported_grant_type"
        | _ => TokenError 401 "invalid_client"
        end
    end
  else TokenError 405 "method_not_allowed".
End Jwt.
