(* ===== verification/AuthProof.v ===== *)
(** * Tokens: what is issued is accepted, what is accepted was vouched for

    The rotation of signing keys, the round trip of a token through the endpoint and the
    validator, and the exact conditions under which a token is accepted. *)

From Stdlib Require Import Ascii.
From stdpp Require Import base gmap strings list.
From S2P Require Import Prelude GoStrings Spi Schema SchemaAdmit TxToken AuthKeys AuthJwt.

(** ** Rotation *)

Section Rotation.
Context {P : AuthPrims} `{O : MapOrder}.
Implicit Types (ks : gmap string KeyPair) (kp : KeyPair).

(** Keys are stored under their ids. *)
Definition keyed ks : Prop := map_Forall (λ kid kp, kp_KID kp = kid) ks.

Lemma keyed_Save now kp opts ks : keyed ks → keyed (Save now kp opts ks).
Proof.
  intros Hk kid k. unfold Save. destruct (decide (kp_KID kp = kid)) as [<-|Hne].
  - rewrite lookup_insert_eq. by intros [= <-].
  - rewrite lookup_insert_ne by done. destruct (ro_Invalidate opts); [|apply Hk].
    rewrite lookup_fmap. intros (k0 & H & ->)%fmap_Some. apply Hk in H. by destruct (sibling kp k0).
Qed.

Lemma elem_of_range {A} (m : gmap string A) k x : (k, x) ∈ range m ↔ m !! k = Some x.
Proof. by rewrite (range_perm m), elem_of_map_to_list. Qed.

Lemma best_in b l kp : foldl better b l = Some kp → kp ∈ l ∨ b = Some kp.
Proof.
  revert b. induction l as [|x l IH]; intros b; simpl; [by right|]. intros [H|H]%IH; [by left; right|].
  unfold better in H. destruct b as [b|]; [case_decide|]; simplify_eq; [left; left|by right|left; left].
Qed.
Lemma best_max b l kp x : foldl better b l = Some kp → x ∈ l ∨ b = Some x → (kp_ValidFrom x ≤ kp_ValidFrom kp)%Z.
Proof.
  revert b x. induction l as [|y l IH]; intros b x; simpl.
  { intros -> [H|[= <-]]; [by apply elem_of_nil in H|lia]. }
  intros H Hx. assert (Hb : ∀ z, better b y = Some z → (kp_ValidFrom z ≤ kp_ValidFrom kp)%Z).
  { intros z Hz. apply (IH _ _ H). by right. }
  destruct Hx as [[->|Hx]%elem_of_cons| ->]; [|by eapply IH; [done|left]|].
  - unfold better in Hb. destruct b as [b|]; [|by apply Hb]. case_decide; [by apply Hb|]. specialize (Hb _ eq_refl). lia.
  - unfold better in Hb. case_decide; [|by apply Hb]. specialize (Hb _ eq_refl). lia.
Qed.
Lemma best_some b l : l ≠ [] ∨ b ≠ None → is_Some (foldl better b l).
Proof.
  revert b. induction l as [|x l IH]; intros b [H|H]; simpl; try done; [by destruct b|apply IH..];
    right; unfold better; destruct b; try case_decide; done.
Qed.

(** The signing key is a usable one with the latest [ValidFrom], and there is one
    whenever some key is usable. *)
Lemma GetActive_spec now aud ks :
  match GetActive now aud ks with
  | inr kp => (∃ kid, ks !! kid = Some kp) ∧ usable now aud kp = true ∧
      ∀ kid k, ks !! kid = Some k → usable now aud k = true → (kp_ValidFrom k ≤ kp_ValidFrom kp)%Z
  | inl _ => ∀ kid k, ks !! kid = Some k → usable now aud k = false
  end.
Proof.
  unfold GetActive. set (l := filter _ _).
  assert (Hl : ∀ k, k ∈ l ↔ (∃ kid, ks !! kid = Some k) ∧ usable now aud k = true).
  { intros k. unfold l. rewrite list_elem_of_filter, list_elem_of_fmap. split.
    - intros (Hu & [kid k'] & -> & H%elem_of_range). eauto.
    - intros ((kid & H) & Hu). split; [done|]. exists (kid, k). by rewrite elem_of_range. }
  destruct (foldl better None l) as [kp|] eqn:E.
  - assert (Hin : kp ∈ l) by by destruct (best_in _ _ _ E). split_and!; [by apply Hl..|].
    intros kid k Hk Hu. apply (best_max _ _ _ _ E). left. apply Hl. eauto.
  - intros kid k Hk. destruct (usable now aud k) eqn:Hu; [|done]. exfalso.
    destruct (best_some None l) as [? H]; [left|congruence]. intros Hn. assert (Hin : k ∈ l) by (apply Hl; eauto).
    rewrite Hn in Hin. by apply elem_of_nil in Hin.
Qed.

Lemma elem_of_published now ks kid pub :
  keyed ks → (kid, pub) ∈ publishedKeys now ks ↔
    ∃ k, ks !! kid = Some k ∧ kp_PublicKey k = pub ∧ unexpired now (kp_ValidTo k) = true.
Proof.
  intros Hk. unfold publishedKeys, ListForVerification, List. rewrite list_elem_of_fmap. split.
  - intros (k & [= -> ->] & [Hu Hin]%list_elem_of_filter). apply list_elem_of_fmap in Hin as ([kid k'] & -> & Hin).
    apply elem_of_map_to_list in Hin. assert (HK := Hk _ _ Hin). simpl in *. subst kid. eauto.
  - intros (k & H & <- & Hu). assert (HK := Hk _ _ H). simpl in HK. subst kid. exists k. split; [done|].
    apply list_elem_of_filter. split; [done|]. apply list_elem_of_fmap. exists (kp_KID k, k). by rewrite elem_of_map_to_list.
Qed.

Lemma rotated_lookup now kp grace ks kid :
  kid ≠ kp_KID kp →
  Save now kp (mkRotate true grace) ks !! kid = (λ k, if sibling kp k then retire (after now grace) k else k) <$> ks !! kid.
Proof. intros Hne. unfold Save. simpl. by rewrite lookup_insert_ne, lookup_fmap. Qed.
Lemma rotated_unusable now expiry kp k :
  kp_KID k ≠ kp_KID kp → usable now (kp_Audience kp) (if sibling kp k then retire expiry k else k) = false.
Proof.
  intros Hne. unfold sibling. rewrite (bool_decide_true (kp_KID k ≠ _)), andb_true_r by done. unfold usable.
  destruct (kp_Active k) eqn:Ha.
  - destruct (decide (kp_Audience k = kp_Audience kp)) as [Hau|Hau].
    + rewrite (bool_decide_true (kp_Audience k = _)) by done. simpl. by rewrite andb_false_r.
    + rewrite (bool_decide_false (kp_Audience k = _)) by done. simpl. by rewrite bool_decide_false.
  - rewrite andb_false_r. by rewrite Ha, andb_false_r.
Qed.

End Rotation.

(** ** Tokens *)

Section Tokens.
Context {P : AuthPrims} {J : ClaimCodec} `{PL : !AuthPrimsLaws} `{JL : !ClaimCodecLaws}.

Lemma cutDot_app a b : "."%char ∉ bytesOfString a → cutDot (a +:+ String "." b) = Some (a, b).
Proof.
  induction a as [|c a IH]; simpl; [done|]. intros [Hc Ha]%not_elem_of_cons. rewrite decide_False by congruence.
  by rewrite (IH Ha).
Qed.
Lemma append_dot a b c : (a +:+ String "." b) +:+ c = a +:+ String "." (b +:+ c).
Proof. induction a as [|x a IH]; [done|]. exact (f_equal (String x) IH). Qed.

Lemma floats_map (l : list (string * claim)) :
  Forall (λ p, floats p.2 = true) l → map_Forall (λ _ c, floats c = true) (list_to_map l : claims).
Proof. intros Hl k c H%elem_of_list_to_map_2. rewrite Forall_forall in Hl. exact (Hl _ H). Qed.

Definition headerOf (kid : string) : claims :=
  <["alg" := CString "RS256"]> (<["typ" := CString "JWT"]> (<["kid" := CString kid]> ∅)).
(** A signed token parses to what was signed, and its signature checks. *)
Lemma parse_signed m key kid tok :
  map_Forall (λ _ c, floats c = true) m → Sign m key kid = Some tok →
  ∃ sig input, ParseToken tok = Some (mkParsedToken (headerOf kid) m sig input) ∧
    VerifySignature input sig (Public key) = true.
Proof.
  intros Hm. unfold Sign. fold (headerOf kid). set (a := EncodeToString (encodeJSON (headerOf kid))).
  set (b := EncodeToString (encodeJSON m)). intros (sig & Hs & [= <-])%bind_Some. exists sig, (a +:+ String "." b).
  split; [|by apply verify_signed]. unfold ParseToken. rewrite append_dot.
  rewrite cutDot_app by apply encode_nodot. cbn [mbind option_bind]. rewrite cutDot_app by apply encode_nodot.
  cbn [mbind option_bind]. unfold a, b. rewrite !decode_encode. cbn [mbind option_bind].
  rewrite (decode_encoded (headerOf kid)); [|].
  2: { apply (floats_map [("alg", CString "RS256"); ("typ", CString "JWT"); ("kid", CString kid)]). by repeat constructor. }
  cbn [mbind option_bind]. by rewrite decode_encoded.
Qed.

Lemma validate_signed m key kid tok getKey issuer now :
  map_Forall (λ _ c, floats c = true) m → Sign m key kid = Some tok → kid ≠ "" → getKey kid = inr (Public key) →
  ValidateClaims now m skew = None → str m "iss" = issuer →
  Validate getKey issuer "" now tok = match buildUserContext m with Some u => inr u | None => inl FUser end.
Proof.
  intros Hm Hs Hkid Hg Hc Hi. destruct (parse_signed _ _ _ _ Hm Hs) as (sig & input & Hp & Hv).
  unfold Validate. rewrite Hp. cbn [pt_Header pt_Claims pt_SigningInput pt_Signature].
  change (EnsureAlgRS256 (headerOf kid)) with true. change (str (headerOf kid) "kid") with kid. cbv beta iota zeta.
  by rewrite decide_False, Hg, Hv, Hc, decide_True, decide_True by auto.
Qed.
(** Within the life of a token, on clocks no further apart than the skew. *)
Lemma claims_in_time m exp iat now :
  num m "exp" = Some exp → num m "iat" = Some iat → num m "nbf" = None →
  (now ≤ Unix exp + skew)%Z → (Unix iat ≤ now + skew)%Z → ValidateClaims now m skew = None.
Proof. intros He Hi Hn ??. unfold ValidateClaims. rewrite He, Hi, Hn. by rewrite decide_False, decide_False by lia. Qed.

(** Whom a token granted to the client [c] speaks for. *)
Definition holder (clientID : string) (c : M2MClient) (subject : option claims) : AuthUser :=
  match subject with
  | None => mkAuthUser (if decide (mc_UserID c = "") then clientID else mc_UserID c) "service" (mc_TenantID c) (mc_Roles c)
  | Some m => mkAuthUser (str m "sub") "user" (mc_TenantID c) (extractStringSlice (Some (rolesOf m)))
  end.

Lemma extract_strings l : extractStringSlice (Some (CArray (CString <$> l))) = l.
Proof. simpl. induction l as [|s l IH]; [done|]. csimpl. by f_equal. Qed.
Lemma build_credential h now jti clientID c :
  clientID ≠ "" → mc_TenantID c ≠ "" →
  buildUserContext (credentialClaims h now jti clientID c) = Some (holder clientID c None).
Proof.
  intros Hid Ht. unfold buildUserContext.
  change (str (credentialClaims h now jti clientID c) "caas_user_id") with (mc_UserID c).
  change (str (credentialClaims h now jti clientID c) "sub") with clientID.
  change (str (credentialClaims h now jti clientID c) "caas_org_id") with (mc_TenantID c).
  change (credentialClaims h now jti clientID c !! "user_roles") with (@None claim).
  change (credentialClaims h now jti clientID c !! "scopes") with (Some (CArray (CString <$> mc_Roles c))).
  rewrite extract_strings. rewrite decide_False; [done|]. intros [H|H]; [|done]. by case_decide.
Qed.
Lemma build_exchange h now jti clientID sub orgID roles :
  sub ≠ "" → orgID ≠ "" →
  buildUserContext (exchangeClaims h now jti clientID sub orgID roles)
    = Some (mkAuthUser sub "user" orgID (extractStringSlice (Some roles))).
Proof.
  intros Hs Ho. unfold buildUserContext. set (m := exchangeClaims h now jti clientID sub orgID roles).
  change (str m "caas_user_id") with sub. change (str m "sub") with sub. change (str m "caas_org_id") with orgID.
  change (m !! "user_roles") with (Some roles). change (m !! "scopes") with (@None claim).
  rewrite !(decide_False (P := sub = "")) by done. rewrite decide_False by tauto.
  rewrite decide_False by (intros [? _]; done). by case_decide as Hr; [rewrite Hr|].
Qed.

(** *** The token endpoint *)

Context `{O : MapOrder}.
(** Every key has an id, is stored under it, and holds a pair. *)
Definition signingKeys (ks : gmap string KeyPair) : Prop :=
  map_Forall (λ kid kp, kp_KID kp = kid ∧ kid ≠ "" ∧ kp_PublicKey kp = Public (kp_PrivateKey kp)) ks.
Definition clientsWf (cs : gmap string M2MClient) : Prop := map_Forall (λ id c, id ≠ "" ∧ mc_TenantID c ≠ "") cs.
Definition smallSeconds (n : Z) : Prop := (- 9007199254740992 ≤ n ≤ 9007199254740992)%Z.

Lemma parsed_floats s parsed : ParseToken s = Some parsed → map_Forall (λ _ c, floats c = true) (pt_Claims parsed).
Proof.
  intros ([a b] & _ & H)%bind_Some. apply bind_Some in H as ([c d] & _ & H).
  apply bind_Some in H as (hb & _ & H). apply bind_Some in H as (cb & _ & H). apply bind_Some in H as (sb & _ & H).
  apply bind_Some in H as (hd & _ & H). apply bind_Some in H as (m & Hm & [= <-]). by eapply decoded_floats.
Qed.
Lemma checkSubject_spec listed now tok m :
  checkSubject listed now tok = Some m ↔
  ∃ parsed tk, ParseToken tok = Some parsed ∧ pt_Claims parsed = m ∧ EnsureAlgRS256 (pt_Header parsed) = true ∧
    str (pt_Header parsed) "kid" ≠ "" ∧ getTrustedKeyByKID listed (str (pt_Header parsed) "kid") = Some tk ∧
    tk_Active tk = true ∧ (tk_ValidFrom tk ≤ now)%Z ∧ (∀ t, tk_ValidTo tk = Some t → now ≤ t)%Z ∧
    VerifySignature (pt_SigningInput parsed) (pt_Signature parsed) (tk_PublicKey tk) = true ∧
    (tk_Issuers tk = [] ∨ str m "iss" ∈ tk_Issuers tk) ∧ ValidateClaims now m skew = None ∧ str m "sub" ≠ "".
Proof.
  unfold checkSubject. split.
  - intros (parsed & Hp & H)%bind_Some. destruct (_ && _) eqn:E1 in H; [|done].
    apply andb_true_iff in E1 as [Ha Hk%bool_decide_eq_true]. apply bind_Some in H as (tk & Ht & H).
    destruct (_ && _) eqn:E in H; [|done]. rewrite !andb_true_iff in E. destruct E as [[[[[[E1 E2] E3] E4] E5] E6] E7].
    injection H as <-. exists parsed, tk. apply bool_decide_eq_true in E2, E7.
    split_and!; try done.
    + intros t Hv. rewrite Hv in E3. by apply bool_decide_eq_true in E3.
    + apply orb_true_iff in E5 as [?%bool_decide_eq_true|?%bool_decide_eq_true]; auto.
    + by destruct (ValidateClaims _ _ _).
  - intros (parsed & tk & Hp & <- & Ha & Hk & Ht & E1 & E2 & E3 & E4 & E5 & E6 & E7).
    rewrite Hp. cbn [mbind option_bind]. rewrite Ha, (bool_decide_true (_ ≠ _)) by done. cbn [andb]. rewrite Ht.
    cbn [mbind option_bind]. rewrite E1, E4, E6, !(bool_decide_true (str _ "sub" ≠ _)), (bool_decide_true (_ ≤ _)%Z) by done.
    destruct (tk_ValidTo tk); [rewrite (bool_decide_true (now ≤ _)%Z) by by apply E3|];
      (destruct E5; [rewrite (bool_decide_true (_ = [])) by done|rewrite (bool_decide_true (_ ∈ _)) by done]);
      by rewrite ?orb_true_r.
Qed.

Lemma Unix_small n : smallSeconds n → Unix n = (n * 1000000000)%Z.
Proof. unfold smallSeconds, Unix. intros Hn. rewrite wrap64_small by (unfold maxInt64; lia). lia. Qed.
Lemma issued_not_before now now' : smallSeconds (unixSeconds now) → (now ≤ now' + skew)%Z → (Unix (unixSeconds now) ≤ now' + skew)%Z.
Proof. intros Hs Hn. rewrite Unix_small by done. unfold unixSeconds. assert (H := Z.mul_div_le now 1000000000). lia. Qed.

Lemma issue_Issued h ks now exch m tok exp exch' :
  issue h ks now exch m = TokenIssued tok exp exch' →
  exch' = exch ∧ ∃ kp, GetActive now "client" ks = inr kp ∧ Sign m (kp_PrivateKey kp) (kp_KID kp) = Some tok.
Proof.
  unfold issue. destruct (GetActive now "client" ks) as [er|kp]; [done|].
  destruct (Sign m _ _) as [t|] eqn:Hs; [|done]. intros [= -> _ ->]. eauto.
Qed.
(** What the endpoint issues, and to whom. *)
Lemma serve_Issued h ks cs listed now jti r tok exp exch :
  ServeHTTP h ks cs listed now jti r = TokenIssued tok exp exch →
  ∃ clientID secret c subject kp m,
    parseBasicAuth (rq_Authorization r) = Some (clientID, secret) ∧ cs !! clientID = Some c ∧
    bcryptCompare (mc_HashedSecret c) secret = true ∧
    GetActive now "client" ks = inr kp ∧ Sign m (kp_PrivateKey kp) (kp_KID kp) = Some tok ∧
    if exch then ∃ sm, subject = Some sm ∧ checkSubject listed now (rq_FormValue r "subject_token") = Some sm ∧
        mc_TenantID c = str sm "caas_org_id" ∧
        m = exchangeClaims h now jti clientID (str sm "sub") (str sm "caas_org_id") (rolesOf sm)
    else subject = None ∧ m = credentialClaims h now jti clientID c.
Proof.
  unfold ServeHTTP. case_decide; [|done]. destruct (parseBasicAuth _) as [[clientID secret]|]; [|done].
  unfold VerifySecret. destruct (cs !! clientID) as [c|] eqn:Hc; [|done].
  destruct (bcryptCompare _ _) eqn:Hv; [|done]. intros Hr. exists clientID, secret, c. case_decide.
  - unfold handleClientCredentials, GetClient in Hr. rewrite Hc in Hr.
    apply issue_Issued in Hr as (-> & kp & Hk & Hs). exists None, kp, (credentialClaims h now jti clientID c). by split_and!.
  - case_decide; [|done]. unfold handleTokenExchange in Hr. case_decide; [|done].
    destruct (checkSubject _ _ _) as [sm|] eqn:Hsm; [|done]. unfold GetClient in Hr. rewrite Hc in Hr.
    case_decide; [|done]. apply issue_Issued in Hr as (-> & kp & Hk & Hs).
    exists (Some sm), kp, (exchangeClaims h now jti clientID (str sm "sub") (str sm "caas_org_id") (rolesOf sm)).
    split_and!; try done. by exists sm.
Qed.
Lemma issued_floats h now jti clientID c :
  smallSeconds (unixSeconds now) → smallSeconds (expiry h now) →
  map_Forall (λ _ c, floats c = true) (credentialClaims h now jti clientID c) ∧
  ∀ sub org roles, floats roles = true →
    map_Forall (λ _ c, floats c = true) (exchangeClaims h now jti clientID sub org roles).
Proof.
  intros Hn He. assert (Hl : ∀ l, forallb floats (CString <$> l) = true) by (intros l; by induction l).
  split; [|intros sub org roles Hr]; apply floats_map; repeat constructor; simpl; try done; by apply small_float.
Qed.
Lemma rolesOf_floats m : map_Forall (λ _ c, floats c = true) m → floats (rolesOf m) = true.
Proof.
  intros Hm. unfold rolesOf. assert (Hr : floats (default CNull (m !! "roles")) = true).
  { destruct (m !! "roles") eqn:E; [exact (Hm _ _ E)|done]. }
  destruct (m !! "user_roles") as [[]|] eqn:E; try done; exact (Hm _ _ E).
Qed.


(** *** Acceptance *)

(** The token is signed, under the id of an active key, by that key. *)
Definition vouched (ks : gmap string KeyPair) (parsed : ParsedToken) : Prop :=
  EnsureAlgRS256 (pt_Header parsed) = true ∧ str (pt_Header parsed) "kid" ≠ "" ∧
  ∃ kp, ks !! str (pt_Header parsed) "kid" = Some kp ∧ kp_Active kp = true ∧
    VerifySignature (pt_SigningInput parsed) (pt_Signature parsed) (kp_PublicKey kp) = true.

(** C18. A token is accepted as first-party exactly when it is an RS256 token signed
    by the active key it names, within its time window, from this issuer and for this
    audience, and names a user and a tenant; the caller is then who its claims say.
    A token that names an active key of this node is never handed to another validator
    of the chain. *)
Theorem token_accepted_iff ks issuer audience now tok u others :
  let first := Validate (λ kid, GetKey kid ks) issuer audience now in
  (first tok = inr u ↔
   ∃ parsed, ParseToken tok = Some parsed ∧ vouched ks parsed ∧ ValidateClaims now (pt_Claims parsed) skew = None ∧
     str (pt_Claims parsed) "iss" = issuer ∧
     (audience = "" ∨ checkAudience (pt_Claims parsed !! "aud") audience = true) ∧
     buildUserContext (pt_Claims parsed) = Some u) ∧
  (∀ parsed kp, ParseToken tok = Some parsed → ks !! str (pt_Header parsed) "kid" = Some kp → kp_Active kp = true →
     ValidateChain (first :: others) tok = first tok).
Proof.
  intros first. split; [split|].
  - unfold first, Validate. destruct (ParseToken tok) as [parsed|]; [|done].
    destruct (EnsureAlgRS256 _) eqn:Ha; [|done]. case_decide as Hk; [done|].
    unfold GetKey, Get. destruct (ks !! _) as [kp|] eqn:Hkp; [|done]. destruct (kp_Active kp) eqn:Hact; [|done].
    destruct (VerifySignature _ _ _) eqn:Hv; [|done]. destruct (ValidateClaims _ _ _) eqn:Hc; [done|].
    case_decide as Hi; [|done]. case_decide as Hau; [|done]. destruct (buildUserContext _) eqn:Hu; [|done].
    intros [= <-]. exists parsed. split_and!; [done|split; [done|split; [done|by exists kp]]|done..].
  - intros (parsed & Hp & (Ha & Hk & kp & Hkp & Hact & Hv) & Hc & Hi & Hau & Hu). unfold first, Validate.
    rewrite Hp, Ha, decide_False by done. unfold GetKey, Get. rewrite Hkp, Hact, Hv, Hc.
    by rewrite decide_True, decide_True, Hu.
  - intros parsed kp Hp Hkp Hact. simpl. destruct (first tok) as [[]|] eqn:E; try done. exfalso. revert E.
    unfold first, Validate. rewrite Hp. destruct (EnsureAlgRS256 _); [|done]. case_decide; [done|].
    unfold GetKey, Get. rewrite Hkp, Hact. destruct (VerifySignature _ _ _); [|done].
    destruct (ValidateClaims _ _ _); [done|]. case_decide; [|done]. case_decide; [|done]. by destruct (buildUserContext _).
Qed.
End Tokens.
