(* ===== verification/AuthTrusted.v ===== *)
(** * The trusted-key store

    [internal/auth/kv_trusted_store.go]: the keys whose holders may vouch for users,
    persisted in a key-value store shared by the cluster and cached on each node.  The
    mutations hold the store's lock for their whole body; they are programs of single
    actions, so that what runs without the lock (the listing of a reconcile, a read
    through) can come between any two of them.  Records are serialized as the code
    does; JSON and the RFC 3339 form of times are operations with laws.  Logging and
    metrics are left out. *)

From Stdlib Require Import Ascii.
From stdpp Require Import base gmap strings list.
From S2P Require Import Prelude GoStrings Spi Schema SchemaAdmit TxToken AuthKeys.

(** ** Records *)

Record trustedKeyRecord := mkRecord {
  rec_KID : string; rec_TenantID : string; rec_JWK : list (string * JSON); rec_Audience : string;
  rec_Issuers : list string; rec_Active : bool; rec_ValidFrom : string; rec_ValidTo : option string;
  rec_N : string; rec_E : string
}.
Class KeyCodec := {
  marshalRecord : trustedKeyRecord → string;
  unmarshalRecord : string → option trustedKeyRecord;
  formatTime : Time → string;
  parseTime : string → option Time
}.
(** For what the service writes: objects without repeated names, and times in the years
    that RFC 3339 can write. *)
Class KeyCodecLaws {C : KeyCodec} : Prop := {
  unmarshal_marshal r : unmarshalRecord (marshalRecord r) = Some r;
  parse_format t : parseTime (formatTime t) = Some t
}.

(** [big.Int.Bytes] and [SetBytes]: big-endian, without leading zeros. *)
Definition SetBytes (s : string) : N := foldl (λ n c, 256 * n + N_of_ascii c)%N 0%N (bytesOfString s).
Fixpoint bytesFuel (fuel : nat) (n : N) (acc : list ascii) : list ascii :=
  match fuel with
  | 0 => acc
  | S fuel => if decide (n = 0%N) then acc else bytesFuel fuel (n / 256)%N (ascii_of_N (n mod 256) :: acc)
  end.
Definition Bytes (n : N) : string := ofBytes (bytesFuel (N.to_nat (N.size n)) n []).
(** [strings.TrimRight(s, eq)] for the padding character. *)
Fixpoint trimPadding (s : string) : string :=
  match s with
  | EmptyString => EmptyString
  | String c s => let s := trimPadding s in if decide (c = "="%char ∧ s = EmptyString) then EmptyString else String c s
  end.
Definition decodeBase64URL (s : string) : option string := DecodeString (trimPadding s).
Definition validateRSAPublicExponent (e : N) : option Z :=
  if decide (e = 0%N) then None
  else if decide (maxInt64 < Z.of_N e)%Z then None
  else if decide (N.even e = true) then None
  else Some (Z.of_N e).

(** Where a key is stored. *)
Definition trustedKeyKey (tenantID kid : string) : string := tenantID +:+ String ":" kid.

Section Trusted.
Context {P : AuthPrims} {C : KeyCodec}.
Implicit Types (tk : TrustedKey) (keys : gmap string TrustedKey) (kv : gmap string string).

Definition serializeTrustedKey tk : string :=
  marshalRecord (mkRecord (tk_KID tk) (tk_TenantID tk) (tk_JWK tk) (tk_Audience tk) (tk_Issuers tk) (tk_Active tk)
    (formatTime (tk_ValidFrom tk)) (formatTime <$> tk_ValidTo tk)
    (EncodeToString (Bytes (pk_N (tk_PublicKey tk)))) (EncodeToString (Bytes (Z.abs_N (pk_E (tk_PublicKey tk)))))).
Definition deserializeTrustedKey (data : string) : option TrustedKey :=
  r ← unmarshalRecord data;
  nBytes ← decodeBase64URL (rec_N r);
  eBytes ← decodeBase64URL (rec_E r);
  eVal ← validateRSAPublicExponent (SetBytes eBytes);
  validFrom ← parseTime (rec_ValidFrom r);
  validTo ← match rec_ValidTo r with None => Some None | Some s => Some <$> parseTime s end;
  Some (mkTrusted (rec_KID r) (rec_TenantID r) (rec_JWK r) (mkPub (SetBytes nBytes) eVal) (rec_Audience r) (rec_Issuers r)
          (rec_Active r) validFrom validTo).

(** [buildTrustedKeyMap], lenient: records that cannot be read, and those from before
    tenants were kept, are skipped. *)
Definition buildStep (keys : gmap string TrustedKey) (entry : string * string) : gmap string TrustedKey :=
  let '(kvKey, data) := entry in
  if Contains kvKey ":" then
    match deserializeTrustedKey data with
    | None => keys
    | Some tk => if decide (tk_TenantID tk = "") then keys else <[tk_KID tk := tk]> keys
    end
  else keys.
Definition buildTrustedKeyMap `{O : MapOrder} kv : gmap string TrustedKey := foldl buildStep ∅ (range kv).
(** Strict, at construction: a record that cannot be read fails the build. *)
Definition buildTrustedKeyMapStrict `{O : MapOrder} kv : option (gmap string TrustedKey) :=
  if decide (Forall (λ e : string * string, Contains e.1 ":" = true → is_Some (deserializeTrustedKey e.2)) (range kv))
  then Some (buildTrustedKeyMap kv) else None.

(** ** Programs

    One constructor for each action of a body that runs under the lock; a write to the
    key-value store continues with whether it succeeded. *)
Inductive prog (A : Type) : Type :=
| Done (a : A)
| Keys (k : gmap string TrustedKey → prog A)
| SetKeys (m : gmap string TrustedKey) (k : prog A)
| Put (key v : string) (k : bool → prog A)
| KVDelete (key : string) (k : bool → prog A)
| GenAdd (k : prog A)
| Now (k : Time → prog A)
| Ping (k : prog A).
#[global] Arguments Done {A} a.
#[global] Arguments Keys {A} k.
#[global] Arguments SetKeys {A} m k.
#[global] Arguments Put {A} key v k.
#[global] Arguments KVDelete {A} key k.
#[global] Arguments GenAdd {A} k.
#[global] Arguments Now {A} k.
#[global] Arguments Ping {A} k.
Abbreviation body := (prog (option authErr)).

Definition persistWithKey tk (k : bool → body) : body := Put (trustedKeyKey (tk_TenantID tk) (tk_KID tk)) (serializeTrustedKey tk) k.
Definition commitKey tk keys (k : body) : body := SetKeys (<[tk_KID tk := tk]> keys) (GenAdd k).

(** The siblings of a new key, one after the other: a write that fails leaves its
    sibling as it is. *)
Fixpoint flipSiblings (expiry : Time) (siblings : list TrustedKey) (failed : bool) (k : bool → body) : body :=
  match siblings with
  | [] => k failed
  | s :: siblings =>
      persistWithKey (retireTrusted expiry s) (λ ok,
        if ok then Keys (λ keys, SetKeys (<[tk_KID s := retireTrusted expiry s]> keys) (flipSiblings expiry siblings failed k))
        else flipSiblings expiry siblings true k)
  end.

Definition Register `{O : MapOrder} (maxPerTenant : Z) tk (opts : RotateOptions) : body :=
  Keys (λ keys,
    if ownedElsewhere tk keys then Done (Some KeyOwnedByDifferentTenant)
    else Now (λ now,
      if capReached now maxPerTenant tk keys then Done (Some TrustedKeyCapReached)
      else persistWithKey tk (λ ok,
        if ok then
          commitKey tk keys
            (if ro_Invalidate opts then
               Now (λ now, Keys (λ keys,
                 flipSiblings (after now (ro_GracePeriodSec opts)) (filter (λ k, trustedSibling tk k = true) (range keys).*2) false
                   (λ failed, Ping (Done (if failed then Some (StorageFailed true) else None)))))
             else Ping (Done None))
        else Done (Some (StorageFailed false))))).
Definition DeleteKey (tenantID kid : string) : body :=
  Keys (λ keys,
    match ownKey tenantID kid keys with
    | inl er => Done (Some er)
    | inr _ =>
        KVDelete (trustedKeyKey tenantID kid) (λ ok,
          if ok then SetKeys (delete kid keys) (GenAdd (Ping (Done None))) else Done (Some (StorageFailed false)))
    end).
Definition replaceKey (tenantID kid : string) keys (updated : TrustedKey) : body :=
  Put (trustedKeyKey tenantID kid) (serializeTrustedKey updated) (λ ok,
    if ok then SetKeys (<[kid := updated]> keys) (GenAdd (Ping (Done None))) else Done (Some (StorageFailed false))).
Definition InvalidateKey (tenantID kid : string) (gracePeriodSec : Z) : body :=
  Keys (λ keys,
    match ownKey tenantID kid keys with
    | inl er => Done (Some er)
    | inr tk => Now (λ now, replaceKey tenantID kid keys (retireTrusted (after now gracePeriodSec) tk))
    end).
Definition ReactivateKey (zeroTime : Time) (tenantID kid : string) (validFrom validTo : Time) : body :=
  if decide (validTo = zeroTime) then Done (Some ValidToRequired)
  else Now (λ now,
    match checkWindow now validFrom validTo with
    | Some er => Done (Some er)
    | None =>
        Keys (λ keys,
          match ownKey tenantID kid keys with
          | inl er => Done (Some er)
          | inr tk => replaceKey tenantID kid keys (tk_set true validFrom (Some validTo) tk)
          end)
    end).

(** ** The store *)

(** [ts_kv] is the shared namespace, [ts_pings] the pings published so far. *)
Record TStore := mkTStore {
  ts_keys : gmap string TrustedKey;
  ts_kv : gmap string string;
  ts_gen : N;
  ts_lastReconcile : Time;
  ts_loopStarted : bool;
  ts_pings : nat;
  ts_now : Time
}.
Definition set_keys keys (s : TStore) : TStore :=
  mkTStore keys (ts_kv s) (ts_gen s) (ts_lastReconcile s) (ts_loopStarted s) (ts_pings s) (ts_now s).
Definition set_kv kv (s : TStore) : TStore :=
  mkTStore (ts_keys s) kv (ts_gen s) (ts_lastReconcile s) (ts_loopStarted s) (ts_pings s) (ts_now s).
Definition bumpGen (s : TStore) : TStore :=
  mkTStore (ts_keys s) (ts_kv s) (ts_gen s + 1) (ts_lastReconcile s) (ts_loopStarted s) (ts_pings s) (ts_now s).
Definition broadcastChanged (s : TStore) : TStore :=
  mkTStore (ts_keys s) (ts_kv s) (ts_gen s) (ts_lastReconcile s) (ts_loopStarted s) (S (ts_pings s)) (ts_now s).
Definition stampReconcile (s : TStore) : TStore :=
  mkTStore (ts_keys s) (ts_kv s) (ts_gen s) (ts_now s) (ts_loopStarted s) (ts_pings s) (ts_now s).
Definition startLoop (s : TStore) : TStore :=
  mkTStore (ts_keys s) (ts_kv s) (ts_gen s) (ts_lastReconcile s) true (ts_pings s) (ts_now s).
Definition set_now now (s : TStore) : TStore :=
  mkTStore (ts_keys s) (ts_kv s) (ts_gen s) (ts_lastReconcile s) (ts_loopStarted s) (ts_pings s) now.

(** How a write to the key-value store can end: done; refused; done, but reported as
    failed. *)
Inductive fault : Type := NoFault | Refused | Lost.
Definition reported (f : fault) : bool := match f with NoFault => true | _ => false end.
Definition written (f : fault) : bool := match f with Refused => false | _ => true end.

(** One action of a program. *)
Definition stepProg {A} (f : fault) (p : prog A) (s : TStore) : option (prog A * TStore) :=
  match p with
  | Done _ => None
  | Keys k => Some (k (ts_keys s), s)
  | SetKeys m k => Some (k, set_keys m s)
  | Put key v k => Some (k (reported f), if written f then set_kv (<[key := v]> (ts_kv s)) s else s)
  | KVDelete key k => Some (k (reported f), if written f then set_kv (delete key (ts_kv s)) s else s)
  | GenAdd k => Some (k, bumpGen s)
  | Now k => Some (k (ts_now s), s)
  | Ping k => Some (k, broadcastChanged s)
  end.
(** A whole program on its own; [faults] are met by its writes in turn. *)
Fixpoint runProg {A} (faults : list fault) (p : prog A) (s : TStore) : A * TStore :=
  let f := default NoFault (head faults) in
  match p with
  | Done a => (a, s)
  | Keys k => runProg faults (k (ts_keys s)) s
  | SetKeys m k => runProg faults k (set_keys m s)
  | Put key v k => runProg (tail faults) (k (reported f)) (if written f then set_kv (<[key := v]> (ts_kv s)) s else s)
  | KVDelete key k => runProg (tail faults) (k (reported f)) (if written f then set_kv (delete key (ts_kv s)) s else s)
  | GenAdd k => runProg faults k (bumpGen s)
  | Now k => runProg faults (k (ts_now s)) s
  | Ping k => runProg faults k (broadcastChanged s)
  end.

(** *** Reading *)

Definition stalenessMultiplier : Z := 10.
Definition maxReconcileAttempts : nat := 5.
Definition reconcileStale (interval : Z) (s : TStore) : bool :=
  ts_loopStarted s && bool_decide (stalenessMultiplier * interval < ts_now s - ts_lastReconcile s)%Z.
Definition ListTrustedVerification (interval : Z) (s : TStore) : list TrustedKey :=
  if reconcileStale interval s then [] else ListTrustedForVerification (ts_now s) (ts_keys s).
(** [loadOne]: what it reads, and what it commits under the lock. *)
Definition loadRead (tenantID kid : string) kv : option TrustedKey :=
  data ← kv !! trustedKeyKey tenantID kid;
  tk ← deserializeTrustedKey data;
  if decide (tk_TenantID tk = tenantID) then Some tk else None.
Definition loadCommit (kid : string) tk (s : TStore) : TStore := bumpGen (set_keys (<[kid := tk]> (ts_keys s)) s).
(** [Get] with nothing in between. *)
Definition GetTrusted (interval : Z) (tenantID kid : string) (s : TStore) : option TrustedKey * TStore :=
  match (if reconcileStale interval s then None else ts_keys s !! kid) with
  | Some cached => (if decide (tk_TenantID cached = tenantID) then Some cached else None, s)
  | None =>
      match loadRead tenantID kid (ts_kv s) with
      | None => (None, s)
      | Some tk => (Some tk, loadCommit kid tk s)
      end
  end.

(** *** Reconciling *)

(** The rebuilt cache is swapped in unless something was committed since the listing
    began. *)
Definition swapKeys `{O : MapOrder} (gen : N) (entries : gmap string string) (s : TStore) : bool * TStore :=
  if decide (ts_gen s = gen) then (true, bumpGen (set_keys (buildTrustedKeyMap entries) s)) else (false, s).
(** [Reconcile] with nothing in between: the first attempt succeeds. *)
Definition Reconcile `{O : MapOrder} (listed : option (gmap string string)) (s : TStore) : bool * TStore :=
  match listed with
  | None => (false, s)
  | Some entries =>
      let '(swapped, s) := swapKeys (ts_gen s) entries s in
      if swapped then (true, stampReconcile s) else (false, s)
  end.
(** [NewKVTrustedKeyStore]: load everything, and count the load as a reconcile. *)
Definition NewKVTrustedKeyStore `{O : MapOrder} (now : Time) kv : option TStore :=
  keys ← buildTrustedKeyMapStrict kv;
  Some (mkTStore keys kv 0 now false 0 now).
End Trusted.
