(* ===== verification/AuthFresh.v ===== *)
(** * The trusted-key store: how stale its answers can be

    A node of a cluster: its store, the mutation that holds the lock, the reconcile
    under way, reads through in flight, and what the shared key-value store has held
    over time.  Other nodes write to it as they like. *)

From Stdlib Require Import Ascii.
From stdpp Require Import base gmap strings list.
From S2P Require Import Prelude GoStrings Spi Schema SchemaAdmit TxToken AuthKeys AuthTrusted.

(** ** Records round-trip *)

Lemma SetBytes_Bytes n : SetBytes (Bytes n) = n.
Proof.
  unfold SetBytes, Bytes. rewrite bytes_ofBytes. set (f := λ m c, (256 * m + N_of_ascii c)%N).
  assert (H : ∀ fuel n acc, (n < 2 ^ N.of_nat fuel)%N → foldl f 0%N (bytesFuel fuel n acc) = foldl f n acc).
  { clear. induction fuel as [|fuel IH]; intros n acc Hn; simpl.
    - change (2 ^ N.of_nat 0)%N with 1%N in Hn. by replace n with 0%N by lia.
    - case_decide as Hz; [by subst|]. rewrite IH.
      + simpl. f_equal. unfold f. rewrite N_ascii_embedding by (apply N.mod_lt; lia).
        symmetry. apply N.div_mod. lia.
      + rewrite Nat2N.inj_succ, N.pow_succ_r' in Hn. apply N.Div0.div_lt_upper_bound. lia. }
  apply H. rewrite N2Nat.id. apply N.size_gt.
Qed.

Lemma trimPadding_id s : "="%char ∉ bytesOfString s → trimPadding s = s.
Proof.
  induction s as [|c s IH]; simpl; [done|]. intros [Hc Hs]%not_elem_of_cons. rewrite (IH Hs), decide_False; [done|].
  intros [? _]. by subst.
Qed.
Lemma encode_nopad s : "="%char ∉ bytesOfString (EncodeToString s).
Proof.
  unfold EncodeToString. rewrite bytes_ofBytes. destruct (encode_digits (bytesOfString s)) as (xs & -> & _).
  intros (x & Hx & _)%list_elem_of_fmap. by destruct x as [[] [] [] [] [] []].
Qed.
Lemma decodeBase64URL_encode s : decodeBase64URL (EncodeToString s) = Some s.
Proof. unfold decodeBase64URL. rewrite trimPadding_id by apply encode_nopad. apply decode_encode. Qed.

Section Codec.
Context {P : AuthPrims} {C : KeyCodec}.
(** A public exponent is positive, odd and fits an [int]. *)
Definition validKey (tk : TrustedKey) : Prop :=
  (0 < pk_E (tk_PublicKey tk) ≤ maxInt64)%Z ∧ Z.odd (pk_E (tk_PublicKey tk)) = true.
Lemma validate_exponent e : (0 < e ≤ maxInt64)%Z → Z.odd e = true → validateRSAPublicExponent (Z.abs_N e) = Some e.
Proof.
  intros He Ho. unfold validateRSAPublicExponent. rewrite N2Z.inj_abs_N, Z.abs_eq by lia.
  rewrite decide_False by lia. rewrite decide_False by lia. rewrite decide_False; [done|].
  destruct e as [|e|e]; [lia| |lia]. simpl in *. destruct e; done.
Qed.
Lemma validated_exponent n e : validateRSAPublicExponent n = Some e → (0 < e ≤ maxInt64)%Z ∧ Z.odd e = true.
Proof.
  unfold validateRSAPublicExponent. repeat case_decide; try done. intros [= <-]. split; [lia|].
  destruct n as [|[]]; done.
Qed.
Lemma deserialize_serialize `{L : !KeyCodecLaws} tk :
  validKey tk → deserializeTrustedKey (serializeTrustedKey tk) = Some tk.
Proof.
  intros [He Ho]. unfold deserializeTrustedKey, serializeTrustedKey. rewrite unmarshal_marshal. cbn [mbind option_bind rec_N rec_E].
  rewrite !decodeBase64URL_encode. cbn [mbind option_bind]. rewrite !SetBytes_Bytes.
  rewrite validate_exponent by done. cbn [mbind option_bind rec_ValidFrom rec_ValidTo]. rewrite parse_format.
  cbn [mbind option_bind]. destruct tk as [kid ten jwk [n e] aud iss act vf [vt|]]; simpl; [|done]. by rewrite parse_format.
Qed.
Lemma deserialize_valid data tk : deserializeTrustedKey data = Some tk → validKey tk.
Proof.
  intros (r & _ & H)%bind_Some. apply bind_Some in H as (nb & _ & H). apply bind_Some in H as (eb & _ & H).
  apply bind_Some in H as (e & He & H). apply bind_Some in H as (vf & _ & H). apply bind_Some in H as (vt & _ & [= <-]).
  exact (validated_exponent _ _ He).
Qed.
End Codec.

(** ** A node *)

Section Node.
Context {P : AuthPrims} {C : KeyCodec} `{L : !KeyCodecLaws} `{O : MapOrder}.
(** [maxPerTenant] and [interval] are the store's configuration; [delay] bounds the
    time from a listing, or a read through, to its commit. *)
Context (maxPerTenant interval delay : Z) (zeroTime : Time).

Inductive request : Type :=
| RRegister (tk : TrustedKey) (opts : RotateOptions)
| RDelete (tenantID kid : string)
| RInvalidate (tenantID kid : string) (gracePeriodSec : Z)
| RReactivate (tenantID kid : string) (validFrom validTo : Time).
Definition bodyOf (r : request) : prog (option authErr) :=
  match r with
  | RRegister tk opts => Register maxPerTenant tk opts
  | RDelete t kid => DeleteKey t kid
  | RInvalidate t kid g => InvalidateKey t kid g
  | RReactivate t kid vf vt => ReactivateKey zeroTime t kid vf vt
  end.
(** A registered key has been parsed: its exponent is a valid one. *)
Definition wellFormed (r : request) : Prop := match r with RRegister tk _ => validKey tk | _ => True end.

(** What is allowed to happen to a node. *)
Record Setting := mkSetting {
  mayRequest : request → Prop;
  mayFail : fault → Prop;
  mayPeersWrite : Prop;
  mayReadThrough : Prop
}.
Context (env : Setting).

(** Reconciles run one at a time: idle; begun, with the generation read; listed, with
    what was listed and when; swapped, not yet stamped. *)
Inductive reconcileState : Type :=
| Idle
| Begun (attempt : nat) (gen : N)
| Listed (attempt : nat) (gen : N) (entries : gmap string string) (at_ : Time)
| Swapped (at_ : Time).
(** [nd_history] is what the shared store has held, newest first. *)
Record Node := mkNode {
  nd_store : TStore;
  nd_lock : option (prog (option authErr));
  nd_reconcile : reconcileState;
  nd_loads : list (string * TrustedKey * Time);
  nd_history : list (Time * gmap string string)
}.
Definition record (s : TStore) (h : list (Time * gmap string string)) := (ts_now s, ts_kv s) :: h.

Inductive step : Node → Node → Prop :=
| step_time s lk rc ld h t :
    (ts_now s ≤ t)%Z →
    step (mkNode s lk rc ld h) (mkNode (set_now t s) lk rc ld (record (set_now t s) h))
| step_peer s lk rc ld h kv :
    mayPeersWrite env → step (mkNode s lk rc ld h) (mkNode (set_kv kv s) lk rc ld (record (set_kv kv s) h))
| step_begin s rc ld h r :
    wellFormed r → mayRequest env r → step (mkNode s None rc ld h) (mkNode s (Some (bodyOf r)) rc ld h)
| step_act s p p' s' rc ld h f :
    mayFail env f → stepProg f p s = Some (p', s') →
    step (mkNode s (Some p) rc ld h) (mkNode s' (Some p') rc ld (record s' h))
| step_end s er rc ld h :
    step (mkNode s (Some (Done er)) rc ld h) (mkNode s None rc ld h)
| step_gen s lk ld h :
    step (mkNode s lk Idle ld h) (mkNode s lk (Begun 1 (ts_gen s)) ld h)
| step_list s lk n gen ld h :
    step (mkNode s lk (Begun n gen) ld h) (mkNode s lk (Listed n gen (ts_kv s) (ts_now s)) ld (record s h))
| step_swap s s' n gen kv t ld h :
    swapKeys gen kv s = (true, s') → step (mkNode s None (Listed n gen kv t) ld h) (mkNode s' None (Swapped t) ld h)
| step_retry s lk s' n gen kv t ld h :
    swapKeys gen kv s = (false, s') → n < maxReconcileAttempts →
    step (mkNode s lk (Listed n gen kv t) ld h) (mkNode s lk (Begun (S n) (ts_gen s)) ld h)
| step_listFailed s lk n gen ld h :
    step (mkNode s lk (Begun n gen) ld h) (mkNode s lk Idle ld h)
| step_giveUp s lk s' n gen kv t ld h :
    swapKeys gen kv s = (false, s') → maxReconcileAttempts ≤ n →
    step (mkNode s lk (Listed n gen kv t) ld h) (mkNode s lk Idle ld h)
| step_stamp s lk t ld h :
    (ts_now s - t ≤ delay)%Z → step (mkNode s lk (Swapped t) ld h) (mkNode (stampReconcile s) lk Idle ld h)
| step_read s lk rc ld h tenantID kid tk :
    mayReadThrough env → loadRead tenantID kid (ts_kv s) = Some tk →
    step (mkNode s lk rc ld h) (mkNode s lk rc ((kid, tk, ts_now s) :: ld) (record s h))
| step_commit s rc ld1 kid tk t ld2 h :
    (ts_now s - t ≤ delay)%Z →
    step (mkNode s None rc (ld1 ++ (kid, tk, t) :: ld2) h) (mkNode (loadCommit kid tk s) None rc (ld1 ++ ld2) h)
| step_loop s lk rc ld h :
    step (mkNode s lk rc ld h) (mkNode (startLoop s) lk rc ld h).

(** A node that has just been constructed. *)
Definition constructed (n : Node) : Prop :=
  ∃ now kv s, NewKVTrustedKeyStore now kv = Some s ∧ n = mkNode s None Idle [] [(now, kv)].
Definition reachable (n : Node) : Prop := ∃ n0, constructed n0 ∧ rtc step n0 n.

(** ** Seen *)

(** The shared store held a record of [tk] at [t]. *)
Definition seen (h : list (Time * gmap string string)) (t : Time) (tk : TrustedKey) : Prop :=
  ∃ kv key data, (t, kv) ∈ h ∧ kv !! key = Some data ∧ deserializeTrustedKey data = Some tk.
Definition since (h : list (Time * gmap string string)) (lb : Time) (tk : TrustedKey) : Prop :=
  ∃ t, (lb ≤ t)%Z ∧ seen h t tk.
Definition allSince h lb (keys : gmap string TrustedKey) : Prop := map_Forall (λ _ tk, since h lb tk) keys.

Lemma seen_mono x h t tk : seen h t tk → seen (x :: h) t tk.
Proof. intros (kv & key & data & H & ?). exists kv, key, data. split; [by right|done]. Qed.
Lemma since_mono x h lb lb' tk : (lb' ≤ lb)%Z → since h lb tk → since (x :: h) lb' tk ∧ since h lb' tk.
Proof. intros Hl (t & Ht & Hs). split; exists t; (split; [lia|]); [by apply seen_mono|done]. Qed.
Lemma allSince_weaken h lb lb' keys : (lb' ≤ lb)%Z → allSince h lb keys → allSince h lb' keys.
Proof. intros Hl H kid tk Hk. exact (proj2 (since_mono (0%Z, ∅) h lb lb' tk Hl (H _ _ Hk))). Qed.
Lemma allSince_cons x h lb keys : allSince h lb keys → allSince (x :: h) lb keys.
Proof. intros H kid tk Hk. apply (since_mono x h lb lb tk); [lia|exact (H _ _ Hk)]. Qed.
Lemma allSince_insert h lb kid tk keys : since h lb tk → allSince h lb keys → allSince h lb (<[kid := tk]> keys).
Proof. intros Hs H. by apply map_Forall_insert_2. Qed.

Lemma build_seen h t kv : (t, kv) ∈ h → allSince h t (buildTrustedKeyMap kv).
Proof.
  intros Hin. unfold buildTrustedKeyMap.
  assert (H : ∀ l keys, (∀ e, e ∈ l → kv !! e.1 = Some e.2) → allSince h t keys → allSince h t (foldl buildStep keys l)).
  { induction l as [|[k data] l IH]; intros keys Hl Hk; simpl; [done|]. apply IH; [intros e He; apply Hl; by right|].
    destruct (Contains k ":"); [|done]. destruct (deserializeTrustedKey data) as [tk|] eqn:Hd; [|done].
    case_decide; [done|]. apply allSince_insert; [|done]. exists t. split; [done|]. exists kv, k, data.
    split_and!; [done| |done]. apply (Hl (k, data)). by left. }
  apply H; [|by apply map_Forall_empty]. intros [k data] He. simpl. by rewrite (range_perm kv), elem_of_map_to_list in He.
Qed.

(** ** What a locked body commits

    Every cache a body writes holds only keys it found there, and keys it has just
    persisted ([K]). *)
Fixpoint good {A} (p : prog A) (keys : gmap string TrustedKey) (K : TrustedKey → Prop) : Prop :=
  match p with
  | Done _ => True
  | Keys k => good (k keys) keys K
  | SetKeys m k => map_Forall (λ _ tk, (∃ kid, keys !! kid = Some tk) ∨ K tk) m ∧ good k m K
  | Put _ v k => good (k true) keys (λ tk, K tk ∨ deserializeTrustedKey v = Some tk) ∧ good (k false) keys K
  | KVDelete _ k => ∀ ok, good (k ok) keys K
  | GenAdd k | Ping k => good k keys K
  | Now k => ∀ t, good (k t) keys K
  end.
Abbreviation allValid := (map_Forall (λ (_ : string), validKey)).

Lemma kept_insert (keys : gmap string TrustedKey) (K : TrustedKey → Prop) kid tk : K tk → map_Forall (λ _ tk, (∃ kid, keys !! kid = Some tk) ∨ K tk) (<[kid := tk]> keys).
Proof. intros HK. apply map_Forall_insert_2; [by right|]. intros kid' tk' H. left. by exists kid'. Qed.
Lemma kept_delete (keys : gmap string TrustedKey) (K : TrustedKey → Prop) kid :
  map_Forall (λ _ tk, (∃ kid, keys !! kid = Some tk) ∨ K tk) (delete kid keys).
Proof. intros kid' tk' [_ H]%lookup_delete_Some. left. by exists kid'. Qed.

Lemma good_flip expiry sibs failed k keys K :
  Forall validKey sibs → (∀ b keys K, good (k b) keys K) → good (flipSiblings expiry sibs failed k) keys K.
Proof.
  intros Hv Hk. revert failed keys K. induction Hv as [|s sibs Hs _ IH]; intros failed keys K; simpl; [apply Hk|].
  split; [|apply IH]. split; [|apply IH]. apply kept_insert. right. by apply deserialize_serialize.
Qed.
Lemma good_replace t kid keys tk K : validKey tk → good (replaceKey t kid keys tk) keys K.
Proof. intros Hv. split; [|done]. split; [|done]. apply kept_insert. right. by apply deserialize_serialize. Qed.
Lemma ownKey_lookup t kid (keys : gmap string TrustedKey) tk : ownKey t kid keys = inr tk → keys !! kid = Some tk ∧ tk_TenantID tk = t.
Proof. unfold ownKey. destruct (keys !! kid) as [tk'|]; [|done]. case_decide; [|done]. intros [= <-]. done. Qed.

Lemma good_body r keys : wellFormed r → allValid keys → good (bodyOf r) keys (λ _, False).
Proof.
  intros Hw Hv. destruct r as [tk opts|t kid|t kid g|t kid vf vt]; simpl.
  - destruct (ownedElsewhere tk keys); [done|]. intros now. destruct (capReached _ _ _ _); [done|].
    split; [|done]. split; [apply kept_insert; right; by apply deserialize_serialize|].
    destruct (ro_Invalidate opts); [|done]. simpl. intros now'. apply good_flip; [|done].
    apply Forall_forall. intros k [_ Hk]%list_elem_of_filter. apply list_elem_of_fmap in Hk as ([kid k'] & -> & Hk).
    rewrite (range_perm (A := TrustedKey)), elem_of_map_to_list in Hk. simpl.
    apply lookup_insert_Some in Hk as [[_ <-]|[_ Hk]]; [done|exact (Hv _ _ Hk)].
  - destruct (ownKey t kid keys); [done|]. intros []; [|done]. split; [apply kept_delete|done].
  - destruct (ownKey t kid keys) as [|tk] eqn:Ho; [done|]. intros now. apply good_replace.
    apply ownKey_lookup in Ho as [Ho _]. exact (Hv _ _ Ho).
  - unfold ReactivateKey. case_decide; [done|]. intros now. destruct (checkWindow now vf vt); [done|]. simpl.
    destruct (ownKey t kid keys) as [|tk] eqn:Ho; [done|]. apply good_replace.
    apply ownKey_lookup in Ho as [Ho _]. exact (Hv _ _ Ho).
Qed.

(** ** Freshness *)

Context (delay_nonneg : (0 ≤ delay)%Z).
(** Everything cached was held by the shared store no earlier than [fresh] allows: two
    delays before the last stamp, and one before a listing that has been swapped in. *)
Definition lowerBound (last : Time) (rc : reconcileState) (lb : Time) : Prop :=
  (last - 2 * delay ≤ lb)%Z ∧ match rc with Swapped t => (t - delay ≤ lb)%Z | _ => True end.
Definition fresh (h : list (Time * gmap string string)) (last : Time) rc (keys : gmap string TrustedKey) : Prop :=
  map_Forall (λ _ tk, ∃ lb, lowerBound last rc lb ∧ since h lb tk) keys.
Definition lockOk h s rc (lk : option (prog (option authErr))) : Prop :=
  match lk with
  | None => True
  | Some p => ∃ lb (K : TrustedKey → Prop), lowerBound (ts_lastReconcile s) rc lb ∧ (lb ≤ ts_now s)%Z ∧
      (∀ tk, K tk → since h lb tk) ∧ good p (ts_keys s) K
  end.
Definition reconcileOk (h : list (Time * gmap string string)) s rc : Prop :=
  match rc with
  | Idle | Begun _ _ => True
  | Listed _ _ kv t => (t, kv) ∈ h ∧ (ts_lastReconcile s ≤ t ≤ ts_now s)%Z
  | Swapped t => (ts_lastReconcile s ≤ t ≤ ts_now s)%Z
  end.
Definition loadsOk h s (ld : list (string * TrustedKey * Time)) : Prop :=
  Forall (λ '(_, tk, t), seen h t tk ∧ (t ≤ ts_now s)%Z) ld.
Definition Inv (n : Node) : Prop :=
  let '(mkNode s lk rc ld h) := n in
  (ts_lastReconcile s ≤ ts_now s)%Z ∧ fresh h (ts_lastReconcile s) rc (ts_keys s) ∧
  lockOk h s rc lk ∧ reconcileOk h s rc ∧ loadsOk h s ld.

Lemma fresh_cons x h last rc keys : fresh h last rc keys → fresh (x :: h) last rc keys.
Proof. intros H kid tk Hk. destruct (H _ _ Hk) as (lb & Hlb & Hs). exists lb. split; [done|]. by apply (since_mono x h lb lb). Qed.
Lemma fresh_valid h last rc keys : fresh h last rc keys → allValid keys.
Proof.
  intros H kid tk Hk. destruct (H _ _ Hk) as (lb & _ & t & _ & kv & key & data & _ & _ & Hd). by eapply deserialize_valid.
Qed.
Lemma fresh_all h last rc lb keys : lowerBound last rc lb → allSince h lb keys → fresh h last rc keys.
Proof. intros Hl H kid tk Hk. exists lb. split; [done|exact (H _ _ Hk)]. Qed.
Lemma fresh_kept h last rc lb keys (K : TrustedKey → Prop) m :
  fresh h last rc keys → lowerBound last rc lb → (∀ tk, K tk → since h lb tk) →
  map_Forall (λ _ tk, (∃ kid, keys !! kid = Some tk) ∨ K tk) m → fresh h last rc m.
Proof.
  intros Hf Hl HK Hm kid tk Hk. destruct (Hm _ _ Hk) as [(kid' & H)|H]; [exact (Hf _ _ H)|]. exists lb. auto.
Qed.
Lemma lockOk_cons x h s rc lk : lockOk h s rc lk → lockOk (x :: h) s rc lk.
Proof.
  destruct lk as [p|]; [|done]. intros (lb & K & ? & ? & HK & ?). exists lb, K. split_and!; try done.
  intros tk Htk. by apply (since_mono x h lb lb), HK.
Qed.
Lemma reconcileOk_cons x h s rc : reconcileOk h s rc → reconcileOk (x :: h) s rc.
Proof. destruct rc; try done. intros [? ?]. split; [by right|done]. Qed.
Lemma loadsOk_cons x h s ld : loadsOk h s ld → loadsOk (x :: h) s ld.
Proof. intros H. eapply Forall_impl; [exact H|]. intros [[kid tk] t] [Hs ?]. split; [by apply seen_mono|done]. Qed.
Lemma loadsOk_later h s s' ld : (ts_now s ≤ ts_now s')%Z → loadsOk h s ld → loadsOk h s' ld.
Proof. intros Hl H. eapply Forall_impl; [exact H|]. intros [[kid tk] t] [Hs ?]. split; [done|lia]. Qed.
#[local] Hint Resolve fresh_cons lockOk_cons reconcileOk_cons loadsOk_cons : core.

Lemma inv_record x s lk rc ld h : Inv (mkNode s lk rc ld h) → Inv (mkNode s lk rc ld (x :: h)).
Proof. intros (? & ? & ? & ? & ?). refine (conj _ (conj _ (conj _ (conj _ _)))); auto. Qed.

(** An action of the body under the lock. *)
Lemma inv_act s p p' s' rc ld h f :
  stepProg f p s = Some (p', s') → Inv (mkNode s (Some p) rc ld h) → Inv (mkNode s' (Some p') rc ld (record s' h)).
Proof.
  intros Hs (Hn & Hf & (lb & K & Hlb & Hlo & HK & Hg) & Hr & Hl).
  destruct p as [a|k|m k|key v k|key k|k|k|k]; simpl in Hs; try done; injection Hs as <- <-.
  1,4-7: apply inv_record; try destruct f; refine (conj Hn (conj Hf (conj _ (conj Hr Hl)))); exists lb, K; by simpl in *.
  - apply inv_record. destruct Hg as [Hm Hg]. refine (conj Hn (conj _ (conj _ (conj Hr Hl)))); [|by exists lb, K].
    exact (fresh_kept _ _ _ _ _ _ _ Hf Hlb HK Hm).
  - destruct Hg as [Hg1 Hg2]. destruct f.
    2,3: apply inv_record; refine (conj Hn (conj Hf (conj _ (conj Hr Hl)))); by exists lb, K.
    refine (conj Hn (conj (fresh_cons _ _ _ _ _ Hf) (conj _ (conj (reconcileOk_cons _ _ _ _ Hr) (loadsOk_cons _ _ _ _ Hl))))).
    exists lb, (λ tk, K tk ∨ deserializeTrustedKey v = Some tk). split_and!; try done.
    intros tk [Hk|Hd]; [by apply (since_mono _ h lb lb), HK|]. exists (ts_now s). split; [done|].
    exists (<[key := v]> (ts_kv s)), key, v. split_and!; [by left|by rewrite lookup_insert_eq|done].
Qed.

Lemma lowerBound_idle last rc rc' lb : (∀ t, rc' ≠ Swapped t) → lowerBound last rc lb → lowerBound last rc' lb.
Proof. intros Hrc [? _]. split; [done|]. destruct rc'; try done. by destruct (Hrc at_). Qed.
(** A reconcile that has not swapped, or gives up, asks for nothing more. *)
Lemma inv_quiet s lk rc rc' ld h :
  (∀ t, rc' ≠ Swapped t) → reconcileOk h s rc' → Inv (mkNode s lk rc ld h) → Inv (mkNode s lk rc' ld h).
Proof.
  intros Hrc Hr' (Hn & Hf & Hlk & Hr & Hl). refine (conj Hn (conj _ (conj _ (conj Hr' Hl)))).
  - intros kid tk Hk. destruct (Hf _ _ Hk) as (lb & Hlb & ?). exists lb. eauto using lowerBound_idle.
  - destruct lk as [p|]; [|done]. destruct Hlk as (lb & K & Hlb & ?). exists lb, K. eauto using lowerBound_idle.
Qed.
Lemma inv_later s t lk rc ld h : (ts_now s ≤ t)%Z → Inv (mkNode s lk rc ld h) → Inv (mkNode (set_now t s) lk rc ld h).
Proof.
  intros Ht (Hn & Hf & Hlk & Hr & Hl). refine (conj _ (conj Hf (conj _ (conj _ _)))); [exact (Z.le_trans _ _ _ Hn Ht)| | |by eapply loadsOk_later].
  - destruct lk as [p|]; [|done]. destruct Hlk as (lb & K & Hlb & Hlo & HK). exists lb, K. refine (conj Hlb (conj _ HK)). simpl. lia.
  - destruct rc; try done; simpl in *; intuition lia.
Qed.
Lemma inv_stamp s lk t ld h :
  (ts_now s - t ≤ delay)%Z → Inv (mkNode s lk (Swapped t) ld h) → Inv (mkNode (stampReconcile s) lk Idle ld h).
Proof.
  intros Ht (Hn & Hf & Hlk & Hr & Hl).
  assert (Hlb : ∀ lb, lowerBound (ts_lastReconcile s) (Swapped t) lb → lowerBound (ts_now s) Idle lb).
  { intros lb [_ ?]. split; [lia|done]. }
  refine (conj _ (conj _ (conj _ (conj I Hl)))); [done| |].
  - intros kid tk Hk. destruct (Hf _ _ Hk) as (lb & ? & ?). exists lb. auto.
  - destruct lk as [p|]; [|done]. destruct Hlk as (lb & K & ? & ?). exists lb, K. auto.
Qed.
Lemma inv_commit s rc ld1 kid tk t ld2 h :
  (ts_now s - t ≤ delay)%Z → Inv (mkNode s None rc (ld1 ++ (kid, tk, t) :: ld2) h) →
  Inv (mkNode (loadCommit kid tk s) None rc (ld1 ++ ld2) h).
Proof.
  intros Ht (Hn & Hf & _ & Hr & Hl). apply Forall_app in Hl as [Hl1 [[Hs Hle] Hl2]%Forall_cons].
  refine (conj Hn (conj _ (conj I (conj Hr _)))); [|by apply Forall_app].
  apply map_Forall_insert_2; [|done]. exists t. split; [|by exists t]. split; [simpl; lia|].
  destruct rc; try done. simpl in Hr. lia.
Qed.

Lemma inv_step n n' : step n n' → Inv n → Inv n'.
Proof.
  intros Hs HI. destruct Hs as [s lk rc ld h t Ht|s lk rc ld h kv _|s rc ld h r Hw _|s p p' s' rc ld h f _ Hp|s er rc ld h|s lk ld h
    |s lk k gen ld h|s s' k gen kv t ld h Hsw|s lk s' k gen kv t ld h Hsw Hk|s lk k gen ld h|s lk s' k gen kv t ld h Hsw Hk
    |s lk t ld h Ht|s lk rc ld h ten kid tk _ Hr|s rc ld1 kid tk t ld2 h Ht|s lk rc ld h].
  - by apply inv_record, inv_later.
  - apply inv_record. exact HI.
  - destruct HI as (Hn & Hf & _ & Hr & Hl). refine (conj Hn (conj Hf (conj _ (conj Hr Hl)))).
    exists (ts_now s), (λ _, False). split_and!; [split; [lia|]|done|done|eapply good_body; [done|by eapply fresh_valid]].
    destruct rc; try done. simpl in Hr. lia.
  - by eapply inv_act.
  - destruct HI as (Hn & Hf & _ & Hr & Hl). exact (conj Hn (conj Hf (conj I (conj Hr Hl)))).
  - by eapply inv_quiet; [..|exact HI].
  - eapply inv_quiet; [done| |apply inv_record; exact HI]. destruct HI as (Hn & _). simpl. split; [by left|lia].
  - unfold swapKeys in Hsw. case_decide; [|done]. injection Hsw as <-. destruct HI as (Hn & Hf & _ & [Hin Hr] & Hl).
    refine (conj Hn (conj _ (conj I (conj Hr Hl)))). eapply (fresh_all _ _ _ t); [|by apply build_seen].
    split; simpl; lia.
  - by eapply inv_quiet; [..|exact HI].
  - by eapply inv_quiet; [..|exact HI].
  - by eapply inv_quiet; [..|exact HI].
  - by eapply inv_stamp.
  - apply inv_record with (x := (ts_now s, ts_kv s)) in HI. destruct HI as (Hn & Hf & Hlk & Hrc & Hl).
    refine (conj Hn (conj Hf (conj Hlk (conj Hrc _)))). constructor; [|done]. split; [|done].
    apply bind_Some in Hr as (data & Hd & Hr). apply bind_Some in Hr as (tk' & Ht & Hr). case_decide; [|done].
    injection Hr as ->. exists (ts_kv s), (trustedKeyKey ten kid), data. split_and!; [by left|done..].
  - by eapply inv_commit.
  - exact HI.
Qed.

Lemma inv_reachable n : reachable n → Inv n.
Proof.
  intros (n0 & (now & kv & s & Hs & ->) & Hr).
  assert (H0 : Inv (mkNode s None Idle [] [(now, kv)])).
  { apply bind_Some in Hs as (keys & Hk & [= <-]). unfold buildTrustedKeyMapStrict in Hk. case_decide; [|done].
    injection Hk as <-. refine (conj _ (conj _ (conj I (conj I _)))); [done| |constructor].
    eapply (fresh_all _ _ _ now); [split; [simpl; lia|done]|]. apply build_seen. by left. }
  induction Hr as [|n1 n2 n3 Hst _ IH]; [done|]. apply IH. by eapply inv_step.
Qed.

(** C7. A revocation takes effect everywhere in bounded time, whatever happens to the
    pings that announce it.  Let a trusted key, as it was recorded, be gone from the
    shared store since time [T]: deleted, or replaced by an invalidated record, by any
    node.  Then no node whose reconcile loop runs offers that key for verification
    later than ten reconcile intervals after [T], plus twice the time an operation may
    take between its read and its commit: the cache has been rebuilt by then, or the
    node refuses every key.  Mutations, reconciles and reads through of the node may be
    interleaved in any way with each other and with the writes of its peers, and
    writes may fail or be reported as failed. *)
Theorem revocation_takes_effect n tk T :
  reachable n → ts_loopStarted (nd_store n) = true →
  (∀ t kv key data, (t, kv) ∈ nd_history n → (T ≤ t)%Z → kv !! key = Some data → deserializeTrustedKey data ≠ Some tk) →
  (T + stalenessMultiplier * interval + 2 * delay < ts_now (nd_store n))%Z →
  tk ∉ ListTrustedVerification interval (nd_store n).
Proof.
  intros Hr%inv_reachable Hloop Hgone Hlate Hin. destruct n as [s lk rc ld h]. simpl in *.
  destruct Hr as (_ & Hf & _). unfold ListTrustedVerification, reconcileStale in Hin. rewrite Hloop in Hin. simpl in Hin.
  destruct (bool_decide _) eqn:Hb in Hin; [by apply elem_of_nil in Hin|]. apply bool_decide_eq_false in Hb.
  apply list_elem_of_filter in Hin as [_ Hin]. apply list_elem_of_fmap in Hin as ([kid tk'] & -> & Hin).
  apply elem_of_map_to_list in Hin. destruct (Hf _ _ Hin) as (lb & [Hlb _] & t & Ht & kv & key & data & Hh & Hd & Hk).
  apply (Hgone t kv key data); [done|lia|done..].
Qed.
End Node.
