(* ===== verification/AuthSettled.v ===== *)
(** * The trusted-key store: mutations win over reconciles

    On a node that alone writes to the shared store, a reconcile rebuilds the cache
    while mutations come and go.  The generation counter makes sure that it never
    brings back what a mutation has replaced. *)

From Stdlib Require Import Ascii.
From stdpp Require Import base gmap strings list.
From S2P Require Import Prelude GoStrings Spi Schema SchemaAdmit TxToken AuthKeys AuthTrusted AuthFresh.

Lemma key_inj t kid t' kid' :
  ":"%char ∉ bytesOfString kid → ":"%char ∉ bytesOfString kid' → trustedKeyKey t kid = trustedKeyKey t' kid' → t = t' ∧ kid = kid'.
Proof.
  unfold trustedKeyKey. intros Hk Hk'. revert t'. induction t as [|c t IH]; intros [|c' t'] H; simpl in H.
  - by injection H.
  - injection H as <- H. exfalso. apply Hk. rewrite H, bytesOfString_app. apply elem_of_app. right. by left.
  - injection H as -> H. exfalso. apply Hk'. rewrite <- H, bytesOfString_app. apply elem_of_app. right. by left.
  - injection H as Hc H. subst. apply IH in H as [-> ->]. done.
Qed.
Lemma key_contains t kid : Contains (trustedKeyKey t kid) ":" = true.
Proof.
  unfold trustedKeyKey. induction t as [|c t IH]; [exact (HasPrefix_Contains ":" kid)|].
  change (HasPrefix (String c (t +:+ String ":" kid)) ":" || Contains (t +:+ String ":" kid) ":" = true).
  by rewrite IH, orb_true_r.
Qed.

Section Settled.
Context {P : AuthPrims} {C : KeyCodec} `{L : !KeyCodecLaws} `{O : MapOrder}.
Implicit Types (keys : gmap string TrustedKey) (kv : gmap string string) (tk : TrustedKey).

(** The shared store holds [tk] under the id [kid]. *)
Definition stored kv (kid : string) tk : Prop :=
  tk_KID tk = kid ∧ ∃ data, kv !! trustedKeyKey (tk_TenantID tk) kid = Some data ∧ deserializeTrustedKey data = Some tk.
Definition agree keys kv : Prop := ∀ kid tk, keys !! kid = Some tk ↔ stored kv kid tk.
Definition storable tk : Prop := tk_TenantID tk ≠ "" ∧ ":"%char ∉ bytesOfString (tk_KID tk).
(** Every record is readable and stored where its key belongs; no id has two owners. *)
Definition wfKV kv : Prop :=
  (∀ key data, kv !! key = Some data →
     ∃ tk, deserializeTrustedKey data = Some tk ∧ key = trustedKeyKey (tk_TenantID tk) (tk_KID tk) ∧ storable tk) ∧
  (∀ kid tk tk', stored kv kid tk → stored kv kid tk' → tk = tk').

Lemma agree_unique keys keys' kv : agree keys kv → agree keys' kv → keys = keys'.
Proof. intros H H'. apply map_eq. intros kid. apply option_eq. intros tk. by rewrite (H kid tk), (H' kid tk). Qed.
Lemma stored_storable kv kid tk : wfKV kv → stored kv kid tk → storable tk.
Proof.
  intros [Hw _] (_ & data & Hd & Hk). apply Hw in Hd as (tk' & Hk' & _ & ?). by simplify_eq.
Qed.

Lemma stored_kid kv kid tk : wfKV kv → stored kv kid tk → ":"%char ∉ bytesOfString kid.
Proof. intros Hw Hs. destruct (stored_storable _ _ _ Hw Hs) as [_ H]. by destruct Hs as [<- _]. Qed.

Lemma build_agree kv : wfKV kv → agree (buildTrustedKeyMap kv) kv.
Proof.
  intros Hw. unfold buildTrustedKeyMap.
  assert (H : ∀ l keys, (∀ e, e ∈ l → kv !! e.1 = Some e.2) → (∀ kid tk, keys !! kid = Some tk → stored kv kid tk) →
    ∀ kid tk, foldl buildStep keys l !! kid = Some tk ↔
      stored kv kid tk ∧ (keys !! kid = Some tk ∨ ∃ key data, (key, data) ∈ l ∧ deserializeTrustedKey data = Some tk)).
  { destruct Hw as [Hw Hu]. induction l as [|[key data] l IH]; intros keys Hl Hk kid tk; simpl.
    { split; [intros H; split; [by apply Hk|by left]|]. by intros [_ [H|(? & ? & H%elem_of_nil & _)]]. }
    assert (Hkv : kv !! key = Some data) by (apply (Hl (key, data)); by left).
    destruct (Hw _ _ Hkv) as (tk0 & Hd0 & -> & Ht & Hc). rewrite key_contains, Hd0, decide_False by done.
    assert (Hs0 : stored kv (tk_KID tk0) tk0) by (split; [done|by exists data]).
    rewrite IH; [|intros e He; apply Hl; by right|].
    2: { intros kid' tk'. rewrite lookup_insert_Some. intros [[<- <-]|[_ H]]; [done|by apply Hk]. }
    split; intros [Hst Hor]; (split; [done|]).
    - destruct Hor as [[[<- <-]|[_ H]]%lookup_insert_Some|(k & d & Hin & Hd)].
      + right. exists (trustedKeyKey (tk_TenantID tk0) (tk_KID tk0)), data. split; [by left|done].
      + by left.
      + right. exists k, d. split; [by right|done].
    - destruct (decide (kid = tk_KID tk0)) as [->|Hne].
      + left. rewrite (Hu _ _ _ Hst Hs0). by rewrite lookup_insert_eq.
      + destruct Hor as [H|(k & d & [[= -> ->]|Hin]%elem_of_cons & Hd)].
        * left. by rewrite lookup_insert_ne.
        * exfalso. apply Hne. simplify_eq. by destruct Hst as [<- _].
        * right. eauto. }
  intros kid tk. rewrite H; [|intros [k d] He; by rewrite (range_perm kv), elem_of_map_to_list in He|by intros ?? []%lookup_empty_Some].
  split; [by intros [? _]|]. intros Hst. split; [done|]. right. destruct Hst as (<- & data & Hd & Hk).
  exists (trustedKeyKey (tk_TenantID tk) (tk_KID tk)), data. by rewrite (range_perm kv), elem_of_map_to_list.
Qed.

(** A well-formed store can be loaded. *)
Lemma strict_build kv : wfKV kv → buildTrustedKeyMapStrict kv = Some (buildTrustedKeyMap kv).
Proof.
  intros Hw. unfold buildTrustedKeyMapStrict. rewrite decide_True; [done|]. apply Forall_forall. intros [key data] He _.
  rewrite (range_perm kv), elem_of_map_to_list in He. destruct (proj1 Hw _ _ He) as (tk & Htk & _). by exists tk.
Qed.

(** ** Writes *)

Lemma stored_put kv tk kid tk' :
  validKey tk → storable tk → (∀ k, stored kv (tk_KID tk) k → tk_TenantID k = tk_TenantID tk) → wfKV kv →
  stored (<[trustedKeyKey (tk_TenantID tk) (tk_KID tk) := serializeTrustedKey tk]> kv) kid tk' ↔
  (kid = tk_KID tk ∧ tk' = tk) ∨ (kid ≠ tk_KID tk ∧ stored kv kid tk').
Proof.
  intros Hv [Ht Hc] Hown Hw. set (key := trustedKeyKey (tk_TenantID tk) (tk_KID tk)). split.
  - intros (Hk & data & Hd & Hdes). apply lookup_insert_Some in Hd as [[Heq <-]|[Hne Hd]].
    + left. rewrite deserialize_serialize in Hdes by done. simplify_eq. done.
    + right. assert (Hst : stored kv kid tk') by (split; [done|by exists data]). split; [|done]. intros ->.
      apply Hne. unfold key. by rewrite (Hown _ Hst).
  - intros [[-> ->]|[Hne (Hk & data & Hd & Hdes)]].
    + split; [done|]. exists (serializeTrustedKey tk). split; [apply lookup_insert_eq|by apply deserialize_serialize].
    + split; [done|]. exists data. split; [|done]. rewrite lookup_insert_ne; [done|]. intros [_ H]%key_inj; [done|done|].
      apply (stored_kid kv kid tk'); [done|]. split; [done|by exists data].
Qed.

(** A key whose id is free, or its tenant's own, is written and cached. *)
Lemma put_settles keys kv tk :
  validKey tk → storable tk → ownedElsewhere tk keys = false → wfKV kv → agree keys kv →
  wfKV (<[trustedKeyKey (tk_TenantID tk) (tk_KID tk) := serializeTrustedKey tk]> kv) ∧
  agree (<[tk_KID tk := tk]> keys) (<[trustedKeyKey (tk_TenantID tk) (tk_KID tk) := serializeTrustedKey tk]> kv).
Proof.
  intros Hv Hs Ho Hw Ha.
  assert (Hown : ∀ k, stored kv (tk_KID tk) k → tk_TenantID k = tk_TenantID tk).
  { intros k Hk%Ha. unfold ownedElsewhere in Ho. rewrite Hk in Ho. apply bool_decide_eq_false in Ho. by destruct (decide (tk_TenantID k = tk_TenantID tk)). }
  assert (H := λ kid tk', stored_put kv tk kid tk' Hv Hs Hown Hw). split; [split|].
  - intros key data [[<- <-]|[_ Hd]]%lookup_insert_Some; [|by apply Hw]. exists tk. by rewrite deserialize_serialize.
  - intros kid k k'. rewrite !H. intros [[-> ->]|[Hn H1]] [[? ->]|[Hn' H2]]; try done. by eapply (proj2 Hw).
  - intros kid k. rewrite H, lookup_insert_Some, (Ha kid k). naive_solver.
Qed.
Lemma delete_settles keys kv t kid tk :
  keys !! kid = Some tk → tk_TenantID tk = t → wfKV kv → agree keys kv →
  wfKV (delete (trustedKeyKey t kid) kv) ∧ agree (delete kid keys) (delete (trustedKeyKey t kid) kv).
Proof.
  intros Hk <- Hw Ha. assert (Hst := proj1 (Ha _ _) Hk).
  assert (H : ∀ kid' k, stored (delete (trustedKeyKey (tk_TenantID tk) kid) kv) kid' k ↔ kid' ≠ kid ∧ stored kv kid' k).
  { intros kid' k. split.
    - intros (Hkid & data & [Hne Hd]%lookup_delete_Some & Hdes).
      assert (Hs : stored kv kid' k) by (split; [done|by exists data]). split; [|done]. intros ->.
      apply Hne. by rewrite (proj2 Hw _ _ _ Hst Hs).
    - intros [Hne (Hkid & data & Hd & Hdes)]. split; [done|]. exists data. split; [|done].
      rewrite lookup_delete_ne; [done|]. intros [_ ?]%key_inj; [done|by eapply stored_kid|].
      apply (stored_kid kv kid' k); [done|]. split; [done|by exists data]. }
  split; [split|].
  - intros key data [_ Hd]%lookup_delete_Some. by apply Hw.
  - intros kid' k k' [_ H1]%H [_ H2]%H. by eapply (proj2 Hw).
  - intros kid' k. rewrite H, lookup_delete_Some, (Ha kid' k). naive_solver.
Qed.

(** ** The bodies

    [settles p keys kv]: from this cache and this store, whatever its writes meet, the
    body [p] keeps the store well formed and ends with the two in agreement. *)
Fixpoint settles {A} (p : prog A) keys kv : Prop :=
  match p with
  | Done _ => agree keys kv
  | Keys k => settles (k keys) keys kv
  | SetKeys m k => settles k m kv
  | Put key v k => wfKV (<[key := v]> kv) ∧ settles (k true) keys (<[key := v]> kv) ∧ settles (k false) keys kv
  | KVDelete key k => wfKV (delete key kv) ∧ settles (k true) keys (delete key kv) ∧ settles (k false) keys kv
  | GenAdd k | Ping k => settles k keys kv
  | Now k => ∀ t, settles (k t) keys kv
  end.
(** [owes p]: the body counts a generation before it writes again or ends. *)
Fixpoint owes {A} (p : prog A) : Prop :=
  match p with
  | GenAdd _ => True
  | SetKeys _ k | Ping k => owes k
  | Keys k => ∀ m, owes (k m)
  | Now k => ∀ t, owes (k t)
  | Done _ | Put _ _ _ | KVDelete _ _ => False
  end.
(** [counted p]: it does so after every write that is done. *)
Fixpoint counted {A} (p : prog A) : Prop :=
  match p with
  | Done _ => True
  | Put _ _ k | KVDelete _ k => owes (k true) ∧ ∀ ok, counted (k ok)
  | GenAdd k | SetKeys _ k | Ping k => counted k
  | Keys k => ∀ m, counted (k m)
  | Now k => ∀ t, counted (k t)
  end.

(** Requests of a node that registers well-formed keys and leaves the siblings alone. *)
Definition plain (r : request) : Prop :=
  match r with RRegister tk opts => storable tk ∧ ro_Invalidate opts = false | _ => True end.
Definition alone : Setting := mkSetting plain (λ f, f ≠ Lost) False False.

Context (maxPerTenant interval delay : Z) (zeroTime : Time).
Abbreviation bodyOf := (bodyOf maxPerTenant zeroTime).
Abbreviation step := (step maxPerTenant delay zeroTime alone).

Lemma counted_body r : plain r → counted (bodyOf r).
Proof.
  intros Hp. destruct r as [tk opts|t kid|t kid g|t kid vf vt]; simpl.
  - destruct Hp as [_ Hp]. intros keys. destruct (ownedElsewhere tk keys); [done|]. intros now.
    destruct (capReached _ _ _ _); [done|]. split; [done|]. intros []; [|done]. simpl. by rewrite Hp.
  - intros keys. destruct (ownKey t kid keys); [done|]. split; [done|]. by intros [].
  - intros keys. destruct (ownKey t kid keys); [done|]. intros now. split; [done|]. by intros [].
  - unfold ReactivateKey. case_decide; [done|]. intros now. destruct (checkWindow now vf vt); [done|]. intros keys.
    destruct (ownKey t kid keys); [done|]. split; [done|]. by intros [].
Qed.

Lemma settles_replace keys kv t kid tk upd :
  keys !! kid = Some tk → tk_TenantID tk = t → tk_KID upd = tk_KID tk → tk_TenantID upd = t →
  tk_PublicKey upd = tk_PublicKey tk → wfKV kv → agree keys kv → settles (replaceKey t kid keys upd) keys kv.
Proof.
  intros Hk Ht Hkid Htu Hpk Hw Ha. assert (Hst := proj1 (Ha _ _) Hk).
  destruct (stored_storable _ _ _ Hw Hst) as [Hs1 Hs2]. destruct Hst as (Hkid' & data & _ & Hd%deserialize_valid).
  assert (kid = tk_KID upd) as -> by congruence. subst t. rewrite <- Htu.
  destruct (put_settles keys kv upd) as [Hw' Ha']; [| | |done..|done].
  - unfold validKey. by rewrite Hpk.
  - split; [by rewrite Htu|by rewrite Hkid].
  - unfold ownedElsewhere. rewrite Hk. apply bool_decide_eq_false. intros Hne. by apply Hne.
Qed.
Lemma settles_body r keys kv : wellFormed r → plain r → wfKV kv → agree keys kv → settles (bodyOf r) keys kv.
Proof.
  intros Hv Hp Hw Ha. destruct r as [tk opts|t kid|t kid g|t kid vf vt]; simpl.
  - destruct Hp as [Hs Hp]. destruct (ownedElsewhere tk keys) eqn:Ho; [done|]. intros now.
    destruct (capReached _ _ _ _); [done|]. destruct (put_settles keys kv tk) as [Hw' Ha']; [done..|].
    rewrite Hp. done.
  - destruct (ownKey t kid keys) as [|tk] eqn:Ho; [done|]. apply ownKey_lookup in Ho as [Hk Ht].
    destruct (delete_settles keys kv t kid tk) as [Hw' Ha']; done.
  - destruct (ownKey t kid keys) as [|tk] eqn:Ho; [done|]. apply ownKey_lookup in Ho as [Hk Ht].
    intros now. by eapply settles_replace.
  - unfold ReactivateKey. case_decide; [done|]. intros now. destruct (checkWindow now vf vt); [done|]. simpl.
    destruct (ownKey t kid keys) as [|tk] eqn:Ho; [done|]. apply ownKey_lookup in Ho as [Hk Ht].
    by eapply settles_replace.
Qed.

(** ** Interleavings *)

(** A listing that could still be swapped in is what the store holds, or a body that has
    written since will count before it lets go of the lock. *)
Definition listingOk (s : TStore) (lk : option (prog (option authErr))) (rc : reconcileState) : Prop :=
  match rc with
  | Idle | Swapped _ => True
  | Begun _ gen => (gen ≤ ts_gen s)%N
  | Listed _ gen kv _ => (gen ≤ ts_gen s)%N ∧ (gen = ts_gen s → kv = ts_kv s ∨ ∃ p, lk = Some p ∧ owes p)
  end.
Definition SInv (n : Node) : Prop :=
  let '(mkNode s lk rc ld _) := n in
  wfKV (ts_kv s) ∧ ld = [] ∧ listingOk s lk rc ∧
  match lk with None => agree (ts_keys s) (ts_kv s) | Some p => settles p (ts_keys s) (ts_kv s) ∧ counted p end.

Lemma listing_weaken s lk lk' rc : (∀ p, lk = Some p → owes p → ∃ p', lk' = Some p' ∧ owes p') → listingOk s lk rc → listingOk s lk' rc.
Proof. intros H. destruct rc; try done. intros [? Hl]. split; [done|]. intros [?|(p & Hp & Ho)]%Hl; [by left|right; eauto]. Qed.
Lemma listing_bumped s lk lk' rc : listingOk s lk rc → listingOk (bumpGen s) lk' rc.
Proof. destruct rc; try done; simpl; [lia|]. intros [? _]. split; lia. Qed.
(** A write that is done leaves the body owing a generation. *)
Lemma listing_written s lk p kv rc : owes p → listingOk s lk rc → listingOk (set_kv kv s) (Some p) rc.
Proof. intros Ho. destruct rc; try done; simpl. intros [? _]. split; [done|]. right. eauto. Qed.
Lemma listing_refused s p p' rc : ¬ owes p → listingOk s (Some p) rc → listingOk s (Some p') rc.
Proof. intros Hn. apply listing_weaken. intros q [= <-] ?. done. Qed.

Lemma sinv_act s p p' s' rc ld h h' f :
  f ≠ Lost → stepProg f p s = Some (p', s') → SInv (mkNode s (Some p) rc ld h) → SInv (mkNode s' (Some p') rc ld h').
Proof.
  intros Hf Hs (Hw & Hld & Hli & Hse & Hco).
  destruct p as [a|k|m k|key v k|key k|k|k|k]; simpl in Hs; try done; injection Hs as <- <-.
  - refine (conj Hw (conj Hld (conj _ (conj Hse (Hco _))))). revert Hli. apply listing_weaken. intros q [= <-] Ho. eexists. split; [done|apply Ho].
  - refine (conj Hw (conj Hld (conj _ (conj Hse Hco)))). change (listingOk s (Some k) rc). revert Hli. apply listing_weaken.
    intros q [= <-] Ho. eexists. split; [done|apply Ho].
  - destruct Hse as (Hw' & Ht & Hfl), Hco as [Ho Hco].
    destruct f; [|refine (conj Hw (conj Hld (conj _ (conj Hfl (Hco _))))); eapply listing_refused; [|exact Hli]; by intros []|done].
    refine (conj Hw' (conj Hld (conj _ (conj Ht (Hco _))))). eapply listing_written; [exact Ho|exact Hli].
  - destruct Hse as (Hw' & Ht & Hfl), Hco as [Ho Hco].
    destruct f; [|refine (conj Hw (conj Hld (conj _ (conj Hfl (Hco _))))); eapply listing_refused; [|exact Hli]; by intros []|done].
    refine (conj Hw' (conj Hld (conj _ (conj Ht (Hco _))))). eapply listing_written; [exact Ho|exact Hli].
  - refine (conj Hw (conj Hld (conj _ (conj Hse Hco)))). by eapply listing_bumped.
  - refine (conj Hw (conj Hld (conj _ (conj (Hse _) (Hco _))))). revert Hli. apply listing_weaken. intros q [= <-] Ho. eexists. split; [done|apply Ho].
  - refine (conj Hw (conj Hld (conj _ (conj Hse Hco)))). change (listingOk s (Some k) rc). revert Hli. apply listing_weaken.
    intros q [= <-] Ho. eexists. split; [done|apply Ho].
Qed.

Lemma sinv_step n n' : step n n' → SInv n → SInv n'.
Proof.
  intros Hs HI. destruct Hs as [s lk rc ld h t Ht|s lk rc ld h kv Hno|s rc ld h r Hw Hp|s p p' s' rc ld h f Hf Hp|s er rc ld h|s lk ld h
    |s lk k gen ld h|s s' k gen kv t ld h Hsw|s lk s' k gen kv t ld h Hsw Hk|s lk k gen ld h|s lk s' k gen kv t ld h Hsw Hk
    |s lk t ld h Ht|s lk rc ld h ten kid tk Hno Hr|s rc ld1 kid tk t ld2 h Ht|s lk rc ld h]; try done.
  - destruct HI as (Hkv & Hld & Hli & Ha). refine (conj Hkv (conj Hld (conj _ (conj _ (counted_body r Hp))))); [|by apply settles_body].
    revert Hli. by apply listing_weaken.
  - exact (sinv_act s p p' s' rc ld h _ f Hf Hp HI).
  - destruct HI as (Hkv & Hld & Hli & Ha & _). refine (conj Hkv (conj Hld (conj _ Ha))). revert Hli.
    apply listing_weaken. by intros q [= <-] [].
  - destruct HI as (Hkv & Hld & _ & Ha). refine (conj Hkv (conj Hld (conj _ Ha))). simpl. lia.
  - destruct HI as (Hkv & Hld & Hli & Ha). refine (conj Hkv (conj Hld (conj _ Ha))). simpl in *. auto.
  - unfold swapKeys in Hsw. case_decide as Hg; [|done]. injection Hsw as <-. destruct HI as (Hkv & Hld & [_ Hli] & _).
    destruct (Hli (eq_sym Hg)) as [->|(p & [=] & _)]. refine (conj Hkv (conj Hld (conj I _))). by apply build_agree.
  - destruct HI as (Hkv & Hld & _ & Ha). refine (conj Hkv (conj Hld (conj _ Ha))). simpl. lia.
  - destruct HI as (Hkv & Hld & _ & Ha). exact (conj Hkv (conj Hld (conj I Ha))).
  - destruct HI as (Hkv & Hld & _ & Ha). exact (conj Hkv (conj Hld (conj I Ha))).
  - destruct HI as (_ & [_ [=]]%app_eq_nil & _).
Qed.

(** C19. Mutations win over reconciles.  On a node that alone writes to the shared
    store, starting from a store whose records are readable and in their places,
    registrations, deletions, invalidations, reactivations and reconciles may be
    interleaved action by action in any way, and writes may be refused.  Whenever no
    mutation is under way, the cache holds exactly the keys of the shared store: it is
    what a rebuild at that moment would give, so no reconcile has brought back what a
    mutation replaced.  The registrations meant here leave the siblings alone. *)
Theorem mutations_win n0 n :
  constructed n0 → wfKV (ts_kv (nd_store n0)) → rtc step n0 n → nd_lock n = None →
  (∀ kid tk, ts_keys (nd_store n) !! kid = Some tk ↔ stored (ts_kv (nd_store n)) kid tk) ∧
  ts_keys (nd_store n) = buildTrustedKeyMap (ts_kv (nd_store n)).
Proof.
  intros (now & kv & s & Hs & ->) Hw Hr Hlk. assert (H0 : SInv (mkNode s None Idle [] [(now, kv)])).
  { apply bind_Some in Hs as (keys & Hk & [= <-]). unfold buildTrustedKeyMapStrict in Hk. case_decide; [|done].
    injection Hk as <-. refine (conj Hw (conj eq_refl (conj I _))). by apply build_agree. }
  assert (Hn : SInv n) by (clear Hw Hs Hlk; induction Hr as [|n1 n2 n3 Hst _ IH]; [done|apply IH; by eapply sinv_step]).
  destruct n as [s' lk rc ld h]. simpl in Hlk. subst lk. destruct Hn as (Hw' & _ & _ & Ha). split; [exact Ha|].
  eapply agree_unique; [exact Ha|by apply build_agree].
Qed.
End Settled.
