(* ===== verification/AuthRuns.v ===== *)
(** * The identity service, run

    Concrete instances of what the identity service takes as given (signatures, hashes,
    JSON, the order of maps), which show that the laws asked of them can hold, and runs
    of the endpoints and of a node on them. *)

From Stdlib Require Import Ascii.
From stdpp Require Import base gmap strings list countable.
From S2P Require Import Prelude GoStrings Spi Schema SchemaAdmit TxToken AuthKeys AuthJwt AuthProof AuthTrusted AuthFresh AuthSettled.

(** ** Instances *)

#[export] Instance toyPrims : AuthPrims := {
  PrivateKey := N;
  Public k := mkPub k 65537;
  SignPKCS1v15 k m := Some (String (ascii_of_N k) m);
  VerifyPKCS1v15 pk m sig := bool_decide (sig = String (ascii_of_N (pk_N pk)) m);
  bcryptHash salt s := Some (String "$" s);
  bcryptCompare h s := bool_decide (h = String "$" s)
}.
#[export] Instance toyPrimsLaws : AuthPrimsLaws.
Proof.
  split; simpl.
  - intros k m sig [= <-]. by apply bool_decide_eq_true.
  - intros salt s h [= <-]. by apply bool_decide_eq_true.
Qed.
#[export] Instance toyOrder : MapOrder := { range A m := map_to_list m; range_perm A m := reflexivity _ }.

(** Any countable value as a string of digits. *)
Fixpoint digits (p : positive) : string :=
  match p with xH => EmptyString | xO p => String "0" (digits p) | xI p => String "1" (digits p) end.
Fixpoint undigits (s : string) : option positive :=
  match s with
  | EmptyString => Some xH
  | String c s => p ← undigits s; if decide (c = "0"%char) then Some (xO p) else if decide (c = "1"%char) then Some (xI p) else None
  end.
Lemma undigits_digits p : undigits (digits p) = Some p.
Proof. induction p as [p IH|p IH|]; simpl; [by rewrite IH..|done]. Qed.
Definition write `{Countable A} (x : A) : string := digits (encode x).
Definition read `{Countable A} (s : string) : option A := p ← undigits s; decode p.
Lemma read_write `{Countable A} (x : A) : read (write x) = Some x.
Proof. unfold read, write. rewrite undigits_digits. apply countable.decode_encode. Qed.

(** *** Claims *)

Abbreviation tree := (gen_tree (string + Z)).
Fixpoint claimTree (c : claim) : tree :=
  match c with
  | CNull => GenNode 0 []
  | CBool b => GenNode (if b then 2 else 1) []
  | CNumber n => GenLeaf (inr n)
  | CString s => GenLeaf (inl s)
  | CArray l => GenNode 3 (claimTree <$> l)
  | CObject m => GenNode 4 ((λ '(k, c), GenNode 5 [GenLeaf (inl k); claimTree c]) <$> m)
  end.
(** A member is read as an array of its name and its value. *)
Definition member (c : claim) : string * claim := match c with CArray [CString k; c] => (k, c) | _ => ("", CNull) end.
Fixpoint treeClaim (t : tree) : claim :=
  match t with
  | GenLeaf (inr n) => CNumber n
  | GenLeaf (inl s) => CString s
  | GenNode 1 _ => CBool false
  | GenNode 2 _ => CBool true
  | GenNode 3 l | GenNode 5 l => CArray (treeClaim <$> l)
  | GenNode 4 l => CObject (member ∘ treeClaim <$> l)
  | GenNode _ _ => CNull
  end.
Lemma treeClaim_claimTree : ∀ c, treeClaim (claimTree c) = c.
Proof.
  fix IH 1. intros [|[]|n|s|l|m]; [reflexivity..| |]; simpl; f_equal.
  - rewrite <- list_fmap_compose. induction l as [|c l IHl]; [done|]. csimpl. by rewrite IH, IHl.
  - rewrite <- list_fmap_compose. induction m as [|[k c] m IHm]; [done|]. csimpl. by rewrite IH, IHm.
Qed.

Definition fits (n : Z) : bool := bool_decide (-9007199254740992 ≤ n ≤ 9007199254740992)%Z.
Definition bareCodec : ClaimCodec := {| encodeJSON _ := ""; decodeJSON _ := None; isFloat := fits |}.
#[export] Instance toyClaims : ClaimCodec := {
  encodeJSON m := write (prod_map id claimTree <$> map_to_list m);
  decodeJSON s :=
    l ← read s;
    let m : claims := list_to_map (prod_map id treeClaim <$> (l : list (string * tree))) in
    if decide (map_Forall (λ _ c, floats (J := bareCodec) c = true) m) then Some m else None;
  isFloat := fits
}.
Lemma prod_map_cancel {A B} (f : A → B) (g : B → A) (l : list (string * A)) :
  (∀ x, g (f x) = x) → prod_map id g <$> (prod_map id f <$> l) = l.
Proof. intros H. induction l as [|[k x] l IH]; [done|]. csimpl. by rewrite H, IH. Qed.
#[export] Instance toyClaimsLaws : ClaimCodecLaws.
Proof.
  split.
  - intros n Hn. by apply bool_decide_eq_true.
  - intros s m (l & _ & H)%bind_Some. simpl in H. case_decide as Hf; [|done]. by injection H as <-.
  - intros m Hm. simpl. rewrite read_write. cbn [mbind option_bind].
    rewrite prod_map_cancel, list_to_map_to_list by apply treeClaim_claimTree. by rewrite decide_True.
Qed.

(** *** Records of trusted keys *)

Fixpoint jsonTree (j : JSON) : tree :=
  match j with
  | JNull => GenNode 0 []
  | JBool b => GenNode (if b then 2 else 1) []
  | JString s => GenLeaf (inl s)
  | JArray l => GenNode 3 (jsonTree <$> l)
  | JObject m => GenNode 4 ((λ '(k, j), GenNode 5 [GenLeaf (inl k); jsonTree j]) <$> m)
  | JNumber s => GenNode 6 [GenLeaf (inl s)]
  | JFloat64 => GenNode 7 []
  | JOther s => GenNode 8 [GenLeaf (inl s)]
  end.
Definition field (j : JSON) : string * JSON := match j with JArray [JString k; j] => (k, j) | _ => ("", JNull) end.
Fixpoint treeJSON (t : tree) : JSON :=
  match t with
  | GenLeaf (inl s) => JString s
  | GenNode 1 _ => JBool false
  | GenNode 2 _ => JBool true
  | GenNode 3 l | GenNode 5 l => JArray (treeJSON <$> l)
  | GenNode 4 l => JObject (field ∘ treeJSON <$> l)
  | GenNode 6 [GenLeaf (inl s)] => JNumber s
  | GenNode 7 _ => JFloat64
  | GenNode 8 [GenLeaf (inl s)] => JOther s
  | _ => JNull
  end.
Lemma treeJSON_jsonTree : ∀ j, treeJSON (jsonTree j) = j.
Proof.
  fix IH 1. intros [|m|l|s|s|[]| |s]; [reflexivity| | |reflexivity..]; simpl; f_equal.
  - rewrite <- list_fmap_compose. induction m as [|[k c] m IHm]; [done|]. csimpl. by rewrite IH, IHm.
  - rewrite <- list_fmap_compose. induction l as [|c l IHl]; [done|]. csimpl. by rewrite IH, IHl.
Qed.

Abbreviation row := (string * string * list (string * tree) * (string * list string) * (bool * string * option string) * (string * string))%type.
#[export] Instance toyKeys : KeyCodec := {
  marshalRecord r :=
    write (rec_KID r, rec_TenantID r, prod_map id jsonTree <$> rec_JWK r, (rec_Audience r, rec_Issuers r),
           (rec_Active r, rec_ValidFrom r, rec_ValidTo r), (rec_N r, rec_E r));
  unmarshalRecord s :=
    '(kid, ten, jwk, (aud, iss), (act, vf, vt), (n, e)) ← (read s : option row);
    Some (mkRecord kid ten (prod_map id treeJSON <$> jwk) aud iss act vf vt n e);
  formatTime t := write (t : Z);
  parseTime s := (read s : option Z)
}.
#[export] Instance toyKeysLaws : KeyCodecLaws.
Proof.
  split; [|intros t; apply read_write]. intros [kid ten jwk aud iss act vf vt n e]. simpl. rewrite read_write. simpl.
  by rewrite prod_map_cancel by apply treeJSON_jsonTree.
Qed.

(** ** Tokens *)

Definition second : Z := 1000000000.
Definition oldKey : KeyPair := mkKeyPair "k1" "client" "RS256" (mkPub 11 65537) (11%N : PrivateKey) true 0 None.
Definition newKey : KeyPair := mkKeyPair "k2" "client" "RS256" (mkPub 13 65537) (13%N : PrivateKey) true 5 None.
Definition keysBefore : gmap string KeyPair := {["k1" := oldKey]}.

Lemma keysBefore_ok : keyed keysBefore ∧ signingKeys keysBefore.
Proof. split; by apply map_Forall_singleton. Qed.

Definition handler : tokenHandler := mkTokenHandler "cyoda" 3600.
Definition app : M2MClient := mkClient "app" "$secret" "acme" "" ["ROLE_USER"] 0 0.
Definition tokenForm : tokenRequest :=
  mkTokenRequest "POST" "Basic YXBwOnNlY3JldA==" (λ k, if decide (k = "grant_type") then "client_credentials" else "").
Lemma toy_issues : ∃ tok, ServeHTTP handler keysBefore {["app" := app]} [] (7 * second) "id" tokenForm = TokenIssued tok 3600 false.
Proof.
  unfold ServeHTTP. rewrite decide_True by done.
  assert (parseBasicAuth (rq_Authorization tokenForm) = Some ("app", "secret")) as -> by by vm_compute.
  assert (VerifySecret "app" "secret" {["app" := app]} = inr true) as -> by by vm_compute.
  rewrite decide_True by by vm_compute. unfold handleClientCredentials.
  assert (GetClient "app" {["app" := app]} = inr app) as -> by by vm_compute. unfold issue.
  assert (GetActive (7 * second) "client" keysBefore = inr oldKey) as -> by by vm_compute.
  unfold Sign. cbn [SignPKCS1v15 toyPrims mbind option_bind]. by eexists.
Qed.
Lemma toy_wf :
  clientsWf {["app" := app]} ∧ smallSeconds (unixSeconds (7 * second)) ∧ smallSeconds (expiry handler (7 * second)).
Proof. split; [by apply map_Forall_singleton|]. split; split; by apply Z.leb_le. Qed.

(** ** A node *)

Definition trusted (kid : string) (active : bool) : TrustedKey :=
  mkTrusted kid "acme" [] (mkPub 221 65537) "human" [] active 0 None.
Definition place (tk : TrustedKey) : string := trustedKeyKey (tk_TenantID tk) (tk_KID tk).
Definition put (tk : TrustedKey) (kv : gmap string string) : gmap string string := <[place tk := serializeTrustedKey tk]> kv.
Definition anything : Setting := mkSetting (λ _, True) (λ _, True) True True.

Lemma trusted_valid kid b : validKey (trusted kid b).
Proof. by split. Qed.
Lemma empty_settled : wfKV ∅ ∧ agree ∅ ∅.
Proof.
  split; [split; [done|by intros kid tk tk' (_ & data & [=] & _)]|]. intros kid tk.
  split; [done|by intros (_ & data & [=] & _)].
Qed.
(** A store that holds one key, and the node that starts from it. *)
Lemma one_settled kid : ":"%char ∉ bytesOfString kid →
  wfKV (put (trusted kid true) ∅) ∧ agree (<[kid := trusted kid true]> ∅) (put (trusted kid true) ∅).
Proof. intros Hk. destruct empty_settled. by apply (put_settles ∅ ∅ (trusted kid true)); [apply trusted_valid|split|..]. Qed.
Lemma start_one kid : ":"%char ∉ bytesOfString kid →
  NewKVTrustedKeyStore 0 (put (trusted kid true) ∅) =
    Some (mkTStore (<[kid := trusted kid true]> ∅) (put (trusted kid true) ∅) 0 0 false 0 0).
Proof.
  intros Hk. destruct (one_settled kid Hk) as [Hw Ha]. unfold NewKVTrustedKeyStore. rewrite (strict_build _ Hw).
  cbn [mbind option_bind]. by rewrite (agree_unique _ _ _ (build_agree _ Hw) Ha).
Qed.

Section Runs.
Context (maxPerTenant interval delay : Z) (zeroTime : Time) (env : Setting).
Context (willing : mayFail env NoFault).
Abbreviation step := (step maxPerTenant delay zeroTime env).

Lemma act_then p p1 s s1 rc ld h (n : list (Time * gmap string string) → Node) :
  stepProg NoFault p s = Some (p1, s1) → (∀ h, ∃ h', rtc step (mkNode s1 (Some p1) rc ld h) (n h')) →
  ∃ h', rtc step (mkNode s (Some p) rc ld h) (n h').
Proof. intros Hp Hn. destruct (Hn (record s1 h)) as [h' Hr]. exists h'. eapply rtc_l; [by eapply step_act|exact Hr]. Qed.
(** The first [n] actions of a body, none of which fails. *)
Fixpoint acts {A} (n : nat) (p : prog A) (s : TStore) : option (prog A * TStore) :=
  match n with
  | 0 => Some (p, s)
  | S n => match stepProg NoFault p s with Some (p, s) => acts n p s | None => None end
  end.
Lemma acts_steps n p s p' s' rc ld h :
  acts n p s = Some (p', s') → ∃ h', rtc step (mkNode s (Some p) rc ld h) (mkNode s' (Some p') rc ld h').
Proof.
  revert p s h. induction n as [|n IH]; intros p s h; simpl; [intros [= -> ->]; exists h; constructor|].
  destruct (stepProg NoFault p s) as [[p1 s1]|] eqn:E; [|done]. intros H.
  apply (act_then _ _ _ _ _ _ _ (λ h', mkNode s' (Some p') rc ld h') E). intros h'. by apply IH.
Qed.
(** A body run on its own is one of the runs of the node. *)
Lemma run_steps p s rc ld h : ∃ h', rtc step (mkNode s (Some p) rc ld h) (mkNode (runProg [] p s).2 None rc ld h').
Proof.
  revert s h. induction p as [a|k IH|m k IH|key v k IH|key k IH|k IH|k IH|k IH]; intros s h; simpl.
  1: exists h; apply rtc_once, step_end.
  all: eapply (act_then _ _ _ _ _ _ _ (λ h', mkNode _ None rc ld h')); [reflexivity|]; intros h'; apply IH.
Qed.
End Runs.

(** *** Revocation

    A peer deletes the key, its ping is lost, and no reconcile succeeds: two hundred time
    units later the cache still holds the key, and the node no longer offers it. *)
Definition tk1 : TrustedKey := trusted "tk1" true.
Definition forgotten : Node :=
  let s := mkTStore {["tk1" := tk1]} ∅ 0 0 true 0 200 in
  mkNode s None Idle [] [(200%Z, ∅); (0%Z, ∅); (0%Z, put tk1 ∅)].
Lemma forgotten_reachable : reachable 100 1 0 anything forgotten.
Proof.
  exists (mkNode (mkTStore {["tk1" := tk1]} (put tk1 ∅) 0 0 false 0 0) None Idle [] [(0%Z, put tk1 ∅)]). split.
  { exists 0%Z, (put tk1 ∅). eexists. split; [apply start_one|done]. by apply (bool_decide_unpack _). }
  eapply rtc_l; [by apply (step_peer _ _ _ _ _ _ _ _ _ ∅)|]. eapply rtc_l; [apply step_loop|].
  apply rtc_once. by apply step_time.
Qed.
Lemma forgotten_gone t kv key data :
  (t, kv) ∈ nd_history forgotten → (1 ≤ t)%Z → kv !! key = Some data → deserializeTrustedKey data ≠ Some tk1.
Proof.
  intros [[= -> ->]|[[= -> ->]|[[= -> _]|[]%elem_of_nil]%elem_of_cons]%elem_of_cons]%elem_of_cons Ht Hd; [done|done|lia].
Qed.
Lemma revocation_takes_effect_witness :
  ts_keys (nd_store forgotten) !! "tk1" = Some tk1 ∧ tk1 ∉ ListTrustedVerification 10 (nd_store forgotten).
Proof.
  split; [done|].
  by apply (revocation_takes_effect 100 10 1 0 anything ltac:(done) forgotten tk1 1 forgotten_reachable eq_refl forgotten_gone).
Defined.

(** *** A registration while a reconcile is under way

    The reconcile has listed the empty store; the registration that follows is not lost
    to it. *)
Definition empty0 : Node := mkNode (mkTStore ∅ ∅ 0 0 false 0 0) None Idle [] [(0%Z, ∅)].
Lemma empty0_constructed : constructed empty0.
Proof.
  exists 0%Z, ∅. eexists. split; [|done]. unfold NewKVTrustedKeyStore.
  by rewrite (strict_build _ (proj1 empty_settled)).
Qed.
Lemma listed_then_registered :
  ∃ h, rtc (step 100 1 0 alone) empty0
    (mkNode (mkTStore {["tk1" := tk1]} (put tk1 ∅) 1 0 false 1 0) None (Listed 1 0 ∅ 0) [] h).
Proof.
  destruct (run_steps 100 1 0 alone ltac:(done) (Register 100 tk1 (mkRotate false 0)) (mkTStore ∅ ∅ 0 0 false 0 0)
    (Listed 1 0 ∅ 0) [] [(0%Z, ∅); (0%Z, ∅)]) as [h Hr].
  exists h. eapply rtc_l; [apply step_gen|]. eapply rtc_l; [apply step_list|]. eapply rtc_l; [|exact Hr].
  apply (step_begin _ _ _ _ _ _ _ _ (RRegister tk1 (mkRotate false 0))); [apply trusted_valid|]. split; [|done].
  split; [done|]. by apply (bool_decide_unpack _).
Qed.
Lemma mutations_win_witness :
  ∃ n, rtc (step 100 1 0 alone) empty0 n ∧ (∃ gen t, nd_reconcile n = Listed 1 gen ∅ t) ∧
    ts_keys (nd_store n) = {["tk1" := tk1]} ∧ ts_keys (nd_store n) = buildTrustedKeyMap (ts_kv (nd_store n)).
Proof.
  destruct listed_then_registered as [h Hr]. eexists. split; [exact Hr|]. split; [by eexists _, _|]. split; [done|].
  by apply (mutations_win 100 1 0 empty0 _ empty0_constructed (proj1 empty_settled) Hr eq_refl).
Defined.

(** *** A rotation overtaken by a reconcile

    The retirement of the siblings is not counted as a generation.  A reconcile that
    begins and lists after the new key is counted, and before the siblings are written,
    is swapped in afterwards: the cache then offers as active a key that the rotation
    has retired, until the next reconcile. *)
Definition tk2 : TrustedKey := trusted "tk2" true.
Definition started : TStore := mkTStore {["tk1" := tk1]} (put tk1 ∅) 0 0 false 0 0.
Lemma both_settled : wfKV (put tk2 (put tk1 ∅)) ∧ agree (<["tk2" := tk2]> {["tk1" := tk1]}) (put tk2 (put tk1 ∅)).
Proof.
  destruct (one_settled "tk1") as [Hw Ha]; [by apply (bool_decide_unpack _)|].
  apply (put_settles {["tk1" := tk1]} (put tk1 ∅) tk2); [apply trusted_valid| |done|exact Hw|exact Ha].
  split; [done|]. by apply (bool_decide_unpack _).
Qed.
Definition retired1 : TrustedKey := retireTrusted (after 0 60) tk1.
Definition registered : TStore := mkTStore (<["tk2" := tk2]> {["tk1" := tk1]}) (put tk2 (put tk1 ∅)) 1 0 false 0 0.
Definition rotated : TStore :=
  mkTStore (<["tk1" := retired1]> (ts_keys registered)) (put retired1 (ts_kv registered)) 1 0 false 1 0.
Definition rest : prog (option authErr) :=
  Now (λ now, Keys (λ keys,
    flipSiblings (after now 60) (filter (λ k, trustedSibling tk2 k = true) (range keys).*2) false
      (λ failed, Ping (Done (if failed then Some (StorageFailed true) else None))))).
Lemma first_acts : acts 5 (Register 100 tk2 (mkRotate true 60)) started = Some (rest, registered).
Proof. reflexivity. Qed.
Lemma rest_run : (runProg [] rest registered).2 = rotated.
Proof. reflexivity. Qed.
Definition overtaken (h : list (Time * gmap string string)) : Node :=
  mkNode (bumpGen (set_keys (buildTrustedKeyMap (ts_kv registered)) rotated)) None (Swapped 0) [] h.
Lemma overtaken_reachable : ∃ h, reachable 100 1 0 anything (overtaken h).
Proof.
  destruct (acts_steps 100 1 0 anything I 5 _ started _ _ Idle [] [(0%Z, put tk1 ∅)] first_acts) as [h1 H1].
  destruct (run_steps 100 1 0 anything I rest registered (Listed 1 1 (ts_kv registered) 0) [] (record registered h1)) as [h2 H2].
  rewrite rest_run in H2. exists h2, (mkNode started None Idle [] [(0%Z, put tk1 ∅)]). split.
  { exists 0%Z, (put tk1 ∅), started. split; [apply start_one|done]. by apply (bool_decide_unpack _). }
  eapply rtc_l; [apply (step_begin _ _ _ _ _ _ _ _ (RRegister tk2 (mkRotate true 60))); [apply trusted_valid|exact I]|].
  etrans; [exact H1|]. eapply rtc_l; [apply step_gen|]. eapply rtc_l; [apply step_list|].
  etrans; [exact H2|]. apply rtc_once. apply step_swap. unfold swapKeys. by rewrite decide_True.
Qed.
Lemma rotation_overtaken :
  ∃ n, reachable 100 1 0 anything n ∧ nd_lock n = None ∧ stored (ts_kv (nd_store n)) "tk1" retired1 ∧
    tk_Active retired1 = false ∧ ts_keys (nd_store n) !! "tk1" = Some tk1 ∧ tk_Active tk1 = true.
Proof.
  destruct overtaken_reachable as [h Hr]. exists (overtaken h). refine (conj Hr (conj eq_refl (conj _ (conj eq_refl (conj _ eq_refl))))).
  - split; [done|]. exists (serializeTrustedKey retired1). split; [apply lookup_insert_eq|].
    apply deserialize_serialize. exact (trusted_valid "tk1" true).
  - destruct both_settled as [Hw Ha]. unfold overtaken. cbn [nd_store ts_keys bumpGen set_keys].
    unfold registered. cbn [ts_kv]. by rewrite (agree_unique _ _ _ (build_agree _ Hw) Ha).
Qed.
